(* ===== verification/_CoqProject ===== *)
-Q . S2P
Prelude.v
IPAddr.v
Aged.v
Slot.v
Counts.v
Bootcache.v
Livecache.v
Handouts.v
PFLogic.v
PFInv.v
PFSafety.v
PFProps.v
Decaying.v
Resource.v
ResourceInv.v
ResourceProps.v
DList.v
ResourceLists.v
Bytes.v
Xxhash.v
Varint.v
NodeCodec.v
CodecLemmas.v
CodecProps.v
NodeBackend.v
NodeDatabase.v
Serializer.v
TaggedCache.v
KeyCache.v
LedgerTiming.v
Dispute.v
Consensus.v
TxSets.v
ConsensusInv.v
LedgerConsensus.v
LedgerConsensusInv.v
ConsensusProps.v
ConsensusCover.v
ConsensusRun.v
ConsensusExamples.v
InboundTransactions.v
Validations.v
ValidationsProps.v
ValidationsExamples.v
Manifest.v
ValidatorList.v
ValidatorListProps.v
ValidatorListQuorum.v
ValidatorListExpired.v
SHANode.v
SHAKeys.v
SHAMap.v
SHAMapInv.v
SHARaw.v
SHARawProps.v
SHAV2.v
SHAStore.v
SHAMapSteps.v
SHAMapOps.v
SHAMapAdd.v
SHAMapDel.v
SHAMapFlush.v
SHAMapWorld.v
SHAMapHash.v
SHAMapIter.v
SHAMapOrder.v
SHAMapDelta.v
SHAMapDiff.v
RCLTxSet.v
SHAMapProps.v
