(* ===== verification/Prelude.v ===== *)
(** * Verification of finpald: connections, hash trees and their storage, consensus

    finpald is a peer-to-peer ledger server.  This development models four parts of it:
    the layer that decides whom the node talks to and how much it puts up with (the peer
    finder, [src/src/mtchain/peerfinder], and the resource manager,
    [src/src/mtchain/resource]); the hash trees that hold the state and the transactions
    of a ledger ([src/src/mtchain/shamap]); the encoding in which the nodes of these
    trees are stored ([src/src/mtchain/nodestore], [protocol/Serializer.h]); and the
    consensus on the transactions of the next ledger ([app/ledger], [app/consensus]) with the
    validations and the validator lists behind it ([app/misc]); with the pieces of the beast
    and nudb libraries they stand on: IP addresses and endpoints, the aged containers, the
    intrusive list, the decaying sample, the hash of the unordered containers, byte
    streams.  The source files named below are relative to [src/src/mtchain].

    ** How the parts interact

    The overlay (not modelled) accepts and opens sockets and tells the peer finder
    about each of them; the peer finder's [Logic] keeps one [SlotImp] per connection,
    counts them in [Counts], and hands out addresses from the [Livecache] (what peers
    gossip) and the [Bootcache] (what was reached before, persisted in a [Store])
    through the [handout] algorithm.  Independently each connection holds a [Consumer]
    of the resource manager, whose [Logic] charges a [DecayingSample] per address and
    answers whether to warn or to drop it; nodes exchange their balances as gossip.  The
    manager keeps its entries on intrusive lists.  A ledger keeps its items in a [SHAMap];
    maps share the nodes of their trees, a snapshot takes the nodes of its original and
    copies a node before changing it.  The node store writes the serialized nodes through
    the codec into a key-value database.  In a consensus round every node proposes a set
    of transactions, which is a [SHAMap] identified by its hash; [LedgerConsensusImp]
    collects the proposals of its peers and the sets they name, keeps a [DisputedTx] for
    every transaction on which the sets differ, moves its own position with the votes, and
    builds the next ledger when enough proposers agree.  The sets come from
    [InboundTransactions], which keeps them for a few rounds.  Validators sign the ledgers
    they accept; [Validations] keeps the latest of each, tells consensus which ledger the
    network is on, and has a job write the older ones to the database.  Which validators are
    trusted, and how many of them are a quorum, [ValidatorList] decides at the start of each
    round from the lists of its publishers; [ManifestCache] knows the keys they sign with.

    ** Files

    - Prelude.v: the error type [res] with its monad, machine integers, lemmas on
      lists, finite maps and sums over maps.
    - IPAddr.v: [beast/net]: [AddressV4], the [Address] variant with its throwing
      conversions, [Endpoint], their orders and classes.
    - Aged.v: [beast/container/detail/aged_ordered_container.h]: a map with a list of
      its keys by age; [expire].
    - Slot.v: [Tuning.h], [SlotImp], its recent table and state machine, [Fixed].
    - Counts.v: [PeerfinderConfig.cpp] and [Counts.h]; doubles are IEEE binary64.
    - Bootcache.v: [Bootcache.cpp], [StoreSqdb.h]; the database is the class [Store].
    - Livecache.v: [Livecache.h]; the shuffle is the class [RandomShuffle].
    - Handouts.v: [Handouts.h]: [handout] over the class [Target], whose laws
      [TargetLaws] the redirect, slot and connect targets discharge.
    - PFLogic.v: [peerfinder/impl/Logic.h]: the state as a record, one definition per
      operation, slots shared through pointers into a heap.
    - PFInv.v, PFSafety.v: the well-formedness invariant, its preservation by every
      operation, the step relation [step] and the reachable states.
    - PFProps.v: the properties of the peer finder, and a concrete run that
      instantiates them.
    - Decaying.v: [basics/DecayingSample.h].
    - Resource.v: [resource/impl/Logic.h], [Entry.h], [Key.h], [Import.h],
      [Consumer.cpp], [Fees.cpp]; consumers are handles on table entries.
    - ResourceInv.v, ResourceProps.v: reference counts, lists and remote balances as an
      invariant of the reachable states, and the properties.
    - DList.v: [beast/core/List.h] over a memory of nodes with two links each, and its
      refinement of sequences.
    - ResourceLists.v: the operations of the resource manager that move entries between
      its lists, over that memory.
    - Bytes.v: the streams and fixed-width fields of [nudb] (in [src/src/nudb]).
    - Xxhash.v: [beast/hash/impl/xxhash.c], [beast/hash/xxhasher.h].
    - Varint.v: [nodestore/impl/varint.h].
    - NodeCodec.v: [nodestore/impl/codec.h]; LZ4 is the class [LZ4] with its law.
      CodecLemmas.v, CodecProps.v: round trips and safety of the decoder.
    - NodeBackend.v: [EncodedBlob.cpp], [DecodedBlob.cpp] and the operations of
      [backend/NuDBFactory.cpp]; the database is the class [Nudb].  NodeDatabase.v: the
      positive and negative caches of [nodestore/impl/DatabaseImp.h] in front of it.
    - Serializer.v: [protocol/Serializer.h], [protocol/impl/Serializer.cpp].
    - TaggedCache.v, KeyCache.v: [basics/TaggedCache.h] with the reference counts of its
      objects, and [basics/KeyCache.h].
    - LedgerTiming.v: [app/ledger/LedgerTiming.h], [impl/LedgerTiming.cpp].
    - Dispute.v: [app/ledger/impl/DisputedTx.h], and a network of nodes that hear each
      other's votes.
    - Consensus.v: [LedgerProposal], [RCLCxPos] and the part of
      [app/ledger/impl/LedgerConsensusImp.cpp] that tracks positions, sets and disputes (the
      record [Round]); transaction sets are the class [TxSetOps] with [TxSetLaws], which
      TxSets.v discharges for sets of numbers and RCLTxSet.v for [app/consensus/RCLCxTx.h].
      ConsensusInv.v: the invariant of a round, kept by every handler.
    - LedgerConsensus.v: the rest of [LedgerConsensusImp.cpp] (timer, phases, rounds,
      accepting; the record [LC]) and [ConsensusImp.cpp]; what the object reads from the
      server is the record [Env].  The accept job, which runs without the lock, is three
      steps ([AcceptJob]).  LedgerConsensusInv.v: its invariant, the events (timer, proposal,
      set, step of the accept job, start of a round, simulation) and the reachable states.
    - ConsensusProps.v, ConsensusCover.v, ConsensusRun.v: the properties of rounds (agreement,
      exact tallies, every difference disputed) and of the object.
      ConsensusExamples.v: concrete runs that instantiate them.
    - InboundTransactions.v: [app/ledger/impl/InboundTransactions.cpp].
    - Validations.v: [app/misc/Validations.cpp] over the cache of TaggedCache.v;
      ValidationsProps.v: its properties, with those of the consensus object that reads it;
      ValidationsExamples.v: concrete runs.
    - Manifest.v: [ManifestCache] of [app/misc/impl/Manifest.cpp].  ValidatorList.v:
      [app/misc/ValidatorList.h] and [impl/ValidatorList.cpp]; ValidatorListProps.v: the
      listings are exact; ValidatorListQuorum.v: trusted keys and the overlap of quorums;
      ValidatorListExpired.v: expired lists, and concrete runs.
    - SHANode.v: [shamap/SHAMapNodeID.h], [SHAMapItem.h], the version 1 nodes of
      [SHAMapTreeNode.h]; the digest is the class [Sha512Half].
    - SHAMap.v: [shamap/impl/SHAMap.cpp]: maps over a heap of shared nodes; lookup,
      adding, changing, deleting, copy on write, hashing, snapshots.
    - SHARaw.v: the wire and prefix formats of the nodes of both versions
      ([shamap/impl/SHAMapTreeNode.cpp]); SHARawProps.v: their round trip and memory safety;
      SHAV2.v: the common prefixes of version 2 nodes; SHAStore.v: [writeNode] and
      [fetchNodeFromDB] of [SHAMap.cpp] over the node database.
    - SHAKeys.v: the digits of a key and the positions they lead to.  SHAMapInv.v: what a
      tree in the heap holds ([repr]), and the hash of its contents.  SHAMapSteps.v: how the
      heap may change under other maps ([evolves]).  SHAMapOps.v, SHAMapAdd.v, SHAMapDel.v,
      SHAMapFlush.v: each operation on the representation.
    - SHAMapWorld.v: programs over several maps ([exec_all]), their specification by finite
      maps ([spec_all]), and the simulation between them.
    - SHAMapHash.v: trees with equal hashes have equal contents, as long as the digest
      has no collision among what the two trees hash; transactions without metadata must be
      stored under their own digest, which is all their leaf hashes cover.
    - SHAMapIter.v, SHAMapOrder.v: iterators and [upper_bound]; the order of the items.
    - SHAMapDelta.v, SHAMapDiff.v: [shamap/impl/SHAMapDelta.cpp], and the difference of two
      finite maps.
    - SHAMapProps.v: the properties of the hash tree, and an example program.

    ** What the theorems show

    - Safety: in every reachable state every enabled operation of the peer finder
      ([reachable_safe]) and of the resource manager ([resource_safe]) returns: no
      assertion of the sources fails, nothing dangling is dereferenced, no loop runs
      out of fuel.  The same holds of every call on the consensus object from its constructor
      on (the timer after the first round was started), up to the fuel of
      its nested calls ([consensus_invariant]), which is bounded when the validators' view is
      settled ([steps_return]).  The decoder of node objects and the reader of tree nodes stay
      inside their buffers ([codec_decoder_safe], [make_memory_safe]).
    - Consensus: two nodes that declare consensus agree, unless most of the proposers are
      two-faced ([consensus_agreement]); votes on a dispute converge in two rounds and stay
      ([dispute_converges]); every difference is in dispute once agreement was counted
      ([disputes_complete]); disputes count every proposer ([dispute_tallies]) unless a set
      arrives between two proposals, when the votes of the first are lost
      ([late_set_loses_votes]); a round is accepted only with a
      quorum and a close time ([accept_needs_quorum], [closeTime_vote]), and the phases follow
      one another ([phase_discipline]); disagreement on the close time coarsens its
      resolution ([resolution_coarsens]).  The sets that the round relies on stay for three
      rounds ([inbound_sets_kept]); the node follows another ledger only for more validators
      than its own has ([network_ledger_majority]).
    - Validations: none is lost between the table, the list of stale ones and the database,
      whatever the interleaving with the writing job ([validations_conserved]), a flush ends
      with all of them written ([flush_writes_all]), and the latest of each validator is the
      current one ([newest_validation_wins]).
    - Validator list: the count of each key is the number of its occurrences on lists while no
      list expires ([listings_exact]) and not after that ([expired_drops_each_round]); the
      trusted keys are our own and the ones with the most listings ([trusted_highest_ranked]), and the quorums of two
      servers with the same lists overlap ([quorum_prevents_fork]); manifests are consistent
      and revocations final ([manifests_consistent]).
    - Caches: all that is held of a key is one object ([cache_canonical]), and a sweep drops
      by age within bounds ([sweep_ages]).
    - Invariants: the counters are exact ([reachable_counts]), the key set is the set of
      keys of the active slots ([reachable_keys]), reference counts are exact
      ([refcount_exact]) and the entry lists partition the table ([lists_partition]).
    - Refinement: programs of operations on hash trees and their snapshots compute what
      finite maps compute ([shamap_refines]); the intrusive list computes what sequences
      compute ([dlist_refines]), also under the resource manager
      ([resource_lists_in_memory]).
    - Hash trees: equal hashes mean equal contents ([shamap_hash_binds]), [compare] reports
      exactly the differences ([shamap_compare_exact]), iteration is complete and in order
      ([shamap_iterates], [shamap_upper_bound]), hashing terminates within a bound
      ([unshare_terminates]), and the positions of a path are those of its key
      ([walk_path_typed]).
    - Behaviour: what each decision of the peer finder and the resource manager is, in terms
      of the state ([activate_decides], [new_inbound_limit], [charge_decides], ...), and for
      the three handouts both that what is handed out is admissible and that nothing
      admissible is left out while there is room.
    - Round trips: variable-length integers, what the serializer writes
      ([serializer_roundtrip]), tree nodes in both formats ([node_raw_roundtrip]) and through
      the node store ([stored_node_read_back]), inner nodes of both versions and node objects
      through the backend, the boot cache through its store, opening and closing a slot.
    - Components: minimum hop count and exact expiry of the live cache; valences,
      capacity, pruning and persistence of the boot cache; the slot state machine; the
      back-off of fixed peers; tuning and splitting of the peer limits; the rate of
      decay; the private address ranges.
    - Equivalence: the streaming hash gives the one-shot hash of the concatenation for
      every way of cutting the input, on machines of both byte orders, inside its
      buffer.
    - Errors: inputs on which the sources do fail ([boot_on_failure_dangling],
      [on_endpoints_negative_hops], [backend_inner_unreadable],
      [update_missing_asserts], [self_assignment_fails], [timer_before_round]); the safety
      theorems exclude these by their enabling conditions.

    ** Conventions and bounds

    An operation that can fail returns [res]; failures are a failed assertion, a thrown
    exception, undefined behaviour, or lack of fuel.  Unsigned types wrap modulo their
    width and [int] is two's complement; reference counts of the resource manager and the
    yes and no counters of a dispute are integers without bound, as an overflow would need
    2^31 handles or peers, and so are offsets into a buffer, as it would need 2^31 bytes.
    An access outside a buffer or an array is undefined behaviour in the model, too.  Times are ticks of
    a nanosecond clock as integers; operations take the time [now] they run at, and the
    times of a run do not decrease.  Loops over containers are structural; [handout] takes
    the room left in its targets plus one as fuel, since every round but the last
    inserts something; the loops of the hash take the length of the input.  A walk in a
    hash tree has fuel 65, as keys have 64 digits; the loops that visit a whole tree take
    their fuel as an argument, and the theorems say that enough of it gives the result.
    Sequence numbers of maps are 32 bits wide and grow with every snapshot of a snapshot, so
    programs of up to 2^32 - 2 operations are considered.  Endpoints
    carry IPv4 addresses: the IPv6 operations of the sources are unimplemented stubs.
    [startRound], [handleLCL] and [timerEntry] of the consensus object call each other; the
    number of nested starts of a round is their fuel, and three are enough when the validators'
    view of the last ledger does not depend on ours.  Network times are 32-bit seconds,
    durations of the consensus are milliseconds without bound.  The size of the trusted set,
    which the sources compute in floating point as 1.25 times the quorum, is the integer part of
    the exact product, which it equals for all quorums below 2^50.
    Each operation of a component runs under its lock and is one step, within which no time
    passes; the unlocked call inside [fetch] of the peer finder is an argument of it, the job
    that writes validations, which releases the lock, is several steps, and so is the accept
    job of consensus, which does not take it before its end: other calls come between its
    parts and not, as a data race, inside one.  The caches of the node database may forget
    entries between any two calls.  The differences of two transaction sets are taken in the
    order in which the comparison meets them and stop at 65536 (RCLTxSet.v); the theorems that
    rely on all of them are about sets that differ in no more.  [std::map] traversal is the list of
    entries sorted by key; the order of hash tables is the class [Traversal].

    ** Not modelled

    Diagnostic output ([onWrite], [writeSlots], [stateString]); the threads and timers of
    the managers; the asynchronous connection checker, whose outcome is an argument of
    [checkComplete]; parsing and printing of addresses; operations on hash
    trees of version 2, trees whose nodes are loaded on demand or that are being synchronized
    with a peer; the other back ends and the threads of the node store; failures of the
    database that validations are written to; building the
    ledger that consensus agreed on (applying transactions, the open ledger, signatures and
    the contents of messages), which the consensus object asks of its environment; the other
    subsystems of the server (overlay, transactions, paths, RPC) and the vendored libraries.
    Candidates for extension, in order: parsing and printing of addresses with their round
    trip, [TransactionAcquire.cpp], [ValidatorSite.cpp]. *)

From stdpp Require Export base tactics option list gmap sorting.
From Stdlib Require Export ZArith Lia.

#[export] Set Default Goal Selector "!".

(** ** Errors

    An operation of the sources can leave its normal path in four ways: an
    [assert] fails, an exception is thrown, a dangling iterator or null pointer is
    dereferenced, or a bounded loop of the model runs out of fuel.  [res] makes
    the four explicit, so that "the operation returns" is a theorem. *)

Inductive failure :=
| assert_failed        (* a C++ [assert] whose condition is false *)
| exception_thrown     (* [Throw<...>] or [throw] *)
| undefined            (* dereference of an erased element or a null pointer,
                          or an out-of-range floating-point conversion *)
| out_of_fuel.         (* the bound given to a loop of the model was too small *)

Inductive res (A : Type) :=
| Ok (a : A)
| Err (e : failure).
Arguments Ok {A} a.
Arguments Err {A} e.

#[global] Instance res_ret : MRet res := fun A a => Ok a.
#[global] Instance res_bind : MBind res := fun A B f m =>
  match m with Ok a => f a | Err e => Err e end.

#[global] Instance failure_eq_dec : EqDecision failure.
Proof. solve_decision. Defined.

(** [assert (b);] of the sources. *)
Definition assert_ (b : bool) : res unit := if b then Ok tt else Err assert_failed.

(** Dereferencing an iterator or a pointer that may be invalid. *)
Definition deref {A} (o : option A) : res A :=
  match o with Some a => Ok a | None => Err undefined end.

Definition is_ok {A} (r : res A) : bool := match r with Ok _ => true | Err _ => false end.

(** The value of a computation that succeeds, for concrete runs. *)
Definition unwrap {A} (d : A) (m : res A) : A := match m with Ok a => a | Err _ => d end.

Lemma unwrap_ok {A} (d : A) m : is_ok m = true → m = Ok (unwrap d m).
Proof. by destruct m. Qed.

Lemma bind_ok {A B} (m : res A) (f : A → res B) b :
  (m ≫= f) = Ok b ↔ ∃ a, m = Ok a ∧ f a = Ok b.
Proof. destruct m; naive_solver. Qed.

Lemma assert_ok b u : assert_ b = Ok u ↔ b = true.
Proof. destruct b, u; naive_solver. Qed.

Lemma deref_ok {A} (o : option A) a : deref o = Ok a ↔ o = Some a.
Proof. destruct o; naive_solver. Qed.

(** [inv_res] decomposes a hypothesis that says a monadic computation succeeded. *)
Ltac inv_res :=
  repeat match goal with
  | H : (_ ≫= _) = Ok _ |- _ => apply bind_ok in H as (?&?&?)
  | H : assert_ _ = Ok _ |- _ => apply assert_ok in H
  | H : deref _ = Ok _ |- _ => apply deref_ok in H
  | H : Ok _ = Ok _ |- _ => injection H as H; subst
  | H : mret _ = Ok _ |- _ => injection H as H; subst
  | H : Err _ = Ok _ |- _ => discriminate H
  end.

(** ** Machine integers

    A [w]-bit integer is a [Z]; the wrap-around of an unsigned type is reduction
    modulo [2^w], that of [int] is the two's complement representative. *)

Definition u16 (x : Z) : Z := (x mod 2 ^ 16)%Z.
Definition u32 (x : Z) : Z := (x mod 2 ^ 32)%Z.
Definition u64 (x : Z) : Z := (x mod 2 ^ 64)%Z.
Definition i32 (x : Z) : Z := ((x + 2 ^ 31) mod 2 ^ 32 - 2 ^ 31)%Z.
Definition i64 (x : Z) : Z := ((x + 2 ^ 63) mod 2 ^ 64 - 2 ^ 63)%Z.

Section machine_integers.
Local Open Scope Z_scope.

Lemma u64_idemp x : u64 (u64 x) = u64 x.
Proof. unfold u64. apply Zmod_mod. Qed.
Lemma u64_add_l x y : u64 (u64 x + y) = u64 (x + y).
Proof. unfold u64. apply Zplus_mod_idemp_l. Qed.
Lemma u64_small x : 0 <= x < 2 ^ 64 → u64 x = x.
Proof. apply Z.mod_small. Qed.
Lemma u64_range x : 0 <= u64 x < 2 ^ 64.
Proof. unfold u64. apply Z.mod_pos_bound. lia. Qed.

Lemma i32_range x : - 2 ^ 31 <= i32 x < 2 ^ 31.
Proof. unfold i32. pose proof (Z.mod_pos_bound (x + 2 ^ 31) (2 ^ 32)). lia. Qed.
Lemma i32_small x : - 2 ^ 31 <= x < 2 ^ 31 → i32 x = x.
Proof. intros. unfold i32. rewrite Z.mod_small; lia. Qed.
Lemma i32_add_l x y : i32 (i32 x + y) = i32 (x + y).
Proof.
  unfold i32. f_equal.
  replace ((x + 2 ^ 31) mod 2 ^ 32 - 2 ^ 31 + y + 2 ^ 31)
    with ((x + 2 ^ 31) mod 2 ^ 32 + y) by lia.
  rewrite Zplus_mod_idemp_l. f_equal. lia.
Qed.
Lemma i32_idemp x : i32 (i32 x) = i32 x.
Proof. apply i32_small. pose proof (i32_range x). lia. Qed.
Lemma i32_add_r x y : i32 (x + i32 y) = i32 (x + y).
Proof. rewrite (Z.add_comm x (i32 y)), i32_add_l. f_equal. lia. Qed.
End machine_integers.

(** ** Counting the entries of a map *)

Lemma size_dom_filter `{Countable K} {A} (P : K * A → Prop) `{!∀ x, Decision (P x)} (m : gmap K A) :
  size (dom (filter P m) : gset K) = length (filter P (map_to_list m)).
Proof.
  rewrite size_dom, map_filter_alt, map_size_list_to_map; [done|].
  eapply sublist_NoDup; [apply (NoDup_fst_map_to_list m)|]. apply fmap_sublist, sublist_filter.
Qed.

(** ** Lists with node removal

    Erasing an element of a linked list through its iterator removes that node
    and keeps the order of the rest. *)

Section erase1.
Context {A : Type} `{!EqDecision A}.
Implicit Types (l : list A) (x y : A).

Fixpoint erase1 (x : A) (l : list A) : list A :=
  match l with
  | [] => []
  | y :: l' => if decide (x = y) then l' else y :: erase1 x l'
  end.

Lemma erase1_perm x l : x ∈ l → l ≡ₚ x :: erase1 x l.
Proof.
  induction l as [|y l IH]; [by intros ?%not_elem_of_nil|].
  intros Hx. simpl. case_decide as E; [by subst|].
  apply elem_of_cons in Hx as [?|Hx]; [done|].
  rewrite (IH Hx) at 1. constructor.
Qed.

Lemma erase1_not_elem_of x l : x ∉ l → erase1 x l = l.
Proof.
  induction l as [|y l IH]; [done|]. rewrite not_elem_of_cons. intros [??].
  simpl. rewrite decide_False by done. by rewrite IH.
Qed.

Lemma elem_of_erase1_inv x y l : y ∈ erase1 x l → y ∈ l.
Proof.
  induction l as [|z l IH]; [done|]. simpl. case_decide; [by right|].
  rewrite !elem_of_cons. naive_solver.
Qed.

Lemma elem_of_erase1 x y l : NoDup l → y ∈ erase1 x l ↔ y ∈ l ∧ y ≠ x.
Proof.
  intros Hnd. destruct (decide (x ∈ l)) as [Hx|Hx].
  - pose proof (erase1_perm x l Hx) as Hp.
    rewrite Hp in Hnd. apply NoDup_cons in Hnd as [Hnx Hnd].
    rewrite Hp at 2. rewrite elem_of_cons. naive_solver.
  - rewrite erase1_not_elem_of by done. naive_solver.
Qed.

Lemma NoDup_erase1 x l : NoDup l → NoDup (erase1 x l).
Proof.
  intros Hnd. destruct (decide (x ∈ l)) as [Hx|Hx].
  - rewrite (erase1_perm x l Hx) in Hnd. by apply NoDup_cons in Hnd as [_ ?].
  - by rewrite erase1_not_elem_of.
Qed.

Lemma length_erase1 x l : x ∈ l → length l = S (length (erase1 x l)).
Proof. intros Hx. by rewrite (erase1_perm x l Hx) at 1. Qed.

Lemma erase1_sublist x l : sublist (erase1 x l) l.
Proof.
  induction l as [|y l IH]; simpl; [constructor|].
  case_decide; by constructor.
Qed.
End erase1.

(** ** Sums over finite maps *)

Section msum.
Context {K V : Type} `{Countable K}.
Local Open Scope Z_scope.

Definition msum (f : V → Z) (m : gmap K V) : Z :=
  map_fold (fun _ v acc => f v + acc) 0 m.

Lemma msum_empty f : msum f ∅ = 0.
Proof. apply map_fold_empty. Qed.

Lemma msum_insert f m k v :
  m !! k = None → msum f (<[k:=v]> m) = f v + msum f m.
Proof. intros. unfold msum. rewrite map_fold_insert_L; [done|intros; lia|done]. Qed.

Lemma msum_delete f m k v :
  m !! k = Some v → msum f (delete k m) = msum f m - f v.
Proof.
  intros Hk. rewrite <-(insert_delete_id m k v) at 2 by done.
  rewrite msum_insert by apply lookup_delete_eq. lia.
Qed.

Lemma msum_update f m k v w :
  m !! k = Some v → msum f (<[k:=w]> m) = msum f m - f v + f w.
Proof.
  intros Hk. rewrite <-insert_delete_eq.
  rewrite msum_insert by apply lookup_delete_eq.
  rewrite (msum_delete f m k v) by done. lia.
Qed.

Lemma msum_fmap f (g : V → V) m :
  (∀ v, f (g v) = f v) → msum f (g <$> m) = msum f m.
Proof.
  intros Hg. induction m as [|k v m Hk IH] using map_ind.
  - by rewrite fmap_empty.
  - rewrite fmap_insert, !msum_insert, Hg, IH; [done|done|]. by rewrite lookup_fmap, Hk.
Qed.

Lemma msum_nonneg f m : (∀ v, 0 <= f v) → 0 <= msum f m.
Proof.
  intros Hf. induction m as [|k v m Hk IH] using map_ind.
  - by rewrite msum_empty.
  - rewrite msum_insert by done. specialize (Hf v). lia.
Qed.

Lemma msum_le_size f m : (∀ v, f v <= 1) → msum f m <= Z.of_nat (size m).
Proof.
  intros Hf. induction m as [|k v m Hk IH] using map_ind.
  - by rewrite msum_empty.
  - rewrite msum_insert, map_size_insert_None by done. specialize (Hf v). lia.
Qed.
End msum.

(** ** Lists updated by index *)

Lemma fmap_alter_at {A B} (f : A → B) (g : A → A) (h : B → B) (l : list A) i :
  (∀ x, l !! i = Some x → f (g x) = h (f x)) →
  f <$> alter g i l = alter h i (f <$> l).
Proof.
  intros Hi. apply list_eq. intros j. rewrite list_lookup_fmap.
  destruct (decide (i = j)) as [<-|Hne].
  - rewrite !list_lookup_alter_eq, list_lookup_fmap.
    destruct (l !! i) as [x|]; simpl; [|done]. by rewrite Hi.
  - by rewrite !list_lookup_alter_ne, list_lookup_fmap.
Qed.

(** ** Filtering *)

Lemma filter_all {A} (P : A → Prop) `{!∀ x, Decision (P x)} (l : list A) :
  Forall P l → filter P l = l.
Proof.
  induction 1 as [|x l Hx Hl IH]; [done|]. by rewrite filter_cons_True, IH.
Qed.

(** ** Sorted lists *)

Lemma StronglySorted_sublist {A} (R : relation A) (l1 l2 : list A) :
  sublist l1 l2 → StronglySorted R l2 → StronglySorted R l1.
Proof.
  induction 1 as [|x l1 l2 Hs IH|x l1 l2 Hs IH]; [done| |]; rewrite !StronglySorted_cons.
  - intros [Hx Hl]. split; [|by apply IH].
    rewrite Forall_forall in *. intros y Hy. apply Hx. by eapply elem_of_sublist.
  - intros [_ Hl]. by apply IH.
Qed.

Lemma StronglySorted_snoc {A} (R : relation A) (l : list A) x :
  StronglySorted R l → Forall (fun y => R y x) l → StronglySorted R (l ++ [x]).
Proof.
  intros Hl Hx. apply StronglySorted_app_2; [|done|repeat constructor].
  intros x1 x2 Hx1 ->%list_elem_of_singleton. by eapply Forall_forall in Hx.
Qed.

(** ** Automation *)

Create HintDb finpal discriminated.
#[export] Hint Resolve NoDup_erase1 u64_range i32_range : finpal.

(** [by_compute] decides a closed goal by evaluating its decision procedure. *)
Ltac by_compute :=
  match goal with |- ?P => refine (bool_decide_eq_true_1 P _); vm_compute; reflexivity end.
