(* ===== verification/IPAddr.v ===== *)
(** * IP addresses and endpoints (beast/net)

    [AddressV4] with its classification predicates, the two-version [Address]
    wrapper, and [Endpoint], an address with a port.

    [AddressV6] has no data in the sources: each of its operations is
    [assert(false)], and neither the parsers nor [from_asio] ever build one.  The
    wrapper's operations are modelled with that failure; [Endpoint], the key type of
    every table of the peer finder and of the resource manager, therefore holds an
    [AddressV4]. *)

From S2P Require Import Prelude.
From stdpp Require Import countable.

Local Open Scope Z_scope.

(** ** AddressV4 *)

Record AddressV4 := mkV4 { value : Z }.   (* std::uint32_t *)

#[global] Instance AddressV4_eq_dec : EqDecision AddressV4.
Proof. solve_decision. Defined.
#[global] Instance AddressV4_countable : Countable AddressV4.
Proof. by refine (inj_countable' value mkV4 _); intros []. Defined.

Definition wf_v4 (a : AddressV4) : Prop := 0 <= value a < 2 ^ 32.

Definition v4_any : AddressV4 := mkV4 0.
Definition v4_loopback : AddressV4 := mkV4 0x7f000001.

(** [AddressV4 (a, b, c, d)] *)
Definition v4_of_octets (a b c d : Z) : AddressV4 :=
  mkV4 (u32 (Z.lor (Z.lor (Z.lor (Z.shiftl a 24) (Z.shiftl b 16)) (Z.shiftl c 8)) d)).

(** [operator[]]: the shift of each index, [out_of_range] otherwise. *)
Definition octet_shift (index : Z) : res Z :=
  match index with
  | 0 => Ok 24 | 1 => Ok 16 | 2 => Ok 8 | 3 => Ok 0
  | _ => Err exception_thrown
  end.

(** [Proxy::operator std::uint8_t] *)
Definition v4_octet (a : AddressV4) (index : Z) : res Z :=
  m_shift ← octet_shift index;
  Ok (Z.land (Z.shiftr (value a) m_shift) 0xff).

(** [Proxy::operator=] *)
Definition v4_set_octet (a : AddressV4) (index v : Z) : res AddressV4 :=
  m_shift ← octet_shift index;
  Ok (mkV4 (Z.lor (Z.land (value a) (u32 (Z.lnot (Z.shiftl 0xff m_shift))))
                  (Z.shiftl (Z.land v 0xff) m_shift))).

(** [get_class]: the top three bits index the table ["AAAABBCD"]. *)
Inductive address_class := classA | classB | classC | classD.

Definition get_class (a : AddressV4) : address_class :=
  match Z.shiftr (Z.land (value a) 0xE0000000) 29 with
  | 0 | 1 | 2 | 3 => classA
  | 4 | 5 => classB
  | 6 => classC
  | _ => classD
  end.

Definition netmask_of_class (c : address_class) : AddressV4 :=
  match c with
  | classA => mkV4 0xff000000
  | classB => mkV4 0xffff0000
  | classC => mkV4 0xffffff00
  | classD => mkV4 0xffffffff
  end.

Definition netmask (a : AddressV4) : AddressV4 := netmask_of_class (get_class a).

Definition broadcast_mask (address mask : AddressV4) : AddressV4 :=
  mkV4 (Z.lor (value address) (Z.lxor (value mask) 0xffffffff)).

Definition broadcast (address : AddressV4) : AddressV4 :=
  broadcast_mask address (netmask address).

Definition v4_eqb (lhs rhs : AddressV4) : bool := value lhs =? value rhs.
Definition v4_ltb (lhs rhs : AddressV4) : bool := value lhs <? value rhs.

Definition is_broadcast (a : AddressV4) : bool := v4_eqb a (broadcast a).

Definition v4_is_loopback (a : AddressV4) : bool :=
  Z.land (value a) 0xff000000 =? 0x7f000000.

Definition v4_is_unspecified (a : AddressV4) : bool := value a =? 0.

Definition v4_is_multicast (a : AddressV4) : bool :=
  Z.land (value a) 0xf0000000 =? 0xe0000000.

Definition v4_is_private (a : AddressV4) : bool :=
  (Z.land (value a) 0xff000000 =? 0x0a000000)
  || (Z.land (value a) 0xfff00000 =? 0xac100000)
  || (Z.land (value a) 0xffff0000 =? 0xc0a80000)
  || v4_is_loopback a.

Definition v4_is_public (a : AddressV4) : bool :=
  negb (v4_is_private a) && negb (v4_is_multicast a).

(** ** Address: an IPv4 or an (unimplemented) IPv6 address *)

Inductive Address :=
| ipv4 (m_v4 : AddressV4)
| ipv6.

Definition is_v4 (a : Address) : bool := match a with ipv4 _ => true | ipv6 => false end.
Definition is_v6 (a : Address) : bool := match a with ipv4 _ => false | ipv6 => true end.

Definition to_v4 (a : Address) : res AddressV4 :=
  match a with ipv4 v => Ok v | ipv6 => Err exception_thrown end.
Definition to_v6 (a : Address) : res unit :=
  match a with ipv4 _ => Err exception_thrown | ipv6 => Ok tt end.

Definition is_any (a : Address) : bool :=
  match a with ipv4 v => v4_eqb v v4_any | ipv6 => false end.

(** The operations of [AddressV6]: all of them are [assert(false)]. *)
Definition v6_unimplemented : res bool := Err assert_failed.

Definition addr_eq (lhs rhs : Address) : res bool :=
  if is_v4 lhs then
    if is_v4 rhs then l ← to_v4 lhs; r ← to_v4 rhs; Ok (v4_eqb l r) else Ok false
  else
    if is_v6 rhs then _ ← to_v6 lhs; _ ← to_v6 rhs; v6_unimplemented else Ok false.

(** The enumerators: [ipv4] is 0 and [ipv6] is 1. *)
Definition m_type (a : Address) : Z := if is_v4 a then 0 else 1.

Definition addr_lt (lhs rhs : Address) : res bool :=
  if m_type lhs <? m_type rhs then Ok true
  else if is_v4 lhs then l ← to_v4 lhs; r ← to_v4 rhs; Ok (v4_ltb l r)
  else _ ← to_v6 lhs; _ ← to_v6 rhs; v6_unimplemented.

Definition addr_dispatch (f : AddressV4 → bool) (a : Address) : res bool :=
  if is_v4 a then v ← to_v4 a; Ok (f v) else _ ← to_v6 a; v6_unimplemented.

Definition addr_is_loopback := addr_dispatch v4_is_loopback.
Definition addr_is_unspecified := addr_dispatch v4_is_unspecified.
Definition addr_is_multicast := addr_dispatch v4_is_multicast.
Definition addr_is_private := addr_dispatch v4_is_private.
Definition addr_is_public := addr_dispatch v4_is_public.

(** ** Endpoint *)

Record IPEndpoint := mkEp { m_addr : AddressV4; m_port : Z }.  (* Port = uint16_t *)

#[global] Instance IPEndpoint_eq_dec : EqDecision IPEndpoint.
Proof. solve_decision. Defined.
#[global] Instance IPEndpoint_countable : Countable IPEndpoint.
Proof.
  by refine (inj_countable' (fun e => (m_addr e, m_port e))
    (fun p => mkEp p.1 p.2) _); intros [].
Defined.

(** [Endpoint ()] *)
Definition ep_default : IPEndpoint := mkEp v4_any 0.

Definition address (e : IPEndpoint) : AddressV4 := m_addr e.
Definition port (e : IPEndpoint) : Z := m_port e.
Definition at_port (e : IPEndpoint) (p : Z) : IPEndpoint := mkEp (m_addr e) p.

Definition ep_eqb (lhs rhs : IPEndpoint) : bool :=
  v4_eqb (address lhs) (address rhs) && (port lhs =? port rhs).

Definition ep_ltb (lhs rhs : IPEndpoint) : bool :=
  if v4_ltb (address lhs) (address rhs) then true
  else if v4_ltb (address rhs) (address lhs) then false
  else port lhs <? port rhs.

Definition is_loopback (e : IPEndpoint) : bool := v4_is_loopback (address e).
Definition is_unspecified (e : IPEndpoint) : bool := v4_is_unspecified (address e).
Definition is_multicast (e : IPEndpoint) : bool := v4_is_multicast (address e).
Definition is_private (e : IPEndpoint) : bool := v4_is_private (address e).
Definition is_public (e : IPEndpoint) : bool := v4_is_public (address e).

(** The order in which a [std::map <Endpoint, ...>] is traversed. *)
Definition ep_le (x y : IPEndpoint) : Prop := ep_ltb y x = false.
#[global] Instance ep_le_dec x y : Decision (ep_le x y).
Proof. unfold ep_le. apply _. Defined.

Definition entries {V} (m : gmap IPEndpoint V) : list (IPEndpoint * V) :=
  merge_sort (fun x y => ep_le x.1 y.1) (map_to_list m).

(** ** Lemmas *)

Lemma v4_eqb_eq a b : v4_eqb a b = true ↔ a = b.
Proof. destruct a, b. unfold v4_eqb; simpl. rewrite Z.eqb_eq. naive_solver. Qed.

Lemma ep_eqb_eq a b : ep_eqb a b = true ↔ a = b.
Proof.
  destruct a as [[x] p], b as [[y] q]. unfold ep_eqb, v4_eqb, address, port; simpl.
  rewrite andb_true_iff, !Z.eqb_eq. naive_solver.
Qed.

Lemma ep_ltb_lex a b :
  ep_ltb a b = true ↔
  value (address a) < value (address b)
  ∨ (value (address a) = value (address b) ∧ port a < port b).
Proof.
  unfold ep_ltb, v4_ltb.
  destruct (Z.ltb_spec (value (address a)) (value (address b))); [naive_solver lia|].
  destruct (Z.ltb_spec (value (address b)) (value (address a))); [naive_solver lia|].
  rewrite Z.ltb_lt. naive_solver lia.
Qed.

Lemma ep_ltb_trichotomy a b : ep_ltb a b = true ∨ a = b ∨ ep_ltb b a = true.
Proof.
  rewrite !ep_ltb_lex. destruct a as [[x] p], b as [[y] q]; unfold address, port; simpl.
  destruct (Z.lt_trichotomy x y) as [?|[->|?]]; [lia| |lia].
  destruct (Z.lt_trichotomy p q) as [?|[->|?]]; [lia|auto|lia].
Qed.

#[global] Instance ep_lt_strict : StrictOrder (fun a b => ep_ltb a b = true).
Proof.
  split.
  - intros a H. apply ep_ltb_lex in H. lia.
  - intros a b c H1 H2. apply ep_ltb_lex in H1, H2. apply ep_ltb_lex. lia.
Qed.

Lemma ep_le_iff a b :
  ep_le a b ↔ value (address a) < value (address b)
  ∨ (value (address a) = value (address b) ∧ port a <= port b).
Proof.
  unfold ep_le. rewrite <-not_true_iff_false, ep_ltb_lex. lia.
Qed.

#[global] Instance ep_le_fst_trans V : Transitive (fun x y : IPEndpoint * V => ep_le x.1 y.1).
Proof. intros x y z. rewrite !ep_le_iff. lia. Qed.
#[global] Instance ep_le_fst_total V : Total (fun x y : IPEndpoint * V => ep_le x.1 y.1).
Proof. intros x y. rewrite !ep_le_iff. lia. Qed.

Lemma entries_perm {V} (m : gmap IPEndpoint V) : entries m ≡ₚ map_to_list m.
Proof. apply merge_sort_Permutation. Qed.

Lemma elem_of_entries {V} (m : gmap IPEndpoint V) k v :
  (k, v) ∈ entries m ↔ m !! k = Some v.
Proof. by rewrite entries_perm, elem_of_map_to_list. Qed.

Lemma NoDup_entries {V} (m : gmap IPEndpoint V) : NoDup (entries m).*1.
Proof. rewrite entries_perm. apply NoDup_fst_map_to_list. Qed.

Lemma entries_sorted {V} (m : gmap IPEndpoint V) :
  StronglySorted (fun x y => ep_le x.1 y.1) (entries m).
Proof. apply StronglySorted_merge_sort; apply _. Qed.

Lemma length_entries {V} (m : gmap IPEndpoint V) : length (entries m) = size m.
Proof. rewrite entries_perm. apply length_map_to_list. Qed.

(** Masking off the low [k] bits of a 32-bit word keeps the multiple of [2^k] below it. *)
Lemma land_high_mask v k :
  0 <= v < 2 ^ 32 → 0 <= k <= 32 → Z.land v (2 ^ 32 - 2 ^ k) = v - v mod 2 ^ k.
Proof.
  intros Hv Hk.
  assert (2 ^ 32 - 2 ^ k = Z.shiftl (Z.ones (32 - k)) k) as ->.
  { rewrite Z.shiftl_mul_pow2, Z.ones_equiv by lia.
    replace (2 ^ 32) with (2 ^ (32 - k) * 2 ^ k) by (rewrite <-Z.pow_add_r by lia; f_equal; lia).
    lia. }
  assert (v - v mod 2 ^ k = Z.shiftl (Z.shiftr v k) k) as ->.
  { rewrite Z.shiftl_mul_pow2, Z.shiftr_div_pow2 by lia.
    pose proof (Z_div_mod_eq_full v (2 ^ k)). lia. }
  apply Z.bits_inj'. intros n Hn.
  rewrite Z.land_spec, !Z.shiftl_spec by lia.
  destruct (Z.ltb_spec n k) as [|Hnk].
  { rewrite !(Z.testbit_neg_r _ (n - k)) by lia. apply andb_false_r. }
  rewrite Z.shiftr_spec by lia. replace (n - k + k) with n by lia.
  destruct (Z.ltb_spec n 32).
  - rewrite Z.ones_spec_low by lia. apply andb_true_r.
  - assert (Z.testbit v n = false) as ->; [|done].
    apply Z.testbit_false; [lia|].
    rewrite Z.div_small; [done|]. split; [lia|].
    apply Z.lt_le_trans with (2 ^ 32); [lia|]. apply Z.pow_le_mono_r; lia.
Qed.

(** A mask test is an interval test. *)
Lemma mask_interval v k p :
  0 <= v < 2 ^ 32 → 0 <= k <= 32 → p mod 2 ^ k = 0 →
  Z.land v (2 ^ 32 - 2 ^ k) =? p = (p <=? v) && (v <? p + 2 ^ k).
Proof.
  intros Hv Hk Hp. rewrite land_high_mask by done.
  assert (0 < 2 ^ k) by (apply Z.pow_pos_nonneg; lia).
  pose proof (Z.mod_pos_bound v (2 ^ k)).
  pose proof (Z_div_mod_eq_full v (2 ^ k)).
  pose proof (Z_div_mod_eq_full p (2 ^ k)).
  apply eq_true_iff_eq. rewrite andb_true_iff, Z.eqb_eq, Z.leb_le, Z.ltb_lt.
  split; [lia|]. intros [??].
  assert (v / 2 ^ k = p / 2 ^ k) by nia. nia.
Qed.

(** The four octets of an address built from octets are those octets. *)
Lemma octets_value a b c d :
  0 <= a < 256 → 0 <= b < 256 → 0 <= c < 256 → 0 <= d < 256 →
  value (v4_of_octets a b c d) = a * 2 ^ 24 + b * 2 ^ 16 + c * 2 ^ 8 + d.
Proof.
  intros Ha Hb Hc Hd. unfold v4_of_octets; simpl. unfold u32.
  rewrite !Z.shiftl_mul_pow2 by lia.
  assert (∀ x y k, 0 <= k → 0 <= y < 2 ^ k → Z.lor (x * 2 ^ k) y = x * 2 ^ k + y) as Hor.
  { intros x y k Hk Hy. symmetry. apply Z.add_nocarry_lor.
    apply Z.bits_inj'. intros n Hn. rewrite Z.land_spec, Z.bits_0.
    destruct (Z.ltb_spec n k).
    - by rewrite Z.mul_pow2_bits_low.
    - rewrite andb_comm. apply andb_false_iff. left.
      destruct (decide (y = 0)) as [->|]; [apply Z.bits_0|].
      apply Z.bits_above_log2; [lia|]. apply Z.lt_le_trans with k; [|done].
      apply Z.log2_lt_pow2; lia. }
  rewrite (Hor a (b * 2 ^ 16) 24) by lia.
  assert (a * 2 ^ 24 + b * 2 ^ 16 = (a * 2 ^ 8 + b) * 2 ^ 16) as -> by lia.
  rewrite (Hor _ (c * 2 ^ 8) 16) by lia.
  assert ((a * 2 ^ 8 + b) * 2 ^ 16 + c * 2 ^ 8
          = (a * 2 ^ 16 + b * 2 ^ 8 + c) * 2 ^ 8) as -> by lia.
  rewrite Hor by lia. rewrite Z.mod_small by lia. lia.
Qed.

Lemma v4_octet_div a i s :
  octet_shift i = Ok s → 0 <= s → v4_octet a i = Ok ((value a / 2 ^ s) mod 256).
Proof.
  intros Hs ?. unfold v4_octet. rewrite Hs. simpl. change 0xff with (Z.ones 8).
  by rewrite Z.land_ones, Z.shiftr_div_pow2 by lia.
Qed.

(** An address built from four octets is well formed and its octets read back. *)
Theorem v4_octets_roundtrip a b c d :
  0 <= a < 256 → 0 <= b < 256 → 0 <= c < 256 → 0 <= d < 256 →
  let x := v4_of_octets a b c d in
  wf_v4 x ∧ v4_octet x 0 = Ok a ∧ v4_octet x 1 = Ok b
  ∧ v4_octet x 2 = Ok c ∧ v4_octet x 3 = Ok d.
Proof.
  intros Ha Hb Hc Hd x. pose proof (octets_value a b c d Ha Hb Hc Hd) as Hx.
  unfold wf_v4. fold x in Hx.
  rewrite (v4_octet_div x 0 24), (v4_octet_div x 1 16), (v4_octet_div x 2 8),
    (v4_octet_div x 3 0), Hx by done.
  split_and!; try lia; f_equal.
  all: Z.div_mod_to_equations; lia.
Qed.

Lemma v4_octets_roundtrip_witness :
  v4_octet (v4_of_octets 192 168 1 7) 0 = Ok 192 ∧ wf_v4 (v4_of_octets 192 168 1 7).
Proof.
  destruct (v4_octets_roundtrip 192 168 1 7) as (?&?&_); [lia..|]. by split.
Defined.

(** The private IPv4 addresses are exactly 10/8, 172.16/12, 192.168/16 and 127/8, and
    the public ones are those that are neither private nor multicast. *)
Theorem v4_is_private_spec a :
  wf_v4 a →
  (v4_is_private a = true ↔
     0x0a000000 <= value a <= 0x0affffff        (* 10.0.0.0/8 *)
     ∨ 0xac100000 <= value a <= 0xac1fffff      (* 172.16.0.0/12 *)
     ∨ 0xc0a80000 <= value a <= 0xc0a8ffff      (* 192.168.0.0/16 *)
     ∨ 0x7f000000 <= value a <= 0x7fffffff)     (* 127.0.0.0/8 *)
  ∧ (v4_is_public a = true ↔
     v4_is_private a = false ∧ ¬ 0xe0000000 <= value a <= 0xefffffff).
Proof.
  intros Hv. unfold v4_is_public, v4_is_private, v4_is_multicast, v4_is_loopback.
  change 0xff000000 with (2 ^ 32 - 2 ^ 24). change 0xfff00000 with (2 ^ 32 - 2 ^ 20).
  change 0xffff0000 with (2 ^ 32 - 2 ^ 16). change 0xf0000000 with (2 ^ 32 - 2 ^ 28).
  rewrite !mask_interval by (done || lia).
  rewrite !andb_true_iff, !orb_true_iff, !negb_true_iff, !andb_true_iff,
    !Z.leb_le, !Z.ltb_lt, andb_false_iff, Z.leb_gt, Z.ltb_ge.
  split; [lia|]. split; intros [? ?]; (split; [done|lia]).
Qed.

Lemma v4_is_private_spec_witness : v4_is_private (v4_of_octets 10 0 0 1) = true.
Proof.
  apply v4_is_private_spec; [unfold wf_v4; vm_compute; split; congruence|].
  left. vm_compute. split; congruence.
Defined.

(** The order on endpoints is lexicographic in address and port, irreflexive and
    transitive, and two endpoints are incomparable exactly when they are equal. *)
Theorem ep_ltb_strict_total :
  (∀ a b, ep_ltb a b = true ↔
     value (address a) < value (address b)
     ∨ (value (address a) = value (address b) ∧ port a < port b))
  ∧ (∀ a, ep_ltb a a = false)
  ∧ (∀ a b c, ep_ltb a b = true → ep_ltb b c = true → ep_ltb a c = true)
  ∧ (∀ a b, (ep_ltb a b = false ∧ ep_ltb b a = false) ↔ ep_eqb a b = true).
Proof.
  split_and!.
  - apply ep_ltb_lex.
  - intros a. apply not_true_iff_false. apply (irreflexivity (fun a b => ep_ltb a b = true)).
  - intros a b c. rewrite !ep_ltb_lex. lia.
  - intros a b. rewrite ep_eqb_eq. split.
    + intros [H1 H2]. pose proof (ep_ltb_trichotomy a b). intuition congruence.
    + intros ->. split; apply not_true_iff_false;
        apply (irreflexivity (fun a b => ep_ltb a b = true)).
Qed.

(** Comparing two addresses is defined exactly when the left one is IPv4; with an IPv6
    left operand the conversion of the right one throws, or the comparison is the
    unimplemented one of IPv6. *)
Theorem addr_lt_defined_iff lhs rhs :
  (∃ b, addr_lt lhs rhs = Ok b) ↔ is_v4 lhs = true.
Proof.
  destruct lhs as [x|], rhs as [y|]; compute; split; try naive_solver.
Qed.
