(* ===== verification/Aged.v ===== *)
(** * Aged associative containers (beast/container)

    [aged_map], [aged_set] and [aged_unordered_map] keep every element in two
    intrusive indexes: the associative one and a list in chronological order of the
    last insertion or touch.  Peer finder caches are built on them.

    The model keeps the same two indexes: [cont] maps a key to its value and its
    [when], [chron] lists the keys from the oldest to the newest.  Time points are
    clock ticks. *)

From S2P Require Import Prelude.

Local Open Scope Z_scope.

Record aged (K V : Type) `{Countable K} := mkAged {
  cont : gmap K (V * Z);
  chron : list K
}.
Arguments mkAged {K V _ _} _ _.
Arguments cont {K V _ _} _.
Arguments chron {K V _ _} _.

Section aged.
Context {K V : Type} `{Countable K}.
Implicit Types (c : aged K V) (k : K) (v : V) (now t : Z) (l : list K).

Definition aged_empty : aged K V := mkAged ∅ [].

Definition aged_find c k : option V := fst <$> cont c !! k.
Definition aged_when c k : option Z := snd <$> cont c !! k.
Definition aged_size c : nat := size (cont c).

(** [emplace] / [insert]: the second component tells whether an element was added. *)
Definition aged_emplace k v now c : aged K V * bool :=
  match cont c !! k with
  | Some _ => (c, false)
  | None => (mkAged (<[k := (v, now)]> (cont c)) (chron c ++ [k]), true)
  end.

(** Writing the mapped value through the iterator of an element. *)
Definition aged_set_value k v c : aged K V :=
  mkAged (alter (fun e => (v, e.2)) k (cont c)) (chron c).

(** [touch (pos, now)]: new time, and the element moves to the back. *)
Definition aged_touch k now c : aged K V :=
  mkAged (alter (fun e => (e.1, now)) k (cont c)) (erase1 k (chron c) ++ [k]).

(** [erase (pos)] *)
Definition aged_erase k c : aged K V :=
  mkAged (delete k (cont c)) (erase1 k (chron c)).

Definition aged_clear c : aged K V := mkAged ∅ [].

(** The loop of [expire]: from the oldest element on, while [when <= expired]. *)
Fixpoint expire_loop (expired : Z) l c (n : nat) : aged K V * nat :=
  match l with
  | [] => (c, n)
  | k :: l' =>
      match aged_when c k with
      | Some w => if w <=? expired then expire_loop expired l' (aged_erase k c) (S n)
                  else (c, n)
      | None => (c, n)
      end
  end.

Definition aged_expire (age now : Z) c : aged K V * nat :=
  expire_loop (now - age) (chron c) c 0.

(** ** Invariant

    The two indexes hold the same elements, once each; the chronological list is in
    order of time, and no element is newer than [t], the last clock value seen. *)

Definition when_or (d : Z) c k : Z := default d (aged_when c k).

Record aged_wf c (t : Z) : Prop := {
  awf_nodup : NoDup (chron c);
  awf_dom : ∀ k, k ∈ chron c ↔ is_Some (cont c !! k);
  awf_sorted : StronglySorted Z.le (when_or 0 c <$> chron c);
  awf_past : ∀ k v w, cont c !! k = Some (v, w) → w <= t;
}.

Lemma aged_wf_empty t : aged_wf aged_empty t.
Proof.
  split; simpl; [constructor| |constructor|by intros ???; rewrite lookup_empty].
  intros k. rewrite lookup_empty. split; [by intros ?%not_elem_of_nil|by intros []].
Qed.

Lemma aged_wf_mono c t t' : aged_wf c t → t <= t' → aged_wf c t'.
Proof. intros [] ?. split; [done..|]. intros. etrans; [|done]. eauto. Qed.

Lemma when_or_some c k v w : cont c !! k = Some (v, w) → when_or 0 c k = w.
Proof. unfold when_or, aged_when. by intros ->. Qed.

Lemma when_or_past c t k : aged_wf c t → k ∈ chron c → when_or 0 c k <= t.
Proof.
  intros Hwf Hk. apply (awf_dom _ _ Hwf) in Hk as [[v w] Hk].
  rewrite (when_or_some _ _ _ _ Hk). by eapply awf_past.
Qed.

Lemma fmap_when_or_ext c c' l :
  (∀ k, k ∈ l → aged_when c k = aged_when c' k) →
  when_or 0 c <$> l = when_or 0 c' <$> l.
Proof.
  intros He. apply list_fmap_ext. intros i k Hk.
  unfold when_or. rewrite He; [done|]. by eapply list_elem_of_lookup_2.
Qed.

Lemma aged_wf_emplace k v now c t :
  aged_wf c t → t <= now → aged_wf (aged_emplace k v now c).1 now.
Proof.
  intros Hwf Ht. unfold aged_emplace. destruct (cont c !! k) as [e|] eqn:Hk; simpl.
  { by eapply aged_wf_mono. }
  assert (k ∉ chron c) as Hnk by (rewrite (awf_dom _ _ Hwf), Hk; by intros []).
  split; simpl.
  - apply NoDup_app. split_and!; [apply Hwf| |apply NoDup_singleton].
    intros x Hx ->%list_elem_of_singleton. done.
  - intros k'. rewrite elem_of_app, list_elem_of_singleton, (awf_dom _ _ Hwf).
    rewrite lookup_insert. case_decide; naive_solver.
  - rewrite fmap_app. simpl. apply StronglySorted_snoc.
    + rewrite (fmap_when_or_ext _ c); [apply Hwf|].
      intros k' Hk'. unfold aged_when; simpl. rewrite lookup_insert_ne; [done|]. congruence.
    + rewrite (when_or_some _ k v now) by (simpl; apply lookup_insert_eq).
      apply Forall_forall. intros w (k'&->&Hk')%list_elem_of_fmap.
      transitivity t; [|done].
      pose proof (when_or_past c t k' Hwf Hk') as Hp.
      unfold when_or, aged_when in *; simpl. by rewrite lookup_insert_ne by congruence.
  - intros k' v' w. rewrite lookup_insert. case_decide; [naive_solver lia|].
    intros. etrans; [|done]. by eapply awf_past.
Qed.

Lemma aged_wf_set_value k v c t : aged_wf c t → aged_wf (aged_set_value k v c) t.
Proof.
  intros Hwf. split; simpl.
  - apply Hwf.
  - intros k'. rewrite (awf_dom _ _ Hwf), lookup_alter. case_decide; [|done].
    subst. by rewrite fmap_is_Some.
  - rewrite (fmap_when_or_ext _ c); [apply Hwf|]. intros k' _.
    unfold aged_when; simpl. rewrite lookup_alter. case_decide; [|done]. subst.
    by destruct (cont c !! k').
  - intros k' v' w. rewrite lookup_alter. case_decide; [|by apply Hwf].
    subst. intros ([v0 w0]&?&?)%fmap_Some. simplify_eq. by eapply awf_past.
Qed.

Lemma aged_wf_erase k c t : aged_wf c t → aged_wf (aged_erase k c) t.
Proof.
  intros Hwf. split; simpl.
  - apply NoDup_erase1, Hwf.
  - intros k'. rewrite elem_of_erase1 by apply Hwf.
    rewrite (awf_dom _ _ Hwf), lookup_delete. case_decide; naive_solver.
  - rewrite (fmap_when_or_ext _ c).
    + eapply StronglySorted_sublist; [|apply Hwf]. apply fmap_sublist, erase1_sublist.
    + intros k' Hk'. apply elem_of_erase1 in Hk' as [??]; [|apply Hwf].
      unfold aged_when; simpl. by rewrite lookup_delete_ne.
  - intros k' v w. rewrite lookup_delete. case_decide; [done|]. by apply Hwf.
Qed.

Lemma aged_wf_touch k now c t :
  aged_wf c t → t <= now → is_Some (cont c !! k) → aged_wf (aged_touch k now c) now.
Proof.
  intros Hwf Ht [[v0 w0] Hk].
  assert (∀ k', k' ∈ erase1 k (chron c) → k' ∈ chron c ∧ k' ≠ k) as Hin.
  { intros k'. by rewrite elem_of_erase1 by apply Hwf. }
  split; simpl.
  - apply NoDup_app. split_and!; [apply NoDup_erase1, Hwf| |apply NoDup_singleton].
    intros x [_ ?]%Hin ->%list_elem_of_singleton. done.
  - intros k'. rewrite elem_of_app, list_elem_of_singleton, elem_of_erase1 by apply Hwf.
    rewrite (awf_dom _ _ Hwf), lookup_alter. case_decide; subst.
    + rewrite Hk. naive_solver.
    + naive_solver.
  - rewrite fmap_app. simpl. apply StronglySorted_snoc.
    + rewrite (fmap_when_or_ext _ c).
      * eapply StronglySorted_sublist; [|apply Hwf]. apply fmap_sublist, erase1_sublist.
      * intros k' [??]%Hin. unfold aged_when; simpl. by rewrite lookup_alter_ne.
    + rewrite (when_or_some _ k v0 now) by (simpl; by rewrite lookup_alter_eq, Hk).
      apply Forall_forall. intros w (k'&->&[??]%Hin)%list_elem_of_fmap.
      transitivity t; [|done]. pose proof (when_or_past c t k' Hwf ltac:(done)) as Hp.
      unfold when_or, aged_when in *; simpl. by rewrite lookup_alter_ne.
  - intros k' v w. rewrite lookup_alter. case_decide.
    + subst. rewrite Hk. naive_solver lia.
    + intros. etrans; [|done]. by eapply awf_past.
Qed.

(** ** Lookups after each operation *)

Lemma find_emplace k v now c :
  aged_find (aged_emplace k v now c).1 k = Some (default v (aged_find c k)).
Proof.
  unfold aged_emplace, aged_find. destruct (cont c !! k) eqn:E; simpl.
  - by rewrite E.
  - by rewrite lookup_insert_eq.
Qed.

Lemma find_emplace_ne k k' v now c :
  k' ≠ k → aged_find (aged_emplace k v now c).1 k' = aged_find c k'.
Proof.
  intros. unfold aged_emplace, aged_find. destruct (cont c !! k); simpl; [done|].
  by rewrite lookup_insert_ne.
Qed.

Lemma emplace_fresh k v now c :
  (aged_emplace k v now c).2 = true ↔ aged_find c k = None.
Proof. unfold aged_emplace, aged_find. destruct (cont c !! k); naive_solver. Qed.

Lemma find_touch k k' now c : aged_find (aged_touch k now c) k' = aged_find c k'.
Proof.
  unfold aged_find; simpl. rewrite lookup_alter. case_decide; [|done].
  subst. by destruct (cont c !! k').
Qed.

Lemma find_set_value k k' v c :
  aged_find (aged_set_value k v c) k'
  = if decide (k = k') then (fun _ => v) <$> aged_find c k' else aged_find c k'.
Proof.
  unfold aged_find; simpl. rewrite lookup_alter. case_decide; [|done].
  subst. by destruct (cont c !! k').
Qed.

Lemma find_erase k k' c :
  aged_find (aged_erase k c) k' = if decide (k = k') then None else aged_find c k'.
Proof. unfold aged_find; simpl. rewrite lookup_delete. by case_decide. Qed.

Lemma aged_find_cont c k : is_Some (aged_find c k) ↔ is_Some (cont c !! k).
Proof. unfold aged_find. by rewrite fmap_is_Some. Qed.

(** The values without their times. *)
Definition values c : gmap K V := fst <$> cont c.

Lemma lookup_values c k : values c !! k = aged_find c k.
Proof. apply lookup_fmap. Qed.

Lemma values_emplace k v now c :
  aged_find c k = None → values (aged_emplace k v now c).1 = <[k := v]> (values c).
Proof.
  unfold aged_find, aged_emplace, values. intros E%fmap_None. rewrite E. simpl.
  by rewrite fmap_insert.
Qed.

Lemma values_erase k c : values (aged_erase k c) = delete k (values c).
Proof. apply fmap_delete. Qed.

Lemma values_touch k now c : values (aged_touch k now c) = values c.
Proof. apply map_eq. intros k'. by rewrite !lookup_values, find_touch. Qed.

Lemma values_set_value k v c :
  is_Some (aged_find c k) → values (aged_set_value k v c) = <[k := v]> (values c).
Proof.
  intros [w Hw]. apply map_eq. intros k'.
  rewrite lookup_values, find_set_value, lookup_insert, lookup_values.
  case_decide; [|done]. subst. by rewrite Hw.
Qed.

(** ** Expiry *)

Definition fresher (expired : Z) (e : K * (V * Z)) : Prop := expired < e.2.2.
#[global] Instance fresher_dec expired e : Decision (fresher expired e).
Proof. unfold fresher. apply _. Defined.

Lemma expire_loop_spec expired l c n t :
  aged_wf c t → chron c = l →
  let r := expire_loop expired l c n in
  aged_wf r.1 t ∧ cont r.1 = filter (fresher expired) (cont c)
  ∧ suffix (chron r.1) l ∧ (r.2 + aged_size r.1 = n + aged_size c)%nat.
Proof.
  revert c n. induction l as [|k l IH]; intros c n Hwf Hl r; subst r; simpl.
  - split_and!; [done| |by rewrite Hl|done].
    assert (cont c = ∅) as ->; [|by rewrite map_filter_empty].
    apply map_empty. intros k. rewrite eq_None_not_Some, <-(awf_dom _ _ Hwf), Hl.
    apply not_elem_of_nil.
  - assert (is_Some (cont c !! k)) as [[v w] Hk].
    { apply (awf_dom _ _ Hwf). rewrite Hl. by left. }
    assert (aged_when c k = Some w) as -> by (unfold aged_when; by rewrite Hk).
    destruct (Z.leb_spec w expired) as [Hw|Hw].
    + destruct (IH (aged_erase k c) (S n)) as (?&Hc&?&Hn).
      { by apply aged_wf_erase. }
      { simpl. rewrite Hl. simpl. by rewrite decide_True. }
      split_and!; [done| |by apply suffix_cons_r|].
      * rewrite Hc. simpl. apply map_filter_delete_not. intros y. rewrite Hk.
        intros [= <-]. unfold fresher; simpl. lia.
      * rewrite Hn. unfold aged_size; simpl.
        rewrite map_size_delete, Hk.
        assert (size (cont c) ≠ 0)%nat; [|lia].
        rewrite map_size_non_empty_iff. intros He. by rewrite He, lookup_empty in Hk.
    + split_and!; [done| |simpl; by rewrite Hl|done].
      symmetry. apply map_filter_id. intros k' [v' w'] Hk'. unfold fresher; simpl.
      assert (k' ∈ chron c) as Hin by (apply (awf_dom _ _ Hwf); by eexists).
      pose proof (awf_sorted _ _ Hwf) as Hs. rewrite Hl in Hs, Hin. simpl in Hs.
      rewrite (when_or_some _ _ _ _ Hk) in Hs.
      apply StronglySorted_cons in Hs as [Hs _].
      apply elem_of_cons in Hin as [->|Hin]; [naive_solver lia|].
      rewrite Forall_forall in Hs. rewrite <-(when_or_some _ _ _ _ Hk').
      apply Z.lt_le_trans with w; [done|]. apply Hs.
      apply list_elem_of_fmap. eauto.
Qed.

Lemma aged_wf_expire age now c t : aged_wf c t → aged_wf (aged_expire age now c).1 t.
Proof. intros Hwf. by destruct (expire_loop_spec (now - age) _ c 0 t Hwf eq_refl). Qed.

Lemma cont_expire age now c t :
  aged_wf c t →
  cont (aged_expire age now c).1 = filter (fresher (now - age)) (cont c).
Proof. intros Hwf. by destruct (expire_loop_spec (now - age) _ c 0 t Hwf eq_refl) as (_&?&_). Qed.
End aged.

#[export] Hint Resolve aged_wf_empty aged_wf_emplace aged_wf_set_value aged_wf_erase
  aged_wf_touch aged_wf_expire : finpal.
