(* ===== verification/Slot.v ===== *)
(** * Slots of the peer finder

    The tuning constants (peerfinder/impl/Tuning.h), the state of one connection
    ([Slot], [SlotImp] and its table of recent addresses), the metadata of a fixed
    peer ([Fixed]) and the advertised endpoints ([PeerFinder::Endpoint]).

    Time points are ticks of [std::chrono::steady_clock]; its period is the nanosecond
    in the standard library the program is built with. *)

From S2P Require Import Prelude IPAddr Aged.

Local Open Scope Z_scope.

(** [std::chrono::seconds (n)] and [std::chrono::minutes (n)] in clock ticks. *)
Definition seconds (n : Z) : Z := n * 1000000000.
Definition minutes (n : Z) : Z := seconds (60 * n).

Module Tuning.
(** Automatic connection policy. *)
Definition secondsPerConnect : Z := 10.
Definition maxConnectAttempts : Z := 20.
Definition outPercent : Z := 15.
Definition minOutCount : Z := 10.
Definition defaultMaxPeers : Z := 21.
Definition maxRedirects : Z := 30.
(** Fixed. *)
Definition connectionBackoff : list Z := [1; 1; 2; 3; 5; 8; 13; 21; 34; 55].
(** Bootcache. *)
Definition bootcacheSize : Z := 1000.
Definition bootcachePrunePercent : Z := 10.
Definition bootcacheCooldownTime : Z := seconds 60.
(** Livecache. *)
Definition maxHops : Z := 6.
Definition numberOfEndpoints : Z := 2 * maxHops.
Definition numberOfEndpointsMax : Z := 20.
Definition defaultMaxPeerCount : Z := 21.
Definition redirectEndpointCount : Z := 10.
Definition secondsPerMessage : Z := seconds 5.
Definition liveCacheSecondsToLive : Z := seconds 30.
Definition recentAttemptDuration : Z := seconds 60.
End Tuning.

(** ** PublicKey: its bytes *)
Definition PublicKey : Type := list Z.

(** ** Endpoint: an address advertised at a number of hops *)
Record Endpoint := mkEndpoint { hops : Z; ep_address : IPEndpoint }.

#[global] Instance Endpoint_eq_dec : EqDecision Endpoint.
Proof. solve_decision. Defined.

(** ** The recent table of a slot *)

Abbreviation recent_t := (aged IPEndpoint Z).

Definition recent_insert (ep : IPEndpoint) (h : Z) (now : Z) (cache : recent_t) : recent_t :=
  let '(cache', inserted) := aged_emplace ep h now cache in
  if inserted then cache'
  else match aged_find cache' ep with
       | Some old => if h <=? old then aged_touch ep now (aged_set_value ep h cache')
                     else cache'
       | None => cache'
       end.

Definition recent_filter (ep : IPEndpoint) (h : Z) (cache : recent_t) : bool :=
  match aged_find cache ep with
  | None => false
  | Some old => old <=? h
  end.

Definition recent_expire (now : Z) (cache : recent_t) : recent_t :=
  (aged_expire Tuning.liveCacheSecondsToLive now cache).1.

(** ** Slot and SlotImp *)

Inductive State := accept | connect | connected | active | closing.

#[global] Instance State_eq_dec : EqDecision State.
Proof. solve_decision. Defined.

Record SlotImp := mkSlot {
  recent : recent_t;
  m_inbound : bool;
  m_fixed : bool;
  m_cluster : bool;
  m_state : State;
  m_remote_endpoint : IPEndpoint;
  m_local_endpoint : option IPEndpoint;
  m_public_key : option PublicKey;
  m_listening_port : Z;                     (* std::int32_t, unknownPort = -1 *)
  checked : bool;
  canAccept : bool;
  connectivityCheckInProgress : bool;
  whenAcceptEndpoints : Z
}.

Definition unknownPort : Z := -1.

(** The inbound and the outbound constructors. *)
Definition SlotImp_inbound (local_endpoint remote_endpoint : IPEndpoint) (fixed : bool)
  : SlotImp :=
  mkSlot aged_empty true fixed false accept remote_endpoint (Some local_endpoint) None
    unknownPort false false false 0.

Definition SlotImp_outbound (remote_endpoint : IPEndpoint) (fixed : bool) : SlotImp :=
  mkSlot aged_empty false fixed false connect remote_endpoint None None
    unknownPort true true false 0.

Definition listening_port (s : SlotImp) : option Z :=
  if m_listening_port s =? unknownPort then None else Some (u16 (m_listening_port s)).

(** Setters. *)
Definition set_listening_port (p : Z) (s : SlotImp) : SlotImp :=
  let 'mkSlot r i f c st re le pk _ ch ca cc w := s in
  mkSlot r i f c st re le pk (u16 p) ch ca cc w.
Definition set_local_endpoint (e : IPEndpoint) (s : SlotImp) : SlotImp :=
  let 'mkSlot r i f c st re _ pk lp ch ca cc w := s in
  mkSlot r i f c st re (Some e) pk lp ch ca cc w.
Definition set_public_key (k : PublicKey) (s : SlotImp) : SlotImp :=
  let 'mkSlot r i f c st re le _ lp ch ca cc w := s in
  mkSlot r i f c st re le (Some k) lp ch ca cc w.
Definition set_cluster (b : bool) (s : SlotImp) : SlotImp :=
  let 'mkSlot r i f _ st re le pk lp ch ca cc w := s in
  mkSlot r i f b st re le pk lp ch ca cc w.
Definition set_recent (r : recent_t) (s : SlotImp) : SlotImp :=
  let 'mkSlot _ i f c st re le pk lp ch ca cc w := s in
  mkSlot r i f c st re le pk lp ch ca cc w.
Definition set_state_when (st : State) (w : Z) (s : SlotImp) : SlotImp :=
  let 'mkSlot r i f c _ re le pk lp ch ca cc _ := s in
  mkSlot r i f c st re le pk lp ch ca cc w.
Definition set_check (ch ca cc : bool) (s : SlotImp) : SlotImp :=
  let 'mkSlot r i f c st re le pk lp _ _ _ w := s in
  mkSlot r i f c st re le pk lp ch ca cc w.
Definition set_whenAccept (w : Z) (s : SlotImp) : SlotImp :=
  set_state_when (m_state s) w s.

(** [SlotImp::state (State)]: the assertions are the legal transitions. *)
Definition slot_state (state_ : State) (s : SlotImp) : res SlotImp :=
  assert_ (negb (bool_decide (state_ = active)));;
  assert_ (negb (bool_decide (state_ = m_state s)));;
  assert_ (negb (bool_decide (state_ = accept)) && negb (bool_decide (state_ = connect)));;
  assert_ (negb (bool_decide (state_ = connected))
           || (negb (m_inbound s) && bool_decide (m_state s = connect)));;
  assert_ (negb (bool_decide (state_ = closing)) || negb (bool_decide (m_state s = connect)));;
  Ok (set_state_when state_ (whenAcceptEndpoints s) s).

(** [SlotImp::activate (now)] *)
Definition slot_activate (now : Z) (s : SlotImp) : res SlotImp :=
  assert_ (bool_decide (m_state s = accept) || bool_decide (m_state s = connected));;
  Ok (set_state_when active now s).

(** [SlotImp::expire ()] *)
Definition slot_expire (now : Z) (s : SlotImp) : SlotImp :=
  set_recent (recent_expire now (recent s)) s.

(** ** Fixed *)

Record Fixed := mkFixed { m_when : Z; m_failures : nat }.

Definition Fixed_init (now : Z) : Fixed := mkFixed now 0.

Definition fixed_failure (now : Z) (f : Fixed) : Fixed :=
  let n := Nat.min (m_failures f + 1) (length Tuning.connectionBackoff - 1) in
  mkFixed (now + minutes (nth n Tuning.connectionBackoff 0)) n.

Definition fixed_success (now : Z) (f : Fixed) : Fixed := mkFixed now 0.

(** ** Lemmas *)

(** A slot without its volatile fields: what the table, the counts and the keys depend on. *)
Definition core (s : SlotImp) : SlotImp :=
  mkSlot aged_empty (m_inbound s) (m_fixed s) (m_cluster s) (m_state s) (m_remote_endpoint s)
    None (m_public_key s) unknownPort false false false 0.

Lemma core_set_recent r s : core (set_recent r s) = core s.
Proof. by destruct s. Qed.
Lemma core_set_check a b c s : core (set_check a b c s) = core s.
Proof. by destruct s. Qed.
Lemma core_set_listening_port q s : core (set_listening_port q s) = core s.
Proof. by destruct s. Qed.
Lemma core_set_local_endpoint e s : core (set_local_endpoint e s) = core s.
Proof. by destruct s. Qed.
Lemma core_set_whenAccept w s : core (set_whenAccept w s) = core s.
Proof. by destruct s. Qed.

(** A slot's flags and state are consistent: only inbound slots are in [accept], only
    outbound ones in [connect] or [connected]. *)
Definition slot_dir_ok (s : SlotImp) : bool :=
  match m_state s with
  | accept => m_inbound s
  | connect | connected => negb (m_inbound s)
  | active | closing => true
  end.

(** Destructs every slot of the context: the setters then compute. *)
Ltac slots :=
  repeat match goal with s : SlotImp |- _ => destruct s end; simpl in *.

Lemma aged_wf_recent_insert ep h now cache t :
  aged_wf cache t → t <= now → aged_wf (recent_insert ep h now cache) now.
Proof.
  intros Hwf Ht. unfold recent_insert.
  destruct (aged_emplace ep h now cache) as [c' i] eqn:E.
  assert (aged_wf c' now) as Hc'.
  { pose proof (aged_wf_emplace ep h now cache t Hwf Ht) as Hw. by rewrite E in Hw. }
  destruct i; [done|]. destruct (aged_find c' ep) as [old|] eqn:Ho; [|done].
  destruct (h <=? old); [|done].
  eapply aged_wf_touch; [by apply aged_wf_set_value|done|]. simpl.
  rewrite lookup_alter_eq, fmap_is_Some. apply aged_find_cont. by rewrite Ho.
Qed.

(** What the recent table answers after an insertion: the smallest hop count recorded. *)
Lemma find_recent_insert ep ep' h now cache :
  aged_find (recent_insert ep h now cache) ep'
  = if decide (ep = ep')
    then Some (match aged_find cache ep with Some old => Z.min h old | None => h end)
    else aged_find cache ep'.
Proof.
  unfold recent_insert.
  destruct (aged_emplace ep h now cache) as [c' i] eqn:E.
  pose proof (find_emplace ep h now cache) as Hf.
  pose proof (find_emplace_ne ep ep' h now cache) as Hne.
  pose proof (emplace_fresh ep h now cache) as Hfr.
  rewrite E in *; simpl in *.
  destruct i.
  - assert (aged_find cache ep = None) as Hn by (by apply Hfr).
    rewrite Hn in *. case_decide; subst; simpl in *; [done|]. apply Hne. congruence.
  - rewrite Hf. destruct (aged_find cache ep) as [old|] eqn:Ho; simpl.
    + destruct (Z.leb_spec h old).
      * rewrite find_touch, find_set_value, Z.min_l by done. case_decide; subst; [by rewrite Hf|].
        apply Hne. congruence.
      * rewrite Z.min_r by lia. case_decide; subst; [done|]. apply Hne; congruence.
    + naive_solver.
Qed.

(** A filter query after an insertion. *)
Lemma recent_filter_insert ep ep' h h' now cache :
  recent_filter ep' h' (recent_insert ep h now cache) = true ↔
  recent_filter ep' h' cache = true ∨ (ep' = ep ∧ h <= h').
Proof.
  unfold recent_filter. rewrite find_recent_insert.
  case_decide; subst; [|destruct (aged_find cache ep'); naive_solver].
  destruct (aged_find cache ep') as [old|]; rewrite ?Z.leb_le.
  - split; [|intros [?|[_ ?]]; lia].
    intros [?|?]%Z.min_le; auto.
  - split; [by right|]. by intros [|[]].
Qed.

(** ** Properties *)

(** A slot accepts a state change exactly from connect to connected on outbound slots
    and from any state but connect and closing to closing; the change affects the state
    only. *)
Theorem slot_state_legal state_ s :
  (∃ s', slot_state state_ s = Ok s' ∧ m_state s' = state_ ∧ m_inbound s' = m_inbound s
         ∧ m_fixed s' = m_fixed s ∧ m_remote_endpoint s' = m_remote_endpoint s)
  ↔ (state_ = connected ∧ m_inbound s = false ∧ m_state s = connect)
    ∨ (state_ = closing ∧ m_state s ≠ connect ∧ m_state s ≠ closing).
Proof.
  unfold slot_state. slots.
  destruct state_, m_state0, m_inbound0; simpl; naive_solver.
Qed.

(** [n] consecutive failures, all noted at [now]. *)
Definition failures (n : nat) (now : Z) (f : Fixed) : Fixed :=
  Nat.iter n (fixed_failure now) f.

(** After a success and n+1 failures a fixed peer waits the n+1st entry of the back-off
    table, the last entry from nine failures on: between one and 55 minutes. *)
Theorem fixed_backoff f n now :
  let g := failures (S n) now (fixed_success now f) in
  m_failures g = Nat.min (S n) 9
  ∧ m_when g = now + minutes (nth (Nat.min (S n) 9) [1; 1; 2; 3; 5; 8; 13; 21; 34; 55] 0)
  ∧ now + minutes 1 <= m_when g <= now + minutes 55.
Proof.
  assert (∀ k, m_failures (failures k now (fixed_success now f)) = Nat.min k 9) as Hk.
  { induction k as [|k IH]; [done|]. simpl. fold (failures k now (fixed_success now f)).
    rewrite IH. lia. }
  simpl. fold (failures n now (fixed_success now f)). rewrite Hk.
  replace (Nat.min (Nat.min n 9 + 1) 9) with (Nat.min (S n) 9) by lia.
  split_and!; [done|done| |].
  all: unfold minutes, seconds; do 9 (destruct n as [|n]; [simpl; lia|]).
  all: replace (Nat.min _ 9) with 9%nat by lia; simpl; lia.
Qed.
