(* ===== verification/Counts.v ===== *)
(** * Configuration and slot counts (PeerfinderConfig.cpp, Counts.h)

    [Config] and its tuning rules, and [Counts], the aggregate statistics over all
    slots.  [double] is IEEE binary64, computed by [SpecFloat]; [std::size_t] wraps
    modulo 2^64 and [int] is two's complement. *)

From S2P Require Import Prelude IPAddr Aged Slot.
From Stdlib Require Import SpecFloat.
From stdpp Require Import strings.

Local Open Scope Z_scope.

(** ** binary64 *)

Definition double : Type := spec_float.

Definition d_of_int (z : Z) : double := binary_normalize 53 1024 z 0 false.
Definition d_mul : double → double → double := SFmul 53 1024.
Definition d_sub : double → double → double := SFsub 53 1024.
Definition d_div : double → double → double := SFdiv 53 1024.
Definition d_max (x y : double) : double := if SFltb x y then y else x.   (* std::max *)

(** The literal [0.01], rounded to the nearest binary64. *)
Definition d_0_01 : double := S754_finite false 5764607523034235 (-59).

(** [std::floor] followed by a conversion to an integer, and [static_cast<int>]:
    undefined on NaN and infinities. *)
Definition d_floor (x : double) : res Z :=
  match x with
  | S754_zero _ => Ok 0
  | S754_finite s m e =>
      let v := if s then Z.neg m else Z.pos m in
      Ok (if 0 <=? e then v * 2 ^ e else v / 2 ^ (- e))
  | _ => Err undefined
  end.

Definition d_trunc (x : double) : res Z :=
  match x with
  | S754_zero _ => Ok 0
  | S754_finite s m e =>
      let v := if s then Z.neg m else Z.pos m in
      Ok (if 0 <=? e then v * 2 ^ e else Z.quot v (2 ^ (- e)))
  | _ => Err undefined
  end.

(** ** Config *)

Record Config := mkConfig {
  maxPeers : Z;
  outPeers : double;
  peerPrivate : bool;
  wantIncoming : bool;
  autoConnect : bool;
  listeningPort : Z;
  features : string;
  ipLimit : Z
}.

Definition calcOutPeers (max_peers : Z) : double :=
  d_max (d_mul (d_of_int (i32 (max_peers * Tuning.outPercent))) d_0_01)
        (d_of_int Tuning.minOutCount).

(** [Config::Config ()] *)
Definition Config_default : Config :=
  mkConfig Tuning.defaultMaxPeers (calcOutPeers Tuning.defaultMaxPeers)
    true true true 0 EmptyString 0.

Definition applyTuning (c : Config) : res Config :=
  let max_peers := if maxPeers c <? Tuning.minOutCount then Tuning.minOutCount else maxPeers c in
  let out_peers := calcOutPeers max_peers in
  let inPeers := d_sub (d_of_int max_peers) out_peers in
  limit ← (if ipLimit c =? 0 then
             if SFltb (d_of_int Tuning.defaultMaxPeers) inPeers then
               q ← d_trunc (d_div inPeers (d_of_int Tuning.defaultMaxPeers));
               Ok (2 + Z.min 5 q)
             else Ok 2
           else Ok (ipLimit c));
  half ← d_trunc (d_div inPeers (d_of_int 2));
  Ok (mkConfig max_peers out_peers (peerPrivate c) (wantIncoming c) (autoConnect c)
        (listeningPort c) (features c) (Z.max 1 (Z.min limit half))).

(** ** Counts *)

Record Counts := mkCounts {
  c_attempts : Z;            (* int *)
  c_active : Z;              (* std::size_t, as the next seven *)
  c_in_max : Z;
  c_in_active : Z;
  c_out_max : Z;
  c_out_active : Z;
  c_fixed : Z;
  c_fixed_active : Z;
  c_cluster : Z;
  c_acceptCount : Z;         (* int *)
  c_closingCount : Z;        (* int *)
  c_roundingThreshold : double
}.

(** [Counts ()]; the threshold is drawn by [generate_canonical]. *)
Definition Counts_init (threshold : double) : Counts :=
  mkCounts 0 0 0 0 0 0 0 0 0 0 0 threshold.

(** The counters that [adjust] moves, with their width. *)
Inductive counter :=
| k_attempts | k_active | k_in_active | k_out_active | k_fixed | k_fixed_active
| k_cluster | k_accept | k_closing.

#[global] Instance counter_eq_dec : EqDecision counter.
Proof. solve_decision. Defined.

Definition get (k : counter) (c : Counts) : Z :=
  match k with
  | k_attempts => c_attempts c | k_active => c_active c
  | k_in_active => c_in_active c | k_out_active => c_out_active c
  | k_fixed => c_fixed c | k_fixed_active => c_fixed_active c
  | k_cluster => c_cluster c | k_accept => c_acceptCount c | k_closing => c_closingCount c
  end.

Definition wrap (k : counter) : Z → Z :=
  match k with k_attempts | k_accept | k_closing => i32 | _ => u64 end.

(** [m_x += n] *)
Definition bump (k : counter) (n : Z) (c : Counts) : Counts :=
  let v := wrap k (get k c + n) in
  let 'mkCounts a ac im ia om oa f fa cl acc clo r := c in
  match k with
  | k_attempts => mkCounts v ac im ia om oa f fa cl acc clo r
  | k_active => mkCounts a v im ia om oa f fa cl acc clo r
  | k_in_active => mkCounts a ac im v om oa f fa cl acc clo r
  | k_out_active => mkCounts a ac im ia om v f fa cl acc clo r
  | k_fixed => mkCounts a ac im ia om oa v fa cl acc clo r
  | k_fixed_active => mkCounts a ac im ia om oa f v cl acc clo r
  | k_cluster => mkCounts a ac im ia om oa f fa v acc clo r
  | k_accept => mkCounts a ac im ia om oa f fa cl v clo r
  | k_closing => mkCounts a ac im ia om oa f fa cl acc v r
  end.

(** [Counts::adjust] *)
Definition adjust (s : SlotImp) (n : Z) (c : Counts) : res Counts :=
  let c := if m_fixed s then bump k_fixed n c else c in
  let c := if m_cluster s then bump k_cluster n c else c in
  match m_state s with
  | accept => assert_ (m_inbound s);; Ok (bump k_accept n c)
  | connect | connected => assert_ (negb (m_inbound s));; Ok (bump k_attempts n c)
  | active =>
      let c := if m_fixed s then bump k_fixed_active n c else c in
      let c := if negb (m_fixed s) && negb (m_cluster s)
               then if m_inbound s then bump k_in_active n c else bump k_out_active n c
               else c in
      Ok (bump k_active n c)
  | closing => Ok (bump k_closing n c)
  end.

Definition counts_add (s : SlotImp) (c : Counts) : res Counts := adjust s 1 c.
Definition counts_remove (s : SlotImp) (c : Counts) : res Counts := adjust s (-1) c.

Definition can_activate (s : SlotImp) (c : Counts) : res bool :=
  assert_ (bool_decide (m_state s = connected) || bool_decide (m_state s = accept));;
  Ok (if m_fixed s || m_cluster s then true
      else if m_inbound s then c_in_active c <? c_in_max c
      else c_out_active c <? c_out_max c).

Definition attempts_needed (c : Counts) : Z :=
  if Tuning.maxConnectAttempts <=? c_attempts c then 0
  else u64 (Tuning.maxConnectAttempts - c_attempts c).

(** [attempts], a [std::size_t] read of an [int]. *)
Definition attempts (c : Counts) : Z := u64 (c_attempts c).
Definition fixed_active (c : Counts) : Z := c_fixed_active c.
(** [out_max], [out_active], [inboundSlots], ... are [int] reads of a [std::size_t]. *)
Definition out_max (c : Counts) : Z := i32 (c_out_max c).
Definition out_active (c : Counts) : Z := i32 (c_out_active c).
Definition inboundSlots (c : Counts) : Z := i32 (c_in_max c).
Definition inboundActive (c : Counts) : Z := i32 (c_in_active c).
Definition totalActive (c : Counts) : Z := i32 (u64 (c_in_active c + c_out_active c)).
Definition fixed_count (c : Counts) : Z := c_fixed c.
Definition acceptCount (c : Counts) : Z := c_acceptCount c.
Definition connectCount (c : Counts) : Z := c_attempts c.
Definition closingCount (c : Counts) : Z := c_closingCount c.
Definition inboundSlotsFree (c : Counts) : Z :=
  if c_in_active c <? c_in_max c then i32 (u64 (c_in_max c - c_in_active c)) else 0.
Definition outboundSlotsFree (c : Counts) : Z :=
  if c_out_active c <? c_out_max c then i32 (u64 (c_out_max c - c_out_active c)) else 0.

Definition isConnectedToNetwork (c : Counts) : bool :=
  if 0 <? c_out_max c then false else true.

Definition set_maxes (in_max out_max : Z) (c : Counts) : Counts :=
  let 'mkCounts a ac _ ia _ oa f fa cl acc clo r := c in
  mkCounts a ac in_max ia out_max oa f fa cl acc clo r.

(** [Counts::onConfig] *)
Definition onConfig (config : Config) (c : Counts) : res Counts :=
  om ← (if wantIncoming config then
          fl ← d_floor (outPeers config);
          let om := u64 fl in
          Ok (if SFltb (c_roundingThreshold c) (d_sub (outPeers config) (d_of_int om))
              then u64 (om + 1) else om)
        else Ok (u64 (maxPeers config)));
  let mp := u64 (maxPeers config) in          (* compared as std::size_t *)
  Ok (set_maxes (if om <=? mp then u64 (mp - om) else 0) om c).

(** ** What a slot contributes to each counter *)

Definition b2z (b : bool) : Z := if b then 1 else 0.

Definition contrib (k : counter) (s : SlotImp) : Z :=
  b2z match k with
  | k_attempts => match m_state s with connect | connected => true | _ => false end
  | k_active => bool_decide (m_state s = active)
  | k_in_active => bool_decide (m_state s = active) && negb (m_fixed s)
                   && negb (m_cluster s) && m_inbound s
  | k_out_active => bool_decide (m_state s = active) && negb (m_fixed s)
                    && negb (m_cluster s) && negb (m_inbound s)
  | k_fixed => m_fixed s
  | k_fixed_active => bool_decide (m_state s = active) && m_fixed s
  | k_cluster => m_cluster s
  | k_accept => bool_decide (m_state s = accept)
  | k_closing => bool_decide (m_state s = closing)
  end.

Lemma contrib_range k s : 0 <= contrib k s <= 1.
Proof. unfold contrib, b2z. case_match; lia. Qed.

Lemma wrap_add_l k x y : wrap k (wrap k x + y) = wrap k (x + y).
Proof. destruct k; (apply u64_add_l || apply i32_add_l). Qed.

Lemma get_bump k k' n c :
  get k (bump k' n c) = if decide (k = k') then wrap k (get k c + n) else get k c.
Proof. destruct c. by destruct k, k'. Qed.

Lemma bump_frame k n c :
  c_in_max (bump k n c) = c_in_max c ∧ c_out_max (bump k n c) = c_out_max c
  ∧ c_roundingThreshold (bump k n c) = c_roundingThreshold c.
Proof. destruct c. by destruct k. Qed.

(** The counts seen by a table of slots: each counter is the (wrapped) number of slots
    that contribute to it. *)
Definition counts_ok (total : counter → Z) (c : Counts) : Prop :=
  ∀ k, get k c = wrap k (total k).

Lemma adjust_ok s n c total :
  slot_dir_ok s = true → counts_ok total c →
  ∃ c', adjust s n c = Ok c' ∧ counts_ok (fun k => total k + n * contrib k s) c'
        ∧ c_in_max c' = c_in_max c ∧ c_out_max c' = c_out_max c
        ∧ c_roundingThreshold c' = c_roundingThreshold c.
Proof.
  intros Hd Hc.
  assert (∃ c', adjust s n c = Ok c') as [c' Ha].
  { unfold adjust, slot_dir_ok in *. destruct (m_state s); rewrite ?Hd; simpl; eauto. }
  exists c'. split; [done|]. unfold adjust, slot_dir_ok in *.
  split.
  - intros k. specialize (Hc k).
    replace (wrap k (total k + n * contrib k s))
      with (wrap k (get k c + n * contrib k s)) by (rewrite Hc; apply wrap_add_l).
    assert (wrap k (get k c + n * 0) = get k c) as H0.
    { replace (get k c + n * 0) with (get k c + 0) by lia.
      rewrite Hc, wrap_add_l. f_equal. lia. }
    replace (wrap k (get k c + n)) with (wrap k (get k c + n * 1)) in * by (f_equal; lia).
    destruct (m_state s) eqn:Hs, (m_fixed s) eqn:Hf, (m_cluster s) eqn:Hcl,
      (m_inbound s) eqn:Hi; simpl in Ha; simplify_eq; rewrite ?get_bump;
      unfold contrib; rewrite ?Hs, ?Hf, ?Hcl, ?Hi; simpl;
      destruct k; simpl; rewrite ?Z.mul_1_r; try done; by rewrite ?H0.
  - destruct c. destruct (m_state s), (m_fixed s), (m_cluster s), (m_inbound s);
      simpl in Ha; simplify_eq; done.
Qed.

(** ** Properties *)

(** The quotients of [applyTuning] are finite, for every number of peers a node is
    configured with in practice; by evaluation of the binary64 operations. *)
Definition in_peers (max_peers : Z) : double := d_sub (d_of_int max_peers) (calcOutPeers max_peers).

Lemma in_peers_finite mp : 10 <= mp <= 5000 →
  (∃ q, d_trunc (d_div (in_peers mp) (d_of_int Tuning.defaultMaxPeers)) = Ok q)
  ∧ ∃ h, d_trunc (d_div (in_peers mp) (d_of_int 2)) = Ok h.
Proof.
  intros Hmp.
  assert (forallb (fun n => let x := in_peers (Z.of_nat n) in
    is_ok (d_trunc (d_div x (d_of_int Tuning.defaultMaxPeers)))
    && is_ok (d_trunc (d_div x (d_of_int 2)))) (seq 10 4991) = true) as Hall
    by (vm_compute; reflexivity).
  rewrite forallb_forall in Hall. specialize (Hall (Z.to_nat mp)). rewrite in_seq in Hall.
  specialize (Hall ltac:(lia)). rewrite Z2Nat.id in Hall by lia.
  apply andb_true_iff in Hall as [H1 H2]. split.
  - destruct (d_trunc _) as [q|]; [by exists q|done].
  - destruct (d_trunc (d_div (in_peers mp) (d_of_int 2))) as [q|]; [by exists q|done].
Qed.

(** For a maximum of up to 5000 peers applyTuning succeeds, leaves at least the minimum
    number of peers, never lowers the maximum, gives an IP limit of at least one that is
    at most seven by default and at most the configured one otherwise, and recomputes
    the outbound share. *)
Theorem applyTuning_bounds c :
  maxPeers c <= 5000 →
  ∃ c', applyTuning c = Ok c'
    ∧ Tuning.minOutCount <= maxPeers c' ∧ maxPeers c <= maxPeers c' ∧ 1 <= ipLimit c'
    ∧ (ipLimit c = 0 → ipLimit c' <= 7) ∧ (1 <= ipLimit c → ipLimit c' <= ipLimit c)
    ∧ outPeers c' = calcOutPeers (maxPeers c').
Proof.
  intros Hmax. destruct (applyTuning c) as [c'|e] eqn:H.
  2:{ exfalso. unfold applyTuning in H. set (mp := if maxPeers c <? _ then _ else _) in *.
      assert (10 <= mp <= 5000) as Hmp.
      { unfold mp, Tuning.minOutCount. destruct (Z.ltb_spec (maxPeers c) 10); lia. }
      destruct (in_peers_finite mp Hmp) as [[q Hq] [h Hh]]. unfold in_peers in Hq, Hh.
      rewrite Hh, Hq in H.
      repeat case_match; discriminate. }
  exists c'. split; [done|]. unfold applyTuning in H. inv_res. simpl.
  split_and!; [destruct (Z.ltb_spec (maxPeers c) Tuning.minOutCount); lia..
              |lia| | |done].
  - intros Hz. rewrite Hz in *. simpl in *. repeat case_match; inv_res; lia.
  - intros Hz. destruct (Z.eqb_spec (ipLimit c) 0); [lia|]. inv_res. lia.
Qed.

Definition config_with (max_peers limit : Z) : Config :=
  mkConfig max_peers (calcOutPeers max_peers) true true true 2459 EmptyString limit.

Lemma applyTuning_bounds_witness :
  ∃ c', applyTuning (config_with 1000 0) = Ok c' ∧ 1 <= ipLimit c' <= 7.
Proof.
  destruct (applyTuning_bounds (config_with 1000 0)) as (c'&?&_&_&?&H7&_); [vm_compute; congruence|].
  exists c'. split_and!; [done|done|by apply H7].
Defined.

(** The limit derived from the defaults is 7 on a node with a thousand peers. *)
Theorem applyTuning_ip_limit_seven :
  (c' ← applyTuning (config_with 1000 0); Ok (ipLimit c')) = Ok 7.
Proof. vm_compute. reflexivity. Qed.

(** onConfig gives all peers to outbound when inbound is not wanted; otherwise the
    outbound maximum is the configured fraction, rounded up exactly when its fractional
    part exceeds the node's rounding threshold, and inbound gets the rest; no counter
    changes. *)
Theorem onConfig_split config c f :
  0 <= maxPeers config < 2 ^ 31 →
  d_floor (outPeers config) = Ok f → 0 <= f < 2 ^ 31 →
  ∃ c', onConfig config c = Ok c'
    ∧ c_out_max c' = (if wantIncoming config
                      then if SFltb (c_roundingThreshold c) (d_sub (outPeers config) (d_of_int f))
                           then f + 1 else f
                      else maxPeers config)
    ∧ c_in_max c' = Z.max 0 (maxPeers config - c_out_max c')
    ∧ (∀ k, get k c' = get k c).
Proof.
  intros Hm Hf Hr. unfold onConfig. rewrite Hf, (u64_small (maxPeers config)) by lia.
  assert (∀ om : Z, 0 <= om →
    (if om <=? maxPeers config then u64 (maxPeers config - om) else 0)
    = Z.max 0 (maxPeers config - om)) as Hin.
  { intros om Hom. destruct (Z.leb_spec om (maxPeers config)); [rewrite u64_small|]; lia. }
  assert (∀ om : Z, 0 <= om → ∃ c',
    @Ok Counts (set_maxes (if om <=? maxPeers config then u64 (maxPeers config - om) else 0) om c)
    = Ok c' ∧ c_out_max c' = om ∧ c_in_max c' = Z.max 0 (maxPeers config - c_out_max c')
    ∧ (∀ k, get k c' = get k c)) as Hset.
  { intros om Hom. rewrite Hin by done. eexists. split; [done|].
    destruct c; split_and!; [done|done|by intros []]. }
  destruct (wantIncoming config); cbn [mbind res_bind]; [|apply Hset; lia].
  rewrite (u64_small f) by lia.
  destruct (SFltb _ _); [rewrite (u64_small (f + 1)) by lia|]; apply Hset; lia.
Qed.

Lemma onConfig_split_witness :
  ∃ c', onConfig Config_default (Counts_init (S754_zero false)) = Ok c'
        ∧ c_in_max c' = Z.max 0 (21 - c_out_max c').
Proof.
  destruct (onConfig_split Config_default (Counts_init (S754_zero false)) 10) as (c'&?&_&?&_).
  - vm_compute. split; congruence.
  - vm_compute. reflexivity.
  - lia.
  - exists c'. split; assumption.
Defined.

(** isConnectedToNetwork depends on the outbound maximum only. *)
Theorem isConnectedToNetwork_ignores_active c :
  0 <= c_out_max c →
  (isConnectedToNetwork c = true ↔ c_out_max c = 0).
Proof.
  intros H. unfold isConnectedToNetwork. destruct (Z.ltb_spec 0 (c_out_max c)); split;
    (done || lia).
Qed.

(** ** Slots in use never exceed the limit through [can_activate] *)

(** Activating an ordinary slot that can_activate admits succeeds and leaves the number
    of active slots of its direction within the configured maximum. *)
Theorem activation_within_limits s c total now :
  slot_dir_ok s = true → m_cluster s = false → m_fixed s = false →
  counts_ok total c → (∀ k, 0 <= total k < 2 ^ 31) →
  c_in_max c < 2 ^ 31 → c_out_max c < 2 ^ 31 →
  can_activate s c = Ok true →
  ∃ s' c', slot_activate now s = Ok s'
    ∧ (c1 ← counts_remove s c; counts_add s' c1) = Ok c'
    ∧ (if m_inbound s then c_in_active c' <= c_in_max c' else c_out_active c' <= c_out_max c').
Proof.
  intros Hd Hcl Hfx Hc Ht Him Hom Hcan.
  unfold can_activate in Hcan. apply bind_ok in Hcan as ([]&Hst&Hcan).
  rewrite Hfx, Hcl in *. simpl in *.
  destruct (adjust_ok s (-1) c total Hd Hc) as (c1'&Hr&Hc1&Hm1&Hm2&_).
  assert (slot_activate now s = Ok (set_state_when active now s)) as Hact
    by (unfold slot_activate; rewrite orb_comm in Hst; by rewrite Hst || rewrite orb_comm, Hst).
  apply assert_ok in Hst.
  assert (slot_dir_ok (set_state_when active now s) = true) as Hd' by (by destruct s).
  destruct (adjust_ok (set_state_when active now s) 1 c1' _ Hd' Hc1) as (c2'&Ha&Hc2&Hm3&Hm4&_).
  eexists _, c2'. split; [done|]. split.
  { unfold counts_remove, counts_add. rewrite Hr. simpl. by rewrite Ha. }
  pose proof (Hc2 k_in_active) as Hia. pose proof (Hc2 k_out_active) as Hoa.
  pose proof (Hc k_in_active) as Hia0. pose proof (Hc k_out_active) as Hoa0.
  pose proof (Ht k_in_active). pose proof (Ht k_out_active).
  simpl in *. rewrite Hm3, Hm4, Hm1, Hm2, Hia, Hoa.
  rewrite u64_small in Hia0 by lia. rewrite u64_small in Hoa0 by lia.
  pose proof (contrib_range k_in_active s). pose proof (contrib_range k_out_active s).
  assert (contrib k_in_active (set_state_when active now s) = b2z (m_inbound s)
          ∧ contrib k_out_active (set_state_when active now s) = b2z (negb (m_inbound s))) as [-> ->].
  { destruct s as [? inb ? ? ? ? ? ? ? ? ? ? ?]; simpl in *; subst. by destruct inb. }
  assert (contrib k_in_active s = 0 ∧ contrib k_out_active s = 0) as [-> ->].
  { unfold contrib; simpl. by destruct (m_state s). }
  destruct (m_inbound s); simpl in *; injection Hcan as Hcan;
    apply Z.ltb_lt in Hcan; rewrite u64_small; lia.
Qed.

Lemma activation_within_limits_witness :
  ∃ s' c', slot_activate 5 (SlotImp_inbound ep_default ep_default false) = Ok s'
           ∧ c_in_active c' <= c_in_max c'.
Proof.
  destruct (activation_within_limits (SlotImp_inbound ep_default ep_default false)
    (set_maxes 11 10 (Counts_init (S754_zero false))) (fun _ => 0) 5) as (s'&c'&?&_&?);
    try reflexivity.
  - by intros [].
  - lia.
  - exists s', c'. split; assumption.
Defined.
