(* ===== verification/Bootcache.v ===== *)
(** * The boot cache (Bootcache.h, Bootcache.cpp, Store.h)

    Addresses with a valence: the number of consecutive successful (positive) or
    failed (negative) connection attempts.  The [boost::bimap] is a set of endpoints
    on the left and a multiset ordered by decreasing valence on the right; the model
    is the list of its relations in the right order, where a new relation goes after
    those of equal valence.

    The persistent [Store] is an interface: a class with its law, discharged by the
    table that StoreSqdb.h keeps. *)

From S2P Require Import Prelude IPAddr Aged Slot.

Local Open Scope Z_scope.

(** ** Store *)

Abbreviation store_entry := (IPEndpoint * Z)%type.

Class Store (S : Type) := {
  store_load : S → list store_entry;
  store_save : S → list store_entry → S
}.

(** What the boot cache relies on: a load yields what was saved last, in any order,
    less the entries whose address is unspecified. *)
Class StoreLaws (S : Type) `{Store S} := {
  store_load_save : ∀ s l, NoDup l.*1 →
    store_load (store_save s l) ≡ₚ filter (fun e => is_unspecified e.1 = false) l
}.

(** The rows of PeerFinder_BootstrapCache: [save] deletes them and inserts the new
    ones in one transaction, [load] selects them and skips unspecified addresses. *)
Definition sqdb_table : Type := list store_entry.
Definition sqdb_load (t : sqdb_table) : list store_entry :=
  filter (fun e => is_unspecified e.1 = false) t.
Definition sqdb_save (t : sqdb_table) (v : list store_entry) : sqdb_table := v.

#[global] Instance sqdb_store : Store sqdb_table :=
  {| store_load := sqdb_load; store_save := sqdb_save |}.
#[global] Instance sqdb_store_laws : StoreLaws sqdb_table.
Proof. split. intros s l _. done. Qed.

(** ** The bimap *)

Abbreviation bimap := (list (IPEndpoint * Z)).

(** Insertion before the first relation of smaller valence: [Entry::operator<] holds
    when the valence is greater. *)
Fixpoint right_insert (x : IPEndpoint * Z) (m : bimap) : bimap :=
  match m with
  | [] => [x]
  | y :: m' => if y.2 <? x.2 then x :: y :: m' else y :: right_insert x m'
  end.

Definition bm_find (ep : IPEndpoint) (m : bimap) : option Z :=
  (fun p => p.2.2) <$> list_find (fun e => e.1 = ep) m.

(** [m_map.insert (value_type (endpoint, valence))] *)
Definition bm_insert (ep : IPEndpoint) (v : Z) (m : bimap) : bimap * bool :=
  match bm_find ep m with
  | Some _ => (m, false)
  | None => (right_insert (ep, v) m, true)
  end.

Definition bm_erase (ep : IPEndpoint) (m : bimap) : bimap :=
  filter (fun e => e.1 ≠ ep) m.

(** ** Bootcache *)

Section Bootcache.
Context {S : Type} `{!Store S}.

Record Bootcache := mkBoot {
  m_map : bimap;
  m_store : S;
  m_whenUpdate : Z;
  m_needsUpdate : bool
}.

Implicit Types (b : Bootcache) (now : Z).

Definition Bootcache_init (s : S) (now : Z) : Bootcache := mkBoot [] s now false.

Definition boot_size b : Z := Z.of_nat (length (m_map b)).
Definition boot_empty b : bool := match m_map b with [] => true | _ => false end.

(** [begin () .. end ()]: the endpoints in decreasing valence. *)
Definition boot_endpoints b : list IPEndpoint := (m_map b).*1.

Definition set_map (m : bimap) b : Bootcache :=
  mkBoot m (m_store b) (m_whenUpdate b) (m_needsUpdate b).

Definition boot_clear b : Bootcache := mkBoot [] (m_store b) (m_whenUpdate b) true.

(** [prune]: above the limit, remove a tenth of the relations, worst valence first. *)
Definition prune b : Bootcache :=
  if boot_size b <=? Tuning.bootcacheSize then b
  else
    let count := u64 (boot_size b * Tuning.bootcachePrunePercent) / 100 in
    set_map (take (length (m_map b) - Z.to_nat count) (m_map b)) b.

Definition update now b : Bootcache :=
  if negb (m_needsUpdate b) then b
  else mkBoot (m_map b) (store_save (m_store b) (m_map b))
         (now + Tuning.bootcacheCooldownTime) false.

Definition checkUpdate now b : Bootcache :=
  if m_needsUpdate b && (m_whenUpdate b <? now) then update now b else b.

Definition flagForUpdate now b : Bootcache :=
  checkUpdate now (mkBoot (m_map b) (m_store b) (m_whenUpdate b) true).

(** [load]: the callback inserts each entry and discards duplicates. *)
Definition boot_load b : Bootcache :=
  let b := boot_clear b in
  let rows := store_load (m_store b) in
  let b := set_map (foldl (fun m e => (bm_insert e.1 e.2 m).1) (m_map b) rows) b in
  match rows with [] => b | _ => prune b end.

Definition boot_insert (ep : IPEndpoint) now b : Bootcache * bool :=
  let '(m, inserted) := bm_insert ep 0 (m_map b) in
  if inserted then (flagForUpdate now (prune (set_map m b)), true) else (b, false).

(** The common part of [on_success] and [on_failure]: insert the endpoint at [first],
    or replace its relation by one whose valence is [next] of the old one; then
    [result.first->right] is read through the iterator. *)
Definition revalue (ep : IPEndpoint) (first : Z) (next : Z → Z) now b : res Bootcache :=
  let '(m, inserted) := bm_insert ep first (m_map b) in
  b' ← (if inserted then Ok (prune (set_map m b))
        else
          old ← deref (bm_find ep m);
          let '(m', inserted') := bm_insert ep (next old) (bm_erase ep m) in
          assert_ inserted';;
          Ok (set_map m' b));
  _ ← deref (bm_find ep (m_map b'));
  Ok (flagForUpdate now b').

Definition boot_on_success (ep : IPEndpoint) now b : res Bootcache :=
  revalue ep 1 (fun v => i32 ((if v <? 0 then 0 else v) + 1)) now b.

Definition boot_on_failure (ep : IPEndpoint) now b : res Bootcache :=
  revalue ep (-1) (fun v => i32 ((if 0 <? v then 0 else v) - 1)) now b.

Definition boot_periodicActivity now b : Bootcache := checkUpdate now b.
End Bootcache.
Arguments Bootcache S : clear implicits.

(** ** Invariant: endpoints are unique, relations are in decreasing valence *)

Definition by_valence (x y : IPEndpoint * Z) : Prop := y.2 <= x.2.

Record bimap_wf (m : bimap) : Prop := {
  bm_nodup : NoDup m.*1;
  bm_sorted : StronglySorted by_valence m
}.

Lemma bm_find_Some ep v m : NoDup m.*1 → bm_find ep m = Some v ↔ (ep, v) ∈ m.
Proof.
  intros Hnd. unfold bm_find. rewrite fmap_Some. split.
  - intros ([i [ep' v']]&(?&?&_)%list_find_Some&->). simpl in *; subst.
    by eapply list_elem_of_lookup_2.
  - intros (i&Hi)%list_elem_of_lookup.
    exists (i, (ep, v)). split; [|done]. apply list_find_Some. split_and!; [done..|].
    intros j [ep' v'] Hj Hlt Heq. simpl in Heq. subst.
    assert (i = j); [|lia]. apply (NoDup_lookup m.*1 i j ep Hnd);
      rewrite list_lookup_fmap; [by rewrite Hi|by rewrite Hj].
Qed.

Lemma bm_find_None ep m : bm_find ep m = None ↔ ep ∉ m.*1.
Proof.
  unfold bm_find. rewrite fmap_None, list_find_None, Forall_forall, list_elem_of_fmap.
  naive_solver.
Qed.

Lemma right_insert_perm x m : right_insert x m ≡ₚ x :: m.
Proof.
  induction m as [|y m IH]; simpl; [done|].
  case_match; [done|]. rewrite IH. constructor.
Qed.

Lemma right_insert_sorted x m :
  StronglySorted by_valence m → StronglySorted by_valence (right_insert x m).
Proof.
  induction m as [|y m IH]; simpl; [repeat constructor|].
  rewrite StronglySorted_cons. intros [Hy Hm].
  destruct (Z.ltb_spec y.2 x.2) as [Hlt|Hge]; rewrite !StronglySorted_cons.
  - split_and!; [|done..]. constructor; [unfold by_valence; lia|].
    eapply Forall_impl; [done|]. unfold by_valence. intros; lia.
  - split; [|by apply IH]. rewrite right_insert_perm. by constructor.
Qed.

Lemma bimap_wf_insert ep v m : bimap_wf m → bimap_wf (bm_insert ep v m).1.
Proof.
  intros [Hnd Hs]. unfold bm_insert. destruct (bm_find ep m) eqn:E; simpl; [by split|].
  split; [|by apply right_insert_sorted]. rewrite right_insert_perm. simpl.
  apply NoDup_cons. split; [|done]. by apply bm_find_None.
Qed.

Lemma bimap_wf_sublist m m' : sublist m' m → bimap_wf m → bimap_wf m'.
Proof.
  intros Hs []. split.
  - eapply sublist_NoDup; [done|]. by apply fmap_sublist.
  - by eapply StronglySorted_sublist.
Qed.

Lemma bimap_wf_erase ep m : bimap_wf m → bimap_wf (bm_erase ep m).
Proof. apply bimap_wf_sublist, sublist_filter. Qed.

Lemma bm_find_erase ep ep' m :
  bimap_wf m → bm_find ep' (bm_erase ep m) = if decide (ep' = ep) then None else bm_find ep' m.
Proof.
  intros Hwf. pose proof (bimap_wf_erase ep m Hwf) as [Hnd' _]. destruct Hwf as [Hnd _].
  case_decide as He.
  - apply bm_find_None. intros (e&->&Hin)%list_elem_of_fmap.
    apply list_elem_of_filter in Hin as [? _]. done.
  - apply option_eq. intros v. rewrite !bm_find_Some by done. unfold bm_erase.
    rewrite list_elem_of_filter. naive_solver.
Qed.

Lemma bm_find_insert ep v ep' m :
  bimap_wf m →
  bm_find ep' (bm_insert ep v m).1
  = if decide (ep' = ep) then Some (default v (bm_find ep m)) else bm_find ep' m.
Proof.
  intros Hwf. pose proof (bimap_wf_insert ep v m Hwf) as [Hnd' _].
  destruct Hwf as [Hnd _]. unfold bm_insert in *.
  destruct (bm_find ep m) as [w|] eqn:E; simpl in *.
  - case_decide; [by subst|done].
  - case_decide as He.
    + subst. apply bm_find_Some; [done|]. rewrite right_insert_perm. by left.
    + apply option_eq. intros w. rewrite !bm_find_Some by done.
      rewrite right_insert_perm, elem_of_cons. naive_solver.
Qed.

Lemma bm_insert_fresh ep v m : (bm_insert ep v m).2 = true ↔ bm_find ep m = None.
Proof. unfold bm_insert. destruct (bm_find ep m); naive_solver. Qed.

Lemma length_bm_insert ep v m :
  bm_find ep m = None → length (bm_insert ep v m).1 = S (length m).
Proof. intros E. unfold bm_insert. rewrite E. simpl. by rewrite right_insert_perm. Qed.

Section Bootcache_lemmas.
Context {S : Type} `{!Store S}.
Implicit Types (b : Bootcache S) (now : Z) (ep : IPEndpoint).

Lemma map_update now b : m_map (update now b) = m_map b.
Proof. unfold update. by destruct (m_needsUpdate b). Qed.

Lemma map_checkUpdate now b : m_map (checkUpdate now b) = m_map b.
Proof. unfold checkUpdate. case_match; [apply map_update|done]. Qed.

Lemma map_flagForUpdate now b : m_map (flagForUpdate now b) = m_map b.
Proof. unfold flagForUpdate. by rewrite map_checkUpdate. Qed.

Lemma map_prune b :
  m_map (prune b)
  = take (if boot_size b <=? 1000 then length (m_map b)
          else (length (m_map b) - Z.to_nat (u64 (boot_size b * 10) / 100))%nat) (m_map b).
Proof.
  unfold prune. change Tuning.bootcacheSize with 1000.
  change Tuning.bootcachePrunePercent with 10.
  case_match; [by rewrite firstn_all|done].
Qed.

Lemma prune_small b : boot_size b <= 1000 → prune b = b.
Proof.
  intros. unfold prune. change Tuning.bootcacheSize with 1000.
  by rewrite (proj2 (Z.leb_le _ _)).
Qed.

Lemma bimap_wf_prune b : bimap_wf (m_map b) → bimap_wf (m_map (prune b)).
Proof. rewrite map_prune. apply bimap_wf_sublist, sublist_take. Qed.

Lemma prune_size b : boot_size (prune b) <= boot_size b.
Proof. unfold boot_size. rewrite map_prune, length_take. lia. Qed.

(** One relation over the limit: the next prune goes below it. *)
Lemma prune_one_over b : boot_size b <= 1001 → boot_size (prune b) <= 1000.
Proof.
  intros Hs. unfold boot_size in *. rewrite map_prune, length_take.
  unfold boot_size. destruct (Z.leb_spec (Z.of_nat (length (m_map b))) 1000); [lia|].
  replace (Z.of_nat (length (m_map b))) with 1001 by lia.
  change (u64 (1001 * 10) / 100) with 100. lia.
Qed.

Lemma bimap_wf_load b : bimap_wf (m_map (boot_load b)).
Proof.
  unfold boot_load. set (rows := store_load _).
  assert (∀ m, bimap_wf m →
    bimap_wf (foldl (fun m e => (bm_insert e.1 e.2 m).1) m rows)) as Hf.
  { induction rows as [|[ep v] rows IH]; intros m Hm; simpl; [done|].
    by apply IH, bimap_wf_insert. }
  specialize (Hf [] ltac:(repeat constructor)).
  case_match; [exact Hf|]. apply bimap_wf_prune. exact Hf.
Qed.

Lemma bimap_wf_boot_insert ep now b :
  bimap_wf (m_map b) → bimap_wf (m_map (boot_insert ep now b).1).
Proof.
  intros Hwf. unfold boot_insert.
  pose proof (bimap_wf_insert ep 0 _ Hwf) as Hi.
  destruct (bm_insert ep 0 (m_map b)) as [m [|]]; simpl; [|done].
  rewrite map_flagForUpdate. by apply bimap_wf_prune.
Qed.

(** An insertion adds the endpoint at most. *)
Lemma boot_insert_endpoints ep ep' now b :
  ep' ∈ boot_endpoints (boot_insert ep now b).1 → ep' ∈ boot_endpoints b ∨ ep' = ep.
Proof.
  unfold boot_insert, boot_endpoints, bm_insert. destruct (bm_find ep (m_map b)); [by left|].
  simpl. rewrite map_flagForUpdate, map_prune. simpl. intros H.
  apply list_elem_of_fmap in H as (x&->&Hx). apply elem_of_take in Hx as (i&Hx&_). apply list_elem_of_lookup_2 in Hx.
  rewrite right_insert_perm in Hx. apply elem_of_cons in Hx as [->|Hx]; [by right|].
  left. by apply list_elem_of_fmap_2.
Qed.

Lemma bimap_wf_revalue ep first next now b b' :
  bimap_wf (m_map b) → revalue ep first next now b = Ok b' → bimap_wf (m_map b').
Proof.
  intros Hwf. unfold revalue. pose proof (bimap_wf_insert ep first _ Hwf) as Hi.
  destruct (bm_insert ep first (m_map b)) as [m ins] eqn:E; simpl in *.
  intros H. apply bind_ok in H as (b1&Hb1&H). inv_res. rewrite map_flagForUpdate.
  destruct ins; [inv_res; by apply bimap_wf_prune|].
  apply bind_ok in Hb1 as (old&_&Hb1).
  pose proof (bimap_wf_insert ep (next old) _ (bimap_wf_erase ep _ Hi)) as Hj.
  destruct (bm_insert ep (next old) (bm_erase ep m)). simpl in *. by inv_res.
Qed.

(** The cache has room for the endpoint: it is known, or a fresh relation does not
    overflow the limit. *)
Definition has_room ep b : Prop :=
  is_Some (bm_find ep (m_map b)) ∨ boot_size b < 1000.

Lemma revalue_ok ep first next now b :
  bimap_wf (m_map b) → has_room ep b →
  ∃ b', revalue ep first next now b = Ok b'
    ∧ (∀ ep', bm_find ep' (m_map b') =
         if decide (ep' = ep)
         then Some (match bm_find ep (m_map b) with Some v => next v | None => first end)
         else bm_find ep' (m_map b)).
Proof.
  intros Hwf Hroom. unfold revalue.
  pose proof (bm_find_insert ep first) as Hfi.
  pose proof (bm_insert_fresh ep first (m_map b)) as Hfr.
  destruct (bm_insert ep first (m_map b)) as [m ins] eqn:E.
  destruct ins; simpl in Hfr.
  - assert (bm_find ep (m_map b) = None) as Hn by (by apply Hfr).
    assert (prune (set_map m b) = set_map m b) as Hp.
    { apply prune_small. destruct Hroom as [[? ?]|Hroom]; [congruence|].
      pose proof (length_bm_insert ep first _ Hn) as Hl. rewrite E in Hl. simpl in Hl.
      unfold boot_size in *; simpl. lia. }
    assert (∀ ep', bm_find ep' m
                   = if decide (ep' = ep) then Some first else bm_find ep' (m_map b)) as Hm.
    { intros ep'. specialize (Hfi ep' _ Hwf). rewrite E, Hn in Hfi. done. }
    simpl. rewrite Hp. simpl. rewrite Hm, decide_True by done. simpl.
    eexists. split; [done|]. intros ep'. rewrite map_flagForUpdate. simpl.
    by rewrite Hm, Hn.
  - destruct (bm_find ep (m_map b)) as [old|] eqn:Ho; [|naive_solver].
    assert (m = m_map b) as -> by (unfold bm_insert in E; rewrite Ho in E; congruence).
    simpl. rewrite Ho. simpl.
    pose proof (bimap_wf_erase ep _ Hwf) as Hwe.
    pose proof (λ ep', bm_find_insert ep (next old) ep' _ Hwe) as Hj.
    pose proof (bm_insert_fresh ep (next old) (bm_erase ep (m_map b))) as Hfr'.
    destruct (bm_insert ep (next old) (bm_erase ep (m_map b))) as [m' ins'] eqn:E'.
    simpl in *. assert (bm_find ep (bm_erase ep (m_map b)) = None) as Hne.
    { rewrite bm_find_erase by done. by rewrite decide_True. }
    rewrite (proj2 Hfr') by done. simpl. rewrite Hj, decide_True by done.
    rewrite Hne. simpl. eexists. split; [done|]. intros ep'. rewrite map_flagForUpdate.
    simpl. rewrite Hj, Hne. case_decide; [done|].
    rewrite bm_find_erase by done. by rewrite decide_False.
Qed.
End Bootcache_lemmas.

#[export] Hint Resolve bimap_wf_insert bimap_wf_erase bimap_wf_prune bimap_wf_load
  bimap_wf_boot_insert bimap_wf_revalue : finpal.

(** ** Properties *)

Section Bootcache_properties.
Context {S : Type} `{!Store S}.
Implicit Types (b : Bootcache S) (now : Z) (ep : IPEndpoint).

(** With room in the boot cache a success raises an address's valence to at least 1 and
    a failure lowers it to at most -1, forgetting the opposite history, at 32-bit width;
    other addresses keep theirs. *)
Theorem boot_valence_update ep now b :
  bimap_wf (m_map b) → has_room ep b →
  (∃ b', boot_on_success ep now b = Ok b' ∧ ∀ ep',
     bm_find ep' (m_map b') =
     if decide (ep' = ep)
     then Some (match bm_find ep (m_map b) with
                | Some v => i32 (Z.max v 0 + 1) | None => 1 end)
     else bm_find ep' (m_map b))
  ∧ (∃ b', boot_on_failure ep now b = Ok b' ∧ ∀ ep',
     bm_find ep' (m_map b') =
     if decide (ep' = ep)
     then Some (match bm_find ep (m_map b) with
                | Some v => i32 (Z.min v 0 - 1) | None => -1 end)
     else bm_find ep' (m_map b)).
Proof.
  intros Hwf Hr. split.
  - destruct (revalue_ok ep 1 (fun v => i32 ((if v <? 0 then 0 else v) + 1)) now b Hwf Hr)
      as (b'&Hb'&Hf). exists b'. split; [done|]. intros ep'. rewrite Hf.
    destruct (bm_find ep (m_map b)) as [v|]; [|done].
    destruct (Z.ltb_spec v 0); [rewrite Z.max_r by lia|rewrite Z.max_l by lia]; done.
  - destruct (revalue_ok ep (-1) (fun v => i32 ((if 0 <? v then 0 else v) - 1)) now b Hwf Hr)
      as (b'&Hb'&Hf). exists b'. split; [done|]. intros ep'. rewrite Hf.
    destruct (bm_find ep (m_map b)) as [v|]; [|done].
    destruct (Z.ltb_spec 0 v); [rewrite Z.min_r by lia|rewrite Z.min_l by lia]; done.
Qed.

(** Inserting never takes the boot cache over its capacity, reports whether the address
    was new, and keeps it sorted by decreasing valence without duplicates. *)
Theorem boot_insert_capacity ep now b :
  bimap_wf (m_map b) → boot_size b <= Tuning.bootcacheSize →
  boot_size (boot_insert ep now b).1 <= Tuning.bootcacheSize
  ∧ ((boot_insert ep now b).2 = true ↔ bm_find ep (m_map b) = None)
  ∧ bimap_wf (m_map (boot_insert ep now b).1).
Proof.
  change Tuning.bootcacheSize with 1000. intros Hwf Hs.
  split_and!; [| |by apply bimap_wf_boot_insert].
  - unfold boot_insert. destruct (bm_insert ep 0 (m_map b)) as [m ins] eqn:E.
    destruct ins; simpl; [|done]. unfold boot_size at 1. rewrite map_flagForUpdate.
    apply prune_one_over. unfold boot_size in *. simpl.
    pose proof (length_bm_insert ep 0 (m_map b)) as Hl.
    pose proof (bm_insert_fresh ep 0 (m_map b)) as Hfr. rewrite E in *. simpl in *.
    rewrite Hl by (by apply Hfr). lia.
  - unfold boot_insert. pose proof (bm_insert_fresh ep 0 (m_map b)) as Hfr.
    by destruct (bm_insert ep 0 (m_map b)) as [m []].
Qed.

(** Pruning the boot cache keeps the best: no address that is removed has a higher
    valence than one that stays. *)
Theorem prune_keeps_best b kept lost :
  bimap_wf (m_map b) →
  kept ∈ m_map (prune b) → lost ∈ m_map b → lost ∉ m_map (prune b) →
  lost.2 <= kept.2.
Proof.
  intros [_ Hs] Hk Hl Hnl. rewrite map_prune in Hk, Hnl.
  revert Hk Hnl. generalize (if boot_size b <=? 1000 then length (m_map b)
    else (length (m_map b) - Z.to_nat (u64 (boot_size b * 10) / 100))%nat) as n.
  intros n Hk Hnl. rewrite <-(take_drop n (m_map b)) in Hl, Hs.
  apply elem_of_app in Hl as [?|Hl]; [done|].
  exact (StronglySorted_app_1_elem_of _ _ _ _ _ Hs Hk Hl).
Qed.

(** In a full boot cache, recording a failure for an unknown address that ranks last
    inserts it, prunes it away and then reads the erased entry. *)
Theorem boot_on_failure_dangling ep now b :
  bimap_wf (m_map b) → boot_size b = Tuning.bootcacheSize →
  bm_find ep (m_map b) = None → Forall (fun e => -1 <= e.2) (m_map b) →
  boot_on_failure ep now b = Err undefined.
Proof.
  change Tuning.bootcacheSize with 1000. intros Hwf Hs Hn Hv.
  unfold boot_on_failure, revalue. unfold bm_insert. rewrite Hn.
  assert (right_insert (ep, -1) (m_map b) = m_map b ++ [(ep, -1)]) as ->.
  { clear Hs Hn Hwf. induction Hv as [|y m Hy Hm IH]; simpl; [done|].
    rewrite (proj2 (Z.ltb_ge _ _)) by done. by rewrite IH. }
  simpl. assert (boot_size (set_map (m_map b ++ [(ep, -1)]) b) = 1001) as Hs1.
  { unfold boot_size in *. simpl. rewrite length_app. simpl. lia. }
  rewrite map_prune, Hs1. simpl. change (Z.to_nat (u64 (1001 * 10) / 100)) with 100%nat.
  rewrite length_app. simpl. unfold boot_size in Hs.
  rewrite take_app_le by lia.
  assert (bm_find ep (take (length (m_map b) + 1 - 100) (m_map b)) = None) as ->; [|done].
  apply bm_find_None. apply bm_find_None in Hn. intros Hin. apply Hn.
  eapply elem_of_sublist; [done|]. apply fmap_sublist, sublist_take.
Qed.

Lemma foldl_insert_perm (rows m : bimap) :
  bimap_wf m → NoDup (m.*1 ++ rows.*1) →
  let r := foldl (fun m e => (bm_insert e.1 e.2 m).1) m rows in
  bimap_wf r ∧ r ≡ₚ m ++ rows.
Proof.
  revert m. induction rows as [|[ep v] rows IH]; intros m Hwf Hnd r; subst r; simpl.
  { by rewrite app_nil_r. }
  assert (bm_find ep m = None) as Hn.
  { apply bm_find_None. apply NoDup_app in Hnd as (_&Hd&_). intros Hin.
    apply (Hd _ Hin). by left. }
  assert ((bm_insert ep v m).1 ≡ₚ (ep, v) :: m) as Hp.
  { unfold bm_insert. rewrite Hn. apply right_insert_perm. }
  destruct (IH (bm_insert ep v m).1) as [??].
  { by apply bimap_wf_insert. }
  { rewrite Hp. simpl. rewrite fmap_cons in Hnd. simpl in Hnd.
    by rewrite <-Permutation_middle in Hnd. }
  split; [done|]. etrans; [done|]. rewrite Hp. simpl. apply Permutation_middle.
Qed.

(** Saving the boot cache and loading it again gives every address its valence back,
    provided the store returns what was saved. *)
Theorem boot_persist_roundtrip `{!StoreLaws S} now b :
  bimap_wf (m_map b) → boot_size b <= Tuning.bootcacheSize → m_needsUpdate b = true →
  Forall (fun e => is_unspecified e.1 = false) (m_map b) →
  ∀ ep, bm_find ep (m_map (boot_load (update now b))) = bm_find ep (m_map b).
Proof.
  change Tuning.bootcacheSize with 1000. intros Hwf Hs Hn Hu ep.
  unfold boot_load, update. rewrite Hn. simpl.
  pose proof (store_load_save (m_store b) (m_map b) (bm_nodup _ Hwf)) as Hl.
  rewrite filter_all in Hl by done.
  set (rows := store_load _) in *.
  destruct (foldl_insert_perm rows []) as [Hwf' Hp].
  { repeat constructor. }
  { simpl. rewrite Hl. apply Hwf. }
  simpl in Hp. set (r := foldl _ [] rows) in *.
  assert (bm_find ep r = bm_find ep (m_map b)) as Hf.
  { apply option_eq. intros v. rewrite !bm_find_Some by (apply Hwf || apply Hwf').
    by rewrite Hp, Hl. }
  destruct rows; [done|]. rewrite prune_small; [done|].
  unfold boot_size in *. simpl. by rewrite Hp, Hl.
Qed.
End Bootcache_properties.

(** ** Witnesses *)

Definition host (n : Z) : IPEndpoint := mkEp (v4_of_octets 54 12 3 n) 2459.

Definition boot2 : Bootcache sqdb_table :=
  mkBoot [(host 1, 3); (host 2, -2)] ([] : sqdb_table) 0 true.

Lemma boot2_wf : bimap_wf (m_map boot2).
Proof. split; [by_compute|]. repeat constructor; unfold by_valence; simpl; lia. Qed.

Lemma boot_valence_update_witness :
  ∃ b', boot_on_success (host 2) 5 boot2 = Ok b' ∧ bm_find (host 2) (m_map b') = Some 1.
Proof.
  destruct (boot_valence_update (host 2) 5 boot2 boot2_wf) as [(b'&?&Hf) _].
  - left. by eexists.
  - exists b'. split; [done|]. rewrite Hf. reflexivity.
Defined.

Lemma boot_insert_capacity_witness : boot_size (boot_insert (host 3) 5 boot2).1 <= 1000.
Proof.
  refine (proj1 (boot_insert_capacity (host 3) 5 boot2 boot2_wf _)). vm_compute. congruence.
Defined.

(** A cache filled to the limit: 1000 distinct endpoints of valence 0. *)
Definition boot_full : Bootcache sqdb_table :=
  mkBoot ((fun n => (mkEp (mkV4 (0x36000000 + Z.of_nat n)) 2459, 0)) <$> seq 0 1000)
    ([] : sqdb_table) 0 false.

Lemma boot_full_sorted : StronglySorted by_valence (m_map boot_full).
Proof.
  unfold boot_full, m_map. induction (seq 0 1000) as [|n l IH]; [constructor|].
  rewrite fmap_cons. constructor; [exact IH|].
  apply Forall_forall. intros e (k&->&_)%list_elem_of_fmap. unfold by_valence. simpl. lia.
Qed.

Lemma boot_full_wf : bimap_wf (m_map boot_full).
Proof.
  split; [|apply boot_full_sorted]. unfold boot_full, m_map. rewrite <-list_fmap_compose.
  apply NoDup_fmap_2; [|apply NoDup_seq]. intros x y. simpl. intros [=]. lia.
Qed.

(** [boot_full] with one relation more, as [insert] leaves it before pruning. *)
Definition boot_over : Bootcache sqdb_table :=
  set_map (m_map boot_full ++ [(host 1, -5)]) boot_full.

Lemma boot_over_wf : bimap_wf (m_map boot_over).
Proof.
  split; unfold boot_over, set_map; cbn [m_map].
  - rewrite fmap_app. apply NoDup_app. split_and!; [apply boot_full_wf| |by apply NoDup_singleton].
    intros x (e&->&(n&->&[_ Hn]%elem_of_seq)%list_elem_of_fmap)%list_elem_of_fmap.
    intros Heq%list_elem_of_singleton. simpl in Heq.
    apply (f_equal (fun e => value (m_addr e))) in Heq.
    change (value (m_addr (host 1))) with 906756865 in Heq. simpl in Heq. lia.
  - apply StronglySorted_snoc; [apply boot_full_sorted|].
    apply Forall_forall. intros e (k&->&_)%list_elem_of_fmap. unfold by_valence. simpl. lia.
Qed.

Lemma prune_keeps_best_witness : -5 <= 0.
Proof.
  pose proof boot_over_wf as Hwf.
  refine (prune_keeps_best boot_over (mkEp (mkV4 0x36000000) 2459, 0) (host 1, -5) Hwf _ _ _).
  - by_compute.
  - by_compute.
  - by_compute.
Defined.

Lemma boot_on_failure_dangling_witness : boot_on_failure (host 1) 7 boot_full = Err undefined.
Proof.
  apply (boot_on_failure_dangling (host 1) 7 boot_full boot_full_wf).
  - reflexivity.
  - vm_compute. reflexivity.
  - apply Forall_forall. intros e (k&->&_)%list_elem_of_fmap. simpl. lia.
Defined.

Lemma boot_persist_roundtrip_witness :
  bm_find (host 2) (m_map (boot_load (update 9 boot2))) = Some (-2).
Proof.
  rewrite (boot_persist_roundtrip 9 boot2 boot2_wf); [reflexivity|vm_compute; congruence|done|].
  repeat constructor.
Defined.
