(* ===== verification/Livecache.v ===== *)
(** * The live cache (Livecache.h)

    Short-lived advertised endpoints.  Every [Element] is in the aged map, keyed by
    its address, and in one of eight intrusive lists, the one of its hop count; a
    histogram counts the elements of each list.

    The lists hold references to elements, which the model writes as the key of the
    element in the map; [endpoint_of] follows a reference. *)

From S2P Require Import Prelude IPAddr Aged Slot.

Local Open Scope Z_scope.

(** [std::random_shuffle]: any permutation, chosen by the draw number [seed]. *)
Class RandomShuffle := {
  random_shuffle : ∀ {A : Type}, nat → list A → list A;
  random_shuffle_perm : ∀ (A : Type) seed (l : list A), random_shuffle seed l ≡ₚ l
}.

Record hops_t := mkHops {
  m_lists : list (list IPEndpoint);
  m_hist : list Z
}.

Record Livecache := mkLive {
  m_cache : aged IPEndpoint Endpoint;
  lhops : hops_t
}.

(** [1 + Tuning::maxHops + 1] *)
Definition n_hops : nat := Z.to_nat (1 + Tuning.maxHops + 1).

Definition hops_init : hops_t := mkHops (replicate n_hops []) (replicate n_hops 0).
Definition Livecache_init : Livecache := mkLive aged_empty hops_init.

Definition live_empty (lc : Livecache) : bool := (aged_size (m_cache lc) =? 0)%nat.
Definition live_size (lc : Livecache) : nat := aged_size (m_cache lc).

(** [Hop::Transform]: the endpoint of the referenced element. *)
Definition endpoint_of (c : aged IPEndpoint Endpoint) (k : IPEndpoint) : res Endpoint :=
  deref (aged_find c k).

(** [hops_t::insert]: push the element to the front of the list of its hop count. *)
Definition hops_insert (e : Endpoint) (h : hops_t) : res hops_t :=
  assert_ ((0 <=? hops e) && (hops e <=? Tuning.maxHops + 1));;
  let i := Z.to_nat (hops e) in
  Ok (mkHops (alter (cons (ep_address e)) i (m_lists h))
             (alter (fun n => i32 (n + 1)) i (m_hist h))).

(** [hops_t::remove] *)
Definition hops_remove (e : Endpoint) (h : hops_t) : hops_t :=
  let i := Z.to_nat (hops e) in
  mkHops (alter (erase1 (ep_address e)) i (m_lists h))
         (alter (fun n => i32 (n - 1)) i (m_hist h)).

(** [hops_t::reinsert]: also updates the element, which lives in the aged map. *)
Definition hops_reinsert (e : Endpoint) (new_hops : Z) (lc : Livecache) : res Livecache :=
  assert_ ((0 <=? new_hops) && (new_hops <=? Tuning.maxHops + 1));;
  let e' := mkEndpoint new_hops (ep_address e) in
  h ← hops_insert e' (hops_remove e (lhops lc));
  Ok (mkLive (aged_set_value (ep_address e) e' (m_cache lc)) h).

(** [hops_t::shuffle] *)
Definition hops_shuffle `{RandomShuffle} (seed : nat) (h : hops_t) : hops_t :=
  mkHops (imap (fun i l => random_shuffle (seed + i) l) (m_lists h)) (m_hist h).

Definition live_shuffle `{RandomShuffle} (seed : nat) (lc : Livecache) : Livecache :=
  mkLive (m_cache lc) (hops_shuffle seed (lhops lc)).

(** [Livecache::insert] *)
Definition live_insert (ep : Endpoint) (now : Z) (lc : Livecache) : res Livecache :=
  assert_ (hops ep <=? Tuning.maxHops + 1);;
  let '(cache, inserted) := aged_emplace (ep_address ep) ep now (m_cache lc) in
  e ← endpoint_of cache (ep_address ep);
  if inserted then
    h ← hops_insert e (lhops lc);
    Ok (mkLive cache h)
  else if hops e <? hops ep then Ok (mkLive cache (lhops lc))
  else
    let cache := aged_touch (ep_address ep) now cache in
    if hops ep <? hops e then hops_reinsert e (hops ep) (mkLive cache (lhops lc))
    else Ok (mkLive cache (lhops lc)).

(** [Livecache::expire]: unlink each expired element from its hop list, then erase it. *)
Fixpoint live_expire_loop (expired : Z) (l : list IPEndpoint) (lc : Livecache) : Livecache :=
  match l with
  | [] => lc
  | k :: l' =>
      match cont (m_cache lc) !! k with
      | Some (e, w) =>
          if w <=? expired
          then live_expire_loop expired l'
                 (mkLive (aged_erase k (m_cache lc)) (hops_remove e (lhops lc)))
          else lc
      | None => lc
      end
  end.

Definition live_expire (now : Z) (lc : Livecache) : Livecache :=
  live_expire_loop (now - Tuning.liveCacheSecondsToLive) (chron (m_cache lc)) lc.

(** [hops.begin () .. hops.end ()] and [hops.rbegin () .. hops.rend ()]: the hop lists,
    by increasing and by decreasing hop count; and the write-back of the lists after
    a traversal in either direction. *)
Definition hops_fwd (lc : Livecache) : list (list IPEndpoint) := m_lists (lhops lc).
Definition hops_rev (lc : Livecache) : list (list IPEndpoint) := reverse (m_lists (lhops lc)).
Definition set_lists (ls : list (list IPEndpoint)) (lc : Livecache) : Livecache :=
  mkLive (m_cache lc) (mkHops ls (m_hist (lhops lc))).

(** ** Invariant *)

(** The hop lists and the histogram represent a table of elements: each element is
    keyed by its address and is exactly once in the list of its hop count. *)
Record hops_rep (m : gmap IPEndpoint Endpoint) (h : hops_t) : Prop := {
  hr_key : ∀ k e, m !! k = Some e → ep_address e = k ∧ 0 <= hops e < Z.of_nat n_hops;
  hr_len : length (m_lists h) = n_hops;
  hr_nodup : ∀ i l, m_lists h !! i = Some l → NoDup l;
  hr_lists : ∀ i l k, m_lists h !! i = Some l →
    k ∈ l ↔ ∃ e, m !! k = Some e ∧ hops e = Z.of_nat i;
  hr_hist : m_hist h = (fun l => i32 (Z.of_nat (length l))) <$> m_lists h
}.

Record live_wf (lc : Livecache) (t : Z) : Prop := {
  lw_cache : aged_wf (m_cache lc) t;
  lw_hops : hops_rep (values (m_cache lc)) (lhops lc)
}.

Lemma live_wf_init t : live_wf Livecache_init t.
Proof.
  split; [apply aged_wf_empty|]. unfold Livecache_init, hops_init.
  split; cbn [m_cache lhops m_lists m_hist].
  - intros k e. rewrite lookup_values. done.
  - apply length_replicate.
  - intros i l. rewrite lookup_replicate. intros [-> _]. constructor.
  - intros i l k. rewrite lookup_replicate. intros [-> _].
    split; [by intros ?%not_elem_of_nil|]. intros (e&He&_). by rewrite lookup_values in He.
  - done.
Qed.

Lemma live_wf_mono lc t t' : live_wf lc t → t <= t' → live_wf lc t'.
Proof. intros [] ?. split; [|done]. by eapply aged_wf_mono. Qed.

Lemma hops_rep_insert m h e :
  hops_rep m h → m !! ep_address e = None → 0 <= hops e < Z.of_nat n_hops →
  ∃ h', hops_insert e h = Ok h' ∧ hops_rep (<[ep_address e := e]> m) h'.
Proof.
  intros Hr Hn Hh. unfold hops_insert.
  assert ((0 <=? hops e) && (hops e <=? Tuning.maxHops + 1) = true) as ->.
  { change (Z.of_nat n_hops) with 8 in Hh. change (Tuning.maxHops + 1) with 7.
    rewrite andb_true_iff, !Z.leb_le. lia. }
  simpl. eexists. split; [done|]. set (i := Z.to_nat (hops e)).
  assert (∀ j l, m_lists h !! j = Some l → ep_address e ∉ l) as Hni.
  { intros j l Hl Hin. apply (hr_lists _ _ Hr _ _ _ Hl) in Hin as (?&?&_). congruence. }
  split; simpl.
  - intros k e'. rewrite lookup_insert. case_decide; [naive_solver|]. apply Hr.
  - rewrite length_alter. apply Hr.
  - intros j l. rewrite list_lookup_alter. case_decide; [|apply Hr].
    intros (l'&Hl&->)%fmap_Some. apply NoDup_cons. split; [by eapply Hni|by eapply Hr].
  - intros j l k. rewrite list_lookup_alter, lookup_insert.
    destruct (decide (ep_address e = k)) as [<-|Hk].
    + case_decide as Hij.
      * intros (l'&Hl&->)%fmap_Some. split; [|by left]. intros _. exists e.
        split; [done|]. subst. lia.
      * intros Hl. split; [intros []%(Hni _ _ Hl)|]. intros (?&[= <-]&Heq). lia.
    + case_decide.
      * intros (l'&Hl&->)%fmap_Some. rewrite elem_of_cons, (hr_lists _ _ Hr _ _ _ Hl).
        naive_solver.
      * intros Hl. apply (hr_lists _ _ Hr _ _ _ Hl).
  - rewrite (hr_hist _ _ Hr). symmetry. apply fmap_alter_at. intros l _.
    rewrite i32_add_l. f_equal. simpl. lia.
Qed.

Lemma hops_rep_remove m h k e :
  hops_rep m h → m !! k = Some e → hops_rep (delete k m) (hops_remove e h).
Proof.
  intros Hr Hk. destruct (hr_key _ _ Hr _ _ Hk) as [<- Hh].
  unfold hops_remove. set (i := Z.to_nat (hops e)).
  split; simpl.
  - intros k' e'. rewrite lookup_delete. case_decide; [done|]. apply Hr.
  - rewrite length_alter. apply Hr.
  - intros j l. rewrite list_lookup_alter. case_decide; [|apply Hr].
    intros (l'&Hl&->)%fmap_Some. by eapply NoDup_erase1, Hr.
  - intros j l k'. rewrite list_lookup_alter, lookup_delete.
    case_decide as Hij.
    + intros (l'&Hl&->)%fmap_Some. rewrite elem_of_erase1 by (by eapply Hr).
      rewrite (hr_lists _ _ Hr _ _ _ Hl). case_decide; naive_solver.
    + intros Hl. rewrite (hr_lists _ _ Hr _ _ _ Hl). case_decide; [|done]. subst k'.
      split; [|naive_solver]. intros (e'&He'&Heq). simplify_eq. lia.
  - rewrite (hr_hist _ _ Hr). symmetry. apply fmap_alter_at. intros l Hl.
    assert (ep_address e ∈ l) as Hin.
    { apply (hr_lists _ _ Hr _ _ _ Hl). exists e. split; [done|]. lia. }
    rewrite (length_erase1 _ _ Hin).
    replace (i32 (Z.of_nat (S (length (erase1 (ep_address e) l)))) - 1)
      with (i32 (Z.of_nat (S (length (erase1 (ep_address e) l)))) + -1) by lia.
    rewrite i32_add_l. f_equal. lia.
Qed.

(** A hop list may be replaced by any permutation of it. *)
Lemma hops_rep_perm m h ls :
  hops_rep m h → Forall2 (≡ₚ) ls (m_lists h) → hops_rep m (mkHops ls (m_hist h)).
Proof.
  intros Hr Hp. split; simpl.
  - apply Hr.
  - rewrite (Forall2_length _ _ _ Hp). apply Hr.
  - intros i l Hl. destruct (Forall2_lookup_l _ _ _ _ _ Hp Hl) as (l'&Hl'&Hpl).
    rewrite Hpl. by eapply Hr.
  - intros i l k Hl. destruct (Forall2_lookup_l _ _ _ _ _ Hp Hl) as (l'&Hl'&Hpl).
    rewrite Hpl. by apply (hr_lists _ _ Hr _ _ _ Hl').
  - rewrite (hr_hist _ _ Hr). apply list_eq_Forall2, Forall2_fmap.
    apply Forall2_flip. eapply Forall2_impl; [done|]. intros l l' Hl. simpl. by rewrite Hl.
Qed.

Lemma live_wf_set_lists lc t ls :
  live_wf lc t → Forall2 (≡ₚ) ls (m_lists (lhops lc)) → live_wf (set_lists ls lc) t.
Proof. intros [] ?. split; [done|]. by apply hops_rep_perm. Qed.

Lemma live_wf_shuffle `{RandomShuffle} seed lc t : live_wf lc t → live_wf (live_shuffle seed lc) t.
Proof.
  intros Hwf. apply live_wf_set_lists; [done|].
  apply Forall2_lookup. intros i. rewrite list_lookup_imap.
  destruct (m_lists (lhops lc) !! i); constructor. apply random_shuffle_perm.
Qed.

(** The element recorded for an address after a message at [hops ep]. *)
Definition merged (old : option Endpoint) (ep : Endpoint) : Endpoint :=
  match old with
  | Some e => if hops ep <? hops e then mkEndpoint (hops ep) (ep_address e) else e
  | None => ep
  end.

Lemma live_insert_ok ep now lc t :
  live_wf lc t → t <= now → 0 <= hops ep < Z.of_nat n_hops →
  ∃ lc', live_insert ep now lc = Ok lc' ∧ live_wf lc' now
    ∧ values (m_cache lc')
      = <[ep_address ep := merged (aged_find (m_cache lc) (ep_address ep)) ep]>
          (values (m_cache lc)).
Proof.
  intros [Hc Hh] Ht Hr. unfold live_insert. set (k := ep_address ep).
  assert (hops ep <=? Tuning.maxHops + 1 = true) as ->.
  { change (Z.of_nat n_hops) with 8 in Hr. change (Tuning.maxHops + 1) with 7.
    rewrite Z.leb_le. lia. }
  simpl. pose proof (aged_wf_emplace k ep now _ t Hc Ht) as Hwf.
  pose proof (emplace_fresh k ep now (m_cache lc)) as Hfr.
  pose proof (find_emplace k ep now (m_cache lc)) as Hfe.
  pose proof (values_emplace k ep now (m_cache lc)) as Hve.
  destruct (aged_emplace k ep now (m_cache lc)) as [cache ins] eqn:E. simpl in *.
  unfold endpoint_of. rewrite Hfe. simpl. destruct ins.
  - assert (aged_find (m_cache lc) k = None) as Hn by (by apply Hfr).
    rewrite Hn in *. simpl. specialize (Hve eq_refl).
    destruct (hops_rep_insert _ _ ep Hh) as (h'&->&Hh'); [by rewrite lookup_values|done|].
    simpl. eexists. split_and!; [done| |by simpl; rewrite Hve].
    split; simpl; [done|]. by rewrite Hve.
  - destruct (aged_find (m_cache lc) k) as [e|] eqn:He; [|naive_solver]. clear Hve Hfr.
    assert (cache = m_cache lc) as ->.
    { unfold aged_emplace in E. unfold aged_find in He.
      destruct (cont (m_cache lc) !! k); naive_solver. }
    simpl. rewrite <-lookup_values in He. destruct (hr_key _ _ Hh _ _ He) as [Hek Her].
    destruct (Z.ltb_spec (hops e) (hops ep)) as [Hlt|Hge].
    { eexists. split_and!; [done|by split|]. simpl.
      rewrite (proj2 (Z.ltb_ge _ _)) by lia. by rewrite insert_id. }
    assert (is_Some (cont (m_cache lc) !! k)) as Hk.
    { apply aged_find_cont. rewrite <-lookup_values, He. by eexists. }
    pose proof (aged_wf_touch k now _ t Hc Ht Hk) as Hwt.
    destruct (Z.ltb_spec (hops ep) (hops e)) as [Hlt'|Hge'].
    + unfold hops_reinsert. simpl.
      assert ((0 <=? hops ep) && (hops ep <=? Tuning.maxHops + 1) = true) as ->.
      { change (Z.of_nat n_hops) with 8 in Hr. change (Tuning.maxHops + 1) with 7.
        rewrite andb_true_iff, !Z.leb_le. lia. }
      simpl. rewrite Hek.
      destruct (hops_rep_insert (delete k (values (m_cache lc))) (hops_remove e (lhops lc))
        (mkEndpoint (hops ep) k)) as (h'&->&Hh').
      { by apply hops_rep_remove. } { simpl. apply lookup_delete_eq. } { done. }
      simpl in *. rewrite insert_delete_eq in Hh'.
      assert (values (aged_set_value k (mkEndpoint (hops ep) k) (aged_touch k now (m_cache lc)))
              = <[k := mkEndpoint (hops ep) k]> (values (m_cache lc))) as Hv.
      { rewrite values_set_value, values_touch; [done|].
        rewrite find_touch, <-lookup_values, He. by eexists. }
      eexists. split_and!; [done| |done]. split; simpl; [by apply aged_wf_set_value|].
      by rewrite Hv.
    + eexists. split_and!; [done| |].
      * split; [done|]. simpl. by rewrite values_touch.
      * simpl. rewrite values_touch, insert_id by done. done.
Qed.

(** A negative hop count never enters the cache: the bounds assertion fails. *)
Lemma live_insert_negative ep now lc t :
  live_wf lc t → hops ep < 0 → live_insert ep now lc = Err assert_failed.
Proof.
  intros [_ Hh] Hneg. unfold live_insert.
  rewrite (proj2 (Z.leb_le _ _)) by (unfold Tuning.maxHops; lia). simpl.
  pose proof (find_emplace (ep_address ep) ep now (m_cache lc)) as Hf.
  pose proof (emplace_fresh (ep_address ep) ep now (m_cache lc)) as Hfr.
  destruct (aged_emplace (ep_address ep) ep now (m_cache lc)) as [c ins]. simpl in *.
  unfold endpoint_of. rewrite Hf. simpl. destruct ins.
  - rewrite (proj1 Hfr) by done. simpl. unfold hops_insert.
    by rewrite (proj2 (Z.leb_gt _ _)) by lia.
  - destruct (aged_find (m_cache lc) (ep_address ep)) as [e|] eqn:He; [|naive_solver]. simpl.
    rewrite <-lookup_values in He. destruct (hr_key _ _ Hh _ _ He) as [_ ?].
    rewrite (proj2 (Z.ltb_ge _ _)) by lia. rewrite (proj2 (Z.ltb_lt _ _)) by lia.
    unfold hops_reinsert. by rewrite (proj2 (Z.leb_gt _ _)) by lia.
Qed.

Lemma live_expire_loop_cache expired l lc n :
  m_cache (live_expire_loop expired l lc) = (expire_loop expired l (m_cache lc) n).1.
Proof.
  revert lc n. induction l as [|k l IH]; intros lc n; simpl; [done|].
  unfold aged_when. destruct (cont (m_cache lc) !! k) as [[e w]|]; simpl; [|done].
  destruct (w <=? expired); [|done]. by rewrite (IH _ (S n)).
Qed.

Lemma live_expire_loop_hops expired l lc :
  hops_rep (values (m_cache lc)) (lhops lc) →
  hops_rep (values (m_cache (live_expire_loop expired l lc)))
           (lhops (live_expire_loop expired l lc)).
Proof.
  revert lc. induction l as [|k l IH]; intros lc Hh; simpl; [done|].
  destruct (cont (m_cache lc) !! k) as [[e w]|] eqn:E; [|done].
  destruct (w <=? expired); [|done]. apply IH. simpl. rewrite values_erase.
  apply hops_rep_remove; [done|]. rewrite lookup_values. unfold aged_find. by rewrite E.
Qed.

Lemma live_wf_expire now lc t : live_wf lc t → live_wf (live_expire now lc) t.
Proof.
  intros [Hc Hh]. unfold live_expire. split; [|by apply live_expire_loop_hops].
  rewrite (live_expire_loop_cache _ _ _ 0). by apply aged_wf_expire.
Qed.

Lemma cont_live_expire now lc t :
  live_wf lc t →
  cont (m_cache (live_expire now lc))
  = filter (fresher (now - Tuning.liveCacheSecondsToLive)) (cont (m_cache lc)).
Proof.
  intros [Hc _]. unfold live_expire. rewrite (live_expire_loop_cache _ _ _ 0).
  by apply (cont_expire Tuning.liveCacheSecondsToLive now _ t).
Qed.

#[export] Hint Resolve live_wf_init live_wf_shuffle live_wf_expire : finpal.

(** ** Properties *)

(** Inserting an endpoint in the live cache succeeds and keeps the cache and its hop
    lists consistent; the entry then has the smaller of the old and the new hop count
    and is in the list of that count, and other entries do not change. *)
Theorem live_insert_min_hops ep now lc t :
  live_wf lc t → t <= now → 0 <= hops ep <= Tuning.maxHops + 1 →
  ∃ lc' e, live_insert ep now lc = Ok lc' ∧ live_wf lc' now
    ∧ aged_find (m_cache lc') (ep_address ep) = Some e ∧ ep_address e = ep_address ep
    ∧ hops e = (match aged_find (m_cache lc) (ep_address ep) with
                | Some old => Z.min (hops old) (hops ep)
                | None => hops ep end)
    ∧ (∃ l, m_lists (lhops lc') !! Z.to_nat (hops e) = Some l ∧ ep_address ep ∈ l)
    ∧ (∀ k, k ≠ ep_address ep → aged_find (m_cache lc') k = aged_find (m_cache lc) k).
Proof.
  intros Hwf Ht Hr. change (Tuning.maxHops + 1) with 7 in Hr.
  destruct (live_insert_ok ep now lc t Hwf Ht) as (lc'&Hi&Hwf'&Hv).
  { change (Z.of_nat n_hops) with 8. lia. }
  set (e := merged _ _) in Hv. exists lc', e.
  assert (aged_find (m_cache lc') (ep_address ep) = Some e) as He.
  { by rewrite <-lookup_values, Hv, lookup_insert_eq. }
  destruct Hwf' as [Hc' Hh'].
  destruct (hr_key _ _ Hh' (ep_address ep) e) as [Hek Her]; [by rewrite lookup_values|].
  split_and!; [done|by split|done|done| | |].
  - subst e. unfold merged. destruct (aged_find (m_cache lc) (ep_address ep)) as [old|]; [|done].
    destruct (Z.ltb_spec (hops ep) (hops old)); simpl; lia.
  - destruct (lookup_lt_is_Some_2 (m_lists (lhops lc')) (Z.to_nat (hops e))) as [l Hl].
    { rewrite (hr_len _ _ Hh'). lia. }
    exists l. split; [done|]. apply (hr_lists _ _ Hh' _ _ _ Hl).
    exists e. rewrite lookup_values. split; [done|]. lia.
  - intros k Hk. by rewrite <-!lookup_values, Hv, lookup_insert_ne.
Qed.

Lemma live_insert_min_hops_witness :
  ∃ lc', live_insert (mkEndpoint 1 ep_default) 5 Livecache_init = Ok lc' ∧ live_wf lc' 5.
Proof.
  destruct (live_insert_min_hops (mkEndpoint 1 ep_default) 5 Livecache_init 0)
    as (lc'&?&?&?&_); [apply live_wf_init|lia|simpl; unfold Tuning.maxHops; lia|].
  by exists lc'.
Defined.

(** Expiring the live cache removes exactly the entries not refreshed for 30 seconds and
    keeps the hop lists consistent. *)
Theorem live_expire_exact now lc t :
  live_wf lc t →
  live_wf (live_expire now lc) t
  ∧ ∀ k e w, cont (m_cache (live_expire now lc)) !! k = Some (e, w)
             ↔ cont (m_cache lc) !! k = Some (e, w) ∧ now - seconds 30 < w.
Proof.
  intros Hwf. split; [by apply live_wf_expire|]. intros k e w.
  rewrite (cont_live_expire _ _ _ Hwf), map_lookup_filter_Some. done.
Qed.

Lemma live_expire_exact_witness : live_wf (live_expire 100 Livecache_init) 5.
Proof. apply (live_expire_exact 100 Livecache_init 5). apply live_wf_init. Defined.
