(* ===== verification/Handouts.v ===== *)
(** * Handing out endpoints (Handouts.h)

    [handout] distributes the elements of a sequence of containers over a range of
    targets.  It is a template over the target; the model is a section over the class
    [Target], and its theorems are proved from the laws [TargetLaws], which the three
    targets of the sources ([RedirectHandouts], [SlotHandouts], [ConnectHandouts])
    discharge.

    A target may change state it shares with others: the recent table of its slot, or
    the squelch list.  That state is threaded explicitly. *)

From S2P Require Import Prelude IPAddr Aged Slot.

Local Open Scope Z_scope.

Class Target (S T : Type) := {
  t_full : T → bool;
  (** [try_insert now e s t]: whether [e] was inserted, the shared state and the target. *)
  t_try_insert : Z → Endpoint → S → T → res (bool * S * T)
}.

Section handout.
Context {S T R : Type} `{!Target S T}.
Context (now : Z) (dr : R → res Endpoint).   (* follows an iterator to its endpoint *)

(** [Hop::move_back]: the element [x] between [pre] and [post] goes to the end. *)
Definition move_back (pre : list R) (x : R) (post : list R) : list R := pre ++ post ++ [x].

(** The loop of [handout_one]: [pre] holds the elements already refused. *)
Fixpoint handout_one_loop (s : S) (t : T) (pre rest : list R)
  : res (nat * S * T * list R) :=
  match rest with
  | [] => Ok (0%nat, s, t, pre)
  | x :: rest' =>
      e ← dr x;
      '(inserted, s', t') ← t_try_insert now e s t;
      if (inserted : bool) then Ok (1%nat, s', t', move_back pre x rest')
      else handout_one_loop s' t' (pre ++ [x]) rest'
  end.

Definition handout_one (s : S) (t : T) (h : list R) : res (nat * S * T * list R) :=
  assert_ (negb (t_full t));;
  handout_one_loop s t [] h.

(** The loop over the targets for one container: the number of insertions, whether
    every target was full, and the new state. *)
Fixpoint hop_targets (s : S) (ts : list T) (c : list R)
  : res (nat * bool * S * list T * list R) :=
  match ts with
  | [] => Ok (0%nat, true, s, [], c)
  | t :: ts' =>
      if t_full t then
        '(n, all_full, s1, ts1, c1) ← hop_targets s ts' c;
        Ok (n, all_full, s1, t :: ts1, c1)
      else
        '(n1, s1, t1, c1) ← handout_one s t c;
        '(n2, _, s2, ts2, c2) ← hop_targets s1 ts' c1;
        Ok ((n1 + n2)%nat, false, s2, t1 :: ts2, c2)
  end.

(** The loop over the containers; [true] when it returns because all targets are full. *)
Fixpoint handout_round (s : S) (ts : list T) (seq : list (list R))
  : res (nat * bool * S * list T * list (list R)) :=
  match seq with
  | [] => Ok (0%nat, false, s, ts, [])
  | c :: seq' =>
      '(n1, all_full, s1, ts1, c1) ← hop_targets s ts c;
      if (all_full : bool) then Ok (n1, true, s1, ts1, c1 :: seq')
      else
        '(n2, done_, s2, ts2, seq2) ← handout_round s1 ts1 seq';
        Ok ((n1 + n2)%nat, done_, s2, ts2, c1 :: seq2)
  end.

(** The outer loop, at most [fuel] rounds. *)
Fixpoint handout (fuel : nat) (s : S) (ts : list T) (seq : list (list R))
  : res (S * list T * list (list R)) :=
  match fuel with
  | O => Err out_of_fuel
  | Datatypes.S fuel' =>
      '(n, returned, s1, ts1, seq1) ← handout_round s ts seq;
      if (returned : bool) then Ok (s1, ts1, seq1)
      else if (n =? 0)%nat then Ok (s1, ts1, seq1)
      else handout fuel' s1 ts1 seq1
  end.
End handout.

(** ** The laws of a target

    [P] holds of the endpoints on offer, [I] is the invariant of the shared state, [J] relates a target to it, [room] bounds
    the number of insertions a target still takes, [ext] relates a target to a later
    version of itself. *)
Class TargetLaws (S T : Type) `{!Target S T}
    (now : Z) (P : Endpoint → Prop) (I : S → Prop) (J : S → T → Prop)
    (room : T → nat) (ext : relation T) := {
  ext_preorder :: PreOrder ext;
  ext_full : ∀ t t', ext t t' → t_full t = true → t_full t' = true;
  try_insert_ok : ∀ e s t, P e → I s → J s t → ∃ b s' t',
    t_try_insert now e s t = Ok (b, s', t')
    ∧ I s' ∧ J s' t' ∧ (∀ t0, J s t0 → J s' t0) ∧ ext t t'
    ∧ (if b : bool then (room t' < room t)%nat else s' = s ∧ t' = t)
}.

Section handout_lemmas.
Context {S T R : Type} `{!Target S T} (now : Z) (dr : R → res Endpoint).
Context (P : Endpoint → Prop) (I : S → Prop) (J : S → T → Prop).
Context (room : T → nat) (ext : relation T) `{!TargetLaws S T now P I J room ext}.
Implicit Types (s : S) (t : T) (ts : list T) (l : list R) (seq : list (list R)).

Definition total_room ts : nat := sum_list (room <$> ts).

Lemma total_room_cons t ts : total_room (t :: ts) = (room t + total_room ts)%nat.
Proof. done. Qed.

(** The target takes no element of [l] in the shared state [s]. *)
Definition refuses s t l : Prop :=
  ∀ x e, x ∈ l → dr x = Ok e → t_try_insert now e s t = Ok (false, s, t).

Definition readable l : Prop := ∀ x, x ∈ l → ∃ e, dr x = Ok e ∧ P e.

Lemma handout_one_loop_ok s t pre rest :
  I s → J s t → readable rest →
  ∃ n s' t' l', handout_one_loop now dr s t pre rest = Ok (n, s', t', l')
    ∧ I s' ∧ J s' t' ∧ (∀ t0, J s t0 → J s' t0) ∧ ext t t' ∧ l' ≡ₚ pre ++ rest
    ∧ ((n = 1 ∧ room t' < room t)%nat
       ∨ (n = 0%nat ∧ s' = s ∧ t' = t ∧ l' = pre ++ rest ∧ refuses s t rest)).
Proof.
  revert pre. induction rest as [|x rest IH]; intros pre HI HJ Hr; simpl.
  { exists 0%nat, s, t, pre. rewrite app_nil_r. split_and!; [done..|].
    right. split_and!; [done..|]. by intros x e ?%not_elem_of_nil. }
  destruct (Hr x) as (e&He&HP); [by left|]. rewrite He. simpl.
  destruct (try_insert_ok (P := P) (I := I) (J := J) (room := room) (ext := ext) e s t HP HI HJ)
    as (b&s1&t1&Heq&HI1&HJ1&Hfr&Hext&Hb). rewrite Heq. simpl. destruct b.
  { exists 1%nat, s1, t1, (pre ++ rest ++ [x]). split_and!; [done..| |by left].
    apply Permutation_app_head. by rewrite Permutation_app_comm. }
  destruct Hb as [-> ->].
  destruct (IH (pre ++ [x])) as (n&s'&t'&l'&->&?&?&?&?&Hp&Hn); [done..| |].
  { intros y Hy. apply Hr. by right. }
  exists n, s', t', l'. rewrite <-app_assoc in *. simpl in *.
  split_and!; [done..|]. destruct Hn as [?|(?&->&->&?&Hrej)]; [by left|right].
  split_and!; [done..|]. intros y e' Hy He'. apply elem_of_cons in Hy as [->|Hy]; [|by eauto].
  rewrite He in He'. by injection He' as <-.
Qed.

Lemma handout_one_ok s t l :
  I s → J s t → readable l → t_full t = false →
  ∃ n s' t' l', handout_one now dr s t l = Ok (n, s', t', l')
    ∧ I s' ∧ J s' t' ∧ (∀ t0, J s t0 → J s' t0) ∧ ext t t' ∧ l' ≡ₚ l
    ∧ ((n = 1 ∧ room t' < room t)%nat
       ∨ (n = 0%nat ∧ s' = s ∧ t' = t ∧ l' = l ∧ refuses s t l)).
Proof.
  intros HI HJ Hr Hf. unfold handout_one. rewrite Hf. simpl.
  by apply (handout_one_loop_ok s t [] l).
Qed.

Lemma readable_perm l l' : l' ≡ₚ l → readable l → readable l'.
Proof. intros Hp Hr x. rewrite Hp. apply Hr. Qed.

Lemma hop_targets_ok s ts l :
  I s → Forall (J s) ts → readable l →
  ∃ n af s' ts' l', hop_targets now dr s ts l = Ok (n, af, s', ts', l')
    ∧ I s' ∧ Forall (J s') ts' ∧ (∀ t0, J s t0 → J s' t0) ∧ Forall2 ext ts ts' ∧ l' ≡ₚ l
    ∧ (n + total_room ts' ≤ total_room ts)%nat
    ∧ (af = true → Forall (fun t => t_full t = true) ts')
    ∧ (n = 0%nat → s' = s ∧ ts' = ts ∧ l' = l
         ∧ Forall (fun t => t_full t = true ∨ refuses s t l) ts).
Proof.
  revert s l. induction ts as [|t ts IH]; intros s l HI HJ Hr; simpl.
  { exists 0%nat, true, s, [], l. split_and!; auto. }
  apply Forall_cons in HJ as [HJt HJ]. destruct (t_full t) eqn:Hf.
  - destruct (IH s l HI HJ Hr) as (n&af&s'&ts'&l'&->&HI'&HJ'&Hfr&Hext&Hp&Hroom&Haf&Hn).
    simpl. exists n, af, s', (t :: ts'), l'. split_and!; auto.
    + constructor; [reflexivity|done].
    + rewrite !total_room_cons. lia.
    + intros (?&->&?&?)%Hn. split_and!; auto.
  - destruct (handout_one_ok s t l HI HJt Hr Hf)
      as (n1&s1&t1&l1&->&HI1&HJ1&Hfr1&Hext1&Hp1&Hn1). simpl.
    destruct (IH s1 l1 HI1) as (n&af&s'&ts'&l'&->&HI'&HJ'&Hfr&Hext&Hp&Hroom&_&Hn).
    { eapply Forall_impl; [done|]. auto. }
    { by eapply readable_perm. }
    simpl. exists (n1 + n)%nat, false, s', (t1 :: ts'), l'. split_and!; auto.
    + by rewrite Hp.
    + rewrite !total_room_cons. destruct Hn1 as [[-> ?]|(->&_&->&_)]; lia.
    + done.
    + intros Hz. destruct Hn1 as [[-> ?]|(->&->&->&->&Href)]; [lia|].
      destruct Hn as (->&->&->&?); [lia|]. split_and!; auto.
Qed.

Lemma handout_round_ok s ts seq :
  I s → Forall (J s) ts → Forall readable seq →
  ∃ n ret s' ts' seq', handout_round now dr s ts seq = Ok (n, ret, s', ts', seq')
    ∧ I s' ∧ Forall (J s') ts' ∧ (∀ t0, J s t0 → J s' t0) ∧ Forall2 ext ts ts'
    ∧ Forall2 (≡ₚ) seq' seq
    ∧ (n + total_room ts' ≤ total_room ts)%nat
    ∧ (ret = true → Forall (fun t => t_full t = true) ts')
    ∧ (n = 0%nat → s' = s)
    ∧ (n = 0%nat → ret = false → ts' = ts ∧ seq' = seq
         ∧ Forall (fun t => t_full t = true ∨ Forall (refuses s t) seq) ts).
Proof.
  revert s ts. induction seq as [|l seq IH]; intros s ts HI HJ Hr; simpl.
  { exists 0%nat, false, s, ts, []. split_and!; auto.
    - reflexivity.
    - discriminate.
    - intros _ _. split_and!; [done..|]. apply Forall_forall. auto. }
  apply Forall_cons in Hr as [Hrl Hr].
  destruct (hop_targets_ok s ts l HI HJ Hrl)
    as (n1&af&s1&ts1&l1&->&HI1&HJ1&Hfr1&Hext1&Hp1&Hroom1&Haf&Hn1). simpl. destruct af.
  { exists n1, true, s1, ts1, (l1 :: seq). split_and!; auto.
    - constructor; [done|reflexivity].
    - intros Hz. by destruct Hn1.
    - intros _ ?. done. }
  destruct (IH s1 ts1 HI1 HJ1 Hr)
    as (n&ret&s'&ts'&seq'&->&HI'&HJ'&Hfr&Hext&Hp&Hroom&Hret&Hsame&Hn). simpl.
  exists (n1 + n)%nat, ret, s', ts', (l1 :: seq'). split_and!; auto.
  - by etrans.
  - lia.
  - intros Hz. rewrite Hsame by lia. by destruct Hn1 as [-> _]; [lia|].
  - intros Hz Hrf. destruct Hn1 as (->&->&->&Href); [lia|].
    destruct Hn as (->&->&Href'); [lia|done|]. split_and!; [done..|].
    apply Forall_forall. intros t Ht. rewrite Forall_forall in Href, Href'.
    destruct (Href t Ht); [by left|]. destruct (Href' t Ht); [by left|]. right. by constructor.
Qed.

(** With fuel for one round more than the room left, [handout] returns; at the end
    every target is full or refuses every element that was offered. *)
Lemma handout_ok fuel s ts seq :
  I s → Forall (J s) ts → Forall readable seq → (total_room ts < fuel)%nat →
  ∃ s' ts' seq', handout now dr fuel s ts seq = Ok (s', ts', seq')
    ∧ I s' ∧ Forall (J s') ts' ∧ (∀ t0, J s t0 → J s' t0) ∧ Forall2 ext ts ts'
    ∧ Forall2 (≡ₚ) seq' seq
    ∧ (total_room ts' ≤ total_room ts)%nat
    ∧ (total_room ts' = total_room ts → s' = s)
    ∧ Forall (fun t => t_full t = true ∨ Forall (refuses s' t) seq') ts'.
Proof.
  revert s ts seq. induction fuel as [|fuel IH]; intros s ts seq HI HJ Hr Hf; [lia|]. simpl.
  destruct (handout_round_ok s ts seq HI HJ Hr)
    as (n&ret&s1&ts1&seq1&->&HI1&HJ1&Hfr1&Hext1&Hp1&Hroom1&Hret&Hsame&Hn). simpl. destruct ret.
  { exists s1, ts1, seq1. split_and!; auto; [lia|intros; apply Hsame; lia|].
    eapply Forall_impl; [by apply Hret|]. auto. }
  destruct (Nat.eqb_spec n 0) as [Hz|Hz].
  { exists s1, ts1, seq1. split_and!; auto; [lia|]. rewrite Hsame by done.
    by destruct Hn as (->&->&?). }
  destruct (IH s1 ts1 seq1) as (s'&ts'&seq'&->&?&?&?&?&?&?&?&?); auto.
  { apply Forall_forall. intros l Hl.
    apply list_elem_of_lookup in Hl as [i Hl].
    destruct (Forall2_lookup_l _ _ _ _ _ Hp1 Hl) as (l0&Hl0&Hp).
    eapply readable_perm; [done|]. by eapply Forall_lookup_1 in Hr. }
  { lia. }
  exists s', ts', seq'. split_and!; auto; [by etrans..|lia|lia].
Qed.
End handout_lemmas.

(** ** The heap of slots

    Slots are shared through [std::shared_ptr]; a pointer is a key of the heap. *)

Abbreviation slot_ptr := positive.
Abbreviation heap := (gmap slot_ptr SlotImp).

(** The addresses of a list of endpoints, without their ports. *)
Definition addresses (l : list Endpoint) : list AddressV4 := (fun e => address (ep_address e)) <$> l.

(** [std::any_of] over the list: is the address, whatever the port, already there? *)
Definition has_address (a : AddressV4) (l : list Endpoint) : bool :=
  existsb (fun other => v4_eqb (address (ep_address other)) a) l.

Lemma has_address_false a l : has_address a l = false ↔ a ∉ addresses l.
Proof.
  unfold has_address, addresses. rewrite <-not_true_iff_false, existsb_exists.
  rewrite list_elem_of_fmap. setoid_rewrite v4_eqb_eq. setoid_rewrite <-list_elem_of_In.
  naive_solver.
Qed.

(** ** RedirectHandouts *)

Record RedirectHandouts := mkRedirect { r_slot : slot_ptr; r_list : list Endpoint }.

Definition redirect_full (t : RedirectHandouts) : bool :=
  Tuning.redirectEndpointCount <=? Z.of_nat (length (r_list t)).

Definition redirect_try_insert (now : Z) (ep : Endpoint) (h : heap) (t : RedirectHandouts)
  : res (bool * heap * RedirectHandouts) :=
  if redirect_full t then Ok (false, h, t)
  else if Tuning.maxHops <? hops ep then Ok (false, h, t)
  else if hops ep =? 0 then Ok (false, h, t)
  else
    slot ← deref (h !! r_slot t);
    if v4_eqb (address (m_remote_endpoint slot)) (address (ep_address ep))
    then Ok (false, h, t)
    else if has_address (address (ep_address ep)) (r_list t) then Ok (false, h, t)
    else Ok (true, h, mkRedirect (r_slot t) (r_list t ++ [mkEndpoint (hops ep) (ep_address ep)])).

#[global] Instance redirect_target : Target heap RedirectHandouts :=
  {| t_full := redirect_full; t_try_insert := redirect_try_insert |}.

(** ** SlotHandouts *)

Record SlotHandouts := mkSlotHandouts { s_slot : slot_ptr; s_list : list Endpoint }.

Definition slot_full (t : SlotHandouts) : bool :=
  Tuning.numberOfEndpoints <=? Z.of_nat (length (s_list t)).

(** [SlotHandouts::insert] *)
Definition slot_insert (ep : Endpoint) (t : SlotHandouts) : SlotHandouts :=
  mkSlotHandouts (s_slot t) (s_list t ++ [ep]).

Definition slot_try_insert (now : Z) (ep : Endpoint) (h : heap) (t : SlotHandouts)
  : res (bool * heap * SlotHandouts) :=
  if slot_full t then Ok (false, h, t)
  else if Tuning.maxHops <? hops ep then Ok (false, h, t)
  else
    slot ← deref (h !! s_slot t);
    if recent_filter (ep_address ep) (hops ep) (recent slot) then Ok (false, h, t)
    else if v4_eqb (address (m_remote_endpoint slot)) (address (ep_address ep))
    then Ok (false, h, t)
    else if has_address (address (ep_address ep)) (s_list t) then Ok (false, h, t)
    else
      let slot' := set_recent (recent_insert (ep_address ep) (hops ep) now (recent slot)) slot in
      Ok (true, <[s_slot t := slot']> h,
          mkSlotHandouts (s_slot t) (s_list t ++ [mkEndpoint (hops ep) (ep_address ep)])).

#[global] Instance slot_target : Target heap SlotHandouts :=
  {| t_full := slot_full; t_try_insert := slot_try_insert |}.

(** ** ConnectHandouts *)

Abbreviation Squelches := (aged AddressV4 unit).

Record ConnectHandouts := mkConnect { m_needed : Z; c_list : list IPEndpoint }.

Definition connect_full (t : ConnectHandouts) : bool :=
  m_needed t <=? Z.of_nat (length (c_list t)).

(** [try_insert (beast::IP::Endpoint)] *)
Definition connect_try_insert_ip (now : Z) (endpoint : IPEndpoint) (sq : Squelches)
    (t : ConnectHandouts) : bool * Squelches * ConnectHandouts :=
  if connect_full t then (false, sq, t)
  else if existsb (fun other => v4_eqb (address other) (address endpoint)) (c_list t)
  then (false, sq, t)
  else
    let '(sq', inserted) := aged_emplace (address endpoint) tt now sq in
    if inserted then (true, sq', mkConnect (m_needed t) (c_list t ++ [endpoint]))
    else (false, sq', t).

Definition connect_try_insert (now : Z) (ep : Endpoint) (sq : Squelches) (t : ConnectHandouts)
  : res (bool * Squelches * ConnectHandouts) :=
  Ok (connect_try_insert_ip now (ep_address ep) sq t).

#[global] Instance connect_target : Target Squelches ConnectHandouts :=
  {| t_full := connect_full; t_try_insert := connect_try_insert |}.

(** ** The laws of the three targets *)

(** Every recent table of the heap is well formed. *)
Definition heap_wf (now : Z) (h : heap) : Prop :=
  ∀ p s, h !! p = Some s → aged_wf (recent s) now.

(** The slot knows what it knew in [h0]. *)
Definition recents_grow (h0 h : heap) : Prop :=
  ∀ p s0 s ep n, h0 !! p = Some s0 → h !! p = Some s →
    recent_filter ep n (recent s0) = true → recent_filter ep n (recent s) = true.

(** ... and the heap has the slots of [h0], up to volatile fields; recent tables grow. *)
Definition heap_from (h0 : heap) (now : Z) (h : heap) : Prop :=
  heap_wf now h ∧ core <$> h = core <$> h0 ∧ recents_grow h0 h.

Definition redirect_ok (P : Endpoint → Prop) (h : heap) (t : RedirectHandouts) : Prop :=
  ∃ slot, h !! r_slot t = Some slot
    ∧ (length (r_list t) ≤ Z.to_nat Tuning.redirectEndpointCount)%nat
    ∧ NoDup (addresses (r_list t))
    ∧ Forall (fun e => P e ∧ hops e ≠ 0 ∧ hops e <= Tuning.maxHops
                ∧ address (ep_address e) ≠ address (m_remote_endpoint slot)) (r_list t).

Definition redirect_room (t : RedirectHandouts) : nat :=
  Z.to_nat Tuning.redirectEndpointCount - length (r_list t).

Definition redirect_ext (t t' : RedirectHandouts) : Prop :=
  r_slot t' = r_slot t ∧ prefix (r_list t) (r_list t').

(** [h0] is the heap before the handout: what is handed out, our own entry apart, was
    not known to the peer then, and is recorded as known from then on. *)
Definition slot_ok (P : Endpoint → Prop) (h0 h : heap) (t : SlotHandouts) : Prop :=
  ∃ slot0 slot, h0 !! s_slot t = Some slot0 ∧ h !! s_slot t = Some slot
    ∧ (length (s_list t) ≤ Z.to_nat Tuning.numberOfEndpoints)%nat
    ∧ NoDup (addresses (s_list t))
    ∧ Forall (fun e => hops e <= Tuning.maxHops
                ∧ (hops e ≠ 0 → P e ∧
                   address (ep_address e) ≠ address (m_remote_endpoint slot)
                   ∧ recent_filter (ep_address e) (hops e) (recent slot0) = false
                   ∧ recent_filter (ep_address e) (hops e) (recent slot) = true)) (s_list t).

Definition slot_room (t : SlotHandouts) : nat :=
  Z.to_nat Tuning.numberOfEndpoints - length (s_list t).

Definition slot_ext (t t' : SlotHandouts) : Prop :=
  s_slot t' = s_slot t ∧ prefix (s_list t) (s_list t').

(** [sq0] is the squelch list before the attempt: an address is handed out only if it
    was not in it, and is in the squelch list from then on. *)
Definition connect_ok (P : IPEndpoint → Prop) (sq0 sq : Squelches) (t : ConnectHandouts)
  : Prop :=
  NoDup (address <$> c_list t)
  ∧ (∀ e, e ∈ c_list t →
       P e ∧ aged_find sq0 (address e) = None ∧ is_Some (aged_find sq (address e)))
  ∧ (∀ a, is_Some (aged_find sq0 a) → is_Some (aged_find sq a))
  ∧ Z.of_nat (length (c_list t)) <= Z.max 0 (m_needed t).

Definition connect_room (t : ConnectHandouts) : nat :=
  Z.to_nat (m_needed t) - length (c_list t).

Definition connect_ext (t t' : ConnectHandouts) : Prop :=
  m_needed t' = m_needed t ∧ prefix (c_list t) (c_list t').

#[global] Instance redirect_ext_preorder : PreOrder redirect_ext.
Proof. split; [by intros []|]. intros x y z [E1 ?] [E2 ?]. split; [by rewrite E2|by etrans]. Qed.
#[global] Instance slot_ext_preorder : PreOrder slot_ext.
Proof. split; [by intros []|]. intros x y z [E1 ?] [E2 ?]. split; [by rewrite E2|by etrans]. Qed.
#[global] Instance connect_ext_preorder : PreOrder connect_ext.
Proof. split; [by intros []|]. intros x y z [E1 ?] [E2 ?]. split; [by rewrite E2|by etrans]. Qed.

Lemma NoDup_snoc {A} (l : list A) x : NoDup l → x ∉ l → NoDup (l ++ [x]).
Proof.
  intros Hl Hx. apply NoDup_app. split_and!; [done| |apply NoDup_singleton].
  by intros y Hy ->%list_elem_of_singleton.
Qed.

#[global] Instance redirect_laws P h0 now :
  TargetLaws heap RedirectHandouts now P (fun h => h = h0) (redirect_ok P)
    redirect_room redirect_ext.
Proof.
  split; [apply _| |].
  - intros t t' [_ Hp%prefix_length]. simpl. unfold redirect_full. rewrite !Z.leb_le. lia.
  - intros e h t HP -> (slot&Hs&Hl&Hnd&Hf). simpl. unfold redirect_try_insert.
    assert (mkEndpoint (hops e) (ep_address e) = e) as -> by (by destruct e).
    assert (∃ b s' t', Ok (false, h0, t) = Ok (b, s', t') ∧ s' = h0 ∧ redirect_ok P s' t'
      ∧ (∀ t0, redirect_ok P h0 t0 → redirect_ok P s' t0) ∧ redirect_ext t t'
      ∧ (if b : bool then (redirect_room t' < redirect_room t)%nat else s' = h0 ∧ t' = t)) as Hno.
    { exists false, h0, t. split_and!; try done. by exists slot. }
    destruct (redirect_full t) eqn:Hfu; [done|].
    destruct (Z.ltb_spec Tuning.maxHops (hops e)); [done|].
    destruct (Z.eqb_spec (hops e) 0); [done|]. rewrite Hs. simpl.
    destruct (v4_eqb _ _) eqn:Ha; [done|].
    destruct (has_address _ _) eqn:Hh; [done|]. apply has_address_false in Hh. clear Hno.
    assert (length (r_list t) < Z.to_nat Tuning.redirectEndpointCount)%nat as Hlt.
    { unfold redirect_full in Hfu. apply Z.leb_gt in Hfu. lia. }
    do 3 eexists. split_and!; [done|done| |done| |].
    + exists slot. simpl. split_and!; [done| | |].
      * rewrite length_app. simpl. lia.
      * unfold addresses in *. rewrite fmap_app. by apply NoDup_snoc.
      * apply Forall_app. split; [done|]. apply Forall_singleton. simpl. split_and!; [done..|].
        intros He. rewrite He in Ha. apply not_true_iff_false in Ha. apply Ha. by apply v4_eqb_eq.
    + split; [done|]. simpl. by eexists.
    + unfold redirect_room. simpl. rewrite length_app. simpl. lia.
Qed.

(** A recent table only gains entries. *)
Lemma slot_ok_recent P h0 h p slot ep hp now t0 :
  h !! p = Some slot → slot_ok P h0 h t0 →
  slot_ok P h0 (<[p := set_recent (recent_insert ep hp now (recent slot)) slot]> h) t0.
Proof.
  intros Hs (slot0&slot1&Hs0&Hs1&Hl&Hnd&Hf). unfold slot_ok. rewrite lookup_insert.
  exists slot0. case_decide as Hp; [|by exists slot1].
  subst. rewrite Hs in Hs1. injection Hs1 as <-. eexists. split_and!; [done..|].
  eapply Forall_impl; [done|]. simpl. intros e [? He]. split; [done|]. intros ?.
  destruct He as (?&?&?&He); [done|]. destruct slot; simpl in *. split_and!; [done..|].
  apply recent_filter_insert. by left.
Qed.

Lemma heap_from_recent h0 now h p slot ep hp :
  heap_from h0 now h → h !! p = Some slot →
  heap_from h0 now (<[p := set_recent (recent_insert ep hp now (recent slot)) slot]> h).
Proof.
  intros (Hwf&Hc&Hg) Hs. split_and!.
  - intros q s. rewrite lookup_insert. case_decide; [|by apply Hwf].
    intros [= <-]. pose proof (Hwf _ _ Hs). destruct slot; simpl in *.
    by eapply aged_wf_recent_insert.
  - rewrite fmap_insert, <-Hc. apply insert_id. rewrite lookup_fmap, Hs. simpl.
    by rewrite core_set_recent.
  - intros q s0 s e n Hs0. rewrite lookup_insert_Some.
    intros [[<- <-]|[_ Hq]] Hf; [|by eapply Hg].
    pose proof (Hg _ _ _ _ _ Hs0 Hs Hf) as Hk. destruct slot; simpl in *.
    apply recent_filter_insert. by left.
Qed.

#[global] Instance slot_laws P h0 now :
  TargetLaws heap SlotHandouts now P (heap_from h0 now) (slot_ok P h0) slot_room slot_ext.
Proof.
  split; [apply _| |].
  - intros t t' [_ Hp%prefix_length]. simpl. unfold slot_full. rewrite !Z.leb_le. lia.
  - intros e h t HP HI HJ. pose proof HJ as (slot0&slot&Hs0&Hs&Hl&Hnd&Hf). simpl.
    unfold slot_try_insert.
    assert (mkEndpoint (hops e) (ep_address e) = e) as -> by (by destruct e).
    assert (∃ b s' t', Ok (false, h, t) = Ok (b, s', t') ∧ heap_from h0 now s' ∧ slot_ok P h0 s' t'
      ∧ (∀ t0, slot_ok P h0 h t0 → slot_ok P h0 s' t0) ∧ slot_ext t t'
      ∧ (if b : bool then (slot_room t' < slot_room t)%nat else s' = h ∧ t' = t)) as Hno.
    { exists false, h, t. by split_and!. }
    destruct (slot_full t) eqn:Hfu; [done|].
    destruct (Z.ltb_spec Tuning.maxHops (hops e)); [done|]. rewrite Hs. simpl.
    destruct (recent_filter _ _ _) eqn:Hrf; [done|].
    destruct (v4_eqb _ _) eqn:Ha; [done|].
    destruct (has_address _ _) eqn:Hh; [done|]. apply has_address_false in Hh. clear Hno.
    assert (length (s_list t) < Z.to_nat Tuning.numberOfEndpoints)%nat as Hlt.
    { unfold slot_full in Hfu. apply Z.leb_gt in Hfu. lia. }
    pose proof (slot_ok_recent P h0 h _ slot (ep_address e) (hops e) now t Hs HJ)
      as (slot0'&slot1&Hs0'&Hs1&_&_&Hf1).
    rewrite Hs0 in Hs0'. injection Hs0' as <-.
    assert (recent_filter (ep_address e) (hops e) (recent slot0) = false) as Hnew.
    { apply not_true_iff_false. intros Hk. destruct HI as (_&_&Hg).
      apply (Hg _ _ _ _ _ Hs0 Hs) in Hk. congruence. }
    do 3 eexists. split_and!; [done| | |by intros; apply slot_ok_recent| |].
    + by apply heap_from_recent.
    + exists slot0, slot1. simpl. split_and!; [done|done| | |].
      * rewrite length_app. simpl. lia.
      * unfold addresses in *. rewrite fmap_app. by apply NoDup_snoc.
      * apply Forall_app. split; [done|]. apply Forall_singleton. simpl. split; [done|].
        intros _. rewrite lookup_insert_eq in Hs1. injection Hs1 as <-.
        destruct slot; simpl in *. split_and!; [done| |done|].
        -- intros He. rewrite He in Ha. apply not_true_iff_false in Ha. apply Ha. by apply v4_eqb_eq.
        -- apply recent_filter_insert. right. split; [done|lia].
    + split; [done|]. simpl. by eexists.
    + unfold slot_room. simpl. rewrite length_app. simpl. lia.
Qed.

Lemma connect_try_insert_ok P sq0 now endpoint sq t :
  P endpoint → aged_wf sq now → connect_ok P sq0 sq t →
  let '(b, sq', t') := connect_try_insert_ip now endpoint sq t in
  aged_wf sq' now ∧ connect_ok P sq0 sq' t'
  ∧ (∀ a, is_Some (aged_find sq a) → is_Some (aged_find sq' a)) ∧ connect_ext t t'
  ∧ (if b : bool then (connect_room t' < connect_room t)%nat else sq' = sq ∧ t' = t).
Proof.
  intros HP HI HJ. pose proof HJ as (Hnd&Hin&Hsub&Hlen). unfold connect_try_insert_ip.
  destruct (connect_full t) eqn:Hfu; [by split_and!|].
  destruct (existsb _ _) eqn:Hex; [by split_and!|].
  pose proof (aged_wf_emplace (address endpoint) tt now sq now HI ltac:(lia)) as Hwf.
  pose proof (find_emplace (address endpoint) tt now sq) as Hfe.
  pose proof (fun a => find_emplace_ne (address endpoint) a tt now sq) as Hne.
  pose proof (emplace_fresh (address endpoint) tt now sq) as Hfr.
  destruct (aged_emplace (address endpoint) tt now sq) as [sq' ins] eqn:E. simpl in *.
  destruct ins.
  2:{ assert (sq' = sq) as -> by (unfold aged_emplace in E; case_match; congruence).
      by split_and!. }
  assert (aged_find sq (address endpoint) = None) as Hn by (by apply Hfr).
  assert (∀ a, is_Some (aged_find sq a) → is_Some (aged_find sq' a)) as Hmono.
  { intros a Ha. destruct (decide (a = address endpoint)) as [->|]; [by rewrite Hfe|].
    by rewrite Hne. }
  assert (Z.of_nat (length (c_list t)) < m_needed t) as Hlt by (by apply Z.leb_gt).
  split_and!; [done| |done| |].
  - split_and!; simpl.
    + rewrite fmap_app. apply NoDup_snoc; [done|]. rewrite list_elem_of_fmap.
      intros (o&Ho&Hin'). apply not_true_iff_false in Hex. apply Hex. apply existsb_exists.
      exists o. split; [by apply list_elem_of_In|]. by apply v4_eqb_eq.
    + intros e. rewrite elem_of_app, list_elem_of_singleton. intros [He| ->].
      * destruct (Hin e He) as (?&?&?). split_and!; auto.
      * split_and!; [done| |by rewrite Hfe]. apply eq_None_not_Some. intros Hs.
        apply Hsub in Hs. rewrite Hn in Hs. by destruct Hs.
    + auto.
    + rewrite length_app. simpl. lia.
  - split; [done|]. simpl. by eexists.
  - unfold connect_room. simpl. rewrite length_app. simpl. lia.
Qed.

#[global] Instance connect_laws P sq0 now :
  TargetLaws Squelches ConnectHandouts now (fun e => P (ep_address e))
    (fun sq => aged_wf sq now) (connect_ok P sq0) connect_room connect_ext.
Proof.
  split; [apply _| |].
  - intros t t' [En Hp%prefix_length]. simpl. unfold connect_full. rewrite En, !Z.leb_le. lia.
  - intros e sq t HP HI HJ. simpl. unfold connect_try_insert.
    pose proof (connect_try_insert_ok P sq0 now (ep_address e) sq t HP HI HJ) as H.
    destruct (connect_try_insert_ip now (ep_address e) sq t) as [[b sq'] t'].
    destruct H as (?&?&Hmono&?&?). exists b, sq', t'. split_and!; try done.
    intros t0 (Hnd0&Hi&Hs0&?). split_and!; auto.
    intros e0 He0. destruct (Hi e0 He0) as (?&?&?). auto.
Qed.
