(* ===== verification/PFLogic.v ===== *)
(** * The logic of the peer finder (peerfinder/impl/Logic.h)

    The state of [PeerFinder::Logic] and one definition per member function.  Slot
    objects live in [lheap]; [slots_], the targets of a handout and the callers hold
    pointers to them.  [now] is the clock value an operation reads, [seed] numbers the
    draws of [std::random_shuffle]; the mutex makes each operation one atomic step. *)

From S2P Require Import Prelude IPAddr Aged Slot Counts Bootcache Livecache Handouts.
From stdpp Require Import gmultiset strings.
From Stdlib Require Import SpecFloat.

Local Open Scope Z_scope.

(** [boost::system::error_code], as far as it is inspected. *)
Inductive error_code := no_error | operation_aborted | other_error.

(** [Result] of [activate]. *)
Inductive Result := duplicate | full | success.

#[global] Instance Result_eq_dec : EqDecision Result.
Proof. solve_decision. Defined.

(** A [Source] is known by its name. *)
Abbreviation source := string.

Section Logic.
Context {S : Type} `{!Store S} `{!RandomShuffle}.

Record Logic := mkLogic {
  stopping_ : bool;
  fetchSource_ : option source;
  config_ : Config;
  counts_ : Counts;
  fixed_ : gmap IPEndpoint Fixed;
  livecache_ : Livecache;
  bootcache_ : Bootcache S;
  slots_ : gmap IPEndpoint slot_ptr;
  connectedAddresses_ : gmultiset AddressV4;
  keys_ : gset PublicKey;
  m_sources : list source;
  m_whenBroadcast : Z;
  m_squelches : Squelches;
  lheap : heap
}.

Implicit Types (st : Logic) (p : slot_ptr) (now : Z) (seed : nat).

Definition with_stopping b st :=
  let 'mkLogic _ fs cf co fx lc bc sl ca ks so wb sq h := st in
  mkLogic b fs cf co fx lc bc sl ca ks so wb sq h.
Definition with_fetchSource s st :=
  let 'mkLogic sp _ cf co fx lc bc sl ca ks so wb sq h := st in
  mkLogic sp s cf co fx lc bc sl ca ks so wb sq h.
Definition with_config c co st :=
  let 'mkLogic sp fs _ _ fx lc bc sl ca ks so wb sq h := st in
  mkLogic sp fs c co fx lc bc sl ca ks so wb sq h.
Definition with_counts co st :=
  let 'mkLogic sp fs cf _ fx lc bc sl ca ks so wb sq h := st in
  mkLogic sp fs cf co fx lc bc sl ca ks so wb sq h.
Definition with_fixed fx st :=
  let 'mkLogic sp fs cf co _ lc bc sl ca ks so wb sq h := st in
  mkLogic sp fs cf co fx lc bc sl ca ks so wb sq h.
Definition with_livecache lc st :=
  let 'mkLogic sp fs cf co fx _ bc sl ca ks so wb sq h := st in
  mkLogic sp fs cf co fx lc bc sl ca ks so wb sq h.
Definition with_bootcache bc st :=
  let 'mkLogic sp fs cf co fx lc _ sl ca ks so wb sq h := st in
  mkLogic sp fs cf co fx lc bc sl ca ks so wb sq h.
Definition with_slots sl ca ks st :=
  let 'mkLogic sp fs cf co fx lc bc _ _ _ so wb sq h := st in
  mkLogic sp fs cf co fx lc bc sl ca ks so wb sq h.
Definition with_sources so st :=
  let 'mkLogic sp fs cf co fx lc bc sl ca ks _ wb sq h := st in
  mkLogic sp fs cf co fx lc bc sl ca ks so wb sq h.
Definition with_whenBroadcast wb st :=
  let 'mkLogic sp fs cf co fx lc bc sl ca ks so _ sq h := st in
  mkLogic sp fs cf co fx lc bc sl ca ks so wb sq h.
Definition with_squelches sq st :=
  let 'mkLogic sp fs cf co fx lc bc sl ca ks so wb _ h := st in
  mkLogic sp fs cf co fx lc bc sl ca ks so wb sq h.
Definition with_heap h st :=
  let 'mkLogic sp fs cf co fx lc bc sl ca ks so wb sq _ := st in
  mkLogic sp fs cf co fx lc bc sl ca ks so wb sq h.

(** [*slot]: the object a shared pointer refers to. *)
Definition get_slot p st : res SlotImp := deref (lheap st !! p).
Definition put_slot p (s : SlotImp) st : Logic := with_heap (<[p := s]> (lheap st)) st.

(** [counts_.add] and [counts_.remove] of a slot *)
Definition add_counts (s : SlotImp) st : res Logic :=
  co ← counts_add s (counts_ st); Ok (with_counts co st).
Definition remove_counts (s : SlotImp) st : res Logic :=
  co ← counts_remove s (counts_ st); Ok (with_counts co st).

(** ** Construction, configuration *)

(** [config (Config)] *)
Definition set_config (c : Config) st : res Logic :=
  co ← onConfig c (counts_ st); Ok (with_config c co st).

Definition Logic_init (threshold : double) (store : S) now : res Logic :=
  set_config Config_default
    (mkLogic false None Config_default (Counts_init threshold) ∅ Livecache_init
       (Bootcache_init store now) ∅ ∅ ∅ [] now aged_empty ∅).

Definition load st : Logic := with_bootcache (boot_load (bootcache_ st)) st.

Definition stop st : Logic := with_stopping true st.

(** [addFixedPeer]: the first address that is not yet fixed is added. *)
Fixpoint addFixedPeer (addresses : list IPEndpoint) now st : res Logic :=
  match addresses with
  | [] => Ok st
  | remote_address :: rest =>
      if port remote_address =? 0 then Err exception_thrown
      else match fixed_ st !! remote_address with
           | None => Ok (with_fixed (<[remote_address := Fixed_init now]> (fixed_ st)) st)
           | Some _ => addFixedPeer rest now st
           end
  end.

(** [fixed (Endpoint)] and [fixed (Address)] *)
Definition is_fixed_endpoint (endpoint : IPEndpoint) st : bool :=
  existsb (fun entry => ep_eqb entry.1 endpoint) (entries (fixed_ st)).
Definition is_fixed_address (a : AddressV4) st : bool :=
  existsb (fun entry => v4_eqb (address entry.1) a) (entries (fixed_ st)).

(** ** Connectivity check *)

Definition checkComplete (remoteAddress checkedAddress : IPEndpoint) (ec : error_code)
    now st : res Logic :=
  match ec with
  | operation_aborted => Ok st
  | _ =>
      match slots_ st !! remoteAddress with
      | None => Ok st
      | Some p =>
          slot ← get_slot p st;
          match ec with
          | other_error =>
              let st := put_slot p (set_check true false false slot) st in
              bc ← boot_on_failure checkedAddress now (bootcache_ st);
              Ok (with_bootcache bc st)
          | _ =>
              Ok (put_slot p (set_listening_port (port checkedAddress)
                                (set_check true true false slot)) st)
          end
      end
  end.

(** ** Slots *)

Definition ptr_fresh st : slot_ptr := fresh (dom (lheap st)).

(** Adds a constructed slot to the table, to the connected addresses and the counts. *)
Definition emplace_slot (slot : SlotImp) st : res (slot_ptr * Logic) :=
  let p := ptr_fresh st in
  let ep := m_remote_endpoint slot in
  assert_ (match slots_ st !! ep with None => true | Some _ => false end);;
  let st := put_slot p slot st in
  let st := with_slots (<[ep := p]> (slots_ st))
              ({[+ address ep +]} ⊎ connectedAddresses_ st) (keys_ st) st in
  st ← add_counts slot st;
  Ok (p, st).

Definition new_inbound_slot (local_endpoint remote_endpoint : IPEndpoint) st
  : res (option slot_ptr * Logic) :=
  let count := Z.of_nat (multiplicity (address remote_endpoint) (connectedAddresses_ st)) in
  if is_public remote_endpoint && (u64 (ipLimit (config_ st)) <? count) then Ok (None, st)
  else
    '(p, st) ← emplace_slot (SlotImp_inbound local_endpoint remote_endpoint
                 (is_fixed_address (address remote_endpoint) st)) st;
    Ok (Some p, st).

Definition new_outbound_slot (remote_endpoint : IPEndpoint) st
  : res (option slot_ptr * Logic) :=
  match slots_ st !! remote_endpoint with
  | Some _ => Ok (None, st)
  | None =>
      '(p, st) ← emplace_slot (SlotImp_outbound remote_endpoint
                   (is_fixed_endpoint remote_endpoint st)) st;
      Ok (Some p, st)
  end.

(** The table has an entry for the remote endpoint of the slot. *)
Definition assert_in_table (s : SlotImp) st : res unit :=
  assert_ (match slots_ st !! m_remote_endpoint s with Some _ => true | None => false end).

Definition onConnected p (local_endpoint : IPEndpoint) st : res (bool * Logic) :=
  slot ← get_slot p st;
  assert_in_table slot st;;
  let slot := set_local_endpoint local_endpoint slot in
  let st := put_slot p slot st in
  match slots_ st !! local_endpoint with
  | Some q =>
      other ← get_slot q st;
      assert_ (bool_decide (m_local_endpoint other = Some (m_remote_endpoint slot)));;
      Ok (false, st)
  | None =>
      st ← remove_counts slot st;
      slot' ← slot_state connected slot;
      st ← add_counts slot' (put_slot p slot' st);
      Ok (true, st)
  end.

(** The end of [activate]: an outbound slot is noted in the boot cache, a fixed
    outbound one in the table of fixed peers. *)
Definition note_success (slot : SlotImp) now st : res Logic :=
  st ← (if negb (m_inbound slot) then
          bc ← boot_on_success (m_remote_endpoint slot) now (bootcache_ st);
          Ok (with_bootcache bc st)
        else Ok st);
  if m_fixed slot && negb (m_inbound slot) then
    match fixed_ st !! m_remote_endpoint slot with
    | None => Err assert_failed
    | Some f =>
        Ok (with_fixed (<[m_remote_endpoint slot := fixed_success now f]>
                          (fixed_ st)) st)
    end
  else Ok st.

Definition activate p (key : PublicKey) (cluster : bool) now st : res (Result * Logic) :=
  slot ← get_slot p st;
  assert_in_table slot st;;
  assert_ (bool_decide (m_state slot = accept) || bool_decide (m_state slot = connected));;
  if decide (key ∈ keys_ st) then Ok (duplicate, st)
  else
    can ← can_activate slot (counts_ st);
    if negb can then
      if negb (m_inbound slot) then
        bc ← boot_on_success (m_remote_endpoint slot) now (bootcache_ st);
        Ok (full, with_bootcache bc st)
      else Ok (full, st)
    else
      st ← remove_counts slot st;
      let slot := set_cluster cluster (set_public_key key slot) in
      st ← add_counts slot (put_slot p slot st);
      let st := with_slots (slots_ st) (connectedAddresses_ st) ({[key]} ∪ keys_ st) st in
      st ← remove_counts slot st;
      slot ← slot_activate now slot;
      st ← add_counts slot (put_slot p slot st);
      st ← note_success slot now st;
      Ok (success, st).

(** [remove (slot)] *)
Definition remove p st : res Logic :=
  slot ← get_slot p st;
  assert_in_table slot st;;
  let sl := delete (m_remote_endpoint slot) (slots_ st) in
  ks ← match m_public_key slot with
       | None => Ok (keys_ st)
       | Some key =>
           assert_ (bool_decide (key ∈ keys_ st));;
           Ok (keys_ st ∖ {[key]})
       end;
  let a := address (m_remote_endpoint slot) in
  assert_ (bool_decide (a ∈ connectedAddresses_ st));;
  remove_counts slot (with_slots sl (connectedAddresses_ st ∖ {[+ a +]}) ks st).

Definition on_closed p now st : res Logic :=
  st ← remove p st;
  slot ← get_slot p st;
  st ← (if m_fixed slot && negb (m_inbound slot)
           && negb (bool_decide (m_state slot = active)) then
          match fixed_ st !! m_remote_endpoint slot with
          | None => Err assert_failed
          | Some f =>
              Ok (with_fixed (<[m_remote_endpoint slot := fixed_failure now f]> (fixed_ st)) st)
          end
        else Ok st);
  match m_state slot with
  | accept | active | closing => Ok st
  | connect | connected =>
      bc ← boot_on_failure (m_remote_endpoint slot) now (bootcache_ st);
      Ok (with_bootcache bc st)
  end.

Definition on_failure p now st : res Logic :=
  slot ← get_slot p st;
  bc ← boot_on_failure (m_remote_endpoint slot) now (bootcache_ st);
  Ok (with_bootcache bc st).

(** [onRedirects]: at most [maxRedirects] addresses enter the boot cache. *)
Fixpoint onRedirects_loop (eps : list IPEndpoint) (n : Z) now st : Logic :=
  match eps with
  | [] => st
  | ep :: eps' =>
      if n <? Tuning.maxRedirects
      then onRedirects_loop eps' (n + 1) now
             (with_bootcache (boot_insert ep now (bootcache_ st)).1 st)
      else st
  end.
Definition onRedirects (eps : list IPEndpoint) now st : Logic :=
  onRedirects_loop eps 0 now st.

(** ** Sources *)

Fixpoint addBootcacheAddresses (l : list IPEndpoint) now st : Z * Logic :=
  match l with
  | [] => (0, st)
  | addr :: l' =>
      let '(bc, inserted) := boot_insert addr now (bootcache_ st) in
      let '(n, st) := addBootcacheAddresses l' now (with_bootcache bc st) in
      ((if inserted then n + 1 else n), st)
  end.

(** [fetch]: [stopped] tells whether [stop] ran during the (unlocked) call of
    [source->fetch], whose outcome is [results], [None] for an error. *)
Definition fetch (src : source) (stopped : bool) (results : option (list IPEndpoint))
    now st : Logic :=
  if stopping_ st then st
  else
    let st := with_fetchSource (Some src) st in
    let st := if stopped then stop st else st in
    if stopping_ st then st
    else
      let st := with_fetchSource None st in
      match results with
      | Some l => (addBootcacheAddresses l now st).2
      | None => st
      end.

Definition addStaticSource := fetch.
Definition addSource (src : source) st : Logic := with_sources (m_sources st ++ [src]) st.

(** ** Handing out endpoints *)

(** [redirect (slot)] *)
Definition redirect p seed now st : res (list Endpoint * Logic) :=
  let lc := live_shuffle seed (livecache_ st) in
  let targets := [mkRedirect p []] in
  '(h, ts, ls) ← handout now (endpoint_of (m_cache lc))
                   (Datatypes.S (total_room redirect_room targets))
                   (lheap st) targets (hops_fwd lc);
  match ts with
  | [t] => Ok (r_list t, with_heap h (with_livecache (set_lists ls lc) st))
  | _ => Err undefined
  end.

(** The loop of [get_fixed] over [fixed_], appending to the list [c]. *)
Fixpoint get_fixed_loop (fx : list (IPEndpoint * Fixed)) (needed : Z) (c : list IPEndpoint)
    (sq : Squelches) now st : list IPEndpoint * Squelches :=
  match fx with
  | [] => (c, sq)
  | (ep, f) :: fx' =>
      if needed =? 0 then (c, sq)
      else if (m_when f <=? now)
              && (match aged_find sq (address ep) with None => true | Some _ => false end)
              && negb (existsb (fun v => v4_eqb (address ep) (address v.1)) (entries (slots_ st)))
      then get_fixed_loop fx' (u64 (needed - 1)) (c ++ [ep])
             (aged_emplace (address ep) tt now sq).1 now st
      else get_fixed_loop fx' needed c sq now st
  end.

Definition get_fixed (needed : Z) (c : list IPEndpoint) (sq : Squelches) now st
  : list IPEndpoint * Squelches :=
  get_fixed_loop (entries (fixed_ st)) needed c sq now st.

(** The squelch list gets, or touches, the address of every slot. *)
Fixpoint squelch_slots (sl : list (IPEndpoint * slot_ptr)) now (sq : Squelches) st
  : res Squelches :=
  match sl with
  | [] => Ok sq
  | (_, p) :: sl' =>
      slot ← get_slot p st;
      let a := address (m_remote_endpoint slot) in
      let '(sq, inserted) := aged_emplace a tt now sq in
      squelch_slots sl' now (if inserted then sq else aged_touch a now sq) st
  end.

(** Step 4 of [autoconnect]: offer the boot cache in decreasing valence. *)
Fixpoint offer_boot (eps : list IPEndpoint) now (sq : Squelches) (t : ConnectHandouts)
  : Squelches * ConnectHandouts :=
  match eps with
  | [] => (sq, t)
  | ep :: eps' =>
      if connect_full t then (sq, t)
      else
        let '(_, sq, t) := connect_try_insert_ip now ep sq t in
        offer_boot eps' now sq t
  end.

(** Steps 2 to 4 of [autoconnect]: live cache, then boot cache. *)
Definition autoconnect_caches (needed : Z) seed now (sq : Squelches) st
  : res (list IPEndpoint * Logic) :=
  if negb (autoConnect (config_ st)) || (out_max (counts_ st) <=? out_active (counts_ st))
  then Ok ([], with_squelches sq st)
  else
    let lc := live_shuffle seed (livecache_ st) in
    let targets := [mkConnect needed []] in
    '(sq, ts, ls) ← handout now (endpoint_of (m_cache lc))
                      (Datatypes.S (total_room connect_room targets))
                      sq targets (hops_rev lc);
    let st := with_livecache (set_lists (reverse ls) lc) st in
    match ts with
    | [t] =>
        match c_list t with
        | _ :: _ => Ok (c_list t, with_squelches sq st)
        | [] =>
            if 0 <? attempts (counts_ st) then Ok ([], with_squelches sq st)
            else
              let '(sq, t) := offer_boot (boot_endpoints (bootcache_ st)) now sq t in
              Ok (c_list t, with_squelches sq st)
        end
    | _ => Err undefined
    end.

Definition autoconnect seed now st : res (list IPEndpoint * Logic) :=
  let needed := attempts_needed (counts_ st) in
  if needed =? 0 then Ok ([], st)
  else
    sq ← squelch_slots (entries (slots_ st)) now (m_squelches st) st;
    if fixed_active (counts_ st) <? Z.of_nat (size (fixed_ st)) then
      let '(c, sq) := get_fixed needed [] sq now st in
      match c with
      | _ :: _ => Ok (c, with_squelches sq st)
      | [] =>
          if 0 <? attempts (counts_ st) then Ok ([], with_squelches sq st)
          else autoconnect_caches needed seed now sq st
      end
    else autoconnect_caches needed seed now sq st.

(** The pointers of the slots in [active] state, in table order. *)
Definition active_slots st : list slot_ptr :=
  omap (fun e => match lheap st !! e.2 with
                 | Some s => if decide (m_state s = active) then Some e.2 else None
                 | None => None
                 end) (entries (slots_ st)).

(** The entry for ourselves: hop count 0, no address, our listening port. *)
Definition self_endpoint st : Endpoint :=
  mkEndpoint 0 (at_port (mkEp v4_any 0) (listeningPort (config_ st))).

Definition broadcast_targets seed st : list SlotHandouts :=
  let targets := map (fun p => mkSlotHandouts p []) (random_shuffle seed (active_slots st)) in
  if wantIncoming (config_ st) && (0 <? inboundSlots (counts_ st))
  then map (slot_insert (self_endpoint st)) targets
  else targets.

Definition buildEndpointsForPeers seed now st
  : res (list (slot_ptr * list Endpoint) * Logic) :=
  if m_whenBroadcast st <=? now then
    let targets := broadcast_targets seed st in
    let lc := live_shuffle (Datatypes.S seed) (livecache_ st) in
    '(h, ts, ls) ← handout now (endpoint_of (m_cache lc))
                     (Datatypes.S (total_room slot_room targets))
                     (lheap st) targets (hops_fwd lc);
    Ok (map (fun t => (s_slot t, s_list t)) ts,
        with_whenBroadcast (now + Tuning.secondsPerMessage)
          (with_heap h (with_livecache (set_lists ls lc) st)))
  else Ok ([], st).

(** ** Periodic activity *)

Fixpoint expire_slots (sl : list (IPEndpoint * slot_ptr)) now (h : heap) : heap :=
  match sl with
  | [] => h
  | (_, p) :: sl' => expire_slots sl' now (alter (slot_expire now) p h)
  end.

Definition once_per_second now st : Logic :=
  let st := with_livecache (live_expire now (livecache_ st)) st in
  let st := with_heap (expire_slots (entries (slots_ st)) now (lheap st)) st in
  let st := with_squelches (aged_expire Tuning.recentAttemptDuration now (m_squelches st)).1 st in
  with_bootcache (boot_periodicActivity now (bootcache_ st)) st.

(** ** Endpoint messages *)

Definition is_valid_address (a : IPEndpoint) : bool :=
  if is_unspecified a then false
  else if negb (is_public a) then false
  else if port a =? 0 then false
  else true.

(** [preprocess]: [acc] holds the endpoints kept so far, [remote] is the remote
    endpoint of the slot the message came from. *)
Fixpoint preprocess_loop (remote : IPEndpoint) (neighbor : bool) (acc rest : list Endpoint)
  : list Endpoint :=
  match rest with
  | [] => acc
  | ep :: rest' =>
      if Tuning.maxHops <? hops ep then preprocess_loop remote neighbor acc rest'
      else if (hops ep =? 0) && neighbor then preprocess_loop remote neighbor acc rest'
      else
        let ep' := if hops ep =? 0
                   then mkEndpoint 0 (at_port remote (port (ep_address ep))) else ep in
        let neighbor' := neighbor || (hops ep =? 0) in
        if negb (is_valid_address (ep_address ep')) then
          preprocess_loop remote neighbor' acc rest'
        else if existsb (fun other => ep_eqb (ep_address ep') (ep_address other)) acc then
          preprocess_loop remote neighbor' acc rest'
        else
          preprocess_loop remote neighbor'
            (acc ++ [mkEndpoint (i32 (hops ep' + 1)) (ep_address ep')]) rest'
  end.

Definition preprocess (remote : IPEndpoint) (l : list Endpoint) : list Endpoint :=
  preprocess_loop remote false [] l.

(** One iteration of the loop of [on_endpoints]; the list collects the addresses for
    which [m_checker.async_connect] was started. *)
Definition on_endpoint p (ep : Endpoint) now st : res (list IPEndpoint * Logic) :=
  assert_ (negb (hops ep =? 0));;
  slot ← get_slot p st;
  let slot := set_recent (recent_insert (ep_address ep) (hops ep) now (recent slot)) slot in
  let st := put_slot p slot st in
  let relay :=
    lc ← live_insert ep now (livecache_ st);
    let st := with_livecache lc st in
    Ok ([], with_bootcache (boot_insert (ep_address ep) now (bootcache_ st)).1 st) in
  if hops ep =? 1 then
    if connectivityCheckInProgress slot then Ok ([], st)
    else if negb (checked slot) then
      Ok ([ep_address ep], put_slot p (set_check (checked slot) (canAccept slot) true slot) st)
    else if negb (canAccept slot) then Ok ([], st)
    else relay
  else relay.

Fixpoint on_endpoints_loop p (l : list Endpoint) now st : res (list IPEndpoint * Logic) :=
  match l with
  | [] => Ok ([], st)
  | ep :: l' =>
      '(c1, st) ← on_endpoint p ep now st;
      '(c2, st) ← on_endpoints_loop p l' now st;
      Ok (c1 ++ c2, st)
  end.

Definition on_endpoints p (l : list Endpoint) now st : res (list IPEndpoint * Logic) :=
  slot ← get_slot p st;
  assert_in_table slot st;;
  assert_ (bool_decide (m_state slot = active));;
  '(checks, st) ← on_endpoints_loop p (preprocess (m_remote_endpoint slot) l) now st;
  slot ← get_slot p st;
  Ok (checks, put_slot p (set_whenAccept (now + Tuning.secondsPerMessage) slot) st).
End Logic.
Arguments Logic S : clear implicits.
