(* ===== verification/PFInv.v ===== *)
(** * Invariant of the peer finder

    What every reachable state of [PeerFinder::Logic] satisfies, that every operation
    called under its contract returns (no assertion fails, nothing undefined is
    reached), and that it keeps the invariant. *)

From S2P Require Import Prelude IPAddr Aged Slot Counts Bootcache Livecache Handouts PFLogic.
From stdpp Require Import gmultiset strings.
From Stdlib Require Import SpecFloat.

Local Open Scope Z_scope.

(** ** The table of slots, seen through the pointers *)

Definition view (sl : gmap IPEndpoint slot_ptr) (h : heap) : gmap IPEndpoint SlotImp :=
  omap (fun p => h !! p) sl.

(** The pointers are valid and a slot is keyed by its remote endpoint. *)
Definition ptr_ok (sl : gmap IPEndpoint slot_ptr) (h : heap) : Prop :=
  ∀ ep p, sl !! ep = Some p → ∃ s, h !! p = Some s ∧ m_remote_endpoint s = ep.

(** What is known of one slot of the table: its direction agrees with its state, it has
    a key exactly when it is active, and an outbound fixed slot is a fixed peer. *)
Record slot_inv (fx : gmap IPEndpoint Fixed) (ep : IPEndpoint) (s : SlotImp) : Prop := {
  si_remote : m_remote_endpoint s = ep;
  si_dir : slot_dir_ok s = true;
  si_key : is_Some (m_public_key s) ↔ m_state s = active;
  si_cluster : m_cluster s = true → m_state s = active;
  si_fixed : m_fixed s = true → m_inbound s = false → is_Some (fx !! ep);
  si_closing : m_state s ≠ closing
}.

(** [1] for the slots at address [a]. *)
Definition at_address (a : AddressV4) (s : SlotImp) : Z :=
  b2z (bool_decide (address (m_remote_endpoint s) = a)).

(** The aggregates agree with the table: every counter, the set of public keys (each of
    one slot only) and the multiset of connected addresses. *)
Record view_wf (fx : gmap IPEndpoint Fixed) (v : gmap IPEndpoint SlotImp)
    (ca : gmultiset AddressV4) (ks : gset PublicKey) (co : Counts) : Prop := {
  vw_slots : ∀ ep s, v !! ep = Some s → slot_inv fx ep s;
  vw_counts : counts_ok (fun k => msum (contrib k) v) co;
  vw_keys : ∀ key, key ∈ ks ↔ ∃ ep s, v !! ep = Some s ∧ m_public_key s = Some key;
  vw_key_inj : ∀ ep1 ep2 s1 s2 key, v !! ep1 = Some s1 → v !! ep2 = Some s2 →
    m_public_key s1 = Some key → m_public_key s2 = Some key → ep1 = ep2;
  vw_addrs : ∀ a, Z.of_nat (multiplicity a ca) = msum (at_address a) v
}.

Record logic_wf {S} (st : Logic S) (t : Z) : Prop := {
  lf_ptr : ptr_ok (slots_ st) (lheap st);
  lf_view : view_wf (fixed_ st) (view (slots_ st) (lheap st))
              (connectedAddresses_ st) (keys_ st) (counts_ st);
  lf_live : live_wf (livecache_ st) t;
  lf_boot : bimap_wf (m_map (bootcache_ st));
  lf_squelch : aged_wf (m_squelches st) t;
  lf_heap : heap_wf t (lheap st)
}.

Lemma lookup_view sl h ep s :
  view sl h !! ep = Some s ↔ ∃ p, sl !! ep = Some p ∧ h !! p = Some s.
Proof. unfold view. rewrite lookup_omap. rewrite bind_Some. done. Qed.

Lemma ptr_ok_inj sl h ep1 ep2 p :
  ptr_ok sl h → sl !! ep1 = Some p → sl !! ep2 = Some p → ep1 = ep2.
Proof.
  intros Hp H1 H2. apply Hp in H1 as (s1&E1&<-). apply Hp in H2 as (s2&E2&<-). congruence.
Qed.

(** Writing the slot of a registered pointer updates its entry of the table only. *)
Lemma view_put sl h ep p s :
  ptr_ok sl h → sl !! ep = Some p → view sl (<[p := s]> h) = <[ep := s]> (view sl h).
Proof.
  intros Hp He. apply map_eq. intros ep'. unfold view.
  rewrite lookup_insert, !lookup_omap. case_decide as Hd.
  - subst. rewrite He. simpl. apply lookup_insert_eq.
  - destruct (sl !! ep') as [q|] eqn:Hq; simpl; [|done].
    rewrite lookup_insert_ne; [done|]. intros ->. by eapply Hd, ptr_ok_inj.
Qed.

Lemma view_add sl h ep p s :
  ptr_ok sl h → h !! p = None →
  view (<[ep := p]> sl) (<[p := s]> h) = <[ep := s]> (view sl h).
Proof.
  intros Hp He. apply map_eq. intros ep'. unfold view.
  rewrite lookup_insert, !lookup_omap, lookup_insert. case_decide as Hd; simpl.
  - apply lookup_insert_eq.
  - destruct (sl !! ep') as [q|] eqn:Hq; simpl; [|done].
    rewrite lookup_insert_ne; [done|]. intros ->. apply Hp in Hq as (?&?&_). congruence.
Qed.

Lemma view_delete sl h ep : view (delete ep sl) h = delete ep (view sl h).
Proof. apply omap_delete. Qed.

(** ** Changes of volatile fields *)

Section core.
Context (fx : gmap IPEndpoint Fixed).

Lemma core_inv s s' : core s = core s' →
  m_inbound s = m_inbound s' ∧ m_fixed s = m_fixed s' ∧ m_cluster s = m_cluster s'
  ∧ m_state s = m_state s' ∧ m_remote_endpoint s = m_remote_endpoint s'
  ∧ m_public_key s = m_public_key s'.
Proof. intros H. unfold core in H. injection H. auto 10. Qed.

Lemma slot_inv_core ep s s' : core s = core s' → slot_inv fx ep s → slot_inv fx ep s'.
Proof.
  intros (Hi&Hf&Hc&Hs&Hr&Hk)%core_inv []. split; unfold slot_dir_ok in *; rewrite ?Hi, ?Hf, ?Hc, ?Hs, ?Hr, ?Hk in *; done.
Qed.

Lemma lookup_core {K} `{Countable K} (v v' : gmap K SlotImp) k s' :
  core <$> v' = core <$> v → v' !! k = Some s' →
  ∃ s, v !! k = Some s ∧ core s = core s'.
Proof.
  intros He Hs. apply (f_equal (fun m => m !! k)) in He. rewrite !lookup_fmap, Hs in He.
  symmetry in He. apply fmap_Some in He as (s&?&?). by eauto.
Qed.

Lemma msum_core f (v v' : gmap IPEndpoint SlotImp) :
  (∀ s, f (core s) = f s) → core <$> v' = core <$> v → msum f v' = msum f v.
Proof. intros Hf He. by rewrite <-(msum_fmap f core v'), He, msum_fmap. Qed.

Lemma view_wf_core v v' ca ks co :
  core <$> v' = core <$> v → view_wf fx v ca ks co → view_wf fx v' ca ks co.
Proof.
  intros He Hv. assert (core <$> v = core <$> v') as He' by done. split.
  - intros ep s' Hs'. destruct (lookup_core _ _ _ _ He Hs') as (s&Hs&Hc).
    eapply slot_inv_core; [done|]. by eapply vw_slots.
  - intros k. rewrite (msum_core _ v); [apply Hv|done|done].
  - intros key. rewrite (vw_keys _ _ _ _ _ Hv). split; intros (ep&s&Hs&Hk).
    + destruct (lookup_core _ _ _ _ He' Hs) as (s'&Hs'&(?&?&?&?&?&?)%core_inv).
      exists ep, s'. split; congruence.
    + destruct (lookup_core _ _ _ _ He Hs) as (s'&Hs'&(?&?&?&?&?&?)%core_inv).
      exists ep, s'. split; congruence.
  - intros ep1 ep2 s1 s2 key H1 H2 K1 K2.
    destruct (lookup_core _ _ _ _ He H1) as (s1'&H1'&(?&?&?&?&?&?)%core_inv).
    destruct (lookup_core _ _ _ _ He H2) as (s2'&H2'&(?&?&?&?&?&?)%core_inv).
    eapply (vw_key_inj _ _ _ _ _ Hv ep1 ep2 s1' s2' key); congruence.
  - intros a. rewrite (msum_core _ v); [apply Hv|done|done].
Qed.
End core.

Lemma view_core sl h h' : core <$> h' = core <$> h → core <$> view sl h' = core <$> view sl h.
Proof.
  intros He. apply map_eq. intros ep. unfold view. rewrite !lookup_fmap, !lookup_omap.
  destruct (sl !! ep) as [p|]; simpl; [|done].
  apply (f_equal (fun m => m !! p)) in He. by rewrite !lookup_fmap in He.
Qed.

Lemma ptr_ok_core sl h h' : core <$> h' = core <$> h → ptr_ok sl h → ptr_ok sl h'.
Proof.
  intros He Hp ep p Hep. destruct (Hp _ _ Hep) as (s&Hs&Hr).
  destruct (lookup_core h' h p s) as (s'&Hs'&(?&?&?&?&?&?)%core_inv); [done..|].
  exists s'. split; congruence.
Qed.

(** ** Time only moves forward *)

Lemma heap_wf_mono h t t' : heap_wf t h → t <= t' → heap_wf t' h.
Proof. intros Hh ? p s Hs. eapply aged_wf_mono; [by eapply Hh|done]. Qed.

Lemma logic_wf_mono {S} (st : Logic S) t t' : logic_wf st t → t <= t' → logic_wf st t'.
Proof.
  intros [] ?. split; eauto using live_wf_mono, aged_wf_mono, heap_wf_mono.
Qed.

(** ** Counters *)

Lemma recount_ok s s' co total :
  slot_dir_ok s = true → slot_dir_ok s' = true → counts_ok total co →
  ∃ co1 co2, counts_remove s co = Ok co1 ∧ counts_add s' co1 = Ok co2
    ∧ counts_ok (fun k => total k - contrib k s + contrib k s') co2
    ∧ c_in_max co2 = c_in_max co ∧ c_out_max co2 = c_out_max co.
Proof.
  intros Hd Hd' Hc.
  destruct (adjust_ok s (-1) co total Hd Hc) as (co1&H1&Hc1&Hi1&Ho1&_).
  destruct (adjust_ok s' 1 co1 _ Hd' Hc1) as (co2&H2&Hc2&Hi2&Ho2&_).
  exists co1, co2. split_and!; [done|done| |congruence..].
  intros k. rewrite Hc2. f_equal. lia.
Qed.

(** ** Changes of the table *)

Section view_changes.
Context (fx : gmap IPEndpoint Fixed) (v : gmap IPEndpoint SlotImp)
  (ca : gmultiset AddressV4) (ks : gset PublicKey) (co : Counts).
Hypothesis Hwf : view_wf fx v ca ks co.

(** A slot of the table changes, without its key or by getting a fresh one. *)
Lemma view_wf_update ep s s' ks' co' :
  v !! ep = Some s → slot_inv fx ep s' →
  counts_ok (fun k => msum (contrib k) v - contrib k s + contrib k s') co' →
  (m_public_key s' = m_public_key s ∧ ks' = ks
   ∨ ∃ key, m_public_key s = None ∧ m_public_key s' = Some key ∧ key ∉ ks
            ∧ ks' = {[key]} ∪ ks) →
  view_wf fx (<[ep := s']> v) ca ks' co'.
Proof.
  intros Hs Hi Hc Hk. pose proof (vw_slots _ _ _ _ _ Hwf ep s Hs) as Hi0. split.
  - intros ep0 s0 [[-> <-]|[? H0]]%lookup_insert_Some; [done|]. by eapply vw_slots.
  - intros k. rewrite (msum_update _ v ep s) by done. apply Hc.
  - intros key. pose proof (vw_keys _ _ _ _ _ Hwf key) as Hkk.
    setoid_rewrite lookup_insert_Some.
    destruct Hk as [[Hk ->]|(key'&Hk&Hk'&Hn&->)].
    + rewrite Hkk. clear -Hs Hk. split; intros (ep0&s0&H0&Hk0).
      * destruct (decide (ep = ep0)) as [->|]; [|naive_solver].
        exists ep0, s'. split; [by left|]. congruence.
      * destruct H0 as [[-> <-]|[? ?]]; [|naive_solver]. exists ep0, s. split; congruence.
    + rewrite elem_of_union, elem_of_singleton, Hkk. clear -Hs Hk Hk'. split.
      * intros [->|(ep0&s0&H0&Hk0)]; [by exists ep, s'; eauto|].
        exists ep0, s0. split; [right|done]. split; [|done]. intros ->. congruence.
      * intros (ep0&s0&[[-> <-]|[? ?]]&Hk0); [left; congruence|naive_solver].
  - intros ep1 ep2 s1 s2 key. rewrite !lookup_insert_Some.
    pose proof (vw_keys _ _ _ _ _ Hwf key) as Hkk.
    pose proof (fun e1 e2 => vw_key_inj _ _ _ _ _ Hwf e1 e2) as Hinj.
    destruct Hk as [[Hk ->]|(key'&Hk&Hk'&Hn&->)];
      intros [[<- <-]|[? ?]] [[<- <-]|[? ?]] K1 K2; try done.
    + apply (Hinj ep ep2 s s2 key); congruence.
    + apply (Hinj ep1 ep s1 s key); congruence.
    + by eapply Hinj.
    + naive_solver.
    + naive_solver.
    + by eapply Hinj.
  - intros a. rewrite (msum_update _ v ep s), (vw_addrs _ _ _ _ _ Hwf) by done.
    unfold at_address. rewrite (si_remote _ _ _ Hi), (si_remote _ _ _ Hi0). lia.
Qed.

Lemma view_wf_add ep s co' :
  v !! ep = None → slot_inv fx ep s → m_public_key s = None →
  counts_ok (fun k => msum (contrib k) v + contrib k s) co' →
  view_wf fx (<[ep := s]> v) ({[+ address ep +]} ⊎ ca) ks co'.
Proof.
  intros Hn Hi Hk Hc. split.
  - intros ep0 s0 [[-> <-]|[? H0]]%lookup_insert_Some; [done|]. by eapply vw_slots.
  - intros k. rewrite (msum_insert _ v ep s), Z.add_comm by done. apply Hc.
  - intros key. rewrite (vw_keys _ _ _ _ _ Hwf key). setoid_rewrite lookup_insert_Some.
    clear -Hn Hk. split; [|naive_solver]. intros (ep0&s0&?&?). exists ep0, s0.
    split; [right|done]. split; [congruence|done].
  - intros ep1 ep2 s1 s2 key [[-> <-]|[? ?]]%lookup_insert_Some
      [[-> <-]|[? ?]]%lookup_insert_Some ??; try congruence. by eapply (vw_key_inj _ _ _ _ _ Hwf).
  - intros a. rewrite (msum_insert _ v ep s), multiplicity_disj_union by done.
    rewrite Nat2Z.inj_add, (vw_addrs _ _ _ _ _ Hwf).
    assert (at_address a s = b2z (bool_decide (address ep = a))) as ->.
    { unfold at_address. by rewrite (si_remote _ _ _ Hi). }
    destruct (decide (address ep = a)) as [<-|].
    + rewrite multiplicity_singleton_eq, bool_decide_true by done. simpl. lia.
    + rewrite multiplicity_singleton_ne, bool_decide_false by congruence. simpl. lia.
Qed.

Lemma view_wf_delete ep s co' :
  v !! ep = Some s → counts_ok (fun k => msum (contrib k) v - contrib k s) co' →
  view_wf fx (delete ep v) (ca ∖ {[+ address ep +]})
    (match m_public_key s with None => ks | Some key => ks ∖ {[key]} end) co'.
Proof.
  intros Hs Hc. pose proof (vw_slots _ _ _ _ _ Hwf ep s Hs) as Hi. split.
  - intros ep0 s0 [? H0]%lookup_delete_Some. by eapply vw_slots.
  - intros k. rewrite (msum_delete _ v ep s) by done. apply Hc.
  - intros key. pose proof (vw_keys _ _ _ _ _ Hwf key) as Hkk.
    pose proof (fun e1 e2 => vw_key_inj _ _ _ _ _ Hwf e1 e2) as Hinj.
    setoid_rewrite lookup_delete_Some. destruct (m_public_key s) as [key'|] eqn:Hk.
    + rewrite elem_of_difference, elem_of_singleton, Hkk. clear -Hs Hk Hinj. split.
      * intros [(ep0&s0&H0&Hk0) Hne]. exists ep0, s0. split; [|done]. split; [|done].
        intros ->. congruence.
      * intros (ep0&s0&[Hne H0]&Hk0). split; [by eauto|]. intros ->.
        apply Hne. by eapply Hinj.
    + rewrite Hkk. clear -Hs Hk. split; [|naive_solver].
      intros (ep0&s0&?&?). exists ep0, s0. split; [|done]. split; [congruence|done].
  - intros ep1 ep2 s1 s2 key [? ?]%lookup_delete_Some [? ?]%lookup_delete_Some.
    by apply (vw_key_inj _ _ _ _ _ Hwf).
  - intros a. rewrite (msum_delete _ v ep s), multiplicity_difference by done.
    pose proof (vw_addrs _ _ _ _ _ Hwf a) as Ha.
    assert (0 <= msum (at_address a) (delete ep v)) as Hp.
    { apply msum_nonneg. intros. unfold at_address, b2z. case_match; lia. }
    rewrite (msum_delete _ v ep s) in Hp by done.
    assert (at_address a s = b2z (bool_decide (address ep = a))) as Has.
    { unfold at_address. by rewrite (si_remote _ _ _ Hi). }
    rewrite Has in *.
    destruct (decide (address ep = a)) as [<-|].
    + rewrite multiplicity_singleton_eq. rewrite bool_decide_true in * by done. simpl in *. lia.
    + rewrite multiplicity_singleton_ne by congruence.
      rewrite bool_decide_false in * by done. simpl in *. lia.
Qed.

Lemma view_wf_addr_elem ep s : v !! ep = Some s → address ep ∈ ca.
Proof.
  intros Hs. pose proof (vw_slots _ _ _ _ _ Hwf ep s Hs) as Hi.
  pose proof (vw_addrs _ _ _ _ _ Hwf (address ep)) as Ha.
  assert (0 <= msum (at_address (address ep)) (delete ep v)) as Hp.
  { apply msum_nonneg. intros. unfold at_address, b2z. case_match; lia. }
  rewrite (msum_delete _ v ep s) in Hp by done.
  assert (at_address (address ep) s = 1) as Has.
  { unfold at_address. by rewrite (si_remote _ _ _ Hi), bool_decide_true. }
  apply elem_of_multiplicity. lia.
Qed.

Lemma view_wf_fixed fx' :
  (∀ ep, is_Some (fx !! ep) → is_Some (fx' !! ep)) → view_wf fx' v ca ks co.
Proof.
  intros Hf. destruct Hwf as [H1 H2 H3 H4 H5]. split; try done.
  intros ep s Hs. destruct (H1 ep s Hs). split; auto.
Qed.
End view_changes.

(** The aggregates are a function of the table. *)
Lemma view_wf_det fx fx' v ca ca' ks ks' co co' :
  view_wf fx v ca ks co → view_wf fx' v ca' ks' co' →
  ca = ca' ∧ ks = ks' ∧ (∀ k, get k co = get k co').
Proof.
  intros Hv Hv'. split_and!.
  - apply gmultiset_eq. intros a.
    pose proof (vw_addrs _ _ _ _ _ Hv a). pose proof (vw_addrs _ _ _ _ _ Hv' a). lia.
  - apply set_eq. intros key. by rewrite (vw_keys _ _ _ _ _ Hv), (vw_keys _ _ _ _ _ Hv').
  - intros k. by rewrite (vw_counts _ _ _ _ _ Hv), (vw_counts _ _ _ _ _ Hv').
Qed.

(** ** Frame lemmas: one part of the state changes *)

Section frames.
Context {S : Type} `{!Store S} `{!RandomShuffle}.
Implicit Types (st : Logic S).

Ltac frame := intros;
  match goal with st : Logic _ |- _ => destruct st end; simpl in *;
  match goal with H : logic_wf _ _ |- _ => destruct H; split; simpl in *; auto end.

Lemma logic_wf_with_stopping b st t : logic_wf st t → logic_wf (with_stopping b st) t.
Proof. frame. Qed.
Lemma logic_wf_with_fetchSource s st t : logic_wf st t → logic_wf (with_fetchSource s st) t.
Proof. frame. Qed.
Lemma logic_wf_with_sources s st t : logic_wf st t → logic_wf (with_sources s st) t.
Proof. frame. Qed.
Lemma logic_wf_with_whenBroadcast w st t :
  logic_wf st t → logic_wf (with_whenBroadcast w st) t.
Proof. frame. Qed.
Lemma logic_wf_with_bootcache bc st t :
  bimap_wf (m_map bc) → logic_wf st t → logic_wf (with_bootcache bc st) t.
Proof. frame. Qed.
Lemma logic_wf_with_livecache lc st t :
  live_wf lc t → logic_wf st t → logic_wf (with_livecache lc st) t.
Proof. frame. Qed.
Lemma logic_wf_with_squelches sq st t :
  aged_wf sq t → logic_wf st t → logic_wf (with_squelches sq st) t.
Proof. frame. Qed.
Lemma logic_wf_with_fixed fx st t :
  (∀ ep, is_Some (fixed_ st !! ep) → is_Some (fx !! ep)) →
  logic_wf st t → logic_wf (with_fixed fx st) t.
Proof. frame. by eapply view_wf_fixed. Qed.
Lemma logic_wf_with_config c co st t :
  (∀ k, get k co = get k (counts_ st)) → logic_wf st t → logic_wf (with_config c co st) t.
Proof.
  intros Hk ?. frame. destruct lf_view0 as [? Hc ???]. split; try done.
  intros k. rewrite Hk. apply Hc.
Qed.
Lemma logic_wf_with_heap h st t :
  core <$> h = core <$> lheap st → heap_wf t h → logic_wf st t → logic_wf (with_heap h st) t.
Proof.
  frame; [by eapply ptr_ok_core|]. eapply view_wf_core; [|done]. by apply view_core.
Qed.

(** Volatile fields of one slot change. *)
Lemma logic_wf_put_slot p s s' st t :
  lheap st !! p = Some s → core s' = core s → aged_wf (recent s') t →
  logic_wf st t → logic_wf (put_slot p s' st) t.
Proof.
  intros Hs Hc Ha Hwf. apply logic_wf_with_heap; [| |done].
  - rewrite fmap_insert, Hc. apply insert_id. by rewrite lookup_fmap, Hs.
  - intros q x. rewrite lookup_insert_Some. intros [[_ <-]|[_ ?]]; [done|].
    by eapply (lf_heap _ _ Hwf).
Qed.

(** [p] is the pointer the table has for its slot, [s]. *)
Definition registered p (s : SlotImp) st : Prop :=
  lheap st !! p = Some s ∧ slots_ st !! m_remote_endpoint s = Some p.

Lemma registered_view p s st :
  registered p s st → view (slots_ st) (lheap st) !! m_remote_endpoint s = Some s.
Proof. intros [Hs Hp]. apply lookup_view. eauto. Qed.

Lemma assert_in_table_ok p s st : registered p s st → assert_in_table s st = Ok tt.
Proof. intros [_ Hp]. unfold assert_in_table. by rewrite Hp. Qed.

Lemma get_slot_ok p s st : lheap st !! p = Some s → get_slot p st = Ok s.
Proof. unfold get_slot. by intros ->. Qed.

Lemma registered_inv p s st t :
  logic_wf st t → registered p s st → slot_inv (fixed_ st) (m_remote_endpoint s) s.
Proof. intros Hwf Hr. eapply vw_slots; [apply Hwf|]. by eapply registered_view. Qed.

(** The slot of a registered pointer is replaced, the counters and keys adjusted. *)
Lemma logic_wf_replace p s s' co' ks' st t :
  logic_wf st t → registered p s st →
  slot_inv (fixed_ st) (m_remote_endpoint s) s' → aged_wf (recent s') t →
  counts_ok (fun k => msum (contrib k) (view (slots_ st) (lheap st))
                      - contrib k s + contrib k s') co' →
  (m_public_key s' = m_public_key s ∧ ks' = keys_ st
   ∨ ∃ key, m_public_key s = None ∧ m_public_key s' = Some key ∧ key ∉ keys_ st
            ∧ ks' = {[key]} ∪ keys_ st) →
  logic_wf (with_slots (slots_ st) (connectedAddresses_ st) ks'
              (with_counts co' (put_slot p s' st))) t.
Proof.
  intros Hwf Hr Hi Ha Hc Hk. pose proof (registered_view _ _ _ Hr) as Hv.
  pose proof Hr as [Hs Hp]. pose proof (vw_slots _ _ _ _ _ (lf_view _ _ Hwf) _ _ Hv).
  destruct Hwf as [Hptr Hview Hl Hb Hq Hh]. destruct st; simpl in *. split; simpl; try done.
  - intros ep q Hq'. destruct (Hptr ep q Hq') as (x&Hx&Hrx). rewrite lookup_insert.
    case_decide; [|by eauto]. subst. exists s'. split; [done|].
    rewrite Hs in Hx. injection Hx as <-. apply Hi.
  - erewrite view_put by done. by eapply view_wf_update.
  - intros q x. rewrite lookup_insert_Some. intros [[_ <-]|[_ ?]]; [done|]. by eapply Hh.
Qed.
End frames.
