(* ===== verification/PFSafety.v ===== *)
(** * Every operation of the peer finder is safe

    Under its contract each member function of [PeerFinder::Logic] returns, that is, no
    assertion fails and nothing undefined is reached, and keeps the invariant [logic_wf].
    The operations are collected in a step relation whose reachable states all satisfy
    the invariant. *)

From S2P Require Import Prelude IPAddr Aged Slot Counts Bootcache Livecache Handouts.
From S2P Require Import PFLogic PFInv.
From stdpp Require Import gmultiset strings relations.
From Stdlib Require Import SpecFloat.

Local Open Scope Z_scope.

Section safety.
Context {S : Type} `{!Store S} `{!RandomShuffle}.
Implicit Types (st : Logic S) (p : slot_ptr) (now t : Z).

(** ** Table operations *)

Lemma is_fixed_endpoint_spec ep st : is_fixed_endpoint ep st = true ↔ is_Some (fixed_ st !! ep).
Proof.
  unfold is_fixed_endpoint. rewrite existsb_exists. setoid_rewrite <-list_elem_of_In. split.
  - intros ([e f]&He%elem_of_entries&Heq%ep_eqb_eq). simpl in Heq. subst. by eauto.
  - intros [f Hf]. exists (ep, f). split; [by apply elem_of_entries|by apply ep_eqb_eq].
Qed.

Lemma emplace_slot_ok s st t :
  logic_wf st t → slots_ st !! m_remote_endpoint s = None →
  slot_inv (fixed_ st) (m_remote_endpoint s) s → m_public_key s = None →
  aged_wf (recent s) t →
  ∃ st', emplace_slot s st = Ok (ptr_fresh st, st') ∧ logic_wf st' t
    ∧ registered (ptr_fresh st) s st'.
Proof.
  intros Hwf Hn Hi Hk Ha. unfold emplace_slot. rewrite Hn. simpl.
  assert (lheap st !! ptr_fresh st = None) as Hfr.
  { apply not_elem_of_dom. apply is_fresh. }
  destruct (adjust_ok s 1 _ _ (si_dir _ _ _ Hi) (vw_counts _ _ _ _ _ (lf_view _ _ Hwf)))
    as (co&Hco&Hc&_). unfold add_counts, counts_add.
  generalize (ptr_fresh st) Hfr. intros q Hq.
  destruct Hwf as [Hptr Hview Hl Hb Hs Hh]. destruct st; simpl in *. rewrite Hco. simpl.
  eexists. split; [done|]. split.
  - split; simpl; try done.
    + intros ep x. rewrite lookup_insert_Some. intros [[<- <-]|[? Hx]].
      * exists s. by rewrite lookup_insert_eq.
      * destruct (Hptr _ _ Hx) as (y&Hy&?). exists y. rewrite lookup_insert_ne; [done|congruence].
    + rewrite view_add by done. eapply view_wf_add; [done| |done|done|].
      * apply eq_None_not_Some. intros [y (?&?&?)%lookup_view]. congruence.
      * intros k. rewrite Hc. f_equal. lia.
    + intros x y. rewrite lookup_insert_Some. intros [[_ <-]|[_ ?]]; [done|]. by eapply Hh.
  - split; simpl; by rewrite lookup_insert_eq.
Qed.

Lemma remove_ok p s st t :
  logic_wf st t → registered p s st →
  ∃ co ks, PFLogic.remove p st = Ok (with_counts co
      (with_slots (delete (m_remote_endpoint s) (slots_ st))
         (connectedAddresses_ st ∖ {[+ address (m_remote_endpoint s) +]}) ks st))
    ∧ logic_wf (with_counts co
      (with_slots (delete (m_remote_endpoint s) (slots_ st))
         (connectedAddresses_ st ∖ {[+ address (m_remote_endpoint s) +]}) ks st)) t.
Proof.
  intros Hwf Hr. pose proof (registered_view _ _ _ Hr) as Hv.
  pose proof (registered_inv _ _ _ _ Hwf Hr) as Hi. pose proof Hr as [Hs Hp].
  destruct (adjust_ok s (-1) _ _ (si_dir _ _ _ Hi) (vw_counts _ _ _ _ _ (lf_view _ _ Hwf)))
    as (co&Hco&Hc&_).
  exists co, (match m_public_key s with None => keys_ st | Some key => keys_ st ∖ {[key]} end).
  split.
  - unfold PFLogic.remove. rewrite (get_slot_ok _ s) by done. simpl. rewrite (assert_in_table_ok p) by done. simpl.
    pose proof (view_wf_addr_elem _ _ _ _ _ (lf_view _ _ Hwf) _ _ Hv) as Hin.
    rewrite (bool_decide_true (_ ∈ _)) by done.
    assert (∀ key, m_public_key s = Some key → key ∈ keys_ st) as Hkey.
    { intros key Hk. apply (vw_keys _ _ _ _ _ (lf_view _ _ Hwf)). eauto. }
    destruct (m_public_key s) as [key|].
    + rewrite bool_decide_true by auto. simpl. unfold remove_counts, counts_remove.
      destruct st; simpl in *. by rewrite Hco.
    + simpl. unfold remove_counts, counts_remove. destruct st; simpl in *. by rewrite Hco.
  - destruct Hwf as [Hptr Hview Hl Hb Hq Hh]. destruct st; simpl in *. split; simpl; try done.
    + intros ep x [? Hx]%lookup_delete_Some. eauto.
    + rewrite view_delete. eapply view_wf_delete; [done|done|].
      intros k. rewrite Hc. apply f_equal. lia.
Qed.

Lemma new_inbound_ok l r st t :
  logic_wf st t → slots_ st !! r = None →
  ∃ o st', new_inbound_slot l r st = Ok (o, st') ∧ logic_wf st' t
    ∧ match o with
      | None => is_public r = true ∧ st' = st
          ∧ u64 (ipLimit (config_ st))
            < Z.of_nat (multiplicity (address r) (connectedAddresses_ st))
      | Some p => registered p (SlotImp_inbound l r (is_fixed_address (address r) st)) st'
          ∧ (is_public r = true →
             Z.of_nat (multiplicity (address r) (connectedAddresses_ st))
             <= u64 (ipLimit (config_ st)))
      end.
Proof.
  intros Hwf Hn. unfold new_inbound_slot. destruct (_ && _) eqn:Hl.
  - apply andb_true_iff in Hl as [? ?%Z.ltb_lt]. by exists None, st.
  - destruct (emplace_slot_ok (SlotImp_inbound l r (is_fixed_address (address r) st)) st t)
      as (st'&->&?&?); try done; [|by apply aged_wf_empty|].
    + split; simpl; try done.
    + simpl. exists (Some (ptr_fresh st)), st'. split_and!; try done.
      intros Hpub. rewrite Hpub in Hl. by apply Z.ltb_ge in Hl.
Qed.

Lemma new_outbound_ok r st t :
  logic_wf st t →
  ∃ o st', new_outbound_slot r st = Ok (o, st') ∧ logic_wf st' t
    ∧ match o with
      | None => is_Some (slots_ st !! r) ∧ st' = st
      | Some p => slots_ st !! r = None
          ∧ registered p (SlotImp_outbound r (is_fixed_endpoint r st)) st'
      end.
Proof.
  intros Hwf. unfold new_outbound_slot. destruct (slots_ st !! r) as [q|] eqn:Hn.
  - by exists None, st.
  - destruct (emplace_slot_ok (SlotImp_outbound r (is_fixed_endpoint r st)) st t)
      as (st'&->&?&?); try done; [|by apply aged_wf_empty|].
    + split; simpl; try done.
      intros Hf _. by apply is_fixed_endpoint_spec.
    + simpl. by exists (Some (ptr_fresh st)), st'.
Qed.

(** The remote endpoint of a connected slot answers for the connection to ourselves. *)
Definition self_connection_known p (s : SlotImp) (local : IPEndpoint) st : Prop :=
  ∀ q other, slots_ st !! local = Some q → q ≠ p → lheap st !! q = Some other →
    m_local_endpoint other = Some (m_remote_endpoint s).

Lemma onConnected_ok p s local st t :
  logic_wf st t → registered p s st → m_state s = connect →
  self_connection_known p s local st →
  ∃ b st', onConnected p local st = Ok (b, st') ∧ logic_wf st' t
    ∧ (b = true ↔ slots_ st !! local = None)
    ∧ registered p (if b : bool
                    then set_state_when connected (whenAcceptEndpoints s)
                           (set_local_endpoint local s)
                    else set_local_endpoint local s) st'.
Proof.
  intros Hwf Hr Hst Hself. pose proof Hr as [Hs Hp].
  pose proof (registered_inv _ _ _ _ Hwf Hr) as Hi.
  unfold onConnected. rewrite (get_slot_ok _ s) by done. simpl.
  rewrite (assert_in_table_ok p) by done. simpl.
  set (s1 := set_local_endpoint local s).
  assert (logic_wf (put_slot p s1 st) t) as Hwf1.
  { eapply logic_wf_put_slot; [done|apply core_set_local_endpoint| |done].
    pose proof (lf_heap _ _ Hwf _ _ Hs). by destruct s. }
  assert (m_remote_endpoint s1 = m_remote_endpoint s) as Hrem by (by destruct s).
  assert (registered p s1 (put_slot p s1 st)) as Hr1.
  { destruct st; simpl in *. split; simpl; [by rewrite lookup_insert_eq|]. by rewrite Hrem. }
  assert (slots_ (put_slot p s1 st) = slots_ st) as Hsl by (by destruct st). rewrite Hsl.
  destruct (slots_ st !! local) as [q|] eqn:Hq.
  - destruct (lf_ptr _ _ Hwf1 local q) as (o&Ho&Hro); [by rewrite Hsl|].
    rewrite (get_slot_ok _ o) by done. simpl. rewrite bool_decide_true.
    + simpl. exists false, (put_slot p s1 st). by split_and!.
    + rewrite Hrem. destruct (decide (q = p)) as [->|Hne].
      * pose proof Hr1 as [Ho1 _]. rewrite Ho in Ho1. injection Ho1 as ->.
        rewrite <-Hrem, Hro. by destruct s.
      * eapply Hself; [done|done|]. destruct st; simpl in *. by rewrite lookup_insert_ne in Ho.
  - set (s2 := set_state_when connected (whenAcceptEndpoints s) s1).
    assert (slot_state connected s1 = Ok s2) as Hs2.
    { unfold slot_state. pose proof (si_dir _ _ _ Hi) as Hd. unfold slot_dir_ok in Hd.
      destruct s; simpl in *; subst. by destruct m_inbound. }
    pose proof (registered_inv _ _ _ _ Hwf1 Hr1) as Hi1.
    assert (slot_inv (fixed_ (put_slot p s1 st)) (m_remote_endpoint s1) s2) as Hi2.
    { destruct Hi1 as [Hr0 Hd0 Hk0 Hc0 Hf0 Hcl0]. destruct s as [????? ????????].
      simpl in Hst, Hr0, Hd0, Hk0, Hc0, Hf0, Hcl0. subst. split; simpl; try done.
      - split; [intros Hk|done]. apply Hk0 in Hk. done.
      - intros Hk. apply Hc0 in Hk. done. }
    destruct (recount_ok s1 s2 _ _ (si_dir _ _ _ Hi1) (si_dir _ _ _ Hi2)
      (vw_counts _ _ _ _ _ (lf_view _ _ Hwf1))) as (co1&co2&Hc1&Hc2&Hc&_).
    exists true. unfold remove_counts. rewrite Hc1. simpl. rewrite Hs2. simpl.
    unfold add_counts.
    assert (counts_ (put_slot p s2 (with_counts co1 (put_slot p s1 st))) = co1) as ->
      by (by destruct st).
    rewrite Hc2. simpl. eexists. split; [done|].
    replace (with_counts co2 (put_slot p s2 (with_counts co1 (put_slot p s1 st))))
      with (with_slots (slots_ (put_slot p s1 st)) (connectedAddresses_ (put_slot p s1 st))
              (keys_ (put_slot p s1 st)) (with_counts co2 (put_slot p s2 (put_slot p s1 st))))
      by (by destruct st).
    split_and!; [|done|].
    + eapply logic_wf_replace; [done|done|done| |done|left; by destruct s].
      pose proof (lf_heap _ _ Hwf _ _ Hs). by destruct s.
    + destruct st; simpl in *. split; simpl; [by rewrite lookup_insert_eq|]. by destruct s.
Qed.

(** ** Handshake *)

Definition keyed (key : PublicKey) (cluster : bool) (s : SlotImp) : SlotImp :=
  set_cluster cluster (set_public_key key s).

Lemma boot_on_success_ok ep now (b : Bootcache S) :
  bimap_wf (m_map b) → has_room ep b →
  ∃ b', boot_on_success ep now b = Ok b' ∧ bimap_wf (m_map b').
Proof.
  intros Hb Hr. unfold boot_on_success. edestruct (revalue_ok ep) as (b'&Hb'&_); [done..|].
  exists b'. split; [exact Hb'|]. by eapply bimap_wf_revalue.
Qed.

Lemma boot_on_failure_ok ep now (b : Bootcache S) :
  bimap_wf (m_map b) → has_room ep b →
  ∃ b', boot_on_failure ep now b = Ok b' ∧ bimap_wf (m_map b').
Proof.
  intros Hb Hr. unfold boot_on_failure. edestruct (revalue_ok ep) as (b'&Hb'&_); [done..|].
  exists b'. split; [exact Hb'|]. by eapply bimap_wf_revalue.
Qed.

(** The slot after a handshake satisfies the invariant of a slot. *)
Lemma slot_inv_activate fx ep key cluster now s :
  slot_inv fx ep s → slot_inv fx ep (set_state_when active now (keyed key cluster s)).
Proof. intros []. destruct s; simpl in *. split; simpl; try done. Qed.

Lemma dir_ok_keyed key cluster s : slot_dir_ok (keyed key cluster s) = slot_dir_ok s.
Proof. by destruct s. Qed.

Definition ready (s : SlotImp) : Prop := m_state s = accept ∨ m_state s = connected.

Lemma ready_no_key fx ep s : slot_inv fx ep s → ready s → m_public_key s = None.
Proof.
  intros Hi Hr. apply eq_None_not_Some. intros Hk%(si_key _ _ _ Hi).
  destruct Hr as [Hr|Hr]; congruence.
Qed.

(** Is there a slot for the peer: fixed slots always have one. *)
Definition slot_free (s : SlotImp) st : bool :=
  m_fixed s || (if m_inbound s then c_in_active (counts_ st) <? c_in_max (counts_ st)
                else c_out_active (counts_ st) <? c_out_max (counts_ st)).

Lemma can_activate_ok fx ep s st :
  slot_inv fx ep s → ready s → can_activate s (counts_ st) = Ok (slot_free s st).
Proof.
  intros Hi Hr. unfold can_activate, slot_free.
  assert (m_cluster s = false) as ->.
  { destruct (m_cluster s) eqn:E; [|done]. apply (si_cluster _ _ _ Hi) in E.
    destruct Hr; congruence. }
  rewrite orb_false_r. destruct Hr as [Hr|Hr]; rewrite Hr; simpl; by destruct (m_fixed s).
Qed.

(** The recounting of a handshake: out with the slot, in with its key, out, in again. *)
Lemma activate_recount key cluster now s co total :
  slot_dir_ok s = true → counts_ok total co →
  ∃ co1 co2 co3 co4,
    counts_remove s co = Ok co1 ∧ counts_add (keyed key cluster s) co1 = Ok co2
    ∧ counts_remove (keyed key cluster s) co2 = Ok co3
    ∧ counts_add (set_state_when active now (keyed key cluster s)) co3 = Ok co4
    ∧ counts_ok (fun k => total k - contrib k s
                   + contrib k (set_state_when active now (keyed key cluster s))) co4.
Proof.
  intros Hd Hc.
  destruct (recount_ok s (keyed key cluster s) co total) as (co1&co2&H1&H2&Hc2&_);
    [done|by rewrite dir_ok_keyed|done|].
  edestruct (recount_ok (keyed key cluster s)
    (set_state_when active now (keyed key cluster s)) co2) as (co3&co4&H3&H4&Hc4&_);
    [by rewrite dir_ok_keyed|by destruct s|done|].
  exists co1, co2, co3, co4. split_and!; [done..|]. intros k. rewrite Hc4. f_equal. lia.
Qed.

Lemma note_success_ok p s now st t :
  logic_wf st t → registered p s st →
  (m_inbound s = false → has_room (m_remote_endpoint s) (bootcache_ st)) →
  ∃ st', note_success s now st = Ok st' ∧ logic_wf st' t ∧ registered p s st'
    ∧ keys_ st' = keys_ st.
Proof.
  intros Hwf Hr Hroom. pose proof (registered_inv _ _ _ _ Hwf Hr) as Hi.
  unfold note_success. destruct (m_inbound s) eqn:Hin; simpl.
  { rewrite andb_false_r. by exists st. }
  destruct (boot_on_success_ok (m_remote_endpoint s) now (bootcache_ st))
    as (b'&->&Hb'); [apply Hwf|auto|]. simpl. rewrite andb_true_r.
  pose proof (logic_wf_with_bootcache _ _ _ Hb' Hwf) as Hwf'.
  destruct (m_fixed s) eqn:Hf; [|eexists; split_and!; [done|done|by destruct st|by destruct st]].
  destruct (si_fixed _ _ _ Hi Hf Hin) as [f Hfx].
  assert (fixed_ (with_bootcache b' st) = fixed_ st) as -> by (by destruct st).
  rewrite Hfx. eexists. split; [done|]. split_and!; [|by destruct st..].
  apply logic_wf_with_fixed; [|done]. intros ep He.
  destruct st; simpl in *. rewrite lookup_insert. case_decide; by eauto.
Qed.

Lemma activate_ok p s key cluster now st t :
  logic_wf st t → registered p s st → ready s →
  (m_inbound s = false → has_room (m_remote_endpoint s) (bootcache_ st)) →
  ∃ r st', activate p key cluster now st = Ok (r, st') ∧ logic_wf st' t
    ∧ r = (if decide (key ∈ keys_ st) then duplicate
           else if slot_free s st then success else full)
    ∧ registered p (if decide (r = success)
                    then set_state_when active now (keyed key cluster s) else s) st'
    ∧ keys_ st' = (if decide (r = success) then {[key]} ∪ keys_ st else keys_ st).
Proof.
  intros Hwf Hr Hrd Hroom. pose proof Hr as [Hs Hp].
  pose proof (registered_inv _ _ _ _ Hwf Hr) as Hi.
  unfold activate. rewrite (get_slot_ok _ s) by done. simpl.
  rewrite (assert_in_table_ok p) by done. simpl.
  assert (bool_decide (m_state s = accept) || bool_decide (m_state s = connected) = true) as ->.
  { destruct Hrd as [E|E]; by rewrite E. }
  simpl. destruct (decide (key ∈ keys_ st)) as [Hk|Hk].
  { exists duplicate, st. by split_and!. }
  rewrite (can_activate_ok _ _ _ _ Hi Hrd). simpl. destruct (slot_free s st) eqn:Hfree; simpl.
  2:{ destruct (m_inbound s) eqn:Hin; simpl; [exists full, st; by split_and!|].
      destruct (boot_on_success_ok (m_remote_endpoint s) now (bootcache_ st))
        as (b'&->&Hb'); [apply Hwf|auto|]. simpl.
      exists full, (with_bootcache b' st). split_and!; [done| |done| |by destruct st].
      - by apply logic_wf_with_bootcache.
      - by destruct st. }
  destruct (activate_recount key cluster now s _ _ (si_dir _ _ _ Hi)
    (vw_counts _ _ _ _ _ (lf_view _ _ Hwf))) as (co1&co2&co3&co4&H1&H2&H3&H4&Hc).
  fold (keyed key cluster s). set (s1 := keyed key cluster s) in *.
  set (s2 := set_state_when active now s1) in *.
  set (st1 := with_slots (slots_ st) (connectedAddresses_ st) ({[key]} ∪ keys_ st)
                (with_counts co4 (put_slot p s2 st))).
  assert (logic_wf st1 t) as Hwf1.
  { eapply logic_wf_replace; [done|done| | |done|].
    - by apply slot_inv_activate.
    - pose proof (lf_heap _ _ Hwf _ _ Hs). by destruct s.
    - right. exists key. split_and!; [by eapply ready_no_key|by destruct s|done|done]. }
  assert (slot_activate now s1 = Ok s2) as Ha.
  { unfold slot_activate. destruct s, Hrd; simpl in *; by subst. }
  assert (registered p s2 st1) as Hr1.
  { unfold st1. destruct st; simpl in *. split; simpl; [by rewrite lookup_insert_eq|].
    by destruct s. }
  assert (m_remote_endpoint s2 = m_remote_endpoint s) as Hrem by (by destruct s).
  assert (m_inbound s2 = m_inbound s) as Hinb by (by destruct s).
  assert (m_fixed s2 = m_fixed s) as Hfix by (by destruct s).
  destruct (note_success_ok p s2 now st1 t) as (st'&Hn&Hwf'&Hreg'&Hk'); [done|done| |].
  { rewrite Hinb, Hrem. unfold st1. by destruct st. }
  exists success, st'. split.
  { clear -H1 H2 H3 H4 Ha Hn. unfold remove_counts, add_counts, st1 in *.
    destruct st; simpl in *. rewrite H1. simpl. rewrite H2. simpl. rewrite H3. simpl.
    rewrite Ha. simpl. rewrite H4. simpl. by rewrite insert_insert_eq, Hn. }
  rewrite !decide_True by done. split_and!; [done..|]. rewrite Hk'. unfold st1. by destruct st.
Qed.

(** ** Closing, failures, connectivity checks *)

Lemma on_failure_ok p s now st t :
  logic_wf st t → lheap st !! p = Some s → has_room (m_remote_endpoint s) (bootcache_ st) →
  ∃ st', on_failure p now st = Ok st' ∧ logic_wf st' t.
Proof.
  intros Hwf Hs Hroom. unfold on_failure. rewrite (get_slot_ok _ s) by done. simpl.
  destruct (boot_on_failure_ok (m_remote_endpoint s) now (bootcache_ st))
    as (b'&->&Hb'); [apply Hwf|done|]. simpl. eexists. split; [done|].
  by apply logic_wf_with_bootcache.
Qed.

Lemma on_closed_ok p s now st t :
  logic_wf st t → registered p s st →
  (m_inbound s = false → m_state s ≠ active → has_room (m_remote_endpoint s) (bootcache_ st)) →
  ∃ st', on_closed p now st = Ok st' ∧ logic_wf st' t
    ∧ slots_ st' = delete (m_remote_endpoint s) (slots_ st) ∧ lheap st' = lheap st.
Proof.
  intros Hwf Hr Hroom. pose proof (registered_inv _ _ _ _ Hwf Hr) as Hi. pose proof Hr as [Hs _].
  destruct (remove_ok _ _ _ _ Hwf Hr) as (co&ks&Hrm&Hwf1). unfold on_closed. rewrite Hrm.
  simpl. set (st1 := with_counts co _) in *.
  assert (get_slot p st1 = Ok s) as ->
    by (apply get_slot_ok; unfold st1; by destruct st).
  assert (fixed_ st1 = fixed_ st) as Hfx by (unfold st1; by destruct st).
  assert (bootcache_ st1 = bootcache_ st) as Hbc by (unfold st1; by destruct st).
  assert (slots_ st1 = delete (m_remote_endpoint s) (slots_ st)) as Hsl
    by (unfold st1; by destruct st).
  assert (lheap st1 = lheap st) as Hh by (unfold st1; by destruct st).
  clearbody st1. simpl.
  assert (∃ st2, (if m_fixed s && negb (m_inbound s) && negb (bool_decide (m_state s = active))
    then match fixed_ st1 !! m_remote_endpoint s with
         | None => Err assert_failed
         | Some f => Ok (with_fixed (<[m_remote_endpoint s := fixed_failure now f]>
                                       (fixed_ st1)) st1)
         end else Ok st1) = Ok st2 ∧ logic_wf st2 t ∧ bootcache_ st2 = bootcache_ st1
           ∧ slots_ st2 = slots_ st1 ∧ lheap st2 = lheap st1) as (st2&->&Hwf2&Hbc2&Hsl2&Hh2).
  { destruct (m_fixed s) eqn:Hf, (m_inbound s) eqn:Hin; simpl; [by exists st1| |by exists st1..].
    case_bool_decide; simpl; [by exists st1|].
    destruct (si_fixed _ _ _ Hi Hf Hin) as [f Hf']. rewrite Hfx, Hf'. eexists.
    split_and!; [done| |by destruct st1..]. apply logic_wf_with_fixed; [|done].
    intros ep He. rewrite Hfx in He. rewrite lookup_insert. case_decide; by eauto. }
  simpl. pose proof (si_dir _ _ _ Hi) as Hd. unfold slot_dir_ok in Hd.
  destruct (m_state s) eqn:Hst; try (by exists st2; rewrite Hsl2, Hh2).
  all: destruct (m_inbound s); [done|].
  all: destruct (boot_on_failure_ok (m_remote_endpoint s) now (bootcache_ st2))
    as (b'&->&Hb'); [apply Hwf2|rewrite Hbc2, Hbc; by apply Hroom|]; simpl.
  all: eexists; split_and!; [done|by apply logic_wf_with_bootcache|..].
  all: rewrite <-?Hsl, <-?Hh, <-?Hsl2, <-?Hh2; by destruct st2.
Qed.

Lemma checkComplete_ok remote checked_ ec now st t :
  logic_wf st t → has_room checked_ (bootcache_ st) →
  ∃ st', checkComplete remote checked_ ec now st = Ok st' ∧ logic_wf st' t.
Proof.
  intros Hwf Hroom. unfold checkComplete. destruct ec; [|by eauto|].
  all: destruct (slots_ st !! remote) as [p|] eqn:Hp; [|by eauto].
  all: destruct (lf_ptr _ _ Hwf _ _ Hp) as (s&Hs&Hrs); rewrite (get_slot_ok _ s) by done; simpl.
  all: pose proof (lf_heap _ _ Hwf _ _ Hs) as Ha.
  - eexists. split; [done|]. eapply logic_wf_put_slot; [done| | |done].
    + by rewrite core_set_listening_port, core_set_check.
    + by destruct s.
  - set (st1 := put_slot p _ st).
    assert (logic_wf st1 t) as Hwf1.
    { eapply logic_wf_put_slot; [done|apply core_set_check|by destruct s|done]. }
    destruct (boot_on_failure_ok checked_ now (bootcache_ st1)) as (b'&->&Hb');
      [apply Hwf1|unfold st1; by destruct st|].
    simpl. eexists. split; [done|]. by apply logic_wf_with_bootcache.
Qed.

(** ** Configuration, fixed peers, sources *)

Lemma get_set_maxes k i o c : get k (set_maxes i o c) = get k c.
Proof. destruct c. by destruct k. Qed.

Lemma set_config_ok c st t :
  logic_wf st t → (wantIncoming c = true → is_ok (d_floor (outPeers c)) = true) →
  ∃ st', set_config c st = Ok st' ∧ logic_wf st' t.
Proof.
  intros Hwf Hc. unfold set_config, onConfig. destruct (wantIncoming c).
  - destruct (d_floor (outPeers c)) as [z|]; [|by discriminate Hc]. simpl.
    eexists. split; [done|]. apply logic_wf_with_config; [|done].
    intros. apply get_set_maxes.
  - simpl. eexists. split; [done|]. apply logic_wf_with_config; [|done].
    intros. apply get_set_maxes.
Qed.

Lemma addFixedPeer_ok eps now st t :
  logic_wf st t → Forall (fun ep => port ep ≠ 0) eps →
  ∃ st', addFixedPeer eps now st = Ok st' ∧ logic_wf st' t.
Proof.
  intros Hwf. induction eps as [|ep eps IH]; simpl; [by eauto|].
  intros [Hp Heps]%Forall_cons. destruct (Z.eqb_spec (port ep) 0); [done|].
  destruct (fixed_ st !! ep) eqn:E; [by auto|]. eexists. split; [done|].
  apply logic_wf_with_fixed; [|done]. intros e He. rewrite lookup_insert. case_decide; by eauto.
Qed.

Lemma boot_insert_wf ep now st t :
  logic_wf st t → logic_wf (with_bootcache (boot_insert ep now (bootcache_ st)).1 st) t.
Proof.
  intros Hwf. apply logic_wf_with_bootcache; [|done]. apply bimap_wf_boot_insert, Hwf.
Qed.

Lemma onRedirects_wf eps now st t : logic_wf st t → logic_wf (onRedirects eps now st) t.
Proof.
  unfold onRedirects. generalize 0. revert st.
  induction eps as [|ep eps IH]; intros st n Hwf; simpl; [done|].
  case_match; [|done]. by apply IH, boot_insert_wf.
Qed.

Lemma addBootcacheAddresses_wf eps now st t :
  logic_wf st t → logic_wf (addBootcacheAddresses eps now st).2 t.
Proof.
  revert st. induction eps as [|ep eps IH]; intros st Hwf; simpl; [done|].
  pose proof (boot_insert_wf ep now st t Hwf) as Hwf'.
  destruct (boot_insert ep now (bootcache_ st)) as [bc i]. simpl in *.
  specialize (IH _ Hwf'). destruct (addBootcacheAddresses eps now (with_bootcache bc st)).
  done.
Qed.

Lemma fetch_wf src stopped results now st t :
  logic_wf st t → logic_wf (fetch src stopped results now st) t.
Proof.
  intros Hwf. unfold fetch. case_match; [done|].
  set (st1 := if stopped then _ else _).
  assert (logic_wf st1 t) as Hwf1.
  { unfold st1. destruct stopped; [apply logic_wf_with_stopping|];
      by apply logic_wf_with_fetchSource. }
  case_match; [done|]. pose proof (logic_wf_with_fetchSource None _ _ Hwf1).
  destruct results; [by apply addBootcacheAddresses_wf|done].
Qed.

(** ** Handing out endpoints *)

(** The endpoint is an entry of the live cache. *)
Definition in_live st (e : Endpoint) : Prop :=
  aged_find (m_cache (livecache_ st)) (ep_address e) = Some e.

Lemma live_readable lc t :
  live_wf lc t →
  Forall (readable (endpoint_of (m_cache lc))
            (fun e => aged_find (m_cache lc) (ep_address e) = Some e)) (hops_fwd lc).
Proof.
  intros [_ Hh]. apply Forall_lookup. intros i l Hl k Hk.
  apply (hr_lists _ _ Hh i l k Hl) in Hk as (e&He&_).
  destruct (hr_key _ _ Hh _ _ He) as [Hka _]. rewrite lookup_values in He.
  exists e. unfold endpoint_of. rewrite He, Hka. done.
Qed.

Lemma redirect_spec p s seed now st t :
  logic_wf st t → lheap st !! p = Some s →
  ∃ l ls, redirect p seed now st
      = Ok (l, with_livecache (set_lists ls (live_shuffle seed (livecache_ st))) st)
    ∧ Forall2 (≡ₚ) ls (hops_fwd (live_shuffle seed (livecache_ st)))
    ∧ redirect_ok (in_live st) (lheap st) (mkRedirect p l)
    ∧ (redirect_full (mkRedirect p l) = true ∨
       Forall (refuses now (endpoint_of (m_cache (livecache_ st))) (lheap st)
                 (mkRedirect p l)) ls).
Proof.
  intros Hwf Hs. unfold redirect.
  set (lc := live_shuffle seed (livecache_ st)).
  assert (live_wf lc t) as Hlc by apply live_wf_shuffle, Hwf.
  assert (redirect_ok (in_live st) (lheap st) (mkRedirect p [])) as H0.
  { exists s. simpl. split_and!; [done|lia|constructor|constructor]. }
  destruct (handout_ok now (endpoint_of (m_cache lc)) (in_live st) (fun h => h = lheap st)
    (redirect_ok (in_live st)) redirect_room redirect_ext
    (Datatypes.S (total_room redirect_room [mkRedirect p []])) (lheap st)
    [mkRedirect p []] (hops_fwd lc)) as (h&ts&ls&->&->&HJ&_&Hext&Hp&_&_&Hfin).
  - done.
  - by constructor.
  - by eapply live_readable.
  - lia.
  - inversion Hext as [|? t1 ? ts1 [Hsl _] Hnil]; subst. inversion Hnil; subst.
    rewrite Forall_singleton in HJ, Hfin. simpl. exists (r_list t1), ls.
    destruct t1 as [p1 l1]. simpl in Hsl. subst p1. simpl.
    split; [by destruct st|]. by split_and!.
Qed.

(** An entry of the live cache is in one of the hop lists. *)
Lemma live_listed lc t ep :
  live_wf lc t → is_Some (aged_find (m_cache lc) ep) →
  ∃ l, l ∈ hops_fwd lc ∧ ep ∈ l.
Proof.
  intros [_ Hrep] [e He]. assert (values (m_cache lc) !! ep = Some e) as Hv
    by (by rewrite lookup_values). destruct (hr_key _ _ Hrep _ _ Hv) as [_ Hh].
  destruct (lookup_lt_is_Some_2 (hops_fwd lc) (Z.to_nat (hops e))) as [l Hl].
  { unfold hops_fwd. rewrite (hr_len _ _ Hrep). lia. }
  exists l. split; [by eapply list_elem_of_lookup_2|]. apply (hr_lists _ _ Hrep _ _ _ Hl).
  exists e. split; [done|]. lia.
Qed.

(** A target that refuses every element of the lists refuses every entry of the cache. *)
Lemma refuses_live {X Y} `{!Target X Y} now lc t ls ls' (x : X) (y : Y) e :
  live_wf lc t → Forall2 (≡ₚ) ls ls' → hops_fwd lc ⊆ ls' →
  Forall (refuses now (endpoint_of (m_cache lc)) x y) ls →
  aged_find (m_cache lc) (ep_address e) = Some e →
  t_try_insert now e x y = Ok (false, x, y).
Proof.
  intros Hlc Hp Hsub Href He.
  destruct (live_listed lc t (ep_address e) Hlc) as (l&Hl&Hin); [by eexists|].
  apply Hsub, list_elem_of_lookup in Hl as [i Hl].
  destruct (Forall2_lookup_r _ _ _ _ _ Hp Hl) as (l1&Hl1&Hperm). rewrite <-Hperm in Hin.
  apply (Forall_lookup_1 _ _ _ _ Href Hl1 (ep_address e) e Hin).
  unfold endpoint_of. by rewrite He.
Qed.

(** What a redirect leaves out, although it has room, it has a reason to. *)
Lemma redirect_refused now p s l h e :
  h !! p = Some s → (length l < 10)%nat → 1 <= hops e <= 6 →
  redirect_try_insert now e h (mkRedirect p l) = Ok (false, h, mkRedirect p l) →
  address (ep_address e) = address (m_remote_endpoint s)
  ∨ address (ep_address e) ∈ addresses l.
Proof.
  intros Hs Hl Hh Hr. unfold redirect_try_insert in Hr.
  assert (redirect_full (mkRedirect p l) = false) as Hf.
  { unfold redirect_full. apply Z.leb_gt. simpl. unfold Tuning.redirectEndpointCount. lia. }
  rewrite Hf in Hr. destruct (Z.ltb_spec Tuning.maxHops (hops e)) as [?|_].
  { unfold Tuning.maxHops in *. lia. }
  destruct (Z.eqb_spec (hops e) 0); [lia|]. simpl in Hr. rewrite Hs in Hr. simpl in Hr.
  destruct (v4_eqb _ _) eqn:Ha; [left; symmetry; by apply v4_eqb_eq|]. right.
  destruct (has_address _ _) eqn:Hha; [|done].
  destruct (decide (address (ep_address e) ∈ addresses l)) as [|Hn]; [done|].
  apply has_address_false in Hn. congruence.
Qed.

(** ... and so has the message to a peer. *)
Lemma slot_refused now p s l h e :
  h !! p = Some s → (length l < 12)%nat → hops e <= 6 →
  slot_try_insert now e h (mkSlotHandouts p l) = Ok (false, h, mkSlotHandouts p l) →
  recent_filter (ep_address e) (hops e) (recent s) = true
  ∨ address (ep_address e) = address (m_remote_endpoint s)
  ∨ address (ep_address e) ∈ addresses l.
Proof.
  intros Hs Hl Hh Hr. unfold slot_try_insert in Hr.
  assert (slot_full (mkSlotHandouts p l) = false) as Hf.
  { unfold slot_full. apply Z.leb_gt. simpl. unfold Tuning.numberOfEndpoints, Tuning.maxHops. lia. }
  rewrite Hf in Hr. destruct (Z.ltb_spec Tuning.maxHops (hops e)) as [?|_].
  { unfold Tuning.maxHops in *. lia. }
  simpl in Hr. rewrite Hs in Hr. simpl in Hr.
  destruct (recent_filter _ _ _); [by left|right].
  destruct (v4_eqb _ _) eqn:Ha; [left; symmetry; by apply v4_eqb_eq|]. right.
  destruct (has_address _ _) eqn:Hha; [|done].
  destruct (decide (address (ep_address e) ∈ addresses l)) as [|Hn]; [done|].
  apply has_address_false in Hn. congruence.
Qed.

Lemma squelch_slots_ok sl now sq st t :
  logic_wf st t → (∀ ep p, (ep, p) ∈ sl → slots_ st !! ep = Some p) →
  aged_wf sq now →
  ∃ sq', squelch_slots sl now sq st = Ok sq' ∧ aged_wf sq' now
    ∧ ∀ a, is_Some (aged_find sq' a)
           ↔ is_Some (aged_find sq a) ∨ ∃ ep p, (ep, p) ∈ sl ∧ address ep = a.
Proof.
  intros Hwf. revert sq. induction sl as [|[ep p] sl IH]; intros sq Hsl Hsq; simpl.
  { exists sq. split_and!; [done..|]. intros a. split; [by left|].
    by intros [?|(?&?&?%not_elem_of_nil&_)]. }
  destruct (lf_ptr _ _ Hwf ep p) as (s&Hs&Hr); [apply Hsl; by left|].
  rewrite (get_slot_ok _ s) by done. simpl. rewrite Hr.
  pose proof (aged_wf_emplace (address ep) tt now sq now Hsq ltac:(lia)) as Hwe.
  pose proof (find_emplace (address ep) tt now sq) as Hfe.
  pose proof (fun a => find_emplace_ne (address ep) a tt now sq) as Hne.
  destruct (aged_emplace (address ep) tt now sq) as [sq1 ins]. simpl in *.
  set (sq2 := if ins then sq1 else aged_touch (address ep) now sq1).
  assert (∀ a, aged_find sq2 a = aged_find sq1 a) as Hf2.
  { intros a. unfold sq2. destruct ins; [done|]. apply find_touch. }
  destruct (IH sq2) as (sq'&->&?&Hsq').
  - intros ep' p' ?. apply Hsl. by right.
  - unfold sq2. destruct ins; [done|]. eapply aged_wf_touch; [done|lia|].
    apply aged_find_cont. by rewrite Hfe.
  - exists sq'. split_and!; [done..|]. intros a. rewrite Hsq', Hf2.
    setoid_rewrite elem_of_cons. destruct (decide (a = address ep)) as [->|Hn].
    + rewrite Hfe. split; [|by eauto]. intros _. right. exists ep, p. split; [by left|done].
    + rewrite Hne by done. split; [naive_solver|].
      intros [?|(ep'&p'&[[= -> ->]|?]&?)]; [by left|congruence|naive_solver].
Qed.

(** What [autoconnect] may return, by the step that offers it. *)
Definition fixed_candidate now st (ep : IPEndpoint) : Prop :=
  ∃ f, fixed_ st !! ep = Some f ∧ m_when f <= now.
Definition caches_open st : Prop :=
  autoConnect (config_ st) = true ∧ out_active (counts_ st) < out_max (counts_ st).
Definition live_candidate st (ep : IPEndpoint) : Prop :=
  caches_open st ∧ is_Some (aged_find (m_cache (livecache_ st)) ep).
Definition boot_candidate st (ep : IPEndpoint) : Prop :=
  caches_open st ∧ attempts (counts_ st) = 0 ∧ ep ∈ boot_endpoints (bootcache_ st).

Lemma connect_ok_impl (P Q : IPEndpoint → Prop) sq0 sq c :
  (∀ e, P e → Q e) → connect_ok P sq0 sq c → connect_ok Q sq0 sq c.
Proof. intros HPQ (?&Hin&?&?). split_and!; try done. intros e He. naive_solver. Qed.

Lemma connect_ok_nil P sq0 sq N :
  (∀ a, is_Some (aged_find sq0 a) → is_Some (aged_find sq a)) →
  connect_ok P sq0 sq (mkConnect N []).
Proof.
  intros. split_and!; simpl; [constructor| |done|lia]. by intros e ?%not_elem_of_nil.
Qed.

Lemma connect_try_insert_fresh P sq0 now ep sq N c :
  connect_ok P sq0 sq (mkConnect N c) → aged_find sq (address ep) = None →
  Z.of_nat (length c) < N →
  connect_try_insert_ip now ep sq (mkConnect N c)
  = (true, (aged_emplace (address ep) tt now sq).1, mkConnect N (c ++ [ep])).
Proof.
  intros (_&Hin&_) Hn Hl. unfold connect_try_insert_ip, connect_full. simpl.
  rewrite (proj2 (Z.leb_gt _ _)) by done.
  destruct (existsb _ c) eqn:He.
  { apply existsb_exists in He as (o&Ho%list_elem_of_In&Ha%v4_eqb_eq).
    destruct (Hin o Ho) as (_&_&Hs). rewrite Ha, Hn in Hs. by destruct Hs. }
  pose proof (proj2 (emplace_fresh (address ep) tt now sq) Hn) as Hi.
  destruct (aged_emplace (address ep) tt now sq) as [sq' ins]. simpl in *. by rewrite Hi.
Qed.

Lemma get_fixed_loop_ok fx needed c sq0 sq now st N :
  (∀ ep f, (ep, f) ∈ fx → fixed_ st !! ep = Some f) →
  0 <= needed < 2 ^ 64 → needed + Z.of_nat (length c) = N → aged_wf sq now →
  connect_ok (fixed_candidate now st) sq0 sq (mkConnect N c) →
  let '(c', sq') := get_fixed_loop fx needed c sq now st in
  aged_wf sq' now ∧ connect_ok (fixed_candidate now st) sq0 sq' (mkConnect N c').
Proof.
  revert needed c sq.
  induction fx as [|[ep f] fx IH]; intros needed c sq Hfx Hne Hl Hsq Hc; simpl; [done|].
  assert (∀ ep f, (ep, f) ∈ fx → fixed_ st !! ep = Some f) as Hfx'
    by (intros; apply Hfx; by right).
  destruct (Z.eqb_spec needed 0); [done|].
  destruct ((m_when f <=? now) && _ && _) eqn:Hcond; [|by apply IH].
  apply andb_true_iff in Hcond as [[Hw Hs]%andb_true_iff _]. apply Z.leb_le in Hw.
  destruct (aged_find sq (address ep)) eqn:Hn; [done|].
  assert (fixed_candidate now st ep) as Hcand by (exists f; split; [apply Hfx; by left|done]).
  pose proof (connect_try_insert_ok _ _ now _ _ _ Hcand Hsq Hc) as Ht.
  rewrite (connect_try_insert_fresh _ _ _ _ _ _ _ Hc) in Ht by (done || lia).
  destruct Ht as (?&?&_). apply IH; try done.
  - apply u64_range.
  - rewrite length_app, u64_small by lia. simpl. lia.
Qed.

Lemma offer_boot_ok P eps now sq0 sq c :
  Forall P eps → aged_wf sq now → connect_ok P sq0 sq c →
  let '(sq', c') := offer_boot eps now sq c in
  aged_wf sq' now ∧ connect_ok P sq0 sq' c' ∧ m_needed c' = m_needed c.
Proof.
  revert sq c. induction eps as [|ep eps IH]; intros sq c Hp Hsq Hc; simpl; [done|].
  apply Forall_cons in Hp as [Hep Hp]. destruct (connect_full c); [done|].
  pose proof (connect_try_insert_ok _ _ now ep _ _ Hep Hsq Hc) as Ht.
  destruct (connect_try_insert_ip now ep sq c) as [[b sq'] c']. destruct Ht as (?&?&_&[Hm _]&_).
  specialize (IH sq' c'). rewrite <-Hm. by apply IH.
Qed.

Definition connect_candidate now st (ep : IPEndpoint) : Prop :=
  fixed_candidate now st ep ∨ live_candidate st ep ∨ boot_candidate st ep.

(** The outcome of an attempt: the addresses, and the state with the new squelches. *)
Definition connect_result now st (N : Z) (sq0 : Squelches) (c : list IPEndpoint)
    (st' : Logic S) : Prop :=
  logic_wf st' now ∧ connect_ok (connect_candidate now st) sq0 (m_squelches st') (mkConnect N c)
  ∧ slots_ st' = slots_ st ∧ lheap st' = lheap st.

Lemma connect_result_squelches now st N sq0 sq c st1 :
  logic_wf st1 now → aged_wf sq now → slots_ st1 = slots_ st → lheap st1 = lheap st →
  connect_ok (connect_candidate now st) sq0 sq (mkConnect N c) →
  connect_result now st N sq0 c (with_squelches sq st1).
Proof.
  intros Hwf Hsq Hsl Hh Hc. unfold connect_result.
  split; [by apply logic_wf_with_squelches|]. rewrite <-Hsl, <-Hh. by destruct st1.
Qed.

(** An address is refused, with room left, only if it is squelched. *)
Lemma connect_refused now ep sq N sq' (t' : ConnectHandouts) :
  0 < N → connect_try_insert_ip now ep sq (mkConnect N []) = (false, sq', t') →
  is_Some (aged_find sq (address ep)).
Proof.
  intros HN. unfold connect_try_insert_ip, connect_full. simpl.
  rewrite (proj2 (Z.leb_gt _ _)) by done.
  destruct (aged_find sq (address ep)) eqn:Hf; [by eexists|].
  pose proof (proj2 (emplace_fresh (address ep) tt now sq) Hf) as Hi.
  destruct (aged_emplace (address ep) tt now sq) as [? ins]. simpl in Hi. by rewrite Hi.
Qed.

Lemma get_fixed_loop_nil fx needed sq sq' now st :
  needed ≠ 0 → get_fixed_loop fx needed [] sq now st = ([], sq') →
  sq' = sq ∧ ∀ ep f, (ep, f) ∈ fx → m_when f <= now →
    is_Some (aged_find sq (address ep))
    ∨ ∃ ep' p, slots_ st !! ep' = Some p ∧ address ep' = address ep.
Proof.
  intros Hn. assert (∀ fx needed c sq, c ≠ [] →
    (get_fixed_loop fx needed c sq now st).1 ≠ []) as Hgrow.
  { clear. induction fx as [|[ep f] fx IH]; intros needed c sq Hc; simpl; [done|].
    case_match; [done|]. case_match; [|by apply IH]. apply IH. by destruct c. }
  induction fx as [|[ep f] fx IH]; simpl.
  { intros [= <-]. split; [done|]. by intros ?? ?%not_elem_of_nil. }
  destruct (Z.eqb_spec needed 0); [done|]. destruct ((_ && _) && _) eqn:Hcond.
  { intros Heq. exfalso. pose proof (f_equal fst Heq) as H1. simpl in H1. revert H1. by apply Hgrow. }
  intros [-> Hall]%IH. split; [done|]. intros ep' f' [[= -> ->]|Hin]%elem_of_cons Hw; [|by eauto].
  rewrite (proj2 (Z.leb_le _ _) Hw) in Hcond. simpl in Hcond.
  destruct (aged_find sq (address ep)); [left; by eexists|right]. simpl in Hcond.
  apply negb_false_iff, existsb_exists in Hcond as ([ep' p]&Hin%list_elem_of_In&Ha%v4_eqb_eq).
  apply elem_of_entries in Hin. by exists ep', p.
Qed.

Lemma offer_boot_nil eps now sq sq' N (t' : ConnectHandouts) :
  0 < N → offer_boot eps now sq (mkConnect N []) = (sq', t') → c_list t' = [] →
  ∀ ep, ep ∈ eps → is_Some (aged_find sq (address ep)).
Proof.
  intros HN. assert (∀ eps sq (t : ConnectHandouts), c_list t ≠ [] → c_list (offer_boot eps now sq t).2 ≠ []) as Hgrow.
  { clear. induction eps as [|ep eps IH]; intros sq t Hc; simpl; [done|]. case_match; [done|].
    unfold connect_try_insert_ip. repeat case_match; simplify_eq; apply IH; simpl; try done.
    all: by destruct (c_list t). }
  induction eps as [|ep eps IH]; simpl.
  { intros _ _ ep. by intros ?%not_elem_of_nil. }
  unfold connect_full. simpl. rewrite (proj2 (Z.leb_gt _ _)) by done.
  destruct (connect_try_insert_ip now ep sq (mkConnect N [])) as [[[|] sq1] t1] eqn:E.
  { intros Heq Hnil. exfalso. pose proof (f_equal (c_list ∘ snd) Heq) as H1. simpl in H1.
    rewrite Hnil in H1. revert H1. apply Hgrow. unfold connect_try_insert_ip in E.
    repeat case_match; simplify_eq; done. }
  pose proof (connect_refused _ _ _ _ _ _ HN E) as Href.
  assert (sq1 = sq ∧ t1 = mkConnect N []) as [-> ->].
  { unfold connect_try_insert_ip, aged_emplace in E. repeat case_match; by simplify_eq. }
  intros Heq Hnil ep' [->|Hin]%elem_of_cons; [done|]. by apply IH.
Qed.

(** Steps 2 and 3: offering the live cache. *)
Lemma live_handout_ok needed seed now sq st (lc := live_shuffle seed (livecache_ st)) :
  logic_wf st now → aged_wf sq now → caches_open st →
  ∃ sq1 c ls, handout now (endpoint_of (m_cache lc))
      (Datatypes.S (total_room connect_room [mkConnect needed []]))
      sq [mkConnect needed []] (hops_rev lc) = Ok (sq1, [mkConnect needed c], ls)
    ∧ aged_wf sq1 now ∧ connect_ok (live_candidate st) sq sq1 (mkConnect needed c)
    ∧ Forall2 (≡ₚ) ls (hops_rev lc)
    ∧ (0 < needed → c = [] → sq1 = sq ∧
         ∀ ep, live_candidate st ep → is_Some (aged_find sq (address ep))).
Proof.
  intros Hwf Hsq Hopen.
  pose proof (connect_ok_nil (live_candidate st) sq sq needed ltac:(done)) as H0.
  assert (live_wf lc now) as Hlc by apply live_wf_shuffle, Hwf.
  destruct (handout_ok now (endpoint_of (m_cache lc)) (fun e => live_candidate st (ep_address e))
    (fun sq => aged_wf sq now) (connect_ok (live_candidate st) sq) connect_room connect_ext
    (Datatypes.S (total_room connect_room [mkConnect needed []])) sq
    [mkConnect needed []] (hops_rev lc))
    as (sq1&ts&ls&->&Hsq1&HJ&_&Hext&Hp&_&Hsame&Hfin).
  { done. }
  { by constructor. }
  { apply Forall_reverse. eapply Forall_impl; [by eapply live_readable|].
    intros l Hl x Hx. destruct (Hl x Hx) as (e&?&He). exists e. split; [done|].
    split; [done|]. by eexists. }
  { lia. }
  inversion Hext as [|? t1 ? ts1 [Hn _] Hnil]; subst. inversion Hnil; subst.
  rewrite Forall_singleton in HJ, Hfin. destruct t1 as [N c]. simpl in Hn. subst N.
  exists sq1, c, ls. split_and!; try done. intros Hpos ->.
  rewrite Hsame in * by done. split; [done|]. intros ep [_ Hep].
  destruct Hfin as [Hfull|Href]; [unfold t_full in Hfull; simpl in Hfull;
    unfold connect_full in Hfull; simpl in Hfull; apply Z.leb_le in Hfull; lia|].
  destruct Hep as [e He]. destruct (hr_key _ _ (lw_hops _ _ Hlc) ep e) as [Hka _];
    [by rewrite lookup_values|]. subst ep.
  assert (hops_fwd lc ⊆ hops_rev lc) as Hsub by (intros l; apply elem_of_reverse).
  pose proof (refuses_live now lc now ls _ sq _ e Hlc Hp Hsub Href He) as Hr1.
  injection Hr1 as Hr1. by apply (connect_refused _ _ _ _ _ _ Hpos Hr1).
Qed.

Lemma autoconnect_caches_ok needed seed now sq st :
  logic_wf st now → aged_wf sq now →
  ∃ c st', autoconnect_caches needed seed now sq st = Ok (c, st')
    ∧ connect_result now st needed sq c st'
    ∧ (0 < needed → c = [] → ∀ ep, live_candidate st ep ∨ boot_candidate st ep →
         is_Some (aged_find sq (address ep))).
Proof.
  intros Hwf Hsq. unfold autoconnect_caches. destruct (_ || _) eqn:Hclosed.
  { eexists [], _. split; [done|]. split.
    - apply connect_result_squelches; try done. by apply connect_ok_nil.
    - intros _ _ ep Hep. exfalso. assert (caches_open st) as [Ha Ho] by (by destruct Hep as [[]|[]]).
      rewrite Ha in Hclosed. simpl in Hclosed. apply Z.leb_le in Hclosed. lia. }
  assert (caches_open st) as Hopen.
  { apply orb_false_iff in Hclosed as [?%negb_false_iff ?%Z.leb_gt]. done. }
  destruct (live_handout_ok needed seed now sq st Hwf Hsq Hopen)
    as (sq1&c&ls&->&Hsq1&HJ&Hp&Hnil). simpl.
  set (lc := live_shuffle seed (livecache_ st)) in *. set (st1 := with_livecache _ st).
  assert (live_wf lc now) as Hlc by apply live_wf_shuffle, Hwf.
  assert (logic_wf st1 now) as Hwf1.
  { apply logic_wf_with_livecache; [|done]. apply live_wf_set_lists; [done|].
    apply Forall2_reverse in Hp. unfold hops_rev in Hp. by rewrite reverse_involutive in Hp. }
  assert (slots_ st1 = slots_ st ∧ lheap st1 = lheap st ∧ bootcache_ st1 = bootcache_ st
    ∧ counts_ st1 = counts_ st) as (Hs1&Hh1&Hb1&Hc1) by (by destruct st). rewrite Hb1, Hc1.
  pose proof (fun e (He : live_candidate st e) =>
    or_intror (or_introl He) : connect_candidate now st e) as Hlive.
  destruct c as [|ep c].
  2:{ eexists _, _. split; [done|]. split; [|done]. apply connect_result_squelches; try done.
      by eapply connect_ok_impl. }
  destruct (Z.ltb_spec 0 (attempts (counts_ st))) as [Hat|Hat].
  { eexists _, _. split; [done|]. split.
    - apply connect_result_squelches; try done. by eapply connect_ok_impl.
    - intros Hpos _ ep [Hep|(_&Hz&_)]; [by apply Hnil|lia]. }
  pose proof (offer_boot_ok (boot_candidate st) (boot_endpoints (bootcache_ st)) now sq sq1
    (mkConnect needed [])) as Hb.
  destruct (offer_boot _ now sq1 _) as [sq2 [N c]] eqn:Hoffer.
  destruct Hb as (Hsq2&Hc2&Hneed); [|done|by apply connect_ok_nil, HJ|].
  { apply Forall_forall. intros e He. split_and!; [done| |done].
    pose proof (u64_range (c_attempts (counts_ st))). unfold attempts in *. lia. }
  simpl in *. subst N. eexists _, _. split; [done|]. split.
  - apply connect_result_squelches; try done.
    eapply connect_ok_impl; [|done]. intros ??. by right; right.
  - intros Hpos -> ep Hep. destruct (Hnil Hpos eq_refl) as [-> Hl].
    destruct Hep as [Hep|(_&_&Hep)]; [by apply Hl|].
    by eapply offer_boot_nil.
Qed.

(** An address is squelched or belongs to a slot. *)
Definition squelched st (a : AddressV4) : Prop :=
  is_Some (aged_find (m_squelches st) a)
  ∨ ∃ ep p, slots_ st !! ep = Some p ∧ address ep = a.

(** Nothing is left to try: every due fixed peer, while one is not active, is
    squelched; so is every address of the live cache, unless attempts at fixed peers
    are pending; and so is every address of the boot cache, unless attempts are
    pending. *)
Definition fixed_missing st : Prop :=
  fixed_active (counts_ st) < Z.of_nat (size (fixed_ st)).
Definition exhausted now st : Prop :=
  (fixed_missing st → ∀ ep, fixed_candidate now st ep → squelched st (address ep))
  ∧ ((fixed_missing st ∧ 0 < attempts (counts_ st))
     ∨ ∀ ep, live_candidate st ep ∨ boot_candidate st ep → squelched st (address ep)).

(** What an attempt promises. *)
Definition connect_outcome now st (c : list IPEndpoint) st' : Prop :=
  logic_wf st' now
  ∧ Z.of_nat (length c) <= attempts_needed (counts_ st)
  ∧ NoDup (address <$> c)
  ∧ (∀ ep, ep ∈ c → connect_candidate now st ep ∧ ~ squelched st (address ep)
       ∧ is_Some (aged_find (m_squelches st') (address ep)))
  ∧ slots_ st' = slots_ st ∧ lheap st' = lheap st
  ∧ (c = [] → attempts_needed (counts_ st) = 0 ∨ exhausted now st).

(** [sq] is the squelch list after the addresses of the slots were added to it. *)
Lemma connect_result_outcome now st (sq : Squelches) c st' :
  (∀ a, squelched st a → is_Some (aged_find sq a)) →
  0 <= attempts_needed (counts_ st) →
  connect_result now st (attempts_needed (counts_ st)) sq c st' →
  (c = [] → exhausted now st) → connect_outcome now st c st'.
Proof.
  intros Hsq HN (?&(Hnd&Hin&_&Hl)&?&?) Hnil. simpl in *.
  split_and!; try done; [lia| |by right; apply Hnil].
  intros ep (?&Hno&?)%Hin. split_and!; [done| |done].
  intros Hq%Hsq. rewrite Hno in Hq. by destruct Hq.
Qed.

Lemma autoconnect_ok seed now st t :
  logic_wf st t → t <= now →
  ∃ c st', autoconnect seed now st = Ok (c, st') ∧ connect_outcome now st c st'.
Proof.
  intros Hwf0 Ht. pose proof (logic_wf_mono _ _ _ Hwf0 Ht) as Hwf. unfold autoconnect.
  destruct (Z.eqb_spec (attempts_needed (counts_ st)) 0) as [Hz|Hz].
  { exists [], st. split; [done|]. unfold connect_outcome. rewrite Hz.
    split_and!; [done|done|constructor| |done|done|by left]. by intros ep ?%not_elem_of_nil. }
  destruct (squelch_slots_ok (entries (slots_ st)) now (m_squelches st) st now)
    as (sq&->&Hsq&Hsqc); [done|by intros ?? ?%elem_of_entries|apply Hwf|]. simpl.
  assert (∀ a, is_Some (aged_find sq a) ↔ squelched st a) as Hsqd.
  { intros a. rewrite Hsqc. unfold squelched. by setoid_rewrite elem_of_entries. }
  assert (0 <= attempts_needed (counts_ st) < 2 ^ 64) as HN.
  { unfold attempts_needed. case_match; [lia|apply u64_range]. }
  pose proof (fun c st' => connect_result_outcome now st sq c st'
    (fun a => proj2 (Hsqd a)) (proj1 HN)) as Hout.
  set (N := attempts_needed (counts_ st)) in *.
  destruct (autoconnect_caches_ok N seed now sq st Hwf Hsq) as (c0&st0&Hc0&Hr0&Hnil0).
  assert (c0 = [] → ∀ ep, live_candidate st ep ∨ boot_candidate st ep →
    squelched st (address ep)) as Hcaches by (intros; apply Hsqd, Hnil0; [lia|done|done]).
  destruct (Z.ltb_spec (fixed_active (counts_ st)) (Z.of_nat (size (fixed_ st)))) as [Hfx|Hfx].
  2:{ exists c0, st0. split; [done|]. apply Hout; [done|]. intros ?.
      split; [unfold fixed_missing; lia|right; by apply Hcaches]. }
  pose proof (get_fixed_loop_ok (entries (fixed_ st)) N [] sq sq now st N) as Hg. unfold get_fixed.
  destruct (get_fixed_loop (entries (fixed_ st)) N [] sq now st) as [c sq'] eqn:Hgf.
  destruct Hg as [Hsq' Hc]; [by intros ?? ?%elem_of_entries|done|simpl; lia|done|
    by apply connect_ok_nil|].
  assert (connect_result now st N sq c (with_squelches sq' st)) as Hr.
  { apply connect_result_squelches; try done. eapply connect_ok_impl; [|done]. by left. }
  destruct c as [|ep c]; [|eexists _, _; split; [done|by apply Hout]].
  apply get_fixed_loop_nil in Hgf as [-> Hfixed]; [|done].
  assert (∀ ep, fixed_candidate now st ep → squelched st (address ep)) as Hdone.
  { intros ep (f&Hf&Hw). destruct (Hfixed ep f) as [?|?]; [by apply elem_of_entries|done| |by right].
    by apply Hsqd. }
  destruct (Z.ltb_spec 0 (attempts (counts_ st))) as [Hat|Hat].
  - eexists _, _. split; [done|]. apply Hout; [done|]. intros _. split; [done|by left].
  - exists c0, st0. split; [done|]. apply Hout; [done|]. intros ?.
    split; [done|right; by apply Hcaches].
Qed.

Lemma elem_of_active_slots p st :
  p ∈ active_slots st ↔
  ∃ ep s, slots_ st !! ep = Some p ∧ lheap st !! p = Some s ∧ m_state s = active.
Proof.
  unfold active_slots. rewrite list_elem_of_omap. split.
  - intros ([ep q]&Hq%elem_of_entries&Hp). simpl in *.
    destruct (lheap st !! q) as [s|] eqn:Hs; [|done]. case_decide; [|done].
    injection Hp as <-. by eauto.
  - intros (ep&s&Hep&Hs&Hst). exists (ep, p). split; [by apply elem_of_entries|].
    simpl. rewrite Hs. by rewrite decide_True.
Qed.

Lemma broadcast_targets_slots seed st :
  s_slot <$> broadcast_targets seed st = random_shuffle seed (active_slots st).
Proof.
  unfold broadcast_targets. case_match; rewrite <-!list_fmap_compose; apply list_fmap_id.
Qed.

Lemma broadcast_targets_ok seed st t :
  logic_wf st t →
  Forall (slot_ok (in_live st) (lheap st) (lheap st)) (broadcast_targets seed st).
Proof.
  intros Hwf. apply Forall_forall. intros x Hx.
  assert (s_slot x ∈ active_slots st) as Hp.
  { rewrite <-(random_shuffle_perm _ seed (active_slots st)), <-broadcast_targets_slots.
    by apply list_elem_of_fmap_2. }
  apply elem_of_active_slots in Hp as (ep&s&_&Hs&_). exists s, s.
  unfold broadcast_targets in Hx. split; [done|]. split; [done|]. case_match.
  all: rewrite ?list_elem_of_fmap in Hx.
  - destruct Hx as (y&->&(q&->&_)%list_elem_of_fmap). simpl.
    split_and!; [apply Nat.leb_le; reflexivity|apply NoDup_singleton|]. apply Forall_singleton. done.
  - destruct Hx as (q&->&_). simpl. split_and!; [apply Nat.leb_le; reflexivity|constructor|constructor].
Qed.

Lemma build_ok seed now st t :
  logic_wf st t → t <= now →
  ∃ r st', buildEndpointsForPeers seed now st = Ok (r, st') ∧ logic_wf st' now
    ∧ slots_ st' = slots_ st ∧ core <$> lheap st' = core <$> lheap st
    ∧ if decide (m_whenBroadcast st <= now)
      then r.*1 = random_shuffle seed (active_slots st)
           ∧ m_whenBroadcast st' = now + Tuning.secondsPerMessage
           ∧ Forall (fun x => slot_ok (in_live st) (lheap st) (lheap st')
                                (mkSlotHandouts x.1 x.2)
                     ∧ ((length x.2 < 12)%nat → ∀ e, in_live st e →
                          slot_try_insert now e (lheap st') (mkSlotHandouts x.1 x.2)
                          = Ok (false, lheap st', mkSlotHandouts x.1 x.2))) r
      else r = [] ∧ st' = st.
Proof.
  intros Hwf0 Ht. pose proof (logic_wf_mono _ _ _ Hwf0 Ht) as Hwf.
  unfold buildEndpointsForPeers.
  destruct (Z.leb_spec (m_whenBroadcast st) now) as [Hw|Hw].
  2:{ exists [], st. rewrite decide_False by lia. done. }
  set (lc := live_shuffle (Datatypes.S seed) (livecache_ st)).
  assert (live_wf lc now) as Hlc by apply live_wf_shuffle, Hwf.
  destruct (handout_ok now (endpoint_of (m_cache lc)) (in_live st)
    (heap_from (lheap st) now) (slot_ok (in_live st) (lheap st)) slot_room slot_ext
    (Datatypes.S (total_room slot_room (broadcast_targets seed st))) (lheap st)
    (broadcast_targets seed st) (hops_fwd lc)) as (h&ts&ls&->&(Hh&Hc&_)&HJ&_&Hext&Hp&_&_&Hfin).
  - split_and!; [apply Hwf|done|]. intros p s0 s ep n H0 H1. by rewrite H0 in H1; injection H1 as ->.
  - by eapply broadcast_targets_ok.
  - by eapply live_readable.
  - lia.
  - simpl. eexists _, _. split; [done|]. rewrite decide_True by done. split.
    { apply logic_wf_with_whenBroadcast.
      apply logic_wf_with_heap; [by destruct st|done|].
      apply logic_wf_with_livecache; [|done]. by apply live_wf_set_lists. }
    split; [by destruct st|]. split; [by destruct st|]. split; [|split; [by destruct st|]].
    + rewrite <-list_fmap_compose, <-broadcast_targets_slots. clear -Hext.
      induction Hext as [|x y l k [Hxy _] _ IH]; [done|].
      rewrite !fmap_cons. f_equal; [exact Hxy|exact IH].
    + set (st' := with_whenBroadcast _ _). assert (lheap st' = h) as -> by (by destruct st).
      apply Forall_fmap, Forall_forall. intros [q l] Hq. rewrite Forall_forall in HJ, Hfin.
      split; [by apply HJ|]. intros Hlen e He. destruct (Hfin _ Hq) as [Hfull|Href].
      * simpl in Hfull. unfold slot_full in Hfull. apply Z.leb_le in Hfull. simpl in Hfull.
        unfold Tuning.numberOfEndpoints, Tuning.maxHops in Hfull. simpl in Hlen. lia.
      * pose proof (refuses_live now lc now ls (hops_fwd lc) h (mkSlotHandouts q l) e) as Hr.
        simpl in *. by apply Hr.
Qed.

(** ** Periodic activity *)

Lemma expire_slots_ok sl now h :
  heap_wf now h → heap_wf now (expire_slots sl now h)
  ∧ core <$> expire_slots sl now h = core <$> h.
Proof.
  revert h. induction sl as [|[ep p] sl IH]; intros h Hh; simpl; [done|].
  destruct (IH (alter (slot_expire now) p h)) as [? Hc].
  - intros q s. rewrite lookup_alter_Some. intros [(<-&s0&Hs0&->)|[_ Hq]]; [|by eapply Hh].
    pose proof (Hh _ _ Hs0). unfold slot_expire, recent_expire. destruct s0; simpl in *.
    by apply aged_wf_expire.
  - split; [done|]. rewrite Hc. apply map_eq. intros q. rewrite !lookup_fmap, lookup_alter.
    case_decide; [|done]. subst. destruct (h !! q); simpl; [|done].
    f_equal. apply core_set_recent.
Qed.

Lemma once_per_second_ok now st t :
  logic_wf st t → t <= now → logic_wf (once_per_second now st) now.
Proof.
  intros Hwf0 Ht. pose proof (logic_wf_mono _ _ _ Hwf0 Ht) as Hwf. unfold once_per_second.
  apply logic_wf_with_bootcache.
  { unfold boot_periodicActivity. rewrite map_checkUpdate.
    destruct st; simpl. apply Hwf. }
  apply logic_wf_with_squelches.
  { apply aged_wf_expire. destruct st; simpl. apply Hwf. }
  destruct (expire_slots_ok (entries (slots_ st)) now (lheap st)) as [? ?]; [apply Hwf|].
  apply logic_wf_with_heap; [by destruct st|by destruct st|].
  apply logic_wf_with_livecache; [|done]. apply live_wf_expire, Hwf.
Qed.

(** ** Endpoint messages *)

(** What [preprocess] guarantees of each endpoint it keeps. *)
Definition processed (remote : IPEndpoint) (l0 : list Endpoint) (e : Endpoint) : Prop :=
  1 <= hops e <= Tuning.maxHops + 1 ∧ is_valid_address (ep_address e) = true
  ∧ (hops e = 1 → address (ep_address e) = address remote)
  ∧ (1 < hops e → mkEndpoint (hops e - 1) (ep_address e) ∈ l0).

(** The neighbours of a list: its endpoints at one hop. *)
Definition neighbours (l : list Endpoint) : list Endpoint :=
  base.filter (fun e : Endpoint => hops e = 1) l.

Lemma preprocess_loop_ok remote l0 neighbor acc rest :
  Forall (fun e => 0 <= hops e ∧ e ∈ l0) rest →
  Forall (processed remote l0) acc → NoDup (ep_address <$> acc) →
  (length (neighbours acc) ≤ if neighbor : bool then 1 else 0)%nat →
  let l := preprocess_loop remote neighbor acc rest in
  Forall (processed remote l0) l ∧ NoDup (ep_address <$> l) ∧ (length (neighbours l) ≤ 1)%nat.
Proof.
  revert neighbor acc. induction rest as [|ep rest IH]; intros nb acc Hr Ha Hd Hn; simpl.
  { split_and!; [done..|]. destruct nb; lia. }
  apply Forall_cons in Hr as [[H0 Hin] Hr].
  destruct (Z.ltb_spec Tuning.maxHops (hops ep)); [by apply IH|].
  unfold Tuning.maxHops in *.
  set (ep' := if hops ep =? 0 then _ else _).
  assert (hops ep' = hops ep) as Hh.
  { unfold ep'. by destruct (Z.eqb_spec (hops ep) 0). }
  destruct ((hops ep =? 0) && nb) eqn:Hskip; [by apply IH|].
  assert (length (neighbours acc) ≤ if nb || (hops ep =? 0)%Z then 1 else 0)%nat as Hn'.
  { destruct nb, (hops ep =? 0); simpl; lia. }
  destruct (is_valid_address (ep_address ep')) eqn:Hv; simpl; [|by apply IH].
  destruct (existsb _ acc) eqn:He; [by apply IH|]. apply IH; [done|..].
  - apply Forall_app. split; [done|]. apply Forall_singleton.
    unfold processed, Tuning.maxHops. simpl. rewrite Hh.
    rewrite i32_small by lia. split_and!; [lia|lia|done| |].
    + intros Hz. assert (hops ep = 0) as Hz' by lia. unfold ep'. by rewrite Hz'.
    + intros Hz. replace (hops ep + 1 - 1) with (hops ep) by lia. unfold ep'.
      destruct (Z.eqb_spec (hops ep) 0); [lia|]. by destruct ep.
  - rewrite fmap_app. apply NoDup_snoc; [done|]. rewrite list_elem_of_fmap.
    intros (o&Ho&Hino). apply not_true_iff_false in He. apply He, existsb_exists.
    exists o. split; [by apply list_elem_of_In|]. by apply ep_eqb_eq.
  - unfold neighbours in *. rewrite filter_app, length_app.
    rewrite filter_cons, filter_nil. simpl. rewrite Hh, i32_small by lia.
    case_decide as Hz; simpl; [|lia].
    assert (hops ep = 0) as Hz' by lia. rewrite Hz' in *. simpl in *. destruct nb; simpl in *; [done|lia].
Qed.

Lemma preprocess_ok remote l :
  Forall (fun e => 0 <= hops e) l →
  Forall (processed remote l) (preprocess remote l)
  ∧ NoDup (ep_address <$> preprocess remote l)
  ∧ (length (neighbours (preprocess remote l)) ≤ 1)%nat.
Proof.
  intros Hl. apply preprocess_loop_ok; [|constructor|constructor|simpl; lia].
  apply Forall_forall. intros e He. rewrite Forall_forall in Hl. auto.
Qed.

(** What the slot [s'] and the caches of [st'] know of an endpoint: the peer is known
    to have it, and if it is not the peer itself the live cache has it, no farther. *)
Definition learned (s' : SlotImp) st' (e : Endpoint) : Prop :=
  recent_filter (ep_address e) (hops e) (recent s') = true
  ∧ (1 < hops e → ∃ e', aged_find (m_cache (livecache_ st')) (ep_address e) = Some e'
                        ∧ hops e' <= hops e).

Lemma learned_relay s s1 st lc lc' st' ep :
  (∀ e n, recent_filter e n (recent s) = true → recent_filter e n (recent s1) = true) →
  recent_filter (ep_address ep) (hops ep) (recent s1) = true →
  livecache_ st = lc → livecache_ st' = lc' →
  values (m_cache lc')
    = <[ep_address ep := merged (aged_find (m_cache lc) (ep_address ep)) ep]>
        (values (m_cache lc)) →
  learned s1 st' ep ∧ ∀ e, learned s st e → learned s1 st' e.
Proof.
  intros Hmono Hnew <- <- Hv.
  assert (∀ k, aged_find (m_cache (livecache_ st')) k
               = if decide (ep_address ep = k)
                 then Some (merged (aged_find (m_cache (livecache_ st)) (ep_address ep)) ep)
                 else aged_find (m_cache (livecache_ st)) k) as Hf.
  { intros k. rewrite <-(lookup_values (m_cache (livecache_ st'))), Hv, lookup_insert.
    by rewrite lookup_values. }
  assert (∀ old, hops (merged old ep) <= hops ep
                 ∧ ∀ o, old = Some o → hops (merged old ep) <= hops o) as Hm.
  { intros [o|]; simpl; [|done]. case_match; simpl; naive_solver lia. }
  split; [split; [done|]|intros e [Hr Hl]; split; [by apply Hmono|]].
  - intros _. rewrite Hf, decide_True by done. eexists. split; [done|]. exact (proj1 (Hm _)).
  - intros (e'&He'&Hh)%Hl. rewrite Hf. case_decide as Hk; [|by exists e'].
    eexists. split; [done|]. destruct (Hm (Some e')) as [_ Hm']. rewrite Hk, He'.
    specialize (Hm' _ eq_refl). lia.
Qed.

Lemma learned_keep s s1 st st' ep :
  (∀ e n, recent_filter e n (recent s) = true → recent_filter e n (recent s1) = true) →
  recent_filter (ep_address ep) (hops ep) (recent s1) = true →
  hops ep = 1 → livecache_ st' = livecache_ st →
  learned s1 st' ep ∧ ∀ e, learned s st e → learned s1 st' e.
Proof.
  intros Hmono Hnew H1 Hlc. split; [split; [done|lia]|].
  intros e [? ?]. split; [by apply Hmono|]. by rewrite Hlc.
Qed.

(** The effect of one endpoint of a message on the slot [s] of the state [st]. *)
Definition endpoint_result p now (ep : Endpoint) (s : SlotImp) st
    (checks : list IPEndpoint) st' (s' : SlotImp) : Prop :=
  logic_wf st' now ∧ registered p s' st' ∧ core s' = core s
  ∧ (∀ c, c ∈ checks → c = ep_address ep ∧ hops ep = 1 ∧ checked s = false)
  ∧ slots_ st' = slots_ st ∧ keys_ st' = keys_ st
  ∧ learned s' st' ep ∧ (∀ e, learned s st e → learned s' st' e).

(** The peer is recorded as knowing the endpoint. *)
Lemma endpoint_noted p s ep now st :
  logic_wf st now → registered p s st →
  let s1 := set_recent (recent_insert (ep_address ep) (hops ep) now (recent s)) s in
  let st1 := put_slot p s1 st in
  logic_wf st1 now ∧ registered p s1 st1 ∧ core s1 = core s ∧ checked s1 = checked s
  ∧ slots_ st1 = slots_ st ∧ keys_ st1 = keys_ st ∧ livecache_ st1 = livecache_ st
  ∧ (∀ e n, recent_filter e n (recent s) = true → recent_filter e n (recent s1) = true)
  ∧ recent_filter (ep_address ep) (hops ep) (recent s1) = true.
Proof.
  intros Hwf [Hs Hp] s1 st1. pose proof (lf_heap _ _ Hwf _ _ Hs) as Hrec.
  assert (core s1 = core s) as Hc1 by apply core_set_recent.
  assert (recent s1 = recent_insert (ep_address ep) (hops ep) now (recent s)) as Hrs
    by (by destruct s).
  assert (aged_wf (recent s1) now) as Hrec1
    by (rewrite Hrs; by eapply aged_wf_recent_insert).
  assert (m_remote_endpoint s1 = m_remote_endpoint s) as Hrem by (by destruct s).
  split_and!; [by eapply logic_wf_put_slot| |done|by destruct s|by destruct st..| |].
  - unfold st1. destruct st; simpl in *. split; simpl; [by rewrite lookup_insert_eq|by rewrite Hrem].
  - intros. rewrite Hrs. apply recent_filter_insert. by left.
  - rewrite Hrs. apply recent_filter_insert. right. split; [done|lia].
Qed.

(** The endpoint enters the live cache and the boot cache. *)
Lemma relay_ok p s s1 ep now st st1 :
  logic_wf st1 now → registered p s1 st1 → core s1 = core s →
  slots_ st1 = slots_ st → keys_ st1 = keys_ st → livecache_ st1 = livecache_ st →
  (∀ e n, recent_filter e n (recent s) = true → recent_filter e n (recent s1) = true) →
  recent_filter (ep_address ep) (hops ep) (recent s1) = true →
  1 <= hops ep <= Tuning.maxHops + 1 →
  ∃ st', (lc ← live_insert ep now (livecache_ st1);
      Ok ([], with_bootcache (boot_insert (ep_address ep) now
                (bootcache_ (with_livecache lc st1))).1 (with_livecache lc st1)))
      = @Ok (list IPEndpoint * Logic S) ([], st') ∧ endpoint_result p now ep s st [] st' s1.
Proof.
  intros Hwf1 Hr1 Hc1 Hsl Hk Hlv Hmono Hnew Hh.
  destruct (live_insert_ok ep now (livecache_ st1) now) as (lc&->&Hlc&Hv); [apply Hwf1|lia| |].
  { change (Z.of_nat n_hops) with 8. unfold Tuning.maxHops in *. lia. }
  simpl. set (st2 := with_bootcache _ _). exists st2. split; [done|].
  assert (livecache_ st2 = lc ∧ slots_ st2 = slots_ st1 ∧ keys_ st2 = keys_ st1
          ∧ lheap st2 = lheap st1) as (Hlv2&Hs2&Hk2&Hh2) by (by destruct st1).
  destruct (learned_relay s s1 st _ lc st2 ep Hmono Hnew (eq_sym Hlv) Hlv2 Hv) as [? ?].
  split_and!; [|destruct Hr1; split; by rewrite ?Hh2, ?Hs2|done| |congruence..|done|done].
  - by apply boot_insert_wf, logic_wf_with_livecache.
  - by intros c ?%not_elem_of_nil.
Qed.

Lemma on_endpoint_ok p s ep now st :
  logic_wf st now → registered p s st → 1 <= hops ep <= Tuning.maxHops + 1 →
  ∃ checks st' s', on_endpoint p ep now st = Ok (checks, st')
    ∧ endpoint_result p now ep s st checks st' s'.
Proof.
  intros Hwf Hr Hh. unfold on_endpoint. destruct (Z.eqb_spec (hops ep) 0); [lia|]. simpl.
  pose proof Hr as [Hs _]. rewrite (get_slot_ok _ s) by done. simpl.
  destruct (endpoint_noted p s ep now st Hwf Hr)
    as (Hwf1&Hr1&Hc1&Hck&Hsl&Hk&Hlv&Hmono&Hnew).
  set (s1 := set_recent _ s) in *. set (st1 := put_slot p s1 st) in *. clearbody st1.
  pose proof (relay_ok p s s1 ep now st st1 Hwf1 Hr1 Hc1 Hsl Hk Hlv Hmono Hnew Hh)
    as (stl&Hrelay&Hres).
  destruct (Z.eqb_spec (hops ep) 1) as [H1|]; [|by exists [], stl, s1].
  assert (endpoint_result p now ep s st [] st1 s1) as Hkeep.
  { destruct (learned_keep s s1 st st1 ep Hmono Hnew H1 Hlv) as [Hl1 Hl2].
    split_and!; try done. by intros c ?%not_elem_of_nil. }
  destruct (connectivityCheckInProgress s1); [by exists [], st1, s1|].
  destruct (checked s1) eqn:Hc; simpl.
  { destruct (canAccept s1); simpl; [by exists [], stl, s1|by exists [], st1, s1]. }
  set (s2 := set_check false (canAccept s1) true s1).
  assert (recent s2 = recent s1) as Hrs2 by (by destruct s1).
  assert (slots_ (put_slot p s2 st1) = slots_ st1 ∧ keys_ (put_slot p s2 st1) = keys_ st1
    ∧ livecache_ (put_slot p s2 st1) = livecache_ st1) as (Hsl2&Hk2&Hlv2) by (by destruct st1).
  destruct (learned_keep s s2 st (put_slot p s2 st1) ep) as [Hl3 Hl4];
    [by rewrite Hrs2..|done|congruence|].
  pose proof Hr1 as [Hs1 _]. pose proof (lf_heap _ _ Hwf1 _ _ Hs1) as Hrec1.
  eexists _, _, s2. split; [done|]. split_and!; [| | | |congruence..|done|done].
  - eapply logic_wf_put_slot; [done|apply core_set_check| |done]. by rewrite Hrs2.
  - subst s2. destruct st1, Hr1, s1; simpl in *. split; simpl; [by rewrite lookup_insert_eq|done].
  - subst s2. by rewrite core_set_check.
  - intros c ->%list_elem_of_singleton. by rewrite <-Hck.
Qed.

Lemma on_endpoints_loop_ok p s l remote l0 now st :
  logic_wf st now → registered p s st → Forall (processed remote l0) l →
  ∃ checks st' s', on_endpoints_loop p l now st = Ok (checks, st') ∧ logic_wf st' now
    ∧ registered p s' st' ∧ core s' = core s
    ∧ (∀ c, c ∈ checks → ∃ e, e ∈ l ∧ ep_address e = c ∧ hops e = 1)
    ∧ slots_ st' = slots_ st ∧ keys_ st' = keys_ st
    ∧ Forall (learned s' st') l ∧ (∀ e, learned s st e → learned s' st' e).
Proof.
  revert s st. induction l as [|e l IH]; intros s st Hwf Hr Hl; simpl.
  { exists [], st, s. split_and!; try done. by intros c ?%not_elem_of_nil. }
  apply Forall_cons in Hl as [[He _] Hl].
  destruct (on_endpoint_ok p s e now st)
    as (c1&st1&s1&->&Hwf1&Hr1&Hc1&Hk1&Hs1&Hy1&Hle&Hm1); [done..|]. simpl.
  destruct (IH s1 st1) as (c2&st2&s2&->&?&?&Hc2&Hk2&Hs2&Hy2&Hl2&Hm2); [done..|]. simpl.
  exists (c1 ++ c2), st2, s2.
  split_and!; try done; [congruence| |congruence..|constructor; auto|auto].
  intros c [Hc|Hc]%elem_of_app; setoid_rewrite elem_of_cons.
  - destruct (Hk1 c Hc) as (->&?&_). exists e. split_and!; [by left|done|done].
  - destruct (Hk2 c Hc) as (e'&?&?&?). exists e'. split_and!; [by right|done|done].
Qed.

Lemma on_endpoints_ok p s l now st t :
  logic_wf st t → t <= now → registered p s st → m_state s = active →
  Forall (fun e => 0 <= hops e) l →
  ∃ checks st' s', on_endpoints p l now st = Ok (checks, st') ∧ logic_wf st' now
    ∧ registered p s' st' ∧ core s' = core s
    ∧ whenAcceptEndpoints s' = now + Tuning.secondsPerMessage
    ∧ (∀ c, c ∈ checks → address c = address (m_remote_endpoint s))
    ∧ slots_ st' = slots_ st ∧ keys_ st' = keys_ st
    ∧ Forall (learned s' st') (preprocess (m_remote_endpoint s) l).
Proof.
  intros Hwf0 Ht Hr Hst Hl. pose proof (logic_wf_mono _ _ _ Hwf0 Ht) as Hwf.
  pose proof Hr as [Hs Hp]. unfold on_endpoints.
  rewrite (get_slot_ok _ s) by done. simpl. rewrite (assert_in_table_ok p) by done. simpl.
  rewrite bool_decide_true by done. simpl.
  destruct (preprocess_ok (m_remote_endpoint s) l Hl) as [Hpre _].
  destruct (on_endpoints_loop_ok p s _ _ _ now st Hwf Hr Hpre)
    as (checks&st1&s1&->&Hwf1&Hr1&Hc1&Hk1&Hsl1&Hy1&Hle&_). simpl. pose proof Hr1 as [Hs1 Hp1].
  rewrite (get_slot_ok _ s1) by done. simpl.
  eexists _, _, (set_whenAccept _ s1). split; [done|].
  pose proof (lf_heap _ _ Hwf1 _ _ Hs1). split_and!.
  - eapply logic_wf_put_slot; [done|apply core_set_whenAccept|by destruct s1|done].
  - destruct st1, s1; simpl in *. split; simpl; [by rewrite lookup_insert_eq|done].
  - by rewrite core_set_whenAccept.
  - by destruct s1.
  - intros c (e&He&<-&H1)%Hk1. rewrite Forall_forall in Hpre.
    by destruct (Hpre e He) as (_&_&->&_).
  - rewrite <-Hsl1. by destruct st1.
  - rewrite <-Hy1. by destruct st1.
  - eapply Forall_impl; [done|]. intros e. unfold learned. by destruct st1, s1.
Qed.

(** ** The operations as one step relation *)

Inductive op :=
| op_config (c : Config)
| op_load
| op_stop
| op_addFixedPeer (eps : list IPEndpoint)
| op_checkComplete (remote checked_ : IPEndpoint) (ec : error_code)
| op_new_inbound (l r : IPEndpoint)
| op_new_outbound (r : IPEndpoint)
| op_onConnected p (l : IPEndpoint)
| op_activate p (key : PublicKey) (cluster : bool)
| op_on_endpoints p (l : list Endpoint)
| op_on_closed p
| op_on_failure p
| op_onRedirects (eps : list IPEndpoint)
| op_fetch (src : source) (stopped : bool) (results : option (list IPEndpoint))
| op_addSource (src : source)
| op_redirect p (seed : nat)
| op_autoconnect (seed : nat)
| op_buildEndpoints (seed : nat)
| op_once_per_second.

Definition run (o : op) now st : res (Logic S) :=
  match o with
  | op_config c => set_config c st
  | op_load => Ok (load st)
  | op_stop => Ok (stop st)
  | op_addFixedPeer eps => addFixedPeer eps now st
  | op_checkComplete r c ec => checkComplete r c ec now st
  | op_new_inbound l r => '(_, st) ← new_inbound_slot l r st; Ok st
  | op_new_outbound r => '(_, st) ← new_outbound_slot r st; Ok st
  | op_onConnected p l => '(_, st) ← onConnected p l st; Ok st
  | op_activate p key cl => '(_, st) ← activate p key cl now st; Ok st
  | op_on_endpoints p l => '(_, st) ← on_endpoints p l now st; Ok st
  | op_on_closed p => on_closed p now st
  | op_on_failure p => on_failure p now st
  | op_onRedirects eps => Ok (onRedirects eps now st)
  | op_fetch src b r => Ok (fetch src b r now st)
  | op_addSource src => Ok (addSource src st)
  | op_redirect p seed => '(_, st) ← redirect p seed now st; Ok st
  | op_autoconnect seed => '(_, st) ← autoconnect seed now st; Ok st
  | op_buildEndpoints seed => '(_, st) ← buildEndpointsForPeers seed now st; Ok st
  | op_once_per_second => Ok (once_per_second now st)
  end.

(** The contract of each operation: the pointer is that of a registered slot in the
    right state, an inbound connection has a new remote endpoint, hop counts are not
    negative, and a boot cache that is to record an outcome has room for it. *)
Definition enabled (o : op) st : Prop :=
  match o with
  | op_config c => wantIncoming c = true → is_ok (d_floor (outPeers c)) = true
  | op_addFixedPeer eps => Forall (fun ep => port ep ≠ 0) eps
  | op_checkComplete _ c _ => has_room c (bootcache_ st)
  | op_new_inbound _ r => slots_ st !! r = None
  | op_onConnected p l => ∃ s, registered p s st ∧ m_state s = connect
      ∧ self_connection_known p s l st
  | op_activate p _ _ => ∃ s, registered p s st ∧ ready s
      ∧ (m_inbound s = false → has_room (m_remote_endpoint s) (bootcache_ st))
  | op_on_endpoints p l => ∃ s, registered p s st ∧ m_state s = active
      ∧ Forall (fun e => 0 <= hops e) l
  | op_on_closed p => ∃ s, registered p s st
      ∧ (m_inbound s = false → m_state s ≠ active →
         has_room (m_remote_endpoint s) (bootcache_ st))
  | op_on_failure p => ∃ s, lheap st !! p = Some s
      ∧ has_room (m_remote_endpoint s) (bootcache_ st)
  | op_redirect p _ => is_Some (lheap st !! p)
  | _ => True
  end.

Lemma redirect_wf p s seed now st t :
  logic_wf st t → lheap st !! p = Some s →
  ∃ l st', redirect p seed now st = Ok (l, st') ∧ logic_wf st' t.
Proof.
  intros Hwf Hs. destruct (redirect_spec p s seed now st t Hwf Hs) as (l&ls&->&Hp&_).
  eexists _, _. split; [done|]. apply logic_wf_with_livecache; [|done].
  apply live_wf_set_lists; [|done]. apply live_wf_shuffle, Hwf.
Qed.

Lemma run_ok o now st t :
  logic_wf st t → t <= now → enabled o st → ∃ st', run o now st = Ok st' ∧ logic_wf st' now.
Proof.
  intros Hwf0 Ht He. pose proof (logic_wf_mono _ _ _ Hwf0 Ht) as Hwf. destruct o; simpl in *.
  - by apply set_config_ok.
  - eexists. split; [done|]. apply logic_wf_with_bootcache; [apply bimap_wf_load|done].
  - eexists. split; [done|]. by apply logic_wf_with_stopping.
  - by apply addFixedPeer_ok.
  - by apply checkComplete_ok.
  - destruct (new_inbound_ok l r st now Hwf He) as (o&st'&->&?&_). by exists st'.
  - destruct (new_outbound_ok r st now Hwf) as (o&st'&->&?&_). by exists st'.
  - destruct He as (s&Hr&Hs&Hk).
    destruct (onConnected_ok _ _ l st now Hwf Hr Hs Hk) as (o&st'&->&?&_). by exists st'.
  - destruct He as (s&Hr&Hs&Hk).
    destruct (activate_ok _ _ key cluster now st now Hwf Hr Hs Hk) as (o&st'&->&?&_). by exists st'.
  - destruct He as (s&Hr&Hs&Hk).
    destruct (on_endpoints_ok _ _ l now st t Hwf0 Ht Hr Hs Hk) as (o&st'&s'&->&?&_). by exists st'.
  - destruct He as (s&Hr&Hk).
    destruct (on_closed_ok _ _ now st now Hwf Hr Hk) as (st'&->&?&_). by exists st'.
  - destruct He as (s&Hr&Hk). by eapply on_failure_ok.
  - eexists. split; [done|]. by apply onRedirects_wf.
  - eexists. split; [done|]. by apply fetch_wf.
  - eexists. split; [done|]. by apply logic_wf_with_sources.
  - destruct He as [s Hs].
    destruct (redirect_wf _ _ seed now st now Hwf Hs) as (o&st'&->&?). by exists st'.
  - destruct (autoconnect_ok seed now st t Hwf0 Ht) as (c&st'&->&?&_). by exists st'.
  - destruct (build_ok seed now st t Hwf0 Ht) as (c&st'&->&?&_). by exists st'.
  - eexists. split; [done|]. by eapply once_per_second_ok.
Qed.

Lemma logic_wf_init threshold store now st :
  Logic_init threshold store now = Ok st → logic_wf st now.
Proof.
  unfold Logic_init. set (st0 := mkLogic _ _ _ _ _ _ _ _ _ _ _ _ _ _). intros Hc.
  assert (logic_wf st0 now) as Hwf.
  { split; simpl.
    - intros ep p. by rewrite lookup_empty.
    - assert (view ∅ ∅ = ∅) as -> by apply omap_empty. split.
      + intros ep s Hs. by rewrite lookup_empty in Hs.
      + intros k. rewrite msum_empty. by destruct k.
      + intros key. split; [by intros ?%not_elem_of_empty|].
        intros (ep&s&Hs&_). by rewrite lookup_empty in Hs.
      + intros ep1 ep2 s1 s2 key Hs. by rewrite lookup_empty in Hs.
      + intros a. by rewrite msum_empty, multiplicity_empty.
    - apply live_wf_init.
    - repeat constructor.
    - apply aged_wf_empty.
    - intros p s. by rewrite lookup_empty. }
  clearbody st0. unfold set_config in Hc. apply bind_ok in Hc as (co&Hco&Hc). injection Hc as <-.
  unfold onConfig in Hco. apply bind_ok in Hco as (om&_&Hco). injection Hco as <-.
  apply logic_wf_with_config; [|done]. intros k. apply get_set_maxes.
Qed.

(** One operation at a time, the clock never going back. *)
Inductive step : Logic S * Z → Logic S * Z → Prop :=
| step_run o st t now st' :
    t <= now → enabled o st → run o now st = Ok st' → step (st, t) (st', now).

Inductive initial : Logic S * Z → Prop :=
| initial_intro threshold store now st :
    Logic_init threshold store now = Ok st → initial (st, now).

Definition reachable (x : Logic S * Z) : Prop := ∃ x0, initial x0 ∧ rtc step x0 x.

Lemma reachable_wf st t : reachable (st, t) → logic_wf st t.
Proof.
  intros (x0&Hi&Hs). apply (rtc_ind_r (fun x => logic_wf x.1 x.2) x0) in Hs; [done| |].
  - destruct Hi. simpl. by eapply logic_wf_init.
  - intros y z _ Hst IH. destruct Hst as [o st0 t0 now st' Ht He Hrun]. simpl in *.
    destruct (run_ok o now st0 t0) as (st''&Hrun'&?); [done..|]. congruence.
Qed.
End safety.
