(* ===== verification/PFProps.v ===== *)
(** * Properties of the peer finder

    What holds of every reachable state of [PeerFinder::Logic] and what its operations do
    there.  The concrete run [demo] at the end of the first part, with the SQLite table as
    store and a shuffle that reverses, is the state the properties are instantiated at. *)

From S2P Require Import Prelude IPAddr Aged Slot Counts Bootcache Livecache Handouts.
From S2P Require Import PFLogic PFInv PFSafety.
From stdpp Require Import gmultiset strings relations.
From Stdlib Require Import SpecFloat.

Local Open Scope Z_scope.

(** ** A concrete run *)

Program Definition shuffle_rev : RandomShuffle :=
  {| random_shuffle A seed l := reverse l |}.
Next Obligation. intros. apply reverse_Permutation. Qed.
#[local] Existing Instance shuffle_rev.

Definition demo_start : res (Logic sqdb_table) := Logic_init (S754_zero false) [] 0.

Definition or_start (r : res (Logic sqdb_table)) : Logic sqdb_table :=
  match r with
  | Ok st => st
  | Err _ => mkLogic false None Config_default (Counts_init (S754_zero false)) ∅ Livecache_init
               (Bootcache_init [] 0) ∅ ∅ ∅ [] 0 aged_empty ∅
  end.

Definition demo_key : PublicKey := [2; 3; 5; 7].

(** A fixed peer is connected and activated, an inbound peer is accepted and activated,
    and the first peer sends an endpoint message. *)
Definition demo_ops : list (op * Z) :=
  [ (op_addFixedPeer [host 1], 1);
    (op_new_outbound (host 1), 2);
    (op_onConnected 1%positive (host 99), 3);
    (op_activate 1%positive demo_key false, 4);
    (op_new_inbound (host 99) (host 2), 5);
    (op_activate 2%positive [11] false, 6);
    (op_on_endpoints 1%positive [mkEndpoint 1 (host 3); mkEndpoint 2 (host 4)], 7);
    (op_new_inbound (host 99) (host 5), 8);
    (op_new_outbound (host 6), 9) ].

Definition demo (n : nat) : Logic sqdb_table :=
  foldl (fun st x => or_start (run x.1 x.2 st)) (or_start demo_start) (take n demo_ops).

Lemma demo_initial : initial (demo 0, 0).
Proof. apply (initial_intro (S754_zero false) []). vm_compute. reflexivity. Qed.

Lemma demo_step n o now t :
  demo_ops !! n = Some (o, now) → t <= now → enabled o (demo n) →
  is_ok (run o now (demo n)) = true → step (demo n, t) (demo (S n), now).
Proof.
  intros Ho Ht He Hok. econstructor; [done|done|].
  assert (demo (S n) = or_start (run o now (demo n))) as ->.
  { unfold demo at 1. rewrite (take_S_r _ _ _ Ho), foldl_app. done. }
  destruct (run o now (demo n)); [done|discriminate].
Qed.

(** The slot of a pointer after [n] operations. *)
Definition demo_slot (n : nat) (p : slot_ptr) : SlotImp :=
  default (SlotImp_outbound (host 0) false) (lheap (demo n) !! p).

Ltac compute_registered := split; vm_compute; reflexivity.
Ltac compute_room := right; vm_compute; reflexivity.

(** The self-connection clause is vacuous: no slot has our address. *)
Lemma demo_no_self n p s :
  slots_ (demo n) !! host 99 = None → self_connection_known p s (host 99) (demo n).
Proof. intros Hn q other Hq. congruence. Qed.

Lemma demo_enabled n o now : demo_ops !! n = Some (o, now) → enabled o (demo n).
Proof.
  intros Ho.
  destruct n as [|[|[|[|[|[|[|[|[|n]]]]]]]]]; [injection Ho as <- <-..|discriminate].
  all: cbv beta iota delta [enabled].
  - repeat constructor. discriminate.
  - done.
  - exists (demo_slot 2 1). split_and!; [compute_registered|vm_compute; reflexivity|].
    apply demo_no_self. vm_compute. reflexivity.
  - exists (demo_slot 3 1). split_and!; [compute_registered|right; vm_compute; reflexivity|].
    intros _. compute_room.
  - vm_compute. reflexivity.
  - exists (demo_slot 5 2). split_and!; [compute_registered|left; vm_compute; reflexivity|].
    intros _. compute_room.
  - exists (demo_slot 6 1). split_and!; [compute_registered|vm_compute; reflexivity|].
    repeat constructor; discriminate.
  - vm_compute. reflexivity.
  - done.
Qed.

(** The clock after [n] operations. *)
Definition demo_time (n : nat) : Z := Z.of_nat n.

Lemma demo_reachable n : (n <= 9)%nat → reachable (demo n, demo_time n).
Proof.
  intros Hn. exists (demo 0, 0). split; [apply demo_initial|].
  induction n as [|n IH]; [done|]. eapply rtc_r; [apply IH; lia|].
  destruct (demo_ops !! n) as [[o now]|] eqn:Ho.
  2:{ apply lookup_ge_None in Ho. simpl in Ho. lia. }
  assert (now = demo_time (S n) ∧ is_ok (run o now (demo n)) = true) as [-> ?].
  { clear IH Hn. destruct n as [|[|[|[|[|[|[|[|[|n]]]]]]]]]; [injection Ho as <- <-..|discriminate].
    all: split; vm_compute; reflexivity. }
  eapply demo_step; [done|unfold demo_time; lia|by eapply demo_enabled|done].
Qed.

(** ** Invariants *)

Section properties.
Context {S : Type} `{!Store S} `{!RandomShuffle}.
Implicit Types (st : Logic S) (p : slot_ptr) (now t : Z).

(** C1: In every state the peer finder can reach from its constructor, every enabled
    operation (connecting, activating, closing, handing out, endpoint messages,
    configuration, periodic work) returns normally: no assertion of Logic.h fails, no
    iterator or null pointer is dereferenced and no loop runs out of fuel; and the
    resulting state is reachable again. *)
Theorem reachable_safe o now st t :
  reachable (st, t) → t <= now → enabled o st →
  ∃ st', run o now st = Ok st' ∧ reachable (st', now).
Proof.
  intros Hr Ht He. destruct (run_ok o now st t (reachable_wf _ _ Hr) Ht He) as (st'&Hrun&_).
  exists st'. split; [done|]. destruct Hr as (x0&?&?). exists x0. split; [done|].
  eapply rtc_r; [done|]. by econstructor.
Qed.

(** C18: In every reachable state each counter of Counts (attempts, active, inbound,
    outbound, fixed, accepted, closing, ...) equals, at the width of its type, the
    number of registered slots that contribute to it. *)
Theorem reachable_counts st t :
  reachable (st, t) →
  ∀ k, get k (counts_ st) = wrap k (msum (contrib k) (view (slots_ st) (lheap st))).
Proof. intros Hr. apply (vw_counts _ _ _ _ _ (lf_view _ _ (reachable_wf _ _ Hr))). Qed.

(** C19: In every reachable state the key set holds exactly the public keys of the
    active registered slots, and no two registered slots have the same key. *)
Theorem reachable_keys st t key :
  reachable (st, t) →
  (key ∈ keys_ st ↔
   ∃ p s, registered p s st ∧ m_state s = active ∧ m_public_key s = Some key)
  ∧ (∀ p1 p2 s1 s2, registered p1 s1 st → registered p2 s2 st →
       m_public_key s1 = Some key → m_public_key s2 = Some key → p1 = p2).
Proof.
  intros Hr%reachable_wf. pose proof (lf_view _ _ Hr) as Hv. split; [split|].
  - intros (ep&s&Hs&Hk)%(vw_keys _ _ _ _ _ Hv).
    pose proof (vw_slots _ _ _ _ _ Hv _ _ Hs) as Hi.
    apply lookup_view in Hs as (p&Hp&Hs). exists p, s. split_and!; [|by apply Hi; rewrite Hk|done].
    split; [done|]. by rewrite (si_remote _ _ _ Hi).
  - intros (p&s&Hp&_&Hk). apply (vw_keys _ _ _ _ _ Hv). eauto using registered_view.
  - intros p1 p2 s1 s2 H1 H2 K1 K2.
    pose proof (vw_key_inj _ _ _ _ _ Hv _ _ _ _ _ (registered_view _ _ _ H1)
      (registered_view _ _ _ H2) K1 K2) as He.
    destruct H1 as [_ H1], H2 as [_ H2]. rewrite He in H1. congruence.
Qed.

(** An inbound connection from a new endpoint is refused, leaving the state unchanged,
    exactly when its address is public and more than ipLimit slots already have that
    address; otherwise a slot in the accept state is registered for it. *)
Theorem new_inbound_limit l r st t :
  reachable (st, t) → slots_ st !! r = None →
  let at_r := msum (at_address (address r)) (view (slots_ st) (lheap st)) in
  ∃ o st', new_inbound_slot l r st = Ok (o, st')
    ∧ (o = None ↔ is_public r = true ∧ u64 (ipLimit (config_ st)) < at_r)
    ∧ (o = None → st' = st)
    ∧ (∀ p, o = Some p →
         registered p (SlotImp_inbound l r (is_fixed_address (address r) st)) st').
Proof.
  intros Hr Hn. apply reachable_wf in Hr. simpl.
  rewrite <-(vw_addrs _ _ _ _ _ (lf_view _ _ Hr) (address r)).
  destruct (new_inbound_ok l r st t Hr Hn) as (o&st'&->&_&Ho). exists o, st'.
  destruct o as [p|]; [destruct Ho as [Hp Hlim]|destruct Ho as (?&->&?)]; split_and!; try done.
  - split; [done|]. intros [Hpub%Hlim ?]. lia.
  - by intros q [= <-].
Qed.

(** When an outbound attempt connects, the slot learns its local endpoint and moves to
    the connected state, unless the local endpoint is the remote endpoint of a
    registered slot (a connection to ourselves), in which case it stays in the connect
    state and the caller is told to close it. *)
Theorem onConnected_outcome p s local st t :
  reachable (st, t) → registered p s st → m_state s = connect →
  self_connection_known p s local st →
  ∃ b st' s', onConnected p local st = Ok (b, st') ∧ registered p s' st'
    ∧ (b = true ↔ slots_ st !! local = None)
    ∧ m_state s' = (if b : bool then connected else connect)
    ∧ m_local_endpoint s' = Some local.
Proof.
  intros Hr%reachable_wf Hreg Hst Hself.
  destruct (onConnected_ok p s local st t Hr Hreg Hst Hself) as (b&st'&->&_&Hb&Hreg').
  eexists b, st', _. split_and!; [done|done|done|destruct s, b; by simpl in *|].
  destruct s, b; by simpl in *.
Qed.

(** C31: Activating a slot that completed its handshake answers [duplicate] when the key
    is already active, [full] when no slot of its kind is free, and [success] otherwise;
    on success the slot is active with that key and cluster flag and the key is added to
    the key set, otherwise the slot and the keys are unchanged. An outbound slot asks
    for room in the boot cache. Whether a slot is free is decided before the cluster
    flag is set, so that cluster members are refused, too, when the limit is reached. *)
Theorem activate_decides p s key cluster now st t :
  reachable (st, t) → registered p s st → ready s →
  (m_inbound s = false → has_room (m_remote_endpoint s) (bootcache_ st)) →
  ∃ r st' s', activate p key cluster now st = Ok (r, st') ∧ registered p s' st'
    ∧ r = (if decide (key ∈ keys_ st) then duplicate
           else if slot_free s st then success else full)
    ∧ (if decide (r = success)
       then m_state s' = active ∧ m_public_key s' = Some key ∧ m_cluster s' = cluster
            ∧ keys_ st' = {[key]} ∪ keys_ st
       else s' = s ∧ keys_ st' = keys_ st).
Proof.
  intros Hr%reachable_wf Hreg Hrd Hroom.
  destruct (activate_ok p s key cluster now st t Hr Hreg Hrd Hroom)
    as (r&st'&->&_&Hres&Hreg'&Hk).
  eexists r, st', _. split_and!; [done|done|done|]. rewrite Hk.
  case_decide; [destruct s; by simpl|done].
Qed.

(** Opening an outbound slot and closing it restores the slot table, the connected
    addresses, the keys and every counter. *)
Theorem open_close_roundtrip r p now st st1 t :
  reachable (st, t) → has_room r (bootcache_ st) →
  new_outbound_slot r st = Ok (Some p, st1) →
  ∃ st2, on_closed p now st1 = Ok st2
    ∧ slots_ st2 = slots_ st ∧ connectedAddresses_ st2 = connectedAddresses_ st
    ∧ keys_ st2 = keys_ st ∧ (∀ k, get k (counts_ st2) = get k (counts_ st)).
Proof.
  intros Hr%reachable_wf Hroom Hnew.
  destruct (new_outbound_ok r st t Hr) as (o&st1'&Hn&Hwf1&Ho). rewrite Hnew in Hn.
  injection Hn as <- <-. destruct Ho as [Hfresh Hreg].
  assert (slots_ st1 = <[r := p]> (slots_ st) ∧ bootcache_ st1 = bootcache_ st
    ∧ lheap st1 = <[p := SlotImp_outbound r (is_fixed_endpoint r st)]> (lheap st)
    ∧ lheap st !! p = None) as (Hs1&Hb1&Hh1&Hp).
  { clear -Hnew Hfresh. unfold new_outbound_slot, emplace_slot in Hnew. rewrite Hfresh in Hnew.
    simpl in Hnew. rewrite Hfresh in Hnew. simpl in Hnew. injection Hnew as <- <-.
    split_and!; [by destruct st..|]. apply not_elem_of_dom, is_fresh. }
  destruct (on_closed_ok p _ now st1 t Hwf1 Hreg) as (st2&Hcl&Hwf2&Hs2&Hh2).
  { intros _ _. by rewrite Hb1. }
  exists st2. split; [done|].
  assert (view (slots_ st2) (lheap st2) = view (slots_ st) (lheap st)) as Hview.
  { rewrite Hs2, Hh2, Hs1, Hh1, view_delete, view_add by (done || apply Hr). simpl.
    rewrite delete_insert_eq. apply delete_id. apply eq_None_not_Some.
    intros [x (q&Hq&_)%lookup_view]. congruence. }
  pose proof (lf_view _ _ Hwf2) as Hv2. rewrite Hview in Hv2.
  destruct (view_wf_det _ _ _ _ _ _ _ _ _ Hv2 (lf_view _ _ Hr)) as (->&->&?).
  split_and!; try done. rewrite Hs2, Hs1. simpl. by rewrite delete_insert_eq, delete_id.
Qed.

(** autoconnect returns at most as many addresses as attempts are needed, no address
    twice, each from a due fixed peer or from the live or boot cache when the
    configuration and the pending attempts allow that step, none of them squelched or
    already connected, all of them squelched from then on; and it returns nothing only
    when no attempt is needed or everything that may be tried is squelched. *)
Theorem autoconnect_selects seed now st t :
  reachable (st, t) → t <= now →
  ∃ c st', autoconnect seed now st = Ok (c, st')
    ∧ Z.of_nat (length c) <= attempts_needed (counts_ st)
    ∧ NoDup (address <$> c)
    ∧ (∀ ep, ep ∈ c →
         connect_candidate now st ep
         ∧ aged_find (m_squelches st) (address ep) = None
         ∧ (∀ ep' p, slots_ st !! ep' = Some p → address ep' ≠ address ep)
         ∧ is_Some (aged_find (m_squelches st') (address ep)))
    ∧ (c = [] → attempts_needed (counts_ st) = 0 ∨ exhausted now st).
Proof.
  intros Hr%reachable_wf Ht.
  destruct (autoconnect_ok seed now st t Hr Ht) as (c&st'&->&(_&Hl&Hnd&Hc&_&_&Hnil)).
  exists c, st'. split_and!; [done..| |done]. intros ep (?&Hs&?)%Hc. unfold squelched in Hs.
  split_and!; [done| | |done].
  - apply eq_None_not_Some. naive_solver.
  - naive_solver.
Qed.

(** A redirect hands a peer at most ten live endpoints, of one to six hops, at distinct
    addresses and never the peer's own; while there is room no eligible live endpoint is
    left out. *)
Theorem redirect_selects p s seed now st t :
  reachable (st, t) → lheap st !! p = Some s →
  ∃ l st', redirect p seed now st = Ok (l, st')
    ∧ (length l <= 10)%nat ∧ NoDup (addresses l)
    ∧ (∀ e, e ∈ l → in_live st e ∧ 1 <= hops e <= 6
         ∧ address (ep_address e) ≠ address (m_remote_endpoint s))
    ∧ ((length l < 10)%nat → ∀ e, in_live st e → 1 <= hops e <= 6 →
         address (ep_address e) = address (m_remote_endpoint s)
         ∨ address (ep_address e) ∈ addresses l).
Proof.
  intros Hr%reachable_wf Hs.
  destruct (redirect_spec p s seed now st t Hr Hs) as (l&ls&->&Hp&Hok&Hmax).
  eexists l, _. split; [done|]. destruct Hok as (s0&Hs0&Hlen&Hnd&Hf). simpl in *.
  rewrite Hs in Hs0. injection Hs0 as <-. pose proof (lf_live _ _ Hr) as Hlive.
  assert (∀ e, in_live st e → 0 <= hops e) as Hpos.
  { intros e He. unfold in_live in He. rewrite <-lookup_values in He.
    apply (hr_key _ _ (lw_hops _ _ Hlive)) in He as [_ ?]. lia. }
  split_and!; [done|done| |].
  - intros e He. rewrite Forall_forall in Hf. destruct (Hf e He) as (Hin&?&?&?).
    pose proof (Hpos e Hin). unfold Tuning.maxHops in *. split_and!; [done|lia|lia|done].
  - intros Hlt e He Hh. destruct Hmax as [Hmax|Hmax].
    { unfold redirect_full in Hmax. simpl in Hmax. apply Z.leb_le in Hmax.
      unfold Tuning.redirectEndpointCount in Hmax. lia. }
    apply (redirect_refused now p s l (lheap st) e Hs Hlt Hh).
    pose proof (live_wf_shuffle seed _ _ Hlive) as Hlc.
    pose proof (refuses_live now _ _ _ _ (lheap st) (mkRedirect p l) e Hlc Hp) as Hno.
    by apply Hno.
Qed.

(** When a broadcast is due every active slot, and no other, gets a list of at most
    twelve endpoints at distinct addresses; apart from our own entry each is in the live
    cache within six hops, is not the peer's own address, was not known to the peer and
    is recorded as known afterwards; and while there is room nothing the peer does not
    know is left out. *)
Theorem broadcast_selects seed now st t :
  reachable (st, t) → m_whenBroadcast st <= now → t <= now →
  ∃ r st', buildEndpointsForPeers seed now st = Ok (r, st')
    ∧ r.*1 ≡ₚ active_slots st
    ∧ m_whenBroadcast st' = now + seconds 5
    ∧ (∀ p l, (p, l) ∈ r → ∃ s s',
         lheap st !! p = Some s ∧ lheap st' !! p = Some s'
         ∧ (length l <= 12)%nat ∧ NoDup (addresses l)
         ∧ (∀ e, e ∈ l → hops e ≠ 0 →
             in_live st e ∧ hops e <= 6
             ∧ address (ep_address e) ≠ address (m_remote_endpoint s)
             ∧ recent_filter (ep_address e) (hops e) (recent s) = false
             ∧ recent_filter (ep_address e) (hops e) (recent s') = true)
         ∧ ((length l < 12)%nat → ∀ e, in_live st e → hops e <= 6 →
             recent_filter (ep_address e) (hops e) (recent s') = true
             ∨ address (ep_address e) = address (m_remote_endpoint s)
             ∨ address (ep_address e) ∈ addresses l)).
Proof.
  intros Hr%reachable_wf Hw Ht.
  destruct (build_ok seed now st t Hr Ht) as (r&st'&->&Hwf'&_&Hcore&Hb).
  rewrite decide_True in Hb by done. destruct Hb as (Hr1&Hw'&Hall).
  exists r, st'. split_and!; [done| |done|].
  - rewrite Hr1. apply random_shuffle_perm.
  - intros p l Hpl. rewrite Forall_forall in Hall.
    destruct (Hall _ Hpl) as [(s&s'&Hs&Hs'&Hl&Hnd&Hf) Hmax]. simpl in *.
    assert (m_remote_endpoint s' = m_remote_endpoint s) as Hrem.
    { destruct (lookup_core _ _ _ _ Hcore Hs') as (s0&Hs0&(_&_&_&_&?&_)%core_inv). congruence. }
    exists s, s'. split_and!; [done..| |].
    + intros e He Hne. rewrite Forall_forall in Hf.
      destruct (Hf e He) as [? H2]. destruct (H2 Hne) as (?&?&?&?).
      rewrite <-Hrem. by split_and!.
    + intros Hlen e He Hh. rewrite <-Hrem.
      apply (slot_refused now p s' l (lheap st') e Hs' Hlen Hh). by apply Hmax.
Qed.

(** Of an endpoint message without negative hop counts, preprocess keeps endpoints at
    distinct addresses and ports, of one to seven hops and with a public, specified
    address and a port; at most one claims to be the sender and it has the sender's
    address, and every other one is an entry of the message with one hop added. *)
Theorem preprocess_sound remote l :
  Forall (fun e => 0 <= hops e) l →
  let l' := preprocess remote l in
  NoDup (ep_address <$> l') ∧ (length (neighbours l') <= 1)%nat
  ∧ ∀ e, e ∈ l' → 1 <= hops e <= 7 ∧ is_valid_address (ep_address e) = true
      ∧ (hops e = 1 → address (ep_address e) = address remote)
      ∧ (1 < hops e → mkEndpoint (hops e - 1) (ep_address e) ∈ l).
Proof.
  intros Hl. destruct (preprocess_ok remote l Hl) as (Hall&?&?). split_and!; [done..|].
  intros e He. rewrite Forall_forall in Hall. by destruct (Hall e He) as (?&?&?&?).
Qed.

(** An endpoint message from an active slot is processed without failure: the peer is
    recorded as knowing everything that was kept, every kept endpoint beyond the sender
    is in the live cache at no greater distance, a connectivity check is only started
    against the sender's own address, and the slot table and keys do not change. *)
Theorem on_endpoints_outcome p s l now st t :
  reachable (st, t) → t <= now → registered p s st → m_state s = active →
  Forall (fun e => 0 <= hops e) l →
  ∃ checks st' s', on_endpoints p l now st = Ok (checks, st') ∧ registered p s' st'
    ∧ whenAcceptEndpoints s' = now + seconds 5
    ∧ (∀ c, c ∈ checks → address c = address (m_remote_endpoint s))
    ∧ Forall (learned s' st') (preprocess (m_remote_endpoint s) l)
    ∧ slots_ st' = slots_ st ∧ keys_ st' = keys_ st.
Proof.
  intros Hr%reachable_wf Ht Hreg Hst Hl.
  destruct (on_endpoints_ok p s l now st t Hr Ht Hreg Hst Hl)
    as (checks&st'&s'&->&_&Hreg'&_&Hw&Hc&Hs&Hk&Hle). by exists checks, st', s'.
Qed.

(** An endpoint message with one valid address and a negative hop count passes
    preprocess and makes the assertion of the live cache fail. *)
Theorem on_endpoints_negative_hops p s h a now st t :
  reachable (st, t) → registered p s st → m_state s = active →
  -2 ^ 31 <= h < 0 → is_valid_address a = true →
  on_endpoints p [mkEndpoint h a] now st = Err assert_failed.
Proof.
  intros Hr%reachable_wf Hreg Hst Hh Ha. pose proof Hreg as [Hs Hp].
  unfold on_endpoints. rewrite (get_slot_ok _ s) by done. simpl.
  rewrite (assert_in_table_ok p) by done. simpl. rewrite bool_decide_true by done. simpl.
  assert (preprocess (m_remote_endpoint s) [mkEndpoint h a] = [mkEndpoint (h + 1) a]) as ->.
  { unfold preprocess. simpl. destruct (Z.ltb_spec Tuning.maxHops h);
      [unfold Tuning.maxHops in *; lia|]. destruct (Z.eqb_spec h 0); [lia|].
    simpl. rewrite Ha. simpl. by rewrite i32_small by lia. }
  simpl. unfold on_endpoint. simpl. destruct (Z.eqb_spec (h + 1) 0); [done|]. simpl.
  rewrite (get_slot_ok _ s) by done. simpl. destruct (Z.eqb_spec (h + 1) 1); [lia|].
  set (st1 := put_slot _ _ _).
  assert (livecache_ st1 = livecache_ st) as -> by (by destruct st).
  by rewrite (live_insert_negative _ _ _ _ (lf_live _ _ Hr)) by (simpl; lia).
Qed.

(** A redirect message adds at most its first thirty addresses to the boot cache. *)
Theorem onRedirects_bounded eps now st ep :
  ep ∈ boot_endpoints (bootcache_ (onRedirects eps now st)) →
  ep ∈ boot_endpoints (bootcache_ st) ∨ ep ∈ take 30 eps.
Proof.
  unfold onRedirects.
  assert (∀ n st, 0 <= n <= 30 →
    ep ∈ boot_endpoints (bootcache_ (onRedirects_loop eps n now st)) →
    ep ∈ boot_endpoints (bootcache_ st) ∨ ep ∈ take (30 - Z.to_nat n) eps) as Hgen.
  { clear st. induction eps as [|e eps IH]; intros n st Hn; simpl; [by left|].
    destruct (Z.ltb_spec n Tuning.maxRedirects) as [Hlt|]; [|by left].
    unfold Tuning.maxRedirects in Hlt. intros Hin. apply IH in Hin; [|lia].
    replace (30 - Z.to_nat n)%nat with (Datatypes.S (30 - Z.to_nat (n + 1)))%nat by lia. simpl.
    rewrite elem_of_cons. destruct Hin as [Hin|]; [|by auto].
    assert (bootcache_ (with_bootcache (boot_insert e now (bootcache_ st)).1 st)
            = (boot_insert e now (bootcache_ st)).1) as Hb by (by destruct st).
    rewrite Hb in Hin. apply boot_insert_endpoints in Hin. tauto. }
  intros Hin. apply (Hgen 0 st) in Hin; [|lia]. done.
Qed.
End properties.

(** ** The properties at the states of the run *)

Lemma reachable_safe_witness :
  ∃ st', run (op_activate 3%positive [13] true) 20 (demo 9) = Ok st' ∧ reachable (st', 20).
Proof.
  apply (reachable_safe _ 20 (demo 9) 9); [apply (demo_reachable 9); lia|lia|].
  exists (demo_slot 9 3). split_and!; [compute_registered|left; vm_compute; reflexivity|].
  intros _. compute_room.
Defined.

Lemma reachable_counts_witness :
  msum (contrib k_active) (view (slots_ (demo 9)) (lheap (demo 9))) = 2
  ∧ get k_active (counts_ (demo 9)) = 2.
Proof.
  split; [vm_compute; reflexivity|].
  rewrite (reachable_counts (demo 9) 9) by (apply (demo_reachable 9); lia).
  vm_compute. reflexivity.
Defined.

Lemma reachable_keys_witness :
  ∃ p s, registered p s (demo 9) ∧ m_state s = active ∧ m_public_key s = Some demo_key.
Proof.
  apply (proj1 (reachable_keys (demo 9) 9 demo_key (demo_reachable 9 ltac:(lia)))).
  by_compute.
Defined.

Lemma new_inbound_limit_witness :
  ∃ o st', new_inbound_slot (host 99) (host 7) (demo 9) = Ok (o, st') ∧ (o = None → st' = demo 9).
Proof.
  destruct (new_inbound_limit (host 99) (host 7) (demo 9) 9) as (o&st'&?&_&?&_).
  - apply (demo_reachable 9). lia.
  - vm_compute. reflexivity.
  - exists o, st'. split; assumption.
Defined.

Lemma onConnected_outcome_witness :
  ∃ b st' s', onConnected 4%positive (host 99) (demo 9) = Ok (b, st') ∧ registered 4%positive s' st'
    ∧ m_local_endpoint s' = Some (host 99).
Proof.
  destruct (onConnected_outcome 4%positive (demo_slot 9 4) (host 99) (demo 9) 9)
    as (b&st'&s'&?&?&_&_&?).
  - apply (demo_reachable 9). lia.
  - compute_registered.
  - vm_compute. reflexivity.
  - apply demo_no_self. vm_compute. reflexivity.
  - exists b, st', s'. split_and!; assumption.
Defined.

Lemma activate_decides_witness :
  ∃ r st' s', activate 3%positive demo_key false 20 (demo 9) = Ok (r, st')
    ∧ registered 3%positive s' st' ∧ r = duplicate.
Proof.
  destruct (activate_decides 3%positive (demo_slot 9 3) demo_key false 20 (demo 9) 9)
    as (r&st'&s'&?&?&Hr&_).
  - apply (demo_reachable 9). lia.
  - compute_registered.
  - left. vm_compute. reflexivity.
  - intros _. compute_room.
  - exists r, st', s'. split_and!; [assumption..|].
    rewrite Hr, decide_True; [reflexivity|]. by_compute.
Defined.

Lemma open_close_roundtrip_witness :
  ∃ st2, on_closed 4%positive 20 (demo 9) = Ok st2 ∧ slots_ st2 = slots_ (demo 8).
Proof.
  destruct (open_close_roundtrip (host 6) 4%positive 20 (demo 8) (demo 9) 8) as (st2&?&?&_).
  - apply (demo_reachable 8). lia.
  - compute_room.
  - vm_compute. reflexivity.
  - exists st2. split; assumption.
Defined.

Lemma autoconnect_selects_witness :
  ∃ c st', autoconnect 3 20 (demo 9) = Ok (c, st') ∧ NoDup (address <$> c).
Proof.
  destruct (autoconnect_selects 3 20 (demo 9) 9) as (c&st'&?&_&?&_).
  - apply (demo_reachable 9). lia.
  - lia.
  - exists c, st'. split; assumption.
Defined.

Lemma redirect_selects_witness :
  ∃ l st', redirect 3%positive 3 20 (demo 9) = Ok (l, st') ∧ (length l <= 10)%nat.
Proof.
  destruct (redirect_selects 3%positive (demo_slot 9 3) 3 20 (demo 9) 9) as (l&st'&?&?&_).
  - apply (demo_reachable 9). lia.
  - vm_compute. reflexivity.
  - exists l, st'. split; assumption.
Defined.

Lemma broadcast_selects_witness :
  ∃ r st', buildEndpointsForPeers 3 20 (demo 9) = Ok (r, st') ∧ r.*1 ≡ₚ active_slots (demo 9).
Proof.
  destruct (broadcast_selects 3 20 (demo 9) 9) as (r&st'&?&?&_).
  - apply (demo_reachable 9). lia.
  - vm_compute. discriminate.
  - lia.
  - exists r, st'. split; assumption.
Defined.

Lemma preprocess_sound_witness :
  NoDup (ep_address <$> preprocess (host 1) [mkEndpoint 0 (host 3); mkEndpoint 2 (host 4)]).
Proof. apply preprocess_sound. repeat constructor; discriminate. Defined.

Lemma on_endpoints_outcome_witness :
  ∃ checks st' s',
    on_endpoints 2%positive [mkEndpoint 0 (host 3)] 20 (demo 9) = Ok (checks, st')
    ∧ registered 2%positive s' st' ∧ whenAcceptEndpoints s' = 5000000020.
Proof.
  destruct (on_endpoints_outcome 2%positive (demo_slot 9 2) [mkEndpoint 0 (host 3)] 20 (demo 9) 9)
    as (checks&st'&s'&?&?&Hw&_).
  - apply (demo_reachable 9). lia.
  - lia.
  - compute_registered.
  - vm_compute. reflexivity.
  - repeat constructor; discriminate.
  - exists checks, st', s'. split_and!; [assumption..|]. exact Hw.
Defined.

Lemma on_endpoints_negative_hops_witness :
  on_endpoints 2%positive [mkEndpoint (-1) (host 3)] 20 (demo 9) = Err assert_failed.
Proof.
  apply (on_endpoints_negative_hops 2%positive (demo_slot 9 2) (-1) (host 3) 20 (demo 9) 9).
  - apply (demo_reachable 9). lia.
  - compute_registered.
  - vm_compute. reflexivity.
  - lia.
  - vm_compute. reflexivity.
Defined.

Lemma onRedirects_bounded_witness :
  host 8 ∈ boot_endpoints (bootcache_ (demo 9)) ∨ host 8 ∈ take 30 [host 8].
Proof.
  apply (onRedirects_bounded [host 8] 20). by_compute.
Defined.
