(* ===== verification/Decaying.v ===== *)
(** * DecayingSample (basics/DecayingSample.h)

    A sum of samples that decays exponentially: each full second takes the fraction
    [1 / Window] of the value, rounded up.  Values are [Clock::duration::rep], a signed
    64-bit count, with C++ (truncating) division; time points are clock ticks. *)

From S2P Require Import Prelude Slot.

Local Open Scope Z_scope.

Record DecayingSample := mkSample { s_value : Z; s_when : Z }.

Section DecayingSample.
Context (Window : Z).
Implicit Types (s : DecayingSample) (now v : Z).

Definition sample_init now : DecayingSample := mkSample 0 now.

(** The body of the loop of [decay]. *)
Definition tick v : Z := v - Z.quot (v + Window - 1) Window.

(** [duration_cast <seconds> (now - m_when).count ()], read as a [std::size_t]. *)
Definition elapsed_seconds now s : Z := u64 (Z.quot (now - s_when s) (seconds 1)).

Definition decay now s : DecayingSample :=
  if now =? s_when s then s
  else
    mkSample
      (if s_value s =? 0 then 0
       else
         let elapsed := elapsed_seconds now s in
         if 4 * Window <? elapsed then 0
         else Nat.iter (Z.to_nat elapsed) tick (s_value s))
      now.

(** [add] and [value] return the value per second of the window. *)
Definition sample_add (v : Z) now s : Z * DecayingSample :=
  let s := decay now s in
  let s := mkSample (s_value s + v) (s_when s) in
  (Z.quot (s_value s) Window, s).

Definition sample_value now s : Z * DecayingSample :=
  let s := decay now s in
  (Z.quot (s_value s) Window, s).
End DecayingSample.

(** ** Lemmas *)

Section lemmas.
Context (Window : Z).
Hypothesis HW : 1 <= Window.
Implicit Types (s : DecayingSample) (now v : Z).

(** The fraction taken is the value over [Window], rounded up. *)
Lemma tick_bounds v :
  0 <= v → 0 <= tick Window v /\ (Window - 1) * v - Window < Window * tick Window v
  /\ Window * tick Window v <= (Window - 1) * v.
Proof.
  intros Hv. unfold tick. rewrite Z.quot_div_nonneg by lia.
  pose proof (Z.div_mod (v + Window - 1) Window ltac:(lia)) as Hd.
  pose proof (Z.mod_pos_bound (v + Window - 1) Window ltac:(lia)) as Hm.
  assert (0 <= v - (v + Window - 1) / Window).
  { destruct (decide (v = 0)) as [->|]; [rewrite Z.div_small by lia; lia|].
    assert ((v + Window - 1) / Window <= v); [|lia]. apply Z.div_le_upper_bound; nia. }
  rewrite !Z.mul_sub_distr_l, Z.mul_sub_distr_r.
  set (q := Window * ((v + Window - 1) / Window)) in *. lia.
Qed.

Lemma tick_nonneg v : 0 <= v → 0 <= tick Window v.
Proof. intros Hv. by destruct (tick_bounds v Hv). Qed.

Lemma tick_decreases v : 0 < v → tick Window v < v.
Proof. intros Hv. destruct (tick_bounds v) as (_&_&?); [lia|]. nia. Qed.

Lemma tick_zero : tick Window 0 = 0.
Proof. unfold tick. rewrite Z.quot_small by lia. done. Qed.

Lemma ticks_nonneg n v : 0 <= v → 0 <= Nat.iter n (tick Window) v.
Proof. intros Hv. induction n; simpl; [done|]. by apply tick_nonneg. Qed.

Lemma ticks_le n v : 0 <= v → Nat.iter n (tick Window) v <= v.
Proof.
  intros Hv. induction n as [|n IH]; simpl; [done|].
  destruct (tick_bounds (Nat.iter n (tick Window) v)) as (_&_&?); [by apply ticks_nonneg|].
  pose proof (ticks_nonneg n v Hv). nia.
Qed.

Lemma ticks_zero n : Nat.iter n (tick Window) 0 = 0.
Proof. induction n as [|n IH]; simpl; [done|]. by rewrite IH, tick_zero. Qed.

Lemma ticks_exponential n v :
  0 <= v →
  Window ^ Z.of_nat n * Nat.iter n (tick Window) v <= (Window - 1) ^ Z.of_nat n * v.
Proof.
  intros Hv. induction n as [|n IH]; [simpl; lia|].
  rewrite Nat2Z.inj_succ, !Z.pow_succ_r by lia. simpl.
  pose proof (tick_bounds _ (ticks_nonneg n v Hv)) as (_&_&Ht).
  set (x := Nat.iter n (tick Window) v) in *.
  assert (0 <= Window ^ Z.of_nat n) by (apply Z.pow_nonneg; lia).
  assert (Window ^ Z.of_nat n * (Window * tick Window x)
          <= Window ^ Z.of_nat n * ((Window - 1) * x)) by (by apply Z.mul_le_mono_nonneg_l).
  assert ((Window - 1) * (Window ^ Z.of_nat n * x)
          <= (Window - 1) * ((Window - 1) ^ Z.of_nat n * v))
    by (apply Z.mul_le_mono_nonneg_l; lia).
  lia.
Qed.

Lemma decay_range now s : 0 <= s_value s → 0 <= s_value (decay Window now s) <= s_value s.
Proof.
  intros Hv. unfold decay. case_match; [lia|]. simpl.
  destruct (Z.eqb_spec (s_value s) 0); [lia|]. case_match; [lia|].
  split; [by apply ticks_nonneg|by apply ticks_le].
Qed.

Lemma decay_when now s : s_when (decay Window now s) = now.
Proof. unfold decay. destruct (Z.eqb_spec now (s_when s)); [by subst|done]. Qed.

(** Whole seconds within the reset span. *)
Lemma decay_seconds n s :
  0 <= n <= 4 * Window → 4 * Window < 2 ^ 64 →
  decay Window (s_when s + seconds n) s
  = mkSample (Nat.iter (Z.to_nat n) (tick Window) (s_value s)) (s_when s + seconds n).
Proof.
  intros Hn Hb. unfold decay, seconds. destruct (Z.eqb_spec (s_when s + n * 1000000000) (s_when s)).
  { assert (n = 0) as -> by lia. rewrite e. by destruct s. }
  f_equal. destruct (Z.eqb_spec (s_value s) 0) as [->|_]; [by rewrite ticks_zero|].
  unfold elapsed_seconds, seconds.
  replace (s_when s + n * 1000000000 - s_when s) with (n * (1 * 1000000000)) by lia.
  rewrite Z.quot_mul, u64_small by lia. by rewrite (proj2 (Z.ltb_ge _ _)) by lia.
Qed.
End lemmas.

(** ** Properties *)

(** Over n seconds within four windows the sample decays at least as fast as by a factor
    (1 - 1/Window) a second, never below zero and never growing. *)
Theorem decay_exponential Window n s :
  1 <= Window → 4 * Window < 2 ^ 64 → 0 <= s_value s → 0 <= n <= 4 * Window →
  let v := s_value (decay Window (s_when s + seconds n) s) in
  0 <= v <= s_value s ∧ Window ^ n * v <= (Window - 1) ^ n * s_value s.
Proof.
  intros HW Hb Hv Hn. simpl. split; [by apply decay_range|].
  rewrite decay_seconds by done. simpl.
  pose proof (ticks_exponential Window HW (Z.to_nat n) (s_value s) Hv) as He.
  by rewrite Z2Nat.id in He by lia.
Qed.

Lemma decay_exponential_witness :
  32 ^ 10 * s_value (decay 32 (7 + seconds 10) (mkSample 6400 7)) <= 31 ^ 10 * 6400.
Proof. apply (decay_exponential 32 10 (mkSample 6400 7)); simpl; lia. Defined.

(** Decaying by m and then by n seconds is decaying by m + n seconds. *)
Theorem decay_compose Window m n s :
  1 <= Window → 4 * Window < 2 ^ 64 → 0 <= m → 0 <= n → m + n <= 4 * Window →
  decay Window (s_when s + seconds (m + n)) s
  = decay Window (s_when s + seconds (m + n)) (decay Window (s_when s + seconds m) s).
Proof.
  intros HW Hb Hm Hn Hs. rewrite (decay_seconds Window HW m), (decay_seconds Window HW (m + n))
    by lia.
  set (s' := mkSample _ (s_when s + seconds m)).
  replace (s_when s + seconds (m + n)) with (s_when s' + seconds n)
    by (unfold s', seconds; simpl; lia).
  rewrite decay_seconds by lia. f_equal. unfold s'. simpl.
  rewrite Z.add_comm, Z2Nat.inj_add, Nat.iter_add by lia. done.
Qed.

Lemma decay_compose_witness :
  decay 32 (seconds 5) (mkSample 900 0)
  = decay 32 (seconds 5) (decay 32 (seconds 2) (mkSample 900 0)).
Proof. apply (decay_compose 32 2 3 (mkSample 900 0)); simpl; lia. Defined.

(** Samples taken at the times of a list. *)
Definition observe (Window : Z) (times : list Z) (s : DecayingSample) : DecayingSample :=
  foldl (fun s now => decay Window now s) s times.

(** Each time follows the previous one by less than a second. *)
Fixpoint subsecond (last : Z) (times : list Z) : Prop :=
  match times with
  | [] => True
  | now :: times' => last <= now < last + seconds 1 ∧ subsecond now times'
  end.

(** Observing the sample more often than once a second keeps it from decaying at all. *)
Theorem decay_frozen_by_observation Window times s :
  0 <= Window → subsecond (s_when s) times →
  s_value (observe Window times s) = s_value s.
Proof.
  intros HW. revert s. induction times as [|now times IH]; intros s Hs; simpl; [done|].
  destruct Hs as [Hnow Hs].
  assert (decay Window now s = mkSample (s_value s) now) as ->.
  { unfold decay. destruct (Z.eqb_spec now (s_when s)) as [->|]; [by destruct s|]. f_equal.
    destruct (Z.eqb_spec (s_value s) 0); [done|].
    unfold elapsed_seconds. rewrite Z.quot_small by lia. change (u64 0) with 0.
    by rewrite (proj2 (Z.ltb_ge _ _)) by lia. }
  by apply (IH (mkSample (s_value s) now)).
Qed.

Lemma decay_frozen_by_observation_witness :
  s_value (observe 32 [999999999; 1999999998; 2999999997] (mkSample 6400 0)) = 6400.
Proof.
  apply decay_frozen_by_observation; [lia|]. simpl. unfold seconds. lia.
Defined.
