(* ===== verification/Resource.v ===== *)
(** * Resource manager (resource/impl/Logic.h, Entry.h, Key.h, Import.h, Consumer.cpp)

    Load accounting of the consumers of the server.  A [Consumer] is a counted reference
    to an [Entry] of [table_]; an entry with references is on the list of its kind, one
    without waits on [inactive_] until it expires.  Gossip from other nodes adds to the
    balance of inbound consumers and holds references to them.

    Entries are nodes of a [hash_map], so a pointer to an entry is represented by its key.
    Every operation runs under the lock and reads the clock as [now].  [int] balances are
    kept at 32 bits; [refcount] counts the [Consumer] objects in memory. *)

From S2P Require Import Prelude IPAddr Slot Decaying.
From stdpp Require Import gmultiset strings relations.

Local Open Scope Z_scope.

(** ** Tuning.h, Fees.cpp, Disposition.h *)

Module RTuning.
Definition warningThreshold : Z := 500.
Definition dropThreshold : Z := 1500.
Definition secondsUntilExpiration : Z := 300.
Definition decayWindowSeconds : Z := 32.
Definition minimumGossipBalance : Z := 100.
Definition gossipExpirationSeconds : Z := 30.
End RTuning.

(** A [Charge] is compared by its cost, its label is for the log. *)
Definition Charge : Type := Z.
Definition feeInvalidRequest : Charge := 10.
Definition feeRequestNoReply : Charge := 1.
Definition feeInvalidSignature : Charge := 100.
Definition feeUnwantedData : Charge := 15.
Definition feeBadData : Charge := 20.
Definition feeInvalidRPC : Charge := 10.
Definition feeReferenceRPC : Charge := 2.
Definition feeExceptionRPC : Charge := 10.
Definition feeLightRPC : Charge := 5.
Definition feeLowBurdenRPC : Charge := 20.
Definition feeMediumBurdenRPC : Charge := 40.
Definition feeHighBurdenRPC : Charge := 300.
Definition feeLightPeer : Charge := 1.
Definition feeLowBurdenPeer : Charge := 2.
Definition feeMediumBurdenPeer : Charge := 50.
Definition feeHighBurdenPeer : Charge := 250.
Definition feeNewTrustedNote : Charge := 10.
Definition feeNewValidTx : Charge := 10.
Definition feeSatisfiedRequest : Charge := 10.
Definition feeWarning : Charge := 200.
Definition feeDrop : Charge := 300.

Inductive Disposition := disp_ok | disp_warn | disp_drop.

Definition disposition (balance : Z) : Disposition :=
  if RTuning.dropThreshold <=? balance then disp_drop
  else if RTuning.warningThreshold <=? balance then disp_warn
  else disp_ok.

(** ** Kind.h, Key.h *)

Inductive Kind := kindInbound | kindOutbound | kindUnlimited.

#[global] Instance Kind_eq_dec : EqDecision Kind.
Proof. solve_decision. Defined.

(** The key of a connection has an address, that of an unlimited consumer a name. *)
Inductive Key :=
| inbound_key (address : IPEndpoint)
| outbound_key (address : IPEndpoint)
| unlimited_key (name : string).

#[global] Instance Key_eq_dec : EqDecision Key.
Proof. solve_decision. Defined.

#[global] Instance Key_countable : Countable Key.
Proof.
  refine (inj_countable'
    (fun k => match k with
              | inbound_key a => inl (inl a) | outbound_key a => inl (inr a)
              | unlimited_key n => inr n end)
    (fun x => match x with
              | inl (inl a) => inbound_key a | inl (inr a) => outbound_key a
              | inr n => unlimited_key n end) _).
  by intros [].
Defined.

Definition key_kind (k : Key) : Kind :=
  match k with
  | inbound_key _ => kindInbound
  | outbound_key _ => kindOutbound
  | unlimited_key _ => kindUnlimited
  end.

(** [Key::key_equal] *)
Definition key_equal (lhs rhs : Key) : bool :=
  if negb (bool_decide (key_kind lhs = key_kind rhs)) then false
  else match lhs, rhs with
       | inbound_key a, inbound_key b | outbound_key a, outbound_key b => ep_eqb a b
       | unlimited_key n, unlimited_key m => bool_decide (n = m)
       | _, _ => false
       end.

(** ** Entry.h *)

Record Entry := mkEntry {
  refcount : Z;
  local_balance : DecayingSample;
  remote_balance : Z;
  lastWarningTime : Z;
  e_whenExpires : Z
}.

Definition Entry_init (now : Z) : Entry := mkEntry 0 (sample_init now) 0 0 0.

Definition set_refcount (n : Z) (e : Entry) : Entry :=
  mkEntry n (local_balance e) (remote_balance e) (lastWarningTime e) (e_whenExpires e).
Definition set_local (s : DecayingSample) (e : Entry) : Entry :=
  mkEntry (refcount e) s (remote_balance e) (lastWarningTime e) (e_whenExpires e).
Definition set_remote (b : Z) (e : Entry) : Entry :=
  mkEntry (refcount e) (local_balance e) b (lastWarningTime e) (e_whenExpires e).
Definition set_lastWarning (w : Z) (e : Entry) : Entry :=
  mkEntry (refcount e) (local_balance e) (remote_balance e) w (e_whenExpires e).
Definition set_expires (w : Z) (e : Entry) : Entry :=
  mkEntry (refcount e) (local_balance e) (remote_balance e) (lastWarningTime e) w.

Definition isUnlimited (k : Key) : bool := bool_decide (key_kind k = kindUnlimited).

(** [Entry::balance] and [Entry::add]: the 64-bit sum is returned as an [int]. *)
Definition entry_balance (now : Z) (e : Entry) : Z * Entry :=
  let '(v, s) := sample_value RTuning.decayWindowSeconds now (local_balance e) in
  (i32 (v + remote_balance e), set_local s e).

Definition entry_add (charge : Z) (now : Z) (e : Entry) : Z * Entry :=
  let '(v, s) := sample_add RTuning.decayWindowSeconds charge now (local_balance e) in
  (i32 (v + remote_balance e), set_local s e).

(** ** Consumer, Import, Gossip *)

(** A [Consumer] refers to an entry, or to none when default constructed. *)
Definition Consumer : Type := option Key.

Record Item := mkItem { item_balance : Z; item_consumer : Consumer }.
Record Import := mkImport { i_whenExpires : Z; i_items : list Item }.

Record GossipItem := mkGossip { g_balance : Z; g_address : IPEndpoint }.
Definition Gossip : Type := list GossipItem.

(** The order in which the hash map [importTable_] is traversed is not specified. *)
Class Traversal := {
  traverse : gmap string Import → list string;
  traverse_perm : ∀ m, traverse m ≡ₚ (map_to_list m).*1
}.

(** ** Logic *)

Record RLogic := mkRLogic {
  table_ : gmap Key Entry;
  inbound_ : list Key;
  outbound_ : list Key;
  admin_ : list Key;
  inactive_ : list Key;
  importTable_ : gmap string Import;
  stats_warn : Z;
  stats_drop : Z
}.

Definition RLogic_init : RLogic := mkRLogic ∅ [] [] [] [] ∅ 0 0.

Definition with_table (t : gmap Key Entry) (st : RLogic) : RLogic :=
  mkRLogic t (inbound_ st) (outbound_ st) (admin_ st) (inactive_ st) (importTable_ st)
    (stats_warn st) (stats_drop st).
Definition with_inactive (l : list Key) (st : RLogic) : RLogic :=
  mkRLogic (table_ st) (inbound_ st) (outbound_ st) (admin_ st) l (importTable_ st)
    (stats_warn st) (stats_drop st).
Definition with_imports (m : gmap string Import) (st : RLogic) : RLogic :=
  mkRLogic (table_ st) (inbound_ st) (outbound_ st) (admin_ st) (inactive_ st) m
    (stats_warn st) (stats_drop st).
Definition with_stats (w d : Z) (st : RLogic) : RLogic :=
  mkRLogic (table_ st) (inbound_ st) (outbound_ st) (admin_ st) (inactive_ st)
    (importTable_ st) w d.

(** The list of the active entries of a kind. *)
Definition active_list (kd : Kind) (st : RLogic) : list Key :=
  match kd with
  | kindInbound => inbound_ st | kindOutbound => outbound_ st | kindUnlimited => admin_ st
  end.
Definition with_active (kd : Kind) (l : list Key) (st : RLogic) : RLogic :=
  mkRLogic (table_ st)
    (match kd with kindInbound => l | _ => inbound_ st end)
    (match kd with kindOutbound => l | _ => outbound_ st end)
    (match kd with kindUnlimited => l | _ => admin_ st end)
    (inactive_ st) (importTable_ st) (stats_warn st) (stats_drop st).

(** [List::erase (iterator_to (e))] and [List::push_back (e)] of an intrusive list: the
    element must, and must not, be in the list. *)
Definition list_erase (k : Key) (l : list Key) : res (list Key) :=
  if decide (k ∈ l) then Ok (erase1 k l) else Err undefined.
Definition list_push_back (k : Key) (l : list Key) : res (list Key) :=
  if decide (k ∈ l) then Err undefined else Ok (l ++ [k]).

(** The common body of [newInboundEndpoint], [newOutboundEndpoint] and
    [newUnlimitedEndpoint]: find or emplace the entry and take a reference. *)
Definition new_endpoint (k : Key) (now : Z) (st : RLogic) : res RLogic :=
  let '(e, inserted) := match table_ st !! k with
                        | Some e => (e, false)
                        | None => (Entry_init now, true)
                        end in
  let e := set_refcount (refcount e + 1) e in
  let st := with_table (<[k := e]> (table_ st)) st in
  if refcount e =? 1 then
    inact ← (if (inserted : bool) then Ok (inactive_ st) else list_erase k (inactive_ st));
    let st := with_inactive inact st in
    l ← list_push_back k (active_list (key_kind k) st);
    Ok (with_active (key_kind k) l st)
  else Ok st.

Definition inbound_of (a : IPEndpoint) : Key := inbound_key (at_port a 0).

Definition newInboundEndpoint (a : IPEndpoint) (now : Z) (st : RLogic) : res RLogic :=
  new_endpoint (inbound_of a) now st.
Definition newOutboundEndpoint (a : IPEndpoint) (now : Z) (st : RLogic) : res RLogic :=
  new_endpoint (outbound_key a) now st.
Definition newUnlimitedEndpoint (name : string) (now : Z) (st : RLogic) : res RLogic :=
  new_endpoint (unlimited_key name) now st.

(** [acquire] and [release] *)
Definition acquire (k : Key) (st : RLogic) : res RLogic :=
  e ← deref (table_ st !! k);
  Ok (with_table (<[k := set_refcount (refcount e + 1) e]> (table_ st)) st).

Definition release (k : Key) (now : Z) (st : RLogic) : res RLogic :=
  e ← deref (table_ st !! k);
  let e := set_refcount (refcount e - 1) e in
  let st := with_table (<[k := e]> (table_ st)) st in
  if refcount e =? 0 then
    l ← list_erase k (active_list (key_kind k) st);
    let st := with_active (key_kind k) l st in
    inact ← list_push_back k (inactive_ st);
    let st := with_inactive inact st in
    Ok (with_table (<[k := set_expires (now + RTuning.secondsUntilExpiration) e]> (table_ st)) st)
  else Ok st.

(** Copy construction, assignment and destruction of a [Consumer]. *)
Definition consumer_copy (other : Consumer) (st : RLogic) : res RLogic :=
  match other with Some k => acquire k st | None => Ok st end.
Definition consumer_destroy (c : Consumer) (now : Z) (st : RLogic) : res RLogic :=
  match c with Some k => release k now st | None => Ok st end.
Definition consumer_assign (this other : Consumer) (now : Z) (st : RLogic) : res RLogic :=
  st ← consumer_destroy this now st;
  consumer_copy other st.

(** ** Gossip *)

(** [consumer.entry ().remote_balance += d] *)
Definition add_remote (c : Consumer) (d : Z) (st : RLogic) : res RLogic :=
  k ← deref c;
  e ← deref (table_ st !! k);
  Ok (with_table (<[k := set_remote (i32 (remote_balance e + d)) e]> (table_ st)) st).

(** One iteration of the loop over the gossip: the temporary returned by
    [newInboundEndpoint] is assigned to the item and destroyed, the item is copied into
    the vector and destroyed. *)
Definition import_item (g : GossipItem) (now : Z) (st : RLogic) : res (Item * RLogic) :=
  let temp : Consumer := Some (inbound_of (g_address g)) in
  st ← newInboundEndpoint (g_address g) now st;
  st ← consumer_assign None temp now st;
  st ← consumer_destroy temp now st;
  let item := mkItem (g_balance g) temp in
  st ← add_remote (item_consumer item) (item_balance item) st;
  st ← consumer_copy (item_consumer item) st;
  st ← consumer_destroy (item_consumer item) now st;
  Ok (item, st).

Fixpoint import_items (gossip : Gossip) (now : Z) (st : RLogic) : res (list Item * RLogic) :=
  match gossip with
  | [] => Ok ([], st)
  | g :: gossip' =>
      '(item, st) ← import_item g now st;
      '(items, st) ← import_items gossip' now st;
      Ok (item :: items, st)
  end.

(** Deducts the balances of the items from their consumers. *)
Fixpoint deduct_items (items : list Item) (st : RLogic) : res RLogic :=
  match items with
  | [] => Ok st
  | i :: items' =>
      st ← add_remote (item_consumer i) (- item_balance i) st;
      deduct_items items' st
  end.

(** The destructor of a vector of items. *)
Fixpoint destroy_items (items : list Item) (now : Z) (st : RLogic) : res RLogic :=
  match items with
  | [] => Ok st
  | i :: items' =>
      st ← consumer_destroy (item_consumer i) now st;
      destroy_items items' now st
  end.

Definition importConsumers (origin : string) (gossip : Gossip) (now : Z) (st : RLogic)
  : res RLogic :=
  let elapsed := now in
  match importTable_ st !! origin with
  | None =>
      '(items, st) ← import_items gossip now st;
      let next := mkImport (elapsed + RTuning.gossipExpirationSeconds) items in
      Ok (with_imports (<[origin := next]> (importTable_ st)) st)
  | Some prev =>
      '(items, st) ← import_items gossip now st;
      let next := mkImport (elapsed + RTuning.gossipExpirationSeconds) items in
      st ← deduct_items (i_items prev) st;
      let st := with_imports (<[origin := next]> (importTable_ st)) st in
      destroy_items (i_items prev) now st
  end.

(** [exportConsumers]: reading a balance ages it. *)
Fixpoint export_loop (l : list Key) (now : Z) (st : RLogic) : res (Gossip * RLogic) :=
  match l with
  | [] => Ok ([], st)
  | k :: l' =>
      e ← deref (table_ st !! k);
      let '(v, s) := sample_value RTuning.decayWindowSeconds now (local_balance e) in
      let st := with_table (<[k := set_local s e]> (table_ st)) st in
      '(items, st) ← export_loop l' now st;
      match k with
      | inbound_key a | outbound_key a =>
          Ok (if RTuning.minimumGossipBalance <=? i32 v then mkGossip (i32 v) a :: items
              else items, st)
      | unlimited_key _ => Ok (items, st)
      end
  end.
Definition exportConsumers (now : Z) (st : RLogic) : res (Gossip * RLogic) :=
  export_loop (inbound_ st) now st.

(** ** Periodic activity *)

Definition erase (k : Key) (st : RLogic) : res RLogic :=
  e ← deref (table_ st !! k);
  assert_ (refcount e =? 0);;
  l ← list_erase k (inactive_ st);
  Ok (with_table (delete k (table_ st)) (with_inactive l st)).

(** The loop over [inactive_], whose elements were [l] when it started. *)
Fixpoint expire_inactive (l : list Key) (now : Z) (st : RLogic) : res RLogic :=
  match l with
  | [] => Ok st
  | k :: l' =>
      e ← deref (table_ st !! k);
      if e_whenExpires e <=? now then
        st ← erase k st;
        expire_inactive l' now st
      else Ok st
  end.

(** The loop over [importTable_], in the order of its traversal. *)
Fixpoint expire_imports (names : list string) (now : Z) (st : RLogic) : res RLogic :=
  match names with
  | [] => Ok st
  | name :: names' =>
      import ← deref (importTable_ st !! name);
      st ← (if i_whenExpires import <=? now then
              st ← deduct_items (i_items import) st;
              let st := with_imports (delete name (importTable_ st)) st in
              destroy_items (i_items import) now st
            else Ok st);
      expire_imports names' now st
  end.

Definition periodicActivity `{!Traversal} (now : Z) (st : RLogic) : res RLogic :=
  st ← expire_inactive (inactive_ st) now st;
  expire_imports (traverse (importTable_ st)) now st.

(** ** Charging *)

(** The entry of a consumer is read and updated. *)
Definition on_entry {A} (k : Key) (f : Entry → A * Entry) (st : RLogic) : res (A * RLogic) :=
  e ← deref (table_ st !! k);
  let '(a, e') := f e in
  Ok (a, with_table (<[k := e']> (table_ st)) st).

Definition charge (k : Key) (fee : Charge) (now : Z) (st : RLogic) : res (Disposition * RLogic) :=
  '(b, st) ← on_entry k (entry_add fee now) st;
  Ok (disposition b, st).

Definition warn (k : Key) (now : Z) (st : RLogic) : res (bool * RLogic) :=
  if isUnlimited k then Ok (false, st)
  else
    let elapsed := now in
    '(x, st) ← on_entry k (fun e => let '(b, e') := entry_balance now e in
                                    ((b, lastWarningTime e'), e')) st;
    if (RTuning.warningThreshold <=? x.1) && negb (elapsed =? x.2) then
      '(_, st) ← charge k feeWarning now st;
      '(_, st) ← on_entry k (fun e => (tt, set_lastWarning elapsed e)) st;
      Ok (true, with_stats (stats_warn st + 1) (stats_drop st) st)
    else Ok (false, st).

Definition disconnect (k : Key) (now : Z) (st : RLogic) : res (bool * RLogic) :=
  if isUnlimited k then Ok (false, st)
  else
    '(b, st) ← on_entry k (entry_balance now) st;
    if RTuning.dropThreshold <=? b then
      '(_, st) ← charge k feeDrop now st;
      Ok (true, with_stats (stats_warn st) (stats_drop st + 1) st)
    else Ok (false, st).

Definition balance (k : Key) (now : Z) (st : RLogic) : res (Z * RLogic) :=
  on_entry k (entry_balance now) st.

(** The members of [Consumer]; [disposition] and [charge] accept an empty one. *)
Definition consumer_disposition (c : Consumer) (now : Z) (st : RLogic)
  : res (Disposition * RLogic) :=
  match c with Some k => charge k 0 now st | None => Ok (disp_ok, st) end.
Definition consumer_charge (c : Consumer) (what : Charge) (now : Z) (st : RLogic)
  : res (Disposition * RLogic) :=
  match c with Some k => charge k what now st | None => Ok (disp_ok, st) end.
Definition consumer_isUnlimited (c : Consumer) : bool :=
  match c with Some k => isUnlimited k | None => false end.
Definition consumer_warn (c : Consumer) (now : Z) (st : RLogic) : res (bool * RLogic) :=
  match c with Some k => warn k now st | None => Err assert_failed end.
Definition consumer_disconnect (c : Consumer) (now : Z) (st : RLogic) : res (bool * RLogic) :=
  match c with Some k => disconnect k now st | None => Err assert_failed end.
Definition consumer_balance (c : Consumer) (now : Z) (st : RLogic) : res (Z * RLogic) :=
  match c with Some k => balance k now st | None => Err assert_failed end.

(** [getJson (threshold)]: the entries assigned to the object, in order, as key, local
    and remote balance; the kind is that of the list. *)
Fixpoint json_list (l : list Key) (threshold now : Z) (st : RLogic)
  : res (list (Key * Z * Z) * RLogic) :=
  match l with
  | [] => Ok ([], st)
  | k :: l' =>
      e ← deref (table_ st !! k);
      let '(v, s) := sample_value RTuning.decayWindowSeconds now (local_balance e) in
      let st := with_table (<[k := set_local s e]> (table_ st)) st in
      '(rows, st) ← json_list l' threshold now st;
      Ok (if threshold <=? i32 (i32 v + remote_balance e)
          then (k, i32 v, remote_balance e) :: rows else rows, st)
  end.
Definition getJson (threshold now : Z) (st : RLogic) : res (list (Key * Z * Z) * RLogic) :=
  '(r1, st) ← json_list (inbound_ st) threshold now st;
  '(r2, st) ← json_list (outbound_ st) threshold now st;
  '(r3, st) ← json_list (admin_ st) threshold now st;
  Ok (r1 ++ r2 ++ r3, st).
