(* ===== verification/ResourceInv.v ===== *)
(** * Invariant of the resource manager

    Reference counts equal the number of [Consumer] objects, remote balances the sum of
    the imported balances, and every entry is on exactly one intrusive list.  Every
    operation under its contract returns and keeps this. *)

From S2P Require Import Prelude IPAddr Slot Decaying Resource.
From stdpp Require Import gmultiset strings relations.

Local Open Scope Z_scope.

(** [f] with [d] added at [k]. *)
Definition bump_at (k : Key) (d : Z) (f : Key → Z) : Key → Z :=
  fun k' => if decide (k' = k) then f k' + d else f k'.

Lemma bump_at_eq k d f : bump_at k d f k = f k + d.
Proof. unfold bump_at. by rewrite decide_True. Qed.
Lemma bump_at_ne k k' d f : k' ≠ k → bump_at k d f k' = f k'.
Proof. intros. unfold bump_at. by rewrite decide_False. Qed.

Definition expires (st : RLogic) (k : Key) : Z :=
  match table_ st !! k with Some e => e_whenExpires e | None => 0 end.

(** [ref k] references to, and [owed k] imported balance of, the entry at [k]. *)
Record tab_wf (st : RLogic) (ref owed : Key → Z) (t : Z) : Prop := {
  tw_ref : ∀ k, ref k = match table_ st !! k with Some e => refcount e | None => 0 end;
  tw_pos : ∀ k, 0 <= ref k;
  tw_remote : ∀ k e, table_ st !! k = Some e → remote_balance e = i32 (owed k);
  tw_owed : ∀ k, ref k = 0 → owed k = 0;
  tw_active_nodup : ∀ kd, NoDup (active_list kd st);
  tw_active : ∀ kd k, k ∈ active_list kd st ↔ 0 < ref k ∧ key_kind k = kd;
  tw_inactive_nodup : NoDup (inactive_ st);
  tw_inactive : ∀ k, k ∈ inactive_ st ↔ is_Some (table_ st !! k) ∧ ref k = 0;
  tw_sorted : StronglySorted Z.le (expires st <$> inactive_ st);
  tw_recent : ∀ k, k ∈ inactive_ st → expires st k <= t + RTuning.secondsUntilExpiration
}.

#[global] Instance tab_wf_proper :
  Proper (eq ==> pointwise_relation Key eq ==> pointwise_relation Key eq ==> eq ==> iff) tab_wf.
Proof.
  assert (∀ st (r r' o o' : Key → Z) t, (∀ k, r k = r' k) → (∀ k, o k = o' k) →
    tab_wf st r o t → tab_wf st r' o' t) as Himpl.
  { intros st r r' o o' t Hr Ho []. split; intros; rewrite <-?Hr, <-?Ho; try setoid_rewrite <-Hr;
      eauto. apply tw_owed0. by rewrite Hr. }
  intros st ? <- r r' Hr o o' Ho t ? <-. split; apply Himpl; intros; symmetry; auto.
Qed.

Lemma tab_wf_mono st ref owed t t' : tab_wf st ref owed t → t <= t' → tab_wf st ref owed t'.
Proof. intros [] Ht. split; try done. intros k Hk. specialize (tw_recent0 k Hk). lia. Qed.

Lemma active_list_with_active kd kd' l st :
  active_list kd (with_active kd' l st) = if decide (kd = kd') then l else active_list kd st.
Proof. by destruct kd, kd'. Qed.

Lemma sorted_snoc l x : StronglySorted Z.le l → (∀ y, y ∈ l → y <= x) → StronglySorted Z.le (l ++ [x]).
Proof. intros Hl Hx. apply StronglySorted_snoc; [done|]. by apply Forall_forall. Qed.

Section changes.
Context (st : RLogic) (ref owed : Key → Z) (t : Z).
Hypothesis Hwf : tab_wf st ref owed t.

Lemma tab_lookup k : 0 < ref k → ∃ e, table_ st !! k = Some e ∧ refcount e = ref k
  ∧ remote_balance e = i32 (owed k).
Proof.
  intros Hk. pose proof (tw_ref _ _ _ _ Hwf k) as Hr.
  destruct (table_ st !! k) as [e|] eqn:He; [|lia].
  exists e. split_and!; [done..|]. by eapply tw_remote.
Qed.

(** The expiry times of the inactive entries do not depend on an active one. *)
Lemma expires_frame k e (l : list Key) :
  k ∉ l → expires (with_table (<[k := e]> (table_ st)) st) <$> l = expires st <$> l.
Proof.
  intros Hk. apply list_fmap_ext. intros i x Hx. unfold expires. simpl.
  rewrite lookup_insert_ne; [done|]. intros ->. apply Hk. by eapply list_elem_of_lookup_2.
Qed.

(** An active entry is updated in place and stays active. *)
Lemma tab_wf_entry k e d b :
  0 < ref k → 0 < ref k + d → refcount e = ref k + d →
  remote_balance e = i32 (owed k + b) →
  tab_wf (with_table (<[k := e]> (table_ st)) st) (bump_at k d ref) (bump_at k b owed) t.
Proof.
  intros Hk Hd He Hb. pose proof (tab_lookup k Hk) as (e0&He0&_).
  assert (k ∉ inactive_ st) as Hni.
  { intros [_ ?]%(tw_inactive _ _ _ _ Hwf). lia. }
  split; simpl.
  - intros k'. rewrite lookup_insert. case_decide; subst.
    + by rewrite bump_at_eq.
    + rewrite bump_at_ne by done. apply Hwf.
  - intros k'. destruct (decide (k' = k)) as [->|]; [rewrite bump_at_eq; lia|].
    rewrite bump_at_ne by done. apply Hwf.
  - intros k' e'. rewrite lookup_insert_Some. intros [[<- <-]|[? ?]].
    + by rewrite bump_at_eq.
    + rewrite bump_at_ne by done. by eapply tw_remote.
  - intros k'. destruct (decide (k' = k)) as [->|]; [rewrite bump_at_eq; lia|].
    rewrite !bump_at_ne by done. apply Hwf.
  - apply Hwf.
  - intros kd k'. change (active_list kd (with_table _ st)) with (active_list kd st).
    rewrite (tw_active _ _ _ _ Hwf). destruct (decide (k' = k)) as [->|].
    + rewrite bump_at_eq. naive_solver lia.
    + by rewrite bump_at_ne.
  - apply Hwf.
  - intros k'. rewrite (tw_inactive _ _ _ _ Hwf), lookup_insert. case_decide; subst.
    + rewrite bump_at_eq, He0. split; intros [_ ?]; lia.
    + by rewrite bump_at_ne.
  - rewrite expires_frame by done. apply Hwf.
  - intros k' Hk'. unfold expires. simpl. rewrite lookup_insert_ne by (by intros ->).
    by apply (tw_recent _ _ _ _ Hwf).
Qed.

(** An entry without references gets one: it moves to the list of its kind. *)
Lemma tab_wf_activate k e :
  ref k = 0 → refcount e = 1 → remote_balance e = 0 →
  tab_wf (with_active (key_kind k) (active_list (key_kind k) st ++ [k])
            (with_inactive (erase1 k (inactive_ st)) (with_table (<[k := e]> (table_ st)) st)))
    (bump_at k 1 ref) owed t.
Proof.
  intros Hk He Hb. pose proof (tw_owed _ _ _ _ Hwf k Hk) as Ho.
  pose proof (tw_inactive_nodup _ _ _ _ Hwf) as Hnd. split; simpl.
  - intros k'. rewrite lookup_insert. case_decide; subst.
    + rewrite bump_at_eq. lia.
    + rewrite bump_at_ne by done. apply Hwf.
  - intros k'. destruct (decide (k' = k)) as [->|]; [rewrite bump_at_eq; lia|].
    rewrite bump_at_ne by done. apply Hwf.
  - intros k' e'. rewrite lookup_insert_Some. intros [[<- <-]|[? ?]].
    + by rewrite Ho.
    + by eapply tw_remote.
  - intros k'. destruct (decide (k' = k)) as [->|]; [rewrite bump_at_eq; lia|].
    rewrite !bump_at_ne by done. apply Hwf.
  - intros kd. rewrite active_list_with_active. case_decide; [|apply Hwf]. subst.
    apply NoDup_app. split_and!; [apply Hwf| |apply NoDup_singleton].
    intros x [Hx _]%(tw_active _ _ _ _ Hwf) ->%list_elem_of_singleton. lia.
  - intros kd k'. rewrite active_list_with_active.
    destruct (decide (k' = k)) as [->|Hne].
    + rewrite bump_at_eq. case_decide as Hd.
      * rewrite elem_of_app, list_elem_of_singleton. naive_solver lia.
      * change (active_list kd (with_inactive _ _)) with (active_list kd st).
        rewrite (tw_active _ _ _ _ Hwf). naive_solver lia.
    + rewrite bump_at_ne by done. case_decide as Hd; subst.
      * rewrite elem_of_app, list_elem_of_singleton, (tw_active _ _ _ _ Hwf). naive_solver.
      * apply (tw_active _ _ _ _ Hwf).
  - by apply NoDup_erase1.
  - intros k'. rewrite elem_of_erase1, (tw_inactive _ _ _ _ Hwf), lookup_insert by done.
    case_decide as Hd; subst.
    + rewrite bump_at_eq. naive_solver lia.
    + rewrite bump_at_ne by done. naive_solver.
  - eapply StronglySorted_sublist; [|apply (tw_sorted _ _ _ _ Hwf)].
    change (expires (with_active _ _ _)) with (expires (with_table (<[k := e]> (table_ st)) st)).
    rewrite expires_frame by (rewrite elem_of_erase1 by done; naive_solver).
    apply fmap_sublist, erase1_sublist.
  - intros k' [Hk' Hne]%elem_of_erase1; [|done]. unfold expires. simpl.
    rewrite lookup_insert_ne by done. by apply (tw_recent _ _ _ _ Hwf).
Qed.

(** The last reference to an entry goes: it moves to the inactive list. *)
Lemma tab_wf_deactivate k e now :
  ref k = 1 → owed k = 0 → refcount e = 0 → remote_balance e = 0 → t <= now →
  e_whenExpires e = now + RTuning.secondsUntilExpiration →
  tab_wf (with_table (<[k := e]> (table_ st))
           (with_inactive (inactive_ st ++ [k])
             (with_active (key_kind k) (erase1 k (active_list (key_kind k) st)) st)))
    (bump_at k (-1) ref) owed now.
Proof.
  intros Hk Ho He Hb Ht Hw. pose proof (tw_active_nodup _ _ _ _ Hwf) as Hnd.
  assert (k ∉ inactive_ st) as Hni.
  { intros [_ ?]%(tw_inactive _ _ _ _ Hwf). lia. }
  assert (∀ x, x ∈ inactive_ st → expires (with_table (<[k := e]> (table_ st)) st) x
                                  <= now + RTuning.secondsUntilExpiration) as Hrec.
  { intros x Hx. unfold expires. simpl. rewrite lookup_insert_ne by (by intros ->).
    pose proof (tw_recent _ _ _ _ Hwf x Hx) as Hr. unfold expires in Hr. lia. }
  split; simpl.
  - intros k'. rewrite lookup_insert. case_decide; subst.
    + rewrite bump_at_eq. lia.
    + rewrite bump_at_ne by done. apply Hwf.
  - intros k'. destruct (decide (k' = k)) as [->|]; [rewrite bump_at_eq; lia|].
    rewrite bump_at_ne by done. apply Hwf.
  - intros k' e'. rewrite lookup_insert_Some. intros [[<- <-]|[? ?]].
    + by rewrite Ho.
    + by eapply tw_remote.
  - intros k'. destruct (decide (k' = k)) as [->|]; [done|].
    rewrite !bump_at_ne by done. apply Hwf.
  - intros kd. change (active_list kd (with_table _ ?s)) with (active_list kd s).
    change (active_list kd (with_inactive _ ?s)) with (active_list kd s).
    rewrite active_list_with_active. case_decide; [|apply Hwf]. by apply NoDup_erase1.
  - intros kd k'. change (active_list kd (with_table _ ?s)) with (active_list kd s).
    change (active_list kd (with_inactive _ ?s)) with (active_list kd s).
    rewrite active_list_with_active. destruct (decide (k' = k)) as [->|Hne].
    + rewrite bump_at_eq. case_decide as Hd.
      * rewrite elem_of_erase1 by done. naive_solver lia.
      * rewrite (tw_active _ _ _ _ Hwf). naive_solver lia.
    + rewrite bump_at_ne by done. case_decide as Hd; subst.
      * rewrite elem_of_erase1, (tw_active _ _ _ _ Hwf) by done. naive_solver.
      * apply (tw_active _ _ _ _ Hwf).
  - apply NoDup_app. split_and!; [apply Hwf| |apply NoDup_singleton].
    by intros x Hx ->%list_elem_of_singleton.
  - intros k'. rewrite elem_of_app, list_elem_of_singleton, (tw_inactive _ _ _ _ Hwf).
    rewrite lookup_insert. case_decide as Hd; subst.
    + rewrite bump_at_eq. split; [intros _; split; [by eauto|lia]|by right].
    + rewrite bump_at_ne by done. naive_solver.
  - rewrite fmap_app. apply sorted_snoc.
    + change (expires (with_table _ _)) with (expires (with_table (<[k := e]> (table_ st)) st)).
      rewrite expires_frame by done. apply Hwf.
    + intros y (x&->&Hx)%list_elem_of_fmap. unfold expires at 2. simpl.
      rewrite lookup_insert_eq, Hw. by apply Hrec.
  - intros k'. rewrite elem_of_app, list_elem_of_singleton. intros [Hk'| ->]; [by apply Hrec|].
    unfold expires. simpl. rewrite lookup_insert_eq. lia.
Qed.

(** An inactive entry is erased. *)
Lemma tab_wf_erase k :
  k ∈ inactive_ st →
  tab_wf (with_table (delete k (table_ st)) (with_inactive (erase1 k (inactive_ st)) st))
    ref owed t.
Proof.
  intros Hk. pose proof (tw_inactive_nodup _ _ _ _ Hwf) as Hnd.
  apply (tw_inactive _ _ _ _ Hwf) in Hk as [_ Hk].
  assert (∀ x, x ≠ k → table_ st !! x = delete k (table_ st) !! x) as Hne.
  { intros. by rewrite lookup_delete_ne. }
  split; simpl; try apply Hwf.
  - intros k'. destruct (decide (k' = k)) as [->|]; [by rewrite lookup_delete_eq|].
    rewrite <-Hne by done. apply Hwf.
  - intros k' e' [? ?]%lookup_delete_Some. by eapply tw_remote.
  - by apply NoDup_erase1.
  - intros k'. rewrite elem_of_erase1, (tw_inactive _ _ _ _ Hwf) by done.
    destruct (decide (k' = k)) as [->|].
    + rewrite lookup_delete_eq. split; [naive_solver|]. by intros [[] _].
    + rewrite <-Hne by done. naive_solver.
  - eapply StronglySorted_sublist; [|apply (tw_sorted _ _ _ _ Hwf)].
    replace (_ <$> erase1 k (inactive_ st)) with (expires st <$> erase1 k (inactive_ st)).
    { apply fmap_sublist, erase1_sublist. }
    apply list_fmap_ext. intros i x Hx%list_elem_of_lookup_2. unfold expires. simpl.
    rewrite <-Hne; [done|]. by apply elem_of_erase1 in Hx as [_ ?].
  - intros k' [Hk' Hn]%elem_of_erase1; [|done]. unfold expires. simpl. rewrite <-Hne by done.
    by apply (tw_recent _ _ _ _ Hwf).
Qed.
End changes.

(** ** References *)

Section references.
Context (st : RLogic) (ref owed : Key → Z) (t : Z).
Hypothesis Hwf : tab_wf st ref owed t.

Lemma new_endpoint_ok k now :
  ∃ st', new_endpoint k now st = Ok st' ∧ tab_wf st' (bump_at k 1 ref) owed t
    ∧ importTable_ st' = importTable_ st.
Proof.
  unfold new_endpoint. pose proof (tw_ref _ _ _ _ Hwf k) as Hr.
  pose proof (tw_pos _ _ _ _ Hwf k) as Hp.
  assert (k ∈ active_list (key_kind k) st ↔ 0 < ref k) as Hact.
  { rewrite (tw_active _ _ _ _ Hwf). naive_solver. }
  pose proof (tw_inactive _ _ _ _ Hwf k) as Hina.
  destruct (table_ st !! k) as [e|] eqn:He; simpl.
  - pose proof (tw_remote _ _ _ _ Hwf _ _ He) as Hb.
    destruct (Z.eqb_spec (refcount e + 1) 1) as [H1|H1].
    + assert (ref k = 0) as H0 by lia. unfold list_erase, list_push_back.
      rewrite decide_True by (rewrite Hina; eauto). simpl.
      change (active_list _ (with_inactive _ _)) with (active_list (key_kind k) st).
      rewrite decide_False by (rewrite Hact; lia). simpl. eexists. split_and!; [done| |done].
      apply tab_wf_activate; [done|done|done|]. simpl.
      rewrite Hb, (tw_owed _ _ _ _ Hwf k H0). done.
    + eexists. split_and!; [done| |done].
      eapply tab_wf_proper; [done|done| |done|eapply (tab_wf_entry _ _ _ _ Hwf k _ 1 0)].
      * intros k'. unfold bump_at. case_decide; lia.
      * lia.
      * lia.
      * simpl. lia.
      * simpl. rewrite Hb. f_equal. lia.
  - unfold list_push_back.
    change (active_list _ (with_inactive _ _)) with (active_list (key_kind k) st).
    rewrite decide_False by (rewrite Hact; lia). simpl. eexists. split_and!; [done| |done].
    assert (k ∉ inactive_ st) as Hni by (rewrite Hina; by intros [[] _]).
    rewrite <-(erase1_not_elem_of k (inactive_ st)) at 1 by done.
    by apply tab_wf_activate.
Qed.

Lemma acquire_ok k :
  0 < ref k → ∃ st', acquire k st = Ok st' ∧ tab_wf st' (bump_at k 1 ref) owed t
    ∧ importTable_ st' = importTable_ st.
Proof.
  intros Hk. destruct (tab_lookup _ _ _ _ Hwf k Hk) as (e&He&Hr&Hb). unfold acquire.
  rewrite He. simpl. eexists. split_and!; [done| |done].
  eapply tab_wf_proper; [done|done| |done|eapply (tab_wf_entry _ _ _ _ Hwf k _ 1 0)].
  - intros k'. unfold bump_at. case_decide; lia.
  - lia.
  - lia.
  - simpl. lia.
  - simpl. rewrite Hb. f_equal. lia.
Qed.

Lemma release_ok k now :
  0 < ref k → (ref k = 1 → owed k = 0) → t <= now →
  ∃ st', release k now st = Ok st' ∧ tab_wf st' (bump_at k (-1) ref) owed now
    ∧ importTable_ st' = importTable_ st.
Proof.
  intros Hk Ho Ht. destruct (tab_lookup _ _ _ _ Hwf k Hk) as (e&He&Hr&Hb). unfold release.
  rewrite He. simpl. destruct (Z.eqb_spec (refcount e - 1) 0) as [H1|H1].
  - unfold list_erase, list_push_back.
    change (active_list _ (with_table _ st)) with (active_list (key_kind k) st).
    rewrite (decide_True (P := k ∈ active_list (key_kind k) st))
      by (by apply (tw_active _ _ _ _ Hwf)).
    simpl. rewrite decide_False.
    2:{ intros [_ ?]%(tw_inactive _ _ _ _ Hwf). lia. }
    simpl. eexists. split_and!; [done| |done].
    unfold with_table at 1. simpl. rewrite insert_insert_eq.
    eapply tab_wf_deactivate; [done|lia|apply Ho; lia|done| |done|done].
    simpl. rewrite Hb, Ho by lia. done.
  - eexists. split_and!; [done| |done]. eapply tab_wf_mono; [|done].
    eapply tab_wf_proper; [done|done| |done|eapply (tab_wf_entry _ _ _ _ Hwf k _ (-1) 0)].
    + intros k'. unfold bump_at. case_decide; lia.
    + lia.
    + lia.
    + simpl. lia.
    + simpl. rewrite Hb. f_equal. lia.
Qed.

Lemma add_remote_ok k d :
  0 < ref k → ∃ st', add_remote (Some k) d st = Ok st' ∧ tab_wf st' ref (bump_at k d owed) t
    ∧ importTable_ st' = importTable_ st.
Proof.
  intros Hk. destruct (tab_lookup _ _ _ _ Hwf k Hk) as (e&He&Hr&Hb). unfold add_remote.
  simpl. rewrite He. simpl. eexists. split_and!; [done| |done].
  eapply tab_wf_proper; [done| |done|done|eapply (tab_wf_entry _ _ _ _ Hwf k _ 0 d)].
  - intros k'. unfold bump_at. case_decide; lia.
  - lia.
  - lia.
  - simpl. lia.
  - simpl. by rewrite Hb, i32_add_l.
Qed.

(** The entry of an active consumer is read and its local balance updated. *)
Lemma on_entry_ok {A} k (f : Entry → A * Entry) :
  0 < ref k →
  (∀ e, refcount (f e).2 = refcount e ∧ remote_balance (f e).2 = remote_balance e) →
  ∃ e st', table_ st !! k = Some e ∧ on_entry k f st = Ok ((f e).1, st')
    ∧ st' = with_table (<[k := (f e).2]> (table_ st)) st ∧ tab_wf st' ref owed t.
Proof.
  intros Hk Hf. destruct (tab_lookup _ _ _ _ Hwf k Hk) as (e&He&Hr&Hb). unfold on_entry.
  rewrite He. simpl. exists e, (with_table (<[k := (f e).2]> (table_ st)) st).
  specialize (Hf e). destruct (f e) as [a e']. simpl in *. split_and!; [done|done|done|].
  eapply tab_wf_proper; [done| | |done|eapply (tab_wf_entry _ _ _ _ Hwf k _ 0 0)].
  - intros k'. unfold bump_at. case_decide; lia.
  - intros k'. unfold bump_at. case_decide; lia.
  - lia.
  - lia.
  - simpl. lia.
  - destruct Hf as [_ ->]. rewrite Hb. f_equal. lia.
Qed.
End references.

(** ** Items *)

Definition item_ref (k : Key) (i : Item) : Z := if decide (item_consumer i = Some k) then 1 else 0.
Definition item_due (k : Key) (i : Item) : Z :=
  if decide (item_consumer i = Some k) then item_balance i else 0.

(** References held by, and balances due to, a list of items. *)
Definition held (k : Key) (l : list Item) : Z := foldr (fun i a => item_ref k i + a) 0 l.
Definition due (k : Key) (l : list Item) : Z := foldr (fun i a => item_due k i + a) 0 l.

Lemma held_nonneg k l : 0 <= held k l.
Proof. induction l as [|i l IH]; simpl; [done|]. unfold item_ref. case_decide; lia. Qed.

Lemma due_zero k l : held k l = 0 → due k l = 0.
Proof.
  induction l as [|i l IH]; simpl; [done|]. pose proof (held_nonneg k l).
  unfold item_ref, item_due. case_decide; [lia|]. intros. by rewrite IH.
Qed.

Definition consumers_set (l : list Item) : Prop := Forall (fun i => is_Some (item_consumer i)) l.

(** The state without the import table. *)
Lemma tab_wf_imports m st ref owed t :
  tab_wf st ref owed t → tab_wf (with_imports m st) ref owed t.
Proof. intros []. by split. Qed.

Lemma tab_wf_stats w d st ref owed t :
  tab_wf st ref owed t → tab_wf (with_stats w d st) ref owed t.
Proof. intros []. by split. Qed.

Lemma import_item_ok g now st ref owed t :
  tab_wf st ref owed t → t <= now →
  ∃ st', import_item g now st = Ok (mkItem (g_balance g) (Some (inbound_of (g_address g))), st')
    ∧ tab_wf st' (bump_at (inbound_of (g_address g)) 1 ref)
        (bump_at (inbound_of (g_address g)) (g_balance g) owed) now
    ∧ importTable_ st' = importTable_ st.
Proof.
  intros Hwf Ht. unfold import_item, newInboundEndpoint, consumer_assign. simpl.
  set (k := inbound_of (g_address g)). pose proof (tw_pos _ _ _ _ Hwf k) as Hp.
  destruct (new_endpoint_ok _ _ _ _ Hwf k now) as (st1&->&H1&I1). simpl.
  destruct (acquire_ok _ _ _ _ H1 k) as (st2&->&H2&I2); [rewrite bump_at_eq; lia|]. simpl.
  destruct (release_ok _ _ _ _ H2 k now) as (st3&->&H3&I3);
    [rewrite !bump_at_eq; lia|rewrite !bump_at_eq; lia|done|]. simpl.
  destruct (add_remote_ok _ _ _ _ H3 k (g_balance g)) as (st4&->&H4&I4);
    [rewrite !bump_at_eq; lia|]. simpl.
  destruct (acquire_ok _ _ _ _ H4 k) as (st5&->&H5&I5); [rewrite !bump_at_eq; lia|]. simpl.
  destruct (release_ok _ _ _ _ H5 k now) as (st6&->&H6&I6);
    [rewrite !bump_at_eq; lia|rewrite !bump_at_eq; lia|done|]. simpl.
  exists st6. split_and!; [done| |congruence].
  eapply tab_wf_proper; [done| |done|done|exact H6].
  intros k'. unfold bump_at. case_decide; lia.
Qed.

Lemma import_items_ok gossip now st ref owed t :
  tab_wf st ref owed t → t <= now →
  ∃ items st', import_items gossip now st = Ok (items, st') ∧ consumers_set items
    ∧ items = (fun g => mkItem (g_balance g) (Some (inbound_of (g_address g)))) <$> gossip
    ∧ tab_wf st' (fun k => ref k + held k items) (fun k => owed k + due k items) now
    ∧ importTable_ st' = importTable_ st.
Proof.
  revert st ref owed t. induction gossip as [|g gossip IH]; intros st ref owed t Hwf Ht; simpl.
  { exists [], st. split_and!; [done|constructor|done| |done].
    apply (tab_wf_mono _ _ _ t now) in Hwf; [|done].
    eapply tab_wf_proper; [done| | |done|exact Hwf]; intros k; simpl; lia. }
  destruct (import_item_ok g now st ref owed t Hwf Ht) as (st1&->&H1&I1). simpl.
  destruct (IH _ _ _ _ H1 ltac:(lia)) as (items&st2&->&Hs&->&H2&I2). simpl.
  eexists _, st2. split_and!; [done| |done| |congruence].
  - constructor; [by eexists|done].
  - eapply tab_wf_proper; [done| | |done|exact H2]; intros k; simpl;
      unfold bump_at, item_ref, item_due; simpl; repeat case_decide; simplify_eq; lia.
Qed.

Lemma deduct_items_ok items st ref owed t :
  tab_wf st ref owed t → consumers_set items → (∀ k, held k items <= ref k) →
  ∃ st', deduct_items items st = Ok st'
    ∧ tab_wf st' ref (fun k => owed k - due k items) t ∧ importTable_ st' = importTable_ st.
Proof.
  revert st owed. induction items as [|[b c] items IH]; intros st owed Hwf Hs Hh; simpl.
  { exists st. split_and!; [done| |done].
    eapply tab_wf_proper; [done| | |done|exact Hwf]; intros k; simpl; lia. }
  apply Forall_cons in Hs as [[k Hc] Hs]. simpl in Hc. subst c.
  assert (∀ k', held k' items <= ref k') as Hh'.
  { intros k'. specialize (Hh k'). simpl in Hh. unfold item_ref in Hh. case_decide; lia. }
  assert (0 < ref k) as Hk.
  { specialize (Hh k). simpl in Hh. unfold item_ref in Hh. simpl in Hh.
    rewrite decide_True in Hh by done. pose proof (held_nonneg k items). lia. }
  destruct (add_remote_ok _ _ _ _ Hwf k (- b) Hk) as (st1&->&H1&I1). simpl.
  destruct (IH _ _ H1 Hs Hh') as (st2&->&H2&I2). exists st2. split_and!; [done| |congruence].
  eapply tab_wf_proper; [done|done| |done|exact H2]. intros k'.
  unfold bump_at, item_due; simpl; repeat case_decide; simplify_eq; lia.
Qed.

Lemma destroy_items_ok items now st ref owed t :
  tab_wf st ref owed t → t <= now → consumers_set items → (∀ k, held k items <= ref k) →
  (∀ k, ref k - held k items = 0 → owed k = 0) →
  ∃ st', destroy_items items now st = Ok st'
    ∧ tab_wf st' (fun k => ref k - held k items) owed now
    ∧ importTable_ st' = importTable_ st.
Proof.
  revert st ref t. induction items as [|[b c] items IH]; intros st ref t Hwf Ht Hs Hh Ho; simpl.
  { exists st. split_and!; [done| |done]. apply (tab_wf_mono _ _ _ t now) in Hwf; [|done].
    eapply tab_wf_proper; [done| | |done|exact Hwf]; intros k; simpl; lia. }
  apply Forall_cons in Hs as [[k Hc] Hs]. simpl in Hc. subst c. simpl.
  pose proof (held_nonneg k items) as Hn. pose proof (Hh k) as Hk. simpl in Hk.
  unfold item_ref in Hk. simpl in Hk. rewrite decide_True in Hk by done.
  destruct (release_ok _ _ _ _ Hwf k now) as (st1&->&H1&I1); [lia| |done|].
  { intros H1. apply Ho. simpl. unfold item_ref. simpl. rewrite decide_True by done. lia. }
  simpl. destruct (IH _ _ _ H1 ltac:(lia) Hs) as (st2&->&H2&I2).
  - intros k'. specialize (Hh k'). simpl in Hh. unfold bump_at, item_ref in *. simpl in *.
    repeat case_decide; simplify_eq; lia.
  - intros k' Hk'. apply Ho. simpl. unfold bump_at, item_ref in *. simpl in *.
    repeat case_decide; simplify_eq; lia.
  - exists st2. split_and!; [done| |congruence].
    eapply tab_wf_proper; [done| |done|done|exact H2]. intros k'.
    unfold bump_at, item_ref; simpl; repeat case_decide; simplify_eq; lia.
Qed.

(** ** The invariant

    [ext] is the multiset of the entries the clients hold consumers of. *)

Definition imp_held (k : Key) (i : Import) : Z := held k (i_items i).
Definition imp_due (k : Key) (i : Import) : Z := due k (i_items i).

Definition refs (ext : gmultiset Key) (m : gmap string Import) (k : Key) : Z :=
  Z.of_nat (multiplicity k ext) + msum (imp_held k) m.
Definition owed (m : gmap string Import) (k : Key) : Z := msum (imp_due k) m.

Record res_wf (st : RLogic) (ext : gmultiset Key) (t : Z) : Prop := {
  rw_tab : tab_wf st (refs ext (importTable_ st)) (owed (importTable_ st)) t;
  rw_items : ∀ name i, importTable_ st !! name = Some i → consumers_set (i_items i)
}.

Lemma imp_held_nonneg k (m : gmap string Import) : 0 <= msum (imp_held k) m.
Proof. apply msum_nonneg. intros. apply held_nonneg. Qed.

Lemma owed_zero (m : gmap string Import) k : msum (imp_held k) m = 0 → owed m k = 0.
Proof.
  unfold owed. induction m as [|name i m Hn IH] using map_ind; [by rewrite !msum_empty|].
  rewrite !msum_insert by done. pose proof (held_nonneg k (i_items i)).
  pose proof (imp_held_nonneg k m). unfold imp_held at 1, imp_due at 1. intros.
  rewrite due_zero, IH by lia. done.
Qed.

Lemma res_wf_init t : res_wf RLogic_init ∅ t.
Proof.
  assert (∀ k, refs ∅ ∅ k = 0) as Hr.
  { intros k. unfold refs. by rewrite msum_empty, multiplicity_empty. }
  split; [|intros name i; simpl; by rewrite lookup_empty]. split; simpl.
  - intros k. by rewrite Hr, lookup_empty.
  - intros k. by rewrite Hr.
  - intros k e. by rewrite lookup_empty.
  - intros k _. apply msum_empty.
  - intros []; constructor.
  - intros kd k. rewrite Hr. destruct kd; simpl; split;
      [by intros ?%not_elem_of_nil|lia|by intros ?%not_elem_of_nil|lia|
       by intros ?%not_elem_of_nil|lia].
  - constructor.
  - intros k. rewrite lookup_empty. split; [by intros ?%not_elem_of_nil|]. by intros [[] _].
  - constructor.
  - by intros k ?%not_elem_of_nil.
Qed.

Lemma res_wf_mono st ext t t' : res_wf st ext t → t <= t' → res_wf st ext t'.
Proof. intros [] ?. split; [by eapply tab_wf_mono|done]. Qed.

Lemma refs_pos st ext k t : res_wf st ext t → k ∈ ext → 0 < refs ext (importTable_ st) k.
Proof.
  intros _ Hk. unfold refs. pose proof (imp_held_nonneg k (importTable_ st)).
  rewrite elem_of_multiplicity in Hk. lia.
Qed.

Section operations.
Context (st : RLogic) (ext : gmultiset Key) (t now : Z).
Hypothesis (Hwf : res_wf st ext t) (Ht : t <= now).

Lemma new_handle_ok k :
  ∃ st', new_endpoint k now st = Ok st' ∧ res_wf st' ({[+ k +]} ⊎ ext) now.
Proof.
  destruct (new_endpoint_ok _ _ _ _ (rw_tab _ _ _ Hwf) k now) as (st'&->&H1&HI).
  exists st'. split; [done|]. split; rewrite HI; [|apply Hwf].
  eapply tab_wf_mono; [|done]. eapply tab_wf_proper; [done| |done|done|exact H1].
  intros k'. unfold refs, bump_at. rewrite multiplicity_disj_union. case_decide.
  - subst. rewrite multiplicity_singleton_eq. lia.
  - rewrite multiplicity_singleton_ne by done. lia.
Qed.

Lemma copy_handle_ok k :
  k ∈ ext → ∃ st', consumer_copy (Some k) st = Ok st' ∧ res_wf st' ({[+ k +]} ⊎ ext) now.
Proof.
  intros Hk. simpl.
  destruct (acquire_ok _ _ _ _ (rw_tab _ _ _ Hwf) k) as (st'&->&H1&HI); [by eapply refs_pos|].
  exists st'. split; [done|]. split; rewrite HI; [|apply Hwf].
  eapply tab_wf_mono; [|done]. eapply tab_wf_proper; [done| |done|done|exact H1].
  intros k'. unfold refs, bump_at. rewrite multiplicity_disj_union. case_decide.
  - subst. rewrite multiplicity_singleton_eq. lia.
  - rewrite multiplicity_singleton_ne by done. lia.
Qed.

Lemma drop_handle_ok k :
  k ∈ ext →
  ∃ st', consumer_destroy (Some k) now st = Ok st' ∧ res_wf st' (ext ∖ {[+ k +]}) now.
Proof.
  intros Hk. simpl. pose proof (imp_held_nonneg k (importTable_ st)).
  destruct (release_ok _ _ _ _ (rw_tab _ _ _ Hwf) k now) as (st'&->&H1&HI);
    [by eapply refs_pos| |done|].
  { unfold refs. intros Hr. apply owed_zero. rewrite elem_of_multiplicity in Hk. lia. }
  exists st'. split; [done|]. split; rewrite HI; [|apply Hwf].
  eapply tab_wf_proper; [done| |done|done|exact H1].
  intros k'. unfold refs, bump_at. rewrite multiplicity_difference.
  rewrite elem_of_multiplicity in Hk. case_decide.
  - subst. rewrite multiplicity_singleton_eq. lia.
  - rewrite multiplicity_singleton_ne by done. lia.
Qed.

Lemma importConsumers_ok origin gossip :
  ∃ st', importConsumers origin gossip now st = Ok st' ∧ res_wf st' ext now
    ∧ importTable_ st' = <[origin := mkImport (now + RTuning.gossipExpirationSeconds)
        ((fun g => mkItem (g_balance g) (Some (inbound_of (g_address g)))) <$> gossip)]>
        (importTable_ st).
Proof.
  unfold importConsumers.
  destruct (import_items_ok gossip now _ _ _ _ (rw_tab _ _ _ Hwf) Ht)
    as (items&st1&Himp&Hset&Hitems&H1&I1).
  set (m := importTable_ st) in *. rewrite <-Hitems.
  set (i' := mkImport (now + RTuning.gossipExpirationSeconds) items).
  assert (∀ name i, <[origin := i']> m !! name = Some i → consumers_set (i_items i)) as Hset'.
  { intros name i [[_ <-]|[_ ?]]%lookup_insert_Some; [done|]. by eapply rw_items. }
  destruct (m !! origin) as [prev|] eqn:Ho; rewrite Himp; simpl.
  - destruct (deduct_items_ok (i_items prev) st1 _ _ _ H1) as (st2&->&H2&I2);
      [by eapply rw_items| |].
    { intros k. pose proof (msum_delete (imp_held k) m origin prev Ho) as Hd.
      pose proof (imp_held_nonneg k (delete origin m)).
      pose proof (held_nonneg k items). unfold refs. change (imp_held k prev) with (held k (i_items prev)) in Hd. lia. }
    simpl. set (st3 := with_imports _ st2).
    destruct (destroy_items_ok (i_items prev) now st3 (fun k => refs ext m k + held k items)
      (fun k => owed m k + due k items - due k (i_items prev)) now) as (st4&->&H4&I4).
    + by apply tab_wf_imports.
    + lia.
    + by eapply rw_items.
    + intros k. pose proof (msum_delete (imp_held k) m origin prev Ho) as Hd.
      pose proof (imp_held_nonneg k (delete origin m)).
      pose proof (held_nonneg k items). unfold refs. change (imp_held k prev) with (held k (i_items prev)) in Hd. lia.
    + intros k Hk.
      assert (owed (<[origin := i']> m) k = 0) as Hz.
      { apply owed_zero. rewrite (msum_update _ m origin prev i' Ho).
        pose proof (imp_held_nonneg k (<[origin := i']> m)) as Hp.
        rewrite (msum_update _ m origin prev i' Ho) in Hp. unfold refs in Hk.
        unfold imp_held in *. simpl in *. lia. }
      unfold owed in *. rewrite (msum_update _ m origin prev i' Ho) in Hz.
      unfold imp_due in *. simpl in *. lia.
    + assert (importTable_ st4 = <[origin := i']> m) as HI4.
      { rewrite I4. simpl. by rewrite I2, I1. }
      exists st4. split_and!; [done| |done]. split; rewrite HI4; [|done].
      eapply tab_wf_proper; [done| | |done|exact H4]; intros k; unfold refs, owed;
        rewrite (msum_update _ m origin prev i' Ho); unfold imp_held, imp_due; simpl; lia.
  - exists (with_imports (<[origin := i']> (importTable_ st1)) st1). split; [done|].
    assert (importTable_ (with_imports (<[origin := i']> (importTable_ st1)) st1)
            = <[origin := i']> m) as HI by (simpl; by rewrite I1).
    split; [|done]. split; rewrite HI; [|done]. apply tab_wf_imports.
    eapply tab_wf_proper; [done| | |done|exact H1]; intros k; unfold refs, owed;
      rewrite (msum_insert _ m origin i' Ho); unfold imp_held, imp_due; simpl; lia.
Qed.
End operations.

(** ** Periodic activity *)

(** The expiry loop erases exactly the entries without references whose time has come:
    the inactive list is sorted, so stopping at the first fresh entry misses none. *)
Lemma expire_inactive_ok l now st ref owed t :
  tab_wf st ref owed t → inactive_ st = l →
  ∃ st', expire_inactive l now st = Ok st' ∧ tab_wf st' ref owed t
    ∧ importTable_ st' = importTable_ st
    ∧ (∀ k e, table_ st' !! k = Some e ↔
         table_ st !! k = Some e ∧ (0 < ref k ∨ now < e_whenExpires e)).
Proof.
  revert st. induction l as [|k l IH]; intros st Hwf Hl; simpl.
  { exists st. split_and!; [done..|]. intros k e. split; [|by intros []]. intros He.
    split; [done|]. left. pose proof (tw_pos _ _ _ _ Hwf k).
    destruct (decide (ref k = 0)) as [Hz|]; [|lia]. exfalso.
    assert (k ∈ inactive_ st) as Hin by (apply (tw_inactive _ _ _ _ Hwf); eauto).
    rewrite Hl in Hin. by apply not_elem_of_nil in Hin. }
  pose proof (tw_inactive_nodup _ _ _ _ Hwf) as Hnd.
  assert (k ∈ inactive_ st) as Hk by (rewrite Hl; by left).
  pose proof Hk as [[e He] Hr]%(tw_inactive _ _ _ _ Hwf). rewrite He. simpl.
  destruct (Z.leb_spec (e_whenExpires e) now) as [Hexp|Hexp].
  - unfold erase. rewrite He. simpl.
    pose proof (tw_ref _ _ _ _ Hwf k) as Hc. rewrite He in Hc.
    rewrite (proj2 (Z.eqb_eq _ _)) by lia. simpl. unfold list_erase.
    rewrite decide_True by done. simpl.
    assert (erase1 k (inactive_ st) = l) as Hl'.
    { rewrite Hl. simpl. by rewrite decide_True. }
    destruct (IH (with_table (delete k (table_ st)) (with_inactive (erase1 k (inactive_ st)) st)))
      as (st'&->&H'&HI&Ht'); [by apply tab_wf_erase|done|].
    exists st'. split_and!; [done..|]. intros k' e'. rewrite Ht'. simpl.
    rewrite lookup_delete_Some. split; [naive_solver|]. intros [He' Hor]. split; [|done].
    split; [|done]. intros <-. rewrite He in He'. injection He' as <-. lia.
  - exists st. split_and!; [done..|]. intros k' e'. split; [|by intros []]. intros He'.
    split; [done|]. pose proof (tw_pos _ _ _ _ Hwf k').
    destruct (decide (ref k' = 0)) as [Hz|]; [right|left; lia].
    assert (k' ∈ inactive_ st) as Hin by (apply (tw_inactive _ _ _ _ Hwf); eauto).
    pose proof (tw_sorted _ _ _ _ Hwf) as Hs. rewrite Hl in Hs, Hin. simpl in Hs.
    apply StronglySorted_cons in Hs as [Hall _].
    apply elem_of_cons in Hin as [->|Hin]; [congruence|].
    rewrite Forall_forall in Hall. specialize (Hall (expires st k')).
    unfold expires in Hall. rewrite He, He' in Hall.
    assert (e_whenExpires e <= e_whenExpires e'); [|lia]. apply Hall.
    apply list_elem_of_fmap. exists k'. by rewrite He'.
Qed.

(** Reference counting keeps the set of entries. *)
Definition same_entries (st st' : RLogic) : Prop :=
  ∀ k, is_Some (table_ st' !! k) ↔ is_Some (table_ st !! k).

Lemma same_entries_insert k e st st' l :
  table_ st !! k = Some e → table_ st' = <[k := l]> (table_ st) → same_entries st st'.
Proof. intros He Ht k'. rewrite Ht, lookup_insert. case_decide; [subst; rewrite He|]; naive_solver. Qed.

Lemma release_entries k now st st' : release k now st = Ok st' → same_entries st st'.
Proof.
  unfold release. intros H. apply bind_ok in H as (e&He&H). apply deref_ok in He.
  case_match; [|injection H as <-; by eapply same_entries_insert].
  apply bind_ok in H as (l&_&H). apply bind_ok in H as (l'&_&H). injection H as <-.
  eapply same_entries_insert; [done|]. simpl. by rewrite insert_insert_eq.
Qed.

Lemma add_remote_entries c d st st' : add_remote c d st = Ok st' → same_entries st st'.
Proof.
  unfold add_remote. intros H. apply bind_ok in H as (k&_&H). apply bind_ok in H as (e&He&H).
  apply deref_ok in He. injection H as <-. by eapply same_entries_insert.
Qed.

Lemma deduct_items_entries items st st' : deduct_items items st = Ok st' → same_entries st st'.
Proof.
  revert st. induction items as [|i items IH]; intros st; simpl.
  - intros [= ->]. done.
  - intros H. apply bind_ok in H as (st1&H1&H). apply IH in H. apply add_remote_entries in H1.
    intros k. by rewrite (H k), (H1 k).
Qed.

Lemma destroy_items_entries items now st st' :
  destroy_items items now st = Ok st' → same_entries st st'.
Proof.
  revert st. induction items as [|i items IH]; intros st; simpl.
  - intros [= ->]. done.
  - intros H. apply bind_ok in H as (st1&H1&H). apply IH in H. intros k. rewrite (H k).
    unfold consumer_destroy in H1. destruct (item_consumer i); [|by injection H1 as <-].
    by apply release_entries in H1.
Qed.

(** One expired import goes. *)
Lemma expire_import_ok st ext t now name i :
  res_wf st ext t → t <= now → importTable_ st !! name = Some i →
  ∃ st1, deduct_items (i_items i) st = Ok st1 ∧
  ∃ st2, destroy_items (i_items i) now (with_imports (delete name (importTable_ st1)) st1) = Ok st2
    ∧ res_wf st2 ext now ∧ importTable_ st2 = delete name (importTable_ st)
    ∧ same_entries st st2.
Proof.
  intros Hwf Ht Hi. set (m := importTable_ st) in *.
  assert (∀ k, held k (i_items i) <= refs ext m k) as Hle.
  { intros k. pose proof (msum_delete (imp_held k) m name i Hi) as Hd.
    pose proof (imp_held_nonneg k (delete name m)). unfold refs.
    change (imp_held k i) with (held k (i_items i)) in Hd. lia. }
  destruct (deduct_items_ok (i_items i) st _ _ _ (rw_tab _ _ _ Hwf)) as (st1&Hd1&H1&I1);
    [by eapply rw_items|done|]. exists st1. split; [done|].
  destruct (destroy_items_ok (i_items i) now (with_imports (delete name (importTable_ st1)) st1)
    (refs ext m) (fun k => owed m k - due k (i_items i)) t) as (st2&Hd2&H2&I2).
  - by apply tab_wf_imports.
  - done.
  - by eapply rw_items.
  - done.
  - intros k Hk. assert (owed (delete name m) k = 0) as Hz.
    { apply owed_zero. pose proof (imp_held_nonneg k (delete name m)) as Hp.
      rewrite (msum_delete _ m name i Hi) in *. unfold refs in Hk.
      unfold imp_held in *. simpl in *. lia. }
    unfold owed in *. by rewrite (msum_delete _ m name i Hi) in Hz.
  - exists st2. split; [done|].
    assert (importTable_ st2 = delete name m) as HI.
    { rewrite I2. simpl. by rewrite I1. }
    split_and!; [|done|].
    + split; rewrite HI; [|intros n' i' [_ ?]%lookup_delete_Some; by eapply rw_items].
      eapply tab_wf_proper; [done| | |done|exact H2]; intros k; unfold refs, owed;
        rewrite (msum_delete _ m name i Hi); unfold imp_held, imp_due; simpl; lia.
    + intros k. rewrite (destroy_items_entries _ _ _ _ Hd2 k). simpl.
      apply (deduct_items_entries _ _ _ Hd1).
Qed.

Lemma expire_imports_ok names now st ext t :
  res_wf st ext t → t <= now → NoDup names →
  (∀ name, name ∈ names → is_Some (importTable_ st !! name)) →
  ∃ st', expire_imports names now st = Ok st' ∧ res_wf st' ext now
    ∧ (∀ name i, importTable_ st' !! name = Some i ↔
         importTable_ st !! name = Some i ∧ (name ∉ names ∨ now < i_whenExpires i))
    ∧ (∀ k e, table_ st' !! k = Some e → is_Some (table_ st !! k))
    ∧ (∀ k, is_Some (table_ st !! k) → is_Some (table_ st' !! k)).
Proof.
  revert st t. induction names as [|name names IH]; intros st t Hwf Ht Hnd Hin; simpl.
  { exists st. split_and!; [done|by eapply res_wf_mono| |by eauto|done].
    intros name i. split; [|by intros []]. intros. split; [done|]. left. apply not_elem_of_nil. }
  apply NoDup_cons in Hnd as [Hni Hnd]. destruct (Hin name) as [i Hi]; [by left|].
  rewrite Hi. simpl. set (m := importTable_ st) in *.
  destruct (Z.leb_spec (i_whenExpires i) now) as [Hexp|Hexp].
  2:{ simpl. destruct (IH st t Hwf Ht Hnd) as (st'&->&?&Him&?&?); [by intros; apply Hin; right|].
      exists st'. split_and!; try done. intros name' i'. rewrite Him, not_elem_of_cons.
      split; intros [Hl Hor]; (split; [done|]).
      - destruct (decide (name' = name)) as [->|]; [|tauto]. right.
        fold m in Hl. rewrite Hi in Hl. by injection Hl as <-.
      - tauto. }
  destruct (expire_import_ok st ext t now name i Hwf Ht Hi) as (st1&Hd&st2&Hd2&Hwf2&HI2&Htab).
  rewrite Hd. simpl. rewrite Hd2. simpl.
  destruct (IH st2 now Hwf2 ltac:(lia) Hnd) as (st'&->&?&Him&H3&H4).
  { intros name' Hn'. rewrite HI2, lookup_delete_ne by (by intros ->). apply Hin. by right. }
  exists st'. split_and!; try done.
  - intros name' i'. rewrite Him, HI2, lookup_delete_Some, not_elem_of_cons.
    split; [naive_solver|]. intros [Hl Hor]. split; [|destruct Hor; tauto]. split; [|done].
    intros <-. fold m in Hl. rewrite Hi in Hl. injection Hl as <-.
    destruct Hor as [[]|]; [done|lia].
  - intros k e He. apply H3 in He. by apply Htab.
  - intros k Hk. by apply H4, Htab.
Qed.

Lemma periodicActivity_ok `{!Traversal} st ext t now :
  res_wf st ext t → t <= now →
  ∃ st', periodicActivity now st = Ok st' ∧ res_wf st' ext now
    ∧ (∀ k, is_Some (table_ st' !! k) ↔
         ∃ e, table_ st !! k = Some e ∧ (0 < refcount e ∨ now < e_whenExpires e))
    ∧ (∀ name i, importTable_ st' !! name = Some i ↔
         importTable_ st !! name = Some i ∧ now < i_whenExpires i).
Proof.
  intros Hwf Ht. unfold periodicActivity.
  destruct (expire_inactive_ok _ now _ _ _ _ (rw_tab _ _ _ Hwf) eq_refl) as (st1&->&H1&I1&T1).
  simpl. assert (res_wf st1 ext t) as Hwf1 by (split; rewrite I1; [done|apply Hwf]).
  pose proof (traverse_perm (importTable_ st1)) as Hperm.
  destruct (expire_imports_ok (traverse (importTable_ st1)) now st1 ext t)
    as (st2&->&Hwf2&I2&T2&T3); [done|done| | |].
  { rewrite Hperm. apply NoDup_fst_map_to_list. }
  { intros name. rewrite Hperm. intros ([n i]&->&Hi%elem_of_map_to_list)%list_elem_of_fmap.
    by eexists. }
  exists st2. split_and!; [done..| |].
  - intros k. split.
    + intros [e He]. apply T2 in He as [e1 He1]. apply T1 in He1 as [He1 Hor]. exists e1.
      split; [done|]. destruct Hor as [Hor|]; [left|by right].
      rewrite (tw_ref _ _ _ _ (rw_tab _ _ _ Hwf) k), He1 in Hor. done.
    + intros (e&He&Hor). apply T3. exists e. apply T1. split; [done|].
      destruct Hor as [Hor|]; [left|by right].
      by rewrite (tw_ref _ _ _ _ (rw_tab _ _ _ Hwf) k), He.
  - intros name i. rewrite I2, I1. split; [|tauto]. intros [Hi [Hn|]]; [|done].
    exfalso. apply Hn. rewrite I1 in Hperm. rewrite Hperm. apply list_elem_of_fmap.
    exists (name, i). by rewrite elem_of_map_to_list.
Qed.

(** ** Charging *)

(** The balance an entry would show at [now], after a charge. *)
Definition balance_after (fee : Z) (now : Z) (e : Entry) : Z :=
  i32 (Z.quot (s_value (decay RTuning.decayWindowSeconds now (local_balance e)) + fee)
         RTuning.decayWindowSeconds + remote_balance e).

Lemma entry_add_eq fee now e :
  entry_add fee now e
  = (balance_after fee now e,
     set_local (mkSample (s_value (decay 32 now (local_balance e)) + fee)
                  (s_when (decay 32 now (local_balance e)))) e).
Proof. done. Qed.

Lemma entry_balance_eq now e :
  entry_balance now e = (balance_after 0 now e, set_local (decay 32 now (local_balance e)) e).
Proof. unfold balance_after. by rewrite Z.add_0_r. Qed.

Section charging.
Context (st : RLogic) (ext : gmultiset Key) (t now : Z).
Hypothesis (Hwf : res_wf st ext t) (Ht : t <= now).

Lemma res_on_entry {A} k (f : Entry → A * Entry) :
  0 < refs ext (importTable_ st) k →
  (∀ e, refcount (f e).2 = refcount e ∧ remote_balance (f e).2 = remote_balance e) →
  ∃ e, table_ st !! k = Some e
    ∧ on_entry k f st = Ok ((f e).1, with_table (<[k := (f e).2]> (table_ st)) st)
    ∧ res_wf (with_table (<[k := (f e).2]> (table_ st)) st) ext now.
Proof.
  intros Hk Hf. destruct (on_entry_ok _ _ _ _ (rw_tab _ _ _ Hwf) k f Hk Hf)
    as (e&st'&He&->&->&H1). exists e. split_and!; [done|done|].
  split; [|apply Hwf]. by eapply tab_wf_mono.
Qed.

Lemma charge_ok k fee :
  0 < refs ext (importTable_ st) k →
  ∃ e st', table_ st !! k = Some e
    ∧ charge k fee now st = Ok (disposition (balance_after fee now e), st')
    ∧ res_wf st' ext now ∧ importTable_ st' = importTable_ st
    ∧ table_ st' = <[k := (entry_add fee now e).2]> (table_ st).
Proof.
  intros Hk. unfold charge.
  destruct (res_on_entry k (entry_add fee now) Hk) as (e&He&->&H1); [by intros []|].
  simpl. eexists e, _. by split_and!.
Qed.

Lemma balance_ok k :
  0 < refs ext (importTable_ st) k →
  ∃ e st', table_ st !! k = Some e
    ∧ balance k now st = Ok (balance_after 0 now e, st')
    ∧ res_wf st' ext now ∧ importTable_ st' = importTable_ st
    ∧ table_ st' = <[k := set_local (decay 32 now (local_balance e)) e]> (table_ st).
Proof.
  intros Hk. unfold balance.
  destruct (res_on_entry k (entry_balance now) Hk) as (e&He&->&H1); [by intros []|].
  rewrite entry_balance_eq in *. simpl in *. eexists e, _. by split_and!.
Qed.
End charging.

Lemma disconnect_ok st ext t now k :
  res_wf st ext t → t <= now → k ∈ ext →
  ∃ e b st', table_ st !! k = Some e ∧ disconnect k now st = Ok (b, st') ∧ res_wf st' ext now
    ∧ b = negb (isUnlimited k) && (RTuning.dropThreshold <=? balance_after 0 now e).
Proof.
  intros Hwf Ht Hk. pose proof (refs_pos _ _ _ _ Hwf Hk) as Hr. unfold disconnect.
  destruct (balance_ok st ext t now Hwf Ht k Hr) as (e&st1&He&Hb&Hwf1&I1&_).
  destruct (isUnlimited k); simpl.
  { exists e, false, st. split_and!; try done. by eapply res_wf_mono. }
  unfold balance in Hb. rewrite Hb. simpl. destruct (_ <=? _) eqn:Hd.
  - destruct (charge_ok st1 ext now now Hwf1 ltac:(lia) k feeDrop) as (e1&st2&_&->&Hwf2&I2&_);
      [by rewrite I1|]. simpl. eexists e, true, _. split_and!; [done|done| |done].
    destruct Hwf2. split; [by apply tab_wf_stats|done].
  - by exists e, false, st1.
Qed.

Lemma warn_ok st ext t now k :
  res_wf st ext t → t <= now → k ∈ ext →
  ∃ e b st', table_ st !! k = Some e ∧ warn k now st = Ok (b, st') ∧ res_wf st' ext now
    ∧ b = negb (isUnlimited k) && (RTuning.warningThreshold <=? balance_after 0 now e)
          && negb (now =? lastWarningTime e)
    ∧ (b = true → lastWarningTime <$> table_ st' !! k = Some now).
Proof.
  intros Hwf Ht Hk. pose proof (refs_pos _ _ _ _ Hwf Hk) as Hr. unfold warn.
  destruct (res_on_entry st ext t now Hwf Ht k (fun e => let '(b, e') := entry_balance now e in
      ((b, lastWarningTime e'), e')) Hr) as (e&He&Hon&Hwf1); [by intros []|].
  destruct (isUnlimited k); cbv iota.
  { exists e, false, st. split_and!; try done. by eapply res_wf_mono. }
  rewrite Hon. clear Hon. simpl negb. rewrite entry_balance_eq in *. cbn -[Z.leb Z.eqb balance_after] in *.
  change (lastWarningTime (set_local _ e)) with (lastWarningTime e).
  destruct (_ && _) eqn:Hc; [|eexists e, false, _; by split_and!].
  set (st1 := with_table _ st) in *.
  destruct (charge_ok st1 ext now now Hwf1 ltac:(lia) k feeWarning)
    as (e1&st2&_&->&Hwf2&I2&_); [done|]. simpl.
  destruct (res_on_entry st2 ext now now Hwf2 ltac:(lia) k
    (fun e => (tt, set_lastWarning now e))) as (e2&_&->&Hwf3); [by rewrite I2|by intros []|].
  simpl. eexists e, true, _. split_and!; [done|done| |done|].
  - destruct Hwf3. split; [by apply tab_wf_stats|done].
  - intros _. simpl. by rewrite lookup_insert_eq.
Qed.

(** ** Reports *)

(** The local balance of an entry at [now], as an [int]. *)
Definition local_at (now : Z) (e : Entry) : Z :=
  i32 (Z.quot (s_value (decay RTuning.decayWindowSeconds now (local_balance e)))
         RTuning.decayWindowSeconds).

(** What an inbound entry contributes to the gossip. *)
Definition gossip_of (now : Z) (tbl : gmap Key Entry) (k : Key) : option GossipItem :=
  match k, tbl !! k with
  | inbound_key a, Some e =>
      if RTuning.minimumGossipBalance <=? local_at now e then Some (mkGossip (local_at now e) a)
      else None
  | _, _ => None
  end.

Lemma age_entry_ok st ref owed t k e s :
  tab_wf st ref owed t → 0 < ref k → table_ st !! k = Some e →
  tab_wf (with_table (<[k := set_local s e]> (table_ st)) st) ref owed t.
Proof.
  intros Hwf Hk He.
  destruct (on_entry_ok _ _ _ _ Hwf k (fun e => (tt, set_local s e)) Hk) as (e'&st'&He'&_&->&H1);
    [by intros []|]. rewrite He in He'. by injection He' as <-.
Qed.

Lemma export_loop_ok l now st ref owed t :
  tab_wf st ref owed t → NoDup l → (∀ k, k ∈ l → 0 < ref k ∧ key_kind k = kindInbound) →
  ∃ st', export_loop l now st = Ok (omap (gossip_of now (table_ st)) l, st')
    ∧ tab_wf st' ref owed t ∧ importTable_ st' = importTable_ st.
Proof.
  revert st. induction l as [|k l IH]; intros st Hwf Hnd Hl; simpl; [by exists st|].
  apply NoDup_cons in Hnd as [Hni Hnd]. destruct (Hl k) as [Hr Hkd]; [by left|].
  destruct (tab_lookup _ _ _ _ Hwf k Hr) as (e&He&_). rewrite He. simpl.
  match goal with |- context [export_loop l now ?s] => destruct (IH s) as (st'&->&H1&I1) end;
    [by eapply age_entry_ok|done|by intros; apply Hl; right|].
  exists st'. simpl.
  assert (∀ x, omap (gossip_of now (<[k := x]> (table_ st))) l
               = omap (gossip_of now (table_ st)) l) as Hext.
  { intros e'. apply list_omap_ext, Forall_Forall2_diag, Forall_forall. intros x Hx.
    assert (k ≠ x) by (by intros ->). destruct x; simpl; [|done|done].
    by rewrite lookup_insert_ne. }
  rewrite Hext. destruct k as [a|a|n]; try done. simpl. rewrite He. unfold local_at.
  split_and!; [|done|done]. simpl. by destruct (_ <=? _).
Qed.

Lemma exportConsumers_ok st ext t now :
  res_wf st ext t → t <= now →
  ∃ st', exportConsumers now st = Ok (omap (gossip_of now (table_ st)) (inbound_ st), st')
    ∧ res_wf st' ext now.
Proof.
  intros Hwf Ht. pose proof (rw_tab _ _ _ Hwf) as Htab.
  destruct (export_loop_ok (inbound_ st) now st _ _ _ Htab) as (st'&Hex&H1&I1).
  - apply (tw_active_nodup _ _ _ _ Htab kindInbound).
  - intros k Hk. by apply (tw_active _ _ _ _ Htab kindInbound) in Hk.
  - exists st'. split; [done|]. split; rewrite I1; [|apply Hwf]. by eapply tab_wf_mono.
Qed.

Lemma json_list_ok l threshold now st ref owed t :
  tab_wf st ref owed t → (∀ k, k ∈ l → 0 < ref k) →
  ∃ rows st', json_list l threshold now st = Ok (rows, st') ∧ tab_wf st' ref owed t
    ∧ importTable_ st' = importTable_ st ∧ (∀ kd, active_list kd st' = active_list kd st).
Proof.
  revert st. induction l as [|k l IH]; intros st Hwf Hl; simpl; [by exists [], st|].
  assert (0 < ref k) as Hr by (apply Hl; by left).
  destruct (tab_lookup _ _ _ _ Hwf k Hr) as (e&He&_). rewrite He. simpl.
  match goal with |- context [json_list l threshold now ?s] =>
    destruct (IH s) as (rows&st'&->&H1&I1&A1) end; [by eapply age_entry_ok|by intros; apply Hl; right|].
  eexists _, st'. by split_and!.
Qed.

Lemma getJson_ok threshold st ext t now :
  res_wf st ext t → t <= now →
  ∃ rows st', getJson threshold now st = Ok (rows, st') ∧ res_wf st' ext now.
Proof.
  intros Hwf Ht. pose proof (rw_tab _ _ _ Hwf) as H0. unfold getJson.
  destruct (json_list_ok (inbound_ st) threshold now st _ _ _ H0) as (r1&st1&->&H1&I1&A1).
  { intros k Hk. by apply (tw_active _ _ _ _ H0 kindInbound) in Hk as [? _]. }
  simpl. destruct (json_list_ok (outbound_ st1) threshold now st1 _ _ _ H1)
    as (r2&st2&->&H2&I2&A2).
  { intros k Hk. by apply (tw_active _ _ _ _ H1 kindOutbound) in Hk as [? _]. }
  simpl. destruct (json_list_ok (admin_ st2) threshold now st2 _ _ _ H2)
    as (r3&st3&->&H3&I3&A3).
  { intros k Hk. by apply (tw_active _ _ _ _ H2 kindUnlimited) in Hk as [? _]. }
  simpl. eexists _, st3. split; [done|]. rewrite I2, I1 in I3. split; rewrite I3; [|apply Hwf].
  by eapply tab_wf_mono.
Qed.

(** ** The operations as one step relation *)

Inductive rop :=
| r_newInbound (a : IPEndpoint)
| r_newOutbound (a : IPEndpoint)
| r_newUnlimited (name : string)
| r_copy (k : Key)
| r_destroy (k : Key)
| r_assign (this other : Consumer)
| r_charge (k : Key) (fee : Charge)
| r_warn (k : Key)
| r_disconnect (k : Key)
| r_balance (k : Key)
| r_export
| r_json (threshold : Z)
| r_import (origin : string) (gossip : Gossip)
| r_periodic.

(** The entries a consumer refers to. *)
Definition handle (c : Consumer) : gmultiset Key := match c with Some k => {[+ k +]} | None => ∅ end.

(** The state with the consumers the clients hold. *)
Definition rrun `{!Traversal} (o : rop) (now : Z) (x : RLogic * gmultiset Key)
  : res (RLogic * gmultiset Key) :=
  let '(st, ext) := x in
  match o with
  | r_newInbound a => st ← newInboundEndpoint a now st; Ok (st, {[+ inbound_of a +]} ⊎ ext)
  | r_newOutbound a => st ← newOutboundEndpoint a now st; Ok (st, {[+ outbound_key a +]} ⊎ ext)
  | r_newUnlimited n => st ← newUnlimitedEndpoint n now st; Ok (st, {[+ unlimited_key n +]} ⊎ ext)
  | r_copy k => st ← consumer_copy (Some k) st; Ok (st, {[+ k +]} ⊎ ext)
  | r_destroy k => st ← consumer_destroy (Some k) now st; Ok (st, ext ∖ {[+ k +]})
  | r_assign this other => st ← consumer_assign this other now st; Ok (st, handle other ⊎ (ext ∖ handle this))
  | r_charge k fee => '(_, st) ← consumer_charge (Some k) fee now st; Ok (st, ext)
  | r_warn k => '(_, st) ← consumer_warn (Some k) now st; Ok (st, ext)
  | r_disconnect k => '(_, st) ← consumer_disconnect (Some k) now st; Ok (st, ext)
  | r_balance k => '(_, st) ← consumer_balance (Some k) now st; Ok (st, ext)
  | r_export => '(_, st) ← exportConsumers now st; Ok (st, ext)
  | r_json threshold => '(_, st) ← getJson threshold now st; Ok (st, ext)
  | r_import origin gossip => st ← importConsumers origin gossip now st; Ok (st, ext)
  | r_periodic => st ← periodicActivity now st; Ok (st, ext)
  end.

(** A consumer that is used is held; a consumer is assigned from another object. *)
Definition renabled (o : rop) (ext : gmultiset Key) : Prop :=
  match o with
  | r_copy k | r_destroy k | r_charge k _ | r_warn k | r_disconnect k | r_balance k => k ∈ ext
  | r_assign this other => handle this ⊎ handle other ⊆ ext
  | _ => True
  end.

Lemma assign_handle_ok this other now st ext t :
  res_wf st ext t → t <= now → handle this ⊎ handle other ⊆ ext →
  ∃ st', consumer_assign this other now st = Ok st' ∧ res_wf st' (handle other ⊎ (ext ∖ handle this)) now.
Proof.
  intros Hwf Ht Hh. unfold consumer_assign.
  assert (∃ st1, consumer_destroy this now st = Ok st1 ∧ res_wf st1 (ext ∖ handle this) now) as (st1&->&Hwf1).
  { destruct this as [k|]; cbn [handle] in *.
    - apply (drop_handle_ok st ext t now Hwf Ht k). multiset_solver.
    - exists st. split; [done|]. replace (ext ∖ ∅) with ext by multiset_solver. by eapply res_wf_mono. }
  cbn [mbind res_bind]. destruct other as [k|]; cbn [handle] in *.
  - apply (copy_handle_ok st1 _ now now Hwf1); [lia|]. destruct this; multiset_solver.
  - exists st1. split; [done|]. by rewrite gmultiset_disj_union_left_id.
Qed.

Lemma rrun_ok `{!Traversal} o now st ext t :
  res_wf st ext t → t <= now → renabled o ext →
  ∃ st' ext', rrun o now (st, ext) = Ok (st', ext') ∧ res_wf st' ext' now.
Proof.
  intros Hwf Ht He. destruct o; simpl in *.
  - destruct (new_handle_ok st ext t now Hwf Ht (inbound_of a)) as (st'&Hr&?).
    unfold newInboundEndpoint. rewrite Hr. simpl. by eexists _, _.
  - destruct (new_handle_ok st ext t now Hwf Ht (outbound_key a)) as (st'&Hr&?).
    unfold newOutboundEndpoint. rewrite Hr. simpl. by eexists _, _.
  - destruct (new_handle_ok st ext t now Hwf Ht (unlimited_key name)) as (st'&Hr&?).
    unfold newUnlimitedEndpoint. rewrite Hr. simpl. by eexists _, _.
  - destruct (copy_handle_ok st ext t now Hwf Ht k He) as (st'&Hr&?).
    simpl in Hr. rewrite Hr. simpl. by eexists _, _.
  - destruct (drop_handle_ok st ext t now Hwf Ht k He) as (st'&Hr&?).
    simpl in Hr. rewrite Hr. simpl. by eexists _, _.
  - destruct (assign_handle_ok this other now st ext t Hwf Ht He) as (st'&->&?). simpl. by eexists _, _.
  - destruct (charge_ok st ext t now Hwf Ht k fee) as (e&st'&_&->&?&_);
      [by eapply refs_pos|]. simpl. by eexists _, _.
  - destruct (warn_ok st ext t now k Hwf Ht He) as (e&b&st'&_&->&?&_). simpl. by eexists _, _.
  - destruct (disconnect_ok st ext t now k Hwf Ht He) as (e&b&st'&_&->&?&_). simpl.
    by eexists _, _.
  - destruct (balance_ok st ext t now Hwf Ht k) as (e&st'&_&->&?&_);
      [by eapply refs_pos|]. simpl. by eexists _, _.
  - destruct (exportConsumers_ok st ext t now Hwf Ht) as (st'&->&?). simpl. by eexists _, _.
  - destruct (getJson_ok threshold st ext t now Hwf Ht) as (rows&st'&->&?). simpl. by eexists _, _.
  - destruct (importConsumers_ok st ext t now Hwf Ht origin gossip) as (st'&->&?&_). simpl.
    by eexists _, _.
  - destruct (periodicActivity_ok st ext t now Hwf Ht) as (st'&->&?&_). simpl. by eexists _, _.
Qed.

Inductive rstep `{!Traversal} : RLogic * gmultiset Key * Z → RLogic * gmultiset Key * Z → Prop :=
| rstep_run o x t now x' :
    t <= now → renabled o x.2 → rrun o now x = Ok x' → rstep (x, t) (x', now).

Definition rreachable `{!Traversal} (x : RLogic * gmultiset Key * Z) : Prop :=
  ∃ t0, rtc rstep (RLogic_init, ∅, t0) x.

Lemma rreachable_wf `{!Traversal} st ext t : rreachable (st, ext, t) → res_wf st ext t.
Proof.
  intros [t0 Hs]. apply (rtc_ind_r (fun x => res_wf x.1.1 x.1.2 x.2)
    (RLogic_init, ∅, t0)) in Hs; [done|apply res_wf_init|].
  intros y z _ Hst IH. destruct Hst as [o [st0 ext0] t1 now x' Ht He Hrun]. simpl in IH, He |- *.
  destruct (rrun_ok o now st0 ext0 t1 IH Ht He) as (st'&ext'&Hrun'&?).
  rewrite Hrun in Hrun'. by injection Hrun' as ->.
Qed.
