(* ===== verification/ResourceProps.v ===== *)
(** * Properties of the resource manager

    What holds of every reachable state of [Resource::Logic] and what its operations do
    there, with a concrete run the properties are instantiated at. *)

From S2P Require Import Prelude IPAddr Slot Decaying Resource ResourceInv.
From stdpp Require Import gmultiset strings relations.

Local Open Scope Z_scope.

Section properties.
Context `{!Traversal}.
Implicit Types (st : RLogic) (ext : gmultiset Key) (t now : Z) (k : Key).

(** C7: In every state the resource manager can reach, every operation on handles the
    clients hold (creating, copying and destroying consumers, assigning one to another,
    charging, warning, disconnecting, gossip import and export, periodic expiry) returns
    normally: no dangling entry, no failed assertion. A consumer is assigned from
    another object; assigning the last consumer of an entry to itself is excluded. *)
Theorem resource_safe o now st ext t :
  rreachable (st, ext, t) → t <= now → renabled o ext →
  ∃ x', rrun o now (st, ext) = Ok x' ∧ rreachable (x', now).
Proof.
  intros Hr Ht He. destruct (rrun_ok o now st ext t (rreachable_wf _ _ _ Hr) Ht He)
    as (st'&ext'&Hrun&_). exists (st', ext'). split; [done|].
  destruct Hr as [t0 Hr]. exists t0. eapply rtc_r; [done|]. by econstructor.
Qed.

(** C29: In every reachable state the reference count of each entry is the number of
    handles the clients hold on it plus the number of import items that hold it, and an
    entry that is not in the table has none. *)
Theorem refcount_exact st ext t k :
  rreachable (st, ext, t) →
  (match table_ st !! k with Some e => refcount e | None => 0 end)
  = Z.of_nat (multiplicity k ext) + msum (imp_held k) (importTable_ st).
Proof. intros Hr%rreachable_wf. symmetry. apply (tw_ref _ _ _ _ (rw_tab _ _ _ Hr)). Qed.

(** In every reachable state each entry is in exactly one list, without repetition: in
    the active list of its kind when it is referenced, in the inactive list when it is
    not. *)
Theorem lists_partition st ext t k :
  rreachable (st, ext, t) →
  (∀ kd, NoDup (active_list kd st)) ∧ NoDup (inactive_ st)
  ∧ (∀ kd, k ∈ active_list kd st ↔
       ∃ e, table_ st !! k = Some e ∧ 0 < refcount e ∧ key_kind k = kd)
  ∧ (k ∈ inactive_ st ↔ ∃ e, table_ st !! k = Some e ∧ refcount e = 0).
Proof.
  intros Hr%rreachable_wf. pose proof (rw_tab _ _ _ Hr) as Hw.
  pose proof (tw_ref _ _ _ _ Hw k) as Hrk. split_and!; [apply Hw|apply Hw| |].
  - intros kd. rewrite (tw_active _ _ _ _ Hw), Hrk.
    destruct (table_ st !! k) as [e|]; [naive_solver|]. split; [lia|naive_solver].
  - rewrite (tw_inactive _ _ _ _ Hw), Hrk.
    destruct (table_ st !! k) as [e|]; [naive_solver|]. split; [by intros [[] _]|naive_solver].
Qed.

(** Importing gossip from an origin replaces what that origin contributed before:
    afterwards the remote balance of every entry is the sum of the current contributions
    of all origins to it, as a 32-bit integer. *)
Theorem import_replaces origin gossip now st ext t :
  rreachable (st, ext, t) → t <= now →
  ∃ st', importConsumers origin gossip now st = Ok st'
    ∧ ∀ k e, table_ st' !! k = Some e →
        remote_balance e
        = i32 (msum (imp_due k) (delete origin (importTable_ st))
               + foldr (fun g a => (if decide (inbound_of (g_address g) = k)
                                    then g_balance g else 0) + a) 0 gossip).
Proof.
  intros Hr%rreachable_wf Ht.
  destruct (importConsumers_ok st ext t now Hr Ht origin gossip) as (st'&->&Hwf'&HI).
  exists st'. split; [done|]. intros k e He.
  rewrite (tw_remote _ _ _ _ (rw_tab _ _ _ Hwf') _ _ He), HI. unfold owed.
  rewrite <-insert_delete_eq, msum_insert by apply lookup_delete_eq.
  rewrite Z.add_comm. f_equal. f_equal. unfold imp_due, due. simpl.
  clear. induction gossip as [|g gossip IH]; simpl; [done|]. f_equal; [|exact IH].
  unfold item_due. simpl. repeat case_decide; naive_solver.
Qed.

(** Charging a consumer returns drop, warn or ok according to whether the balance after
    the charge, the decayed local balance plus the remote balance, is at least 1500,
    between 500 and 1500, or below 500. *)
Theorem charge_decides k fee now st ext t :
  rreachable (st, ext, t) → t <= now → k ∈ ext →
  ∃ e d st', table_ st !! k = Some e ∧ charge k fee now st = Ok (d, st')
    ∧ let b := balance_after fee now e in
      (d = disp_drop ↔ 1500 <= b) ∧ (d = disp_warn ↔ 500 <= b < 1500)
      ∧ (d = disp_ok ↔ b < 500).
Proof.
  intros Hr%rreachable_wf Ht Hk.
  destruct (charge_ok st ext t now Hr Ht k fee) as (e&st'&He&->&_); [by eapply refs_pos|].
  eexists e, _, st'. split_and!; [done|done|]. simpl.
  unfold disposition, RTuning.dropThreshold, RTuning.warningThreshold.
  destruct (Z.leb_spec 1500 (balance_after fee now e)); [naive_solver lia|].
  destruct (Z.leb_spec 500 (balance_after fee now e)); naive_solver lia.
Qed.

(** A warning is given only to a limited consumer whose balance is at least the warning
    threshold and that was not warned at this tick, and a second request at the same
    tick does not warn again. *)
Theorem warn_once_per_tick k now st st' ext t :
  rreachable (st, ext, t) → t <= now → k ∈ ext → warn k now st = Ok (true, st') →
  isUnlimited k = false
  ∧ (∃ e, table_ st !! k = Some e ∧ 500 <= balance_after 0 now e ∧ lastWarningTime e ≠ now)
  ∧ ∃ st'', warn k now st' = Ok (false, st'').
Proof.
  intros Hr Ht Hk Hw. apply rreachable_wf in Hr.
  destruct (warn_ok st ext t now k Hr Ht Hk) as (e&b&st1&He&Hw1&Hwf1&Hb&Hlast).
  rewrite Hw in Hw1. injection Hw1 as <- <-. specialize (Hlast eq_refl).
  destruct (warn_ok st' ext now now k Hwf1 ltac:(lia) Hk) as (e'&b'&st2&He'&Hw2&_&Hb'&_).
  rewrite He' in Hlast. injection Hlast as Hlast.
  symmetry in Hb. apply andb_true_iff in Hb as [[Hu%negb_true_iff Hbal]%andb_true_iff Hn].
  apply Z.leb_le in Hbal. apply negb_true_iff, Z.eqb_neq in Hn.
  split_and!; [done|by exists e|]. exists st2. rewrite Hw2. rewrite Hb', Hlast.
  by rewrite Z.eqb_refl, andb_false_r.
Qed.

(** An unlimited consumer is never warned and never disconnected, and is in the admin
    list while it is referenced. *)
Theorem unlimited_never_limited name now st ext t :
  rreachable (st, ext, t) → unlimited_key name ∈ ext →
  warn (unlimited_key name) now st = Ok (false, st)
  ∧ disconnect (unlimited_key name) now st = Ok (false, st)
  ∧ unlimited_key name ∈ admin_ st.
Proof.
  intros Hr%rreachable_wf Hk. split_and!; [done|done|].
  apply (tw_active _ _ _ _ (rw_tab _ _ _ Hr) kindUnlimited). split; [|done].
  by eapply refs_pos.
Qed.

(** disconnect asks for a disconnection exactly for a limited consumer whose balance is
    at least the drop threshold. *)
Theorem disconnect_decides k now st ext t :
  rreachable (st, ext, t) → t <= now → k ∈ ext →
  ∃ e b st', table_ st !! k = Some e ∧ disconnect k now st = Ok (b, st')
    ∧ (b = true ↔ isUnlimited k = false ∧ 1500 <= balance_after 0 now e).
Proof.
  intros Hr%rreachable_wf Ht Hk.
  destruct (disconnect_ok st ext t now k Hr Ht Hk) as (e&b&st'&He&->&_&->).
  eexists e, _, st'. split_and!; [done|done|].
  by rewrite andb_true_iff, negb_true_iff, Z.leb_le.
Qed.

(** Periodic activity keeps exactly the entries that are referenced or not yet expired,
    and exactly the imports that are not yet expired; it always returns. *)
Theorem periodic_expires now st ext t :
  rreachable (st, ext, t) → t <= now →
  ∃ st', periodicActivity now st = Ok st'
    ∧ (∀ k, is_Some (table_ st' !! k) ↔
         ∃ e, table_ st !! k = Some e ∧ (0 < refcount e ∨ now < e_whenExpires e))
    ∧ (∀ name i, importTable_ st' !! name = Some i ↔
         importTable_ st !! name = Some i ∧ now < i_whenExpires i).
Proof.
  intros Hr%rreachable_wf Ht.
  destruct (periodicActivity_ok st ext t now Hr Ht) as (st'&->&_&?&?). by exists st'.
Qed.

(** When the last handle on an entry is destroyed at t1, periodic activity at t2 removes
    the entry exactly when t2 is at least t1 + 300 ticks of the clock. *)
Theorem last_release_expires k t1 t2 st ext t :
  rreachable (st, ext, t) → t <= t1 → t1 <= t2 → k ∈ ext →
  refs ext (importTable_ st) k = 1 →
  ∃ st1 st2, consumer_destroy (Some k) t1 st = Ok st1 ∧ periodicActivity t2 st1 = Ok st2
    ∧ (table_ st2 !! k = None ↔ t1 + 300 <= t2).
Proof.
  intros Hr%rreachable_wf Ht1 Ht2 Hk Href. pose proof (rw_tab _ _ _ Hr) as Hw.
  destruct (drop_handle_ok st ext t t1 Hr Ht1 k Hk) as (st1&Hd&Hwf1).
  destruct (periodicActivity_ok st1 _ t1 t2 Hwf1 Ht2) as (st2&Hp&_&Htab&_).
  exists st1, st2. split_and!; [done|done|]. rewrite eq_None_not_Some, Htab.
  assert (∃ e, table_ st1 !! k = Some e ∧ refcount e = 0 ∧ e_whenExpires e = t1 + 300)
    as (e&He&He0&Hew).
  { simpl in Hd. unfold release in Hd. apply bind_ok in Hd as (e&He&Hd). apply deref_ok in He.
    pose proof (tw_ref _ _ _ _ Hw k) as Hc. rewrite He, Href in Hc. simpl in Hd.
    rewrite (proj2 (Z.eqb_eq _ _)) in Hd by lia.
    apply bind_ok in Hd as (l&_&Hd). apply bind_ok in Hd as (l'&_&Hd). injection Hd as <-.
    simpl. rewrite lookup_insert_eq. eexists. split_and!; [done|simpl; lia|done]. }
  rewrite He. split.
  - intros Hn. destruct (Z.le_gt_cases (t1 + 300) t2); [done|]. exfalso. apply Hn.
    exists e. split; [done|]. right. lia.
  - intros Hle (e'&[= <-]&Hor). lia.
Qed.

(** Gossip export lists exactly the referenced inbound entries whose decayed local
    balance is at least the gossip minimum, with that balance. *)
Theorem export_selects now st ext t :
  rreachable (st, ext, t) → t <= now →
  ∃ g st', exportConsumers now st = Ok (g, st')
    ∧ ∀ b a, mkGossip b a ∈ g ↔
        ∃ e, table_ st !! inbound_key a = Some e ∧ 0 < refcount e
             ∧ b = local_at now e ∧ 100 <= b.
Proof.
  intros Hr%rreachable_wf Ht. pose proof (rw_tab _ _ _ Hr) as Hw.
  destruct (exportConsumers_ok st ext t now Hr Ht) as (st'&->&_). eexists _, st'.
  split; [done|]. intros b a. rewrite list_elem_of_omap. split.
  - intros (k&Hk&Hg). apply (tw_active _ _ _ _ Hw kindInbound) in Hk as [Hk _].
    rewrite (tw_ref _ _ _ _ Hw k) in Hk. destruct k as [a'|a'|n]; simpl in Hg; [|done|done].
    destruct (table_ st !! inbound_key a') as [e|] eqn:He; [|done].
    destruct (Z.leb_spec RTuning.minimumGossipBalance (local_at now e)) as [Hm|]; [|done].
    injection Hg as <- <-. by exists e.
  - intros (e&He&Hc&->&Hb). exists (inbound_key a). split.
    + apply (tw_active _ _ _ _ Hw kindInbound). rewrite (tw_ref _ _ _ _ Hw), He. done.
    + simpl. rewrite He. by rewrite (proj2 (Z.leb_le _ _)).
Qed.

(** The loop over the inactive entries stops at a referenced one. *)
Lemma expire_referenced k e now (l : list Key) : ∀ st,
  inactive_ st = l ++ [k] → NoDup (l ++ [k]) → table_ st !! k = Some e → refcount e ≠ 0 → e_whenExpires e <= now →
  (∀ x, x ∈ l → ∃ e', table_ st !! x = Some e' ∧ refcount e' = 0 ∧ e_whenExpires e' <= now) →
  expire_inactive (l ++ [k]) now st = Err assert_failed.
Proof.
  induction l as [|x l IH]; intros st Hi Hnd He Href Hexp Hl; cbn [app expire_inactive].
  - rewrite He. cbn [deref mbind res_bind]. rewrite (proj2 (Z.leb_le _ _)) by done. unfold erase. rewrite He.
    cbn [deref mbind res_bind]. by rewrite (proj2 (Z.eqb_neq _ _)).
  - destruct (Hl x) as (e'&He'&Hz&Hx); [by left|]. rewrite He'. cbn [deref mbind res_bind]. rewrite (proj2 (Z.leb_le _ _)) by done.
    unfold erase, list_erase. rewrite He', Hi. cbn [deref mbind res_bind]. rewrite (proj2 (Z.eqb_eq _ _)) by done.
    cbn [assert_ mbind res_bind]. rewrite decide_True by (by left). cbn [mbind res_bind app erase1]. rewrite decide_True by done.
    cbn [app] in Hnd. apply NoDup_cons in Hnd as [Hni Hnd]. apply IH; [done|done| |done|done|].
    + cbn. rewrite lookup_delete_ne; [done|]. intros ->. apply Hni, elem_of_app. right. by left.
    + intros y Hy. destruct (Hl y) as (ey&?&?); [by right|]. exists ey. cbn. rewrite lookup_delete_ne; [done|].
      intros ->. apply Hni, elem_of_app. by left.
Qed.

(** Assigning the last consumer of an entry to itself leaves a referenced entry on the
    inactive list, and the periodic activity fails its assertion once the entry has
    expired. *)
Theorem self_assignment_fails k now later st ext t :
  rreachable (st, ext, t) → t <= now → k ∈ ext → refs ext (importTable_ st) k = 1 →
  now + RTuning.secondsUntilExpiration <= later →
  ∃ st', consumer_assign (Some k) (Some k) now st = Ok st' ∧ k ∈ inactive_ st'
    ∧ refcount <$> table_ st' !! k = Some 1 ∧ periodicActivity later st' = Err assert_failed.
Proof.
  intros Hr%rreachable_wf Ht Hk Href Hlater. pose proof (rw_tab _ _ _ Hr) as Hw.
  destruct (drop_handle_ok st ext t now Hr Ht k Hk) as (st1&Hd&Hwf1). pose proof (rw_tab _ _ _ Hwf1) as Hw1.
  unfold consumer_assign. rewrite Hd. cbn [mbind res_bind consumer_copy]. cbn [consumer_destroy] in Hd.
  unfold release in Hd. apply bind_ok in Hd as (e&He%deref_ok&Hd).
  pose proof (tw_ref _ _ _ _ Hw k) as Hc. rewrite He, Href in Hc. cbn [refcount set_refcount] in Hd.
  rewrite (proj2 (Z.eqb_eq _ _)) in Hd by lia. apply bind_ok in Hd as (l&_&Hd). apply bind_ok in Hd as (l'&Hl'&Hd).
  unfold list_push_back in Hl'. case_decide; [done|]. injection Hl' as <-. injection Hd as Hd.
  assert (inactive_ st1 = inactive_ st ++ [k]) as Hi by (by rewrite <-Hd).
  set (e1 := set_expires (now + RTuning.secondsUntilExpiration) (set_refcount (refcount e - 1) e)) in *.
  assert (table_ st1 !! k = Some e1) as Hk1 by (rewrite <-Hd; apply lookup_insert_eq).
  unfold acquire. rewrite Hk1. cbn [deref mbind res_bind]. set (e2 := set_refcount (refcount e1 + 1) e1).
  assert (refcount e2 = 1) as H2 by (unfold e2, e1; cbn; lia).
  eexists. split; [done|]. split_and!; cbn [inactive_ with_table table_].
  - rewrite Hi. apply elem_of_app. right. by left.
  - rewrite lookup_insert_eq. cbn [fmap option_fmap option_map]. by rewrite H2.
  - unfold periodicActivity. cbn [inactive_ with_table]. rewrite Hi, (expire_referenced k e2); [done|exact Hi| |by apply lookup_insert_eq|lia|done|].
    { rewrite <-Hi. apply Hw1. }
    intros x Hx. assert (x ∈ inactive_ st1) as Hx1 by (rewrite Hi; apply elem_of_app; by left).
    pose proof (tw_recent _ _ _ _ Hw1 x Hx1) as Hrec. apply (tw_inactive _ _ _ _ Hw1) in Hx1 as [[ex Hex] Hz].
    rewrite (tw_ref _ _ _ _ Hw1), Hex in Hz. unfold expires in Hrec. rewrite Hex in Hrec.
    exists ex. cbn [table_ with_table]. rewrite lookup_insert_ne; [split_and!; [done|done|lia]|]. by intros ->.
Qed.
End properties.

(** ** A concrete run *)

Program Definition traversal_keys : Traversal := {| traverse m := (map_to_list m).*1 |}.
Next Obligation. done. Qed.
#[local] Existing Instance traversal_keys.

Definition peer (n : Z) : IPEndpoint := mkEp (v4_of_octets 10 1 2 n) 4000.

Definition rdemo_ops : list (rop * Z) :=
  [ (r_newInbound (peer 1), seconds 1);
    (r_charge (inbound_of (peer 1)) 30000, seconds 2);
    (r_newUnlimited "admin", seconds 3);
    (r_import "node1" [mkGossip 700 (peer 2); mkGossip 50 (peer 1)], seconds 4);
    (r_newOutbound (peer 3), seconds 5) ].

Definition rdemo (n : nat) : RLogic * gmultiset Key :=
  foldl (fun x o => match rrun o.1 o.2 x with Ok x' => x' | Err _ => x end)
    (RLogic_init, ∅) (take n rdemo_ops).


Lemma rdemo_step n o now t :
  rdemo_ops !! n = Some (o, now) → t <= now → renabled o (rdemo n).2 →
  is_ok (rrun o now (rdemo n)) = true → rstep (rdemo n, t) (rdemo (S n), now).
Proof.
  intros Ho Ht He Hok. econstructor; [done|done|].
  assert (rdemo (S n) = match rrun o now (rdemo n) with Ok x' => x' | Err _ => rdemo n end) as ->.
  { unfold rdemo at 1. rewrite (take_S_r _ _ _ Ho), foldl_app. done. }
  destruct (rrun o now (rdemo n)); [done|discriminate].
Qed.

Lemma rdemo_held : inbound_of (peer 1) ∈ (rdemo 1).2.
Proof. by_compute. Qed.

(** The state at the end of the run and the consumers held there. *)
Definition rst : RLogic := (rdemo 5).1.
Definition rext : gmultiset Key := (rdemo 5).2.

Lemma rdemo_reachable : rreachable (rst, rext, seconds 5).
Proof.
  unfold rst, rext. rewrite <-surjective_pairing. exists 0.
  eapply rtc_l; [eapply (rdemo_step 0 _ _ 0 eq_refl); [done|done|vm_compute; reflexivity]|].
  eapply rtc_l; [eapply (rdemo_step 1 _ _ _ eq_refl); [done|exact rdemo_held|vm_compute; reflexivity]|].
  eapply rtc_l; [eapply (rdemo_step 2 _ _ _ eq_refl); [done|done|vm_compute; reflexivity]|].
  eapply rtc_l; [eapply (rdemo_step 3 _ _ _ eq_refl); [done|done|vm_compute; reflexivity]|].
  eapply rtc_l; [eapply (rdemo_step 4 _ _ _ eq_refl); [done|done|vm_compute; reflexivity]|].
  reflexivity.
Qed.

Lemma resource_safe_witness :
  ∃ x', rrun (r_destroy (outbound_key (peer 3))) (seconds 9) (rst, rext) = Ok x'
        ∧ rreachable (x', seconds 9).
Proof.
  apply (resource_safe _ (seconds 9) rst rext (seconds 5)).
  - exact rdemo_reachable.
  - discriminate.
  - change (outbound_key (peer 3) ∈ rext). by_compute.
Defined.

Lemma self_assignment_fails_witness :
  ∃ st', consumer_assign (Some (outbound_key (peer 3))) (Some (outbound_key (peer 3))) (seconds 9) rst = Ok st'
    ∧ periodicActivity (seconds 400) st' = Err assert_failed.
Proof.
  destruct (self_assignment_fails (outbound_key (peer 3)) (seconds 9) (seconds 400) rst rext (seconds 5) rdemo_reachable)
    as (st'&?&_&_&?); [discriminate|by_compute|vm_compute; reflexivity|discriminate|]. exists st'. split; assumption.
Defined.

Lemma refcount_exact_witness :
  (match table_ rst !! inbound_of (peer 1) with Some e => refcount e | None => 0 end) = 1 + 1.
Proof.
  rewrite (refcount_exact rst rext (seconds 5)) by exact rdemo_reachable.
  vm_compute. reflexivity.
Defined.

Lemma lists_partition_witness : NoDup (inactive_ rst).
Proof.
  apply (lists_partition rst rext (seconds 5) (inbound_of (peer 1)) rdemo_reachable).
Defined.

Lemma import_replaces_witness :
  ∃ st', importConsumers "node1" [mkGossip 20 (peer 1)] (seconds 9) rst = Ok st'.
Proof.
  destruct (import_replaces "node1" [mkGossip 20 (peer 1)] (seconds 9) rst rext
    (seconds 5) rdemo_reachable) as (st'&?&_); [discriminate|]. exists st'. assumption.
Defined.

Lemma charge_decides_witness :
  ∃ e d st', table_ rst !! inbound_of (peer 1) = Some e
    ∧ charge (inbound_of (peer 1)) feeDrop (seconds 9) rst = Ok (d, st').
Proof.
  destruct (charge_decides (inbound_of (peer 1)) feeDrop (seconds 9) rst rext
    (seconds 5) rdemo_reachable) as (e&d&st'&?&?&_); [discriminate|by_compute|].
  exists e, d, st'. split; assumption.
Defined.

(** The state after the warning of the first peer. *)
Definition warned : RLogic :=
  match warn (inbound_of (peer 1)) (seconds 9) rst with
  | Ok (_, st) => st
  | Err _ => rst
  end.

Lemma warn_once_per_tick_witness :
  ∃ st'', warn (inbound_of (peer 1)) (seconds 9) warned = Ok (false, st'').
Proof.
  apply (warn_once_per_tick (inbound_of (peer 1)) (seconds 9) rst warned rext
    (seconds 5) rdemo_reachable); [discriminate|by_compute|vm_compute; reflexivity].
Defined.

Lemma unlimited_never_limited_witness :
  disconnect (unlimited_key "admin") (seconds 9) rst = Ok (false, rst).
Proof.
  apply (unlimited_never_limited "admin" (seconds 9) rst rext (seconds 5)
    rdemo_reachable). by_compute.
Defined.

Lemma disconnect_decides_witness :
  ∃ e b st', table_ rst !! inbound_of (peer 1) = Some e
    ∧ disconnect (inbound_of (peer 1)) (seconds 9) rst = Ok (b, st').
Proof.
  destruct (disconnect_decides (inbound_of (peer 1)) (seconds 9) rst rext
    (seconds 5) rdemo_reachable) as (e&b&st'&?&?&_); [discriminate|by_compute|].
  exists e, b, st'. split; assumption.
Defined.

Lemma periodic_expires_witness :
  ∃ st', periodicActivity (seconds 9) rst = Ok st'.
Proof.
  destruct (periodic_expires (seconds 9) rst rext (seconds 5) rdemo_reachable)
    as (st'&?&_); [discriminate|]. exists st'. assumption.
Defined.

(** One second after the last reference is gone, so is the entry. *)
Lemma last_release_expires_witness :
  ∃ st1 st2, consumer_destroy (Some (outbound_key (peer 3))) (seconds 9) rst = Ok st1
    ∧ periodicActivity (seconds 10) st1 = Ok st2 ∧ table_ st2 !! outbound_key (peer 3) = None.
Proof.
  destruct (last_release_expires (outbound_key (peer 3)) (seconds 9) (seconds 10)
    rst rext (seconds 5) rdemo_reachable) as (st1&st2&?&?&Hgone);
    [discriminate|discriminate|by_compute|vm_compute; reflexivity|].
  exists st1, st2. split_and!; [assumption..|]. apply Hgone. discriminate.
Defined.

Lemma export_selects_witness :
  ∃ g st', exportConsumers (seconds 9) rst = Ok (g, st').
Proof.
  destruct (export_selects (seconds 9) rst rext (seconds 5) rdemo_reachable)
    as (g&st'&?&_); [discriminate|]. exists g, st'. assumption.
Defined.
