(* ===== verification/DList.v ===== *)
(** * The intrusive doubly linked list ([beast/core/List.h])

    Elements carry their own links, so a list is a pair of sentinel nodes in a memory
    of nodes.  The operations below write that memory the way the sources do, and are
    shown to implement the operations on the sequence of elements: [is_list l xs m]
    says that in the memory [m] the list object [l] holds the elements [xs].  The
    resource manager and its client files use the sequence; this file discharges that
    use. *)

From S2P Require Import Prelude.

Local Open Scope Z_scope.

(** ** Memory *)

Abbreviation loc := positive.

(** [detail::ListNode]; [None] is the null pointer. *)
Record ListNode := mkNode { m_next : option loc; m_prev : option loc }.

Abbreviation memory := (gmap loc ListNode).

(** Reading and writing a link through a pointer that may be null or dangling. *)
Definition get_next (m : memory) (p : option loc) : res (option loc) :=
  a ← deref p; n ← deref (m !! a); Ok (m_next n).
Definition get_prev (m : memory) (p : option loc) : res (option loc) :=
  a ← deref p; n ← deref (m !! a); Ok (m_prev n).
Definition set_next (p : option loc) (v : option loc) (m : memory) : res memory :=
  a ← deref p; n ← deref (m !! a); Ok (<[a := mkNode v (m_prev n)]> m).
Definition set_prev (p : option loc) (v : option loc) (m : memory) : res memory :=
  a ← deref p; n ← deref (m !! a); Ok (<[a := mkNode (m_next n) v]> m).

(** ** The list object

    [head] and [tail] are the addresses of its members [m_head] and [m_tail]; a list is
    not copied or moved, so they do not change. *)
Record DList := mkDList { d_size : Z; d_head : loc; d_tail : loc }.

Definition set_size (n : Z) (l : DList) : DList := mkDList n (d_head l) (d_tail l).

Definition list_clear (l : DList) (m : memory) : res (DList * memory) :=
  m ← set_next (Some (d_head l)) (Some (d_tail l)) m;
  m ← set_prev (Some (d_tail l)) (Some (d_head l)) m;
  Ok (set_size 0 l, m).

(** The constructor, for sentinels at [h] and [t]; [m_size] is written by [clear]. *)
Definition List_init (h t : loc) (m : memory) : res (DList * memory) :=
  m ← set_prev (Some h) None m;
  m ← set_next (Some t) None m;
  list_clear (mkDList 0 h t) m.

Definition list_size (l : DList) : Z := d_size l.
Definition list_empty (l : DList) : bool := list_size l =? 0.

(** Iterators are node pointers. *)
Definition list_begin (l : DList) (m : memory) : res (option loc) := get_next m (Some (d_head l)).
Definition list_end (l : DList) : option loc := Some (d_tail l).
Definition increment (m : memory) (it : option loc) : res (option loc) := get_next m it.
Definition decrement (m : memory) (it : option loc) : res (option loc) := get_prev m it.
Definition iterator_to (element : loc) : option loc := Some element.
Definition list_front (l : DList) (m : memory) : res loc :=
  p ← get_next m (Some (d_head l)); deref p.
Definition list_back (l : DList) (m : memory) : res loc :=
  p ← get_prev m (Some (d_tail l)); deref p.

(** [insert (pos, element)]: links the element before [pos]. *)
Definition list_insert (pos : option loc) (element : loc) (l : DList) (m : memory)
  : res (option loc * DList * memory) :=
  let node := Some element in
  m ← set_next node pos m;
  n ← get_next m node;
  pr ← get_prev m n;
  m ← set_prev node pr m;
  n ← get_next m node;
  m ← set_prev n node m;
  p ← get_prev m node;
  m ← set_next p node m;
  Ok (node, set_size (u64 (d_size l + 1)) l, m).

(** [insert (pos, other)]: splices the elements of [other] before [pos]. *)
Definition list_splice (pos : option loc) (l other : DList) (m : memory)
  : res (DList * DList * memory) :=
  if list_empty other then Ok (l, other, m)
  else
    let before := pos in
    first ← get_next m (Some (d_head other));
    bp ← get_prev m before;
    m ← set_prev first bp m;
    bp ← get_prev m before;
    first ← get_next m (Some (d_head other));
    m ← set_next bp first m;
    last ← get_prev m (Some (d_tail other));
    m ← set_next last before m;
    last ← get_prev m (Some (d_tail other));
    m ← set_prev before last m;
    let l := set_size (u64 (d_size l + d_size other)) l in
    '(other, m) ← list_clear other m;
    Ok (l, other, m).

(** [erase (pos)]: unlinks the node and returns its successor. *)
Definition node_erase (pos : option loc) (l : DList) (m : memory)
  : res (option loc * DList * memory) :=
  let node := pos in
  next ← increment m pos;
  n ← get_next m node;
  p ← get_prev m node;
  m ← set_prev n p m;
  p ← get_prev m node;
  n ← get_next m node;
  m ← set_next p n m;
  Ok (next, set_size (u64 (d_size l - 1)) l, m).

Definition push_front (element : loc) (l : DList) (m : memory) :=
  b ← list_begin l m; list_insert b element l m.
Definition push_back (element : loc) (l : DList) (m : memory) :=
  list_insert (list_end l) element l m.

Definition pop_front (l : DList) (m : memory) : res (loc * DList * memory) :=
  element ← list_front l m;
  b ← list_begin l m;
  '(_, l, m) ← node_erase b l m;
  Ok (element, l, m).

Definition pop_back (l : DList) (m : memory) : res (loc * DList * memory) :=
  element ← list_back l m;
  e ← decrement m (list_end l);
  '(_, l, m) ← node_erase e l m;
  Ok (element, l, m).

(** [for (it = begin (); it != end (); ++it)], collecting the elements. *)
Fixpoint iterate (fuel : nat) (l : DList) (m : memory) (it : option loc) : res (list loc) :=
  if decide (it = list_end l) then Ok []
  else match fuel with
       | O => Err out_of_fuel
       | S fuel =>
           x ← deref it;
           it ← increment m it;
           xs ← iterate fuel l m it;
           Ok (x :: xs)
       end.

(** ** Links

    [nxt m a] and [prv m a] are the links of the node at [a], null when there is none. *)

Definition nxt (m : memory) (a : loc) : option loc := m !! a ≫= m_next.
Definition prv (m : memory) (a : loc) : option loc := m !! a ≫= m_prev.

(** The memory after a link was written. *)
Definition upd_next (a : loc) (v : option loc) (m : memory) : memory :=
  alter (fun n => mkNode v (m_prev n)) a m.
Definition upd_prev (a : loc) (v : option loc) (m : memory) : memory :=
  alter (fun n => mkNode (m_next n) v) a m.

Definition allocated (m : memory) (a : loc) : Prop := is_Some (m !! a).

Lemma set_next_ok a v m : allocated m a → set_next (Some a) v m = Ok (upd_next a v m).
Proof.
  intros [n Hn]. unfold set_next, upd_next. simpl. rewrite Hn. simpl. f_equal.
  apply map_eq. intros b. rewrite lookup_insert, lookup_alter. case_decide; subst; [|done].
  by rewrite Hn.
Qed.
Lemma set_prev_ok a v m : allocated m a → set_prev (Some a) v m = Ok (upd_prev a v m).
Proof.
  intros [n Hn]. unfold set_prev, upd_prev. simpl. rewrite Hn. simpl. f_equal.
  apply map_eq. intros b. rewrite lookup_insert, lookup_alter. case_decide; subst; [|done].
  by rewrite Hn.
Qed.
Lemma get_next_ok a m : allocated m a → get_next m (Some a) = Ok (nxt m a).
Proof. intros [n Hn]. unfold get_next, nxt. simpl. by rewrite Hn. Qed.
Lemma get_prev_ok a m : allocated m a → get_prev m (Some a) = Ok (prv m a).
Proof. intros [n Hn]. unfold get_prev, prv. simpl. by rewrite Hn. Qed.

Lemma allocated_upd_next a v m b : allocated (upd_next a v m) b ↔ allocated m b.
Proof. unfold allocated, upd_next. by rewrite lookup_alter_is_Some. Qed.
Lemma allocated_upd_prev a v m b : allocated (upd_prev a v m) b ↔ allocated m b.
Proof. unfold allocated, upd_prev. by rewrite lookup_alter_is_Some. Qed.

Lemma nxt_allocated m a b : nxt m a = Some b → allocated m a.
Proof. unfold nxt, allocated. destruct (m !! a); naive_solver. Qed.
Lemma prv_allocated m a b : prv m a = Some b → allocated m a.
Proof. unfold prv, allocated. destruct (m !! a); naive_solver. Qed.

Lemma nxt_upd_next_eq a v m : allocated m a → nxt (upd_next a v m) a = v.
Proof. intros [n Hn]. unfold nxt, upd_next. by rewrite lookup_alter_eq, Hn. Qed.
Lemma nxt_upd_next_ne a v m b : a ≠ b → nxt (upd_next a v m) b = nxt m b.
Proof. intros. unfold nxt, upd_next. by rewrite lookup_alter_ne. Qed.
Lemma prv_upd_prev_eq a v m : allocated m a → prv (upd_prev a v m) a = v.
Proof. intros [n Hn]. unfold prv, upd_prev. by rewrite lookup_alter_eq, Hn. Qed.
Lemma prv_upd_prev_ne a v m b : a ≠ b → prv (upd_prev a v m) b = prv m b.
Proof. intros. unfold prv, upd_prev. by rewrite lookup_alter_ne. Qed.
Lemma prv_upd_next a v m b : prv (upd_next a v m) b = prv m b.
Proof.
  unfold prv, upd_next. rewrite lookup_alter. case_decide; subst; [|done].
  by destruct (m !! b).
Qed.
Lemma nxt_upd_prev a v m b : nxt (upd_prev a v m) b = nxt m b.
Proof.
  unfold nxt, upd_prev. rewrite lookup_alter. case_decide; subst; [|done].
  by destruct (m !! b).
Qed.

(** ** Chains

    Consecutive nodes of [ps] point at each other. *)

Fixpoint linked (m : memory) (ps : list loc) : Prop :=
  match ps with
  | [] => True
  | a :: ps' =>
      match ps' with [] => True | b :: _ => nxt m a = Some b ∧ prv m b = Some a end
      ∧ linked m ps'
  end.

Lemma linked_split m ps a b qs :
  linked m (ps ++ a :: b :: qs) ↔
  linked m (ps ++ [a]) ∧ nxt m a = Some b ∧ prv m b = Some a ∧ linked m (b :: qs).
Proof.
  induction ps as [|x ps IH]; cbn [app].
  - simpl. tauto.
  - destruct ps as [|y ps]; cbn [app linked] in *; tauto.
Qed.

(** A chain stays linked when the inner links do: the predecessor link of the first
    node and the successor link of the last one may change. *)
Lemma linked_frame m m' ps :
  linked m ps →
  (∀ pre x post, ps = pre ++ x :: post →
     (post ≠ [] → nxt m' x = nxt m x) ∧ (pre ≠ [] → prv m' x = prv m x)) →
  linked m' ps.
Proof.
  induction ps as [|a ps IH]; [done|]. intros [Hab Hl] Hf. split.
  - destruct ps as [|b ps]; [done|]. destruct Hab as [<- <-].
    destruct (Hf [] a (b :: ps) eq_refl) as [Hn _]. destruct (Hf [a] b ps eq_refl) as [_ Hp].
    by rewrite Hn, Hp.
  - apply IH; [done|]. intros pre x post ->. destruct (Hf (a :: pre) x post eq_refl) as [Hn Hp].
    split; [done|]. intros _. by apply Hp.
Qed.

Lemma linked_front m m' ps a :
  linked m (ps ++ [a]) →
  (∀ x, x ∈ ps → nxt m' x = nxt m x) → (∀ x, x ∈ ps ++ [a] → prv m' x = prv m x) →
  linked m' (ps ++ [a]).
Proof.
  intros Hl Hn Hp. apply (linked_frame m); [done|]. intros pre x post Heq. split.
  - intros Hpost. apply Hn. destruct (exists_last Hpost) as (post'&y&->).
    rewrite app_comm_cons, app_assoc in Heq. apply app_inj_tail in Heq as [-> _].
    apply elem_of_app. right. by left.
  - intros _. apply Hp. rewrite Heq. apply elem_of_app. right. by left.
Qed.

Lemma linked_back m m' b qs :
  linked m (b :: qs) →
  (∀ x, x ∈ b :: qs → nxt m' x = nxt m x) → (∀ x, x ∈ qs → prv m' x = prv m x) →
  linked m' (b :: qs).
Proof.
  intros Hl Hn Hp. apply (linked_frame m); [done|]. intros pre x post Heq. split.
  - intros _. apply Hn. rewrite Heq. apply elem_of_app. right. by left.
  - intros Hpre. apply Hp. destruct pre as [|y pre]; [done|]. injection Heq as -> ->.
    apply elem_of_app. right. by left.
Qed.

Lemma linked_allocated m ps a b qs :
  linked m (ps ++ a :: b :: qs) → allocated m a ∧ allocated m b.
Proof.
  intros (_&Hn&Hp&_)%linked_split. split; [by eapply nxt_allocated|by eapply prv_allocated].
Qed.

(** Only the nodes of [X] are written. *)
Definition agree_off (X : list loc) (m m' : memory) : Prop :=
  ∀ c, c ∉ X → m' !! c = m !! c.

Lemma agree_off_next X a v m m' :
  a ∈ X → agree_off X m m' → agree_off X m (upd_next a v m').
Proof.
  intros Ha Hag c Hc. unfold upd_next. rewrite lookup_alter_ne; [by apply Hag|].
  intros ->. done.
Qed.
Lemma agree_off_prev X a v m m' :
  a ∈ X → agree_off X m m' → agree_off X m (upd_prev a v m').
Proof.
  intros Ha Hag c Hc. unfold upd_prev. rewrite lookup_alter_ne; [by apply Hag|].
  intros ->. done.
Qed.

(** A node stays allocated. *)
Ltac alloc := repeat first [rewrite allocated_upd_next | rewrite allocated_upd_prev]; done.

(** Rewrites the links of a memory after a sequence of writes. *)
Ltac links :=
  repeat first
    [ rewrite prv_upd_next | rewrite nxt_upd_prev
    | rewrite nxt_upd_next_eq by alloc
    | rewrite prv_upd_prev_eq by alloc
    | rewrite nxt_upd_next_ne by congruence
    | rewrite prv_upd_prev_ne by congruence ].

(** Runs the next read or write. *)
Ltac mem_step :=
  first
    [ rewrite set_next_ok by alloc
    | rewrite set_prev_ok by alloc
    | rewrite get_next_ok by alloc
    | rewrite get_prev_ok by alloc ];
  cbn [mbind res_bind].

(** Linking [node] between the neighbours [a] and [b]. *)
Lemma insert_linked ps a b qs node l m :
  NoDup (ps ++ a :: b :: qs) → node ∉ ps ++ a :: b :: qs → allocated m node →
  linked m (ps ++ a :: b :: qs) →
  ∃ m', list_insert (Some b) node l m = Ok (Some node, set_size (u64 (d_size l + 1)) l, m')
    ∧ linked m' (ps ++ a :: node :: b :: qs)
    ∧ agree_off [a; node; b] m m'
    ∧ (∀ c, c ≠ a → c ≠ node → nxt m' c = nxt m c)
    ∧ (∀ c, c ≠ b → c ≠ node → prv m' c = prv m c).
Proof.
  intros Hnd Hnode Hal Hl. destruct (linked_allocated _ _ _ _ _ Hl) as [Ha Hb].
  apply linked_split in Hl as (Hl1&Hn&Hp&Hl2).
  apply NoDup_app in Hnd as (_&Hd1&Hd2). apply NoDup_cons in Hd2 as [Had Hd2].
  apply NoDup_cons in Hd2 as [Hbd _].
  rewrite elem_of_app, !elem_of_cons in Hnode. rewrite elem_of_cons in Had.
  assert (a ≠ b ∧ a ≠ node ∧ b ≠ node) as (?&?&?) by naive_solver.
  unfold list_insert. mem_step. mem_step. links. mem_step. links. rewrite Hp. mem_step.
  mem_step. links. mem_step. mem_step. links. mem_step.
  eexists. split; [done|]. split_and!.
  - change (ps ++ a :: node :: b :: qs) with (ps ++ a :: node :: (b :: qs)).
    apply linked_split. links. split_and!; [|done|done|].
    + eapply linked_front; [done|..].
      * intros x Hx. assert (x ≠ a ∧ x ≠ node) as [??].
        { split; intros ->; [|naive_solver]. apply (Hd1 _ Hx). by left. }
        by links.
      * intros x Hx. rewrite elem_of_app, list_elem_of_singleton in Hx.
        assert (x ≠ b ∧ x ≠ node) as [??].
        { split; intros ->; [|naive_solver]. destruct Hx as [Hx|?]; [|naive_solver].
          apply (Hd1 _ Hx). right. by left. }
        by links.
    + apply (linked_split _ [] node b qs). links. split_and!; [done..|].
      eapply linked_back; [done|..].
      * intros x Hx. assert (x ≠ a ∧ x ≠ node) as [??].
        { rewrite elem_of_cons in Hx. split; intros ->; naive_solver. }
        by links.
      * intros x Hx. assert (x ≠ b ∧ x ≠ node) as [??] by (split; intros ->; naive_solver).
        by links.
  - repeat first [apply agree_off_next | apply agree_off_prev];
      try (rewrite !elem_of_cons; tauto). by intros c Hc.
  - intros c ??. by links.
  - intros c ??. by links.
Qed.

(** Unlinking [x] from between its neighbours. *)
Lemma erase_linked ps a x b qs l m :
  NoDup (ps ++ a :: x :: b :: qs) → linked m (ps ++ a :: x :: b :: qs) →
  ∃ m', node_erase (Some x) l m = Ok (Some b, set_size (u64 (d_size l - 1)) l, m')
    ∧ linked m' (ps ++ a :: b :: qs)
    ∧ agree_off [a; b] m m'
    ∧ (∀ c, c ≠ a → nxt m' c = nxt m c) ∧ (∀ c, c ≠ b → prv m' c = prv m c).
Proof.
  intros Hnd Hl. destruct (linked_allocated _ _ _ _ _ Hl) as [Ha Hx].
  change (ps ++ a :: x :: b :: qs) with (ps ++ a :: x :: (b :: qs)) in Hl.
  apply linked_split in Hl as (Hl1&Hn&Hp&Hl2).
  pose proof (linked_allocated m [] x b qs Hl2) as [_ Hb].
  destruct Hl2 as [[Hxn Hbp] Hl2].
  apply NoDup_app in Hnd as (_&Hd1&Hd2). apply NoDup_cons in Hd2 as [Had Hd2].
  apply NoDup_cons in Hd2 as [Hxd Hd2]. apply NoDup_cons in Hd2 as [Hbd _].
  apply not_elem_of_cons in Had as [? [? ?]%not_elem_of_cons].
  apply not_elem_of_cons in Hxd as [? ?].
  assert (a ≠ b ∧ a ≠ x ∧ b ≠ x) as (?&?&?) by naive_solver.
  unfold node_erase, increment. mem_step. mem_step. rewrite Hxn, Hp. mem_step.
  mem_step. mem_step. links. rewrite Hxn, Hp. mem_step.
  eexists. split; [done|]. split_and!.
  - apply linked_split. links. split_and!; [|done|done|].
    + eapply linked_front; [done|..].
      * intros y Hy. assert (a ≠ y) by (intros ->; apply (Hd1 _ Hy); by left). by links.
      * intros y Hy. rewrite elem_of_app, list_elem_of_singleton in Hy.
        assert (b ≠ y).
        { intros ->. destruct Hy as [Hy|?]; [|naive_solver]. apply (Hd1 _ Hy). do 2 right. by left. }
        by links.
    + eapply linked_back; [done|..].
      * intros y Hy. rewrite elem_of_cons in Hy. assert (a ≠ y) by naive_solver. by links.
      * intros y Hy. assert (b ≠ y) by (intros ->; done). by links.
  - repeat first [apply agree_off_next | apply agree_off_prev];
      try (rewrite !elem_of_cons; tauto). by intros c Hc.
  - intros c ?. by links.
  - intros c ?. by links.
Qed.

(** ** The representation of a sequence *)

Definition chain (l : DList) (xs : list loc) : list loc := d_head l :: xs ++ [d_tail l].

Record is_list (l : DList) (xs : list loc) (m : memory) : Prop := {
  il_nodup : NoDup (chain l xs);
  il_linked : linked m (chain l xs);
  il_head : prv m (d_head l) = None;
  il_tail : nxt m (d_tail l) = None;
  il_size : d_size l = u64 (Z.of_nat (length xs))
}.

(** The node an iterator between [ys] and [zs] points at. *)
Definition at_pos (l : DList) (zs : list loc) : loc := hd (d_tail l) zs.

(** Every position has neighbours: the sentinels bound the sequence. *)
Lemma chain_split l ys zs :
  ∃ ps a qs, ∀ ws, chain l (ys ++ ws ++ zs) = ps ++ a :: ws ++ at_pos l zs :: qs.
Proof.
  destruct (exists_last (l := d_head l :: ys)) as (ps&a&Hys); [done|].
  assert (∃ qs, zs ++ [d_tail l] = at_pos l zs :: qs) as [qs Hzs].
  { destruct zs as [|z zs]; [by exists []|by exists (zs ++ [d_tail l])]. }
  exists ps, a, qs. intros ws. unfold chain.
  rewrite <-!app_assoc, Hzs, app_comm_cons, Hys, <-app_assoc. done.
Qed.

(** The sentinels' outer links are null, so a predecessor or a successor tells that a
    node is not the outer one. *)
Lemma is_list_ends l ys zs m ps a qs :
  is_list l (ys ++ zs) m → (∀ ws, chain l (ys ++ ws ++ zs) = ps ++ a :: ws ++ at_pos l zs :: qs) →
  at_pos l zs ≠ d_head l ∧ a ≠ d_tail l ∧ d_head l ∈ ps ++ [a] ∧ d_tail l ∈ at_pos l zs :: qs.
Proof.
  intros Hl Hch. specialize (Hch []). cbn [app] in Hch. pose proof (il_nodup _ _ _ Hl) as Hnd.
  pose proof (il_linked _ _ _ Hl) as Hlk. rewrite Hch in Hnd, Hlk.
  apply linked_split in Hlk as (_&Hn&Hp&_).
  split_and!.
  - intros He. pose proof (il_head _ _ _ Hl). congruence.
  - intros He. pose proof (il_tail _ _ _ Hl). congruence.
  - unfold chain in Hch. destruct ps as [|p ps]; cbn [app] in *; injection Hch as -> _; by left.
  - assert (last (chain l (ys ++ zs)) = Some (d_tail l)) as Hlast.
    { unfold chain. rewrite app_comm_cons. by rewrite last_snoc. }
    rewrite Hch, last_app, last_cons_cons in Hlast.
    destruct (last (at_pos l zs :: qs)) as [y|] eqn:Hy; [|by rewrite last_None in Hy].
    injection Hlast as ->. by apply last_Some_elem_of.
Qed.

Lemma list_insert_ok l ys zs node m :
  is_list l (ys ++ zs) m → allocated m node → node ∉ chain l (ys ++ zs) →
  ∃ l' m', list_insert (Some (at_pos l zs)) node l m = Ok (Some node, l', m')
    ∧ is_list l' (ys ++ node :: zs) m' ∧ d_head l' = d_head l ∧ d_tail l' = d_tail l
    ∧ agree_off (node :: chain l (ys ++ zs)) m m'.
Proof.
  intros Hl Hal Hnode. destruct (chain_split l ys zs) as (ps&a&qs&Hch).
  destruct (is_list_ends _ _ _ _ _ _ _ Hl Hch) as (Hbh&Hat&_&_).
  pose proof (Hch []) as H0. pose proof (Hch [node]) as H1. cbn [app] in H0, H1.
  pose proof (il_nodup _ _ _ Hl) as Hnd. rewrite H0 in Hnd, Hnode |- *.
  pose proof (il_linked _ _ _ Hl) as Hlk. rewrite H0 in Hlk.
  destruct (insert_linked ps a _ qs node l m Hnd Hnode Hal Hlk)
    as (m'&->&Hlk'&Hag&Hn&Hp).
  assert (d_head l ≠ node ∧ d_tail l ≠ node) as [??].
  { rewrite <-H0 in Hnode. unfold chain in Hnode.
    rewrite elem_of_cons, elem_of_app, list_elem_of_singleton in Hnode. naive_solver. }
  eexists _, m'. split; [done|]. split_and!; [|done|done|].
  - constructor; cbn [set_size d_head d_tail d_size chain].
    + change (NoDup (chain l (ys ++ node :: zs))). rewrite H1.
      rewrite (Permutation_app_comm ps), <-!app_comm_cons. rewrite perm_swap. constructor.
      * rewrite elem_of_cons, !elem_of_app, elem_of_cons, elem_of_app in *.
        rewrite elem_of_cons in Hnode. naive_solver.
      * rewrite Permutation_app_comm in Hnd. done.
    + change (linked m' (chain l (ys ++ node :: zs))). by rewrite H1.
    + rewrite Hp by congruence. apply Hl.
    + rewrite Hn by congruence. apply Hl.
    + rewrite (il_size _ _ _ Hl), u64_add_l. f_equal. rewrite !length_app. simpl. lia.
  - intros c Hc. apply Hag. rewrite !elem_of_cons, !elem_of_app, !elem_of_cons in *.
    intros [->|[->|[->|?%not_elem_of_nil]]]; tauto.
Qed.

Lemma node_erase_ok l ys x zs m :
  is_list l (ys ++ x :: zs) m →
  ∃ l' m', node_erase (Some x) l m = Ok (Some (at_pos l zs), l', m')
    ∧ is_list l' (ys ++ zs) m' ∧ d_head l' = d_head l ∧ d_tail l' = d_tail l
    ∧ agree_off (chain l (ys ++ zs)) m m' ∧ allocated m' x.
Proof.
  intros Hl. destruct (chain_split l ys zs) as (ps&a&qs&Hch).
  pose proof (Hch []) as H0. pose proof (Hch [x]) as H1. cbn [app] in H0, H1.
  pose proof (il_nodup _ _ _ Hl) as Hnd. rewrite H1 in Hnd.
  pose proof (il_linked _ _ _ Hl) as Hlk. rewrite H1 in Hlk.
  destruct (linked_allocated _ _ _ _ _ Hlk) as [_ Hx].
  pose proof Hlk as (_&Hax&_&Hlk2)%(linked_split m ps a x).
  destruct Hlk2 as [[_ Hbx] _].
  destruct (erase_linked ps a x _ qs l m Hnd Hlk) as (m'&->&Hlk'&Hag&Hn&Hp).
  assert (NoDup (chain l (ys ++ zs))) as Hnd'.
  { rewrite H0. eapply sublist_NoDup; [exact Hnd|]. apply sublist_app; [done|].
    apply sublist_skip, sublist_cons. done. }
  assert (a ≠ d_tail l ∧ at_pos l zs ≠ d_head l) as [??].
  { split; intros He; [pose proof (il_tail _ _ _ Hl)|pose proof (il_head _ _ _ Hl)]; congruence. }
  eexists _, m'. split; [done|]. rewrite H0 in *. split_and!; [|done|done| |].
  - constructor; cbn [set_size d_head d_tail d_size].
    + change (NoDup (chain l (ys ++ zs))). by rewrite H0.
    + change (linked m' (chain l (ys ++ zs))). by rewrite H0.
    + rewrite Hp by congruence. apply Hl.
    + rewrite Hn by congruence. apply Hl.
    + rewrite (il_size _ _ _ Hl). unfold Z.sub. rewrite u64_add_l. f_equal.
      rewrite !length_app. simpl. lia.
  - intros c Hc. apply Hag. rewrite !elem_of_cons, elem_of_app, !elem_of_cons in *.
    intros [->|[->|?%not_elem_of_nil]]; tauto.
  - unfold allocated. rewrite Hag; [done|]. rewrite !elem_of_cons.
    apply NoDup_app in Hnd as (_&_&Hnd). apply NoDup_cons in Hnd as [Hax' Hnd].
    apply NoDup_cons in Hnd as [Hxb _]. rewrite elem_of_cons in Hax', Hxb.
    intros [->|[->|?%not_elem_of_nil]]; tauto.
Qed.

Lemma list_clear_ok l xs m :
  is_list l xs m →
  ∃ l' m', list_clear l m = Ok (l', m') ∧ is_list l' [] m'
    ∧ d_head l' = d_head l ∧ d_tail l' = d_tail l ∧ agree_off [d_head l; d_tail l] m m'.
Proof.
  intros Hl.
  assert (allocated m (d_head l) ∧ allocated m (d_tail l) ∧ d_head l ≠ d_tail l) as (Hh&Ht&Hne).
  { pose proof (il_linked _ _ _ Hl) as Hlk. pose proof (il_nodup _ _ _ Hl) as Hnd.
    unfold chain in *. apply NoDup_cons in Hnd as [Hnd _]. split_and!.
    - destruct xs; apply (linked_allocated m [] _ _ _) in Hlk as [? _]; done.
    - destruct (exists_last (l := d_head l :: xs)) as (us&u&Heq); [done|].
      rewrite app_comm_cons, Heq, <-app_assoc in Hlk. cbn [app] in Hlk.
      by apply linked_allocated in Hlk as [_ ?].
    - intros He. apply Hnd. rewrite He. apply elem_of_app. right. by left. }
  unfold list_clear. mem_step. mem_step. eexists _, _. split; [done|].
  split_and!; [|done|done|].
  - constructor; unfold chain; cbn [set_size d_head d_tail d_size app].
    + apply NoDup_cons. rewrite list_elem_of_singleton. split; [done|apply NoDup_singleton].
    + cbn [linked]. by links.
    + links. apply Hl.
    + links. apply Hl.
    + done.
  - apply agree_off_prev; [rewrite !elem_of_cons; tauto|].
    apply agree_off_next; [rewrite !elem_of_cons; tauto|]. by intros c _.
Qed.

(** ** Splicing *)

Definition joined (m : memory) (oa ob : option loc) : Prop :=
  match oa, ob with
  | Some a, Some b => nxt m a = Some b ∧ prv m b = Some a
  | _, _ => True
  end.

Lemma linked_app m xs ys :
  linked m (xs ++ ys) ↔ linked m xs ∧ linked m ys ∧ joined m (last xs) (head ys).
Proof.
  induction xs as [|x xs IH]; [simpl; tauto|]. destruct xs as [|x' xs].
  - destruct ys; cbn; tauto.
  - rewrite last_cons_cons. cbn [app linked] in *. tauto.
Qed.

Lemma linked_mid m m' ws :
  linked m ws → NoDup ws →
  (∀ x, x ∈ ws → last ws ≠ Some x → nxt m' x = nxt m x) →
  (∀ x, x ∈ ws → head ws ≠ Some x → prv m' x = prv m x) →
  linked m' ws.
Proof.
  intros Hl Hnd Hn Hp. apply (linked_frame m); [done|]. intros pre x post ->.
  apply NoDup_app in Hnd as (_&Hd&Hnd). apply NoDup_cons in Hnd as [Hx _].
  assert (x ∈ pre ++ x :: post) by (apply elem_of_app; right; by left).
  split.
  - intros Hpost. apply Hn; [done|]. destruct (exists_last Hpost) as (post'&y&->).
    rewrite app_comm_cons, app_assoc, last_snoc. intros [= ->]. apply Hx.
    apply elem_of_app. right. by left.
  - intros Hpre. apply Hp; [done|]. destruct pre as [|y pre]; [done|]. intros [= ->].
    apply (Hd x); by left.
Qed.

(** The six writes of a splice of [ws] between [a] and [b]. *)
Lemma splice_linked m ps a b qs ws f la :
  NoDup (ps ++ a :: b :: qs) → NoDup ws → ws ## ps ++ a :: b :: qs →
  linked m (ps ++ a :: b :: qs) → linked m ws → head ws = Some f → last ws = Some la →
  let m' := upd_prev b (Some la) (upd_next la (Some b)
              (upd_next a (Some f) (upd_prev f (Some a) m))) in
  allocated m f → allocated m la →
  linked m' (ps ++ a :: ws ++ b :: qs).
Proof.
  intros Hnd Hndw Hdis Hl Hlw Hf Hla m' Haf Hala.
  destruct (linked_allocated _ _ _ _ _ Hl) as [Ha Hb].
  apply linked_split in Hl as (Hl1&_&_&Hl2).
  apply NoDup_app in Hnd as (_&Hd1&Hd2). apply NoDup_cons in Hd2 as [Had Hd2].
  apply NoDup_cons in Hd2 as [Hbd _]. apply not_elem_of_cons in Had as [Hab Had].
  assert (f ∈ ws ∧ la ∈ ws) as [Hfw Hlw'] by
    (split; [by apply head_Some_elem_of|by apply last_Some_elem_of]).
  assert (∀ x y, x ∈ ws → y ∈ ps ++ a :: b :: qs → x ≠ y) as Hne
    by (intros x y Hx Hy ->; by apply (Hdis y)).
  setoid_rewrite elem_of_app in Hne. setoid_rewrite elem_of_cons in Hne.
  setoid_rewrite elem_of_cons in Hne.
  assert (f ≠ a ∧ f ≠ b ∧ la ≠ a ∧ la ≠ b) as (?&?&?&?) by naive_solver.
  assert (ps ++ a :: ws ++ b :: qs = (ps ++ [a]) ++ ws ++ b :: qs) as -> by (by rewrite <-app_assoc).
  assert (head (ws ++ b :: qs) = Some f) as Hhd by (by destruct ws).
  rewrite (linked_app _ (ps ++ [a])), (linked_app _ ws), last_snoc, Hhd, Hla. split_and!.
  - eapply linked_front; [done|..].
    + intros x Hx. assert (x ≠ a ∧ x ≠ la) as [??].
      { split; intros ->; [apply (Hd1 _ Hx); by left|naive_solver]. }
      unfold m'. by links.
    + intros x Hx. rewrite elem_of_app, list_elem_of_singleton in Hx.
      assert (x ≠ b ∧ x ≠ f) as [??].
      { split; intros ->; [|naive_solver]. destruct Hx as [Hx|?]; [|congruence].
        apply (Hd1 _ Hx). right. by left. }
      unfold m'. by links.
  - eapply linked_mid; [done..| |].
    + intros x Hx Hlast. assert (x ≠ a ∧ x ≠ la) as [??] by naive_solver. unfold m'. by links.
    + intros x Hx Hhead. assert (x ≠ b ∧ x ≠ f) as [??] by naive_solver. unfold m'. by links.
  - eapply linked_back; [done|..].
    + intros x Hx. rewrite elem_of_cons in Hx.
      assert (x ≠ a ∧ x ≠ la) as [??] by (split; intros ->; naive_solver). unfold m'. by links.
    + intros x Hx. assert (x ≠ b ∧ x ≠ f) as [??] by (split; intros ->; naive_solver).
      unfold m'. by links.
  - cbn [joined head]. unfold m'. by links.
  - cbn [joined]. unfold m'. by links.
Qed.

Lemma is_list_sentinels l xs m :
  is_list l xs m →
  allocated m (d_head l) ∧ allocated m (d_tail l) ∧ d_head l ≠ d_tail l
  ∧ nxt m (d_head l) = Some (at_pos l xs)
  ∧ prv m (d_tail l) = Some (default (d_head l) (last xs)).
Proof.
  intros Hl. pose proof (il_linked _ _ _ Hl) as Hlk. pose proof (il_nodup _ _ _ Hl) as Hnd.
  assert (nxt m (d_head l) = Some (at_pos l xs)) as Hn by (destruct xs; apply Hlk).
  assert (prv m (d_tail l) = Some (default (d_head l) (last xs))) as Hp.
  { unfold chain in Hlk. rewrite app_comm_cons in Hlk. apply linked_app in Hlk as (_&_&Hj).
    rewrite last_cons in Hj. destruct (last xs); apply Hj. }
  split_and!; [by eapply nxt_allocated|by eapply prv_allocated| |done|done].
  intros He. apply NoDup_cons in Hnd as [Hnd _]. apply Hnd. rewrite He.
  apply elem_of_app. right. by left.
Qed.

Lemma is_list_allocated l xs m : is_list l xs m → ∀ c, c ∈ chain l xs → allocated m c.
Proof.
  intros Hl c Hc. pose proof (il_linked _ _ _ Hl) as Hlk.
  destruct (is_list_sentinels _ _ _ Hl) as (Hh&Ht&_).
  apply list_elem_of_split in Hc as (ps&qs&Heq). rewrite Heq in Hlk.
  destruct qs as [|q qs]; [|by apply linked_allocated in Hlk as [? _]].
  unfold chain in Heq. rewrite app_comm_cons in Heq. by apply app_inj_tail in Heq as [_ <-].
Qed.

(** A list is not disturbed by writes elsewhere. *)
Lemma is_list_frame l xs m m' :
  is_list l xs m → (∀ c, c ∈ chain l xs → m' !! c = m !! c) → is_list l xs m'.
Proof.
  intros Hl Hag.
  assert (∀ c, c ∈ chain l xs → nxt m' c = nxt m c ∧ prv m' c = prv m c) as Heq.
  { intros c Hc. unfold nxt, prv. by rewrite Hag. }
  constructor; try apply Hl.
  - apply (linked_frame m); [apply Hl|]. intros pre x post Hx.
    assert (x ∈ chain l xs) as Hin by (rewrite Hx; apply elem_of_app; right; by left).
    by destruct (Heq x Hin).
  - destruct (Heq (d_head l)) as [_ ->]; [by left|apply Hl].
  - destruct (Heq (d_tail l)) as [-> _]; [|apply Hl]. right. apply elem_of_app. right. by left.
Qed.

Lemma disjoint_not_in (X Y : list loc) x : X ## Y → x ∈ X → x ∉ Y.
Proof. intros Hd Hx Hy. by apply (Hd x). Qed.

Lemma splice_perm (ps : list loc) a ws b qs :
  ps ++ a :: ws ++ b :: qs ≡ₚ (ps ++ a :: b :: qs) ++ ws.
Proof.
  rewrite <-(app_assoc ps). apply Permutation_app_head. simpl. apply perm_skip.
  by rewrite Permutation_app_comm.
Qed.

Lemma is_list_inner l xs m :
  is_list l xs m → NoDup xs ∧ linked m xs ∧ d_head l ∉ xs ∧ d_tail l ∉ xs.
Proof.
  intros Hl. pose proof (il_nodup _ _ _ Hl) as Hnd. pose proof (il_linked _ _ _ Hl) as Hlk.
  apply NoDup_cons in Hnd as [Hh Hnd]. apply NoDup_app in Hnd as (Hnd&Ht&_).
  rewrite elem_of_app in Hh. apply (linked_app m [_]) in Hlk as (_&Hlk&_).
  apply linked_app in Hlk as (Hlk&_&_). split_and!; [done|done|tauto|].
  intros Hx%Ht. apply Hx. by left.
Qed.

(** The nodes a splice reads and writes are distinct. *)
Lemma splice_ne o ws a b m f la :
  is_list o ws m → head ws = Some f → last ws = Some la → a ∉ chain o ws → b ∉ chain o ws →
  (allocated m f ∧ allocated m la)
  ∧ (f ≠ d_head o ∧ f ≠ d_tail o ∧ la ≠ d_head o ∧ la ≠ d_tail o)
  ∧ (a ≠ d_head o ∧ a ≠ d_tail o ∧ b ≠ d_head o ∧ b ≠ d_tail o)
  ∧ (f ≠ a ∧ f ≠ b ∧ la ≠ a ∧ la ≠ b).
Proof.
  intros Ho Hf Hla Hao Hbo. apply head_Some_elem_of in Hf. apply last_Some_elem_of in Hla.
  pose proof (is_list_allocated _ _ _ Ho) as Hall.
  pose proof (il_nodup _ _ _ Ho) as Hnd. unfold chain in *.
  apply NoDup_cons in Hnd as [Hoh Hnd]. apply NoDup_app in Hnd as (_&Hot&_).
  assert (d_tail o ∉ ws) as Hot' by (intros ?%Hot; set_solver).
  setoid_rewrite elem_of_cons in Hall. setoid_rewrite elem_of_app in Hall.
  rewrite elem_of_app in Hoh. rewrite elem_of_cons, elem_of_app, list_elem_of_singleton in Hao, Hbo.
  split_and!; try (apply Hall; tauto); intros E; subst; tauto.
Qed.

(** What a splice computes: it reads the first and last element of the other list and
    the neighbour of the position. *)
Lemma splice_run l o ws a b m f la :
  is_list o ws m → 0 < d_size o → head ws = Some f → last ws = Some la →
  allocated m a → allocated m b → prv m b = Some a →
  a ≠ b → a ∉ chain o ws → b ∉ chain o ws →
  let m1 := upd_prev b (Some la) (upd_next la (Some b)
              (upd_next a (Some f) (upd_prev f (Some a) m))) in
  list_splice (Some b) l o m =
    Ok (set_size (u64 (d_size l + d_size o)) l, set_size 0 o,
        upd_prev (d_tail o) (Some (d_head o)) (upd_next (d_head o) (Some (d_tail o)) m1)).
Proof.
  intros Ho Hsz Hf Hla Ha Hb Hbp Hab Hao Hbo m1.
  destruct (is_list_sentinels _ _ _ Ho) as (Hoh&Hot&_&Hon&Hop).
  assert (at_pos o ws = f) as E by (destruct ws; simpl in *; congruence).
  rewrite E in Hon. clear E. rewrite Hla in Hop. simpl in Hop.
  destruct (splice_ne _ _ _ _ _ _ _ Ho Hf Hla Hao Hbo)
    as ((Haf&Hala)&(?&?&?&?)&(?&?&?&?)&(?&?&?&?)).
  unfold list_splice, list_empty, list_size. rewrite (proj2 (Z.eqb_neq _ _)) by lia.
  repeat first [progress links | rewrite Hon | rewrite Hbp | rewrite Hop | mem_step].
  unfold list_clear. repeat mem_step. done.
Qed.

(** The memory a splice leaves. *)
Lemma splice_lists l o ys zs ws a b ps qs m f la :
  is_list l (ys ++ zs) m → is_list o ws m → chain l (ys ++ zs) ## chain o ws →
  head ws = Some f → last ws = Some la →
  chain l (ys ++ zs) = ps ++ a :: b :: qs → chain l (ys ++ ws ++ zs) = ps ++ a :: ws ++ b :: qs →
  b ≠ d_head l → a ≠ d_tail l → 
  let m1 := upd_prev b (Some la) (upd_next la (Some b)
              (upd_next a (Some f) (upd_prev f (Some a) m))) in
  let m2 := upd_prev (d_tail o) (Some (d_head o)) (upd_next (d_head o) (Some (d_tail o)) m1) in
  is_list (set_size (u64 (d_size l + d_size o)) l) (ys ++ ws ++ zs) m2
  ∧ is_list (set_size 0 o) [] m2 ∧ agree_off (chain l (ys ++ zs) ++ chain o ws) m m2.
Proof.
  intros Hl Ho Hdis Hf Hla H0 H1 Hbh Hat m1 m2.
  destruct (is_list_sentinels _ _ _ Ho) as (Hoh&Hot&Hne&_&_).
  pose proof (il_nodup _ _ _ Hl) as Hnd. pose proof (il_linked _ _ _ Hl) as Hlk.
  assert (d_head l ∉ chain o ws ∧ d_tail l ∉ chain o ws) as [Hlh Hlt].
  { split; apply (disjoint_not_in _ _ _ Hdis); unfold chain; rewrite elem_of_cons, elem_of_app, list_elem_of_singleton; tauto. }
  assert (f ∈ ws ∧ la ∈ ws) as [Hfw Hlw]
    by (split; [by apply head_Some_elem_of|by apply last_Some_elem_of]).
  destruct (is_list_inner _ _ _ Ho) as (Hndw&Hlw'&Hohw&Hotw).
  assert (ws ## chain l (ys ++ zs)) as Hdw.
  { intros x Hx Hx'. apply (Hdis x Hx'). right. apply elem_of_app. by left. }
  rewrite H0 in *.
  destruct (linked_allocated _ _ _ _ _ Hlk) as [Ha Hb].
  assert (a ∈ ps ++ a :: b :: qs ∧ b ∈ ps ++ a :: b :: qs) as [Hina Hinb]
    by (rewrite !elem_of_app, !elem_of_cons; tauto).
  destruct (splice_ne _ _ _ _ _ _ _ Ho Hf Hla (disjoint_not_in _ _ _ Hdis Hina)
            (disjoint_not_in _ _ _ Hdis Hinb))
    as ((Haf&Hala)&(?&?&?&?)&(?&?&?&?)&(?&?&?&?)).
  assert (f ≠ d_head l ∧ la ≠ d_tail l) as [??].
  { split; intros ->; [apply Hlh|apply Hlt]; right; apply elem_of_app; by left. }
  split_and!.
  - apply (is_list_frame _ _ m1).
    + constructor; cbn [set_size d_head d_tail d_size].
      * change (NoDup (chain l (ys ++ ws ++ zs))). rewrite H1, splice_perm.
        apply NoDup_app. split_and!; [done| |done]. intros x Hx Hx'. by apply (Hdw x).
      * change (linked m1 (chain l (ys ++ ws ++ zs))). rewrite H1.
        by apply splice_linked.
      * unfold m1. links. apply Hl.
      * unfold m1. links. apply Hl.
      * rewrite (il_size _ _ _ Hl), (il_size _ _ _ Ho), u64_add_l, (Z.add_comm _ (u64 _)), u64_add_l.
        f_equal. rewrite !length_app. lia.
    + change (∀ c, c ∈ chain l (ys ++ ws ++ zs) → m2 !! c = m1 !! c). rewrite H1.
      intros c Hc. rewrite splice_perm, elem_of_app in Hc.
      assert (d_head o ≠ c ∧ d_tail o ≠ c) as [??].
      { split; intros <-; destruct Hc as [Hc|?]; try done; apply (Hdis _ Hc);
          unfold chain; rewrite elem_of_cons, elem_of_app, list_elem_of_singleton; tauto. }
      unfold m2, upd_prev, upd_next. by rewrite !lookup_alter_ne.
  - constructor; unfold chain, m2, m1; cbn [set_size d_head d_tail d_size app].
    + apply NoDup_cons. rewrite list_elem_of_singleton. split; [done|apply NoDup_singleton].
    + cbn [linked]. by links.
    + links. apply Ho.
    + links. apply Ho.
    + done.
  - assert (∀ c, c ∈ ws → c ∈ chain o ws) as Hin
      by (intros c Hc; right; apply elem_of_app; by left).
    assert (d_head o ∈ chain o ws ∧ d_tail o ∈ chain o ws) as [??]
      by (split; [left|right; apply elem_of_app; right; by left]).
    repeat first [apply agree_off_prev | apply agree_off_next];
      try (apply elem_of_app; auto; fail). by intros c _.
Qed.

Lemma list_splice_ok l o ys zs ws m :
  is_list l (ys ++ zs) m → is_list o ws m → chain l (ys ++ zs) ## chain o ws →
  Z.of_nat (length ws) < 2 ^ 64 →
  ∃ l' o' m', list_splice (Some (at_pos l zs)) l o m = Ok (l', o', m')
    ∧ is_list l' (ys ++ ws ++ zs) m' ∧ is_list o' [] m'
    ∧ (d_head l' = d_head l ∧ d_tail l' = d_tail l)
    ∧ (d_head o' = d_head o ∧ d_tail o' = d_tail o)
    ∧ agree_off (chain l (ys ++ zs) ++ chain o ws) m m'.
Proof.
  intros Hl Ho Hdis Hlen. pose proof (il_size _ _ _ Ho) as Hsz. rewrite u64_small in Hsz by lia.
  destruct ws as [|w ws'] eqn:Hws.
  { exists l, o, m. split_and!; try done. unfold list_splice, list_empty, list_size. by rewrite Hsz. }
  rewrite <-Hws in *.
  destruct (last ws) as [la|] eqn:Hla; [|by rewrite last_None in Hla; congruence].
  assert (head ws = Some w) as Hf by (by rewrite Hws).
  destruct (chain_split l ys zs) as (ps&a&qs&Hch).
  destruct (is_list_ends _ _ _ _ _ _ _ Hl Hch) as (Hbh&Hat&_&_).
  pose proof (Hch []) as H0. pose proof (Hch ws) as H1. cbn [app] in H0.
  pose proof (il_nodup _ _ _ Hl) as Hnd. pose proof (il_linked _ _ _ Hl) as Hlk.
  set (b := at_pos l zs) in *.
  destruct (splice_lists l o ys zs ws a b ps qs m w la) as (Hl'&Ho'&Hag); [done..|].
  rewrite H0 in Hnd, Hlk, Hdis.
  destruct (linked_allocated _ _ _ _ _ Hlk) as [Ha Hb].
  pose proof Hlk as (_&_&Hbp&_)%linked_split.
  assert (a ∈ ps ++ a :: b :: qs ∧ b ∈ ps ++ a :: b :: qs) as [Hina Hinb]
    by (rewrite !elem_of_app, !elem_of_cons; tauto).
  eexists _, _, _. split; [|done].
  apply (splice_run l o ws a b m w la); [done|subst; simpl in *; lia|done..| | |];
    [|by apply (disjoint_not_in _ _ _ Hdis)..].
  intros ->. apply NoDup_app in Hnd as (_&_&Hnd). apply NoDup_cons in Hnd as [Hnd _].
  apply Hnd. by left.
Qed.

(** ** Traversal *)

Lemma increment_ok l ys z zs m :
  is_list l (ys ++ z :: zs) m → increment m (Some z) = Ok (Some (at_pos l zs)).
Proof.
  intros Hl. pose proof (il_linked _ _ _ Hl) as Hlk.
  unfold chain in Hlk. rewrite <-app_assoc, app_comm_cons in Hlk.
  apply linked_app in Hlk as (_&Hlk&_).
  assert (nxt m z = Some (at_pos l zs)) as Hn by (destruct zs; apply Hlk).
  unfold increment. rewrite get_next_ok; [by rewrite Hn|by eapply nxt_allocated].
Qed.

Lemma decrement_ok l ys zs m :
  is_list l (ys ++ zs) m →
  decrement m (Some (at_pos l zs)) = Ok (Some (default (d_head l) (last ys))).
Proof.
  intros Hl. pose proof (il_linked _ _ _ Hl) as Hlk.
  assert (prv m (at_pos l zs) = Some (default (d_head l) (last ys))) as Hp.
  { unfold chain in Hlk. rewrite <-app_assoc, app_comm_cons in Hlk.
    apply linked_app in Hlk as (_&_&Hj). rewrite last_cons in Hj.
    destruct zs; cbn [app head at_pos hd joined] in *; destruct (last ys); apply Hj. }
  unfold decrement. rewrite get_prev_ok; [by rewrite Hp|by eapply prv_allocated].
Qed.

Lemma iterate_ok l m ys zs fuel :
  is_list l (ys ++ zs) m → (length zs <= fuel)%nat →
  iterate fuel l m (Some (at_pos l zs)) = Ok zs.
Proof.
  revert ys fuel. induction zs as [|z zs IH]; intros ys fuel Hl Hfuel.
  { unfold at_pos, list_end. destruct fuel; simpl; by rewrite decide_True. }
  destruct (is_list_inner _ _ _ Hl) as (_&_&_&Ht). rewrite elem_of_app, elem_of_cons in Ht.
  destruct fuel as [|fuel]; [simpl in Hfuel; lia|]. cbn [iterate at_pos hd].
  unfold list_end. rewrite decide_False by (intros [= ->]; tauto). cbn [deref mbind res_bind].
  rewrite (increment_ok l ys z zs m Hl). cbn [mbind res_bind].
  rewrite (IH (ys ++ [z])); [done|by rewrite <-app_assoc|]. simpl in Hfuel. lia.
Qed.

(** ** The derived operations *)

Lemma list_begin_ok l xs m : is_list l xs m → list_begin l m = Ok (Some (at_pos l xs)).
Proof.
  intros Hl. destruct (is_list_sentinels _ _ _ Hl) as (Hh&_&_&Hn&_).
  unfold list_begin. rewrite get_next_ok by done. by rewrite Hn.
Qed.

Lemma pop_front_ok l x xs m :
  is_list l (x :: xs) m →
  ∃ l' m', pop_front l m = Ok (x, l', m') ∧ is_list l' xs m'
    ∧ d_head l' = d_head l ∧ d_tail l' = d_tail l ∧ agree_off (chain l xs) m m' ∧ allocated m' x.
Proof.
  intros Hl. pose proof (list_begin_ok _ _ _ Hl) as Hb.
  destruct (node_erase_ok l [] x xs m Hl) as (l'&m'&He&Hl'&Hh&Ht&Hag&Hx).
  exists l', m'. split; [|done]. unfold pop_front, list_front.
  unfold list_begin in Hb |- *. rewrite Hb. simpl in *. by rewrite He.
Qed.

Lemma pop_back_ok l xs x m :
  is_list l (xs ++ [x]) m →
  ∃ l' m', pop_back l m = Ok (x, l', m') ∧ is_list l' xs m'
    ∧ d_head l' = d_head l ∧ d_tail l' = d_tail l ∧ agree_off (chain l xs) m m' ∧ allocated m' x.
Proof.
  intros Hl. assert (is_list l ((xs ++ [x]) ++ []) m) as Hd by (by rewrite app_nil_r).
  apply decrement_ok in Hd. rewrite last_snoc in Hd. simpl in Hd.
  destruct (node_erase_ok l xs x [] m Hl) as (l'&m'&He&Hl'&Hh&Ht&Hag&Hx).
  rewrite app_nil_r in Hl', Hag. exists l', m'. split; [|done].
  unfold pop_back, list_back, list_end. unfold decrement in *.
  rewrite Hd. simpl. by rewrite He.
Qed.

(** ** Several lists over the same elements

    The entries of the resource manager carry one pair of links and move between four
    lists.  A command names a list by its index; [None] is the position [end ()] and
    [Some y] the iterator to the element [y]. *)

Inductive list_op :=
| op_insert (i : nat) (pos : option loc) (x : loc)
| op_push_front (i : nat) (x : loc)
| op_push_back (i : nat) (x : loc)
| op_erase (i : nat) (x : loc)
| op_pop_front (i : nat)
| op_pop_back (i : nat)
| op_clear (i : nat).

Definition op_index (o : list_op) : nat :=
  match o with
  | op_insert i _ _ | op_push_front i _ | op_push_back i _ | op_erase i _
  | op_pop_front i | op_pop_back i | op_clear i => i
  end.

Definition at_iter (l : DList) (pos : option loc) : option loc :=
  match pos with None => list_end l | Some y => iterator_to y end.

Definition exec_on (o : list_op) (l : DList) (m : memory) : res (DList * memory) :=
  match o with
  | op_insert _ p x => '(_, l, m) ← list_insert (at_iter l p) x l m; Ok (l, m)
  | op_push_front _ x => '(_, l, m) ← push_front x l m; Ok (l, m)
  | op_push_back _ x => '(_, l, m) ← push_back x l m; Ok (l, m)
  | op_erase _ x => '(_, l, m) ← node_erase (iterator_to x) l m; Ok (l, m)
  | op_pop_front _ => '(_, l, m) ← pop_front l m; Ok (l, m)
  | op_pop_back _ => '(_, l, m) ← pop_back l m; Ok (l, m)
  | op_clear _ => list_clear l m
  end.

Definition exec (o : list_op) (s : list DList * memory) : res (list DList * memory) :=
  let '(ls, m) := s in
  l ← deref (ls !! op_index o);
  '(l, m) ← exec_on o l m;
  Ok (<[op_index o := l]> ls, m).

Definition execs (os : list list_op) (s : list DList * memory) : res (list DList * memory) :=
  foldl (fun r o => s ← r; exec o s) (Ok s) os.

(** The sequences: [None] when the documented precondition of the operation fails. *)
Fixpoint insert_before (y x : loc) (xs : list loc) : list loc :=
  match xs with
  | [] => [x]
  | z :: xs => if decide (z = y) then x :: z :: xs else z :: insert_before y x xs
  end.

Definition spec_on (o : list_op) (xs : list loc) : option (list loc) :=
  match o with
  | op_insert _ None x => Some (xs ++ [x])
  | op_insert _ (Some y) x => if decide (y ∈ xs) then Some (insert_before y x xs) else None
  | op_push_front _ x => Some (x :: xs)
  | op_push_back _ x => Some (xs ++ [x])
  | op_erase _ x => if decide (x ∈ xs) then Some (erase1 x xs) else None
  | op_pop_front _ => match xs with [] => None | _ :: xs => Some xs end
  | op_pop_back _ => match xs with [] => None | _ => Some (removelast xs) end
  | op_clear _ => Some []
  end.

(** The element an operation links, which must not be in a list. *)
Definition op_new (o : list_op) : option loc :=
  match o with
  | op_insert _ _ x | op_push_front _ x | op_push_back _ x => Some x
  | _ => None
  end.

Definition spec (E : list loc) (o : list_op) (xss : list (list loc)) : option (list (list loc)) :=
  xs ← xss !! op_index o;
  if match op_new o with
     | Some x => bool_decide (x ∈ E ∧ x ∉ mjoin xss)
     | None => true
     end
  then xs ← spec_on o xs; Some (<[op_index o := xs]> xss)
  else None.

Definition specs (E : list loc) (os : list list_op) (xss : list (list loc))
  : option (list (list loc)) :=
  foldl (fun r o => xss ← r; spec E o xss) (Some xss) os.

(** What an operation on a list leaves. *)
Definition op_post (o : list_op) (l : DList) (xs xs' : list loc) (m : memory)
    (l' : DList) (m' : memory) : Prop :=
  is_list l' xs' m' ∧ d_head l' = d_head l ∧ d_tail l' = d_tail l
  ∧ (∀ x, x ∈ xs → allocated m' x) ∧ (∀ x, x ∈ xs' → x ∈ xs ∨ op_new o = Some x)
  ∧ (∀ x, op_new o = Some x → x ∈ xs')
  ∧ agree_off (chain l xs ++ match op_new o with Some x => [x] | None => [] end) m m'.

Lemma agree_off_weaken X Y m m' : (∀ c, c ∈ X → c ∈ Y) → agree_off X m m' → agree_off Y m m'.
Proof. intros HXY Hag c Hc. apply Hag. auto. Qed.

Lemma elem_of_chain l xs c : c ∈ chain l xs ↔ c = d_head l ∨ c ∈ xs ∨ c = d_tail l.
Proof. unfold chain. by rewrite elem_of_cons, elem_of_app, list_elem_of_singleton. Qed.

Lemma insert_post o l ys zs x m :
  op_new o = Some x →
  is_list l (ys ++ zs) m → allocated m x → x ∉ chain l (ys ++ zs) →
  ∃ l' m', list_insert (Some (at_pos l zs)) x l m = Ok (Some x, l', m')
    ∧ op_post o l (ys ++ zs) (ys ++ x :: zs) m l' m'.
Proof.
  intros Ho Hl Hal Hx. destruct (list_insert_ok l ys zs x m) as (l'&m'&He&Hl'&Hh&Ht&Hag); [done..|].
  exists l', m'. split; [done|]. unfold op_post. rewrite Ho. split_and!; [done..| | | |].
  - intros y Hy. apply (is_list_allocated _ _ _ Hl'). rewrite elem_of_chain.
    rewrite elem_of_app, elem_of_cons in *. tauto.
  - intros y. rewrite !elem_of_app, elem_of_cons. intros [?|[->|?]]; auto.
  - intros y [= <-]. rewrite elem_of_app, elem_of_cons. tauto.
  - eapply agree_off_weaken; [|done]. intros c.
    rewrite elem_of_cons, elem_of_app, list_elem_of_singleton. tauto.
Qed.

Lemma erase_post o l ys x zs m l' m' :
  op_new o = None → is_list l (ys ++ x :: zs) m →
  is_list l' (ys ++ zs) m' → d_head l' = d_head l → d_tail l' = d_tail l →
  agree_off (chain l (ys ++ zs)) m m' → allocated m' x →
  op_post o l (ys ++ x :: zs) (ys ++ zs) m l' m'.
Proof.
  intros Ho Hl Hl' Hh Ht Hag Hal. unfold op_post. rewrite Ho. split_and!; [done..| | |done|].
  - intros y Hy. rewrite elem_of_app, elem_of_cons in Hy.
    destruct (decide (y = x)) as [->|?]; [done|]. apply (is_list_allocated _ _ _ Hl').
    rewrite elem_of_chain, elem_of_app. tauto.
  - intros y. rewrite !elem_of_app, elem_of_cons. tauto.
  - eapply agree_off_weaken; [|done]. intros c. rewrite app_nil_r.
    rewrite !elem_of_chain, !elem_of_app, elem_of_cons. tauto.
Qed.

Lemma insert_before_split y x ys zs :
  y ∉ ys → insert_before y x (ys ++ y :: zs) = ys ++ x :: y :: zs.
Proof.
  induction ys as [|z ys IH]; simpl; [by rewrite decide_True|].
  rewrite not_elem_of_cons. intros [??]. by rewrite decide_False, IH.
Qed.

Lemma erase1_split (x : loc) ys zs : x ∉ ys → erase1 x (ys ++ x :: zs) = ys ++ zs.
Proof.
  induction ys as [|z ys IH]; simpl; [by rewrite decide_True|].
  rewrite not_elem_of_cons. intros [??]. by rewrite decide_False, IH.
Qed.

(** Each operation implements its specification on one list. *)
Lemma exec_on_ok o l xs xs' m :
  is_list l xs m → spec_on o xs = Some xs' →
  (∀ x, op_new o = Some x → allocated m x ∧ x ∉ chain l xs) →
  ∃ l' m', exec_on o l m = Ok (l', m') ∧ op_post o l xs xs' m l' m'.
Proof.
  intros Hl Hs Hn.
  assert (∀ ys zs x, op_new o = Some x → xs = ys ++ zs →
    ∃ l' m', list_insert (Some (at_pos l zs)) x l m = Ok (Some x, l', m')
      ∧ op_post o l xs (ys ++ x :: zs) m l' m') as Hins.
  { intros ys zs x Hx ->. destruct (Hn _ Hx). by apply insert_post. }
  destruct o as [i [y|] x|i x|i x|i x|i|i|i]; simpl in Hs, Hn;
    try (case_decide as Hin; [|done]); simplify_eq; unfold exec_on, at_iter, iterator_to.
  - apply list_elem_of_split_l in Hin as (ys&zs&->&Hy).
    destruct (Hins ys (y :: zs) x eq_refl eq_refl) as (l'&m'&He&Hp). cbn [at_pos hd] in He.
    exists l', m'. rewrite He, insert_before_split by done. done.
  - destruct (Hins xs [] x eq_refl) as (l'&m'&He&Hp); [by rewrite app_nil_r|].
    exists l', m'. unfold list_end. cbn [at_pos hd] in He. by rewrite He.
  - destruct (Hins [] xs x eq_refl eq_refl) as (l'&m'&He&Hp). exists l', m'.
    unfold push_front. rewrite (list_begin_ok _ _ _ Hl). cbn [mbind res_bind]. by rewrite He.
  - destruct (Hins xs [] x eq_refl) as (l'&m'&He&Hp); [by rewrite app_nil_r|].
    exists l', m'. unfold push_back, list_end. cbn [at_pos hd] in He. by rewrite He.
  - apply list_elem_of_split_l in Hin as (ys&zs&->&Hy). rewrite erase1_split by done.
    destruct (node_erase_ok l ys x zs m Hl) as (l'&m'&->&?&?&?&?&?).
    exists l', m'. split; [done|]. by apply erase_post.
  - destruct xs as [|x xs]; [done|]. simplify_eq.
    destruct (pop_front_ok l x _ m Hl) as (l'&m'&->&?&?&?&?&?).
    exists l', m'. split; [done|]. by apply (erase_post _ l [] x).
  - destruct (exists_last (l := xs)) as (ys&x&->); [by intros ->|].
    assert (removelast (ys ++ [x]) = xs') as <- by (destruct ys; simpl in *; congruence).
    destruct (pop_back_ok l ys x m Hl) as (l'&m'&->&?&?&?&?&?). rewrite removelast_last.
    exists l', m'. split; [done|]. rewrite <-(app_nil_r ys) at 2.
    apply (erase_post _ l ys x); rewrite ?app_nil_r; done.
  - destruct (list_clear_ok l xs m Hl) as (l'&m'&->&Hl'&Hh&Ht&Hag). exists l', m'.
    split; [done|]. unfold op_post. cbn [op_new]. rewrite app_nil_r.
    destruct (is_list_inner _ _ _ Hl) as (_&_&Hh'&Ht'). split_and!; [done..| | |done|].
    + intros x Hx. unfold allocated. rewrite Hag.
      * apply (is_list_allocated _ _ _ Hl). rewrite elem_of_chain. tauto.
      * rewrite !elem_of_cons. intros [->|[->|?%not_elem_of_nil]]; done.
    + by intros x ?%not_elem_of_nil.
    + eapply agree_off_weaken; [|done]. intros c. rewrite elem_of_chain, !elem_of_cons.
      intros [->|[->|?%not_elem_of_nil]]; tauto.
Qed.

(** The lists [ls] hold the sequences [xss] of elements of [E]. *)
Record reps (E : list loc) (ls : list DList) (xss : list (list loc)) (m : memory) : Prop := {
  r_length : length ls = length xss;
  r_list i l xs : ls !! i = Some l → xss !! i = Some xs → is_list l xs m;
  r_disj i j l xs l' xs' : i ≠ j → ls !! i = Some l → xss !! i = Some xs →
    ls !! j = Some l' → xss !! j = Some xs' → chain l xs ## chain l' xs';
  r_alloc x : x ∈ E → allocated m x;
  r_sentinel i l : ls !! i = Some l → d_head l ∉ E ∧ d_tail l ∉ E;
  r_elem i xs x : xss !! i = Some xs → x ∈ xs → x ∈ E
}.

Lemma reps_other E ls xss m i o l xs xs' j l' ys c :
  reps E ls xss m → ls !! i = Some l → xss !! i = Some xs →
  (∀ x, op_new o = Some x → x ∈ E ∧ x ∉ mjoin xss) →
  (∀ x, x ∈ xs' → x ∈ xs ∨ op_new o = Some x) →
  i ≠ j → ls !! j = Some l' → xss !! j = Some ys → c ∈ chain l' ys →
  c ∉ chain l xs ++ match op_new o with Some x => [x] | None => [] end ∧ c ∉ chain l xs'.
Proof.
  intros Hr Hl Hxs Hn Hsub Hne Hl' Hys Hc.
  assert (c ∉ chain l xs) as Hc1 by (by apply (disjoint_not_in _ _ _
    (r_disj _ _ _ _ Hr _ _ _ _ _ _ (not_eq_sym Hne) Hl' Hys Hl Hxs))).
  assert (∀ x, op_new o = Some x → c ≠ x) as Hc2.
  { intros x Hx ->. destruct (Hn _ Hx) as [HE Hx']. apply elem_of_chain in Hc.
    destruct (r_sentinel _ _ _ _ Hr _ _ Hl'). destruct Hc as [->|[Hc| ->]]; [done| |done].
    apply Hx', list_elem_of_join. exists ys. split; [done|]. by eapply list_elem_of_lookup_2. }
  rewrite elem_of_chain in Hc1 |- *. split.
  - rewrite elem_of_app, elem_of_chain. intros [?|Hcx]; [done|]. destruct (op_new o) as [x|]; [|set_solver].
    apply list_elem_of_singleton in Hcx. by apply (Hc2 x).
  - intros [?|[Hx|?]]; [tauto| |tauto]. destruct (Hsub _ Hx) as [?|Ho]; [tauto|]. by apply (Hc2 c).
Qed.

(** A permitted operation on one list keeps the others. *)
Lemma reps_update E ls xss m i o l xs xs' l' m' :
  reps E ls xss m → ls !! i = Some l → xss !! i = Some xs →
  (∀ x, op_new o = Some x → x ∈ E ∧ x ∉ mjoin xss) →
  op_post o l xs xs' m l' m' →
  reps E (<[i := l']> ls) (<[i := xs']> xss) m'.
Proof.
  intros Hr Hl Hxs Hn (Hil&Hh&Ht&Hal&Hsub&Hin&Hag).
  pose proof (r_sentinel _ _ _ _ Hr _ _ Hl) as [HhE HtE].
  assert (chain l' xs' = chain l xs') as Hch by (unfold chain; by rewrite Hh, Ht).
  assert (i < length ls ∧ i < length xss)%nat as [Hi1 Hi2]
    by (split; by eapply lookup_lt_Some).
  assert (∀ j l2 ys c, i ≠ j → ls !! j = Some l2 → xss !! j = Some ys → c ∈ chain l2 ys →
    m' !! c = m !! c ∧ c ∉ chain l' xs') as Hoth.
  { intros j l2 ys c Hne Hl2 Hys Hc.
    destruct (reps_other E ls xss m i o l xs xs' j l2 ys c) as [Hc1 Hc2]; [done..|].
    rewrite Hch. split; [by apply Hag|done]. }
  constructor.
  - rewrite !length_insert. apply Hr.
  - intros j l2 ys. rewrite !list_lookup_insert. do 2 case_decide; try tauto; [naive_solver|].
    intros Hl2 Hys. apply (is_list_frame _ _ m); [by eapply r_list|].
    intros c Hc. eapply Hoth; [|done..]. tauto.
  - intros j k l2 ys l3 zs Hne. rewrite !list_lookup_insert.
    repeat case_decide; intros; simplify_eq; try lia; intros c Hc2 Hc3.
    + destruct (Hoth k l3 zs c) as [_ ?]; [lia|done..].
    + destruct (Hoth j l2 ys c) as [_ ?]; [lia|done..].
    + by apply (r_disj _ _ _ _ Hr j k l2 ys l3 zs Hne) with c.
  - intros x HxE. destruct (decide (x ∈ xs)) as [?|Hx]; [by apply Hal|].
    destruct (decide (op_new o = Some x)) as [Hox|Hox].
    + apply (is_list_allocated _ _ _ Hil). rewrite elem_of_chain. auto.
    + unfold allocated. rewrite Hag; [by apply (r_alloc _ _ _ _ Hr)|].
      rewrite elem_of_app, elem_of_chain. intros [[->|[?| ->]]|Hc]; try done.
      destruct (op_new o) as [y|]; [|set_solver]. apply list_elem_of_singleton in Hc. congruence.
  - intros j l2. rewrite list_lookup_insert. case_decide; intros; simplify_eq.
    + rewrite Hh, Ht. done.
    + by eapply r_sentinel.
  - intros j ys x. rewrite list_lookup_insert. case_decide; intros; simplify_eq.
    + destruct (Hsub x) as [?|Ho]; [done|by eapply r_elem|]. by apply Hn.
    + by eapply r_elem.
Qed.

Lemma reps_exec E o ls xss xss' m :
  reps E ls xss m → spec E o xss = Some xss' →
  ∃ ls' m', exec o (ls, m) = Ok (ls', m') ∧ reps E ls' xss' m'
    ∧ (∀ i, d_head <$> ls' !! i = d_head <$> ls !! i ∧ d_tail <$> ls' !! i = d_tail <$> ls !! i)
    ∧ ∀ c, c ∉ E → (∀ i l, ls !! i = Some l → c ≠ d_head l ∧ c ≠ d_tail l) → m' !! c = m !! c.
Proof.
  intros Hr Hs. unfold spec in Hs. destruct (xss !! op_index o) as [xs|] eqn:Hxs; [|done].
  simpl in Hs. destruct (match op_new o with Some x => _ | None => _ end) eqn:Hnew; [|done].
  destruct (spec_on o xs) as [xs'|] eqn:Hso; [|done]. simplify_eq/=.
  assert (∀ x, op_new o = Some x → x ∈ E ∧ x ∉ mjoin xss) as Hn.
  { intros x Hx. rewrite Hx in Hnew. by apply bool_decide_eq_true in Hnew. }
  assert (is_Some (ls !! op_index o)) as [l Hl].
  { apply lookup_lt_is_Some_2. rewrite (r_length _ _ _ _ Hr). by eapply lookup_lt_Some. }
  pose proof (r_list _ _ _ _ Hr _ _ _ Hl Hxs) as Hil.
  pose proof (r_sentinel _ _ _ _ Hr _ _ Hl) as [Hh Ht].
  destruct (exec_on_ok o l xs xs' m Hil Hso) as (l'&m'&He&Hpost).
  { intros x Hx. destruct (Hn _ Hx) as [HE Hx']. split; [by apply (r_alloc _ _ _ _ Hr)|].
    rewrite elem_of_chain. intros [->|[Hc| ->]]; [done| |done].
    apply Hx', list_elem_of_join. exists xs. split; [done|]. by eapply list_elem_of_lookup_2. }
  unfold exec. rewrite Hl. cbn [deref mbind res_bind]. rewrite He. cbn [mbind res_bind].
  eexists _, _. split; [done|]. split; [by eapply reps_update|].
  destruct Hpost as (_&Hh'&Ht'&_&_&_&Hag). split.
  - intros i. rewrite list_lookup_insert. case_decide as Hi; [|done]. destruct Hi as [<- _].
    rewrite Hl. simpl. by rewrite Hh', Ht'.
  - intros c HcE Hc. apply Hag. destruct (Hc _ _ Hl). rewrite elem_of_app, elem_of_chain.
    intros [[?|[Hx|?]]|Hx]; try done.
    + by apply HcE, (r_elem _ _ _ _ Hr _ _ _ Hxs).
    + destruct (op_new o) as [x|] eqn:Ho; [|set_solver]. apply list_elem_of_singleton in Hx as ->.
      by apply HcE, Hn.
Qed.

(** ** Construction *)

Definition sentinels (hts : list (loc * loc)) : list loc := hts ≫= fun ht => [ht.1; ht.2].

Fixpoint lists_init (hts : list (loc * loc)) (m : memory) : res (list DList * memory) :=
  match hts with
  | [] => Ok ([], m)
  | (h, t) :: hts =>
      '(l, m) ← List_init h t m;
      '(ls, m) ← lists_init hts m;
      Ok (l :: ls, m)
  end.

Lemma List_init_ok h t m :
  allocated m h → allocated m t → h ≠ t →
  ∃ l m', List_init h t m = Ok (l, m') ∧ is_list l [] m' ∧ d_head l = h ∧ d_tail l = t
    ∧ agree_off [h; t] m m' ∧ ∀ c, allocated m c → allocated m' c.
Proof.
  intros Hh Ht Hne. unfold List_init, list_clear. repeat mem_step. eexists _, _.
  split; [done|]. cbn [set_size d_head d_tail]. split_and!; [|done|done| |].
  - constructor; unfold chain; cbn [set_size d_head d_tail d_size app linked]; try by links.
    apply NoDup_cons. rewrite list_elem_of_singleton. split; [done|apply NoDup_singleton].
  - repeat first [apply agree_off_prev | apply agree_off_next];
      try (rewrite !elem_of_cons; tauto). by intros c _.
  - intros c Hc. alloc.
Qed.

Lemma lists_init_ok hts m :
  NoDup (sentinels hts) → (∀ c, c ∈ sentinels hts → allocated m c) →
  ∃ ls m', lists_init hts m = Ok (ls, m')
    ∧ Forall2 (fun ht l => is_list l [] m' ∧ d_head l = ht.1 ∧ d_tail l = ht.2) hts ls
    ∧ agree_off (sentinels hts) m m' ∧ ∀ c, allocated m c → allocated m' c.
Proof.
  revert m. induction hts as [|[h t] hts IH]; intros m Hnd Hal.
  { eexists _, _. split; [done|]. split_and!; [constructor|by intros c _|done]. }
  change (sentinels ((h, t) :: hts)) with ([h; t] ++ sentinels hts) in *.
  apply NoDup_app in Hnd as (Hht&Hd&Hnd). apply NoDup_cons in Hht as [Hne _].
  rewrite list_elem_of_singleton in Hne. setoid_rewrite elem_of_app in Hal.
  destruct (List_init_ok h t m) as (l&m1&He&Hl&<-&<-&Hag1&Hal1);
    [apply Hal; left; set_solver..|done|].
  destruct (IH m1 Hnd) as (ls&m'&He'&Hls&Hag&Hal'); [auto|].
  exists (l :: ls), m'. cbn [lists_init]. rewrite He. cbn [mbind res_bind]. rewrite He'.
  split; [done|]. split_and!; [constructor; [split_and!; [|done|done]|done]| |auto].
  - apply (is_list_frame _ _ m1); [done|]. intros c Hc. apply Hag. by apply Hd.
  - intros c. rewrite not_elem_of_app. intros [??]. rewrite Hag by done. by apply Hag1.
Qed.

Lemma elem_of_sentinels hts i ht :
  hts !! i = Some ht → ht.1 ∈ sentinels hts ∧ ht.2 ∈ sentinels hts.
Proof.
  intros Hi%list_elem_of_lookup_2. unfold sentinels.
  split; apply list_elem_of_bind; exists ht; (split; [|done]); set_solver.
Qed.

Lemma sentinels_disj hts i j hti htj x :
  NoDup (sentinels hts) → i ≠ j → hts !! i = Some hti → hts !! j = Some htj →
  (x = hti.1 ∨ x = hti.2) → (x = htj.1 ∨ x = htj.2) → False.
Proof.
  revert i j. induction hts as [|ht hts IH]; intros i j Hnd Hne Hi Hj Hx1 Hx2; [done|].
  change (sentinels (ht :: hts)) with ([ht.1; ht.2] ++ sentinels hts) in Hnd.
  apply NoDup_app in Hnd as (_&Hd&Hnd).
  destruct i as [|i], j as [|j]; simplify_eq/=.
  - destruct (elem_of_sentinels _ _ _ Hj). apply (Hd x); [set_solver|].
    destruct Hx2 as [->| ->]; done.
  - destruct (elem_of_sentinels _ _ _ Hi). apply (Hd x); [set_solver|].
    destruct Hx1 as [->| ->]; done.
  - by apply (IH i j); auto.
Qed.

Lemma reps_init E hts m :
  NoDup (sentinels hts) → (∀ c, c ∈ sentinels hts → c ∉ E) →
  (∀ c, c ∈ sentinels hts ++ E → allocated m c) →
  ∃ ls m', lists_init hts m = Ok (ls, m') ∧ reps E ls (replicate (length hts) []) m'
    ∧ (∀ i l, ls !! i = Some l → d_head l ∈ sentinels hts ∧ d_tail l ∈ sentinels hts)
    ∧ agree_off (sentinels hts) m m'.
Proof.
  intros Hnd HE Hal. setoid_rewrite elem_of_app in Hal.
  destruct (lists_init_ok hts m) as (ls&m'&He&Hls&Hag&Hal'); [by auto..|].
  exists ls, m'. split; [done|].
  assert (∀ i l, ls !! i = Some l → ∃ ht, hts !! i = Some ht
    ∧ is_list l [] m' ∧ d_head l = ht.1 ∧ d_tail l = ht.2) as Hlook.
  { intros i l Hl. by destruct (Forall2_lookup_r _ _ _ _ _ Hls Hl) as (ht&?&?); exists ht. }
  assert (∀ i l, ls !! i = Some l → d_head l ∈ sentinels hts ∧ d_tail l ∈ sentinels hts) as Hsen.
  { intros i l Hl. destruct (Hlook _ _ Hl) as (ht&Hht&_&->&->). by eapply elem_of_sentinels. }
  split; [|done]. constructor.
  - rewrite length_replicate. symmetry. by eapply Forall2_length.
  - intros i l xs Hl [-> _]%lookup_replicate. by destruct (Hlook _ _ Hl) as (ht&_&?&_).
  - intros i j l xs l' xs' Hne Hl [-> _]%lookup_replicate Hl' [-> _]%lookup_replicate c.
    destruct (Hlook _ _ Hl) as (ht&Hi&_&Eh&Et), (Hlook _ _ Hl') as (ht'&Hj&_&Eh'&Et').
    rewrite !elem_of_chain, Eh, Et, Eh', Et', !elem_of_nil. intros Hc Hc'.
    apply (sentinels_disj hts i j ht ht' c); tauto.
  - intros x Hx. auto.
  - intros i l Hl. destruct (Hsen _ _ Hl). auto.
  - intros i xs x [-> _]%lookup_replicate. by intros ?%not_elem_of_nil.
Qed.

Lemma foldl_bind_None {A B} (f : A → B → option A) (os : list B) :
  foldl (fun r o => s ← r; f s o) None os = None.
Proof. by induction os. Qed.

Lemma reps_execs E os ls xss xss' m :
  reps E ls xss m → specs E os xss = Some xss' →
  ∃ ls' m', execs os (ls, m) = Ok (ls', m') ∧ reps E ls' xss' m'
    ∧ ∀ c, c ∉ E → (∀ i l, ls !! i = Some l → c ≠ d_head l ∧ c ≠ d_tail l) → m' !! c = m !! c.
Proof.
  unfold specs, execs. revert ls xss m. induction os as [|o os IH]; intros ls xss m Hr Hs.
  { simplify_eq/=. by exists ls, m. }
  cbn [foldl] in *. cbn [mbind option_bind res_bind] in *.
  destruct (spec E o xss) as [xss1|] eqn:Hs1; [|by rewrite foldl_bind_None in Hs].
  destruct (reps_exec E o ls xss xss1 m Hr Hs1) as (ls1&m1&He&Hr1&Hsen&Hag). rewrite He.
  destruct (IH _ _ _ Hr1 Hs) as (ls'&m'&He'&Hr'&Hag'). exists ls', m'. split_and!; [done..|].
  intros c HcE Hc. rewrite Hag'; [by apply Hag|done|]. intros i l Hl.
  destruct (Hsen i) as [Hh Ht]. rewrite Hl in Hh, Ht. simpl in Hh, Ht.
  destruct (ls !! i) as [l0|] eqn:Hl0; [|done]. simplify_eq/=.
  destruct (Hc _ _ Hl0). split; congruence.
Qed.

(** Size, emptiness and traversal of a list show its sequence. *)
Definition shows (E : list loc) (m : memory) (l : DList) (xs : list loc) : Prop :=
  list_size l = Z.of_nat (length xs) ∧ list_empty l = bool_decide (xs = [])
  ∧ (b ← list_begin l m; iterate (length E) l m b) = Ok xs.

Lemma reps_shows E ls xss m i xs :
  reps E ls xss m → Z.of_nat (length E) < 2 ^ 64 → xss !! i = Some xs →
  ∃ l, ls !! i = Some l ∧ shows E m l xs.
Proof.
  intros Hr HE Hxs. assert (is_Some (ls !! i)) as [l Hl].
  { apply lookup_lt_is_Some_2. rewrite (r_length _ _ _ _ Hr). by eapply lookup_lt_Some. }
  pose proof (r_list _ _ _ _ Hr _ _ _ Hl Hxs) as Hil.
  destruct (is_list_inner _ _ _ Hil) as (Hnd&_).
  assert (length xs <= length E)%nat as Hlen.
  { apply submseteq_length, NoDup_submseteq; [done|]. intros x. by apply (r_elem _ _ _ _ Hr i). }
  assert (list_size l = Z.of_nat (length xs)) as Hsz.
  { unfold list_size. rewrite (il_size _ _ _ Hil). apply u64_small. lia. }
  exists l. split; [done|]. split_and!; [done| |].
  - unfold list_empty. rewrite Hsz. destruct xs; [done|]. rewrite bool_decide_false by done.
    apply Z.eqb_neq. simpl. lia.
  - rewrite (list_begin_ok _ _ _ Hil). cbn [mbind res_bind]. by apply (iterate_ok l m [] xs).
Qed.

(** C28: Starting from newly constructed intrusive lists over a set of elements, every
    sequence of insertions, pushes, erasures, pops and clears that keeps to the
    documented preconditions runs without touching a bad pointer; traversal, size and
    emptiness of every list then show the sequence of the specification, and no other
    memory is written. *)
Theorem dlist_refines (E : list loc) hts os xss m
  (Hnd : NoDup (sentinels hts)) (HE : ∀ c, c ∈ sentinels hts → c ∉ E)
  (Hal : ∀ c, c ∈ sentinels hts ++ E → allocated m c) (Hlen : Z.of_nat (length E) < 2 ^ 64)
  (Hspec : specs E os (replicate (length hts) []) = Some xss) :
  ∃ ls m', lists_init hts m ≫= execs os = Ok (ls, m')
    ∧ (∀ i xs, xss !! i = Some xs → ∃ l, ls !! i = Some l ∧ shows E m' l xs)
    ∧ ∀ c, c ∉ sentinels hts ++ E → m' !! c = m !! c.
Proof.
  destruct (reps_init E hts m Hnd HE Hal) as (ls&m1&->&Hr&Hsen&Hag).
  destruct (reps_execs E os ls _ xss m1 Hr Hspec) as (ls'&m'&He&Hr'&Hag').
  exists ls', m'. split_and!; [done|intros; by eapply reps_shows|].
  intros c. rewrite not_elem_of_app. intros [Hc HcE]. rewrite Hag'; [by apply Hag|done|].
  intros i l Hl. destruct (Hsen _ _ Hl). split; intros ->; done.
Qed.

(** Entry 5 goes to the first list, then moves to the second behind 6. *)
Definition demo_memory : memory :=
  list_to_map ((fun a => (a, mkNode None None)) <$> [1; 2; 3; 4; 5; 6; 7; 8]%positive).
Definition demo_ops : list list_op :=
  [op_push_back 0 5; op_push_front 0 7; op_push_back 1 6; op_erase 0 5; op_push_back 1 5;
   op_insert 1 (Some 5) 8; op_pop_back 1]%positive.

Lemma dlist_refines_witness :
  specs [5; 6; 7; 8]%positive demo_ops [[]; []] = Some [[7]; [6; 8]]%positive
  ∧ ∃ ls m', lists_init [(1, 2); (3, 4)]%positive demo_memory ≫= execs demo_ops = Ok (ls, m')
    ∧ (∀ i xs, [[7]; [6; 8]]%positive !! i = Some xs →
         ∃ l, ls !! i = Some l ∧ shows [5; 6; 7; 8]%positive m' l xs)
    ∧ ∀ c, c ∉ sentinels [(1, 2); (3, 4)]%positive ++ [5; 6; 7; 8]%positive →
         m' !! c = demo_memory !! c.
Proof.
  split; [by_compute|]. apply dlist_refines.
  - by_compute.
  - intros c Hc HcE. revert c Hc HcE. 
    enough (Forall (fun c => c ∉ [5; 6; 7; 8]%positive) (sentinels [(1, 2); (3, 4)]%positive)) as HF
      by (intros c Hc; by eapply Forall_forall in HF).
    by_compute.
  - enough (Forall (fun c => allocated demo_memory c)
      (sentinels [(1, 2); (3, 4)]%positive ++ [5; 6; 7; 8]%positive)) as HF
      by (intros c Hc; by eapply Forall_forall in HF).
    repeat constructor; eexists; vm_compute; reflexivity.
  - done.
  - by_compute.
Defined.
