(* ===== verification/ResourceLists.v ===== *)
(** * The lists of the resource manager in memory

    An [Entry] of the resource manager carries one pair of links and is on one of four
    intrusive lists.  Resource.v keeps these as sequences of keys.  Here the operations that
    move an entry between the lists are written over the links in memory ([new_endpoint_m],
    [acquire_m], [release_m], [erase_m]) and refine those of Resource.v. *)

From S2P Require Import Prelude IPAddr Slot Decaying DList Resource ResourceInv ResourceProps.
From stdpp Require Import gmultiset strings.

Local Open Scope Z_scope.

Section lists.
(** The address of the entry of a key, and the addresses entries can have. *)
Context (addr : Key → loc) `{!Inj (=) (=) addr} (E : list loc).

Definition kind_index (kd : Kind) : nat :=
  match kd with kindInbound => 0%nat | kindOutbound => 1%nat | kindUnlimited => 2%nat end.

Definition lists (st : RLogic) : list (list loc) :=
  [addr <$> inbound_ st; addr <$> outbound_ st; addr <$> admin_ st; addr <$> inactive_ st].

(** The table of the entries, and the four lists with the memory they live in. *)
Definition MState : Type := gmap Key Entry * (list DList * memory).

(** The operations that move entries between the lists, on this state. *)
Definition new_endpoint_m (k : Key) (now : Z) (x : MState) : res MState :=
  let '(tb, mem) := x in
  let '(e, inserted) := match tb !! k with Some e => (e, false) | None => (Entry_init now, true) end in
  let e := set_refcount (refcount e + 1) e in
  let tb := <[k := e]> tb in
  if refcount e =? 1 then
    mem ← (if (inserted : bool) then Ok mem else exec (op_erase 3 (addr k)) mem);
    mem ← exec (op_push_back (kind_index (key_kind k)) (addr k)) mem;
    Ok (tb, mem)
  else Ok (tb, mem).

Definition acquire_m (k : Key) (x : MState) : res MState :=
  let '(tb, mem) := x in
  e ← deref (tb !! k);
  Ok (<[k := set_refcount (refcount e + 1) e]> tb, mem).

Definition release_m (k : Key) (now : Z) (x : MState) : res MState :=
  let '(tb, mem) := x in
  e ← deref (tb !! k);
  let e := set_refcount (refcount e - 1) e in
  let tb := <[k := e]> tb in
  if refcount e =? 0 then
    mem ← exec (op_erase (kind_index (key_kind k)) (addr k)) mem;
    mem ← exec (op_push_back 3 (addr k)) mem;
    Ok (<[k := set_expires (now + RTuning.secondsUntilExpiration) e]> tb, mem)
  else Ok (tb, mem).

Definition erase_m (k : Key) (x : MState) : res MState :=
  let '(tb, mem) := x in
  e ← deref (tb !! k);
  assert_ (refcount e =? 0);;
  mem ← exec (op_erase 3 (addr k)) mem;
  Ok (delete k tb, mem).

Lemma fmap_erase1 k (l : list Key) : addr <$> erase1 k l = erase1 (addr k) (addr <$> l).
Proof.
  induction l as [|k' l IH]; [done|]. rewrite fmap_cons. cbn [erase1].
  destruct (decide (k = k')) as [->|Hne].
  - by rewrite decide_True.
  - rewrite decide_False by (by intros ?%(inj addr)). by rewrite fmap_cons, IH.
Qed.

Lemma elem_of_addr k (l : list Key) : addr k ∈ addr <$> l ↔ k ∈ l.
Proof. by rewrite list_elem_of_fmap_inj. Qed.

Lemma lists_active kd st : lists st !! kind_index kd = Some (addr <$> active_list kd st).
Proof. by destruct kd. Qed.
Lemma lists_with_active kd l st :
  lists (with_active kd l st) = <[kind_index kd := addr <$> l]> (lists st).
Proof. by destruct kd. Qed.
Lemma lists_with_inactive l st : lists (with_inactive l st) = <[3%nat := addr <$> l]> (lists st).
Proof. done. Qed.
Lemma lists_with_table tb st : lists (with_table tb st) = lists st.
Proof. done. Qed.

(** A list operation of Resource.v is the specification of the command. *)
Lemma spec_erase i k (l l' : list Key) xss :
  xss !! i = Some (addr <$> l) → list_erase k l = Ok l' →
  spec E (op_erase i (addr k)) xss = Some (<[i := addr <$> l']> xss).
Proof.
  intros Hi He. unfold list_erase in He. case_decide as Hk; [|done]. simplify_eq.
  unfold spec. simpl. rewrite Hi. simpl. rewrite decide_True by (by apply elem_of_addr).
  simpl. by rewrite fmap_erase1.
Qed.

Lemma spec_push_back i k (l l' : list Key) xss :
  xss !! i = Some (addr <$> l) → list_push_back k l = Ok l' →
  addr k ∈ E → addr k ∉ mjoin xss →
  spec E (op_push_back i (addr k)) xss = Some (<[i := addr <$> l']> xss).
Proof.
  intros Hi He HE Hj. unfold list_push_back in He. case_decide as Hk; [done|]. simplify_eq.
  unfold spec. simpl. rewrite Hi. simpl. rewrite bool_decide_true by done. simpl.
  by rewrite fmap_app.
Qed.

Lemma not_listed k st :
  (∀ kd, k ∉ active_list kd st) → k ∉ inactive_ st → addr k ∉ mjoin (lists st).
Proof.
  intros Ha Hi (xs&Hx&Hxs)%list_elem_of_join. unfold lists in Hxs.
  rewrite !elem_of_cons in Hxs.
  destruct Hxs as [->|[->|[->|[->|?%not_elem_of_nil]]]]; [..|done];
    apply elem_of_addr in Hx; [apply (Ha kindInbound)|apply (Ha kindOutbound)
      |apply (Ha kindUnlimited)|]; done.
Qed.

(** The memory holds the lists of [st]. *)
Definition in_memory (st : RLogic) (x : MState) : Prop :=
  table_ st = x.1 ∧ reps E x.2.1 (lists st) x.2.2.

(** A command whose specification is met runs in memory. *)
Lemma exec_ok o xss xss' mem : reps E mem.1 xss mem.2 → spec E o xss = Some xss' →
  ∃ mem', exec o mem = Ok mem' ∧ reps E mem'.1 xss' mem'.2.
Proof.
  destruct mem as [ls m]. intros Hr Hs. destruct (reps_exec E o ls xss xss' m Hr Hs) as (ls'&m'&He&Hr'&_).
  by exists (ls', m').
Qed.

Context (st : RLogic) (ref owed : Key → Z) (t : Z).
Hypothesis Hwf : tab_wf st ref owed t.

Lemma unlisted_inactive k e :
  table_ st !! k = Some e → refcount e = 0 →
  addr k ∉ mjoin (lists (with_inactive (erase1 k (inactive_ st)) st)).
Proof.
  intros He Hr. apply not_listed.
  - intros kd. intros Hk. assert (k ∈ active_list kd st) as [Hp _]%(tw_active _ _ _ _ Hwf)
      by (by destruct kd).
    rewrite (tw_ref _ _ _ _ Hwf), He in Hp. lia.
  - simpl. rewrite elem_of_erase1 by apply Hwf. tauto.
Qed.

Lemma new_endpoint_in_memory k now st' x :
  addr k ∈ E → in_memory st x → new_endpoint k now st = Ok st' →
  ∃ x', new_endpoint_m k now x = Ok x' ∧ in_memory st' x'.
Proof.
  destruct x as [tb mem]. intros HE [Htb Hr] Hn. cbn [fst snd] in *. subst tb. unfold new_endpoint, new_endpoint_m in *.
  destruct (table_ st !! k) as [e|] eqn:He; cbn [refcount set_refcount] in *.
  - destruct (refcount e + 1 =? 1) eqn:H1; [|injection Hn as <-; eexists; by split].
    apply Z.eqb_eq in H1. apply bind_ok in Hn as (l1&Hl1&Hn). apply bind_ok in Hn as (l2&Hl2&Hn). inv_res.
    destruct (exec_ok _ _ _ mem Hr (spec_erase 3 k (inactive_ st) l1 (lists st) eq_refl Hl1)) as (mem1&->&Hr1). cbn [mbind res_bind].
    unfold list_erase in Hl1. case_decide as Hk; [|done]. simplify_eq/=.
    destruct (exec_ok (op_push_back (kind_index (key_kind k)) (addr k)) _
      (<[kind_index (key_kind k) := addr <$> l2]> (lists (with_inactive (erase1 k (inactive_ st)) st))) mem1 Hr1) as (mem2&->&Hr2).
    { apply spec_push_back with (l := active_list (key_kind k) st); [by destruct (key_kind k)|by destruct (key_kind k)|done|].
      apply (unlisted_inactive k e He). lia. }
    eexists. split; [done|]. split; [done|]. cbn [fst snd]. by rewrite lists_with_active.
  - apply bind_ok in Hn as (l1&[= <-]&Hn). apply bind_ok in Hn as (l2&Hl2&Hn). inv_res. cbn [mbind res_bind].
    destruct (exec_ok (op_push_back (kind_index (key_kind k)) (addr k)) _
      (<[kind_index (key_kind k) := addr <$> l2]> (lists st)) mem Hr) as (mem2&->&Hr2).
    { apply spec_push_back with (l := active_list (key_kind k) st); [by destruct (key_kind k)|by destruct (key_kind k)|done|].
      apply not_listed.
      - intros kd [Hp _]%(tw_active _ _ _ _ Hwf). rewrite (tw_ref _ _ _ _ Hwf), He in Hp. lia.
      - intros [[? Hs] _]%(tw_inactive _ _ _ _ Hwf). congruence. }
    eexists. split; [done|]. split; [done|]. cbn [fst snd]. by rewrite lists_with_active.
Qed.

Lemma acquire_in_memory k st' x :
  in_memory st x → acquire k st = Ok st' → ∃ x', acquire_m k x = Ok x' ∧ in_memory st' x'.
Proof.
  destruct x as [tb mem]. intros [Htb Hr] (e&He&Hn)%bind_ok. inv_res. cbn [fst snd acquire_m] in *. subst tb. rewrite He.
  eexists. by split.
Qed.

Lemma release_in_memory k now st' x :
  addr k ∈ E → in_memory st x → release k now st = Ok st' →
  ∃ x', release_m k now x = Ok x' ∧ in_memory st' x'.
Proof.
  destruct x as [tb mem]. intros HE [Htb Hr] Hn. cbn [fst snd] in *. subst tb. unfold release, release_m in *.
  apply bind_ok in Hn as (e&He&Hn). apply deref_ok in He. rewrite He. cbn [deref mbind res_bind refcount set_refcount] in *.
  destruct (refcount e - 1 =? 0) eqn:H1; [|injection Hn as <-; eexists; by split]. apply Z.eqb_eq in H1.
  apply bind_ok in Hn as (l1&Hl1&Hn). apply bind_ok in Hn as (l2&Hl2&Hn). inv_res.
  destruct (exec_ok (op_erase (kind_index (key_kind k)) (addr k)) _ (lists (with_active (key_kind k) l1 st)) mem Hr) as (mem1&->&Hr1).
  { rewrite lists_with_active. by apply spec_erase with (l := active_list (key_kind k) st); [apply lists_active|destruct (key_kind k)]. }
  cbn [mbind res_bind]. unfold list_erase in Hl1. case_decide as Hk; [|done]. inv_res.
  destruct (exec_ok (op_push_back 3 (addr k)) _
    (<[3%nat := addr <$> l2]> (lists (with_active (key_kind k) (erase1 k (active_list (key_kind k) st)) st))) mem1 Hr1) as (mem2&->&Hr2).
  { apply spec_push_back with (l := inactive_ st); [by destruct (key_kind k)|by destruct (key_kind k)|done|]. apply not_listed.
    - intros kd. rewrite active_list_with_active. case_decide as Hkd.
      + subst. rewrite elem_of_erase1 by apply Hwf. tauto.
      + intros [_ ?]%(tw_active _ _ _ _ Hwf). congruence.
    - intros Hi. assert (k ∈ inactive_ st) as [_ Hz]%(tw_inactive _ _ _ _ Hwf) by (by destruct (key_kind k)).
      rewrite (tw_ref _ _ _ _ Hwf), He in Hz. lia. }
  cbn [mbind res_bind]. eexists. split; [done|]. split; [by destruct (key_kind k)|]. cbn [fst snd]. by destruct (key_kind k).
Qed.

Lemma erase_in_memory k st' x :
  in_memory st x → erase k st = Ok st' → ∃ x', erase_m k x = Ok x' ∧ in_memory st' x'.
Proof.
  destruct x as [tb mem]. intros [Htb Hr] (e&He&(u&Hu&(l&Hl&Hn)%bind_ok)%bind_ok)%bind_ok. inv_res.
  cbn [fst snd erase_m] in *. subst tb. rewrite He. cbn [deref mbind res_bind assert_]. rewrite (proj2 (Z.eqb_eq _ _)) by lia. cbn [assert_ mbind res_bind].
  destruct (exec_ok _ _ _ mem Hr (spec_erase 3 k (inactive_ st) l (lists st) eq_refl Hl)) as (mem1&->&Hr1).
  eexists. by split.
Qed.
End lists.

(** C38: The four intrusive lists of the resource manager in memory, newly constructed,
    hold the empty lists of a new manager; and in every state with the invariant of the
    manager whose lists the memory holds, making a consumer, acquiring, releasing (the
    last reference only when no imported balance is left) and erasing an inactive entry
    return, on the links in memory as on the sequences of keys, and the memory then
    holds the lists of the next state. *)
Theorem resource_lists_in_memory (addr : Key → loc) `{!Inj (=) (=) addr} (E : list loc) :
  (∀ hts m, length hts = 4%nat → NoDup (sentinels hts) → (∀ c, c ∈ sentinels hts → c ∉ E) →
     (∀ c, c ∈ sentinels hts ++ E → allocated m c) →
     ∃ mem, lists_init hts m = Ok mem ∧ in_memory addr E RLogic_init (∅, mem))
  ∧ ∀ st ref owed t k x, tab_wf st ref owed t → in_memory addr E st x → addr k ∈ E →
     (∀ now, ∃ st' x', new_endpoint k now st = Ok st' ∧ new_endpoint_m addr k now x = Ok x' ∧ in_memory addr E st' x')
     ∧ (0 < ref k → ∃ st' x', acquire k st = Ok st' ∧ acquire_m k x = Ok x' ∧ in_memory addr E st' x')
     ∧ (∀ now, 0 < ref k → (ref k = 1 → owed k = 0) → t <= now →
          ∃ st' x', release k now st = Ok st' ∧ release_m addr k now x = Ok x' ∧ in_memory addr E st' x')
     ∧ (k ∈ inactive_ st → ∃ st' x', erase k st = Ok st' ∧ erase_m addr k x = Ok x' ∧ in_memory addr E st' x').
Proof.
  split.
  - intros hts m Hlen Hnd HE Hal. destruct (reps_init E hts m Hnd HE Hal) as (ls&m'&->&Hr&_).
    exists (ls, m'). split; [done|]. split; [done|]. cbn [fst snd]. by rewrite Hlen in Hr.
  - intros st ref owed t k x Hwf Hx HE. split_and!.
    + intros now. destruct (new_endpoint_ok st ref owed t Hwf k now) as (st'&Hn&_). exists st'.
      destruct (new_endpoint_in_memory addr E st ref owed t Hwf k now st' x HE Hx Hn) as (x'&?&?). eauto.
    + intros Hk. destruct (acquire_ok st ref owed t Hwf k Hk) as (st'&Ha&_). exists st'.
      destruct (acquire_in_memory addr E st k st' x Hx Ha) as (x'&?&?). eauto.
    + intros now Hk Ho Ht. destruct (release_ok st ref owed t Hwf k now Hk Ho Ht) as (st'&Hl&_). exists st'.
      destruct (release_in_memory addr E st ref owed t Hwf k now st' x HE Hx Hl) as (x'&?&?). eauto.
    + intros Hk. assert (∃ st', erase k st = Ok st') as [st' He].
      { pose proof (tw_ref _ _ _ _ Hwf k) as Hr. destruct (proj1 (tw_inactive _ _ _ _ Hwf k) Hk) as [[e Hl] H0].
        rewrite Hl in Hr. unfold erase, list_erase. rewrite Hl, decide_True by done. cbn [deref mbind res_bind].
        rewrite (proj2 (Z.eqb_eq _ _)) by lia. by eexists. }
      exists st'. destruct (erase_in_memory addr E st k st' x Hx He) as (x'&?&?). eauto.
Qed.

(** Four lists with their sentinels at 1 to 8, and an entry in memory. *)
Definition entry_addr (k : Key) : loc := (8 + encode k)%positive.
#[global] Instance entry_addr_inj : Inj (=) (=) entry_addr.
Proof. intros k k' H. apply (inj encode). unfold entry_addr in H. lia. Qed.

Definition list_sentinels : list (loc * loc) := [(1, 2); (3, 4); (5, 6); (7, 8)]%positive.
Definition entry_memory (k : Key) : memory :=
  list_to_map ((fun c => (c, mkNode None None)) <$> sentinels list_sentinels ++ [entry_addr k]).

(** The first consumer of an entry is made, then destroyed. *)
Lemma resource_lists_in_memory_witness :
  let k := outbound_key (peer 3) in
  ∃ mem st x st' x', lists_init list_sentinels (entry_memory k) = Ok mem
    ∧ new_endpoint k (seconds 1) RLogic_init = Ok st ∧ new_endpoint_m entry_addr k (seconds 1) (∅, mem) = Ok x
    ∧ in_memory entry_addr [entry_addr k] st x
    ∧ release k (seconds 2) st = Ok st' ∧ release_m entry_addr k (seconds 2) x = Ok x'
    ∧ in_memory entry_addr [entry_addr k] st' x'.
Proof.
  intros k. destruct (resource_lists_in_memory entry_addr [entry_addr k]) as [Hinit Hstep].
  destruct (Hinit list_sentinels (entry_memory k)) as (mem&Hm&Hmem).
  { done. }
  { by_compute. }
  { intros c Hc ->%list_elem_of_singleton. revert Hc. by_compute. }
  { intros c Hc. unfold entry_memory, allocated. apply not_eq_None_Some. intros Hn%not_elem_of_list_to_map_2.
    apply Hn. by rewrite <-list_fmap_compose, list_fmap_id. }
  assert (entry_addr k ∈ [entry_addr k]) as HE by (by left).
  pose proof (rw_tab _ _ _ (res_wf_init 0)) as Hwf0.
  destruct (Hstep _ _ _ _ k _ Hwf0 Hmem HE) as [Hnew _].
  destruct (Hnew (seconds 1)) as (st&x&Hn&Hx&Hst).
  destruct (new_endpoint_ok _ _ _ _ Hwf0 k (seconds 1)) as (st1&Hn1&Hwf1&_).
  rewrite Hn in Hn1. injection Hn1 as <-.
  destruct (Hstep _ _ _ _ k _ Hwf1 Hst HE) as (_&_&Hrel&_).
  destruct (Hrel (seconds 2)) as (st'&x'&Hr&Hx'&Hst'); [by vm_compute|done|by vm_compute|].
  exists mem, st, x, st', x'. split_and!; assumption.
Defined.
