(* ===== verification/Bytes.v ===== *)
(** * Bytes, byte streams and fixed-width fields

    Buffers are lists of bytes.  The second half models the streams and big-endian fields
    of [nudb/include/nudb/detail/stream.hpp] and [field.hpp], which the node store codec
    reads and writes through. *)

From Stdlib Require Export Strings.Byte.
From Stdlib Require Import NArith.
From S2P Require Import Prelude.
Local Open Scope Z_scope.

Notation bytes := (list byte).

#[global] Instance byte_eq_dec : EqDecision byte := Byte.byte_eq_dec.

#[global] Instance byte_countable : Countable byte.
Proof.
  apply (inj_countable' (fun b => Byte.to_N b) (fun n => default x00 (Byte.of_N n))).
  intros b. by rewrite Byte.of_to_N.
Defined.

Definition bval (b : byte) : Z := Z.of_N (Byte.to_N b).

(** [static_cast<std::uint8_t>] *)
Definition byte_of (z : Z) : byte := default x00 (Byte.of_N (Z.to_N (z mod 2 ^ 8))).

Lemma bval_range b : 0 <= bval b < 2 ^ 8.
Proof. unfold bval. pose proof (Byte.to_N_bounded b). lia. Qed.

Lemma bval_byte_of z : bval (byte_of z) = z mod 2 ^ 8.
Proof.
  unfold bval, byte_of. pose proof (Z.mod_pos_bound z (2 ^ 8) eq_refl) as Hz.
  destruct (Byte.of_N (Z.to_N (z mod 2 ^ 8))) as [b|] eqn:Hb.
  - apply Byte.to_of_N in Hb. simpl. rewrite Hb. lia.
  - apply Byte.of_N_None_iff in Hb. lia.
Qed.

Lemma byte_of_bval b : byte_of (bval b) = b.
Proof.
  unfold byte_of. rewrite Z.mod_small by apply bval_range.
  unfold bval. rewrite N2Z.id, Byte.of_to_N. done.
Qed.

(** ** Streams *)

(** [istream::data]: the bytes read and the rest. *)
Definition is_data (n : nat) (ins : bytes) : res (bytes * bytes) :=
  assert_ (Nat.leb n (length ins));;
  if Nat.ltb (length ins) n then Err exception_thrown
  else Ok (take n ins, drop n ins).

(** An [ostream] over a buffer of [os_cap] bytes: what was written so far.  The sources
    do not check the end of the buffer: writing past it is undefined. *)
Record ostream := mkOs { os_cap : nat; os_out : bytes }.

Definition os_open (cap : nat) : ostream := mkOs cap [].

(** [os.data (n)] with the [n] bytes then stored there. *)
Definition os_put (bs : bytes) (os : ostream) : res ostream :=
  if decide (length (os_out os) + length bs <= os_cap os)%nat
  then Ok (mkOs (os_cap os) (os_out os ++ bs)) else Err undefined.

(** The bytes of the buffer; those never written are indeterminate. *)
Definition os_bytes (os : ostream) : res bytes :=
  if decide (length (os_out os) = os_cap os) then Ok (os_out os) else Err undefined.

(** ** Fields *)

Inductive field := uint8_t | uint16_t | uint24_t | uint32_t | uint48_t | uint64_t.

Definition field_size (f : field) : nat :=
  match f with
  | uint8_t => 1 | uint16_t => 2 | uint24_t => 3 | uint32_t => 4 | uint48_t => 6 | uint64_t => 8
  end.
Definition field_max (f : field) : Z :=
  match f with
  | uint8_t => 0xff | uint16_t => 0xffff | uint24_t => 0xffffff | uint32_t => 0xffffffff
  | uint48_t => 0xffffffffffff | uint64_t => 0xffffffffffffffff
  end.

(** [readp<T>]: byte [i] of the field is shifted into place and or-ed to the rest. *)
Definition readp (f : field) (p : bytes) : Z :=
  let b i := bval (nth i p x00) in
  match f with
  | uint8_t => b 0%nat
  | uint16_t =>
      let t := Z.shiftl (b 0%nat) 8 in
      Z.lor (b 1%nat) t
  | uint24_t =>
      let t := Z.shiftl (b 0%nat) 16 in
      let t := Z.lor (Z.shiftl (b 1%nat) 8) t in
      Z.lor (b 2%nat) t
  | uint32_t =>
      let t := Z.shiftl (b 0%nat) 24 in
      let t := Z.lor (Z.shiftl (b 1%nat) 16) t in
      let t := Z.lor (Z.shiftl (b 2%nat) 8) t in
      Z.lor (b 3%nat) t
  | uint48_t =>
      let t := Z.shiftl (b 0%nat) 40 in
      let t := Z.lor (Z.shiftl (b 1%nat) 32) t in
      let t := Z.lor (Z.shiftl (b 2%nat) 24) t in
      let t := Z.lor (Z.shiftl (b 3%nat) 16) t in
      let t := Z.lor (Z.shiftl (b 4%nat) 8) t in
      Z.lor (b 5%nat) t
  | uint64_t =>
      let t := Z.shiftl (b 0%nat) 56 in
      let t := Z.lor (Z.shiftl (b 1%nat) 48) t in
      let t := Z.lor (Z.shiftl (b 2%nat) 40) t in
      let t := Z.lor (Z.shiftl (b 3%nat) 32) t in
      let t := Z.lor (Z.shiftl (b 4%nat) 24) t in
      let t := Z.lor (Z.shiftl (b 5%nat) 16) t in
      let t := Z.lor (Z.shiftl (b 6%nat) 8) t in
      Z.lor (b 7%nat) t
  end.

(** [read<T> (is, u)] *)
Definition read (f : field) (ins : bytes) : res (Z * bytes) :=
  '(p, ins) ← is_data (field_size f) ins; Ok (readp f p, ins).

(** [write<T>]: the bytes stored for [t]. *)
Definition field_bytes (f : field) (t : Z) : bytes :=
  let at_ s := byte_of (Z.land (Z.shiftr t s) 0xff) in
  match f with
  | uint8_t => [byte_of t]
  | uint16_t => [at_ 8; at_ 0]
  | uint24_t => [at_ 16; at_ 8; at_ 0]
  | uint32_t => [at_ 24; at_ 16; at_ 8; at_ 0]
  | uint48_t => [at_ 40; at_ 32; at_ 24; at_ 16; at_ 8; at_ 0]
  | uint64_t => [at_ 56; at_ 48; at_ 40; at_ 32; at_ 24; at_ 16; at_ 8; at_ 0]
  end.

Definition write (f : field) (u : Z) (os : ostream) : res ostream :=
  assert_ (u <=? field_max f);; os_put (field_bytes f u) os.

(** ** Lemmas *)

Lemma is_data_ok n ins : (n <= length ins)%nat → is_data n ins = Ok (take n ins, drop n ins).
Proof.
  intros Hn. unfold is_data. rewrite (proj2 (Nat.leb_le _ _)) by done. cbn [assert_ mbind res_bind].
  by rewrite (proj2 (Nat.ltb_ge _ _)).
Qed.
Lemma is_data_app bs ins : is_data (length bs) (bs ++ ins) = Ok (bs, ins).
Proof.
  rewrite is_data_ok by (rewrite length_app; lia). by rewrite take_app_length, drop_app_length.
Qed.
Lemma is_data_short n ins : (length ins < n)%nat → is_data n ins = Err assert_failed.
Proof.
  intros Hn. unfold is_data. by rewrite (proj2 (Nat.leb_gt _ _)).
Qed.

Lemma os_put_ok bs os :
  (length (os_out os) + length bs <= os_cap os)%nat →
  os_put bs os = Ok (mkOs (os_cap os) (os_out os ++ bs)).
Proof. intros. unfold os_put. by rewrite decide_True. Qed.

Lemma length_field_bytes f t : length (field_bytes f t) = field_size f.
Proof. by destruct f. Qed.

Lemma lor_shiftl_add a b n : 0 <= n → 0 <= b < 2 ^ n → Z.lor b (Z.shiftl a n) = a * 2 ^ n + b.
Proof.
  intros Hn Hb. rewrite Z.lor_comm, <-Z.shiftl_mul_pow2 by done.
  rewrite <-Z.lxor_lor, Z.add_nocarry_lxor; [done|..];
    (apply Z.bits_inj_0; intros i; rewrite Z.land_spec;
     destruct (decide (i < 0)); [by rewrite Z.testbit_neg_r|];
     destruct (decide (i < n));
     [rewrite Z.shiftl_spec_low by lia; done|
      rewrite <-(Z.mod_small b (2 ^ n)), Z.mod_pow2_bits_high, andb_false_r by lia; done]).
Qed.

Lemma lor_step a b n :
  0 <= n → 0 <= b < 2 ^ 8 →
  Z.lor (Z.shiftl b n) (Z.shiftl a (n + 8)) = Z.shiftl (a * 2 ^ 8 + b) n.
Proof.
  intros Hn Hb. rewrite (Z.add_comm n 8), <-Z.shiftl_shiftl, <-Z.shiftl_lor by lia.
  by rewrite lor_shiftl_add.
Qed.

(** One more byte of a big-endian number. *)
Lemma horner v s : 0 <= s → v / 2 ^ (s + 8) * 2 ^ 8 + (v / 2 ^ s) mod 2 ^ 8 = v / 2 ^ s.
Proof.
  intros Hs. rewrite Z.pow_add_r, <-Z.div_div by lia.
  rewrite (Z.div_mod (v / 2 ^ s) (2 ^ 8)) at 3 by lia. lia.
Qed.

Lemma bval_field v s : 0 <= s → bval (byte_of (Z.land (Z.shiftr v s) 0xff)) = (v / 2 ^ s) mod 2 ^ 8.
Proof.
  intros Hs. rewrite bval_byte_of. change 0xff with (Z.ones 8).
  rewrite Z.land_ones, Z.shiftr_div_pow2 by lia. apply Z.mod_mod. lia.
Qed.

Lemma field_roundtrip f v : 0 <= v <= field_max f → readp f (field_bytes f v) = v.
Proof.
  intros Hv.
  assert (∀ s, 0 <= (v / 2 ^ s) mod 2 ^ 8 < 2 ^ 8) as Hb by (intros; apply Z.mod_pos_bound; lia).
  destruct f; cbn [readp field_bytes nth field_max] in *;
    [rewrite bval_byte_of; apply Z.mod_small; lia|..];
    rewrite !bval_field by lia;
    repeat match goal with
    | |- context [Z.lor (Z.shiftl ?b ?n) (Z.shiftl ?a ?k)] =>
        change (Z.shiftl a k) with (Z.shiftl a (n + 8)); rewrite (lor_step a b n) by (lia || apply Hb)
    end;
    rewrite lor_shiftl_add by (lia || apply Hb);
    match goal with
    | |- context [(v / 2 ^ ?s) mod 2 ^ 8 * 2 ^ 8] => 
        rewrite (Z.mod_small (v / 2 ^ s)) by
          (split; [apply Z.div_pos; lia|apply Z.div_lt_upper_bound; lia])
    end;
    repeat match goal with
    | |- context [v / 2 ^ ?k * 2 ^ 8 + (v / 2 ^ ?s) mod 2 ^ 8] =>
        change (v / 2 ^ k) with (v / 2 ^ (s + 8)); rewrite (horner v s) by lia
    end; simpl; apply Z.div_1_r.
Qed.

(** A field read back from where it was written. *)
Lemma read_write f v ins :
  0 <= v <= field_max f → read f (field_bytes f v ++ ins) = Ok (v, ins).
Proof.
  intros Hv. unfold read. rewrite <-(length_field_bytes f v), is_data_app. cbn [mbind res_bind].
  by rewrite field_roundtrip.
Qed.

Lemma write_ok f v os :
  v <= field_max f → (length (os_out os) + field_size f <= os_cap os)%nat →
  write f v os = Ok (mkOs (os_cap os) (os_out os ++ field_bytes f v)).
Proof.
  intros Hv Hc. unfold write. rewrite (proj2 (Z.leb_le _ _)) by done.
  apply os_put_ok. by rewrite length_field_bytes.
Qed.
