(* ===== verification/Xxhash.v ===== *)
(** * The streaming hash used by the unordered containers

    Model of [beast/hash/impl/xxhash.c] and of its client [beast/hash/xxhasher.h].

    A buffer [p .. bEnd) is the list of its bytes, so that [p += n] is [drop n p]
    and [p + n <= bEnd] is [n <= length p].  Every read and every [memcpy] checks
    that it stays inside the buffer and is [Err undefined] otherwise; the theorems
    that an operation returns [Ok] therefore include memory safety.  The byte order
    of the machine is the argument [cpu]; the macro [XXH_FORCE_NATIVE_FORMAT] is 0
    as in the sources, and [XXH_ACCEPT_NULL_INPUT_POINTER] is not defined.

    The specification [xxh32_spec] / [xxh64_spec] hashes a whole list of bytes with
    no buffer, no machine byte order and no alignment; the one-shot functions and
    the streaming interface are both shown to compute it. *)

From S2P Require Import Prelude Bytes.
Local Open Scope Z_scope.

(** ** Words and bytes *)

(** [XXH_rotl32] and [XXH_rotl64]: the shift to the left is that of the unsigned
    type. *)
Definition XXH_rotl32 (x r : Z) : Z := Z.lor (u32 (Z.shiftl x r)) (Z.shiftr x (32 - r)).
Definition XXH_rotl64 (x r : Z) : Z := Z.lor (u64 (Z.shiftl x r)) (Z.shiftr x (64 - r)).

Definition XXH_swap32 (x : Z) : Z :=
  Z.lor (Z.lor (Z.lor
    (Z.land (u32 (Z.shiftl x 24)) 0xff000000)
    (Z.land (u32 (Z.shiftl x 8)) 0x00ff0000))
    (Z.land (Z.shiftr x 8) 0x0000ff00))
    (Z.land (Z.shiftr x 24) 0x000000ff).

Definition XXH_swap64 (x : Z) : Z :=
  Z.lor (Z.lor (Z.lor (Z.lor (Z.lor (Z.lor (Z.lor
    (Z.land (u64 (Z.shiftl x 56)) 0xff00000000000000)
    (Z.land (u64 (Z.shiftl x 40)) 0x00ff000000000000))
    (Z.land (u64 (Z.shiftl x 24)) 0x0000ff0000000000))
    (Z.land (u64 (Z.shiftl x 8)) 0x000000ff00000000))
    (Z.land (Z.shiftr x 8) 0x00000000ff000000))
    (Z.land (Z.shiftr x 24) 0x0000000000ff0000))
    (Z.land (Z.shiftr x 40) 0x000000000000ff00))
    (Z.land (Z.shiftr x 56) 0x00000000000000ff).

Definition PRIME32_1 : Z := 2654435761.
Definition PRIME32_2 : Z := 2246822519.
Definition PRIME32_3 : Z := 3266489917.
Definition PRIME32_4 : Z := 668265263.
Definition PRIME32_5 : Z := 374761393.

Definition PRIME64_1 : Z := 11400714785074694791.
Definition PRIME64_2 : Z := 14029467366897019727.
Definition PRIME64_3 : Z := 1609587929392839161.
Definition PRIME64_4 : Z := 9650029242287828579.
Definition PRIME64_5 : Z := 2870177450012600261.

Inductive XXH_endianess := XXH_bigEndian | XXH_littleEndian.
Inductive XXH_alignment := XXH_aligned | XXH_unaligned.

(** The value of a sequence of bytes, least significant first. *)
Fixpoint le_val (bs : bytes) : Z :=
  match bs with
  | [] => 0
  | b :: bs' => bval b + 2 ^ 8 * le_val bs'
  end.

(** A load of [n] bytes at [p] by a machine of byte order [cpu]: the macros [A32]
    and [A64], and the aligned loads [*(U32 const* )ptr], [*(U64 const* )ptr]. *)
Definition load_word (cpu : XXH_endianess) (n : nat) (p : bytes) : res Z :=
  if decide (n <= length p)%nat then
    Ok match cpu with
       | XXH_littleEndian => le_val (take n p)
       | XXH_bigEndian => le_val (reverse (take n p))
       end
  else Err undefined.

Definition A32 cpu := load_word cpu 4.
Definition A64 cpu := load_word cpu 8.

Definition XXH_readLE32_align cpu (ptr : bytes) (endian : XXH_endianess)
    (align : XXH_alignment) : res Z :=
  match align, endian with
  | XXH_unaligned, XXH_littleEndian => A32 cpu ptr
  | XXH_unaligned, XXH_bigEndian => x ← A32 cpu ptr; Ok (XXH_swap32 x)
  | XXH_aligned, XXH_littleEndian => load_word cpu 4 ptr
  | XXH_aligned, XXH_bigEndian => x ← load_word cpu 4 ptr; Ok (XXH_swap32 x)
  end.

Definition XXH_readLE32 cpu ptr endian := XXH_readLE32_align cpu ptr endian XXH_unaligned.

Definition XXH_readLE64_align cpu (ptr : bytes) (endian : XXH_endianess)
    (align : XXH_alignment) : res Z :=
  match align, endian with
  | XXH_unaligned, XXH_littleEndian => A64 cpu ptr
  | XXH_unaligned, XXH_bigEndian => x ← A64 cpu ptr; Ok (XXH_swap64 x)
  | XXH_aligned, XXH_littleEndian => load_word cpu 8 ptr
  | XXH_aligned, XXH_bigEndian => x ← load_word cpu 8 ptr; Ok (XXH_swap64 x)
  end.

Definition XXH_readLE64 cpu ptr endian := XXH_readLE64_align cpu ptr endian XXH_unaligned.

(** [memcpy (dst + off, src, n)]. *)
Definition XXH_memcpy (dst : bytes) (off : nat) (src : bytes) (n : nat) : res bytes :=
  if decide (off + n <= length dst /\ n <= length src)%nat
  then Ok (take off dst ++ take n src ++ drop (off + n) dst)
  else Err undefined.

(** ** The four accumulators *)

Record lanes := Lanes { v1 : Z; v2 : Z; v3 : Z; v4 : Z }.

(** The loops of the two widths have the same shape and differ in the width of a
    load and in the round applied to an accumulator. *)
Section loops.
Context (w : nat) (rd : bytes → res Z) (round : Z → Z → Z).

(** The body of the [do ... while]: the four accumulators, [w] bytes each. *)
Definition stripe (v : lanes) (p : bytes) : res (lanes * bytes) :=
  k1 ← rd p; let p := drop w p in
  k2 ← rd p; let p := drop w p in
  k3 ← rd p; let p := drop w p in
  k4 ← rd p; let p := drop w p in
  Ok (Lanes (round (v1 v) k1) (round (v2 v) k2) (round (v3 v) k3) (round (v4 v) k4), p).

(** [do { stripe } while (p <= bEnd - 4 * w);] *)
Fixpoint do_stripes (fuel : nat) (v : lanes) (p : bytes) : res (lanes * bytes) :=
  match fuel with
  | O => Err out_of_fuel
  | S fuel =>
      '(v, p) ← stripe v p;
      if decide (4 * w <= length p)%nat then do_stripes fuel v p else Ok (v, p)
  end.

(** [while (p + w <= bEnd) { h = step (h, read (p)); p += w; }] *)
Fixpoint while_words (step : Z → Z → Z) (fuel : nat) (h : Z) (p : bytes)
    : res (Z * bytes) :=
  if decide (w <= length p)%nat then
    match fuel with
    | O => Err out_of_fuel
    | S fuel => k ← rd p; while_words step fuel (step h k) (drop w p)
    end
  else Ok (h, p).
End loops.

(** [while (p < bEnd) { h = step (h, *p); p++; }] *)
Fixpoint while_bytes (step : Z → Z → Z) (h : Z) (p : bytes) : Z :=
  match p with
  | [] => h
  | b :: p => while_bytes step (step h (bval b)) p
  end.

(** ** 32 bits *)

Definition round32 (v k : Z) : Z :=
  let v := u32 (v + u32 (k * PRIME32_2)) in
  let v := XXH_rotl32 v 13 in
  u32 (v * PRIME32_1).

Definition init32 (seed : Z) : lanes :=
  Lanes (u32 (u32 (seed + PRIME32_1) + PRIME32_2)) (u32 (seed + PRIME32_2))
        (u32 (seed + 0)) (u32 (seed - PRIME32_1)).

Definition merge32 (v : lanes) : Z :=
  u32 (XXH_rotl32 (v1 v) 1 + XXH_rotl32 (v2 v) 7 + XXH_rotl32 (v3 v) 12
       + XXH_rotl32 (v4 v) 18).

Definition tail_word32 (h k : Z) : Z :=
  let h := u32 (h + u32 (k * PRIME32_3)) in
  u32 (XXH_rotl32 h 17 * PRIME32_4).

Definition tail_byte32 (h b : Z) : Z :=
  let h := u32 (h + u32 (b * PRIME32_5)) in
  u32 (XXH_rotl32 h 11 * PRIME32_1).

Definition avalanche32 (h : Z) : Z :=
  let h := Z.lxor h (Z.shiftr h 15) in
  let h := u32 (h * PRIME32_2) in
  let h := Z.lxor h (Z.shiftr h 13) in
  let h := u32 (h * PRIME32_3) in
  Z.lxor h (Z.shiftr h 16).

Definition XXH32_endian_align cpu (input : bytes) (seed : Z) (endian : XXH_endianess)
    (align : XXH_alignment) : res Z :=
  let len := length input in
  let rd p := XXH_readLE32_align cpu p endian align in
  '(h32, p) ← (if decide (16 <= len)%nat then
                 '(v, p) ← do_stripes 4 rd round32 len (init32 seed) input;
                 Ok (merge32 v, p)
               else Ok (u32 (seed + PRIME32_5), input));
  let h32 := u32 (h32 + u32 (Z.of_nat len)) in
  '(h32, p) ← while_words 4 rd tail_word32 len h32 p;
  let h32 := while_bytes tail_byte32 h32 p in
  Ok (avalanche32 h32).

(** [input] is at the address [addr]. *)
Definition XXH32 cpu (addr : Z) (input : bytes) (seed : Z) : res Z :=
  let endian_detected := cpu in
  if decide (Z.land addr 3 = 0) then
    match endian_detected with
    | XXH_littleEndian => XXH32_endian_align cpu input seed XXH_littleEndian XXH_aligned
    | XXH_bigEndian => XXH32_endian_align cpu input seed XXH_bigEndian XXH_aligned
    end
  else
    match endian_detected with
    | XXH_littleEndian => XXH32_endian_align cpu input seed XXH_littleEndian XXH_unaligned
    | XXH_bigEndian => XXH32_endian_align cpu input seed XXH_bigEndian XXH_unaligned
    end.

(** [XXH_istate32_t] and [XXH_istate64_t] have the same fields at the two widths:
    [mem] are the bytes of [mem32] (16) or [mem64] (32). *)
Record XXH_istate := IState {
  total_len : Z;
  seed_ : Z;
  acc : lanes;
  mem : bytes;
  memsize : nat
}.

(** [XXH32_reset] leaves the buffer as it is. *)
Definition XXH32_reset (state : XXH_istate) (seed : Z) : XXH_istate :=
  IState 0 seed (init32 seed) (mem state) 0.

Definition XXH32_update_endian cpu (state : XXH_istate) (input : bytes)
    (endian : XXH_endianess) : res XXH_istate :=
  let len := length input in
  let rd p := XXH_readLE32 cpu p endian in
  let total := u64 (total_len state + Z.of_nat len) in
  if decide (u64 (Z.of_nat (memsize state) + Z.of_nat len) < 16) then
    mem' ← XXH_memcpy (mem state) (memsize state) input len;
    Ok (IState total (seed_ state) (acc state) mem' (memsize state + len))
  else
    '(v, mem', p, ms) ←
      (if decide (memsize state = 0%nat) then Ok (acc state, mem state, input, memsize state)
       else
         mem' ← XXH_memcpy (mem state) (memsize state) input (16 - memsize state);
         '(v, _) ← stripe 4 rd round32 (acc state) mem';
         Ok (v, mem', drop (16 - memsize state) input, 0%nat));
    '(v, p) ← (if decide (16 <= length p)%nat
               then do_stripes 4 rd round32 len v p else Ok (v, p));
    if decide (0 < length p)%nat then
      mem' ← XXH_memcpy mem' 0 p (length p);
      Ok (IState total (seed_ state) v mem' (length p))
    else Ok (IState total (seed_ state) v mem' ms).

Definition XXH32_update cpu state input : res XXH_istate :=
  match cpu with
  | XXH_littleEndian => XXH32_update_endian cpu state input XXH_littleEndian
  | XXH_bigEndian => XXH32_update_endian cpu state input XXH_bigEndian
  end.

Definition XXH32_digest_endian cpu (state : XXH_istate) (endian : XXH_endianess) : res Z :=
  let rd p := XXH_readLE32 cpu p endian in
  let p := take (memsize state) (mem state) in
  let h32 := if decide (16 <= total_len state) then merge32 (acc state)
             else u32 (seed_ state + PRIME32_5) in
  let h32 := u32 (h32 + u32 (total_len state)) in
  '(h32, p) ← while_words 4 rd tail_word32 (length p) h32 p;
  let h32 := while_bytes tail_byte32 h32 p in
  Ok (avalanche32 h32).

Definition XXH32_digest cpu state : res Z :=
  match cpu with
  | XXH_littleEndian => XXH32_digest_endian cpu state XXH_littleEndian
  | XXH_bigEndian => XXH32_digest_endian cpu state XXH_bigEndian
  end.

(** ** 64 bits *)

Definition round64 (v k : Z) : Z :=
  let v := u64 (v + u64 (k * PRIME64_2)) in
  let v := XXH_rotl64 v 31 in
  u64 (v * PRIME64_1).

Definition init64 (seed : Z) : lanes :=
  Lanes (u64 (u64 (seed + PRIME64_1) + PRIME64_2)) (u64 (seed + PRIME64_2))
        (u64 (seed + 0)) (u64 (seed - PRIME64_1)).

(** One of the four blocks that fold an accumulator into the hash. *)
Definition merge_lane64 (h v : Z) : Z :=
  let v := u64 (v * PRIME64_2) in
  let v := XXH_rotl64 v 31 in
  let v := u64 (v * PRIME64_1) in
  let h := Z.lxor h v in
  u64 (u64 (h * PRIME64_1) + PRIME64_4).

Definition merge64 (v : lanes) : Z :=
  let h := u64 (XXH_rotl64 (v1 v) 1 + XXH_rotl64 (v2 v) 7 + XXH_rotl64 (v3 v) 12
                + XXH_rotl64 (v4 v) 18) in
  let h := merge_lane64 h (v1 v) in
  let h := merge_lane64 h (v2 v) in
  let h := merge_lane64 h (v3 v) in
  merge_lane64 h (v4 v).

Definition tail_word64 (h k1 : Z) : Z :=
  let k1 := u64 (k1 * PRIME64_2) in
  let k1 := XXH_rotl64 k1 31 in
  let k1 := u64 (k1 * PRIME64_1) in
  let h := Z.lxor h k1 in
  u64 (u64 (XXH_rotl64 h 27 * PRIME64_1) + PRIME64_4).

Definition tail_half64 (h k : Z) : Z :=
  let h := Z.lxor h (u64 (k * PRIME64_1)) in
  u64 (u64 (XXH_rotl64 h 23 * PRIME64_2) + PRIME64_3).

Definition tail_byte64 (h b : Z) : Z :=
  let h := Z.lxor h (u64 (b * PRIME64_5)) in
  u64 (XXH_rotl64 h 11 * PRIME64_1).

Definition avalanche64 (h : Z) : Z :=
  let h := Z.lxor h (Z.shiftr h 33) in
  let h := u64 (h * PRIME64_2) in
  let h := Z.lxor h (Z.shiftr h 29) in
  let h := u64 (h * PRIME64_3) in
  Z.lxor h (Z.shiftr h 32).

(** The part after the accumulators, from [while (p+8<=bEnd)] to the end; it is
    the same text in the one-shot function and in the digest. *)
Definition finish64 (rd64 rd32 : bytes → res Z) (h64 : Z) (p : bytes) : res Z :=
  '(h64, p) ← while_words 8 rd64 tail_word64 (length p) h64 p;
  '(h64, p) ← (if decide (4 <= length p)%nat then
                 k ← rd32 p; Ok (tail_half64 h64 k, drop 4 p)
               else Ok (h64, p));
  let h64 := while_bytes tail_byte64 h64 p in
  Ok (avalanche64 h64).

Definition XXH64_endian_align cpu (input : bytes) (seed : Z) (endian : XXH_endianess)
    (align : XXH_alignment) : res Z :=
  let len := length input in
  let rd64 p := XXH_readLE64_align cpu p endian align in
  let rd32 p := XXH_readLE32_align cpu p endian align in
  '(h64, p) ← (if decide (32 <= len)%nat then
                 '(v, p) ← do_stripes 8 rd64 round64 len (init64 seed) input;
                 Ok (merge64 v, p)
               else Ok (u64 (seed + PRIME64_5), input));
  let h64 := u64 (h64 + Z.of_nat len) in
  finish64 rd64 rd32 h64 p.

Definition XXH64 cpu (addr : Z) (input : bytes) (seed : Z) : res Z :=
  let endian_detected := cpu in
  if decide (Z.land addr 7 = 0) then
    match endian_detected with
    | XXH_littleEndian => XXH64_endian_align cpu input seed XXH_littleEndian XXH_aligned
    | XXH_bigEndian => XXH64_endian_align cpu input seed XXH_bigEndian XXH_aligned
    end
  else
    match endian_detected with
    | XXH_littleEndian => XXH64_endian_align cpu input seed XXH_littleEndian XXH_unaligned
    | XXH_bigEndian => XXH64_endian_align cpu input seed XXH_bigEndian XXH_unaligned
    end.

Definition XXH64_reset (state : XXH_istate) (seed : Z) : XXH_istate :=
  IState 0 seed (init64 seed) (mem state) 0.

Definition XXH64_update_endian cpu (state : XXH_istate) (input : bytes)
    (endian : XXH_endianess) : res XXH_istate :=
  let len := length input in
  let rd p := XXH_readLE64 cpu p endian in
  let total := u64 (total_len state + Z.of_nat len) in
  if decide (u64 (Z.of_nat (memsize state) + Z.of_nat len) < 32) then
    mem' ← XXH_memcpy (mem state) (memsize state) input len;
    Ok (IState total (seed_ state) (acc state) mem' (memsize state + len))
  else
    '(v, mem', p, ms) ←
      (if decide (memsize state = 0%nat) then Ok (acc state, mem state, input, memsize state)
       else
         mem' ← XXH_memcpy (mem state) (memsize state) input (32 - memsize state);
         '(v, _) ← stripe 8 rd round64 (acc state) mem';
         Ok (v, mem', drop (32 - memsize state) input, 0%nat));
    '(v, p) ← (if decide (32 <= length p)%nat
               then do_stripes 8 rd round64 len v p else Ok (v, p));
    if decide (0 < length p)%nat then
      mem' ← XXH_memcpy mem' 0 p (length p);
      Ok (IState total (seed_ state) v mem' (length p))
    else Ok (IState total (seed_ state) v mem' ms).

Definition XXH64_update cpu state input : res XXH_istate :=
  match cpu with
  | XXH_littleEndian => XXH64_update_endian cpu state input XXH_littleEndian
  | XXH_bigEndian => XXH64_update_endian cpu state input XXH_bigEndian
  end.

Definition XXH64_digest_endian cpu (state : XXH_istate) (endian : XXH_endianess) : res Z :=
  let rd64 p := XXH_readLE64 cpu p endian in
  let rd32 p := XXH_readLE32 cpu p endian in
  let p := take (memsize state) (mem state) in
  let h64 := if decide (32 <= total_len state) then merge64 (acc state)
             else u64 (seed_ state + PRIME64_5) in
  let h64 := u64 (h64 + total_len state) in
  finish64 rd64 rd32 h64 p.

Definition XXH64_digest cpu state : res Z :=
  match cpu with
  | XXH_littleEndian => XXH64_digest_endian cpu state XXH_littleEndian
  | XXH_bigEndian => XXH64_digest_endian cpu state XXH_bigEndian
  end.

(** ** The hasher of the containers: [xxhasher] *)

Definition xxhasher_default (state : XXH_istate) : XXH_istate := XXH64_reset state 1.
Definition xxhasher_seeded (state : XXH_istate) (seed : Z) : XXH_istate :=
  XXH64_reset state seed.
Definition xxhasher_call cpu (state : XXH_istate) (key : bytes) : res XXH_istate :=
  XXH64_update cpu state key.
Definition xxhasher_result cpu (state : XXH_istate) : res Z := XXH64_digest cpu state.

(** ** Bytes, words and byte order *)

Lemma le_val_bound bs : 0 <= le_val bs < 2 ^ (8 * Z.of_nat (length bs)).
Proof.
  induction bs as [|b bs IH]; simpl length; [simpl; lia|].
  rewrite Nat2Z.inj_succ, Z.mul_succ_r, Z.pow_add_r by lia.
  cbn [le_val]. pose proof (bval_range b). nia.
Qed.

(** Bit [r] of byte [q]. *)
Lemma le_val_testbit bs q r : 0 <= r < 8 →
  Z.testbit (le_val bs) (8 * Z.of_nat q + r) = Z.testbit (bval (nth q bs x00)) r.
Proof.
  intros Hr. revert q. induction bs as [|b bs IH]; intros q.
  { cbn [le_val]. destruct q; cbn [nth]; change (bval x00) with 0; rewrite !Z.bits_0; done. }
  pose proof (bval_range b). destruct q as [|q]; cbn [nth le_val].
  - rewrite Nat2Z.inj_0, Z.mul_0_r, Z.add_0_l.
    rewrite <- (Z.mod_pow2_bits_low (bval b + _) 8 r) by lia.
    rewrite Z.mul_comm, Z.mod_add, Z.mod_small by lia. done.
  - rewrite <- IH, <- (Z.mul_comm (le_val bs)).
    replace (8 * Z.of_nat (S q) + r) with ((8 * Z.of_nat q + r) + 8) by lia.
    rewrite <- Z.div_pow2_bits by lia. f_equal.
    rewrite Z.div_add, Z.div_small by lia. lia.
Qed.

(** Two words that agree on every bit of every byte are equal. *)
Lemma byte_bits_inj x y :
  (∀ q r, 0 <= r < 8 → Z.testbit x (8 * Z.of_nat q + r) = Z.testbit y (8 * Z.of_nat q + r)) →
  x = y.
Proof.
  intros Heq. apply Z.bits_inj'. intros n Hn.
  pose proof (Z.div_mod n 8). pose proof (Z.mod_pos_bound n 8).
  pose proof (Z.div_pos n 8).
  replace n with (8 * Z.of_nat (Z.to_nat (n / 8)) + n mod 8) by lia. apply Heq. lia.
Qed.

(** Masking with the byte at position [k] keeps that byte. *)
Lemma mask_byte_testbit x (k q : nat) r : 0 <= r < 8 →
  Z.testbit (Z.land x (Z.shiftl (Z.ones 8) (8 * Z.of_nat k))) (8 * Z.of_nat q + r)
  = Z.testbit x (8 * Z.of_nat q + r) && bool_decide (q = k).
Proof.
  intros. rewrite Z.land_spec, Z.shiftl_spec by lia. f_equal.
  case_bool_decide as Hqk.
  - apply Z.ones_spec_iff; lia.
  - destruct (decide (q < k)%nat).
    + apply Z.testbit_neg_r. lia.
    + apply Z.ones_spec_high. lia.
Qed.

Lemma u32_shiftl_testbit x n i : 0 <= i < 32 → 0 <= n →
  Z.testbit (u32 (Z.shiftl x n)) i = Z.testbit x (i - n).
Proof. intros. unfold u32. rewrite Z.mod_pow2_bits_low, Z.shiftl_spec by lia. done. Qed.
Lemma u64_shiftl_testbit x n i : 0 <= i < 64 → 0 <= n →
  Z.testbit (u64 (Z.shiftl x n)) i = Z.testbit x (i - n).
Proof. intros. unfold u64. rewrite Z.mod_pow2_bits_low, Z.shiftl_spec by lia. done. Qed.

(** Decides which of the masked bytes is the one at the position looked at. *)
Ltac swap_byte :=
  repeat match goal with
  | |- context [bool_decide ?P] =>
      first [rewrite (bool_decide_eq_true_2 P) by lia | rewrite (bool_decide_eq_false_2 P) by lia]
  end;
  rewrite ?andb_false_r, ?andb_true_r, ?orb_false_r, ?orb_false_l;
  rewrite ?u32_shiftl_testbit, ?u64_shiftl_testbit, ?Z.shiftr_spec by lia;
  first [ reflexivity | f_equal; lia ].

Lemma XXH_swap32_testbit x q r : 0 <= r < 8 →
  Z.testbit (XXH_swap32 x) (8 * Z.of_nat q + r)
  = Z.testbit x (8 * Z.of_nat (3 - q) + r) && bool_decide (q < 4)%nat.
Proof.
  intros Hr. unfold XXH_swap32.
  change 0xff000000 with (Z.shiftl (Z.ones 8) (8 * Z.of_nat 3)).
  change 0x00ff0000 with (Z.shiftl (Z.ones 8) (8 * Z.of_nat 2)).
  change 0x0000ff00 with (Z.shiftl (Z.ones 8) (8 * Z.of_nat 1)).
  change 0x000000ff with (Z.shiftl (Z.ones 8) (8 * Z.of_nat 0)).
  rewrite !Z.lor_spec, !mask_byte_testbit by done.
  destruct q as [|[|[|[|q]]]]; swap_byte.
Qed.

Lemma XXH_swap64_testbit x q r : 0 <= r < 8 →
  Z.testbit (XXH_swap64 x) (8 * Z.of_nat q + r)
  = Z.testbit x (8 * Z.of_nat (7 - q) + r) && bool_decide (q < 8)%nat.
Proof.
  intros Hr. unfold XXH_swap64.
  change 0xff00000000000000 with (Z.shiftl (Z.ones 8) (8 * Z.of_nat 7)).
  change 0x00ff000000000000 with (Z.shiftl (Z.ones 8) (8 * Z.of_nat 6)).
  change 0x0000ff0000000000 with (Z.shiftl (Z.ones 8) (8 * Z.of_nat 5)).
  change 0x000000ff00000000 with (Z.shiftl (Z.ones 8) (8 * Z.of_nat 4)).
  change 0x00000000ff000000 with (Z.shiftl (Z.ones 8) (8 * Z.of_nat 3)).
  change 0x0000000000ff0000 with (Z.shiftl (Z.ones 8) (8 * Z.of_nat 2)).
  change 0x000000000000ff00 with (Z.shiftl (Z.ones 8) (8 * Z.of_nat 1)).
  change 0x00000000000000ff with (Z.shiftl (Z.ones 8) (8 * Z.of_nat 0)).
  rewrite !Z.lor_spec, !mask_byte_testbit by done.
  destruct q as [|[|[|[|[|[|[|[|q]]]]]]]]; swap_byte.
Qed.

Lemma nth_reverse_bytes (bs : bytes) q : (q < length bs)%nat →
  nth q (reverse bs) x00 = nth (length bs - 1 - q) bs x00.
Proof.
  intros. unfold reverse. rewrite <- rev_alt, rev_nth by done. f_equal. lia.
Qed.

(** The word a big-endian machine loads, byte-swapped, is the little-endian value. *)
Lemma swap_load_word (n : nat) (swap : Z → Z) (bs : bytes) :
  (∀ x q r, 0 <= r < 8 →
     Z.testbit (swap x) (8 * Z.of_nat q + r)
     = Z.testbit x (8 * Z.of_nat (n - 1 - q) + r) && bool_decide (q < n)%nat) →
  length bs = n → swap (le_val (reverse bs)) = le_val bs.
Proof.
  intros Hswap Hn. apply byte_bits_inj. intros q r Hr.
  rewrite Hswap, !le_val_testbit by done. case_bool_decide as Hq.
  - rewrite andb_true_r, nth_reverse_bytes by lia.
    replace (length bs - 1 - (n - 1 - q))%nat with q by lia. done.
  - rewrite andb_false_r, (nth_overflow bs) by lia. symmetry. apply Z.bits_0.
Qed.

(** A read in the machine's own byte order gives the little-endian value of the
    next bytes, on either kind of machine and aligned or not. *)
Lemma readLE32_ok cpu align p : (4 <= length p)%nat →
  XXH_readLE32_align cpu p cpu align = Ok (le_val (take 4 p)).
Proof.
  intros. unfold XXH_readLE32_align, A32, load_word. rewrite decide_True by done.
  destruct cpu, align; cbn; try done; f_equal;
    (apply (swap_load_word 4); [intros; by apply XXH_swap32_testbit|rewrite length_take; lia]).
Qed.

Lemma readLE64_ok cpu align p : (8 <= length p)%nat →
  XXH_readLE64_align cpu p cpu align = Ok (le_val (take 8 p)).
Proof.
  intros. unfold XXH_readLE64_align, A64, load_word. rewrite decide_True by done.
  destruct cpu, align; cbn; try done; f_equal;
    (apply (swap_load_word 8); [intros; by apply XXH_swap64_testbit|rewrite length_take; lia]).
Qed.

(** ** What the loops compute *)

(** The value of the next [w] bytes. *)
Definition word (w : nat) (p : bytes) : Z := le_val (take w p).

Section loops_spec.
Context (w : nat) (round : Z → Z → Z).
Notation s := (4 * w)%nat.

Definition stripe_spec (v : lanes) (p : bytes) : lanes :=
  Lanes (round (v1 v) (word w p)) (round (v2 v) (word w (drop w p)))
        (round (v3 v) (word w (drop (w + w) p)))
        (round (v4 v) (word w (drop (w + w + w) p))).

(** The accumulators after [n] stripes. *)
Fixpoint feed (n : nat) (v : lanes) (p : bytes) : lanes :=
  match n with O => v | S n => feed n (stripe_spec v p) (drop s p) end.

(** The hash after [n] words. *)
Fixpoint feed_words (step : Z → Z → Z) (n : nat) (h : Z) (p : bytes) : Z :=
  match n with O => h | S n => feed_words step n (step h (word w p)) (drop w p) end.

(** What is left of [p] after the whole blocks of [n] bytes. *)
Definition leftover (n : nat) (p : bytes) : bytes := drop (n * (length p / n)) p.

Lemma div_step n m : (0 < n)%nat → (n <= m)%nat → (m / n = S ((m - n) / n))%nat.
Proof.
  intros. replace m with (1 * n + (m - n))%nat at 1 by lia.
  rewrite Nat.div_add_l; lia.
Qed.

Lemma leftover_step n p : (0 < n)%nat → (n <= length p)%nat →
  leftover n (drop n p) = leftover n p.
Proof.
  intros. unfold leftover. rewrite drop_drop, length_drop, (div_step n (length p)) by done.
  f_equal. lia.
Qed.

Lemma leftover_short n p : (length p < n)%nat → leftover n p = p.
Proof. intros. unfold leftover. rewrite Nat.div_small, Nat.mul_0_r; done. Qed.

Lemma length_leftover n p : (0 < n)%nat → length (leftover n p) = (length p mod n)%nat.
Proof.
  intros. unfold leftover. rewrite length_drop. pose proof (Nat.div_mod (length p) n). lia.
Qed.

Lemma leftover_drop n k p : (0 < n)%nat → (n * k <= length p)%nat →
  leftover n (drop (n * k) p) = leftover n p.
Proof.
  intros Hn. revert p. induction k as [|k IH]; intros p Hp.
  { by rewrite Nat.mul_0_r, drop_0. }
  rewrite Nat.mul_succ_r, Nat.add_comm, <- drop_drop, IH by (rewrite length_drop; lia).
  apply leftover_step; lia.
Qed.

Lemma feed_split n m v p : feed (n + m) v p = feed m (feed n v p) (drop (s * n) p).
Proof.
  revert v p. induction n as [|n IH]; intros v p; cbn [feed Nat.add].
  - by rewrite Nat.mul_0_r, drop_0.
  - rewrite IH, drop_drop. do 2 f_equal. lia.
Qed.

Lemma word_take p k : (w <= k)%nat → word w (take k p) = word w p.
Proof. intros. unfold word. rewrite take_take. do 2 f_equal. lia. Qed.

Lemma stripe_spec_take v p k : (s <= k)%nat →
  stripe_spec v (take k p) = stripe_spec v p.
Proof.
  intros. unfold stripe_spec. rewrite !skipn_firstn_comm, !word_take by lia. done.
Qed.

(** A stripe only looks at its own bytes, so appending data does not change what
    was computed. *)
Lemma feed_app n v p q : (s * n <= length p)%nat → feed n v (p ++ q) = feed n v p.
Proof.
  revert v p. induction n as [|n IH]; intros v p Hn; cbn [feed]; [done|].
  rewrite drop_app_le by lia. rewrite IH by (rewrite length_drop; lia).
  rewrite <- (stripe_spec_take v (p ++ q) s), take_app_le, stripe_spec_take by lia. done.
Qed.

Context (rd : bytes → res Z).
Hypothesis rd_ok : ∀ p, (w <= length p)%nat → rd p = Ok (word w p).
Hypothesis w_pos : (0 < w)%nat.

Lemma stripe_ok v p : (s <= length p)%nat →
  stripe w rd round v p = Ok (stripe_spec v p, drop s p).
Proof.
  intros. unfold stripe. do 4 (rewrite rd_ok by (rewrite ?length_drop; lia); cbn [mbind res_bind]).
  rewrite !drop_drop. replace (w + w + w + w)%nat with s by lia. done.
Qed.

Lemma do_stripes_ok fuel v p : (s <= length p)%nat → (length p <= fuel)%nat →
  do_stripes w rd round fuel v p = Ok (feed (length p / s) v p, leftover s p).
Proof.
  revert v p. induction fuel as [|fuel IH]; intros v p Hs Hf; [lia|].
  cbn [do_stripes]. rewrite stripe_ok by done. cbn [mbind res_bind].
  rewrite (div_step s (length p)) by lia. cbn [feed]. case_decide as Hd.
  - rewrite IH by (rewrite length_drop in *; lia).
    rewrite length_drop, leftover_step by lia. done.
  - rewrite length_drop in Hd. rewrite Nat.div_small by lia. cbn [feed].
    rewrite <- leftover_step, leftover_short by (rewrite ?length_drop; lia). done.
Qed.

Lemma while_words_ok step fuel h p : (length p <= fuel)%nat →
  while_words w rd step fuel h p = Ok (feed_words step (length p / w) h p, leftover w p).
Proof.
  revert h p. induction fuel as [|fuel IH]; intros h p Hf; cbn [while_words]; case_decide.
  - lia.
  - rewrite Nat.div_small, leftover_short by lia. done.
  - rewrite rd_ok by done. cbn [mbind res_bind].
    rewrite IH by (rewrite length_drop; lia).
    rewrite leftover_step, (div_step w (length p)), length_drop by done. done.
  - rewrite Nat.div_small, leftover_short by lia. done.
Qed.
End loops_spec.

(** ** Buffering

    [streamed st bs]: the state [st] has been fed exactly the bytes [bs], however
    they were cut: the accumulators hold the whole stripes of [bs] and the buffer
    holds the rest. *)

Section streaming.
Context (w : nat) (round : Z → Z → Z) (rd : bytes → res Z) (v0 : lanes) (seed : Z).
Notation s := (4 * w)%nat.
Hypothesis rd_ok : ∀ p, (w <= length p)%nat → rd p = Ok (word w p).
Hypothesis w_pos : (0 < w)%nat.

Record streamed (st : XXH_istate) (bs : bytes) : Prop := {
  st_total : total_len st = Z.of_nat (length bs);
  st_seed : seed_ st = seed;
  st_acc : acc st = feed w round (length bs / s) v0 bs;
  st_mem : length (mem st) = s;
  st_memsize : memsize st = (length bs mod s)%nat;
  st_rest : take (memsize st) (mem st) = leftover s bs
}.

(** The text shared by [XXH32_update_endian] and [XXH64_update_endian]. *)
Definition update_w (state : XXH_istate) (input : bytes) : res XXH_istate :=
  let len := length input in
  let total := u64 (total_len state + Z.of_nat len) in
  if decide (u64 (Z.of_nat (memsize state) + Z.of_nat len) < Z.of_nat s) then
    mem' ← XXH_memcpy (mem state) (memsize state) input len;
    Ok (IState total (seed_ state) (acc state) mem' (memsize state + len))
  else
    '(v, mem', p, ms) ←
      (if decide (memsize state = 0%nat) then Ok (acc state, mem state, input, memsize state)
       else
         mem' ← XXH_memcpy (mem state) (memsize state) input (s - memsize state);
         '(v, _) ← stripe w rd round (acc state) mem';
         Ok (v, mem', drop (s - memsize state) input, 0%nat));
    '(v, p) ← (if decide (s <= length p)%nat
               then do_stripes w rd round len v p else Ok (v, p));
    if decide (0 < length p)%nat then
      mem' ← XXH_memcpy mem' 0 p (length p);
      Ok (IState total (seed_ state) v mem' (length p))
    else Ok (IState total (seed_ state) v mem' ms).

Lemma memcpy_ok dst off src n : (off + n <= length dst)%nat → (n <= length src)%nat →
  XXH_memcpy dst off src n = Ok (take off dst ++ take n src ++ drop (off + n) dst).
Proof. intros. unfold XXH_memcpy. by rewrite decide_True. Qed.

Lemma stripes_ok fuel v p : (length p <= fuel)%nat →
  (if decide (s <= length p)%nat then do_stripes w rd round fuel v p else Ok (v, p))
  = Ok (feed w round (length p / s) v p, leftover s p).
Proof.
  intros. case_decide.
  - by apply do_stripes_ok.
  - rewrite Nat.div_small, leftover_short by lia. done.
Qed.

(** [t] is what the state has not yet turned into stripes: the buffer and the new
    input. *)
Lemma streamed_extend st bs x st' (t := leftover s bs ++ x) :
  streamed st bs →
  total_len st' = Z.of_nat (length (bs ++ x)) → seed_ st' = seed →
  acc st' = feed w round (length t / s) (acc st) t →
  length (mem st') = s → memsize st' = (length t mod s)%nat →
  take (memsize st') (mem st') = leftover s t →
  streamed st' (bs ++ x).
Proof.
  intros [_ _ Hacc _ _ _] Htot Hseed Hacc' Hmem Hms Hrest.
  set (k := (length bs / s)%nat) in *.
  assert (Hle : (s * k <= length bs)%nat)
    by (pose proof (Nat.div_mod (length bs) s); lia).
  assert (Ht : t = drop (s * k) (bs ++ x)).
  { subst t. unfold leftover. fold k. by rewrite drop_app_le. }
  assert (Hlen : length (bs ++ x) = (k * s + length t)%nat).
  { rewrite Ht, length_drop, length_app. lia. }
  constructor; try done.
  - rewrite Hlen, Nat.div_add_l, feed_split, Hacc', Hacc, Ht by lia.
    by rewrite (feed_app w round k v0 bs x).
  - rewrite Hms, Hlen, Nat.add_comm, Nat.Div0.mod_add. done.
  - rewrite Hrest, Ht. apply leftover_drop; [lia|]. rewrite length_app. lia.
Qed.

Lemma streamed_room st bs : streamed st bs → (memsize st < s)%nat.
Proof. intros []. rewrite st_memsize0. apply Nat.mod_upper_bound. lia. Qed.

(** Completing the buffer to a stripe. *)
Lemma refill_ok st bs x : streamed st bs → (s <= memsize st + length x)%nat →
  ∃ v mem',
    (if decide (memsize st = 0%nat) then Ok (acc st, mem st, x, memsize st)
     else
       mem' ← XXH_memcpy (mem st) (memsize st) x (s - memsize st);
       '(v, _) ← stripe w rd round (acc st) mem';
       Ok (v, mem', drop (s - memsize st) x, 0%nat))
    = Ok (v, mem', drop (if decide (memsize st = 0%nat) then 0 else s - memsize st) x, 0%nat)
    ∧ length mem' = s
    ∧ let t := leftover s bs ++ x in
      let p := drop (if decide (memsize st = 0%nat) then 0 else s - memsize st) x in
      feed w round (length p / s) v p = feed w round (length t / s) (acc st) t
      ∧ leftover s p = leftover s t.
Proof.
  intros Hst Hx. pose proof (streamed_room _ _ Hst) as Hroom.
  destruct Hst as [_ _ _ Hmem Hms Hrest]. cbn zeta. rewrite <- Hrest. case_decide as H0.
  { exists (acc st), (mem st). rewrite H0, drop_0, take_0. done. }
  rewrite memcpy_ok by lia. cbn [mbind res_bind].
  replace (memsize st + (s - memsize st))%nat with s by lia.
  rewrite drop_ge, app_nil_r by lia.
  set (buf := take (memsize st) (mem st) ++ take (s - memsize st) x).
  set (t := take (memsize st) (mem st) ++ x).
  assert (Hhd : length (take (memsize st) (mem st)) = memsize st)
    by (rewrite length_take; lia).
  assert (Hbuf : buf = take s t) by (subst buf t; rewrite take_app, Hhd, take_take;
    do 2 f_equal; lia).
  assert (Htl : drop (s - memsize st) x = drop s t)
    by (subst t; rewrite drop_app_ge, Hhd by lia; done).
  assert (Hlt : (s <= length t)%nat) by (subst t; rewrite length_app; lia).
  assert (Hlb : length buf = s) by (rewrite Hbuf, length_take; lia).
  rewrite stripe_ok by (done || lia). cbn [mbind res_bind].
  exists (stripe_spec w round (acc st) t), buf.
  rewrite Htl, Hbuf, stripe_spec_take by lia. rewrite Hbuf in Hlb.
  split_and!; [done..| |].
  - rewrite length_drop, (div_step s (length t)) by lia. done.
  - apply leftover_step; lia.
Qed.

(** Every update succeeds, within the buffer, and the state has then been fed the
    concatenation. *)
Lemma update_w_ok st bs x : streamed st bs → Z.of_nat (length (bs ++ x)) < 2 ^ 64 →
  ∃ st', update_w st x = Ok st' ∧ streamed st' (bs ++ x).
Proof.
  intros Hst Hlen. rewrite length_app in Hlen. pose proof (streamed_room _ _ Hst) as Hroom.
  pose proof Hst as [Htot Hseed _ Hmem Hms Hrest].
  assert (Hmsle : (memsize st <= length bs)%nat) by (rewrite Hms; apply Nat.Div0.mod_le).
  assert (Htot' : u64 (total_len st + Z.of_nat (length x)) = Z.of_nat (length (bs ++ x))).
  { rewrite Htot, length_app, Nat2Z.inj_add. apply u64_small. lia. }
  unfold update_w. rewrite Htot', u64_small by lia. case_decide as Hfit.
  - rewrite memcpy_ok by lia. cbn [mbind res_bind]. eexists; split; [reflexivity|].
    assert (Ht : length (leftover s bs ++ x) = (memsize st + length x)%nat)
      by (rewrite <- Hrest, length_app, length_take; lia).
    apply (streamed_extend _ _ _ _ Hst); cbn [total_len seed_ acc mem memsize];
      try done.
    + rewrite Ht, Nat.div_small by lia. done.
    + rewrite !length_app, !length_take, length_drop. lia.
    + rewrite Ht, Nat.mod_small; lia.
    + rewrite (leftover_short s (leftover s bs ++ x)), <- Hrest by (rewrite Ht; lia).
      rewrite app_assoc, take_app_le by (rewrite length_app, !length_take; lia).
      rewrite (take_ge x), take_ge by (rewrite ?length_app, ?length_take; lia). done.
  - destruct (refill_ok st bs x Hst) as (v & mem' & -> & Hmem' & Hfeed & Hleft); [lia|].
    cbn [mbind res_bind]. rewrite stripes_ok by (rewrite length_drop; lia).
    cbn [mbind res_bind]. rewrite Hfeed, Hleft.
    assert (Hll : (length (leftover s (leftover s bs ++ x)) < s)%nat)
      by (rewrite length_leftover by lia; apply Nat.mod_upper_bound; lia).
    clear Hfeed Hleft. case_decide as Hp.
    + rewrite memcpy_ok by lia. cbn [mbind res_bind]. eexists; split; [reflexivity|].
      rewrite take_0, (take_ge (leftover _ _)) by done. cbn [app Nat.add].
      apply (streamed_extend _ _ _ _ Hst); cbn [total_len seed_ acc mem memsize];
      try done.
      * rewrite length_app, length_drop. lia.
      * by rewrite length_leftover by lia.
      * by rewrite take_app_length.
    + eexists; split; [reflexivity|]. apply (streamed_extend _ _ _ _ Hst); cbn [total_len seed_ acc mem memsize];
      try done.
      * rewrite <- length_leftover by lia. lia.
      * rewrite take_0. symmetry. apply nil_length_inv. lia.
Qed.

(** A sequence of updates. *)
Fixpoint updates (update : XXH_istate → bytes → res XXH_istate) (st : XXH_istate)
    (xs : list bytes) : res XXH_istate :=
  match xs with
  | [] => Ok st
  | x :: xs => st ← update st x; updates update st xs
  end.

Lemma updates_ok update st bs xs :
  (∀ st x, update st x = update_w st x) →
  streamed st bs → Z.of_nat (length (bs ++ concat xs)) < 2 ^ 64 →
  ∃ st', updates update st xs = Ok st' ∧ streamed st' (bs ++ concat xs).
Proof.
  intros Hup. revert st bs. induction xs as [|x xs IH]; intros st bs Hst Hlen; cbn.
  { exists st. by rewrite app_nil_r. }
  cbn in Hlen. rewrite app_assoc in Hlen |- *. rewrite Hup.
  destruct (update_w_ok st bs x Hst) as (st1 & -> & Hst1);
    [rewrite length_app in Hlen; lia|].
  by apply IH.
Qed.
End streaming.

(** ** The specifications *)

Definition xxh32_spec (seed : Z) (bs : bytes) : Z :=
  let h := if decide (16 <= length bs)%nat
           then merge32 (feed 4 round32 (length bs / 16) (init32 seed) bs)
           else u32 (seed + PRIME32_5) in
  let h := u32 (h + u32 (Z.of_nat (length bs))) in
  let p := leftover 16 bs in
  let h := feed_words 4 tail_word32 (length p / 4) h p in
  avalanche32 (while_bytes tail_byte32 h (leftover 4 p)).

(** The end of the 64-bit hash: whole words, then a half word, then bytes. *)
Definition finish64_spec (h : Z) (p : bytes) : Z :=
  let h := feed_words 8 tail_word64 (length p / 8) h p in
  let p := leftover 8 p in
  avalanche64
    (if decide (4 <= length p)%nat
     then while_bytes tail_byte64 (tail_half64 h (word 4 p)) (drop 4 p)
     else while_bytes tail_byte64 h p).

Definition xxh64_spec (seed : Z) (bs : bytes) : Z :=
  let h := if decide (32 <= length bs)%nat
           then merge64 (feed 8 round64 (length bs / 32) (init64 seed) bs)
           else u64 (seed + PRIME64_5) in
  let h := u64 (h + Z.of_nat (length bs)) in
  finish64_spec h (leftover 32 bs).

Lemma finish64_ok rd64 rd32 h p :
  (∀ p, (8 <= length p)%nat → rd64 p = Ok (word 8 p)) →
  (∀ p, (4 <= length p)%nat → rd32 p = Ok (word 4 p)) →
  finish64 rd64 rd32 h p = Ok (finish64_spec h p).
Proof.
  intros H64 H32. unfold finish64, finish64_spec.
  rewrite (while_words_ok 8) by (done || lia). cbn [mbind res_bind].
  case_decide; [rewrite H32 by done|]; done.
Qed.

Lemma XXH32_endian_align_ok cpu input seed align :
  XXH32_endian_align cpu input seed cpu align = Ok (xxh32_spec seed input).
Proof.
  unfold XXH32_endian_align, xxh32_spec.
  pose proof (fun p H => readLE32_ok cpu align p H) as Hrd.
  case_decide.
  - rewrite (do_stripes_ok 4) by (done || lia). cbn [mbind res_bind].
    rewrite (while_words_ok 4 _ Hrd)
      by (unfold leftover; rewrite ?length_drop; lia). done.
  - cbn [mbind res_bind]. rewrite (while_words_ok 4 _ Hrd) by lia.
    by rewrite (leftover_short 16) by lia.
Qed.

Lemma XXH64_endian_align_ok cpu input seed align :
  XXH64_endian_align cpu input seed cpu align = Ok (xxh64_spec seed input).
Proof.
  unfold XXH64_endian_align, xxh64_spec. case_decide.
  - rewrite (do_stripes_ok 8); [|intros; by apply readLE64_ok|lia..].
    cbn [mbind res_bind].
    apply finish64_ok; intros; [by apply readLE64_ok|by apply readLE32_ok].
  - cbn [mbind res_bind]. rewrite (leftover_short 32) by lia.
    apply finish64_ok; intros; [by apply readLE64_ok|by apply readLE32_ok].
Qed.

Lemma streamed_reset w round v0 seed (m : bytes) : length m = (4 * w)%nat →
  streamed w round v0 seed (IState 0 seed v0 m 0) [].
Proof.
  intros. constructor; cbn [total_len seed_ acc mem memsize length]; try done.
  - by rewrite Nat.Div0.div_0_l.
  - by rewrite Nat.Div0.mod_0_l.
  - unfold leftover. by rewrite drop_nil, take_0.
Qed.

Lemma XXH32_digest_ok cpu seed st bs :
  streamed 4 round32 (init32 seed) seed st bs →
  XXH32_digest cpu st = Ok (xxh32_spec seed bs).
Proof.
  intros [Htot Hseed Hacc _ _ Hrest].
  change (4 * 4)%nat with 16%nat in *.
  assert (Hd : XXH32_digest cpu st = XXH32_digest_endian cpu st cpu) by by destruct cpu.
  rewrite Hd. unfold XXH32_digest_endian, xxh32_spec. rewrite Hrest.
  rewrite (while_words_ok 4); [|intros; by apply readLE32_ok|lia..].
  cbn [mbind res_bind]. rewrite Htot, Hseed, Hacc.
  repeat case_decide; lia || done.
Qed.

Lemma XXH64_digest_ok cpu seed st bs :
  streamed 8 round64 (init64 seed) seed st bs →
  XXH64_digest cpu st = Ok (xxh64_spec seed bs).
Proof.
  intros [Htot Hseed Hacc _ _ Hrest].
  change (4 * 8)%nat with 32%nat in *.
  assert (Hd : XXH64_digest cpu st = XXH64_digest_endian cpu st cpu) by by destruct cpu.
  rewrite Hd. unfold XXH64_digest_endian, xxh64_spec. rewrite Hrest.
  rewrite finish64_ok; [|intros; by apply readLE64_ok|intros; by apply readLE32_ok].
  rewrite Htot, Hseed, Hacc. do 2 f_equal. repeat case_decide; lia || done.
Qed.

Lemma XXH32_oneshot_ok cpu addr input seed :
  XXH32 cpu addr input seed = Ok (xxh32_spec seed input).
Proof. unfold XXH32. case_decide; destruct cpu; apply XXH32_endian_align_ok. Qed.

Lemma XXH64_oneshot_ok cpu addr input seed :
  XXH64 cpu addr input seed = Ok (xxh64_spec seed input).
Proof. unfold XXH64. case_decide; destruct cpu; apply XXH64_endian_align_ok. Qed.

(** ** Theorems *)

(** The one-shot hashes read only inside the input and compute the byte-order-free
    specification, whatever the machine's byte order and the alignment of the input. *)
Theorem xxh_oneshot_portable cpu addr input seed :
  XXH32 cpu addr input seed = Ok (xxh32_spec seed input)
  ∧ XXH64 cpu addr input seed = Ok (xxh64_spec seed input).
Proof. split; [apply XXH32_oneshot_ok|apply XXH64_oneshot_ok]. Qed.

(** Feeding any sequence of pieces to the 32-bit hash stays inside its 16-byte buffer
    and yields the one-shot hash of their concatenation, on little- and big-endian
    machines alike. *)
Theorem xxh32_streaming cpu cpu' addr st0 seed (xs : list bytes)
    (Hmem : length (mem st0) = 16%nat)
    (Hlen : Z.of_nat (length (concat xs)) < 2 ^ 64) :
  ∃ st h, updates (XXH32_update cpu) (XXH32_reset st0 seed) xs = Ok st
        ∧ XXH32_digest cpu st = Ok h
        ∧ XXH32 cpu' addr (concat xs) seed = Ok h.
Proof.
  destruct (updates_ok 4 round32 (λ p, XXH_readLE32 cpu p cpu) (init32 seed) seed)
    with (update := XXH32_update cpu) (st := XXH32_reset st0 seed) (bs := @nil byte) (xs := xs)
    as (st & Hst & Hs).
  - intros. by apply readLE32_ok.
  - lia.
  - intros. by destruct cpu.
  - by apply streamed_reset.
  - done.
  - exists st, (xxh32_spec seed (concat xs)). split_and!; [done| |apply XXH32_oneshot_ok].
    by apply XXH32_digest_ok.
Qed.

(** C27: Feeding any sequence of pieces to the 64-bit hasher stays inside its 32-byte
    buffer and yields the one-shot hash of their concatenation, on little- and big-
    endian machines alike, whatever the buffer held before the reset. *)
Theorem xxhasher_streaming cpu cpu' addr st0 seed (xs : list bytes)
    (Hmem : length (mem st0) = 32%nat)
    (Hlen : Z.of_nat (length (concat xs)) < 2 ^ 64) :
  ∃ st h, updates (xxhasher_call cpu) (xxhasher_seeded st0 seed) xs = Ok st
        ∧ xxhasher_result cpu st = Ok h
        ∧ XXH64 cpu' addr (concat xs) seed = Ok h
        ∧ (seed = 1 → updates (xxhasher_call cpu) (xxhasher_default st0) xs = Ok st).
Proof.
  destruct (updates_ok 8 round64 (λ p, XXH_readLE64 cpu p cpu) (init64 seed) seed)
    with (update := XXH64_update cpu) (st := XXH64_reset st0 seed) (bs := @nil byte) (xs := xs)
    as (st & Hst & Hs).
  - intros. by apply readLE64_ok.
  - lia.
  - intros. by destruct cpu.
  - by apply streamed_reset.
  - done.
  - exists st, (xxh64_spec seed (concat xs)).
    split_and!; [done|by apply XXH64_digest_ok|apply XXH64_oneshot_ok|by intros ->].
Qed.

(** The published test vectors of the two hashes. *)
Example xxh_test_vectors :
  XXH32 XXH_littleEndian 0 [] 0 = Ok 0x02CC5D05
  ∧ XXH32 XXH_bigEndian 1 [x61; x62; x63] 0 = Ok 0x32D153FF
  ∧ XXH64 XXH_littleEndian 0 [] 0 = Ok 0xEF46DB3751D8E999
  ∧ XXH64 XXH_bigEndian 3 [x61; x62; x63] 0 = Ok 0x44BC2CF5AD770999.
Proof. vm_compute. done. Qed.

Definition demo_chunks : list bytes :=
  [[x61; x62; x63]; repeat x64 40; []; repeat x65 21; [x00]].

Lemma xxh32_streaming_witness :
  ∃ st h, updates (XXH32_update XXH_bigEndian)
            (XXH32_reset (IState 7 7 (Lanes 0 0 0 0) (repeat xff 16) 5) 9) demo_chunks = Ok st
        ∧ XXH32_digest XXH_bigEndian st = Ok h
        ∧ XXH32 XXH_littleEndian 0 (concat demo_chunks) 9 = Ok h.
Proof. apply (xxh32_streaming XXH_bigEndian XXH_littleEndian 0); vm_compute; reflexivity. Defined.

Lemma xxhasher_streaming_witness :
  ∃ st h, updates (xxhasher_call XXH_bigEndian)
            (xxhasher_seeded (IState 7 7 (Lanes 0 0 0 0) (repeat xff 32) 5) 1) demo_chunks = Ok st
        ∧ xxhasher_result XXH_bigEndian st = Ok h
        ∧ XXH64 XXH_littleEndian 0 (concat demo_chunks) 1 = Ok h
        ∧ (1 = 1 → updates (xxhasher_call XXH_bigEndian)
            (xxhasher_default (IState 7 7 (Lanes 0 0 0 0) (repeat xff 32) 5)) demo_chunks = Ok st).
Proof. apply (xxhasher_streaming XXH_bigEndian XXH_littleEndian 0); vm_compute; reflexivity. Defined.
