(* ===== verification/Varint.v ===== *)
(** * Variable-length integers of the node store ([nodestore/impl/varint.h])

    A [std::size_t] is written as digits in base 127, least significant first, with the
    high bit of a byte saying that another follows. *)

From S2P Require Import Prelude Bytes.
Local Open Scope Z_scope.

(** ** The functions *)

(** [varint_traits<std::size_t>::max] *)
Definition varint_max : nat := 10.

(** The loops of [write_varint] and [size_varint] take a bound on their rounds. *)
Fixpoint write_loop (fuel : nat) (v : Z) : res bytes :=
  match fuel with
  | O => Err out_of_fuel
  | S fuel =>
      let d := v mod 127 in
      let v := v / 127 in
      if negb (v =? 0) then
        rest ← write_loop fuel v;
        Ok (byte_of (Z.lor d 0x80) :: rest)
      else Ok [byte_of d]
  end.
Definition write_varint (v : Z) : res bytes := write_loop varint_max v.

Fixpoint size_loop (fuel : nat) (v n : Z) : res Z :=
  match fuel with
  | O => Err out_of_fuel
  | S fuel =>
      let v := v / 127 in
      let n := n + 1 in
      if negb (v =? 0) then size_loop fuel v n else Ok n
  end.
Definition size_varint (v : Z) : res Z := size_loop varint_max v 0.

Definition continued (b : byte) : bool := negb (Z.land (bval b) 0x80 =? 0).

(** The first loop of [read_varint]: [p] is what is left of the buffer at [n]. *)
Fixpoint scan_varint (p : bytes) (n buflen : nat) : res (option nat) :=
  match p with
  | [] => Err undefined
  | b :: p =>
      if continued b then
        let n := S n in
        if Nat.leb buflen n then Ok None else scan_varint p n buflen
      else Ok (Some n)
  end.

(** The second loop, over the bytes from the last to the first: [inr] when it ends,
    [inl] on overflow, with the value of [t]. *)
Fixpoint sum_varint (p : bytes) (t : Z) : Z + Z :=
  match p with
  | [] => inr t
  | d :: p =>
      let t0 := t in
      let t := u64 (t * 127) in
      let t := u64 (t + Z.land (bval d) 0x7f) in
      if t <=? t0 then inl t else sum_varint p t
  end.

(** Bytes consumed (0 on error) and the value left in [t]. *)
Definition read_varint (buf : bytes) : res (nat * Z) :=
  let buflen := length buf in
  on ← scan_varint buf 0 buflen;
  match on with
  | None => Ok (0%nat, 0)
  | Some n =>
      let n := S n in
      if Nat.ltb buflen n then Ok (0%nat, 0)
      else if Nat.eqb n 1 && bool_decide (nth 0 buf x00 = x00) then Ok (1%nat, 0)
      else match sum_varint (reverse (take n buf)) 0 with
           | inl t => Ok (0%nat, t)
           | inr t => Ok (n, t)
           end
  end.

(** [read<varint> (is, u)]: the bytes are taken from the stream one by one, and the result
    of [read_varint] is not looked at. *)
Fixpoint take_varint (fuel : nat) (ins : bytes) : res (bytes * bytes) :=
  match fuel with
  | O => Err out_of_fuel
  | S fuel =>
      '(p, ins) ← is_data 1 ins;
      b ← deref (head p);
      if continued b then
        '(q, ins) ← take_varint fuel ins;
        Ok (b :: q, ins)
      else Ok ([b], ins)
  end.
Definition stream_read_varint (ins : bytes) : res (Z * bytes) :=
  '(p, ins) ← take_varint (S (length ins)) ins;
  '(_, u) ← read_varint p;
  Ok (u, ins).

(** [write<varint> (os, t)] *)
Definition stream_write_varint (t : Z) (os : ostream) : res ostream :=
  n ← size_varint t;
  p ← write_varint t;
  assert_ (Z.of_nat (length p) =? n);;
  os_put p os.

(** ** Reading what was written *)

Lemma continued_spec b : continued b = (128 <=? bval b).
Proof. by destruct b. Qed.
Lemma land_7f b : Z.land (bval b) 0x7f = bval b mod 128.
Proof. change 0x7f with (Z.ones 7). by rewrite Z.land_ones. Qed.

Lemma low_digit v : bval (byte_of (v mod 127)) = v mod 127.
Proof. rewrite bval_byte_of. apply Z.mod_small. pose proof (Z.mod_pos_bound v 127 eq_refl). lia. Qed.
Lemma high_digit v : bval (byte_of (Z.lor (v mod 127) 0x80)) = v mod 127 + 128.
Proof.
  pose proof (Z.mod_pos_bound v 127 eq_refl).
  change (Z.lor (v mod 127) 0x80) with (Z.lor (v mod 127) (Z.shiftl 1 7)).
  rewrite lor_shiftl_add, bval_byte_of by lia. rewrite Z.mod_small; lia.
Qed.

Lemma sum_app p q t :
  sum_varint (p ++ q) t = match sum_varint p t with inr t => sum_varint q t | inl t => inl t end.
Proof.
  revert t. induction p as [|d p IH]; intros t; [done|]. cbn [app sum_varint].
  case_match; [done|apply IH].
Qed.

(** A digit put below a value. *)
Lemma sum_digit d t v :
  Z.land (bval d) 0x7f = v mod 127 → t = v / 127 → 0 < v < 2 ^ 64 →
  sum_varint [d] t = inr v.
Proof.
  intros Hd -> Hv. cbn [sum_varint]. rewrite Hd.
  pose proof (Z.div_mod v 127 ltac:(lia)) as Hdm. pose proof (Z.mod_pos_bound v 127 eq_refl).
  rewrite (u64_small (v / 127 * 127)) by lia. rewrite u64_small by lia.
  rewrite (proj2 (Z.leb_gt _ _)); [f_equal; lia|].
  pose proof (Z.div_lt v 127). lia.
Qed.

Lemma write_loop_spec fuel v :
  0 <= v < 127 ^ Z.of_nat fuel → v < 2 ^ 64 → (0 < fuel)%nat →
  ∃ ds, write_loop fuel v = Ok ds ∧ (length ds <= fuel)%nat ∧ (0 < length ds)%nat
    ∧ (∀ n, size_loop fuel v n = Ok (n + Z.of_nat (length ds)))
    ∧ (0 < v → sum_varint (reverse ds) 0 = inr v)
    ∧ (v = 0 → ds = [x00])
    ∧ ∀ rest n m, (n + length ds <= m)%nat →
        scan_varint (ds ++ rest) n m = Ok (Some (n + length ds - 1)%nat).
Proof.
  revert v. induction fuel as [|fuel IH]; intros v Hv Hv64 Hf; [lia|].
  cbn [write_loop size_loop]. destruct (v / 127 =? 0) eqn:Hq; cbn [negb].
  - apply Z.eqb_eq in Hq. assert (0 <= v < 127) as Hv' by (apply Z.div_small_iff in Hq; lia).
    exists [byte_of (v mod 127)]. split_and!; [done|simpl; lia|simpl; lia|done|..].
    + intros Hpos. cbn [reverse]. apply sum_digit; [|by rewrite Hq|lia].
      rewrite land_7f, low_digit, (Z.mod_small v 127) by lia. apply Z.mod_small. lia.
    + by intros ->.
    + intros rest n m Hm. cbn [app scan_varint]. rewrite continued_spec, low_digit.
      rewrite Z.mod_small, (proj2 (Z.leb_gt 128 v)) by lia. do 2 f_equal. simpl. lia.
  - apply Z.eqb_neq in Hq. assert (127 <= v) as Hge.
    { destruct (decide (v < 127)) as [Hlt|]; [|lia]. by rewrite Z.div_small in Hq by lia. }
    destruct fuel as [|fuel]; [simpl in Hv; lia|].
    assert (0 < v / 127) by (apply Z.div_str_pos; lia).
    destruct (IH (v / 127)) as (ds&->&Hl1&Hl2&Hsz&Hsum&_&Hscan).
    { split; [lia|]. apply Z.div_lt_upper_bound; [lia|].
      rewrite (Nat2Z.inj_succ (S fuel)), Z.pow_succ_r in Hv by lia. lia. }
    { apply Z.div_lt_upper_bound; lia. }
    { lia. }
    cbn [mbind res_bind]. eexists. split; [done|]. split_and!; [simpl; lia|simpl; lia|..].
    + intros n. rewrite Hsz. f_equal. simpl length. lia.
    + intros _. rewrite reverse_cons, sum_app, Hsum by done. apply sum_digit; [|done|lia].
      pose proof (Z.mod_pos_bound v 127 eq_refl).
      rewrite land_7f, high_digit. rewrite <-(Z.mul_1_l 128) at 1.
      rewrite Z.mod_add by lia. rewrite Z.mod_small; lia.
    + intros ->. done.
    + intros rest n m Hm. cbn [app scan_varint]. simpl length in *.
      rewrite continued_spec, high_digit. pose proof (Z.mod_pos_bound v 127 eq_refl).
      rewrite (proj2 (Z.leb_le _ _)) by lia. rewrite (proj2 (Nat.leb_gt _ _)) by lia.
      rewrite Hscan by lia. do 2 f_equal. lia.
Qed.

Lemma write_varint_spec v :
  0 <= v < 2 ^ 64 →
  ∃ ds, write_varint v = Ok ds ∧ (length ds <= varint_max)%nat ∧ (0 < length ds)%nat
    ∧ size_varint v = Ok (Z.of_nat (length ds))
    ∧ ∀ rest, read_varint (ds ++ rest) = Ok (length ds, v).
Proof.
  intros Hv. destruct (write_loop_spec varint_max v) as (ds&Hw&Hl1&Hl2&Hsz&Hsum&Hz&Hscan);
    [|lia|unfold varint_max; lia|].
  { split; [lia|]. apply Z.lt_le_trans with (2 ^ 64); [lia|]. by vm_compute. }
  exists ds. split_and!; [done..|by unfold size_varint; rewrite Hsz|].
  intros rest. unfold read_varint. rewrite Hscan by (rewrite length_app; lia).
  cbn [mbind res_bind]. replace (S (0 + length ds - 1)) with (length ds) by lia.
  rewrite (proj2 (Nat.ltb_ge _ _)) by (rewrite length_app; lia).
  destruct (decide (v = 0)) as [->|Hnz].
  { by rewrite (Hz eq_refl). }
  rewrite take_app_length, Hsum by lia.
  destruct (Nat.eqb (length ds) 1 && bool_decide (nth 0 (ds ++ rest) x00 = x00)) eqn:Hc; [|done].
  apply andb_true_iff in Hc as [H1 H0]. apply Nat.eqb_eq in H1. apply bool_decide_eq_true in H0.
  destruct ds as [|d [|? ?]]; try (simpl in H1; lia). simpl in H0. subst d.
  exfalso. specialize (Hsum ltac:(lia)). by cbn in Hsum.
Qed.

(** What the first loop of [read_varint] accepts is what [read<varint>] takes. *)
Lemma take_varint_scan fuel ins n m k :
  scan_varint ins n m = Ok (Some k) → (length ins < fuel)%nat →
  take_varint fuel ins = Ok (take (S k - n) ins, drop (S k - n) ins) ∧ (n <= k)%nat.
Proof.
  revert ins n. induction fuel as [|fuel IH]; intros ins n Hs Hf; [lia|].
  destruct ins as [|b ins]; [done|]. cbn [scan_varint take_varint] in *.
  rewrite is_data_ok by (simpl; lia). cbn [firstn mbind res_bind head deref].
  change (drop 1 (b :: ins)) with ins.
  destruct (continued b).
  - destruct (Nat.leb m (S n)); [done|]. destruct (IH ins (S n) Hs) as [-> Hk]; [simpl in Hf; lia|].
    cbn [mbind res_bind]. replace (S k - n)%nat with (S (S k - S n)) by lia.
    split; [done|lia].
  - simplify_eq/=. replace (S k - k)%nat with 1%nat by lia. done.
Qed.

Lemma scan_varint_safe p n m :
  (0 < length p)%nat → (n + length p)%nat = m →
  ∃ r, scan_varint p n m = Ok r ∧ ∀ k, r = Some k → (k < m)%nat.
Proof.
  revert n. induction p as [|b p IH]; intros n Hp Hm; [simpl in Hp; lia|]. cbn [scan_varint].
  simpl in Hm. destruct (continued b).
  - destruct (Nat.leb m (S n)) eqn:Hl; [by exists None|]. apply Nat.leb_gt in Hl.
    apply IH; lia.
  - exists (Some n). split; [done|]. intros k [= <-]. lia.
Qed.

Lemma sum_varint_range p t :
  0 <= t < 2 ^ 64 → match sum_varint p t with inl t | inr t => 0 <= t < 2 ^ 64 end.
Proof.
  revert t. induction p as [|d p IH]; intros t Ht; [done|]. cbn [sum_varint].
  destruct (_ <=? t); [apply u64_range|apply IH, u64_range].
Qed.

(** A buffer that is not empty is read inside its bounds. *)
Lemma read_varint_safe buf :
  buf ≠ [] → ∃ n t, read_varint buf = Ok (n, t) ∧ (n <= length buf)%nat ∧ 0 <= t < 2 ^ 64.
Proof.
  intros Hb. destruct (scan_varint_safe buf 0 (length buf)) as (r&Hr&Hk);
    [by destruct buf; simpl; [|lia]|done|].
  unfold read_varint. rewrite Hr. cbn [mbind res_bind].
  destruct r as [k|]; [|by exists 0%nat, 0; split_and!; [|lia..]].
  specialize (Hk k eq_refl). rewrite (proj2 (Nat.ltb_ge _ _)) by lia.
  case_match; [by exists 1%nat, 0; split_and!; [|lia..]|].
  pose proof (sum_varint_range (reverse (take (S k) buf)) 0 ltac:(lia)) as Ht.
  destruct (sum_varint _ 0) as [t|t]; eexists _, t; (split; [done|]); lia.
Qed.

(** The number the digits of a buffer stand for. *)
Definition digits_value (buf : bytes) : Z :=
  foldr (fun b acc => acc * 127 + Z.land (bval b) 0x7f) 0 buf.

(** ** Properties *)

(** Writing any 64-bit value as a variable-length integer takes as many bytes as
    size_varint says, between one and ten, and reading it back from the front of any
    buffer or stream gives the value and the number of bytes. *)
Theorem varint_roundtrip v (Hv : 0 <= v < 2 ^ 64) :
  ∃ ds, write_varint v = Ok ds
    ∧ size_varint v = Ok (Z.of_nat (length ds)) ∧ (1 <= length ds <= varint_max)%nat
    ∧ (∀ rest, read_varint (ds ++ rest) = Ok (length ds, v))
    ∧ (∀ rest, stream_read_varint (ds ++ rest) = Ok (v, rest))
    ∧ ∀ os, (length (os_out os) + length ds <= os_cap os)%nat →
        stream_write_varint v os = Ok (mkOs (os_cap os) (os_out os ++ ds)).
Proof.
  destruct (write_varint_spec v Hv) as (ds&Hw&Hl1&Hl2&Hsz&Hread).
  exists ds. split_and!; [done|done|lia|lia|done|..].
  - intros rest. unfold stream_read_varint.
    destruct (write_loop_spec varint_max v) as (ds'&Hw'&_&_&_&_&_&Hscan);
      [split; [lia|]; apply Z.lt_le_trans with (2 ^ 64); [lia|by vm_compute]|lia
      |unfold varint_max; lia|].
    unfold write_varint in Hw. assert (ds' = ds) as -> by congruence.
    destruct (take_varint_scan (S (length (ds ++ rest))) (ds ++ rest) 0 _ _
      (Hscan rest 0%nat _ (Nat.le_refl _))) as [-> _]; [lia|].
    replace (S (0 + length ds - 1) - 0)%nat with (length ds) by lia.
    rewrite take_app_length, drop_app_length. cbn [mbind res_bind].
    pose proof (Hread []) as Hr. rewrite app_nil_r in Hr. by rewrite Hr.
  - intros os Hos. unfold stream_write_varint. rewrite Hsz. cbn [mbind res_bind].
    rewrite Hw. cbn [mbind res_bind]. rewrite Z.eqb_refl. by apply os_put_ok.
Qed.

Lemma varint_roundtrip_witness :
  write_varint 300 = Ok [byte_of 174; byte_of 2]
  ∧ ∃ ds, write_varint 300 = Ok ds
    ∧ size_varint 300 = Ok (Z.of_nat (length ds)) ∧ (1 <= length ds <= varint_max)%nat
    ∧ (∀ rest, read_varint (ds ++ rest) = Ok (length ds, 300))
    ∧ (∀ rest, stream_read_varint (ds ++ rest) = Ok (300, rest))
    ∧ ∀ os, (length (os_out os) + length ds <= os_cap os)%nat →
        stream_write_varint 300 os = Ok (mkOs (os_cap os) (os_out os ++ ds)).
Proof. split; [vm_compute; reflexivity|]. apply (varint_roundtrip 300). lia. Defined.

(** The overflow test of read_varint lets some overflows through: it compares the new
    value with the old one only, and there are encodings of values of 2^64 and more that
    are accepted with the value reduced. *)
Theorem varint_overflow_undetected :
  ∃ buf t, read_varint buf = Ok (length buf, t) ∧ buf ≠ []
    ∧ 2 ^ 64 <= digits_value buf ∧ t = u64 (digits_value buf).
Proof.
  exists (match write_loop 10 (127 * 2 ^ 58) with Ok ds => ds | Err _ => [] end).
  exists (u64 (127 * 2 ^ 58)). split_and!; [by vm_compute|by vm_compute| |by vm_compute].
  by vm_compute.
Qed.

(** On an empty buffer read_varint reads the byte behind it. *)
Theorem varint_empty_overread : read_varint [] = Err undefined.
Proof. done. Qed.
