(* ===== verification/NodeCodec.v ===== *)
(** * The node store codec ([nodestore/impl/codec.h])

    Inner nodes of the ledger's hash tree are 16 hashes, many of them zero; the codec
    stores a mask and the hashes that are not, and everything else compressed by LZ4.
    LZ4 is the class [LZ4]: the compressor and decompressor with the documented law that
    relates them. *)

From S2P Require Import Prelude Bytes Varint.
Local Open Scope Z_scope.

(** ** LZ4

    [LZ4_decompress_fast src n] reads as much of [src] as it needs to restore [n] bytes;
    it returns the bytes read, or a negative number, and the bytes restored. *)

Definition LZ4_MAX_INPUT_SIZE : Z := 0x7E000000.
Definition LZ4_compressBound (isize : Z) : Z :=
  if LZ4_MAX_INPUT_SIZE <? isize then 0 else isize + isize / 255 + 16.

Class LZ4 := {
  LZ4_compress : bytes → bytes;
  LZ4_decompress_fast : bytes → Z → Z * bytes
}.

Class LZ4Laws `{!LZ4} : Prop := {
  lz4_fits inp : inp ≠ [] → Z.of_nat (length inp) <= LZ4_MAX_INPUT_SIZE →
    0 < Z.of_nat (length (LZ4_compress inp)) <= LZ4_compressBound (Z.of_nat (length inp));
  lz4_restores inp : inp ≠ [] → Z.of_nat (length inp) <= LZ4_MAX_INPUT_SIZE →
    LZ4_decompress_fast (LZ4_compress inp) (Z.of_nat (length inp))
    = (Z.of_nat (length (LZ4_compress inp)), inp)
}.

(** ** Hash prefixes and object types *)

Definition HashPrefix (a b c : Z) : Z :=
  let m_prefix := a in
  let m_prefix := u32 (u32 (Z.shiftl m_prefix 8) + b) in
  let m_prefix := u32 (u32 (Z.shiftl m_prefix 8) + c) in
  u32 (Z.shiftl m_prefix 8).

Definition innerNode : Z := HashPrefix 77 73 78.     (* 'M', 'I', 'N' *)
Definition innerNodeV2 : Z := HashPrefix 73 78 82.   (* 'I', 'N', 'R' *)

Definition hotUNKNOWN : Z := 0.
Definition hotLEDGER : Z := 1.
Definition hotACCOUNT_NODE : Z := 3.
Definition hotTRANSACTION_NODE : Z := 4.

Definition zero32 : bytes := replicate 32 x00.

Section codec.
Context `{!LZ4}.

(** ** LZ4 with the length in front *)

Definition lz4_compress (inp : bytes) : res bytes :=
  vi ← write_varint (Z.of_nat (length inp));
  let out_max := Z.to_nat (LZ4_compressBound (Z.of_nat (length inp))) in
  os ← os_put vi (os_open (length vi + out_max));
  let out := LZ4_compress inp in
  os ← os_put out os;
  if Nat.eqb (length out) 0 then Err exception_thrown else Ok (os_out os).

Definition lz4_decompress (inp : bytes) : res bytes :=
  '(n, size) ← read_varint inp;
  if Nat.eqb n 0 then Err exception_thrown
  else
    let '(r, out) := LZ4_decompress_fast (drop n inp) (i32 size) in
    if negb (u64 (r + Z.of_nat n) =? Z.of_nat (length inp)) then Err exception_thrown
    else Ok out.

(** ** Decompression *)

(** The 13 bytes in front of the hashes. *)
Definition write_header (prefix : Z) (os : ostream) : res ostream :=
  os ← write uint32_t 0 os;
  os ← write uint32_t 0 os;
  os ← write uint8_t hotUNKNOWN os;
  write uint32_t prefix os.

(** [for (int i = 16; i--; bit >>= 1)] *)
Fixpoint put_hashes (i : nat) (bit mask : Z) (in_size : nat) (ins : bytes) (os : ostream)
  : res (nat * bytes * ostream) :=
  match i with
  | O => Ok (in_size, ins, os)
  | S i =>
      '(in_size, ins, os) ←
        (if negb (Z.land mask bit =? 0) then
           if Nat.ltb in_size 32 then Err exception_thrown
           else '(h, ins) ← is_data 32 ins;
                os ← os_put h os;
                Ok ((in_size - 32)%nat, ins, os)
         else os ← os_put zero32 os; Ok (in_size, ins, os));
      put_hashes i (Z.shiftr bit 1) mask in_size ins os
  end.

(** The bytes of the common prefix of a version 2 node: [(depth+1)/2]. *)
Definition common_size (depth : Z) : nat := Z.to_nat ((depth + 1) / 2).

Definition decompress_v1 (p : bytes) : res bytes :=
  let in_size := length p in
  let hs := field_size uint16_t in
  if Nat.ltb in_size (hs + 32) then Err exception_thrown
  else
    '(mask, ins) ← read uint16_t p;
    let in_size := (in_size - hs)%nat in
    os ← write_header innerNode (os_open 525);
    if mask =? 0 then Err exception_thrown
    else
      '(in_size, ins, os) ← put_hashes 16 0x8000 mask in_size ins os;
      if Nat.ltb 0 in_size then Err exception_thrown else os_bytes os.

Definition decompress_full_v1 (p : bytes) : res bytes :=
  let in_size := length p in
  if negb (Nat.eqb in_size (16 * 32)) then Err exception_thrown
  else
    os ← write_header innerNode (os_open 525);
    '(h, _) ← is_data 512 p;
    os ← os_put h os;
    os_bytes os.

Definition decompress_v2 (p : bytes) : res bytes :=
  let in_size := length p in
  let hs := field_size uint16_t in
  if Nat.ltb in_size (hs + 65) then Err exception_thrown
  else
    '(mask, ins) ← read uint16_t p;
    let in_size := (in_size - hs)%nat in
    '(depth, ins) ← read uint8_t ins;
    let in_size := (in_size - 1)%nat in
    os ← write_header innerNodeV2 (os_open (525 + 1 + common_size depth));
    if mask =? 0 then Err exception_thrown
    else
      '(in_size, ins, os) ← put_hashes 16 0x8000 mask in_size ins os;
      os ← write uint8_t depth os;
      if Nat.ltb in_size (common_size depth) then Err exception_thrown
      else
        '(c, ins) ← is_data (common_size depth) ins;
        os ← os_put c os;
        let in_size := (in_size - common_size depth)%nat in
        if Nat.ltb 0 in_size then Err exception_thrown else os_bytes os.

Definition decompress_full_v2 (p : bytes) : res bytes :=
  let in_size := length p in
  '(depth, ins) ← read uint8_t p;
  let in_size := (in_size - 1)%nat in
  if negb (Nat.eqb in_size (16 * 32 + common_size depth)) then Err exception_thrown
  else
    os ← write_header innerNodeV2 (os_open (525 + 1 + common_size depth));
    '(h, ins) ← is_data 512 ins;
    os ← os_put h os;
    os ← write uint8_t depth os;
    '(c, _) ← is_data (common_size depth) ins;
    os ← os_put c os;
    os_bytes os.

Definition nodeobject_decompress (inp : bytes) : res bytes :=
  '(vn, type) ← read_varint inp;
  if Nat.eqb vn 0 then Err exception_thrown
  else
    let p := drop vn inp in
    if type =? 0 then Ok p
    else if type =? 1 then lz4_decompress p
    else if type =? 2 then decompress_v1 p
    else if type =? 3 then decompress_full_v1 p
    else if type =? 5 then decompress_v2 p
    else if type =? 6 then decompress_full_v2 p
    else Err exception_thrown.

(** ** Compression *)

(** The header of a node: index, unused, kind and prefix; only the prefix is used. *)
Definition read_header (inp : bytes) : res (Z * bytes) :=
  '(index, ins) ← read uint32_t inp;
  '(unused, ins) ← read uint32_t ins;
  '(kind, ins) ← read uint8_t ins;
  read uint32_t ins.

(** [for (unsigned bit = 0x8000; bit; bit >>= 1)]; [vh] is an array of 512 bytes. *)
Fixpoint get_hashes (fuel : nat) (bit : Z) (ins : bytes) (n : nat) (mask : Z) (vh : ostream)
  : res (bytes * nat * Z * ostream) :=
  if bit =? 0 then Ok (ins, n, mask, vh)
  else match fuel with
       | O => Err out_of_fuel
       | S fuel =>
           '(h, ins) ← is_data 32 ins;
           if decide (h = zero32) then get_hashes fuel (Z.shiftr bit 1) ins n mask vh
           else
             vh ← os_put h vh;
             get_hashes fuel (Z.shiftr bit 1) ins (n + 1) (u16 (Z.lor mask bit)) vh
       end.

(** [for (unsigned d = 0; d < (depth+1)/2; ++d)]; [common] is an array of 32 bytes. *)
Fixpoint get_common (i : nat) (ins : bytes) (common : ostream) : res (bytes * ostream) :=
  match i with
  | O => Ok (ins, common)
  | S i =>
      '(b, ins) ← read uint8_t ins;
      common ← os_put [byte_of b] common;
      get_common i ins common
  end.
Fixpoint put_common (c : bytes) (os : ostream) : res ostream :=
  match c with
  | [] => Ok os
  | b :: c => os ← write uint8_t (bval b) os; put_common c os
  end.

Definition compress_v1 (ins : bytes) : res bytes :=
  '(ins, n, mask, vh) ← get_hashes 17 0x8000 ins 0 0 (os_open 512);
  if Nat.ltb n 16 then
    vs ← size_varint 2;
    os ← stream_write_varint 2 (os_open (Z.to_nat vs + field_size uint16_t + n * 32));
    os ← write uint16_t mask os;
    os ← os_put (os_out vh) os;
    os_bytes os
  else
    vs ← size_varint 3;
    os ← stream_write_varint 3 (os_open (Z.to_nat vs + n * 32));
    os ← os_put (os_out vh) os;
    os_bytes os.

Definition compress_v2 (ins : bytes) : res bytes :=
  '(ins, n, mask, vh) ← get_hashes 17 0x8000 ins 0 0 (os_open 512);
  '(depth, ins) ← read uint8_t ins;
  '(ins, common) ← get_common (common_size depth) ins (os_open 32);
  if Nat.ltb n 16 then
    vs ← size_varint 5;
    os ← stream_write_varint 5
           (os_open (Z.to_nat vs + field_size uint16_t + n * 32 + 1 + common_size depth));
    os ← write uint16_t mask os;
    os ← write uint8_t depth os;
    os ← os_put (os_out vh) os;
    os ← put_common (os_out common) os;
    os_bytes os
  else
    vs ← size_varint 6;
    os ← stream_write_varint 6 (os_open (Z.to_nat vs + n * 32 + 1 + common_size depth));
    os ← write uint8_t depth os;
    os ← os_put (os_out vh) os;
    os ← put_common (os_out common) os;
    os_bytes os.

Definition compress_lz4 (inp : bytes) : res bytes :=
  vi ← write_varint 1;
  lzr ← lz4_compress inp;
  Ok (vi ++ lzr).

Definition nodeobject_compress (inp : bytes) : res bytes :=
  let in_size := length inp in
  v1 ← (if Nat.eqb in_size 525 then
          '(prefix, ins) ← read_header inp;
          Ok (if prefix =? innerNode then Some ins else None)
        else Ok None);
  match v1 with
  | Some ins => compress_v1 ins
  | None =>
      v2 ← (if Nat.leb 526 in_size && Nat.leb in_size 556 then
              '(prefix, ins) ← read_header inp;
              Ok (if prefix =? innerNodeV2 then Some ins else None)
            else Ok None);
      match v2 with
      | Some ins => compress_v2 ins
      | None => compress_lz4 inp
      end
  end.

(** Overwrites the first nine bytes of an inner node. *)
Definition filter_inner (inp : bytes) : res bytes :=
  if Nat.eqb (length inp) 525 then
    '(prefix, _) ← read_header inp;
    if prefix =? innerNode then
      os ← write uint32_t 0 (os_open 9);
      os ← write uint32_t 0 os;
      os ← write uint8_t hotUNKNOWN os;
      Ok (os_out os ++ drop 9 inp)
    else Ok inp
  else Ok inp.
End codec.
