(* ===== verification/CodecLemmas.v ===== *)
(** * Lemmas on the node store codec

    The hashes of a node as a list of sixteen blocks, the mask as the bits of the blocks
    that are not zero, the loops over them, and the safety of the decoders. *)

From S2P Require Import Prelude Bytes Varint NodeCodec.
Local Open Scope Z_scope.

(** ** Blocks and masks *)

Definition nonzero (h : bytes) : bool := negb (bool_decide (h = zero32)).

(** The bits [get_hashes] sets: the first block is the highest bit. *)
Fixpoint hmask (hs : list bytes) : Z :=
  match hs with
  | [] => 0
  | h :: hs => Z.lor (if nonzero h then 2 ^ Z.of_nat (length hs) else 0) (hmask hs)
  end.

Definition stored (hs : list bytes) : list bytes := filter (fun h => nonzero h = true) hs.

Lemma nonzero_true h : nonzero h = true ↔ h ≠ zero32.
Proof. unfold nonzero. rewrite negb_true_iff. apply bool_decide_eq_false. Qed.
Lemma nonzero_false h : nonzero h = false ↔ h = zero32.
Proof. unfold nonzero. rewrite negb_false_iff. apply bool_decide_eq_true. Qed.
Lemma stored_cons h hs : h ≠ zero32 → stored (h :: hs) = h :: stored hs.
Proof. intros ?%nonzero_true. unfold stored. by rewrite filter_cons_True. Qed.
Lemma stored_zero h hs : h = zero32 → stored (h :: hs) = stored hs.
Proof. intros ?%nonzero_false. unfold stored. rewrite filter_cons_False; congruence. Qed.

Lemma hmask_high hs j : Z.of_nat (length hs) <= j → Z.testbit (hmask hs) j = false.
Proof.
  induction hs as [|h hs IH]; intros Hj; [apply Z.bits_0|]. cbn [hmask length] in *.
  rewrite Z.lor_spec, IH by lia. destruct (nonzero h); [|by rewrite Z.bits_0].
  rewrite Z.pow2_bits_false by lia. done.
Qed.

Lemma hmask_nonneg hs : 0 <= hmask hs.
Proof.
  induction hs as [|h hs IH]; [done|]. cbn [hmask]. apply Z.lor_nonneg. split; [|done].
  destruct (nonzero h); lia.
Qed.

Lemma hmask_bound hs : 0 <= hmask hs < 2 ^ Z.of_nat (length hs).
Proof.
  split; [apply hmask_nonneg|].
  assert (hmask hs = hmask hs mod 2 ^ Z.of_nat (length hs)) as ->;
    [|apply Z.mod_pos_bound; lia].
  apply Z.bits_inj'. intros j Hj. destruct (decide (j < Z.of_nat (length hs))).
  - by rewrite Z.mod_pow2_bits_low.
  - rewrite Z.mod_pow2_bits_high by lia. apply hmask_high. lia.
Qed.

Lemma lor_bound a b n : 0 <= n → 0 <= a < 2 ^ n → 0 <= b < 2 ^ n → 0 <= Z.lor a b < 2 ^ n.
Proof.
  intros Hn Ha Hb. assert (Z.lor a b = Z.lor a b mod 2 ^ n) as ->; [|apply Z.mod_pos_bound; lia].
  apply Z.bits_inj'. intros j Hj. destruct (decide (j < n)).
  - by rewrite Z.mod_pow2_bits_low.
  - rewrite Z.mod_pow2_bits_high, Z.lor_spec by lia.
    rewrite <-(Z.mod_small a (2 ^ n)), <-(Z.mod_small b (2 ^ n)) by lia.
    by rewrite !Z.mod_pow2_bits_high by lia.
Qed.

Lemma hmask_top h hs : Z.testbit (hmask (h :: hs)) (Z.of_nat (length hs)) = nonzero h.
Proof.
  cbn [hmask]. rewrite Z.lor_spec, hmask_high, orb_false_r by lia.
  destruct (nonzero h); [apply Z.pow2_bits_true; lia|apply Z.bits_0].
Qed.

Lemma hmask_low h hs j :
  0 <= j < Z.of_nat (length hs) → Z.testbit (hmask (h :: hs)) j = Z.testbit (hmask hs) j.
Proof.
  intros Hj. cbn [hmask]. rewrite Z.lor_spec. destruct (nonzero h).
  - rewrite Z.pow2_bits_false by lia. done.
  - by rewrite Z.bits_0.
Qed.

Lemma hmask_zero hs : hmask hs = 0 ↔ stored hs = [].
Proof.
  induction hs as [|h hs IH]; [done|]. cbn [hmask]. rewrite Z.lor_eq_0_iff, IH.
  destruct (nonzero h) eqn:Hh.
  - rewrite stored_cons by (by apply nonzero_true). split; [|done]. intros [Hp _].
    pose proof (Z.pow_pos_nonneg 2 (Z.of_nat (length hs))). lia.
  - rewrite stored_zero by (by apply nonzero_false). tauto.
Qed.

(** The bit the loops test for the first of [n] remaining blocks. *)
Lemma bit_step n : Z.shiftr (2 ^ Z.of_nat (S n) / 2) 1 = 2 ^ Z.of_nat n / 2.
Proof.
  rewrite Z.shiftr_div_pow2 by lia. rewrite Nat2Z.inj_succ, Z.pow_succ_r by lia.
  by rewrite (Z.mul_comm 2), Z.div_mul.
Qed.
Lemma bit_top n : 2 ^ Z.of_nat (S n) / 2 = 2 ^ Z.of_nat n.
Proof. rewrite Nat2Z.inj_succ, Z.pow_succ_r by lia. by rewrite (Z.mul_comm 2), Z.div_mul. Qed.

Lemma land_bit mask n : negb (Z.land mask (2 ^ Z.of_nat n) =? 0) = Z.testbit mask (Z.of_nat n).
Proof.
  destruct (Z.testbit mask (Z.of_nat n)) eqn:Ht.
  - apply negb_true_iff, Z.eqb_neq. intros H0.
    assert (Z.testbit (Z.land mask (2 ^ Z.of_nat n)) (Z.of_nat n) = true) as Hb
      by (rewrite Z.land_spec, Ht, Z.pow2_bits_true by lia; done).
    by rewrite H0, Z.bits_0 in Hb.
  - apply negb_false_iff, Z.eqb_eq, Z.bits_inj_0. intros i. rewrite Z.land_spec.
    destruct (decide (i = Z.of_nat n)) as [->|Hne]; [by rewrite Ht|].
    rewrite Z.pow2_bits_false by done. apply andb_false_r.
Qed.

Definition is_block (h : bytes) : Prop := length h = 32%nat.

Lemma length_blocks hs : Forall is_block hs → length (concat hs) = (32 * length hs)%nat.
Proof.
  induction 1 as [|h hs Hh Hhs IH]; [done|]. cbn [concat]. rewrite length_app, IH.
  unfold is_block in Hh. simpl. lia.
Qed.

Lemma Forall_stored hs : Forall is_block hs → Forall is_block (stored hs).
Proof. intros Hhs. apply Forall_forall. intros h [_ Hh]%list_elem_of_filter. by eapply Forall_forall in Hhs. Qed.

(** The encoder's loop. *)
Lemma get_hashes_ok hs : ∀ fuel rest n mask vh,
  Forall is_block hs → (length hs <= fuel)%nat → (length hs <= 16)%nat → 0 <= mask < 2 ^ 16 →
  (length (os_out vh) + 32 * length hs <= os_cap vh)%nat →
  get_hashes fuel (2 ^ Z.of_nat (length hs) / 2) (concat hs ++ rest) n mask vh
  = Ok (rest, (n + length (stored hs))%nat, Z.lor mask (hmask hs),
        mkOs (os_cap vh) (os_out vh ++ concat (stored hs))).
Proof.
  induction hs as [|h hs IH]; intros fuel rest n mask vh Hb Hf H16 Hm Hc.
  { destruct fuel; simpl; rewrite Nat.add_0_r, Z.lor_0_r, app_nil_r; by destruct vh. }
  apply Forall_cons in Hb as [Hh Hhs]. destruct fuel as [|fuel]; [simpl in Hf; lia|].
  cbn [get_hashes length]. rewrite bit_step, bit_top. cbn [length] in *.
  rewrite (proj2 (Z.eqb_neq _ _)) by (pose proof (Z.pow_pos_nonneg 2 (Z.of_nat (length hs))); lia).
  cbn [concat]. rewrite <-app_assoc, <-Hh, is_data_app. cbn [mbind res_bind].
  cbn [hmask]. case_decide as Hz.
  - rewrite (proj2 (nonzero_false h) Hz), stored_zero by done. apply IH; [done|lia..].
  - rewrite (proj2 (nonzero_true h) Hz), stored_cons by done.
    rewrite os_put_ok by (unfold is_block in Hh; lia). cbn [mbind res_bind].
    assert (0 <= Z.lor mask (2 ^ Z.of_nat (length hs)) < 2 ^ 16) as Hmask.
    { apply lor_bound; [lia|done|]. split; [lia|]. apply Z.pow_lt_mono_r; lia. }
    unfold u16. rewrite Z.mod_small by done.
    rewrite IH; [|done|lia|lia|done|cbn [os_out os_cap]; rewrite length_app; unfold is_block in Hh; lia].
    cbn [os_cap os_out length concat]. rewrite Z.lor_assoc, <-app_assoc.
    do 4 f_equal. lia.
Qed.

(** The decoder's loop. *)
Lemma put_hashes_ok hs : ∀ mask extra rest os,
  Forall is_block hs →
  (∀ j, 0 <= j < Z.of_nat (length hs) → Z.testbit mask j = Z.testbit (hmask hs) j) →
  (length (os_out os) + 32 * length hs <= os_cap os)%nat →
  put_hashes (length hs) (2 ^ Z.of_nat (length hs) / 2) mask
    (length (concat (stored hs)) + extra) (concat (stored hs) ++ rest) os
  = Ok (extra, rest, mkOs (os_cap os) (os_out os ++ concat hs)).
Proof.
  induction hs as [|h hs IH]; intros mask extra rest os Hb Hm Hc.
  { simpl. rewrite app_nil_r. by destruct os. }
  apply Forall_cons in Hb as [Hh Hhs]. cbn [put_hashes length]. rewrite bit_step, bit_top, land_bit.
  rewrite Hm, hmask_top by (simpl; lia). cbn [length] in *.
  assert (∀ j, 0 <= j < Z.of_nat (length hs) → Z.testbit mask j = Z.testbit (hmask hs) j) as Hm'.
  { intros j Hj. rewrite Hm by lia. by apply hmask_low. }
  unfold is_block in Hh. destruct (nonzero h) eqn:Hz.
  - apply nonzero_true in Hz. rewrite stored_cons by done. cbn [concat].
    rewrite length_app, Hh, (proj2 (Nat.ltb_ge _ _)) by lia.
    rewrite <-app_assoc, <-Hh, is_data_app. cbn [mbind res_bind].
    rewrite os_put_ok by lia. cbn [mbind res_bind].
    replace (length h + length (concat (stored hs)) + extra - length h)%nat
      with (length (concat (stored hs)) + extra)%nat by lia.
    rewrite IH; [|done|done|cbn [os_out os_cap]; rewrite length_app; lia].
    cbn [os_out os_cap]. by rewrite <-app_assoc.
  - apply nonzero_false in Hz. rewrite stored_zero by done.
    rewrite <-Hz, os_put_ok by lia. cbn [mbind res_bind].
    rewrite IH; [|done|done|cbn [os_out os_cap]; rewrite length_app; lia].
    cbn [os_out os_cap concat]. by rewrite <-app_assoc.
Qed.

(** ** The decoder is safe *)


(** A run fails only by an exception or a failed assertion. *)
Definition safe {A} (r : res A) : Prop :=
  match r with Ok _ => True | Err e => e = exception_thrown ∨ e = assert_failed end.

Lemma put_hashes_safe i : ∀ bit mask in_size ins os,
  length ins = in_size → (length (os_out os) + 32 * i <= os_cap os)%nat →
  match put_hashes i bit mask in_size ins os with
  | Ok (in_size', ins', os') =>
      length ins' = in_size' ∧ os_cap os' = os_cap os
      ∧ length (os_out os') = (length (os_out os) + 32 * i)%nat
  | Err e => e = exception_thrown
  end.
Proof.
  induction i as [|i IH]; intros bit mask in_size ins os Hin Hc; [simpl; lia|].
  cbn [put_hashes]. destruct (negb (Z.land mask bit =? 0)).
  - destruct (Nat.ltb in_size 32) eqn:Hlt; [done|]. apply Nat.ltb_ge in Hlt.
    rewrite is_data_ok by lia. cbn [mbind res_bind].
    assert (length (take 32 ins) = 32%nat) as Ht by (rewrite length_take; lia).
    rewrite os_put_ok by lia. cbn [mbind res_bind].
    specialize (IH (Z.shiftr bit 1) mask (in_size - 32)%nat (drop 32 ins)
      (mkOs (os_cap os) (os_out os ++ take 32 ins))). cbn [os_cap os_out] in IH.
    rewrite length_app, length_drop in IH. specialize (IH ltac:(lia) ltac:(lia)).
    destruct (put_hashes i _ _ _ _ _) as [[[? ?] ?]|]; [|done]. lia.
  - assert (length zero32 = 32%nat) as Hz by done.
    rewrite os_put_ok by lia. cbn [mbind res_bind].
    specialize (IH (Z.shiftr bit 1) mask in_size ins (mkOs (os_cap os) (os_out os ++ zero32)) Hin).
    cbn [os_cap os_out] in IH. rewrite length_app in IH. specialize (IH ltac:(lia)).
    destruct (put_hashes i _ _ _ _ _) as [[[? ?] ?]|]; [|done]. lia.
Qed.

Definition header (prefix : Z) : bytes :=
  field_bytes uint32_t 0 ++ field_bytes uint32_t 0 ++ field_bytes uint8_t hotUNKNOWN
  ++ field_bytes uint32_t prefix.

Lemma innerNode_max : innerNode <= field_max uint32_t.
Proof. by vm_compute. Qed.
Lemma innerNodeV2_max : innerNodeV2 <= field_max uint32_t.
Proof. by vm_compute. Qed.
Lemma length_header prefix : length (header prefix) = 13%nat.
Proof. done. Qed.

Lemma write_header_ok prefix cap :
  prefix <= field_max uint32_t → (13 <= cap)%nat →
  write_header prefix (os_open cap) = Ok (mkOs cap (header prefix)).
Proof.
  intros Hp Hc. unfold write_header, header, hotUNKNOWN. simpl in Hp.
  rewrite write_ok by (simpl; lia). cbn [mbind res_bind].
  rewrite write_ok by (simpl; lia). cbn [mbind res_bind].
  rewrite write_ok by (simpl; lia). cbn [mbind res_bind].
  rewrite write_ok by (simpl; lia). cbn [os_out os_cap os_open app].
  by rewrite <-!app_assoc.
Qed.

(** Runs the next read or write of a stream. *)
Ltac os_len :=
  cbn [os_out os_cap os_open]; rewrite ?length_app, ?length_field_bytes, ?length_drop, ?length_header;
  cbn [field_size length]; first [lia | cbn [field_max] in *; lia].
Ltac os_step :=
  first
    [ rewrite write_ok by os_len
    | rewrite os_put_ok by os_len
    | rewrite is_data_ok by os_len ];
  cbn [mbind res_bind os_out os_cap].

Lemma os_bytes_full os : length (os_out os) = os_cap os → os_bytes os = Ok (os_out os).
Proof. intros. unfold os_bytes. by rewrite decide_True. Qed.

Lemma readp_uint8 p : 0 <= readp uint8_t p <= 255.
Proof. unfold readp. pose proof (bval_range (nth 0 p x00)). lia. Qed.

Lemma read_ok f ins :
  (field_size f <= length ins)%nat →
  read f ins = Ok (readp f (take (field_size f) ins), drop (field_size f) ins).
Proof. intros. unfold read. by rewrite is_data_ok. Qed.

#[local] Opaque is_data os_put os_bytes take drop Nat.eqb Nat.ltb.

Lemma decompress_v1_safe p : safe (decompress_v1 p).
Proof.
  unfold decompress_v1. destruct (Nat.ltb (length p) _) eqn:Hlen; [by left|].
  apply Nat.ltb_ge in Hlen. cbn [field_size] in *. rewrite read_ok by (simpl; lia).
  cbn [mbind res_bind]. rewrite write_header_ok by (apply innerNode_max || lia). cbn [mbind res_bind].
  destruct (_ =? 0); [by left|].
  pose proof (put_hashes_safe 16 0x8000 (readp uint16_t (take 2 p)) (length p - 2) (drop 2 p)
    (mkOs 525 (header innerNode))) as Hp. cbn [field_size] in *.
  destruct (put_hashes _ _ _ _ _ _) as [[[n ins] os]|e]; cbn [mbind res_bind].
  - destruct Hp as (_&Hcap&Hout);
      [by rewrite length_drop|cbn [os_out os_cap]; rewrite length_header; lia|].
    destruct (Nat.ltb 0 n); [by left|]. cbn [os_cap os_out] in *. rewrite length_header in Hout.
    rewrite os_bytes_full; [done|lia].
  - left. apply Hp; [by rewrite length_drop|cbn [os_out os_cap]; rewrite length_header; lia].
Qed.

Lemma decompress_full_v1_safe p : safe (decompress_full_v1 p).
Proof.
  unfold decompress_full_v1. destruct (Nat.eqb (length p) _) eqn:Hlen; cbn [negb]; [|by left].
  apply Nat.eqb_eq in Hlen. change (16 * 32)%nat with 512%nat in Hlen.
  rewrite write_header_ok by (apply innerNode_max || lia). cbn [mbind res_bind].
  rewrite is_data_ok by lia. cbn [mbind res_bind]. rewrite take_ge by lia.
  os_step.
  rewrite os_bytes_full; [done|]. cbn [os_out os_cap]. rewrite length_app, length_header. lia.
Qed.

Lemma decompress_v2_safe p : safe (decompress_v2 p).
Proof.
  unfold decompress_v2. destruct (Nat.ltb (length p) _) eqn:Hlen; [by left|].
  apply Nat.ltb_ge in Hlen. cbn [field_size] in *. rewrite read_ok by (simpl; lia).
  cbn [mbind res_bind field_size]. rewrite read_ok by (cbn [field_size]; rewrite length_drop; lia).
  cbn [mbind res_bind field_size]. set (depth := readp uint8_t _).
  assert (0 <= depth <= 255) as Hd by apply readp_uint8. set (c := common_size depth).
  rewrite write_header_ok by (apply innerNodeV2_max || lia). cbn [mbind res_bind].
  destruct (_ =? 0); [by left|]. rewrite drop_drop.
  pose proof (put_hashes_safe 16 0x8000 (readp uint16_t (take 2 p)) (length p - 2 - 1)
    (drop (2 + 1) p) (mkOs (525 + 1 + c) (header innerNodeV2))) as Hp.
  assert (length (drop (2 + 1) p) = (length p - 2 - 1)%nat) as Hdl by (rewrite length_drop; lia).
  pose proof (length_header innerNodeV2) as Hh. cbn [os_cap os_out] in Hp.
  destruct (put_hashes _ _ _ _ _ _) as [[[n ins] os]|e]; cbn [mbind res_bind].
  - destruct Hp as (Hin&Hcap&Hout); [done|lia|].
    os_step.
    destruct (Nat.ltb n c) eqn:Hc; [by left|]. apply Nat.ltb_ge in Hc.
    rewrite is_data_ok by lia. cbn [mbind res_bind].
    assert (length (take c ins) = c) as Ht by (rewrite length_take; lia).
    os_step. destruct (Nat.ltb 0 _); [by left|]. rewrite os_bytes_full; [done|].
    cbn [os_out os_cap]. rewrite !length_app, length_field_bytes. cbn [field_size]. lia.
  - left. apply Hp; [done|lia].
Qed.

Lemma decompress_full_v2_safe p : safe (decompress_full_v2 p).
Proof.
  unfold decompress_full_v2. destruct (decide (length p = 0%nat)) as [Hz|Hz].
  { unfold read. rewrite is_data_short by (simpl; lia). by right. }
  rewrite read_ok by (simpl; lia). cbn [mbind res_bind field_size]. set (depth := readp uint8_t _).
  assert (0 <= depth <= 255) as Hd by apply readp_uint8. set (c := common_size depth).
  destruct (Nat.eqb _ _) eqn:Hlen; cbn [negb]; [|by left]. apply Nat.eqb_eq in Hlen.
  rewrite write_header_ok by (apply innerNodeV2_max || lia). cbn [mbind res_bind].
  pose proof (length_header innerNodeV2) as Hh.
  rewrite is_data_ok by (rewrite length_drop; lia). cbn [mbind res_bind].
  assert (length (take 512 (drop 1 p)) = 512%nat) as Ht by (rewrite length_take, length_drop; lia).
  os_step.
  os_step. rewrite is_data_ok by (rewrite !length_drop; lia). cbn [mbind res_bind].
  assert (length (take c (drop 512 (drop 1 p))) = c) as Ht' by (rewrite length_take, !length_drop; lia).
  os_step. rewrite os_bytes_full; [done|]. cbn [os_out os_cap].
  rewrite !length_app, length_field_bytes. cbn [field_size]. lia.
Qed.

(** ** Reading the header back *)

(** A node: nine bytes that are not kept, the prefix, and the rest. *)
Lemma read_header_ok (nine : bytes) prefix rest :
  length nine = 9%nat → 0 <= prefix <= field_max uint32_t →
  read_header (nine ++ field_bytes uint32_t prefix ++ rest) = Ok (prefix, rest).
Proof.
  intros Hn Hp. unfold read_header.
  rewrite read_ok by (rewrite length_app; cbn [field_size]; lia). cbn [mbind res_bind field_size].
  rewrite drop_app_le by lia.
  rewrite read_ok by (rewrite length_app, length_drop; cbn [field_size]; lia).
  cbn [mbind res_bind field_size]. rewrite drop_app_le by (rewrite length_drop; lia).
  rewrite read_ok by (rewrite length_app, !length_drop; cbn [field_size]; lia).
  cbn [mbind res_bind field_size]. rewrite drop_app_le by (rewrite !length_drop; lia).
  rewrite !drop_drop, (drop_ge nine) by lia. cbn [app]. by apply read_write.
Qed.

Lemma read_header_total inp :
  (13 <= length inp)%nat → ∃ prefix, read_header inp = Ok (prefix, drop 13 inp).
Proof.
  intros Hl. unfold read_header.
  rewrite read_ok by (cbn [field_size]; lia). cbn [mbind res_bind field_size].
  rewrite read_ok by (rewrite length_drop; cbn [field_size]; lia). cbn [mbind res_bind field_size].
  rewrite read_ok by (rewrite !length_drop; cbn [field_size]; lia). cbn [mbind res_bind field_size].
  rewrite read_ok by (rewrite !length_drop; cbn [field_size]; lia). cbn [field_size].
  eexists. by rewrite !drop_drop.
Qed.

(** The varint of a type tag. *)
Lemma tag_size k : 0 <= k < 127 → size_varint k = Ok 1.
Proof.
  intros Hk. unfold size_varint, varint_max. cbn [size_loop]. by rewrite Z.div_small by lia.
Qed.
Lemma tag_write k cap :
  0 <= k < 127 → (1 <= cap)%nat →
  stream_write_varint k (os_open cap) = Ok (mkOs cap [byte_of k]).
Proof.
  intros Hk Hc. unfold stream_write_varint. rewrite tag_size by done. cbn [mbind res_bind].
  unfold write_varint, varint_max. cbn [write_loop]. rewrite (Z.div_small k) by lia.
  cbn [Z.eqb negb mbind res_bind].
  rewrite Z.mod_small by lia. cbn [length Z.of_nat]. apply os_put_ok. simpl. lia.
Qed.

Lemma read_tag k p : 0 <= k < 127 → read_varint (byte_of k :: p) = Ok (1%nat, k).
Proof.
  intros Hk. destruct (write_varint_spec k) as (ds&Hw&_&_&_&Hr); [lia|].
  assert (k / 127 = 0) as Hq by (apply Z.div_small; lia).
  unfold write_varint, varint_max in Hw. cbn [write_loop] in Hw. rewrite Hq in Hw.
  cbn [Z.eqb negb] in Hw. injection Hw as <-. rewrite Z.mod_small in Hr by lia.
  apply (Hr p).
Qed.

Lemma decompress_tag `{!LZ4} k p :
  0 <= k < 127 →
  nodeobject_decompress (byte_of k :: p) =
    if k =? 0 then Ok p
    else if k =? 1 then lz4_decompress p
    else if k =? 2 then decompress_v1 p
    else if k =? 3 then decompress_full_v1 p
    else if k =? 5 then decompress_v2 p
    else if k =? 6 then decompress_full_v2 p
    else Err exception_thrown.
Proof.
  intros Hk. unfold nodeobject_decompress. rewrite read_tag by done. cbn [mbind res_bind].
  change (Nat.eqb 1 0) with false. cbn iota. done.
Qed.

(** ** Inner nodes *)

Lemma stored_full hs : length (stored hs) = length hs → stored hs = hs.
Proof.
  induction hs as [|h hs IH]; [done|]. intros Hl.
  assert (length (stored hs) <= length hs)%nat as Hle by (apply length_filter).
  destruct (nonzero h) eqn:Hz.
  - apply nonzero_true in Hz. rewrite stored_cons in Hl |- * by done. simpl in Hl.
    rewrite IH by lia. done.
  - apply nonzero_false in Hz. rewrite stored_zero in Hl by done. simpl in Hl. lia.
Qed.

Lemma stored_le hs : (length (stored hs) <= length hs)%nat.
Proof. apply length_filter. Qed.

(** The loops over the common prefix of a version 2 node. *)
Lemma get_common_ok c : ∀ rest os,
  (length (os_out os) + length c <= os_cap os)%nat →
  get_common (length c) (c ++ rest) os = Ok (rest, mkOs (os_cap os) (os_out os ++ c)).
Proof.
  induction c as [|b c IH]; intros rest os Hc; cbn [length get_common app] in *.
  { rewrite app_nil_r. by destruct os. }
  assert (b :: c ++ rest = field_bytes uint8_t (bval b) ++ c ++ rest) as ->
    by (cbn [field_bytes app]; by rewrite byte_of_bval).
  pose proof (bval_range b). rewrite read_write by (simpl; lia). cbn [mbind res_bind].
  rewrite byte_of_bval, os_put_ok by (simpl; lia). cbn [mbind res_bind].
  rewrite IH by (cbn [os_out os_cap]; rewrite length_app; simpl; lia).
  cbn [os_out os_cap]. by rewrite <-app_assoc.
Qed.

Lemma put_common_ok c : ∀ os,
  (length (os_out os) + length c <= os_cap os)%nat →
  put_common c os = Ok (mkOs (os_cap os) (os_out os ++ c)).
Proof.
  induction c as [|b c IH]; intros os Hc; cbn [put_common length] in *.
  { rewrite app_nil_r. by destruct os. }
  pose proof (bval_range b). os_step.
  cbn [field_bytes]. rewrite byte_of_bval.
  rewrite IH by (cbn [os_out os_cap]; rewrite length_app; simpl; lia).
  cbn [os_out os_cap]. by rewrite <-app_assoc.
Qed.

(** The loops at the sixteen blocks of a node. *)
Section inner.
Context (hs : list bytes).
Hypothesis Hlen : length hs = 16%nat.
Hypothesis Hblk : Forall is_block hs.

Lemma get_inner rest :
  get_hashes 17 0x8000 (concat hs ++ rest) 0 0 (os_open 512)
  = Ok (rest, length (stored hs), hmask hs, mkOs 512 (concat (stored hs))).
Proof.
  replace 0x8000 with (2 ^ Z.of_nat (length hs) / 2) by (by rewrite Hlen).
  by rewrite get_hashes_ok by (done || (cbn [os_open os_out os_cap length]; lia)).
Qed.

Lemma put_inner extra rest os :
  (length (os_out os) + 512 <= os_cap os)%nat →
  put_hashes 16 0x8000 (hmask hs) (length (concat (stored hs)) + extra) (concat (stored hs) ++ rest) os
  = Ok (extra, rest, mkOs (os_cap os) (os_out os ++ concat hs)).
Proof.
  intros Hc. replace 0x8000 with (2 ^ Z.of_nat (length hs) / 2) by (by rewrite Hlen).
  pose proof (put_hashes_ok hs (hmask hs) extra rest os) as Hp. rewrite Hlen in Hp |- *.
  apply Hp; [done|done|lia].
Qed.

Lemma hmask_uint16 : 0 <= hmask hs <= field_max uint16_t.
Proof. pose proof (hmask_bound hs) as Hb. rewrite Hlen in Hb. simpl in *. lia. Qed.

Lemma length_hashes : length (concat hs) = 512%nat.
Proof. rewrite length_blocks by done. by rewrite Hlen. Qed.
Lemma length_stored : length (concat (stored hs)) = (32 * length (stored hs))%nat.
Proof. apply length_blocks. by apply Forall_stored. Qed.

(** The encodings of a version 1 node. *)
Lemma compress_v1_ok :
  compress_v1 (concat hs) =
    Ok (if Nat.ltb (length (stored hs)) 16
        then byte_of 2 :: field_bytes uint16_t (hmask hs) ++ concat (stored hs)
        else byte_of 3 :: concat hs).
Proof.
  unfold compress_v1. pose proof (get_inner []) as Hg. rewrite app_nil_r in Hg.
  rewrite Hg. cbn [mbind res_bind]. destruct (Nat.ltb _ 16) eqn:Hn.
  - rewrite tag_size by lia. cbn [mbind res_bind]. rewrite tag_write by lia. cbn [mbind res_bind].
    pose proof hmask_uint16. pose proof length_stored.
    os_step.
    os_step. rewrite os_bytes_full; [done|].
    cbn [os_out os_cap]. rewrite !length_app, length_field_bytes. cbn [field_size length]. lia.
  - apply Nat.ltb_ge in Hn. pose proof (stored_le hs). assert (stored hs = hs) as Hs
      by (apply stored_full; lia). rewrite Hs, Hlen.
    rewrite tag_size by lia. cbn [mbind res_bind]. rewrite tag_write by lia. cbn [mbind res_bind].
    pose proof length_hashes. os_step. rewrite os_bytes_full; [done|].
    cbn [os_out os_cap]. rewrite !length_app. cbn [length]. lia.
Qed.

Lemma decompress_v1_ok :
  stored hs ≠ [] →
  decompress_v1 (field_bytes uint16_t (hmask hs) ++ concat (stored hs))
  = Ok (header innerNode ++ concat hs).
Proof.
  intros Hs. unfold decompress_v1. pose proof hmask_uint16. pose proof length_stored.
  pose proof length_hashes. pose proof (length_header innerNode).
  assert (0 < length (stored hs))%nat by (destruct (stored hs); [done|simpl; lia]).
  rewrite length_app, length_field_bytes, (proj2 (Nat.ltb_ge _ _)) by (cbn [field_size]; lia).
  rewrite read_write by done. cbn [mbind res_bind].
  rewrite write_header_ok by (apply innerNode_max || lia). cbn [mbind res_bind].
  rewrite (proj2 (Z.eqb_neq _ _)) by (by rewrite hmask_zero).
  replace (field_size uint16_t + length (concat (stored hs)) - field_size uint16_t)%nat
    with (length (concat (stored hs)) + 0)%nat by lia.
  rewrite <-(app_nil_r (concat (stored hs))) at 2.
  rewrite put_inner by (cbn [os_out os_cap]; lia). cbn [mbind res_bind].
  change (Nat.ltb 0 0) with false. cbn iota. apply os_bytes_full. cbn [os_out os_cap].
  rewrite length_app. lia.
Qed.

Lemma decompress_full_v1_ok : decompress_full_v1 (concat hs) = Ok (header innerNode ++ concat hs).
Proof.
  unfold decompress_full_v1. pose proof length_hashes as Hl. pose proof (length_header innerNode).
  rewrite (proj2 (Nat.eqb_eq _ _)) by lia. cbn [negb].
  rewrite write_header_ok by (apply innerNode_max || lia). cbn [mbind res_bind].
  os_step. rewrite take_ge by lia.
  os_step.
  apply os_bytes_full. cbn [os_out os_cap]. rewrite length_app. lia.
Qed.

(** A version 2 node has its depth and the common prefix behind the hashes. *)
Context (depth : Z) (c : bytes).
Hypothesis Hdepth : 0 <= depth <= field_max uint8_t.
Hypothesis Hc : length c = common_size depth.

Lemma compress_v2_ok :
  (length c <= 32)%nat →
  compress_v2 (concat hs ++ field_bytes uint8_t depth ++ c) =
    Ok (if Nat.ltb (length (stored hs)) 16
        then byte_of 5 :: field_bytes uint16_t (hmask hs) ++ field_bytes uint8_t depth
               ++ concat (stored hs) ++ c
        else byte_of 6 :: field_bytes uint8_t depth ++ concat hs ++ c).
Proof.
  intros Hc32. unfold compress_v2. rewrite get_inner. cbn [mbind res_bind].
  rewrite read_write by done. cbn [mbind res_bind]. rewrite <-Hc.
  rewrite <-(app_nil_r c) at 2. rewrite get_common_ok by (cbn [os_open os_out os_cap length]; lia).
  cbn [mbind res_bind os_open os_out os_cap app]. destruct (Nat.ltb _ 16) eqn:Hn.
  - rewrite tag_size by lia. cbn [mbind res_bind]. rewrite tag_write by lia. cbn [mbind res_bind].
    pose proof hmask_uint16. pose proof length_stored.
    os_step.
    os_step.
    os_step.
    rewrite put_common_ok by (cbn [os_out os_cap]; rewrite !length_app, !length_field_bytes;
      cbn [field_size length]; lia).
    cbn [mbind res_bind os_out os_cap]. rewrite os_bytes_full.
    + cbn [os_out]. by rewrite <-!app_assoc.
    + cbn [os_out os_cap]. rewrite !length_app, !length_field_bytes. cbn [field_size length]. lia.
  - apply Nat.ltb_ge in Hn. pose proof (stored_le hs). assert (stored hs = hs) as Hs
      by (apply stored_full; lia). rewrite Hs, Hlen. pose proof length_hashes.
    rewrite tag_size by lia. cbn [mbind res_bind]. rewrite tag_write by lia. cbn [mbind res_bind].
    os_step.
    os_step.
    rewrite put_common_ok by (cbn [os_out os_cap]; rewrite !length_app, !length_field_bytes;
      cbn [field_size length]; lia).
    cbn [mbind res_bind os_out os_cap]. rewrite os_bytes_full.
    + cbn [os_out]. by rewrite <-!app_assoc.
    + cbn [os_out os_cap]. rewrite !length_app, !length_field_bytes. cbn [field_size length]. lia.
Qed.

Lemma decompress_v2_ok :
  (2 <= length (stored hs))%nat →
  decompress_v2 (field_bytes uint16_t (hmask hs) ++ field_bytes uint8_t depth
                 ++ concat (stored hs) ++ c)
  = Ok (header innerNodeV2 ++ concat hs ++ field_bytes uint8_t depth ++ c).
Proof.
  intros Hs. unfold decompress_v2. pose proof hmask_uint16. pose proof length_stored.
  pose proof length_hashes. pose proof (length_header innerNodeV2).
  rewrite !length_app, !length_field_bytes, (proj2 (Nat.ltb_ge _ _)) by (cbn [field_size]; lia).
  rewrite read_write by done. cbn [mbind res_bind]. rewrite read_write by done.
  cbn [mbind res_bind]. rewrite <-Hc.
  rewrite write_header_ok by (apply innerNodeV2_max || lia). cbn [mbind res_bind].
  rewrite (proj2 (Z.eqb_neq _ _)) by (rewrite hmask_zero; by intros E; rewrite E in Hs; simpl in Hs; lia).
  replace (field_size uint16_t + (field_size uint8_t + (length (concat (stored hs)) + length c))
    - field_size uint16_t - 1)%nat with (length (concat (stored hs)) + length c)%nat
    by (cbn [field_size]; lia).
  rewrite put_inner by (cbn [os_out os_cap]; lia). cbn [mbind res_bind os_out os_cap].
  os_step. rewrite (proj2 (Nat.ltb_ge _ _)) by lia.
  os_step. rewrite take_ge by lia.
  os_step.
  rewrite Nat.sub_diag. change (Nat.ltb 0 0) with false. cbn iota. rewrite os_bytes_full.
  - cbn [os_out]. by rewrite <-!app_assoc.
  - cbn [os_out os_cap]. rewrite !length_app, !length_field_bytes. cbn [field_size]. lia.
Qed.

Lemma decompress_full_v2_ok :
  decompress_full_v2 (field_bytes uint8_t depth ++ concat hs ++ c)
  = Ok (header innerNodeV2 ++ concat hs ++ field_bytes uint8_t depth ++ c).
Proof.
  unfold decompress_full_v2. pose proof length_hashes as Hl. pose proof (length_header innerNodeV2).
  rewrite read_write by done. cbn [mbind res_bind]. rewrite <-Hc.
  rewrite (proj2 (Nat.eqb_eq _ _)) by (rewrite !length_app, length_field_bytes; cbn [field_size]; lia).
  cbn [negb]. rewrite write_header_ok by (apply innerNodeV2_max || lia). cbn [mbind res_bind].
  os_step.
  rewrite take_app_le, drop_app_le, (take_ge (concat hs)), (drop_ge (concat hs)) by lia.
  cbn [app]. do 3 os_step. rewrite take_ge by lia.
  os_step. rewrite os_bytes_full.
  - cbn [os_out]. by rewrite <-!app_assoc.
  - cbn [os_out os_cap]. rewrite !length_app, !length_field_bytes. cbn [field_size]. lia.
Qed.
End inner.
