(* ===== verification/CodecProps.v ===== *)
(** * Properties of the node store codec

    Compressing a node object and decompressing the result gives the object back, up to
    the nine bytes in front of the prefix of an inner node, for each of the encodings;
    the nodes for which it does not; and the safety of the decoder on arbitrary input. *)

From S2P Require Import Prelude Bytes Varint NodeCodec CodecLemmas.
Local Open Scope Z_scope.

(** ** The parts of a node *)

(** The prefix a blob carries behind its first nine bytes. *)
Definition prefix_of (inp : bytes) : Z := readp uint32_t (take 4 (drop 9 inp)).
(** Sixteen blocks of 32 bytes. *)
Definition hashes (inp : bytes) : list bytes := reshape (replicate 16 32%nat) (take 512 (drop 13 inp)).
(** The hashes that are not zero. *)
Definition children (inp : bytes) : list bytes := stored (hashes inp).
(** The depth of a version 2 node. *)
Definition depth_of (inp : bytes) : Z := readp uint8_t (take 1 (drop 525 inp)).

Definition is_inner_v1 (inp : bytes) : bool :=
  Nat.eqb (length inp) 525 && (prefix_of inp =? innerNode).
Definition is_inner_v2 (inp : bytes) : bool :=
  Nat.leb 526 (length inp) && Nat.leb (length inp) 556 && (prefix_of inp =? innerNodeV2).
(** The length of a version 2 node is the one its depth says. *)
Definition exact_v2 (inp : bytes) : bool :=
  Nat.eqb (length inp) (526 + common_size (depth_of inp)).

(** The blob with its first nine bytes zeroed. *)
Definition normalize (inp : bytes) : bytes := replicate 9 x00 ++ drop 9 inp.

Lemma reshape_blocks n (b : bytes) :
  length b = (32 * n)%nat →
  let hs := reshape (replicate n 32%nat) b in
  concat hs = b ∧ Forall is_block hs ∧ length hs = n.
Proof.
  revert b. induction n as [|n IH]; intros b Hb; cbn [replicate reshape concat length].
  { destruct b; [|simpl in Hb; lia]. split_and!; [done|constructor|done]. }
  destruct (IH (drop 32 b)) as (Hc&Hf&Hl); [rewrite length_drop; lia|].
  split_and!; [by rewrite Hc, take_drop| |by rewrite Hl].
  constructor; [|done]. unfold is_block. rewrite length_take. lia.
Qed.

Lemma hashes_ok inp :
  (525 <= length inp)%nat →
  concat (hashes inp) = take 512 (drop 13 inp) ∧ Forall is_block (hashes inp)
  ∧ length (hashes inp) = 16%nat.
Proof. intros Hl. apply (reshape_blocks 16). rewrite length_take, length_drop. lia. Qed.

Lemma read_header_prefix inp :
  (13 <= length inp)%nat → read_header inp = Ok (prefix_of inp, drop 13 inp).
Proof.
  intros Hl. unfold read_header, prefix_of.
  rewrite read_ok by os_len. cbn [mbind res_bind field_size].
  rewrite read_ok by os_len. cbn [mbind res_bind field_size].
  rewrite read_ok by os_len. cbn [mbind res_bind field_size].
  rewrite read_ok by os_len. cbn [field_size]. by rewrite !drop_drop.
Qed.

Lemma byte_of_eq z b : z mod 2 ^ 8 = bval b → byte_of z = b.
Proof. intros Hz. unfold byte_of. rewrite Hz. rewrite <-(byte_of_bval b) at 2.
  unfold byte_of. by rewrite Z.mod_small by apply bval_range. Qed.

Lemma field_of_readp p : length p = 4%nat → field_bytes uint32_t (readp uint32_t p) = p.
Proof.
  destruct p as [|b0 [|b1 [|b2 [|b3 [|? ?]]]]]; try done. intros _.
  pose proof (bval_range b0). pose proof (bval_range b1).
  pose proof (bval_range b2). pose proof (bval_range b3).
  assert (readp uint32_t [b0; b1; b2; b3]
    = ((bval b0 * 2 ^ 8 + bval b1) * 2 ^ 8 + bval b2) * 2 ^ 8 + bval b3) as ->.
  { cbn [readp nth]. change (Z.shiftl (bval b0) 24) with (Z.shiftl (bval b0) (16 + 8)).
    rewrite lor_step by lia. change 16 with (8 + 8) at 1. rewrite lor_step by lia.
    by rewrite lor_shiftl_add. }
  cbn [field_bytes]. f_equal; [|f_equal; [|f_equal; [|f_equal]]]; apply byte_of_eq;
    rewrite <-bval_byte_of, bval_field by lia; Z.to_euclidean_division_equations; lia.
Qed.

Lemma normalize_header inp :
  (13 <= length inp)%nat → normalize inp = header (prefix_of inp) ++ drop 13 inp.
Proof.
  intros Hl. unfold normalize, header, prefix_of.
  rewrite field_of_readp by (rewrite length_take, length_drop; lia).
  change (replicate 9 x00) with (field_bytes uint32_t 0 ++ field_bytes uint32_t 0
    ++ field_bytes uint8_t hotUNKNOWN).
  rewrite <-!app_assoc. do 3 f_equal. 
  rewrite <-(take_drop 4 (drop 9 inp)) at 1. by rewrite drop_drop.
Qed.

Lemma filter_inner_normalize inp :
  filter_inner inp = Ok (if is_inner_v1 inp then normalize inp else inp).
Proof.
  unfold filter_inner, is_inner_v1. destruct (Nat.eqb (length inp) 525) eqn:Hl; [|done].
  apply Nat.eqb_eq in Hl. rewrite read_header_prefix by lia. cbn [mbind res_bind andb].
  by destruct (prefix_of inp =? innerNode).
Qed.

(** ** The encodings *)

Section codec.
Context `{!LZ4}.

Lemma compress_dispatch inp :
  nodeobject_compress inp =
    if is_inner_v1 inp then compress_v1 (drop 13 inp)
    else if is_inner_v2 inp then compress_v2 (drop 13 inp)
    else compress_lz4 inp.
Proof.
  unfold nodeobject_compress, is_inner_v1, is_inner_v2.
  destruct (Nat.eqb (length inp) 525) eqn:H1; cbn [andb].
  - apply Nat.eqb_eq in H1. rewrite read_header_prefix by lia. cbn [mbind res_bind].
    destruct (prefix_of inp =? innerNode); [done|]. by rewrite H1.
  - cbn [mbind res_bind]. destruct (Nat.leb 526 (length inp)) eqn:H2; cbn [andb]; [|done].
    destruct (Nat.leb (length inp) 556); cbn [andb]; [|done]. apply Nat.leb_le in H2.
    rewrite read_header_prefix by lia. cbn [mbind res_bind].
    by destruct (prefix_of inp =? innerNodeV2).
Qed.

Lemma is_inner_v1_true inp :
  is_inner_v1 inp = true → length inp = 525%nat ∧ prefix_of inp = innerNode
    ∧ concat (hashes inp) = drop 13 inp ∧ Forall is_block (hashes inp)
    ∧ length (hashes inp) = 16%nat.
Proof.
  intros [Hl%Nat.eqb_eq Hp%Z.eqb_eq]%andb_true_iff. destruct (hashes_ok inp) as (Hc&?&?); [lia|].
  rewrite take_ge in Hc by (rewrite length_drop; lia). done.
Qed.

(** A version 2 node of the right length ends in its depth and common prefix. *)
Lemma is_inner_v2_true inp :
  is_inner_v2 inp = true → exact_v2 inp = true →
  prefix_of inp = innerNodeV2 ∧ Forall is_block (hashes inp) ∧ length (hashes inp) = 16%nat
  ∧ is_inner_v1 inp = false ∧ 0 <= depth_of inp <= field_max uint8_t
  ∧ (common_size (depth_of inp) <= 30)%nat
  ∧ ∃ c, length c = common_size (depth_of inp)
      ∧ drop 13 inp = concat (hashes inp) ++ field_bytes uint8_t (depth_of inp) ++ c.
Proof.
  intros [[Hl1%Nat.leb_le Hl2%Nat.leb_le]%andb_true_iff Hp%Z.eqb_eq]%andb_true_iff Hx%Nat.eqb_eq.
  destruct (hashes_ok inp) as (Hc&?&?); [lia|]. split_and!; [done..| | | |lia|].
  - unfold is_inner_v1. by rewrite (proj2 (Nat.eqb_neq _ _)) by lia.
  - apply readp_uint8.
  - apply readp_uint8.
  - exists (drop 526 inp). split; [rewrite length_drop; lia|]. rewrite Hc.
    rewrite <-(take_drop 512 (drop 13 inp)) at 1. f_equal. rewrite drop_drop.
    change (13 + 512)%nat with 525%nat. unfold depth_of.
    assert (∃ b, drop 525 inp = b :: drop 526 inp) as [b Hb].
    { destruct (drop 525 inp) as [|b l] eqn:Hd.
      - apply (f_equal length) in Hd. rewrite length_drop in Hd. simpl in Hd. lia.
      - exists b. f_equal. change 526%nat with (525 + 1)%nat.
        by rewrite <-drop_drop, Hd. }
    rewrite Hb. cbn [firstn field_bytes readp nth app]. by rewrite byte_of_bval.
Qed.

Lemma codec_inner_v1 inp :
  is_inner_v1 inp = true → children inp ≠ [] →
  ∃ c, nodeobject_compress inp = Ok c ∧ nodeobject_decompress c = Ok (normalize inp)
    ∧ length c = if Nat.ltb (length (children inp)) 16
                 then (3 + 32 * length (children inp))%nat else 513%nat.
Proof.
  intros Hin Hch. destruct (is_inner_v1_true inp Hin) as (Hl&Hp&Hc&Hb&H16).
  rewrite compress_dispatch, Hin, normalize_header, Hp, <-Hc, compress_v1_ok by (done || lia).
  eexists. split; [done|]. unfold children in *.
  destruct (Nat.ltb _ 16) eqn:Hn; (split; [rewrite decompress_tag by lia; cbn [Z.eqb Pos.eqb]|]).
  - by apply decompress_v1_ok.
  - cbn [length]. rewrite length_app, length_field_bytes, length_stored by done.
    cbn [field_size]. lia.
  - by apply decompress_full_v1_ok.
  - cbn [length]. by rewrite length_hashes.
Qed.

Lemma codec_inner_v2 inp :
  is_inner_v2 inp = true → exact_v2 inp = true → (2 <= length (children inp))%nat →
  ∃ c, nodeobject_compress inp = Ok c ∧ nodeobject_decompress c = Ok (normalize inp).
Proof.
  intros Hin Hx Hch. destruct (is_inner_v2_true inp Hin Hx) as (Hp&Hb&H16&Hv1&Hd&Hc30&c&Hc&Heq).
  assert (13 <= length inp)%nat as Hl13.
  { apply (f_equal length) in Heq. rewrite length_drop, length_app, length_hashes in Heq by done. lia. }
  rewrite compress_dispatch, Hv1, Hin, normalize_header, Hp, Heq by done.
  rewrite compress_v2_ok by (done || lia). eexists. split; [done|]. unfold children in *.
  destruct (Nat.ltb _ 16); rewrite decompress_tag by lia; cbn [Z.eqb Pos.eqb].
  - by apply decompress_v2_ok.
  - by apply decompress_full_v2_ok.
Qed.

Lemma codec_lz4 `{!LZ4Laws} inp :
  inp ≠ [] → Z.of_nat (length inp) <= LZ4_MAX_INPUT_SIZE →
  is_inner_v1 inp = false → is_inner_v2 inp = false →
  ∃ c, nodeobject_compress inp = Ok c ∧ nodeobject_decompress c = Ok inp
    ∧ Z.of_nat (length c) <= 11 + LZ4_compressBound (Z.of_nat (length inp)).
Proof.
  intros Hne Hmax H1 H2. rewrite compress_dispatch, H1, H2. pose proof (lz4_fits inp Hne Hmax) as [Hpos Hfit].
  pose proof (lz4_restores inp Hne Hmax) as Hre. set (out := LZ4_compress inp) in *.
  assert (LZ4_compressBound (Z.of_nat (length inp)) < 2 ^ 32) as Hb.
  { unfold LZ4_compressBound, LZ4_MAX_INPUT_SIZE in *. rewrite (proj2 (Z.ltb_ge _ _)) by lia.
    Z.to_euclidean_division_equations. lia. }
  unfold LZ4_MAX_INPUT_SIZE in Hmax.
  destruct (write_varint_spec (Z.of_nat (length inp))) as (ds&Hw&Hd1&Hd2&_&Hr); [lia|].
  unfold varint_max in Hd1. unfold compress_lz4, lz4_compress.
  change (write_varint 1) with (Ok [byte_of 1]). fold out.
  cbn [mbind res_bind]. rewrite Hw. cbn [mbind res_bind].
  rewrite os_put_ok by os_len. cbn [mbind res_bind os_out os_cap os_open].
  rewrite os_put_ok by os_len. cbn [mbind res_bind os_out os_cap app].
  rewrite (proj2 (Nat.eqb_neq _ _)) by lia.
  cbn [mbind res_bind]. eexists. split; [done|]. split.
  - rewrite decompress_tag by lia. cbn [Z.eqb Pos.eqb]. unfold lz4_decompress. rewrite Hr.
    cbn [mbind res_bind]. rewrite (proj2 (Nat.eqb_neq _ _)) by lia.
    rewrite drop_app_length, i32_small, Hre by lia.
    rewrite u64_small, (proj2 (Z.eqb_eq _ _)) by (rewrite ?length_app; lia). done.
  - cbn [length]. rewrite length_app. lia.
Qed.

(** A version 1 inner node with at least one child compresses to 3 bytes and 32 for each
    child, or 513 bytes when it is full, and decompresses to what filter_inner makes of
    it: the node with its first nine bytes zeroed. *)
Theorem codec_inner_v1_roundtrip inp
  (Hin : is_inner_v1 inp = true) (Hch : children inp ≠ []) :
  ∃ c out, nodeobject_compress inp = Ok c ∧ nodeobject_decompress c = Ok out
    ∧ out = normalize inp ∧ filter_inner inp = Ok out
    ∧ length c = if Nat.ltb (length (children inp)) 16
                 then (3 + 32 * length (children inp))%nat else 513%nat.
Proof.
  destruct (codec_inner_v1 inp Hin Hch) as (c&?&?&?). exists c, (normalize inp).
  by rewrite filter_inner_normalize, Hin.
Qed.

(** A version 2 inner node of the length its depth says and with at least two children
    is restored by compressing and decompressing it, with its first nine bytes zeroed.
    *)
Theorem codec_inner_v2_roundtrip inp
  (Hin : is_inner_v2 inp = true) (Hx : exact_v2 inp = true)
  (Hch : (2 <= length (children inp))%nat) :
  ∃ c, nodeobject_compress inp = Ok c ∧ nodeobject_decompress c = Ok (normalize inp).
Proof. by apply codec_inner_v2. Qed.

Lemma codec_inner_v2_few inp :
  is_inner_v2 inp = true → exact_v2 inp = true → (length (children inp) <= 1)%nat →
  ∃ c, nodeobject_compress inp = Ok c ∧ nodeobject_decompress c = Err exception_thrown.
Proof.
  intros Hin Hx Hch. destruct (is_inner_v2_true inp Hin Hx) as (Hp&Hb&H16&Hv1&Hd&Hc30&c&Hc&Heq).
  rewrite compress_dispatch, Hv1, Hin, Heq, compress_v2_ok by (done || lia).
  unfold children in Hch. rewrite (proj2 (Nat.ltb_lt _ _)) by lia.
  eexists. split; [done|]. rewrite decompress_tag by lia. cbn [Z.eqb Pos.eqb].
  unfold decompress_v2. rewrite (proj2 (Nat.ltb_lt _ _)); [done|].
  rewrite !length_app, !length_field_bytes, length_stored by done. cbn [field_size]. lia.
Qed.

(** A version 1 inner node without children compresses to a blob that does not
    decompress. *)
Theorem codec_empty_v1_unreadable inp
  (Hin : is_inner_v1 inp = true) (Hch : children inp = []) :
  ∃ c, nodeobject_compress inp = Ok c ∧ nodeobject_decompress c = Err exception_thrown.
Proof.
  destruct (is_inner_v1_true inp Hin) as (Hl&Hp&Hc&Hb&H16).
  rewrite compress_dispatch, Hin, <-Hc, compress_v1_ok by done.
  unfold children in Hch. rewrite Hch. cbn [length]. change (Nat.ltb 0 16) with true. cbn iota.
  eexists. split; [done|]. rewrite decompress_tag by lia. cbn [Z.eqb Pos.eqb concat].
  rewrite app_nil_r. unfold decompress_v1. by rewrite length_field_bytes.
Qed.

(** C36: The decoder stays inside its buffers on every input that is not empty and not a
    bare LZ4 tag: it returns a blob, throws, or fails the assertion of the stream; what
    LZ4 itself reads is its own. *)
Theorem codec_decoder_safe inp
  (Hne : inp ≠ []) (Hlz : ∀ vn, read_varint inp = Ok (vn, 1) → drop vn inp ≠ []) :
  match nodeobject_decompress inp with
  | Ok _ => True
  | Err e => e = exception_thrown ∨ e = assert_failed
  end.
Proof.
  unfold nodeobject_decompress. destruct (read_varint_safe inp Hne) as (vn&t&Hr&Hvn&Ht).
  rewrite Hr. cbn [mbind res_bind]. destruct (Nat.eqb vn 0); [by left|].
  destruct (t =? 0); [done|]. destruct (t =? 1) eqn:H1.
  { apply Z.eqb_eq in H1. subst t. unfold lz4_decompress.
    destruct (read_varint_safe (drop vn inp) (Hlz _ Hr)) as (n&sz&->&_). cbn [mbind res_bind].
    destruct (Nat.eqb n 0); [by left|]. destruct (LZ4_decompress_fast _ _).
    destruct (negb _); [by left|done]. }
  destruct (t =? 2); [apply decompress_v1_safe|].
  destruct (t =? 3); [apply decompress_full_v1_safe|].
  destruct (t =? 5); [apply decompress_v2_safe|].
  destruct (t =? 6); [apply decompress_full_v2_safe|by left].
Qed.
End codec.
