(* ===== verification/NodeBackend.v ===== *)
(** * Node objects in the NuDB backend

    [nodestore/NodeObject.h], [impl/EncodedBlob.cpp], [impl/DecodedBlob.cpp] and the
    operations [fetch], [store] and [storeBatch] of [backend/NuDBFactory.cpp] around the
    codec of NodeCodec.v.  The key/value database is the class [Nudb]. *)

From S2P Require Import Prelude Bytes Varint NodeCodec CodecLemmas CodecProps.
Local Open Scope Z_scope.

(** ** Node objects and their flat form *)

Record NodeObject := mkNodeObject { mType : Z; mData : bytes; mHash : bytes }.

(** [EncodedBlob::prepare]: the key and the value. *)
Definition EncodedBlob_prepare (object : NodeObject) : bytes * bytes :=
  (mHash object, replicate 8 x00 ++ [byte_of (mType object)] ++ mData object).

Record DecodedBlob := mkDecoded {
  m_success : bool; m_key : bytes; m_objectType : Z; m_objectData : option bytes; m_dataBytes : Z
}.

Definition known_type (t : Z) : bool :=
  (t =? hotUNKNOWN) || (t =? hotLEDGER) || (t =? hotACCOUNT_NODE) || (t =? hotTRANSACTION_NODE).

(** The constructor; [valueBytes] is an [int]. *)
Definition DecodedBlob_init (key value : bytes) (valueBytes : Z) : DecodedBlob :=
  let dataBytes := Z.max 0 (i32 (valueBytes - 9)) in
  let objectType := if 8 <? valueBytes then bval (nth 8 value x00) else hotUNKNOWN in
  if 9 <? valueBytes
  then mkDecoded (known_type objectType) key objectType (Some (drop 9 value)) dataBytes
  else mkDecoded false key objectType None dataBytes.

Definition wasOk (d : DecodedBlob) : bool := m_success d.

Definition DecodedBlob_createObject (d : DecodedBlob) : res NodeObject :=
  assert_ (m_success d);;
  data ← deref (m_objectData d);
  if decide (Z.to_nat (m_dataBytes d) <= length data)%nat
  then Ok (mkNodeObject (m_objectType d) (take (Z.to_nat (m_dataBytes d)) data) (m_key d))
  else Err undefined.

(** ** The database *)

Inductive error_code := ec_ok | key_exists | key_not_found | ec_other.

Class Nudb := {
  DB : Type;
  db_insert : bytes → bytes → DB → DB * error_code;
  db_fetch : bytes → DB → bytes + error_code
}.

Class NudbLaws `{!Nudb} : Prop := {
  insert_new k v d d' : db_insert k v d = (d', ec_ok) →
    db_fetch k d' = inl v ∧ ∀ k', k' ≠ k → db_fetch k' d' = db_fetch k' d;
  insert_failed k v d d' ec : db_insert k v d = (d', ec) → ec ≠ ec_ok →
    ∀ k', db_fetch k' d' = db_fetch k' d;
  insert_exists k v d d' : db_insert k v d = (d', key_exists) → ∃ v', db_fetch k d = inl v'
}.

(** The database takes a value under [k]. *)
Definition accepts `{!Nudb} (k : bytes) (d : DB) : Prop := ∀ v, (db_insert k v d).2 = ec_ok.

Inductive Status := notFound | status_ok | dataCorrupt.

Section backend.
Context `{!LZ4} `{!Nudb}.

Definition fetch (key : bytes) (db : DB) : res (Status * option NodeObject) :=
  match db_fetch key db with
  | inl data =>
      result ← nodeobject_decompress data;
      let decoded := DecodedBlob_init key result (i32 (Z.of_nat (length result))) in
      if negb (wasOk decoded) then Ok (dataCorrupt, None)
      else no ← DecodedBlob_createObject decoded; Ok (status_ok, Some no)
  | inr key_not_found => Ok (notFound, None)
  | inr _ => Err exception_thrown
  end.

Definition do_insert (no : NodeObject) (db : DB) : res DB :=
  let '(key, data) := EncodedBlob_prepare no in
  result ← nodeobject_compress data;
  let '(db, ec) := db_insert key result db in
  match ec with
  | ec_ok | key_exists => Ok db
  | _ => Err exception_thrown
  end.

Definition store (no : NodeObject) (db : DB) : res DB := do_insert no db.

Fixpoint storeBatch (batch : list NodeObject) (db : DB) : res DB :=
  match batch with
  | [] => Ok db
  | e :: batch => db ← do_insert e db; storeBatch batch db
  end.

(** ** What comes back *)

Definition blob (no : NodeObject) : bytes := (EncodedBlob_prepare no).2.

Definition is_inner (inp : bytes) : bool := is_inner_v1 inp || is_inner_v2 inp.

(** Objects the backend can give back: the type is one of the enumeration, the data is
    not empty nor too long, and an inner node has enough children for its encoding. *)
Definition storable (no : NodeObject) : Prop :=
  known_type (mType no) = true ∧ mData no ≠ []
  ∧ Z.of_nat (length (blob no)) <= LZ4_MAX_INPUT_SIZE
  ∧ (is_inner_v1 (blob no) = true → children (blob no) ≠ [])
  ∧ (is_inner_v2 (blob no) = true → exact_v2 (blob no) = true
     ∧ (2 <= length (children (blob no)))%nat).

(** The codec does not keep the type of an inner node. *)
Definition restored (no : NodeObject) : NodeObject :=
  mkNodeObject (if is_inner (blob no) then hotUNKNOWN else mType no) (mData no) (mHash no).

Lemma length_blob no : length (blob no) = (9 + length (mData no))%nat.
Proof. unfold blob, EncodedBlob_prepare. simpl. lia. Qed.

Lemma known_range t : known_type t = true → 0 <= t <= 4.
Proof.
  unfold known_type, hotUNKNOWN, hotLEDGER, hotACCOUNT_NODE, hotTRANSACTION_NODE.
  rewrite !orb_true_iff, !Z.eqb_eq. lia.
Qed.

(** Decoding a blob whose ninth byte is the type [t]. *)
Lemma decode_blob key t data :
  known_type t = true → data ≠ [] → Z.of_nat (length data) + 9 < 2 ^ 31 →
  let v := replicate 8 x00 ++ [byte_of t] ++ data in
  let d := DecodedBlob_init key v (i32 (Z.of_nat (length v))) in
  wasOk d = true ∧ DecodedBlob_createObject d = Ok (mkNodeObject t data key).
Proof.
  intros Ht Hne Hlen v d. pose proof (known_range t Ht).
  assert (Z.of_nat (length v) = Z.of_nat (length data) + 9) as Hv by (unfold v; simpl; lia).
  assert (0 < Z.of_nat (length data)) by (destruct data; [done|simpl; lia]).
  assert (d = mkDecoded true key t (Some data) (Z.of_nat (length data))) as Hd.
  { unfold d, DecodedBlob_init. rewrite Hv, i32_small by lia.
    rewrite !(proj2 (Z.ltb_lt _ _)) by lia. change (nth 8 v x00) with (byte_of t).
    rewrite bval_byte_of, Z.mod_small, Ht by lia. change (drop 9 v) with data.
    f_equal. rewrite i32_small by lia. lia. }
  rewrite Hd. split; [done|]. unfold DecodedBlob_createObject. cbn [m_success m_objectData m_dataBytes
    m_objectType m_key assert_ mbind res_bind deref]. rewrite Nat2Z.id, decide_True by lia.
  by rewrite take_ge by lia.
Qed.

(** What the codec does to a storable object. *)
Lemma codec_storable `{!LZ4Laws} no :
  storable no →
  ∃ c, nodeobject_compress (blob no) = Ok c
    ∧ nodeobject_decompress c = Ok (blob (restored no)).
Proof.
  intros (Ht&Hne&Hmax&Hi1&Hi2). unfold restored, is_inner.
  assert (normalize (blob no) = replicate 8 x00 ++ [byte_of hotUNKNOWN] ++ mData no) as Hn by done.
  destruct (is_inner_v1 (blob no)) eqn:Hv1.
  { destruct (codec_inner_v1 (blob no) Hv1 (Hi1 eq_refl)) as (c&?&Hd&_). exists c.
    split; [done|]. by rewrite Hd. }
  destruct (is_inner_v2 (blob no)) eqn:Hv2.
  { destruct (Hi2 eq_refl) as [Hx Hch]. destruct (codec_inner_v2 (blob no) Hv2 Hx Hch) as (c&?&Hd).
    exists c. split; [done|]. by rewrite Hd. }
  destruct (codec_lz4 (blob no)) as (c&?&Hd&_); [by intros ?%(f_equal length)|done..|].
  exists c. by destruct no.
Qed.

Lemma fetch_stored `{!LZ4Laws} no db c :
  storable no → nodeobject_compress (blob no) = Ok c → db_fetch (mHash no) db = inl c →
  fetch (mHash no) db = Ok (status_ok, Some (restored no)).
Proof.
  intros Hs Hc Hf. destruct (codec_storable no Hs) as (c'&Hc'&Hd).
  assert (c' = c) as -> by congruence. unfold fetch. rewrite Hf, Hd. cbn [mbind res_bind].
  destruct Hs as (Ht&Hne&Hmax&_). rewrite length_blob in Hmax.
  assert (known_type (mType (restored no)) = true) as Hk
    by (unfold restored; cbn [mType]; by destruct (is_inner (blob no))).
  destruct (decode_blob (mHash no) (mType (restored no)) (mData (restored no)) Hk) as [Hok Hco];
    [done|unfold LZ4_MAX_INPUT_SIZE in Hmax; cbn [restored mData]; lia|].
  change (replicate 8 x00 ++ [byte_of (mType (restored no))] ++ mData (restored no))
    with (blob (restored no)) in *.
  rewrite Hok. cbn [negb]. by rewrite Hco.
Qed.

(** An insertion of an absent key. *)
Lemma do_insert_new `{!NudbLaws} no db db' :
  do_insert no db = Ok db' → db_fetch (mHash no) db = inr key_not_found →
  ∃ c, nodeobject_compress (blob no) = Ok c ∧ db_fetch (mHash no) db' = inl c
    ∧ ∀ k, k ≠ mHash no → db_fetch k db' = db_fetch k db.
Proof.
  unfold do_insert. intros Hi Habs. destruct (EncodedBlob_prepare no) as [key data] eqn:Hp.
  apply bind_ok in Hi as (c&Hc&Hi). assert (blob no = data) as -> by (unfold blob; by rewrite Hp).
  assert (key = mHash no) as -> by (unfold EncodedBlob_prepare in Hp; congruence).
  exists c. split; [done|]. destruct (db_insert (mHash no) c db) as [db1 ec] eqn:He.
  destruct ec; simplify_eq.
  - by eapply insert_new.
  - destruct (insert_exists _ _ _ _ He) as [v Hv]. congruence.
Qed.

(** What the codec can write is stored when the database takes it. *)
Lemma store_accepted `{!NudbLaws} no db c :
  nodeobject_compress (blob no) = Ok c → accepts (mHash no) db →
  ∃ db', store no db = Ok db' ∧ db_fetch (mHash no) db' = inl c.
Proof.
  intros Hc Ha. unfold store, do_insert. change (EncodedBlob_prepare no) with (mHash no, blob no). cbn iota.
  rewrite Hc. cbn [mbind res_bind]. specialize (Ha c). destruct (db_insert (mHash no) c db) as [db' ec] eqn:E. cbn in Ha. subst ec.
  exists db'. split; [done|]. by apply (insert_new _ _ _ _ E).
Qed.

(** C35: A node object whose hash is not in the database, with a known type, data that
    is neither empty nor too long and, when it is an inner node, enough children (one in
    version 1, two in version 2) and in version 2 the length its depth says, is stored
    under its hash without failure other than of the database, and certainly when the
    database takes it; fetching that hash then gives it back: hash and data as they
    were, and the type too unless it is an inner node, whose type the codec does not
    keep; every other key is fetched as before. *)
Theorem backend_store_fetch `{!LZ4Laws, !NudbLaws} no db
  (Hs : storable no) (Habs : db_fetch (mHash no) db = inr key_not_found) :
  (store no db = Err exception_thrown ∨ ∃ db', store no db = Ok db')
  ∧ (accepts (mHash no) db → ∃ db', store no db = Ok db')
  ∧ ∀ db', store no db = Ok db' →
      fetch (mHash no) db' = Ok (status_ok, Some (restored no))
      ∧ ∀ k, k ≠ mHash no → fetch k db' = fetch k db.
Proof.
  destruct (codec_storable no Hs) as (c&Hc&_). split_and!.
  - unfold store, do_insert. change (EncodedBlob_prepare no) with (mHash no, blob no). cbn iota. rewrite Hc.
    cbn [mbind res_bind]. destruct (db_insert _ c db) as [db' []]; eauto.
  - intros Ha. destruct (store_accepted no db c Hc Ha) as (db'&?&_). eauto.
  - intros db' Hi. destruct (do_insert_new no db db' Hi Habs) as (c'&Hc'&Hf&Ho).
    split; [by eapply fetch_stored|]. intros k Hk. unfold fetch. by rewrite Ho.
Qed.

Lemma storeBatch_new `{!NudbLaws} batch db db' :
  storeBatch batch db = Ok db' → NoDup (mHash <$> batch) →
  Forall (fun no => db_fetch (mHash no) db = inr key_not_found) batch →
  Forall (fun no => ∃ c, nodeobject_compress (blob no) = Ok c ∧ db_fetch (mHash no) db' = inl c) batch
  ∧ ∀ k, k ∉ mHash <$> batch → db_fetch k db' = db_fetch k db.
Proof.
  revert db. induction batch as [|no batch IH]; intros db Hb Hnd Habs; simplify_eq/=.
  { done. }
  apply Forall_cons in Habs as [Ha Habs]. apply NoDup_cons in Hnd as [Hn Hnd].
  apply bind_ok in Hb as (db1&Hi&Hb). destruct (do_insert_new no db db1 Hi Ha) as (c&Hc&Hf&Ho).
  destruct (IH db1 Hb Hnd) as [Hin Hout].
  { apply Forall_forall. intros x Hx. rewrite Ho; [by eapply Forall_forall in Habs|].
    intros E. apply Hn. rewrite <-E. by apply list_elem_of_fmap_2. }
  split.
  - constructor; [|done]. exists c. by rewrite Hout.
  - intros k [Hk1 Hk2]%not_elem_of_cons. rewrite Hout by done. by apply Ho.
Qed.

(** After a batch of storable objects under distinct new keys was stored, every one of
    them is fetched back and every other key is fetched as before. *)
Theorem backend_batch_fetch `{!LZ4Laws, !NudbLaws} batch db db'
  (Hs : Forall storable batch) (Hnd : NoDup (mHash <$> batch))
  (Habs : Forall (fun no => db_fetch (mHash no) db = inr key_not_found) batch)
  (Hb : storeBatch batch db = Ok db') :
  Forall (fun no => fetch (mHash no) db' = Ok (status_ok, Some (restored no))) batch
  ∧ ∀ k, k ∉ mHash <$> batch → fetch k db' = fetch k db.
Proof.
  destruct (storeBatch_new batch db db' Hb Hnd Habs) as [Hin Hout]. split.
  - apply Forall_forall. intros no Hno. eapply Forall_forall in Hin as (c&Hc&Hf); [|done].
    eapply Forall_forall in Hs; [|done]. by eapply fetch_stored.
  - intros k Hk. unfold fetch. by rewrite Hout.
Qed.

(** C40: A version 2 inner node of the length its depth says with at most one child,
    such as the root of a tree with one leaf, is stored without complaint by a database
    that takes its hash, and cannot be fetched: the decoder throws. *)
Theorem backend_inner_unreadable `{!LZ4Laws, !NudbLaws} no db
  (Hin : is_inner_v2 (blob no) = true) (Hx : exact_v2 (blob no) = true)
  (Hch : (length (children (blob no)) <= 1)%nat) (Hacc : accepts (mHash no) db) :
  ∃ db', store no db = Ok db' ∧ fetch (mHash no) db' = Err exception_thrown.
Proof.
  destruct (codec_inner_v2_few (blob no) Hin Hx Hch) as (c&Hc&Hd).
  destruct (store_accepted no db c Hc Hacc) as (db'&Hst&Hf). exists db'. split; [done|].
  unfold fetch. by rewrite Hf, Hd.
Qed.
End backend.

(** ** Instances

    A compressor that stores its input, and an association list for the database. *)

#[local] Instance lz4_store : LZ4 := {|
  LZ4_compress inp := inp;
  LZ4_decompress_fast src n := (n, take (Z.to_nat n) src)
|}.
#[local] Instance lz4_store_laws : LZ4Laws.
Proof.
  split; simpl; intros inp Hne Hmax.
  - unfold LZ4_compressBound. rewrite (proj2 (Z.ltb_ge _ _)) by done.
    assert (0 < length inp)%nat by (destruct inp; [done|simpl; lia]).
    pose proof (Z.div_pos (Z.of_nat (length inp)) 255). lia.
  - by rewrite Nat2Z.id, take_ge by lia.
Qed.

Fixpoint assoc (k : bytes) (d : list (bytes * bytes)) : option bytes :=
  match d with [] => None | (k', v) :: d => if decide (k = k') then Some v else assoc k d end.
#[local] Instance nudb_assoc : Nudb := {|
  DB := list (bytes * bytes);
  db_insert k v d := match assoc k d with Some _ => (d, key_exists) | None => ((k, v) :: d, ec_ok) end;
  db_fetch k d := match assoc k d with Some v => inl v | None => inr key_not_found end
|}.
#[local] Instance nudb_assoc_laws : NudbLaws.
Proof.
  split; simpl.
  - intros k v d d'. destruct (assoc k d); [done|]. intros [= <-]. simpl.
    rewrite decide_True by done. split; [done|]. intros k' Hk. by rewrite decide_False.
  - intros k v d d' ec. destruct (assoc k d); [|congruence]. by intros [= <- <-].
  - intros k v d d'. destruct (assoc k d); [eauto|done].
Qed.

Definition demo_db : DB := ([] : list (bytes * bytes)).

(** A leaf, a version 1 node with two children, and a version 2 root with one. *)
Definition demo_hash (n : Z) : bytes := replicate 31 x00 ++ [byte_of n].
Definition demo_block (n : Z) : bytes := replicate 32 (byte_of n).
Definition demo_leaf : NodeObject := mkNodeObject hotACCOUNT_NODE [x01; x02; x03] (demo_hash 1).
Definition demo_inner : NodeObject :=
  mkNodeObject hotACCOUNT_NODE
    (field_bytes uint32_t innerNode ++ demo_block 7 ++ zero32 ++ demo_block 9
     ++ replicate (13 * 32) x00) (demo_hash 2).
Definition demo_root : NodeObject :=
  mkNodeObject hotACCOUNT_NODE
    (field_bytes uint32_t innerNodeV2 ++ demo_block 7 ++ replicate (15 * 32) x00 ++ [x00])
    (demo_hash 3).
Definition demo_pair : NodeObject :=
  mkNodeObject hotACCOUNT_NODE
    (field_bytes uint32_t innerNodeV2 ++ demo_block 7 ++ demo_block 8
     ++ replicate (14 * 32) x00 ++ [x03; x0a; x0b]) (demo_hash 4).

Lemma demo_leaf_storable : storable demo_leaf.
Proof. split_and!; [by vm_compute..|vm_compute; discriminate|vm_compute; discriminate]. Qed.
Lemma demo_inner_storable : storable demo_inner.
Proof. split_and!; [by vm_compute..| |vm_compute; discriminate]. intros _. by vm_compute. Qed.

Lemma backend_store_fetch_witness :
  restored demo_inner ≠ demo_inner
  ∧ ∃ db', store demo_inner demo_db = Ok db'
    ∧ fetch (demo_hash 2) db' = Ok (status_ok, Some (restored demo_inner)).
Proof.
  split; [by vm_compute|].
  destruct (backend_store_fetch demo_inner demo_db demo_inner_storable eq_refl) as (_&_&H).
  eexists. split; [vm_compute; reflexivity|]. apply H. vm_compute. reflexivity.
Defined.

Lemma backend_batch_fetch_witness :
  ∃ db', storeBatch [demo_leaf; demo_inner] demo_db = Ok db'
    ∧ Forall (fun no => fetch (mHash no) db' = Ok (status_ok, Some (restored no)))
        [demo_leaf; demo_inner].
Proof.
  destruct (storeBatch [demo_leaf; demo_inner] demo_db) as [db'|] eqn:Hb.
  2:{ exfalso. revert Hb. vm_compute. discriminate. }
  exists db'. split; [done|].
  apply (backend_batch_fetch [demo_leaf; demo_inner] demo_db db').
  - constructor; [exact demo_leaf_storable|]. constructor; [exact demo_inner_storable|constructor].
  - by_compute.
  - repeat constructor.
  - exact Hb.
Defined.

Lemma backend_inner_unreadable_witness :
  ∃ db', store demo_root demo_db = Ok db' ∧ fetch (demo_hash 3) db' = Err exception_thrown.
Proof.
  apply (backend_inner_unreadable demo_root demo_db); [by vm_compute|by vm_compute|vm_compute; lia|]. intros v. reflexivity.
Defined.

Lemma codec_inner_v1_roundtrip_witness :
  ∃ c out, nodeobject_compress (blob demo_inner) = Ok c ∧ nodeobject_decompress c = Ok out
    ∧ length c = 67%nat.
Proof.
  destruct (codec_inner_v1_roundtrip (blob demo_inner)) as (c&out&?&?&_&_&Hl);
    [by vm_compute|by vm_compute|].
  exists c, out. split_and!; [done..|]. rewrite Hl. vm_compute. reflexivity.
Defined.

Lemma codec_inner_v2_roundtrip_witness :
  ∃ c, nodeobject_compress (blob demo_pair) = Ok c
    ∧ nodeobject_decompress c = Ok (normalize (blob demo_pair)).
Proof.
  apply (codec_inner_v2_roundtrip (blob demo_pair)); [by vm_compute|by vm_compute|vm_compute; lia].
Defined.

Lemma codec_decoder_safe_witness :
  match nodeobject_decompress [x05; x00; x00] with
  | Ok _ => True
  | Err e => e = exception_thrown ∨ e = assert_failed
  end.
Proof.
  apply (codec_decoder_safe [x05; x00; x00]); [done|].
  intros vn. vm_compute. discriminate.
Defined.

Lemma codec_empty_v1_unreadable_witness :
  ∃ c, nodeobject_compress (replicate 9 x00 ++ field_bytes uint32_t innerNode ++ replicate 512 x00) = Ok c
    ∧ nodeobject_decompress c = Err exception_thrown.
Proof.
  apply (codec_empty_v1_unreadable
    (replicate 9 x00 ++ field_bytes uint32_t innerNode ++ replicate 512 x00));
    by vm_compute.
Defined.
