(* ===== verification/NodeDatabase.v ===== *)
(** * The node database over its backend ([nodestore/impl/DatabaseImp.h])

    Storing and fetching of node objects with the positive cache [m_cache] and the negative
    cache [m_negCache] in front of the backend of NodeBackend.v.  Of the caches only what they
    hold is kept: the objects [m_cache] can still hand out and the keys [m_negCache] has.
    Either may lose entries between two calls ([forgets]), by a sweep or because the last
    owner of an object that is tracked weakly went away (TaggedCache.v, KeyCache.v). *)

From S2P Require Import Prelude Bytes Varint NodeCodec CodecLemmas CodecProps NodeBackend.
Local Open Scope Z_scope.

Section database.
Context `{!LZ4} `{!Nudb}.

Record DatabaseImp := mkDatabase {
  m_cache : gmap bytes NodeObject;
  m_negCache : gset bytes;
  m_backend : DB
}.

(** [store]: the object replaces one that is cached; the negative entry goes after the object
    was written. *)
Definition storeInternal (object : NodeObject) (s : DatabaseImp) : res DatabaseImp :=
  let cache := <[mHash object := object]> (m_cache s) in
  db ← store object (m_backend s);
  Ok (mkDatabase cache (m_negCache s ∖ {[mHash object]}) db).

(** [fetchInternal]: a corrupt object is logged and not returned. *)
Definition fetchInternal (hash : bytes) (db : DB) : res (option NodeObject) :=
  '(_, object) ← fetch hash db;
  Ok object.

Definition doFetch (hash : bytes) (s : DatabaseImp) : res (option NodeObject * DatabaseImp) :=
  match m_cache s !! hash with
  | Some obj => Ok (Some obj, s)
  | None =>
      if decide (hash ∈ m_negCache s) then Ok (None, s)
      else
        obj ← fetchInternal hash (m_backend s);
        match obj with
        | None =>
            match m_cache s !! hash with
            | Some obj => Ok (Some obj, s)
            | None => Ok (None, mkDatabase (m_cache s) ({[hash]} ∪ m_negCache s) (m_backend s))
            end
        | Some obj => Ok (Some obj, mkDatabase (<[hash := obj]> (m_cache s)) (m_negCache s) (m_backend s))
        end
  end.

(** ** What is fetched *)

Definition forgets (s s' : DatabaseImp) : Prop :=
  m_cache s' ⊆ m_cache s ∧ m_negCache s' ⊆ m_negCache s ∧ m_backend s' = m_backend s.

(** What [doFetch] answers. *)
Definition answer (r : res (option NodeObject * DatabaseImp)) : res (option NodeObject) :=
  '(obj, _) ← r;
  Ok obj.

(** A stored object is fetched back, from the cache as it was or from the backend as it comes
    back from there, whatever the caches forget. *)
Lemma store_doFetch `{!LZ4Laws, !NudbLaws} no s s' s1
  (Hs : storable no) (Habs : db_fetch (mHash no) (m_backend s) = inr key_not_found)
  (Hst : storeInternal no s = Ok s') (Hf : forgets s' s1) :
  ∃ obj s2, doFetch (mHash no) s1 = Ok (Some obj, s2) ∧ (obj = no ∨ obj = restored no).
Proof.
  apply bind_ok in Hst as (db&Hst&[= <-]). destruct Hf as (Hc&Hn&Hb). cbn [m_cache m_negCache m_backend] in *.
  destruct (do_insert_new no _ db Hst Habs) as (c&Hcomp&Hfetch&_). unfold doFetch.
  destruct (m_cache s1 !! mHash no) as [obj|] eqn:E.
  - eexists _, _. split; [done|]. left. eapply lookup_weaken in E; [|exact Hc]. rewrite lookup_insert_eq in E. by injection E.
  - rewrite decide_False by set_solver. unfold fetchInternal. rewrite Hb, (fetch_stored no db c Hs Hcomp Hfetch). cbn [mbind res_bind].
    eauto.
Qed.

(** Other keys are answered as before. *)
Lemma store_other `{!NudbLaws} no s s' k :
  db_fetch (mHash no) (m_backend s) = inr key_not_found → storeInternal no s = Ok s' → k ≠ mHash no →
  answer (doFetch k s') = answer (doFetch k s).
Proof.
  intros Habs (db&Hst&[= <-])%bind_ok Hk. destruct (do_insert_new no _ db Hst Habs) as (c&_&_&Ho).
  unfold doFetch. cbn [m_cache m_negCache m_backend]. rewrite lookup_insert_ne by done.
  destruct (m_cache s !! k); [done|].
  destruct (decide (k ∈ m_negCache s)) as [Hin|Hin]; [by rewrite decide_True by set_solver|rewrite decide_False by set_solver].
  unfold fetchInternal, fetch. rewrite (Ho k Hk). destruct (db_fetch k (m_backend s)) as [data|[]]; try done.
  destruct (nodeobject_decompress data); cbn [mbind res_bind]; [|done]. case_match; [done|]. by destruct (DecodedBlob_createObject _).
Qed.
End database.
