(* ===== verification/Serializer.v ===== *)
(** * Serializer and SerialIter ([protocol/Serializer.h], [protocol/impl/Serializer.cpp])

    A [Serializer] is the bytes it holds; the adding functions return the offset of what
    they add, as an [int], and the new bytes.  A [SerialIter] reads a buffer from the front.
    The main result reads back every sequence of fields that was written. *)

From S2P Require Import Prelude Bytes.
Local Open Scope Z_scope.

(** ** Assembling *)

Abbreviation Serializer := bytes.

Definition ssize (s : Serializer) : Z := Z.of_nat (length s).
(** [int getLength ()] *)
Definition getLength (s : Serializer) : Z := i32 (ssize s).

(** All adding functions: the old size, and [bs] at the end. *)
Definition append (bs : bytes) (s : Serializer) : Z * Serializer := (getLength s, s ++ bs).

Definition addZeros (n : nat) (s : Serializer) : Z * Serializer := append (replicate n x00) s.
Definition add8 (b : Z) (s : Serializer) : Z * Serializer := append [byte_of b] s.
Definition add16 (i : Z) (s : Serializer) : Z * Serializer :=
  append [byte_of (Z.shiftr i 8); byte_of (Z.land i 0xff)] s.
Definition add32 (i : Z) (s : Serializer) : Z * Serializer :=
  append [byte_of (Z.shiftr i 24); byte_of (Z.land (Z.shiftr i 16) 0xff);
          byte_of (Z.land (Z.shiftr i 8) 0xff); byte_of (Z.land i 0xff)] s.
Definition add64 (i : Z) (s : Serializer) : Z * Serializer :=
  append [byte_of (Z.shiftr i 56); byte_of (Z.land (Z.shiftr i 48) 0xff);
          byte_of (Z.land (Z.shiftr i 40) 0xff); byte_of (Z.land (Z.shiftr i 32) 0xff);
          byte_of (Z.land (Z.shiftr i 24) 0xff); byte_of (Z.land (Z.shiftr i 16) 0xff);
          byte_of (Z.land (Z.shiftr i 8) 0xff); byte_of (Z.land i 0xff)] s.
(** [add128], [add160], [add256]: the bytes of a [base_uint]. *)
Definition addBitString (v : bytes) (s : Serializer) : Z * Serializer := append v s.
Definition add256 (v : bytes) (s : Serializer) : Z * Serializer := append v s.
Definition ser_addRaw (v : bytes) (s : Serializer) : Z * Serializer := append v s.

Definition addFieldID (type name : Z) (s : Serializer) : res (Z * Serializer) :=
  assert_ ((0 <? type) && (type <? 256) && (0 <? name) && (name <? 256));;
  Ok (append
        (if type <? 16 then
           if name <? 16 then [byte_of (Z.lor (Z.shiftl type 4) name)]
           else [byte_of (Z.shiftl type 4); byte_of name]
         else if name <? 16 then [byte_of name; byte_of type]
         else [byte_of 0; byte_of type; byte_of name]) s).

(** ** Variable-length prefixes *)

Definition encodeLengthLength (length : Z) : res Z :=
  if length <? 0 then Err exception_thrown
  else if length <=? 192 then Ok 1
  else if length <=? 12480 then Ok 2
  else if length <=? 918744 then Ok 3
  else Err exception_thrown.

Definition lengthVL (length : Z) : res Z := n ← encodeLengthLength length; Ok (length + n).

(** The bytes of [addEncoded]. *)
Definition encoded (length : Z) : res bytes :=
  if length <=? 192 then Ok [byte_of length]
  else if length <=? 12480 then
    let length := length - 193 in
    Ok [byte_of (193 + bval (byte_of (Z.shiftr length 8))); byte_of (Z.land length 0xff)]
  else if length <=? 918744 then
    let length := length - 12481 in
    Ok [byte_of (241 + bval (byte_of (Z.shiftr length 16)));
        byte_of (Z.land (Z.shiftr length 8) 0xff); byte_of (Z.land length 0xff)]
  else Err exception_thrown.
Definition addEncoded (length : Z) (s : Serializer) : res (Z * Serializer) :=
  bs ← encoded length; Ok (append bs s).

(** [addVL (Blob const&)] *)
Definition addVL (v : bytes) (s : Serializer) : res (Z * Serializer) :=
  '(ret, s) ← addEncoded (i32 (ssize v)) s;
  let s := (ser_addRaw v s).2 in
  n ← encodeLengthLength (i32 (ssize v));
  assert_ (ssize s =? u64 (u64 (u64 ret + ssize v) + n));;
  Ok (ret, s).

Definition decodeLengthLength (b1 : Z) : res Z :=
  if b1 <? 0 then Err exception_thrown
  else if b1 <=? 192 then Ok 1
  else if b1 <=? 240 then Ok 2
  else if b1 <=? 254 then Ok 3
  else Err exception_thrown.

Definition decodeVLLength1 (b1 : Z) : res Z :=
  if b1 <? 0 then Err exception_thrown
  else if b1 >? 254 then Err exception_thrown
  else Ok b1.
Definition decodeVLLength2 (b1 b2 : Z) : res Z :=
  if b1 <? 193 then Err exception_thrown
  else if b1 >? 240 then Err exception_thrown
  else Ok (193 + (b1 - 193) * 256 + b2).
Definition decodeVLLength3 (b1 b2 b3 : Z) : res Z :=
  if b1 <? 241 then Err exception_thrown
  else if b1 >? 254 then Err exception_thrown
  else Ok (12481 + (b1 - 241) * 65536 + b2 * 256 + b3).

(** ** Random access

    Offsets are [int]s that are compared with the size as unsigned numbers.  Those the callers
    pass are not negative, which [get256], whose callers compute theirs from the size, does not
    assume. *)

Definition ser_get8 (offset : nat) (s : Serializer) : option Z :=
  if ssize s <=? Z.of_nat offset then None else bval <$> s !! offset.

(** [getBitString], for [n] bytes. *)
Definition getBytes (n offset : nat) (s : Serializer) : option bytes :=
  if ssize s <? Z.of_nat (offset + n) then None else Some (take n (drop offset s)).

(** A negative end is above every size when it is converted; a negative offset with an end that
    is not reads in front of the data. *)
Definition get256 (offset : Z) (s : Serializer) : res (option bytes) :=
  if (offset + 32 <? 0) || (ssize s <? offset + 32) then Ok None
  else if offset <? 0 then Err undefined
  else Ok (Some (take 32 (drop (Z.to_nat offset) s))).

(** The loop of [getInteger], over [bytes] bytes. *)
Fixpoint getInteger_loop (bs : bytes) (number : Z) : Z :=
  match bs with
  | [] => number
  | b :: bs => getInteger_loop bs (Z.lor (Z.shiftl number 8) (bval b))
  end.
Definition getInteger (n offset : nat) (s : Serializer) : option Z :=
  bs ← getBytes n offset s; Some (getInteger_loop bs 0).

Definition chop (n : nat) (s : Serializer) : bool * Serializer :=
  if ssize s <? Z.of_nat n then (false, s) else (true, take (length s - n) s).

Definition ser_getRaw (offset length : nat) (s : Serializer) : option bytes :=
  getBytes length offset s.

(** A [try] block that returns [false] on an exception. *)
Definition catch {A} (r : res (option A)) : res (option A) :=
  match r with Err exception_thrown => Ok None | _ => r end.

(** [getVL]: the contents and the length with its prefix. *)
Definition ser_getVL (offset : nat) (s : Serializer) : res (option (bytes * Z)) :=
  match ser_get8 offset s with
  | None => Ok None
  | Some b1 =>
      lenLen ← decodeLengthLength b1;
      r ← catch
        (if lenLen =? 1 then n ← decodeVLLength1 b1; Ok (Some (n, (offset + 1)%nat))
         else if lenLen =? 2 then
           match ser_get8 (offset + 1) s with
           | None => Ok None
           | Some b2 => n ← decodeVLLength2 b1 b2; Ok (Some (n, (offset + 2)%nat))
           end
         else if lenLen =? 3 then
           match ser_get8 (offset + 1) s, ser_get8 (offset + 2) s with
           | Some b2, Some b3 => n ← decodeVLLength3 b1 b2 b3; Ok (Some (n, (offset + 3)%nat))
           | _, _ => Ok None
           end
         else Ok None);
      match r with
      | None => Ok None
      | Some (datLen, offset) =>
          Ok (o ← ser_getRaw offset (Z.to_nat datLen) s; Some (o, lenLen + datLen))
      end
  end.

(** ** SerialIter *)

Record SerialIter := mkIter { si_data : bytes; si_used : nat; si_remain : nat }.

Definition SerialIter_init (data : bytes) : SerialIter := mkIter data 0 (length data).
Definition si_reset (it : SerialIter) : SerialIter :=
  mkIter (si_data it) 0 (si_remain it + si_used it).
Definition si_empty (it : SerialIter) : bool := Nat.eqb (si_remain it) 0.
Definition getBytesLeft (it : SerialIter) : Z := i32 (Z.of_nat (si_remain it)).

(** [n] bytes from the front; every reading function checks [remain_] first. *)
Definition si_take (n : nat) (it : SerialIter) : res (bytes * SerialIter) :=
  if Nat.ltb (si_remain it) n then Err exception_thrown
  else Ok (take n (drop (si_used it) (si_data it)),
           mkIter (si_data it) (si_used it + n) (si_remain it - n)).

Definition skip (n : nat) (it : SerialIter) : res SerialIter :=
  '(_, it) ← si_take n it; Ok it.
Definition getSlice (n : nat) (it : SerialIter) : res (bytes * SerialIter) := si_take n it.
Definition getRaw (size : Z) (it : SerialIter) : res (bytes * SerialIter) :=
  if Z.of_nat (si_remain it) <? u64 size then Err exception_thrown
  else si_take (Z.to_nat size) it.
Definition getBitString (n : nat) (it : SerialIter) : res (bytes * SerialIter) := si_take n it.

Definition get8 (it : SerialIter) : res (Z * SerialIter) :=
  '(t, it) ← si_take 1 it; Ok (bval (nth 0 t x00), it).
Definition get16 (it : SerialIter) : res (Z * SerialIter) :=
  '(t, it) ← si_take 2 it;
  Ok (u16 (Z.shiftl (bval (nth 0 t x00)) 8 + bval (nth 1 t x00)), it).
Definition get32 (it : SerialIter) : res (Z * SerialIter) :=
  '(t, it) ← si_take 4 it;
  Ok (u32 (Z.shiftl (bval (nth 0 t x00)) 24 + Z.shiftl (bval (nth 1 t x00)) 16
           + Z.shiftl (bval (nth 2 t x00)) 8 + bval (nth 3 t x00)), it).
Definition get64 (it : SerialIter) : res (Z * SerialIter) :=
  '(t, it) ← si_take 8 it;
  Ok (u64 (Z.shiftl (bval (nth 0 t x00)) 56 + Z.shiftl (bval (nth 1 t x00)) 48
           + Z.shiftl (bval (nth 2 t x00)) 40 + Z.shiftl (bval (nth 3 t x00)) 32
           + Z.shiftl (bval (nth 4 t x00)) 24 + Z.shiftl (bval (nth 5 t x00)) 16
           + Z.shiftl (bval (nth 6 t x00)) 8 + bval (nth 7 t x00)), it).

Definition getFieldID (it : SerialIter) : res (Z * Z * SerialIter) :=
  '(type, it) ← get8 it;
  let name := Z.land type 15 in
  let type := Z.shiftr type 4 in
  '(type, it) ← (if type =? 0 then
                   '(type, it) ← get8 it;
                   if (type =? 0) || (type <? 16) then Err exception_thrown else Ok (type, it)
                 else Ok (type, it));
  '(name, it) ← (if name =? 0 then
                   '(name, it) ← get8 it;
                   if (name =? 0) || (name <? 16) then Err exception_thrown else Ok (name, it)
                 else Ok (name, it));
  Ok (type, name, it).

Definition getVLDataLength (it : SerialIter) : res (Z * SerialIter) :=
  '(b1, it) ← get8 it;
  lenLen ← decodeLengthLength b1;
  if lenLen =? 1 then n ← decodeVLLength1 b1; Ok (n, it)
  else if lenLen =? 2 then
    '(b2, it) ← get8 it;
    n ← decodeVLLength2 b1 b2; Ok (n, it)
  else
    assert_ (lenLen =? 3);;
    '(b2, it) ← get8 it;
    '(b3, it) ← get8 it;
    n ← decodeVLLength3 b1 b2 b3; Ok (n, it).

Definition getVL (it : SerialIter) : res (bytes * SerialIter) :=
  '(n, it) ← getVLDataLength it; getRaw n it.

(** ** Reading back *)

(** An iterator that has read [pre] and has [rest] before it. *)
Definition iter_at (pre rest : bytes) : SerialIter := mkIter (pre ++ rest) (length pre) (length rest).

Lemma si_take_ok n pre bs rest :
  length bs = n → si_take n (iter_at pre (bs ++ rest)) = Ok (bs, iter_at (pre ++ bs) rest).
Proof.
  intros <-. unfold si_take, iter_at. cbn [si_remain si_used si_data].
  rewrite (proj2 (Nat.ltb_ge _ _)) by (rewrite length_app; lia).
  rewrite drop_app_length, take_app_length, !length_app, (assoc_L (++)).
  do 3 f_equal. lia.
Qed.

Lemma byte_of_land z : byte_of (Z.land z 0xff) = byte_of z.
Proof. unfold byte_of. change 0xff with (Z.ones 8). rewrite Z.land_ones, Z.mod_mod by lia. done. Qed.

Lemma bval_shift v s : 0 <= s → bval (byte_of (Z.shiftr v s)) = (v / 2 ^ s) mod 2 ^ 8.
Proof. intros Hs. by rewrite bval_byte_of, Z.shiftr_div_pow2. Qed.

Lemma bval_low v : bval (byte_of v) = v mod 2 ^ 8.
Proof. apply bval_byte_of. Qed.

Lemma get8_ok z pre rest :
  0 <= z < 2 ^ 8 → get8 (iter_at pre (byte_of z :: rest)) = Ok (z, iter_at (pre ++ [byte_of z]) rest).
Proof.
  intros Hz. unfold get8. change (byte_of z :: rest) with ([byte_of z] ++ rest).
  rewrite si_take_ok by done. cbn [mbind res_bind nth]. by rewrite bval_byte_of, Z.mod_small.
Qed.

(** The value of big-endian bytes. *)
Lemma horner_low v : v / 2 ^ 8 * 2 ^ 8 + v mod 2 ^ 8 = v.
Proof. pose proof (Z.div_mod v (2 ^ 8)). lia. Qed.

Ltac big_endian v :=
  rewrite ?byte_of_land, ?bval_shift, ?bval_low, ?Z.shiftl_mul_pow2 by lia;
  repeat match goal with |- context [(v / 2 ^ ?s) mod 2 ^ 8] =>
    let H := fresh in pose proof (horner v s ltac:(lia)) as H;
    let t := eval compute in (s + 8) in change (s + 8) with t in H;
    generalize dependent ((v / 2 ^ s) mod 2 ^ 8); intros end;
  pose proof (horner_low v).

Lemma get16_ok v pre rest :
  0 <= v < 2 ^ 16 →
  get16 (iter_at pre ((add16 v []).2 ++ rest)) = Ok (v, iter_at (pre ++ (add16 v []).2) rest).
Proof.
  intros Hv. unfold get16. rewrite si_take_ok by done. cbn [mbind res_bind nth add16 append snd app].
  do 2 f_equal. assert (v / 2 ^ 16 = 0) by (apply Z.div_small; lia).
  big_endian v. unfold u16. rewrite Z.mod_small; lia.
Qed.

Lemma get32_ok v pre rest :
  0 <= v < 2 ^ 32 →
  get32 (iter_at pre ((add32 v []).2 ++ rest)) = Ok (v, iter_at (pre ++ (add32 v []).2) rest).
Proof.
  intros Hv. unfold get32. rewrite si_take_ok by done. cbn [mbind res_bind nth add32 append snd app].
  do 2 f_equal. assert (v / 2 ^ 32 = 0) by (apply Z.div_small; lia).
  big_endian v. unfold u32. rewrite Z.mod_small; lia.
Qed.

Lemma get64_ok v pre rest :
  0 <= v < 2 ^ 64 →
  get64 (iter_at pre ((add64 v []).2 ++ rest)) = Ok (v, iter_at (pre ++ (add64 v []).2) rest).
Proof.
  intros Hv. unfold get64. rewrite si_take_ok by done. cbn [mbind res_bind nth add64 append snd app].
  do 2 f_equal. assert (v / 2 ^ 64 = 0) by (apply Z.div_small; lia).
  big_endian v. unfold u64. rewrite Z.mod_small; lia.
Qed.

Lemma encoded_length n :
  0 <= n <= 918744 →
  ∃ bs, encoded n = Ok bs ∧ encodeLengthLength n = Ok (Z.of_nat (length bs)) ∧ (length bs <= 3)%nat.
Proof.
  intros Hn. unfold encoded, encodeLengthLength. rewrite (proj2 (Z.ltb_ge _ _)) by lia.
  destruct (n <=? 192); [eexists; split_and!; [done..|simpl; lia]|].
  destruct (n <=? 12480); [eexists; split_and!; [done..|simpl; lia]|].
  rewrite (proj2 (Z.leb_le _ _)) by lia. eexists; split_and!; [done..|simpl; lia].
Qed.

Ltac step_get8 := rewrite get8_ok by lia; cbn [mbind res_bind].
Ltac decide_leb :=
  repeat match goal with
  | |- context [?a <? ?b] => first [rewrite (proj2 (Z.ltb_lt a b)) by lia | rewrite (proj2 (Z.ltb_ge a b)) by lia]
  | |- context [?a <=? ?b] => first [rewrite (proj2 (Z.leb_le a b)) by lia | rewrite (proj2 (Z.leb_gt a b)) by lia]
  | |- context [?a >? ?b] => rewrite (Z.gtb_ltb a b)
  end.

Lemma getVLDataLength_ok n bs pre rest :
  0 <= n → encoded n = Ok bs →
  getVLDataLength (iter_at pre (bs ++ rest)) = Ok (n, iter_at (pre ++ bs) rest).
Proof.
  intros Hn. unfold encoded. destruct (Z.leb_spec n 192) as [H1|H1]; [|destruct (Z.leb_spec n 12480) as [H2|H2];
    [|destruct (Z.leb_spec n 918744) as [H3|H3]; [|done]]]; intros [= <-]; unfold getVLDataLength; cbn [app].
  - step_get8. unfold decodeLengthLength, decodeVLLength1. decide_leb. cbn. decide_leb. done.
  - set (m := n - 193) in *. rewrite bval_shift, byte_of_land by lia. pose proof (horner_low m).
    assert (0 <= m / 2 ^ 8 < 48) by (subst m; split; [apply Z.div_pos|apply Z.div_lt_upper_bound]; lia).
    rewrite (Z.mod_small (m / 2 ^ 8)) by lia. step_get8. unfold decodeLengthLength. decide_leb. cbn [mbind res_bind Z.eqb Pos.eqb].
    rewrite <-(byte_of_bval (byte_of m)), bval_byte_of. pose proof (Z.mod_pos_bound m (2 ^ 8) eq_refl). step_get8.
    unfold decodeVLLength2. decide_leb. cbn [mbind res_bind]. rewrite <-(assoc_L (++)). do 2 f_equal. lia.
  - set (m := n - 12481) in *. rewrite bval_shift, !byte_of_land by lia.
    pose proof (horner_low m). pose proof (horner m 8 ltac:(lia)) as Hh. change (8 + 8) with 16 in Hh.
    assert (0 <= m / 2 ^ 16 < 14) by (subst m; split; [apply Z.div_pos|apply Z.div_lt_upper_bound]; lia).
    rewrite (Z.mod_small (m / 2 ^ 16)) by lia. step_get8. unfold decodeLengthLength. decide_leb.
    cbn [mbind res_bind Z.eqb Pos.eqb assert_].
    pose proof (Z.mod_pos_bound m (2 ^ 8) eq_refl). pose proof (Z.mod_pos_bound (m / 2 ^ 8) (2 ^ 8) eq_refl).
    rewrite <-(byte_of_bval (byte_of (Z.shiftr m 8))), bval_shift by lia. step_get8.
    rewrite <-(byte_of_bval (byte_of m)), bval_byte_of. step_get8.
    unfold decodeVLLength3. decide_leb. cbn [mbind res_bind]. rewrite <-!(assoc_L (++)). do 2 f_equal. lia.
Qed.

Lemma getVL_ok v bs pre rest :
  encoded (ssize v) = Ok bs → ssize v <= 918744 →
  getVL (iter_at pre (bs ++ v ++ rest)) = Ok (v, iter_at (pre ++ bs ++ v) rest).
Proof.
  intros Hbs Hv. unfold getVL. rewrite (getVLDataLength_ok (ssize v)) by (done || (unfold ssize; lia)).
  cbn [mbind res_bind]. unfold getRaw, ssize in *. rewrite u64_small by lia.
  cbn [iter_at si_remain]. rewrite (proj2 (Z.ltb_ge _ _)) by (rewrite length_app; lia).
  fold (iter_at (pre ++ bs) (v ++ rest)). rewrite si_take_ok by lia. by rewrite <-(assoc_L (++)).
Qed.

(** The bytes of a field ID. *)
Definition fieldID_bytes (type name : Z) : bytes :=
  match addFieldID type name [] with Ok (_, s) => s | Err _ => [] end.

Lemma addFieldID_ok type name s :
  0 < type < 256 → 0 < name < 256 →
  addFieldID type name s = Ok (getLength s, s ++ fieldID_bytes type name).
Proof.
  intros Ht Hn. unfold fieldID_bytes, addFieldID. decide_leb. done.
Qed.

Lemma getFieldID_ok type name pre rest :
  0 < type < 256 → 0 < name < 256 →
  getFieldID (iter_at pre (fieldID_bytes type name ++ rest))
  = Ok (type, name, iter_at (pre ++ fieldID_bytes type name) rest).
Proof.
  intros Ht Hn. unfold fieldID_bytes, addFieldID. rewrite !(proj2 (Z.ltb_lt 0 _)), (proj2 (Z.ltb_lt type 256)), (proj2 (Z.ltb_lt name 256)) by lia.
  cbn [andb assert_ mbind res_bind append snd app].
  assert (∀ z, Z.land z 15 = z mod 2 ^ 4) as Hl by (intros; exact (Z.land_ones z 4 ltac:(lia))).
  unfold getFieldID. destruct (Z.ltb_spec type 16) as [Ht'|Ht'], (Z.ltb_spec name 16) as [Hn'|Hn']; cbn [app].
  - rewrite Z.lor_comm, lor_shiftl_add by lia. step_get8. rewrite Hl, Z.shiftr_div_pow2 by lia.
    rewrite Z.add_comm, Z.mod_add, Z.div_add, Z.div_small, Z.mod_small by lia. rewrite Z.add_0_l.
    rewrite !(proj2 (Z.eqb_neq _ _)) by lia. done.
  - rewrite Z.shiftl_mul_pow2 by lia. step_get8. rewrite Hl, Z.shiftr_div_pow2, Z.mod_mul, Z.div_mul by lia.
    rewrite (proj2 (Z.eqb_neq type 0)) by lia. cbn [mbind res_bind Z.eqb]. step_get8.
    rewrite (proj2 (Z.eqb_neq name 0)), (proj2 (Z.ltb_ge name 16)) by lia. cbn. by rewrite <-(assoc_L (++)).
  - step_get8. rewrite Hl, Z.shiftr_div_pow2, Z.mod_small, Z.div_small by lia. cbn [Z.eqb]. step_get8.
    rewrite (proj2 (Z.eqb_neq type 0)), (proj2 (Z.ltb_ge type 16)), (proj2 (Z.eqb_neq name 0)) by lia.
    cbn. by rewrite <-(assoc_L (++)).
  - step_get8. rewrite Hl, Z.shiftr_div_pow2, Z.mod_0_l, Z.div_0_l by lia. cbn [Z.eqb]. step_get8.
    rewrite (proj2 (Z.eqb_neq type 0)), (proj2 (Z.ltb_ge type 16)) by lia. cbn [orb mbind res_bind]. step_get8.
    rewrite (proj2 (Z.eqb_neq name 0)), (proj2 (Z.ltb_ge name 16)) by lia. cbn. by rewrite <-!(assoc_L (++)).
Qed.

(** ** Sequences of fields *)

Inductive sfield :=
| F8 (v : Z) | F16 (v : Z) | F32 (v : Z) | F64 (v : Z) | FBits (v : bytes) | FVL (v : bytes)
| FID (type name : Z).

Inductive skind := K8 | K16 | K32 | K64 | KBits (n : nat) | KVL | KID.

Definition kind_of (f : sfield) : skind :=
  match f with
  | F8 _ => K8 | F16 _ => K16 | F32 _ => K32 | F64 _ => K64 | FBits v => KBits (length v)
  | FVL _ => KVL | FID _ _ => KID
  end.

Definition put_field (f : sfield) (s : Serializer) : res Serializer :=
  match f with
  | F8 v => Ok (add8 v s).2
  | F16 v => Ok (add16 v s).2
  | F32 v => Ok (add32 v s).2
  | F64 v => Ok (add64 v s).2
  | FBits v => Ok (addBitString v s).2
  | FVL v => '(_, s) ← addVL v s; Ok s
  | FID t n => '(_, s) ← addFieldID t n s; Ok s
  end.

Definition get_field (k : skind) (it : SerialIter) : res (sfield * SerialIter) :=
  match k with
  | K8 => '(v, it) ← get8 it; Ok (F8 v, it)
  | K16 => '(v, it) ← get16 it; Ok (F16 v, it)
  | K32 => '(v, it) ← get32 it; Ok (F32 v, it)
  | K64 => '(v, it) ← get64 it; Ok (F64 v, it)
  | KBits n => '(v, it) ← getBitString n it; Ok (FBits v, it)
  | KVL => '(v, it) ← getVL it; Ok (FVL v, it)
  | KID => '(t, n, it) ← getFieldID it; Ok (FID t n, it)
  end.

Fixpoint put_fields (fs : list sfield) (s : Serializer) : res Serializer :=
  match fs with [] => Ok s | f :: fs => s ← put_field f s; put_fields fs s end.
Fixpoint get_fields (ks : list skind) (it : SerialIter) : res (list sfield * SerialIter) :=
  match ks with
  | [] => Ok ([], it)
  | k :: ks => '(f, it) ← get_field k it; '(fs, it) ← get_fields ks it; Ok (f :: fs, it)
  end.

Definition field_fits (f : sfield) : Prop :=
  match f with
  | F8 v => 0 <= v < 2 ^ 8 | F16 v => 0 <= v < 2 ^ 16 | F32 v => 0 <= v < 2 ^ 32
  | F64 v => 0 <= v < 2 ^ 64 | FBits v => True
  | FVL v => ssize v <= 918744
  | FID t n => 0 < t < 256 ∧ 0 < n < 256
  end.

(** The most bytes a field takes. *)
Definition field_room (f : sfield) : Z :=
  match f with FBits v => ssize v | FVL v => ssize v + 3 | _ => 8 end.
Definition fields_room (fs : list sfield) : Z := foldr (fun f n => field_room f + n) 0 fs.

Lemma addVL_ok v s :
  ssize v <= 918744 → ssize s + ssize v + 3 < 2 ^ 31 →
  ∃ bs, encoded (ssize v) = Ok bs ∧ addVL v s = Ok (getLength s, s ++ bs ++ v) ∧ (length bs <= 3)%nat.
Proof.
  intros Hv Hs. assert (0 <= ssize v) by (unfold ssize; lia). assert (0 <= ssize s) by (unfold ssize; lia).
  destruct (encoded_length (ssize v) ltac:(lia)) as (bs&He&Hl&Hb). exists bs. split_and!; [done| |done].
  unfold addVL, addEncoded, ser_addRaw, append, getLength. rewrite !i32_small by lia. rewrite He, Hl. cbn [mbind res_bind snd].
  rewrite (u64_small (ssize s)), (u64_small (ssize s + ssize v)), u64_small by lia.
  unfold ssize. rewrite !length_app.
  rewrite (proj2 (Z.eqb_eq _ _)) by lia. cbn [assert_ mbind res_bind]. by rewrite <-(assoc_L (++)).
Qed.

Lemma field_roundtrips f s :
  field_fits f → ssize s + field_room f < 2 ^ 31 →
  ∃ bs, put_field f s = Ok (s ++ bs) ∧ ssize bs <= field_room f ∧
    ∀ pre rest, get_field (kind_of f) (iter_at pre (bs ++ rest)) = Ok (f, iter_at (pre ++ bs) rest).
Proof.
  destruct f as [v|v|v|v|v|v|t n]; cbn [field_fits field_room kind_of put_field get_field]; intros Hf Hs.
  - exists [byte_of v]. split_and!; [done|done|]. intros. cbn [app]. by step_get8.
  - exists (add16 v []).2. split_and!; [done|done|]. intros. by rewrite get16_ok.
  - exists (add32 v []).2. split_and!; [done|done|]. intros. by rewrite get32_ok.
  - exists (add64 v []).2. split_and!; [done|done|]. intros. by rewrite get64_ok.
  - exists v. split_and!; [done|done|]. intros. unfold getBitString. by rewrite si_take_ok.
  - destruct (addVL_ok v s Hf ltac:(lia)) as (bs&He&Ha&Hb). exists (bs ++ v).
    rewrite Ha. split_and!; [done|unfold ssize in *; rewrite length_app; lia|].
    intros. rewrite <-(assoc_L (++)). by rewrite (getVL_ok v bs).
  - destruct Hf as [Ht Hn]. exists (fieldID_bytes t n). rewrite addFieldID_ok by done. split_and!; [done| |].
    + unfold fieldID_bytes, addFieldID. decide_leb. cbn [andb assert_ mbind res_bind append snd app].
      destruct (t <? 16), (n <? 16); done.
    + intros. by rewrite getFieldID_ok.
Qed.

Lemma fields_roundtrip fs : ∀ s,
  Forall field_fits fs → ssize s + fields_room fs < 2 ^ 31 →
  ∃ bs, put_fields fs s = Ok (s ++ bs) ∧
    ∀ pre rest, get_fields (kind_of <$> fs) (iter_at pre (bs ++ rest)) = Ok (fs, iter_at (pre ++ bs) rest).
Proof.
  induction fs as [|f fs IH]; intros s Hfs Hs.
  - exists []. cbn. split; [by rewrite app_nil_r|]. intros. by rewrite app_nil_r.
  - apply Forall_cons in Hfs as [Hf Hfs]. cbn [fields_room foldr] in Hs. fold (fields_room fs) in Hs.
    assert (0 <= fields_room fs) as H0.
    { clear. induction fs as [|f fs IH]; [done|]. cbn [fields_room foldr]. fold (fields_room fs).
      destruct f; cbn [field_room]; unfold ssize; lia. }
    destruct (field_roundtrips f s Hf ltac:(lia)) as (b1&Hp1&Hl&Hg1).
    destruct (IH (s ++ b1) Hfs) as (b2&Hp2&Hg2); [unfold ssize in *; rewrite length_app; lia|].
    exists (b1 ++ b2). cbn [put_fields]. rewrite Hp1. cbn [mbind res_bind]. rewrite Hp2. split; [by rewrite <-(assoc_L (++))|].
    intros pre rest. cbn [fmap list_fmap get_fields]. rewrite <-(assoc_L (++)), Hg1. cbn [mbind res_bind].
    rewrite Hg2. cbn. by rewrite <-(assoc_L (++)).
Qed.

(** What the serializer writes, a sequence of integers, field identifiers, 256-bit
    values and variable-length blobs, the serial iterator reads back in order, leaving
    nothing. *)
Theorem serializer_roundtrip fs :
  Forall field_fits fs → fields_room fs < 2 ^ 31 →
  ∃ s it, put_fields fs [] = Ok s ∧ get_fields (kind_of <$> fs) (SerialIter_init s) = Ok (fs, it)
    ∧ si_empty it = true.
Proof.
  intros Hfs Hs. destruct (fields_roundtrip fs [] Hfs Hs) as (s&Hp&Hg). exists s, (iter_at s []).
  split_and!; [done| |done]. specialize (Hg [] []). rewrite app_nil_r in Hg. exact Hg.
Qed.

Lemma serializer_roundtrip_witness :
  ∃ s it, put_fields [FID 16 1; F32 5; FID 1 200; FVL (replicate 200 x07); F64 (2 ^ 63)] [] = Ok s
    ∧ get_fields [KID; K32; KID; KVL; K64] (SerialIter_init s)
      = Ok ([FID 16 1; F32 5; FID 1 200; FVL (replicate 200 x07); F64 (2 ^ 63)], it)
    ∧ si_empty it = true.
Proof.
  apply (serializer_roundtrip [FID 16 1; F32 5; FID 1 200; FVL (replicate 200 x07); F64 (2 ^ 63)]).
  - repeat (apply Forall_cons; split; [vm_compute; repeat split; discriminate|]). constructor.
  - reflexivity.
Defined.

(** A first byte of 255 makes getVL of the serializer throw, although it is documented
    by its result to report failure: decodeLengthLength is called before the try block.
    *)
Theorem getVL_exception_escapes b s :
  bval b = 255 → ser_getVL 0 (b :: s) = Err exception_thrown.
Proof.
  intros Hb. unfold ser_getVL, ser_get8, ssize. cbn [length lookup list_lookup fmap option_fmap option_map].
  rewrite (proj2 (Z.leb_gt _ _)) by lia. cbn [fmap option_fmap option_map]. by rewrite Hb.
Qed.
