(* ===== verification/TaggedCache.v ===== *)
(** * Caches of shared objects and of keys ([basics/TaggedCache.h], [basics/KeyCache.h])

    A [TaggedCache] maps keys to objects that are shared with the rest of the server: a strong
    entry keeps its object in memory, a weak entry only tracks it as long as somebody else does.
    Objects are identified by their control block ([Ptr]); the number of owners outside of the
    cache at the time of a call is the argument [owners].  Times and ages are ticks of the steady
    clock (nanoseconds).  The order in which a hash table is traversed is an argument. *)

From S2P Require Import Prelude.
Local Open Scope Z_scope.

Definition ticks_per_second : Z := 1000000000.

(** ** The cache *)

Section TaggedCache.
Context {Key Ptr : Type} `{!EqDecision Key, !Countable Key, !EqDecision Ptr}.

Record Entry := mkEntry { ptr : option Ptr; weak_ptr : Ptr; last_access : Z }.

Record TaggedCache := mkCache {
  m_target_size : Z; m_target_age : Z; m_cache_count : Z; m_cache : gmap Key Entry; m_hits : Z; m_misses : Z }.

Definition TaggedCache_init (size expiration_seconds : Z) : TaggedCache :=
  mkCache size (expiration_seconds * ticks_per_second) 0 ∅ 0 0.

Definition with_cache (count : Z) (m : gmap Key Entry) (c : TaggedCache) : TaggedCache :=
  mkCache (m_target_size c) (m_target_age c) count m (m_hits c) (m_misses c).
Definition hit (c : TaggedCache) : TaggedCache :=
  mkCache (m_target_size c) (m_target_age c) (m_cache_count c) (m_cache c) (u64 (m_hits c + 1)) (m_misses c).
Definition miss (c : TaggedCache) : TaggedCache :=
  mkCache (m_target_size c) (m_target_age c) (m_cache_count c) (m_cache c) (m_hits c) (u64 (m_misses c + 1)).

Definition isWeak (e : Entry) : bool := match ptr e with None => true | Some _ => false end.
Definition isCached (e : Entry) : bool := negb (isWeak e).
Definition touch (now : Z) (e : Entry) : Entry := mkEntry (ptr e) (weak_ptr e) now.
Definition set_ptr (p : option Ptr) (e : Entry) : Entry := mkEntry p (weak_ptr e) (last_access e).

Definition setTargetSize (s : Z) (c : TaggedCache) : TaggedCache :=
  mkCache s (m_target_age c) (m_cache_count c) (m_cache c) (m_hits c) (m_misses c).
Definition setTargetAge (s : Z) (c : TaggedCache) : TaggedCache :=
  mkCache (m_target_size c) (s * ticks_per_second) (m_cache_count c) (m_cache c) (m_hits c) (m_misses c).
Definition getCacheSize (c : TaggedCache) : Z := m_cache_count c.
Definition getTrackSize (c : TaggedCache) : Z := Z.of_nat (size (m_cache c)).
Definition clearStats (c : TaggedCache) : TaggedCache :=
  mkCache (m_target_size c) (m_target_age c) (m_cache_count c) (m_cache c) 0 0.
Definition clear (c : TaggedCache) : TaggedCache := with_cache 0 ∅ c.

Section Owners.
Context (owners : Ptr → Z).

(** [std::shared_ptr::use_count]: the strong entries of the cache and the owners outside of it. *)
Definition holds (p : Ptr) (e : Entry) : Z := if decide (ptr e = Some p) then 1 else 0.
Definition use_count (m : gmap Key Entry) (p : Ptr) : Z := owners p + msum (holds p) m.

Definition isExpired (m : gmap Key Entry) (e : Entry) : bool := use_count m (weak_ptr e) =? 0.
Definition lock (m : gmap Key Entry) (e : Entry) : option Ptr := if isExpired m e then None else Some (weak_ptr e).

Definition fetch (now : Z) (key : Key) (c : TaggedCache) : option Ptr * TaggedCache :=
  match m_cache c !! key with
  | None => (None, miss c)
  | Some entry =>
      let entry := touch now entry in
      if isCached entry then (ptr entry, hit (with_cache (m_cache_count c) (<[key := entry]> (m_cache c)) c))
      else
        let entry := set_ptr (lock (m_cache c) entry) entry in
        if isCached entry then (ptr entry, with_cache (m_cache_count c + 1) (<[key := entry]> (m_cache c)) c)
        else (None, miss (with_cache (m_cache_count c) (delete key (m_cache c)) c))
  end.

(** The result, the object that [data] refers to after the call, and the cache. *)
Definition canonicalize (now : Z) (key : Key) (data : Ptr) (replace : bool) (c : TaggedCache)
    : bool * Ptr * TaggedCache :=
  match m_cache c !! key with
  | None => (false, data, with_cache (m_cache_count c + 1) (<[key := mkEntry (Some data) data now]> (m_cache c)) c)
  | Some entry =>
      let entry := touch now entry in
      let store (e : Entry) (count : Z) := with_cache count (<[key := e]> (m_cache c)) c in
      let renewed := mkEntry (Some data) data now in
      match ptr entry with
      | Some p =>
          if replace then (true, data, store renewed (m_cache_count c))
          else (true, p, store entry (m_cache_count c))
      | None =>
          match lock (m_cache c) entry with
          | Some cachedData =>
              if replace then (true, data, store renewed (m_cache_count c + 1))
              else (true, cachedData, store (set_ptr (Some cachedData) entry) (m_cache_count c + 1))
          | None => (false, data, store renewed (m_cache_count c + 1))
          end
      end
  end.

(** [insert], with the object that is made of the value. *)
Definition insert_value (now : Z) (key : Key) (p : Ptr) (c : TaggedCache) : bool * TaggedCache :=
  let '(had, _, c) := canonicalize now key p false c in (had, c).

Definition refreshIfPresent (now : Z) (key : Key) (c : TaggedCache) : bool * TaggedCache :=
  match m_cache c !! key with
  | None => (false, c)
  | Some entry =>
      if isCached entry then (true, with_cache (m_cache_count c) (<[key := touch now entry]> (m_cache c)) c)
      else
        let entry := set_ptr (lock (m_cache c) entry) entry in
        if isCached entry then (true, with_cache (m_cache_count c + 1) (<[key := touch now entry]> (m_cache c)) c)
        else (false, with_cache (m_cache_count c) (delete key (m_cache c)) c)
  end.

Definition del (key : Key) (valid : bool) (c : TaggedCache) : bool * TaggedCache :=
  match m_cache c !! key with
  | None => (false, c)
  | Some entry =>
      let ret := isCached entry in
      let entry := set_ptr None entry in
      let c := with_cache (if ret then m_cache_count c - 1 else m_cache_count c) (<[key := entry]> (m_cache c)) c in
      (ret, if negb valid || isExpired (m_cache c) entry
            then with_cache (m_cache_count c) (delete key (m_cache c)) c else c)
  end.
End Owners.

(** *** Sweeping *)

Definition when_expire (now target_size target_age size : Z) : Z :=
  if (target_size =? 0) || (size <=? target_size) then now - target_age
  else Z.min (now - i64 (u64 (target_age * target_size) / size)) (now - ticks_per_second).

(** The objects in [stuff] are owned by the vector that destroys them outside of the lock. *)
Fixpoint sweep_loop (owners : Ptr → Z) (expire : Z) (order : list Key) (stuff : list Ptr) (c : TaggedCache)
    : TaggedCache :=
  match order with
  | [] => c
  | key :: order =>
      let others p := owners p + Z.of_nat (length (filter (eq p) stuff)) in
      match m_cache c !! key with
      | None => sweep_loop owners expire order stuff c
      | Some e =>
          match ptr e with
          | None =>
              sweep_loop owners expire order stuff
                (if isExpired others (m_cache c) e then with_cache (m_cache_count c) (delete key (m_cache c)) c else c)
          | Some p =>
              if last_access e <=? expire then
                if use_count others (m_cache c) p =? 1 then
                  sweep_loop owners expire order (p :: stuff) (with_cache (m_cache_count c - 1) (delete key (m_cache c)) c)
                else
                  sweep_loop owners expire order stuff
                    (with_cache (m_cache_count c - 1) (<[key := set_ptr None e]> (m_cache c)) c)
              else sweep_loop owners expire order stuff c
          end
      end
  end.

Definition sweep (owners : Ptr → Z) (now : Z) (order : list Key) (c : TaggedCache) : TaggedCache :=
  sweep_loop owners (when_expire now (m_target_size c) (m_target_age c) (Z.of_nat (size (m_cache c)))) order [] c.

(** ** The invariant *)

Definition cached (e : Entry) : Z := if isCached e then 1 else 0.

Definition entry_ok (e : Entry) : Prop := ∀ p, ptr e = Some p → weak_ptr e = p.

Record cache_ok (c : TaggedCache) : Prop := {
  ok_count : m_cache_count c = msum cached (m_cache c);
  ok_strong : ∀ k e, m_cache c !! k = Some e → entry_ok e }.

(** Counting the entry that changes. *)
Ltac count_entry := unfold cached, isCached, isWeak; cbn; repeat case_match; simplify_eq/=; lia.

Lemma cache_ok_same c c' : m_cache_count c' = m_cache_count c → m_cache c' = m_cache c → cache_ok c → cache_ok c'.
Proof. intros E1 E2 [C S]. split; by rewrite ?E1, ?E2. Qed.

Lemma cache_ok_put c k e e' count : cache_ok c → m_cache c !! k = Some e → entry_ok e' →
  count = m_cache_count c - cached e + cached e' → cache_ok (with_cache count (<[k := e']> (m_cache c)) c).
Proof.
  intros [Hc Hs] Hk He ->. split; cbn.
  - by rewrite (msum_update _ _ _ e), Hc.
  - intros k' e1 [[<- <-]|[_ ?]]%lookup_insert_Some; [done|by eapply Hs].
Qed.

Lemma cache_ok_new c k e : cache_ok c → m_cache c !! k = None → entry_ok e →
  cache_ok (with_cache (m_cache_count c + cached e) (<[k := e]> (m_cache c)) c).
Proof.
  intros [Hc Hs] Hk He. split; cbn.
  - rewrite msum_insert, Hc by done. lia.
  - intros k' e1 [[<- <-]|[_ ?]]%lookup_insert_Some; [done|by eapply Hs].
Qed.

Lemma cache_ok_delete c k e count : cache_ok c → m_cache c !! k = Some e → count = m_cache_count c - cached e →
  cache_ok (with_cache count (delete k (m_cache c)) c).
Proof.
  intros [Hc Hs] Hk ->. split; cbn.
  - by rewrite (msum_delete _ _ _ e), Hc.
  - intros k' e1 [_ ?]%lookup_delete_Some. by eapply Hs.
Qed.

(** A handle that somebody outside holds, and that the cache tracks. *)
Definition tracked (c : TaggedCache) (kp : Key * Ptr) : Prop :=
  ∃ e, m_cache c !! kp.1 = Some e ∧ weak_ptr e = kp.2.

Lemma tracked_put c k e e' count kp : m_cache c !! k = Some e → weak_ptr e' = weak_ptr e →
  tracked c kp → tracked (with_cache count (<[k := e']> (m_cache c)) c) kp.
Proof.
  intros Hk He (e0&H0&Hw). unfold tracked. cbn. destruct (decide (kp.1 = k)) as [<-|Hne].
  - exists e'. rewrite lookup_insert_eq. split; [done|congruence].
  - exists e0. by rewrite lookup_insert_ne.
Qed.

Lemma tracked_new c k e count kp : m_cache c !! k = None → tracked c kp → tracked (with_cache count (<[k := e]> (m_cache c)) c) kp.
Proof. intros Hk (e0&H0&Hw). exists e0. cbn. rewrite lookup_insert_ne; [done|]. intros ->. congruence. Qed.

Lemma tracked_delete c k e count kp : m_cache c !! k = Some e → weak_ptr e ≠ kp.2 → tracked c kp →
  tracked (with_cache count (delete k (m_cache c)) c) kp.
Proof. intros Hk He (e0&H0&Hw). exists e0. cbn. rewrite lookup_delete_ne; [done|]. intros ->. congruence. Qed.

Lemma use_count_pos owners m p : 0 < owners p → (∀ q, 0 <= owners q) → 0 < use_count owners m p.
Proof.
  intros Hp Hn. unfold use_count. assert (0 <= msum (holds p) m); [|lia].
  apply msum_nonneg. intros e. unfold holds. case_decide; lia.
Qed.

(** ** Clients

    [handles] are the references that the rest of the server holds, with the key each was
    obtained for. *)

Definition owners_of (hs : list (Key * Ptr)) (p : Ptr) : Z := Z.of_nat (length (filter (fun kp => kp.2 = p) hs)).

(** A newly allocated object: nobody refers to it, not even weakly. *)
Definition fresh (p : Ptr) (c : TaggedCache) (hs : list (Key * Ptr)) : Prop :=
  (∀ k, (k, p) ∉ hs) ∧ ∀ k e, m_cache c !! k = Some e → weak_ptr e ≠ p.

(** What happens to a cache whose objects are not replaced, and whose entries are not dropped
    regardless of their objects ([clear], [del] with [valid = false]). *)
Inductive cache_step : TaggedCache * list (Key * Ptr) → TaggedCache * list (Key * Ptr) → Prop :=
| cs_fetch now k p c c' hs : fetch (owners_of hs) now k c = (Some p, c') → cache_step (c, hs) (c', (k, p) :: hs)
| cs_fetch_none now k c c' hs : fetch (owners_of hs) now k c = (None, c') → cache_step (c, hs) (c', hs)
| cs_canonicalize now k p had q c c' hs : fresh p c hs →
    canonicalize (owners_of ((k, p) :: hs)) now k p false c = (had, q, c') → cache_step (c, hs) (c', (k, q) :: hs)
| cs_refresh now k c hs : cache_step (c, hs) ((refreshIfPresent (owners_of hs) now k c).2, hs)
| cs_del k c hs : cache_step (c, hs) ((del (owners_of hs) k true c).2, hs)
| cs_sweep now order c hs : order ≡ₚ (map_to_list (m_cache c)).*1 → cache_step (c, hs) (sweep (owners_of hs) now order c, hs)
| cs_release c kp l1 l2 : cache_step (c, l1 ++ kp :: l2) (c, l1 ++ l2)
| cs_size s c hs : cache_step (c, hs) (setTargetSize s c, hs)
| cs_age s c hs : cache_step (c, hs) (setTargetAge s c, hs)
| cs_stats c hs : cache_step (c, hs) (clearStats c, hs).

Definition cache_reachable (size seconds : Z) (w : TaggedCache * list (Key * Ptr)) : Prop :=
  rtc cache_step (TaggedCache_init size seconds, []) w.

Definition world_ok (w : TaggedCache * list (Key * Ptr)) : Prop := cache_ok w.1 ∧ Forall (tracked w.1) w.2.

Lemma owners_of_nonneg hs p : 0 <= owners_of hs p.
Proof. unfold owners_of. lia. Qed.

Lemma owners_of_elem hs k p : (k, p) ∈ hs → 0 < owners_of hs p.
Proof.
  intros H. unfold owners_of. assert ((k, p) ∈ filter (fun kp => kp.2 = p) hs) as Hin by (by apply list_elem_of_filter).
  destruct (filter _ hs); [by apply elem_of_nil in Hin|cbn; lia].
Qed.

(** An object somebody holds is not expired. *)
Lemma held_lock hs k p m e : (k, p) ∈ hs → weak_ptr e = p → isExpired (owners_of hs) m e = false.
Proof.
  intros Hin <-. unfold isExpired. apply Z.eqb_neq.
  pose proof (use_count_pos (owners_of hs) m (weak_ptr e) (owners_of_elem _ _ _ Hin) (owners_of_nonneg hs)). lia.
Qed.

(** The operations of a client that holds [hs]. *)

Lemma fetch_world now k c hs o c' : world_ok (c, hs) → fetch (owners_of hs) now k c = (o, c') →
  world_ok (c', hs) ∧ ∀ p, o = Some p → tracked c' (k, p).
Proof.
  intros [Hok Hall] H. unfold fetch in H. cbn in Hok, Hall. destruct (m_cache c !! k) as [e|] eqn:E.
  2: { injection H as <- <-. split; [split; [by eapply (cache_ok_same c)|exact Hall]|done]. }
  pose proof (ok_strong _ Hok k e E) as He. unfold isCached, isWeak in H. cbn in H. destruct (ptr e) as [p|] eqn:Ep; cbn in H.
  { injection H as <- <-. split; [split|].
    - eapply cache_ok_same, (cache_ok_put c k e (touch now e) (m_cache_count c)); [done..|count_entry].
    - eapply Forall_impl; [exact Hall|]. intros kp. by apply (tracked_put c k e).
    - intros q Hq. exists (touch now e). cbn. rewrite lookup_insert_eq. split; [done|]. cbn in *. apply He. congruence. }
  unfold lock in H. destruct (isExpired (owners_of hs) (m_cache c) (touch now e)) eqn:Ex; cbn in H; injection H as <- <-.
  - split; [|done]. split; [eapply cache_ok_same, (cache_ok_delete c k e (m_cache_count c)); [done..|count_entry]|].
    apply Forall_forall. intros [k' p'] Hin. pose proof (proj1 (Forall_forall _ _) Hall _ Hin) as Ht.
    apply (tracked_delete c k e); [done| |done]. intros Hw. by rewrite (held_lock hs k' p' _ (touch now e) Hin Hw) in Ex.
  - split; [split|].
    + eapply cache_ok_put; [done..|by intros p [= <-]|count_entry].
    + eapply Forall_impl; [exact Hall|]. intros kp. by apply (tracked_put c k e).
    + intros p [= <-]. eexists. cbn. rewrite lookup_insert_eq. done.
Qed.

Lemma canonicalize_world now k p c hs had q c' : world_ok (c, hs) → fresh p c hs →
  canonicalize (owners_of ((k, p) :: hs)) now k p false c = (had, q, c') → world_ok (c', (k, q) :: hs).
Proof.
  intros [Hok Hall] [Hf1 Hf2] H. cbn in Hok, Hall. unfold canonicalize in H. destruct (m_cache c !! k) as [e|] eqn:E.
  2: { injection H as <- <- <-. split; cbn.
    - by apply (cache_ok_new c k (mkEntry (Some p) p now) Hok E); intros ? [= <-].
    - apply Forall_cons. split; [eexists; cbn; rewrite lookup_insert_eq; done|].
      eapply Forall_impl; [exact Hall|]. intros kp. by apply tracked_new. }
  pose proof (ok_strong _ Hok k e E) as He. cbn in H. destruct (ptr e) as [p'|] eqn:Ep.
  { injection H as <- <- <-. split; cbn.
    - eapply cache_ok_put; [done..|count_entry].
    - apply Forall_cons. split; [eexists; cbn; rewrite lookup_insert_eq; split; [done|by apply He]|].
      eapply Forall_impl; [exact Hall|]. intros kp. by apply (tracked_put c k e). }
  unfold lock in H. destruct (isExpired _ _ _) eqn:Ex; injection H as <- <- <-; split; cbn.
  - eapply cache_ok_put; [done..|by intros ? [= <-]|count_entry].
  - apply Forall_cons. split; [eexists; cbn; rewrite lookup_insert_eq; done|].
    apply Forall_forall. intros [k' q'] Hin. destruct (proj1 (Forall_forall _ _) Hall _ Hin) as (e0&H0&Hw). cbn in H0, Hw.
    exists e0. cbn. rewrite lookup_insert_ne; [done|]. intros ->. rewrite E in H0. injection H0 as <-.
    assert ((k', q') ∈ (k', p) :: hs) as Hin' by (by right).
    by rewrite (held_lock ((k', p) :: hs) k' q' _ (touch now e) Hin' Hw) in Ex.
  - eapply cache_ok_put; [done..|by intros ? [= <-]|count_entry].
  - apply Forall_cons. split; [eexists; cbn; rewrite lookup_insert_eq; done|].
    eapply Forall_impl; [exact Hall|]. intros kp. by apply (tracked_put c k e).
Qed.

Lemma refresh_world now k c hs : world_ok (c, hs) → world_ok ((refreshIfPresent (owners_of hs) now k c).2, hs).
Proof.
  intros [Hok Hall]. cbn in Hok, Hall. unfold refreshIfPresent. destruct (m_cache c !! k) as [e|] eqn:E; [|done].
  pose proof (ok_strong _ Hok k e E) as He. unfold isCached, isWeak. cbn. destruct (ptr e) as [p|] eqn:Ep; cbn.
  { split; cbn; [eapply cache_ok_put; [done..|count_entry]|].
    eapply Forall_impl; [exact Hall|]. intros kp. by apply (tracked_put c k e). }
  unfold lock. destruct (isExpired _ _ _) eqn:Ex; cbn; split; cbn.
  - eapply cache_ok_delete; [done..|count_entry].
  - apply Forall_forall. intros [k' p'] Hin. pose proof (proj1 (Forall_forall _ _) Hall _ Hin) as Ht.
    apply (tracked_delete c k e); [done| |done]. intros Hw. by rewrite (held_lock hs k' p' _ e Hin Hw) in Ex.
  - eapply cache_ok_put; [done..|by intros p [= <-]|count_entry].
  - eapply Forall_impl; [exact Hall|]. intros kp. by apply (tracked_put c k e).
Qed.

Lemma del_world k c hs : world_ok (c, hs) → world_ok ((del (owners_of hs) k true c).2, hs).
Proof.
  intros [Hok Hall]. cbn in Hok, Hall. unfold del. destruct (m_cache c !! k) as [e|] eqn:E; [|done]. cbn [snd negb orb].
  set (c1 := with_cache _ _ c).
  assert (world_ok (c1, hs)) as [Hok1 Hall1].
  { split; cbn; [eapply cache_ok_put; [done..|count_entry]|].
    eapply Forall_impl; [exact Hall|]. intros kp. by apply (tracked_put c k e). }
  assert (m_cache c1 !! k = Some (set_ptr None e)) as E1 by apply lookup_insert_eq.
  destruct (isExpired _ _ _) eqn:Ex; [|done]. split; cbn [fst snd].
  - eapply cache_ok_delete; [done..|count_entry].
  - apply Forall_forall. intros [k' p'] Hin. pose proof (proj1 (Forall_forall _ _) Hall1 _ Hin) as Ht.
    apply (tracked_delete c1 k (set_ptr None e)); [done| |done]. intros Hw. by rewrite (held_lock hs k' p' _ _ Hin Hw) in Ex.
Qed.

Lemma strong_holds (m : gmap Key Entry) k e p : m !! k = Some e → ptr e = Some p → 1 <= msum (holds p) m.
Proof.
  intros Hk Hp. pose proof (msum_delete (holds p) m k e Hk) as Hd. unfold holds in Hd at 3. rewrite decide_True in Hd by done.
  assert (0 <= msum (holds p) (delete k m)); [|lia]. apply msum_nonneg. intros e'. unfold holds. case_decide; lia.
Qed.

Lemma sweep_loop_world expire (order : list Key) hs : ∀ stuff c,
  world_ok (c, hs) → world_ok (sweep_loop (owners_of hs) expire order stuff c, hs).
Proof.
  induction order as [|k order IH]; intros stuff c Hw; cbn [sweep_loop]; [done|]. pose proof Hw as [Hok Hall]. cbn in Hok, Hall.
  set (others := fun p => _).
  assert (∀ p, 0 <= others p ∧ owners_of hs p <= others p) as Ho by (intros p; unfold others; pose proof (owners_of_nonneg hs p); lia).
  destruct (m_cache c !! k) as [e|] eqn:E; [|by apply IH]. destruct (ptr e) as [p|] eqn:Ep.
  - destruct (last_access e <=? expire); [|by apply IH]. destruct (Z.eqb_spec (use_count others (m_cache c) p) 1) as [Hu|Hu]; apply IH; split; cbn.
    + eapply cache_ok_delete; [done..|count_entry].
    + apply Forall_forall. intros [k' p'] Hin. pose proof (proj1 (Forall_forall _ _) Hall _ Hin) as Ht.
      apply (tracked_delete c k e); [done| |done]. cbn. rewrite (ok_strong _ Hok k e E p Ep). intros <-.
      pose proof (owners_of_elem _ _ _ Hin). pose proof (strong_holds _ _ _ _ E Ep). destruct (Ho p). unfold use_count in Hu. lia.
    + eapply cache_ok_put; [done..|count_entry].
    + eapply Forall_impl; [exact Hall|]. intros kp. by apply (tracked_put c k e).
  - apply IH. destruct (isExpired others (m_cache c) e) eqn:Ex; [|done]. split; cbn.
    + eapply cache_ok_delete; [done..|count_entry].
    + apply Forall_forall. intros [k' p'] Hin. pose proof (proj1 (Forall_forall _ _) Hall _ Hin) as Ht.
      apply (tracked_delete c k e); [done| |done]. cbn. intros <-. unfold isExpired in Ex. apply Z.eqb_eq in Ex.
      pose proof (owners_of_elem _ _ _ Hin). destruct (Ho (weak_ptr e)).
      pose proof (use_count_pos others (m_cache c) (weak_ptr e) ltac:(lia) ltac:(intros q; by apply Ho)). lia.
Qed.

Lemma cache_step_ok w w' : cache_step w w' → world_ok w → world_ok w'.
Proof.
  intros [now k p c c' hs H|now k c c' hs H|now k p had q c c' hs Hf H|now k c hs|k c hs|now order c hs Ho|c kp l1 l2|s c hs|s c hs|c hs] Hw.
  - destruct (fetch_world _ _ _ _ _ _ Hw H) as [[? ?] Ht]. split; [done|]. apply Forall_cons. auto.
  - by eapply fetch_world.
  - by eapply canonicalize_world.
  - by apply refresh_world.
  - by apply del_world.
  - by apply sweep_loop_world.
  - destruct Hw as [? [H1 [_ H2]%Forall_cons]%Forall_app]. split; [done|]. by apply Forall_app.
  - destruct Hw as [? ?]. split; [by apply (cache_ok_same c)|done].
  - destruct Hw as [? ?]. split; [by apply (cache_ok_same c)|done].
  - destruct Hw as [? ?]. split; [by apply (cache_ok_same c)|done].
Qed.

Lemma cache_reachable_ok size seconds w : cache_reachable size seconds w → world_ok w.
Proof.
  intros H. unfold cache_reachable in H. remember (TaggedCache_init size seconds, []) as w0 eqn:E.
  assert (world_ok w0) as H0.
  { subst. split; [|done]. split; cbn; [by rewrite msum_empty|by intros k e]. }
  clear E. induction H; [done|]. eauto using cache_step_ok.
Qed.

(** C21: As long as entries are not replaced or dropped regardless of their objects, all
    references that are held to the object of a key are to the same object, also after
    the cache let go of it, and fetching the key gives that object; the reported cache
    size is the number of strong entries. *)
Theorem cache_canonical size seconds c hs :
  cache_reachable size seconds (c, hs) →
  (∀ k p q, (k, p) ∈ hs → (k, q) ∈ hs → p = q)
  ∧ (∀ k p now, (k, p) ∈ hs → (fetch (owners_of hs) now k c).1 = Some p)
  ∧ getCacheSize c = Z.of_nat (length (filter (fun ke => isCached ke.2 = true) (map_to_list (m_cache c)))).
Proof.
  intros [Hok Hall]%cache_reachable_ok. cbn in Hok, Hall. rewrite Forall_forall in Hall. split_and!.
  - intros k p q (e1&H1&W1)%Hall (e2&H2&W2)%Hall. cbn in *. congruence.
  - intros k p now Hin. destruct (Hall _ Hin) as (e&He&Hw). cbn in *. unfold fetch. rewrite He. unfold isCached, isWeak. cbn.
    destruct (ptr e) as [p'|] eqn:Ep; cbn; [f_equal; rewrite <-Hw; symmetry; by apply (ok_strong _ Hok k e He)|].
    unfold lock. rewrite (held_lock hs k p _ (touch now e) Hin Hw). cbn. by rewrite Hw.
  - unfold getCacheSize. rewrite (ok_count _ Hok). unfold msum. rewrite map_fold_foldr.
    induction (map_to_list (m_cache c)) as [|[k e] l IH]; [done|]. cbn [foldr uncurry]. rewrite IH, filter_cons. cbn [snd].
    unfold cached at 1. destruct (isCached e); [rewrite decide_True by done|rewrite decide_False by done]; cbn [length]; lia.
Qed.

(** ** What a sweep drops *)

Definition sweep_expire (now : Z) (c : TaggedCache) : Z :=
  when_expire now (m_target_size c) (m_target_age c) (Z.of_nat (size (m_cache c))).

Lemma sweep_loop_keeps owners expire (order : list Key) k e : ptr e ≠ None → expire < last_access e → ∀ stuff c,
  m_cache c !! k = Some e → m_cache (sweep_loop owners expire order stuff c) !! k = Some e.
Proof.
  intros Hs Hl. induction order as [|k' order IH]; intros stuff c Hk; cbn [sweep_loop]; [done|].
  destruct (decide (k' = k)) as [->|Hne].
  - rewrite Hk. destruct (ptr e) eqn:Ep; [|done]. rewrite (proj2 (Z.leb_gt _ _)) by lia. by apply IH.
  - destruct (m_cache c !! k') as [e'|]; [|by apply IH]. repeat case_match; apply IH; cbn; try done;
      by rewrite ?lookup_delete_ne, ?lookup_insert_ne by done.
Qed.

(** Keys that were visited, or that are gone, have no strong entry that expired. *)
Lemma sweep_loop_drops owners expire (order : list Key) : ∀ stuff c k e,
  (∀ k e, m_cache c !! k = Some e → ptr e ≠ None → last_access e <= expire → k ∈ order) →
  m_cache (sweep_loop owners expire order stuff c) !! k = Some e → ptr e ≠ None → expire < last_access e.
Proof.
  induction order as [|k' order IH]; intros stuff c k e Hd; cbn [sweep_loop].
  { intros Hk Hs. destruct (Z.lt_ge_cases expire (last_access e)) as [|Hle]; [done|]. by apply (Hd k e Hk Hs), elem_of_nil in Hle. }
  destruct (m_cache c !! k') as [e'|] eqn:E.
  2: { apply IH. intros k1 e1 H1 S1 L1. destruct (proj1 (elem_of_cons _ _ _) (Hd k1 e1 H1 S1 L1)) as [|]; congruence. }
  destruct (ptr e') as [p|] eqn:Ep.
  - destruct (Z.leb_spec (last_access e') expire) as [Hle|Hlt].
    + destruct (_ =? 1); apply IH; cbn; intros k1 e1.
      * intros [Hne H1]%lookup_delete_Some S1 L1. by destruct (proj1 (elem_of_cons _ _ _) (Hd k1 e1 H1 S1 L1)) as [|].
      * intros [[<- <-]|[Hne H1]]%lookup_insert_Some S1 L1; [done|]. by destruct (proj1 (elem_of_cons _ _ _) (Hd k1 e1 H1 S1 L1)) as [|].
    + apply IH. intros k1 e1 H1 S1 L1. destruct (proj1 (elem_of_cons _ _ _) (Hd k1 e1 H1 S1 L1)) as [->|]; [|done].
      rewrite E in H1. injection H1 as <-. lia.
  - apply IH. intros k1 e1 H1 S1 L1.
    assert (m_cache c !! k1 = Some e1 ∧ k1 ≠ k') as [H1' Hne].
    { destruct (isExpired _ _ _); [cbn in H1; apply lookup_delete_Some in H1 as [? ?]; done|]. split; [done|]. intros ->. congruence. }
    by destruct (proj1 (elem_of_cons _ _ _) (Hd k1 e1 H1' S1 L1)) as [|].
Qed.

Lemma sweep_loop_from owners expire (order : list Key) k e' : ∀ stuff c,
  m_cache (sweep_loop owners expire order stuff c) !! k = Some e' →
  ∃ e, m_cache c !! k = Some e ∧ last_access e' = last_access e ∧ weak_ptr e' = weak_ptr e.
Proof.
  induction order as [|k' order IH]; intros stuff c; cbn [sweep_loop]; [by eauto|].
  destruct (m_cache c !! k') as [e0|] eqn:E; [|apply IH].
  repeat case_match; intros (e&He&?&?)%IH; cbn in He; try (apply lookup_delete_Some in He as [_ He]); eauto.
  apply lookup_insert_Some in He as [[<- <-]|[_ He]]; eauto.
Qed.

Lemma sweep_expire_bounds now c : 0 <= m_target_age c → 0 <= m_target_size c → m_target_age c * m_target_size c < 2 ^ 63 →
  now - Z.max (m_target_age c) ticks_per_second <= sweep_expire now c <= now - Z.min (m_target_age c) ticks_per_second.
Proof.
  intros Ha Hs Hm. unfold sweep_expire, when_expire. set (n := Z.of_nat _).
  destruct (Z.eqb_spec (m_target_size c) 0); [cbn; lia|]. destruct (Z.leb_spec n (m_target_size c)); [cbn; lia|]. cbn [orb].
  rewrite u64_small by nia. set (q := m_target_age c * m_target_size c / n).
  assert (0 <= q <= m_target_age c).
  { unfold q. split; [apply Z.div_pos; nia|]. apply Z.div_le_upper_bound; nia. }
  assert (i64 q = q) as -> by (unfold i64; rewrite Z.mod_small; nia). lia.
Qed.

(** C37: With a target size and age that are not negative and whose product fits 64
    bits, a sweep keeps a strong entry that was used more recently than the target age
    and one second, and none that was last used longer ago than both, however full the
    cache is. *)
Theorem sweep_ages owners now (order : list Key) c k e :
  0 <= m_target_age c → 0 <= m_target_size c → m_target_age c * m_target_size c < 2 ^ 63 →
  order ≡ₚ (map_to_list (m_cache c)).*1 → m_cache c !! k = Some e → isCached e = true →
  (now - last_access e < Z.min (m_target_age c) ticks_per_second → m_cache (sweep owners now order c) !! k = Some e)
  ∧ (Z.max (m_target_age c) ticks_per_second < now - last_access e →
       ∀ e', m_cache (sweep owners now order c) !! k = Some e' → isWeak e' = true).
Proof.
  intros Ha Hs Hm Ho Hk Hc. pose proof (sweep_expire_bounds now c Ha Hs Hm) as Hb. unfold sweep. fold (sweep_expire now c).
  assert (ptr e ≠ None) as Hp by (unfold isCached, isWeak in Hc; by destruct (ptr e)). split.
  - intros Hl. apply sweep_loop_keeps; [done|lia|done].
  - intros Hl e' He'. destruct (sweep_loop_from _ _ _ _ _ _ _ He') as (e0&H0&Hla&_). rewrite Hk in H0. injection H0 as <-. unfold isWeak. destruct (ptr e') eqn:Ep; [|done].
    apply (sweep_loop_drops owners (sweep_expire now c) order [] c) in He'; [lia| |by rewrite Ep].
    intros k1 e1 H1 _ _. rewrite Ho. apply list_elem_of_fmap. exists (k1, e1). by rewrite elem_of_map_to_list.
Qed.

End TaggedCache.
Arguments Entry : clear implicits.
Arguments TaggedCache Key Ptr {_ _}.

(** ** A concrete run: the object outlives its strong entry and is found again *)

Definition demo_c1 : TaggedCache N N := (canonicalize (owners_of [(1%N, 10%N)]) 0 1%N 10%N false (TaggedCache_init 8 600)).2.
Definition demo_c2 : TaggedCache N N := sweep (owners_of [(1%N, 10%N)]) 1000000000000 [1%N] demo_c1.
Definition demo_c3 : TaggedCache N N := (canonicalize (owners_of [(1%N, 11%N); (1%N, 10%N)]) 1000000000001 1%N 11%N false demo_c2).2.

Lemma demo_reachable2 : cache_reachable 8 600 (demo_c2, [(1%N, 10%N)]).
Proof.
  eapply rtc_l; [apply (cs_canonicalize 0 1%N 10%N false 10%N _ demo_c1 []); [|by vm_compute]|].
  { split; [intros k; apply not_elem_of_nil|by intros k e]. }
  apply rtc_once, cs_sweep. by vm_compute.
Qed.

Lemma demo_reachable3 : cache_reachable 8 600 (demo_c3, [(1%N, 10%N); (1%N, 10%N)]).
Proof.
  eapply rtc_r; [exact demo_reachable2|]. apply (cs_canonicalize 1000000000001 1%N 11%N true 10%N _ demo_c3); [|by vm_compute].
  split; [intros k; set_solver|]. intros k e He. unfold demo_c2 in He. vm_compute in He.
  assert (map_Forall (fun _ e => weak_ptr e ≠ 11%N) (m_cache demo_c2)) as Hall by (apply (bool_decide_unpack _); by vm_compute).
  exact (Hall k e He).
Qed.

Lemma cache_canonical_witness : isWeak <$> m_cache demo_c2 !! 1%N = Some true
  ∧ (fetch (owners_of [(1%N, 10%N)]) 1000000000001 1%N demo_c2).1 = Some 10%N ∧ getCacheSize demo_c3 = 1.
Proof.
  destruct (cache_canonical 8 600 demo_c2 _ demo_reachable2) as (_&Hf&_).
  destruct (cache_canonical 8 600 demo_c3 _ demo_reachable3) as (_&_&Hc).
  split_and!; [by vm_compute|apply Hf; by left|rewrite Hc; by vm_compute].
Defined.

Lemma sweep_ages_witness : m_cache (sweep (owners_of [(1%N, 10%N)]) 1 [1%N] demo_c1) !! 1%N = Some (mkEntry (Some 10%N) 10%N 0).
Proof.
  apply (sweep_ages (owners_of [(1%N, 10%N)]) 1 [1%N] demo_c1 1%N (mkEntry (Some 10%N) 10%N 0)); by vm_compute.
Defined.
