(* ===== verification/KeyCache.v ===== *)
(** * The cache of keys ([basics/KeyCache.h])

    Keys with the time of their last access, in ticks of the steady clock; [sweep] removes the
    stale ones. *)

From S2P Require Import Prelude TaggedCache.
Local Open Scope Z_scope.

Section KeyCache.
Context {Key : Type} `{!EqDecision Key, !Countable Key}.

Record KeyCache := mkKeyCache { m_map : gmap Key Z; key_target_size : Z; key_target_age : Z; hits : Z; misses : Z }.

Definition KeyCache_init (target_size expiration_seconds : Z) : KeyCache :=
  mkKeyCache ∅ target_size (expiration_seconds * ticks_per_second) 0 0.

Definition with_map (m : gmap Key Z) (c : KeyCache) : KeyCache :=
  mkKeyCache m (key_target_size c) (key_target_age c) (hits c) (misses c).
Definition count_access (found : bool) (c : KeyCache) : KeyCache :=
  mkKeyCache (m_map c) (key_target_size c) (key_target_age c)
    (if found then u64 (hits c + 1) else hits c) (if found then misses c else u64 (misses c + 1)).

Definition key_size (c : KeyCache) : Z := Z.of_nat (size (m_map c)).
Definition key_clear (c : KeyCache) : KeyCache := with_map ∅ c.
Definition key_setTargetSize (s : Z) (c : KeyCache) : KeyCache :=
  mkKeyCache (m_map c) s (key_target_age c) (hits c) (misses c).
Definition key_setTargetAge (s : Z) (c : KeyCache) : KeyCache :=
  mkKeyCache (m_map c) (key_target_size c) (s * ticks_per_second) (hits c) (misses c).

Definition exists_ (key : Key) (c : KeyCache) : bool * KeyCache :=
  let found := bool_decide (is_Some (m_map c !! key)) in (found, count_access found c).

Definition key_insert (now : Z) (key : Key) (c : KeyCache) : bool * KeyCache :=
  (negb (bool_decide (is_Some (m_map c !! key))), with_map (<[key := now]> (m_map c)) c).

Definition touch_if_exists (now : Z) (key : Key) (c : KeyCache) : bool * KeyCache :=
  match m_map c !! key with
  | None => (false, count_access false c)
  | Some _ => (true, count_access true (with_map (<[key := now]> (m_map c)) c))
  end.

Definition key_erase (key : Key) (c : KeyCache) : bool * KeyCache :=
  let found := bool_decide (is_Some (m_map c !! key)) in (found, count_access found (with_map (delete key (m_map c)) c)).

(** The sizes are unsigned, the quotient is converted to a duration. *)
Definition key_when_expire (now target_size target_age size : Z) : Z :=
  if (target_size =? 0) || (size <=? target_size) then now - target_age
  else Z.min (now - i64 (u64 (target_age * target_size) / size)) (now - ticks_per_second).

Fixpoint key_sweep_loop (now expire : Z) (order : list Key) (m : gmap Key Z) : gmap Key Z :=
  match order with
  | [] => m
  | key :: order =>
      key_sweep_loop now expire order
        match m !! key with
        | None => m
        | Some last_access =>
            if now <? last_access then <[key := now]> m
            else if last_access <=? expire then delete key m else m
        end
  end.

Definition key_sweep (now : Z) (order : list Key) (c : KeyCache) : KeyCache :=
  with_map (key_sweep_loop now (key_when_expire now (key_target_size c) (key_target_age c) (key_size c)) order (m_map c)) c.

(** ** What a sweep keeps *)

Definition survives (now expire last_access : Z) : option Z :=
  if now <? last_access then Some now else if last_access <=? expire then None else Some last_access.

Lemma key_sweep_loop_other now expire (order : list Key) k : ∀ m, k ∉ order → key_sweep_loop now expire order m !! k = m !! k.
Proof.
  induction order as [|k' order IH]; intros m Hk; [done|]. apply not_elem_of_cons in Hk as [Hne Hk]. cbn [key_sweep_loop].
  rewrite IH by done. repeat case_match; try done; by rewrite ?lookup_insert_ne, ?lookup_delete_ne by done.
Qed.

Lemma key_sweep_loop_spec now expire (order : list Key) k : ∀ m, NoDup order → k ∈ order →
  key_sweep_loop now expire order m !! k = m !! k ≫= survives now expire.
Proof.
  induction order as [|k' order IH]; intros m Hnd Hk; [by apply elem_of_nil in Hk|]. apply NoDup_cons in Hnd as [Hk' Hnd].
  cbn [key_sweep_loop]. destruct (decide (k = k')) as [->|Hne].
  - rewrite key_sweep_loop_other by done. unfold survives. destruct (m !! k') as [a|] eqn:E; cbn; [|done].
    destruct (now <? a); [apply lookup_insert_eq|]. destruct (a <=? expire); [apply lookup_delete_eq|done].
  - rewrite IH; [|done|by apply elem_of_cons in Hk as [|]]. f_equal.
    repeat case_match; try done; by rewrite ?lookup_insert_ne, ?lookup_delete_ne by done.
Qed.

(** A sweep removes exactly the keys whose last access is at or before the expiry time, and sets
    accesses in the future to now. *)
Lemma key_sweep_exact now (order : list Key) c k : order ≡ₚ (map_to_list (m_map c)).*1 →
  m_map (key_sweep now order c) !! k =
  m_map c !! k ≫= survives now (key_when_expire now (key_target_size c) (key_target_age c) (key_size c)).
Proof.
  intros Ho. cbn. destruct (decide (k ∈ order)) as [Hk|Hk].
  - apply key_sweep_loop_spec; [|done]. rewrite Ho. apply NoDup_fst_map_to_list.
  - rewrite key_sweep_loop_other by done. destruct (m_map c !! k) as [a|] eqn:E; [|done]. destruct Hk. rewrite Ho.
    apply list_elem_of_fmap. exists (k, a). by rewrite elem_of_map_to_list.
Qed.
End KeyCache.
