(* ===== verification/LedgerTiming.v ===== *)
(** * Ledger timing ([app/ledger/LedgerTiming.h], [app/ledger/impl/LedgerTiming.cpp])

    When a ledger closes, how its close time is rounded, and when consensus is declared.
    Network times and resolutions are 32-bit seconds, durations are milliseconds. *)

From S2P Require Import Prelude.
Local Open Scope Z_scope.

(** ** Parameters *)

Definition minimumConsensusPercentage : Z := 80.
Definition ledgerPossibleTimeResolutions : list Z := [10; 20; 30; 60; 90; 120].
Definition ledgerDefaultTimeResolution : Z := 30.
Definition increaseLedgerTimeResolutionEvery : Z := 8.
Definition decreaseLedgerTimeResolutionEvery : Z := 1.
Definition LEDGER_IDLE_INTERVAL : Z := 10000.
Definition LEDGER_MIN_CONSENSUS : Z := 1950.
Definition LEDGER_MIN_CLOSE : Z := 2000.
Definition LEDGER_GRANULARITY : Z := 10000.
Definition PROPOSE_FRESHNESS : Z := 20.
Definition PROPOSE_INTERVAL : Z := 12.
Definition AV_INIT_CONSENSUS_PCT : Z := 50.
Definition AV_MID_CONSENSUS_TIME : Z := 50.
Definition AV_MID_CONSENSUS_PCT : Z := 65.
Definition AV_LATE_CONSENSUS_TIME : Z := 85.
Definition AV_LATE_CONSENSUS_PCT : Z := 70.
Definition AV_STUCK_CONSENSUS_TIME : Z := 200.
Definition AV_STUCK_CONSENSUS_PCT : Z := 95.
Definition AV_CT_CONSENSUS_PCT : Z := 75.
Definition AV_MIN_CONSENSUS_TIME : Z := 5000.

(** ** Functions *)

(** [std::find]: the index of the first equal element, the length when there is none. *)
Fixpoint find_index (x : Z) (l : list Z) : nat :=
  match l with [] => 0 | y :: l => if y =? x then 0 else S (find_index x l) end.

Definition getNextLedgerTimeResolution (previousResolution : Z) (previousAgree : bool) (ledgerSeq : Z)
  : res Z :=
  assert_ (negb (ledgerSeq =? 0));;
  let l := ledgerPossibleTimeResolutions in
  let iter := find_index previousResolution l in
  assert_ (negb (Nat.eqb iter (length l)));;
  let dec := negb previousAgree && (ledgerSeq mod decreaseLedgerTimeResolutionEvery =? 0) in
  if dec && negb (Nat.eqb (S iter) (length l)) then deref (l !! S iter)
  else if previousAgree && (ledgerSeq mod increaseLedgerTimeResolutionEvery =? 0) && negb (Nat.eqb iter 0)
  then deref (l !! (iter - 1)%nat)
  else Ok previousResolution.

Definition roundCloseTime (closeTime closeResolution : Z) : res Z :=
  if closeTime =? 0 then Ok closeTime
  else
    let closeTime := u32 (closeTime + closeResolution / 2) in
    if closeResolution =? 0 then Err undefined
    else Ok (u32 (closeTime - closeTime mod closeResolution)).

Definition shouldCloseLedger (anyTransactions : bool)
    (previousProposers proposersClosed proposersValidated : Z)
    (previousTime currentTime openTime idleInterval : Z) : bool :=
  if (previousTime <? -1000) || (600000 <? previousTime) || (600000 <? currentTime) then true
  else if Z.quot previousProposers 2 <? proposersClosed + proposersValidated then true
  else if negb anyTransactions then idleInterval <=? currentTime
  else if openTime <? LEDGER_MIN_CLOSE then false
  else if openTime <? Z.quot previousTime 2 then false
  else true.

Definition checkConsensusReached (agreeing total : Z) (count_self : bool) : bool :=
  if total =? 0 then true
  else
    let '(agreeing, total) := if count_self then (agreeing + 1, total + 1) else (agreeing, total) in
    minimumConsensusPercentage <? Z.quot (agreeing * 100) total.

Inductive ConsensusState := CS_No | CS_MovedOn | CS_Yes.

Definition checkConsensus (previousProposers currentProposers currentAgree currentFinished : Z)
    (previousAgreeTime currentAgreeTime : Z) (proposing : bool) : ConsensusState :=
  if currentAgreeTime <=? LEDGER_MIN_CONSENSUS then CS_No
  else if (currentProposers <? Z.quot (previousProposers * 3) 4)
          && (currentAgreeTime <? previousAgreeTime + LEDGER_MIN_CONSENSUS) then CS_No
  else if checkConsensusReached currentAgree currentProposers proposing then CS_Yes
  else if checkConsensusReached currentFinished currentProposers false then CS_MovedOn
  else CS_No.

(** [participantsNeeded] of [LedgerConsensusImp.cpp] *)
Definition participantsNeeded (participants percent : Z) : Z :=
  let result := Z.quot (participants * percent + Z.quot percent 2) 100 in
  if result =? 0 then 1 else result.

(** The avalanche threshold at a percentage of the expected time. *)
Definition neededWeight (percentTime : Z) : Z :=
  if percentTime <? AV_MID_CONSENSUS_TIME then AV_INIT_CONSENSUS_PCT
  else if percentTime <? AV_LATE_CONSENSUS_TIME then AV_MID_CONSENSUS_PCT
  else if percentTime <? AV_STUCK_CONSENSUS_TIME then AV_LATE_CONSENSUS_PCT
  else AV_STUCK_CONSENSUS_PCT.

(** ** Close times *)

Lemma roundCloseTime_spec t r :
  0 < t → 0 < r → t + r / 2 < 2 ^ 32 →
  ∃ c, roundCloseTime t r = Ok c ∧ (r | c) ∧ t - (r - 1 - r / 2) <= c <= t + r / 2.
Proof.
  intros Ht Hr Hm. unfold roundCloseTime. rewrite !(proj2 (Z.eqb_neq _ _)) by lia.
  assert (0 <= r / 2) by (apply Z.div_pos; lia). unfold u32. rewrite (Z.mod_small (t + r / 2)) by lia.
  pose proof (Z.mod_pos_bound (t + r / 2) r Hr). pose proof (Z.mod_le (t + r / 2) r ltac:(lia) Hr).
  rewrite Z.mod_small by lia. eexists. split; [reflexivity|]. split; [|lia].
  exists ((t + r / 2) / r). rewrite (Z.div_mod (t + r / 2) r) at 1 by lia. lia.
Qed.

Lemma roundCloseTime_idemp t r c :
  0 < t → 0 < r → t + r / 2 < 2 ^ 32 → c + r / 2 < 2 ^ 32 →
  roundCloseTime t r = Ok c → roundCloseTime c r = Ok c.
Proof.
  intros Ht Hr Hm Hm' Hc. destruct (roundCloseTime_spec t r Ht Hr Hm) as (c'&Hc'&[k Hk]&Hb).
  rewrite Hc in Hc'. injection Hc' as <-. assert (r / 2 < r) by (apply Z.div_lt_upper_bound; lia).
  assert (0 <= r / 2) by (apply Z.div_pos; lia). unfold roundCloseTime.
  destruct (Z.eqb_spec c 0) as [|Hne]; [done|]. rewrite (proj2 (Z.eqb_neq r 0)) by lia.
  assert (0 <= c) by (destruct (Z.le_gt_cases k (-1)); nia). unfold u32. rewrite (Z.mod_small (c + r / 2)) by lia.
  assert ((c + r / 2) mod r = r / 2) as -> by (rewrite Hk, Z.add_comm, Z.mod_add by lia; apply Z.mod_small; lia).
  rewrite Z.mod_small by lia. f_equal. lia.
Qed.

(** The resolution before each ledger of a sequence, from the first one on. *)
Fixpoint resolutions (r : Z) (seq : Z) (agrees : list bool) : res Z :=
  match agrees with
  | [] => Ok r
  | a :: agrees => r ← getNextLedgerTimeResolution r a seq; resolutions r (seq + 1) agrees
  end.

Definition possible (r : Z) : Prop := r ∈ ledgerPossibleTimeResolutions.

Lemma possible_cases r : possible r → r = 10 ∨ r = 20 ∨ r = 30 ∨ r = 60 ∨ r = 90 ∨ r = 120.
Proof. unfold possible, ledgerPossibleTimeResolutions. rewrite !elem_of_cons, elem_of_nil. tauto. Qed.

Lemma next_possible r a seq :
  possible r → 0 < seq → ∃ r', getNextLedgerTimeResolution r a seq = Ok r' ∧ possible r'
    ∧ (a = false → r <= r' ∧ (r < 120 → r < r')) ∧ (a = true → r' <= r).
Proof.
  intros Hr Hs. unfold getNextLedgerTimeResolution. rewrite (proj2 (Z.eqb_neq seq 0)) by lia. cbn [negb assert_ mbind res_bind].
  unfold decreaseLedgerTimeResolutionEvery. rewrite Z.mod_1_r.
  apply possible_cases in Hr. destruct Hr as [->|[->|[->|[->|[->| ->]]]]], a, (seq mod increaseLedgerTimeResolutionEvery =? 0);
    cbn; eexists; (split; [reflexivity|]); (split; [unfold possible, ledgerPossibleTimeResolutions; rewrite !elem_of_cons; tauto|]);
    split; intros; try done; lia.
Qed.

(** The coarser neighbour of a resolution, which is its own neighbour at the end. *)
Definition coarser (r : Z) : Z :=
  default r (ledgerPossibleTimeResolutions !! S (find_index r ledgerPossibleTimeResolutions)).

Lemma next_disagree r seq : possible r → 0 < seq → getNextLedgerTimeResolution r false seq = Ok (coarser r).
Proof.
  intros Hr Hs. unfold getNextLedgerTimeResolution. rewrite (proj2 (Z.eqb_neq seq 0)) by lia.
  cbn [negb assert_ mbind res_bind]. unfold decreaseLedgerTimeResolutionEvery. rewrite Z.mod_1_r.
  apply possible_cases in Hr. by destruct Hr as [->|[->|[->|[->|[->| ->]]]]].
Qed.

Lemma coarser_possible r : possible r → possible (coarser r).
Proof.
  intros Hr. apply possible_cases in Hr. unfold possible.
  destruct Hr as [->|[->|[->|[->|[->| ->]]]]]; by apply (bool_decide_unpack _); vm_compute.
Qed.

Lemma resolutions_disagree n : ∀ r seq, possible r → 0 < seq →
  resolutions r seq (replicate n false) = Ok (Nat.iter n coarser r).
Proof.
  induction n as [|n IH]; intros r seq Hr Hs; [done|]. cbn [replicate resolutions].
  rewrite next_disagree by done. cbn [mbind res_bind].
  rewrite IH by (auto using coarser_possible || lia). by rewrite Nat.iter_succ_r.
Qed.

Lemma iter_coarsest n : Nat.iter n coarser 120 = 120.
Proof. induction n as [|n IH]; [done|]. by rewrite Nat.iter_succ, IH. Qed.

(** Liveness of the close time resolution: from any possible resolution, five ledgers
    without agreement lead to the coarsest, which then stays. *)
Theorem resolution_coarsens r seq n :
  possible r → 0 < seq → (5 <= n)%nat → resolutions r seq (replicate n false) = Ok 120.
Proof.
  intros Hr Hs Hn. rewrite resolutions_disagree by done. f_equal.
  replace n with ((n - 5) + 5)%nat by lia. rewrite Nat.iter_add.
  apply possible_cases in Hr. destruct Hr as [->|[->|[->|[->|[->| ->]]]]]; apply iter_coarsest.
Qed.

Lemma resolution_coarsens_witness : resolutions 30 7 (replicate 6 false) = Ok 120.
Proof. apply resolution_coarsens; [by right; right; left|lia|lia]. Defined.

(** ** Thresholds *)

(** Consensus with [count_self] means that at least 81 % of the proposers and ourselves agree. *)
Lemma reached_weight agreeing total :
  0 <= agreeing → 0 < total → checkConsensusReached agreeing total true = true →
  81 * (total + 1) <= 100 * (agreeing + 1).
Proof.
  intros Ha Ht. unfold checkConsensusReached. rewrite (proj2 (Z.eqb_neq total 0)) by lia.
  unfold minimumConsensusPercentage. intros H%Z.ltb_lt. rewrite Z.quot_div_nonneg in H by lia.
  pose proof (Z.mul_div_le ((agreeing + 1) * 100) (total + 1)). nia.
Qed.

Lemma reached_all total count_self : 0 <= total → checkConsensusReached total total count_self = true.
Proof.
  intros Ht. unfold checkConsensusReached. destruct (Z.eqb_spec total 0) as [|Hne]; [done|].
  destruct count_self; (rewrite Z.mul_comm, Z.quot_mul by lia); done.
Qed.
