(* ===== verification/Dispute.v ===== *)
(** * Disputed transactions ([app/ledger/impl/DisputedTx.h])

    A transaction that some proposers want in the next ledger and some do not.  The object keeps
    the votes of the peers, their tally, and our own vote, which [updateVote] moves with the
    avalanche thresholds.  The class is a template over the consensus traits: the types of node
    and transaction are parameters here too. *)

From S2P Require Import Prelude LedgerTiming.
Local Open Scope Z_scope.

Section Dispute.
Context {NodeID : Type} `{Countable NodeID} {Tx : Type}.

Record DisputedTx := mkDispute {
  mYays : Z; mNays : Z; mOurVote : bool; transaction : Tx; mVotes : gmap NodeID bool }.

(** ** Operations *)

Definition DisputedTx_init (tx : Tx) (ourVote : bool) : DisputedTx := mkDispute 0 0 ourVote tx ∅.

Definition setOurVote (o : bool) (d : DisputedTx) : DisputedTx :=
  mkDispute (mYays d) (mNays d) o (transaction d) (mVotes d).

Definition setVote (peer : NodeID) (votesYes : bool) (d : DisputedTx) : DisputedTx :=
  match mVotes d !! peer with
  | None =>
      let votes := <[peer := votesYes]> (mVotes d) in
      if votesYes then mkDispute (mYays d + 1) (mNays d) (mOurVote d) (transaction d) votes
      else mkDispute (mYays d) (mNays d + 1) (mOurVote d) (transaction d) votes
  | Some old =>
      if votesYes && negb old then
        mkDispute (mYays d + 1) (mNays d - 1) (mOurVote d) (transaction d) (<[peer := true]> (mVotes d))
      else if negb votesYes && old then
        mkDispute (mYays d - 1) (mNays d + 1) (mOurVote d) (transaction d) (<[peer := false]> (mVotes d))
      else d
  end.

Definition unVote (peer : NodeID) (d : DisputedTx) : DisputedTx :=
  match mVotes d !! peer with
  | Some true => mkDispute (mYays d - 1) (mNays d) (mOurVote d) (transaction d) (delete peer (mVotes d))
  | Some false => mkDispute (mYays d) (mNays d - 1) (mOurVote d) (transaction d) (delete peer (mVotes d))
  | None => d
  end.

(** The percentage of nodes voting yes, ourselves included. *)
Definition yes_weight (d : DisputedTx) : Z :=
  Z.quot (mYays d * 100 + (if mOurVote d then 100 else 0)) (mNays d + mYays d + 1).

Definition newPosition (percentTime : Z) (proposing : bool) (d : DisputedTx) : bool :=
  if proposing then
    if percentTime <? AV_MID_CONSENSUS_TIME then AV_INIT_CONSENSUS_PCT <? yes_weight d
    else if percentTime <? AV_LATE_CONSENSUS_TIME then AV_MID_CONSENSUS_PCT <? yes_weight d
    else if percentTime <? AV_STUCK_CONSENSUS_TIME then AV_LATE_CONSENSUS_PCT <? yes_weight d
    else AV_STUCK_CONSENSUS_PCT <? yes_weight d
  else mNays d <? mYays d.

Definition updateVote (percentTime : Z) (proposing : bool) (d : DisputedTx) : bool * DisputedTx :=
  if mOurVote d && (mNays d =? 0) then (false, d)
  else if negb (mOurVote d) && (mYays d =? 0) then (false, d)
  else
    let p := newPosition percentTime proposing d in
    if Bool.eqb p (mOurVote d) then (false, d) else (true, setOurVote p d).

(** ** The tally *)

Definition ind (b b' : bool) : Z := if Bool.eqb b b' then 1 else 0.
Definition votes_for (b : bool) (votes : gmap NodeID bool) : Z := msum (ind b) votes.

Lemma votes_for_nonneg b votes : 0 <= votes_for b votes.
Proof. apply msum_nonneg. intros v. unfold ind. destruct (Bool.eqb b v); lia. Qed.

(** The two counters are the numbers of yes and no votes. *)
Definition tallied (d : DisputedTx) : Prop :=
  mYays d = votes_for true (mVotes d) ∧ mNays d = votes_for false (mVotes d).

Lemma tallied_init tx b : tallied (DisputedTx_init tx b).
Proof. split; symmetry; apply msum_empty. Qed.

Lemma tallied_setOurVote b d : tallied d → tallied (setOurVote b d).
Proof. done. Qed.

Lemma setVote_votes p b d : mVotes (setVote p b d) = <[p := b]> (mVotes d).
Proof.
  unfold setVote. destruct (mVotes d !! p) as [[]|] eqn:E; destruct b; cbn; try done;
    by rewrite insert_id.
Qed.

Lemma unVote_votes p d : mVotes (unVote p d) = delete p (mVotes d).
Proof. unfold unVote. destruct (mVotes d !! p) as [[]|] eqn:E; cbn; [done..|]. by rewrite delete_id. Qed.

Lemma tallied_setVote p b d : tallied d → tallied (setVote p b d).
Proof.
  unfold tallied, votes_for. rewrite setVote_votes. intros [Hy Hn]. unfold setVote.
  destruct (mVotes d !! p) as [old|] eqn:E.
  - rewrite !(msum_update _ _ _ old) by done. destruct old, b; cbn; lia.
  - rewrite !msum_insert by done. destruct b; cbn; lia.
Qed.

Lemma tallied_unVote p d : tallied d → tallied (unVote p d).
Proof.
  unfold tallied, votes_for. rewrite unVote_votes. intros [Hy Hn]. unfold unVote.
  destruct (mVotes d !! p) as [old|] eqn:E.
  - rewrite !(msum_delete _ _ _ old) by done. destruct old; cbn; lia.
  - by rewrite delete_id.
Qed.

Lemma updateVote_votes pt pr d :
  let d' := (updateVote pt pr d).2 in
  mVotes d' = mVotes d ∧ mYays d' = mYays d ∧ mNays d' = mNays d ∧ transaction d' = transaction d.
Proof.
  unfold updateVote. by repeat case_match.
Qed.

Lemma tallied_updateVote pt pr d : tallied d → tallied (updateVote pt pr d).2.
Proof.
  unfold tallied. destruct (updateVote_votes pt pr d) as (->&->&->&_). done.
Qed.

Lemma setVote_frame p b d : mOurVote (setVote p b d) = mOurVote d ∧ transaction (setVote p b d) = transaction d.
Proof. unfold setVote. by destruct (mVotes d !! p) as [[]|], b. Qed.

Lemma unVote_frame p d : mOurVote (unVote p d) = mOurVote d ∧ transaction (unVote p d) = transaction d.
Proof. unfold unVote. by destruct (mVotes d !! p) as [[]|]. Qed.

(** ** What the update decides *)

(** A proposing node ends with a vote that depends only on the share of yes votes, its own
    included: the two early returns agree with the threshold test. *)
Lemma updateVote_vote pt d : tallied d →
  mOurVote (updateVote pt true d).2 = (neededWeight pt <? yes_weight d).
Proof.
  intros [Hy Hn]. pose proof (votes_for_nonneg true (mVotes d)). pose proof (votes_for_nonneg false (mVotes d)).
  assert (50 <= neededWeight pt < 100)
    by (unfold neededWeight; repeat case_match; vm_compute; intuition congruence).
  assert (newPosition pt true d = (neededWeight pt <? yes_weight d)) as Hp
    by (unfold newPosition, neededWeight; by repeat case_match).
  unfold updateVote. destruct (mOurVote d && (mNays d =? 0)) eqn:E1.
  { apply andb_true_iff in E1 as [E1 E2]. cbn. rewrite E1. symmetry. apply Z.ltb_lt. unfold yes_weight. rewrite E1.
    replace (mYays d * 100 + 100) with (100 * (mNays d + mYays d + 1)) by lia. rewrite Z.quot_mul by lia. lia. }
  destruct (negb (mOurVote d) && (mYays d =? 0)) eqn:E2.
  { apply andb_true_iff in E2 as [E2 E3]. cbn. apply negb_true_iff in E2. rewrite E2. symmetry. apply Z.ltb_ge.
    unfold yes_weight. rewrite E2. replace (mYays d) with 0 by lia. cbn. rewrite Z.quot_0_l by lia. lia. }
  rewrite Hp. destruct (Bool.eqb _ _) eqn:E; cbn; [|done]. by apply eqb_prop in E.
Qed.

(** ** Proposers that hear each other

    A network of proposing nodes, each with its own object for the same transaction.  In a round
    every node updates its vote, then hears the vote of every other node. *)

Notation Network := (gmap NodeID DisputedTx).

Definition hear (n p : NodeID) (d' d : DisputedTx) : DisputedTx :=
  if decide (p = n) then d else setVote p (mOurVote d') d.

Definition deliver (ds : Network) (n : NodeID) (d : DisputedTx) : DisputedTx :=
  map_fold (hear n) d ds.

Definition round (pt : NodeID → Z) (ds : Network) : Network :=
  let us := map_imap (fun n d => Some (updateVote (pt n) true d).2) ds in
  map_imap (fun n d => Some (deliver us n d)) us.

Definition votes_of (ds : Network) : gmap NodeID bool := mOurVote <$> ds.

(** Every node keeps an exact tally of votes of other nodes of the network. *)
Definition sane (ds : Network) : Prop :=
  ∀ n d, ds !! n = Some d → tallied d ∧ mVotes d !! n = None ∧ dom (mVotes d) ⊆ dom ds.

(** Every node knows the vote of every other node. *)
Definition informed (ds : Network) : Prop :=
  ∀ n d, ds !! n = Some d → tallied d ∧ mVotes d = delete n (votes_of ds).

Lemma deliver_ok ds n d : tallied d → mVotes d !! n = None →
  tallied (deliver ds n d) ∧ mOurVote (deliver ds n d) = mOurVote d
    ∧ mVotes (deliver ds n d) = delete n (votes_of ds) ∪ mVotes d.
Proof.
  intros Ht Hn. unfold deliver, votes_of.
  apply (map_fold_weak_ind (fun r m => tallied r ∧ mOurVote r = mOurVote d
    ∧ mVotes r = delete n (mOurVote <$> m) ∪ mVotes d)).
  - rewrite fmap_empty, delete_empty, (left_id_L ∅ (∪)). done.
  - intros p d' m r Hp (Htr&Hor&Hvr). unfold hear. rewrite fmap_insert. case_decide as Hpn.
    + subst p. rewrite delete_insert_eq. rewrite delete_id by (by rewrite lookup_fmap, Hp).
      rewrite delete_id in Hvr by (by rewrite lookup_fmap, Hp). done.
    + split; [by apply tallied_setVote|]. rewrite (proj1 (setVote_frame _ _ _)), setVote_votes, Hvr.
      split; [done|]. by rewrite delete_insert_ne, insert_union_l by done.
Qed.

Lemma round_lookup pt ds n :
  round pt ds !! n
  = (fun d => deliver (map_imap (fun n d => Some (updateVote (pt n) true d).2) ds) n (updateVote (pt n) true d).2) <$> ds !! n.
Proof. unfold round. rewrite !map_lookup_imap. by destruct (ds !! n). Qed.

Lemma round_votes pt ds n : sane ds →
  votes_of (round pt ds) !! n = (fun d => mOurVote (updateVote (pt n) true d).2) <$> ds !! n.
Proof.
  intros Hs. unfold votes_of. rewrite lookup_fmap, round_lookup. destruct (ds !! n) as [d|] eqn:E; [|done]. cbn.
  destruct (Hs n d E) as (Ht&Hn&_). f_equal. apply deliver_ok; [by apply tallied_updateVote|].
  by rewrite (proj1 (updateVote_votes _ _ _)).
Qed.

Lemma round_dom pt ds : dom (round pt ds) = dom ds.
Proof.
  apply set_eq. intros n. rewrite !elem_of_dom, round_lookup. destruct (ds !! n); [done|].
  by split; intros [? ?].
Qed.

Lemma round_informed pt ds : sane ds → informed (round pt ds).
Proof.
  intros Hs n d'. rewrite round_lookup. destruct (ds !! n) as [d|] eqn:E; [|done]. cbn. intros [= <-].
  set (us := map_imap _ ds). destruct (Hs n d E) as (Ht&Hn&Hd).
  destruct (deliver_ok us n (updateVote (pt n) true d).2) as (Ht'&_&Hv); [by apply tallied_updateVote|
    by rewrite (proj1 (updateVote_votes _ _ _))|].
  split; [done|]. rewrite Hv, (proj1 (updateVote_votes _ _ _)). apply map_eq. intros k.
  destruct (decide (k = n)) as [->|Hk].
  { rewrite lookup_delete_eq, lookup_union_r by apply lookup_delete_eq. done. }
  rewrite lookup_delete_ne, round_votes by done. destruct (ds !! k) as [dk|] eqn:Ek; cbn.
  - apply lookup_union_Some_l. rewrite lookup_delete_ne by done. unfold votes_of, us.
    by rewrite lookup_fmap, map_lookup_imap, Ek.
  - rewrite lookup_union_r.
    + apply not_elem_of_dom. intros Hin%Hd%elem_of_dom. rewrite Ek in Hin. by destruct Hin.
    + rewrite lookup_delete_ne by done. unfold votes_of, us. by rewrite lookup_fmap, map_lookup_imap, Ek.
Qed.

Lemma informed_sane ds : informed ds → sane ds.
Proof.
  intros Hi n d Hd. destruct (Hi n d Hd) as [Ht Hv]. rewrite Hv. split; [done|].
  rewrite lookup_delete_eq. split; [done|]. rewrite dom_delete_L. unfold votes_of. rewrite dom_fmap_L. set_solver.
Qed.

Lemma votes_split b (V : gmap NodeID bool) n v : V !! n = Some v →
  votes_for b V = votes_for b (delete n V) + ind b v.
Proof. intros HV. unfold votes_for. rewrite (msum_delete _ _ _ v) by done. lia. Qed.

(** An informed node's weight is the share of yes votes in the whole network. *)
Lemma informed_weight ds n d : informed ds → ds !! n = Some d →
  yes_weight d = Z.quot (votes_for true (votes_of ds) * 100)
                        (votes_for false (votes_of ds) + votes_for true (votes_of ds)).
Proof.
  intros Hi Hd. destruct (Hi n d Hd) as [[Hy Hn] Hv]. unfold yes_weight.
  assert (votes_of ds !! n = Some (mOurVote d)) as HV by (unfold votes_of; by rewrite lookup_fmap, Hd).
  rewrite !(votes_split _ _ n _ HV), Hy, Hn, Hv. unfold ind. destruct (mOurVote d); cbn; f_equal; lia.
Qed.

Definition agreed (b : bool) (ds : Network) : Prop := ∀ n d, ds !! n = Some d → mOurVote d = b.

Lemma round_agrees pt w ds : informed ds → (∀ n, neededWeight (pt n) = w) → ∃ b, agreed b (round pt ds).
Proof.
  intros Hi Hw. eexists. intros n d' Hd'.
  assert (votes_of (round pt ds) !! n = Some (mOurVote d')) as HV by (unfold votes_of; by rewrite lookup_fmap, Hd').
  rewrite round_votes in HV by (by apply informed_sane). destruct (ds !! n) as [d|] eqn:E; [|done]. cbn in HV.
  injection HV as <-. rewrite updateVote_vote by (by apply (Hi n d)). rewrite Hw, (informed_weight ds n d) by done.
  reflexivity.
Qed.

Lemma votes_for_all b (V : gmap NodeID bool) : (∀ n v, V !! n = Some v → v = b) → votes_for (negb b) V = 0.
Proof.
  unfold votes_for. induction V as [|n v V Hn IH] using map_ind; intros Hall; [apply msum_empty|].
  rewrite msum_insert, IH by (done || (intros m u Hu; apply (Hall m); rewrite lookup_insert_ne; [done|intros ->; congruence])).
  rewrite (Hall n v) by apply lookup_insert_eq. unfold ind. by destruct b.
Qed.

(** Once all nodes agree, no later update changes a vote. *)
Lemma agreed_stays pt b ds : informed ds → agreed b ds → agreed b (round pt ds).
Proof.
  intros Hi Ha n d' Hd'.
  assert (votes_of (round pt ds) !! n = Some (mOurVote d')) as HV by (unfold votes_of; by rewrite lookup_fmap, Hd').
  rewrite round_votes in HV by (by apply informed_sane). destruct (ds !! n) as [d|] eqn:E; [|done]. cbn in HV.
  injection HV as <-. destruct (Hi n d E) as [[Hy Hn] Hv]. pose proof (Ha n d E) as Hb.
  assert (votes_for (negb b) (mVotes d) = 0) as Hz.
  { rewrite Hv. apply votes_for_all. intros m v [_ Hm]%lookup_delete_Some. unfold votes_of in Hm.
    rewrite lookup_fmap in Hm. destruct (ds !! m) as [dm|] eqn:Em; [|done]. cbn in Hm. injection Hm as <-. by apply (Ha m). }
  unfold updateVote. rewrite Hb. destruct b; cbn in *; [rewrite Hn, Hz|rewrite Hy, Hz]; done.
Qed.

(** C6: Proposing nodes that hear each other's votes agree on a disputed transaction
    after two rounds of updates, from any votes they start with, as long as they are at
    the same avalanche threshold in the second; after that no vote changes again,
    whatever the thresholds. *)
Theorem dispute_converges (pt1 pt2 : NodeID → Z) (pts : list (NodeID → Z)) (w : Z) (ds : Network) :
  sane ds → (∀ n, neededWeight (pt2 n) = w) →
  ∃ b, ∀ k, agreed b (foldl (fun ds pt => round pt ds) ds (pt1 :: pt2 :: take k pts)).
Proof.
  intros Hs Hw. cbn [foldl]. pose proof (round_informed pt1 ds Hs) as Hi.
  destruct (round_agrees pt2 w _ Hi Hw) as [b Hb]. exists b. intros k.
  pose proof (round_informed pt2 _ (informed_sane _ Hi)) as Hi2. clear Hi. revert Hi2 Hb.
  generalize (round pt2 (round pt1 ds)), (take k pts). clear. intros ds l. revert ds.
  induction l as [|pt l IH]; intros ds Hi Hb; [done|]. cbn [foldl].
  apply IH; [by apply round_informed, informed_sane|by apply agreed_stays].
Qed.

End Dispute.
Arguments DisputedTx NodeID {_ _} Tx.

Definition voter (b : bool) : DisputedTx N unit := DisputedTx_init tt b.

Lemma dispute_converges_witness :
  ∃ b, ∀ k, agreed b (foldl (fun ds pt => round pt ds)
    ({[1%N := voter true; 2%N := voter false; 3%N := voter true]} : gmap N (DisputedTx N unit))
    ((fun _ => 0) :: (fun _ => 60) :: take k (replicate 9 (fun n => Z.of_N n)))).
Proof.
  apply (dispute_converges _ _ _ 65); [|done]. intros n d Hd.
  repeat (apply lookup_insert_Some in Hd as [[<- <-]|[_ Hd]]; [split; [apply tallied_init|done]|]).
  apply lookup_singleton_Some in Hd as [<- <-]. split; [apply tallied_init|done].
Defined.
