(* ===== verification/Consensus.v ===== *)
(** * The consensus round ([app/ledger/impl/LedgerConsensusImp.cpp])

    The part of [LedgerConsensusImp] that tracks positions: the proposals of the peers
    ([app/ledger/LedgerProposal.h], [app/consensus/RCLCxPos.h]), the transaction sets acquired,
    the disputes between our set and theirs, and the rules that move our own position until
    consensus is declared.  The class is a template over the traits; the types of node, hash,
    transaction and transaction set are parameters here, with the operations of
    [RCLTxSet]/[MutableRCLTxSet] as a type class. *)

From S2P Require Import Prelude LedgerTiming Dispute.
Local Open Scope Z_scope.

(** ** Transaction sets

    The operations of [app/consensus/RCLCxTx.h] and what the consensus code relies on. *)

Class TxSetOps (TxID Tx TxSet Hash : Type) := {
  tx_getID : Tx → TxID;
  getID : TxSet → Hash;
  emptySet : TxSet;
  hasEntry : TxSet → TxID → bool;
  getEntry : TxSet → TxID → option Tx;
  getDifferences : TxSet → TxSet → list (TxID * bool);
  addEntry : Tx → TxSet → TxSet;
  removeEntry : TxID → TxSet → TxSet }.

Class TxSetLaws (TxID Tx TxSet Hash : Type) `{EqDecision TxID} `{!TxSetOps TxID Tx TxSet Hash} := {
  has_get (s : TxSet) k : hasEntry s k = bool_decide (is_Some (getEntry s k));
  get_id (s : TxSet) k tx : getEntry s k = Some tx → tx_getID tx = k;
  differences_sound (s1 s2 : TxSet) k b :
    (k, b) ∈ getDifferences s1 s2 → hasEntry s1 k = b ∧ hasEntry s2 k = negb b;
  has_add (s : TxSet) tx k : hasEntry (addEntry tx s) k = bool_decide (tx_getID tx = k) || hasEntry s k;
  has_remove (s : TxSet) k k' : hasEntry (removeEntry k s) k' = negb (bool_decide (k = k')) && hasEntry s k' }.

(** ** Proposals *)

Definition seqJoin : Z := 0.
Definition seqLeave : Z := 2 ^ 32 - 1.

Record LedgerProposal (NodeID Hash : Type) := mkProposal {
  mPreviousLedger : Hash; mCurrentHash : Hash; mCloseTime : Z; mProposeSeq : Z; mPeerID : NodeID; mTime : Z }.
Arguments mkProposal {_ _}.
Arguments mPreviousLedger {_ _} _.
Arguments mCurrentHash {_ _} _.
Arguments mCloseTime {_ _} _.
Arguments mProposeSeq {_ _} _.
Arguments mPeerID {_ _} _.
Arguments mTime {_ _} _.

Section Proposal.
Context {NodeID Hash : Type}.
Notation Pos := (LedgerProposal NodeID Hash).

Definition isInitial (p : Pos) : bool := mProposeSeq p =? seqJoin.
Definition isBowOut (p : Pos) : bool := mProposeSeq p =? seqLeave.
Definition isStale (lastValid : Z) (p : Pos) : bool := mTime p <? lastValid.

Definition changePosition (newPosition : Hash) (newCloseTime now : Z) (p : Pos) : bool * Pos :=
  if mProposeSeq p =? seqLeave then (false, p)
  else (true, mkProposal (mPreviousLedger p) newPosition newCloseTime (u32 (mProposeSeq p + 1)) (mPeerID p) now).

Definition bowOut (now : Z) (p : Pos) : bool * Pos :=
  if isBowOut p then (false, p)
  else (true, mkProposal (mPreviousLedger p) (mCurrentHash p) (mCloseTime p) seqLeave (mPeerID p) now).
End Proposal.

(** ** Counted close times: [std::map<NetClock::time_point, int>], ordered *)

Fixpoint count_time (t : Z) (l : list (Z * Z)) : list (Z * Z) :=
  match l with
  | [] => [(t, 1)]
  | (u, c) :: l' =>
      if t <? u then (t, 1) :: l else if t =? u then (u, c + 1) :: l' else (u, c) :: count_time t l'
  end.

Section Consensus.
Context {NodeID Hash TxID Tx TxSet : Type}.
Context `{!EqDecision NodeID, !Countable NodeID, !EqDecision Hash, !Countable Hash, !EqDecision TxID, !Countable TxID}.
Context `{!TxSetOps TxID Tx TxSet Hash}.
Notation Pos := (LedgerProposal NodeID Hash).
Notation Dispute := (DisputedTx NodeID Tx).

(** What leaves the object: messages to peers and sets handed to [InboundTransactions]. *)
Inductive Msg :=
| ShareSet (s : TxSet)
| RelayTx (tx : Tx)
| Propose (p : Pos)
| RelayPos (p : Pos)
| StatusChange (inSync closing : bool) (ledger : Hash)  (* [statusChange] *)
| ViewChange                                            (* [NetworkOPs::consensusViewChange] *)
| AcquireLedger (ledger : Hash)                         (* [InboundLedgers::acquire] *)
| AddValidation (ledger : Hash) (signTime : Z) (full : bool)
| BuildLedger (set : TxSet) (closeTime : Z) (closeTimeCorrect : bool)
| OpenLedger (ledger : Hash) (disputed : list Tx)         (* [OpenLedger::accept] *)
| AdjustCloseTime (offset : Z)
| EndConsensus (correctLCL : bool).                      (* [NetworkOPs::endConsensus] *)

(** The state of one round. *)
Record Round := mkRound {
  ourPosition_ : option Pos; ourSet_ : option TxSet;
  peerPositions_ : gmap NodeID Pos; acquired_ : gmap Hash TxSet;
  disputes_ : gmap TxID Dispute; compares_ : gset Hash;
  closeTimes_ : list (Z * Z); deadNodes_ : gset NodeID; sent : list Msg }.

Definition set_our (p : option Pos) (s : option TxSet) (r : Round) : Round :=
  mkRound p s (peerPositions_ r) (acquired_ r) (disputes_ r) (compares_ r) (closeTimes_ r) (deadNodes_ r) (sent r).
Definition set_peers (ps : gmap NodeID Pos) (dead : gset NodeID) (r : Round) : Round :=
  mkRound (ourPosition_ r) (ourSet_ r) ps (acquired_ r) (disputes_ r) (compares_ r) (closeTimes_ r) dead (sent r).
Definition set_acquired (a : gmap Hash TxSet) (r : Round) : Round :=
  mkRound (ourPosition_ r) (ourSet_ r) (peerPositions_ r) a (disputes_ r) (compares_ r) (closeTimes_ r) (deadNodes_ r) (sent r).
Definition set_disputes (d : gmap TxID Dispute) (r : Round) : Round :=
  mkRound (ourPosition_ r) (ourSet_ r) (peerPositions_ r) (acquired_ r) d (compares_ r) (closeTimes_ r) (deadNodes_ r) (sent r).
Definition set_compares (c : gset Hash) (r : Round) : Round :=
  mkRound (ourPosition_ r) (ourSet_ r) (peerPositions_ r) (acquired_ r) (disputes_ r) c (closeTimes_ r) (deadNodes_ r) (sent r).
Definition set_closeTimes (t : list (Z * Z)) (r : Round) : Round :=
  mkRound (ourPosition_ r) (ourSet_ r) (peerPositions_ r) (acquired_ r) (disputes_ r) (compares_ r) t (deadNodes_ r) (sent r).
Definition send (m : Msg) (r : Round) : Round :=
  mkRound (ourPosition_ r) (ourSet_ r) (peerPositions_ r) (acquired_ r) (disputes_ r) (compares_ r) (closeTimes_ r) (deadNodes_ r) (sent r ++ [m]).

Definition empty_round (out : list Msg) : Round := mkRound None None ∅ ∅ ∅ ∅ [] ∅ out.

(** *** Disputes *)

Section Handlers.
(** [HashRouter::shouldRelay] and [InboundTransactions::getSet (hash, true)] at the time of the call. *)
Context (shouldRelay : TxID → bool) (getSet : Hash → option TxSet).

Definition peer_vote (acquired : gmap Hash TxSet) (txID : TxID) (peer : NodeID) (pos : Pos) (d : Dispute) : Dispute :=
  match acquired !! mCurrentHash pos with
  | Some set => setVote peer (hasEntry set txID) d
  | None => d
  end.

Definition addDisputedTransaction (tx : Tx) (r : Round) : Round :=
  let txID := tx_getID tx in
  match disputes_ r !! txID with
  | Some _ => r
  | None =>
      let ourVote := match ourSet_ r with Some s => hasEntry s txID | None => false end in
      let txn := map_fold (peer_vote (acquired_ r) txID) (DisputedTx_init tx ourVote) (peerPositions_ r) in
      let r := if shouldRelay txID then send (RelayTx tx) r else r in
      set_disputes (<[txID := txn]> (disputes_ r)) r
  end.

Fixpoint add_differences (m1 m2 : TxSet) (l : list (TxID * bool)) (r : Round) : res Round :=
  match l with
  | [] => Ok r
  | (id, b) :: l =>
      let e1 := getEntry m1 id in
      let e2 := getEntry m2 id in
      assert_ ((b && bool_decide (is_Some e1) && negb (bool_decide (is_Some e2)))
            || (negb b && negb (bool_decide (is_Some e1)) && bool_decide (is_Some e2)));;
      tx ← deref (if b then e1 else e2);
      add_differences m1 m2 l (addDisputedTransaction tx r)
  end.

Definition createDisputes (m1 m2 : TxSet) (r : Round) : res Round :=
  if decide (getID m1 = getID m2) then Ok r
  else add_differences m1 m2 (getDifferences m1 m2) r.

Definition adjustCount (map : TxSet) (peers : list NodeID) (r : Round) : Round :=
  set_disputes
    (map_imap (fun txID d => Some (foldl (fun d p => setVote p (hasEntry map txID) d) d peers)) (disputes_ r)) r.

Definition proposers (hash : Hash) (r : Round) : list NodeID :=
  omap (fun kp : NodeID * Pos => if decide (mCurrentHash kp.2 = hash) then Some (mPeerID kp.2) else None)
    (map_to_list (peerPositions_ r)).

Definition mapCompleteInternal (map : TxSet) (acquired : bool) (r : Round) : res Round :=
  let hash := getID map in
  match acquired_ r !! hash with
  | Some _ => Ok r
  | None =>
      let r := if acquired then r else send (ShareSet map) r in
      r ← match ourPosition_ r with
          | None => Ok r
          | Some p =>
              if isBowOut p then Ok r
              else if decide (hash = mCurrentHash p) then Ok r
              else
                s ← deref (ourSet_ r);
                r ← createDisputes s map r;
                Ok (set_compares ({[hash]} ∪ compares_ r) r)
          end;
      let peers := proposers hash r in
      let r := if decide (peers = []) then r else adjustCount map peers r in
      Ok (set_acquired (<[hash := map]> (acquired_ r)) r)
  end.

Definition gotMap (map : TxSet) (r : Round) : res Round := mapCompleteInternal map true r.

(** *** Proposals of peers *)

Definition peerPosition (prevLedgerHash : Hash) (newPosition : Pos) (r : Round) : bool * Round :=
  let peerID := mPeerID newPosition in
  if negb (bool_decide (mPreviousLedger newPosition = prevLedgerHash)) then (false, r)
  else if bool_decide (peerID ∈ deadNodes_ r) then (false, r)
  else
    let current := peerPositions_ r !! peerID in
    if match current with Some c => mProposeSeq newPosition <=? mProposeSeq c | None => false end then (false, r)
    else if isBowOut newPosition then
      let r := set_disputes (unVote peerID <$> disputes_ r) r in
      (true, set_peers (delete peerID (peerPositions_ r)) ({[peerID]} ∪ deadNodes_ r) r)
    else
      let r := set_peers (<[peerID := newPosition]> (peerPositions_ r)) (deadNodes_ r) r in
      let r := if isInitial newPosition then set_closeTimes (count_time (mCloseTime newPosition) (closeTimes_ r)) r else r in
      let hash := mCurrentHash newPosition in
      let r :=
        match acquired_ r !! hash with
        | Some _ => r
        | None =>
            match getSet hash with
            | Some s => set_acquired (<[hash := s]> (acquired_ r)) r
            | None => r
            end
        end in
      match acquired_ r !! hash with
      | Some s => (true, set_disputes (map_imap (fun txID d => Some (setVote peerID (hasEntry s txID) d)) (disputes_ r)) r)
      | None => (true, r)
      end.

(** [playbackProposals]: the stored proposals are considered again, and the useful ones relayed. *)
Fixpoint playback (prevLedgerHash : Hash) (proposals : list Pos) (r : Round) : Round :=
  match proposals with
  | [] => r
  | p :: proposals =>
      let '(useful, r) := peerPosition prevLedgerHash p r in
      playback prevLedgerHash proposals (if (useful : bool) then send (RelayPos p) r else r)
  end.

(** *** Our own position *)

(** [leaveConsensus], less the assignment [proposing_ = false] *)
Definition leave (now : Z) (r : Round) : Round :=
  match ourPosition_ r with
  | Some p =>
      if isBowOut p then r
      else let p := (bowOut now p).2 in send (Propose p) (set_our (Some p) (ourSet_ r) r)
  | None => r
  end.

Fixpoint compare_initial (initialSet : TxSet) (hashes : list Hash) (r : Round) : res Round :=
  match hashes with
  | [] => Ok r
  | hash :: hashes =>
      r ← match acquired_ r !! hash with
          | Some s =>
              if decide (hash ∈ compares_ r) then Ok r
              else createDisputes initialSet s (set_compares ({[hash]} ∪ compares_ r) r)
          | None => Ok r
          end;
      compare_initial initialSet hashes r
  end.

Definition takeInitialPosition (initialSet : TxSet) (initialPos : Pos) (proposing : bool) (r : Round) : res Round :=
  assert_ (bool_decide (getID initialSet = mCurrentHash initialPos));;
  let r := set_our (Some initialPos) (Some initialSet) r in
  let r := set_disputes (map_imap (fun txID d => Some (setOurVote (hasEntry initialSet txID) d)) (disputes_ r)) r in
  let r := set_compares ({[getID initialSet]} ∪ compares_ r) r in
  r ← compare_initial initialSet ((fun kp => mCurrentHash kp.2) <$> map_to_list (peerPositions_ r)) r;
  r ← mapCompleteInternal initialSet false r;
  if proposing then p ← deref (ourPosition_ r); Ok (send (Propose p) r) else Ok r.

(** *** Moving towards agreement *)

Definition effectiveCloseTime (closeResolution prevCloseTime : Z) (closeTime : Z) : res Z :=
  if closeTime =? 0 then Ok closeTime
  else t ← roundCloseTime closeTime closeResolution; Ok (Z.max t (u32 (prevCloseTime + 1))).

(** The first loop of [updateOurPositions]: stale proposals go, the others count for a close time. *)
Fixpoint drop_stale (effective : Z → res Z) (peerCutoff : Z) (ps : list (NodeID * Pos)) (r : Round)
    (times : list (Z * Z)) : res (Round * list (Z * Z)) :=
  match ps with
  | [] => Ok (r, times)
  | (k, p) :: ps =>
      if isStale peerCutoff p then
        let r := set_disputes (unVote (mPeerID p) <$> disputes_ r) r in
        drop_stale effective peerCutoff ps (set_peers (delete k (peerPositions_ r)) (deadNodes_ r) r) times
      else t ← effective (mCloseTime p); drop_stale effective peerCutoff ps r (count_time t times)
  end.

(** The second loop: every dispute may change our vote, and with it our set. *)
Fixpoint update_votes (closePercent : Z) (proposing : bool) (ourSet : option TxSet) (ds : list (TxID * Dispute))
    (r : Round) (changed : option TxSet) : res (Round * option TxSet) :=
  match ds with
  | [] => Ok (r, changed)
  | (txID, d) :: ds =>
      let '(change, d') := updateVote closePercent proposing d in
      let r := set_disputes (<[txID := d']> (disputes_ r)) r in
      if (change : bool) then
        s ← match changed with Some s => Ok s | None => deref ourSet end;
        let s := if mOurVote d' then addEntry (transaction d') s else removeEntry txID s in
        update_votes closePercent proposing ourSet ds r (Some s)
      else update_votes closePercent proposing ourSet ds r changed
  end.

(** The third loop: the close time with the most votes, if they are enough. *)
Fixpoint pick_closeTime (threshConsensus : Z) (times : list (Z * Z)) (threshVote closeTime : Z) (have : bool) : Z * bool :=
  match times with
  | [] => (closeTime, have)
  | (t, c) :: times =>
      if threshVote <=? c then pick_closeTime threshConsensus times c t (have || (threshConsensus <=? c))
      else pick_closeTime threshConsensus times threshVote closeTime have
  end.

Definition closeTime_position (effective : Z → res Z) (closePercent : Z) (proposing : bool) (ours : Pos)
    (participants : Z) (times : list (Z * Z)) : res (Z * bool) :=
  if participants =? 0 then t ← effective (mCloseTime ours); Ok (t, true)
  else
    '(times, participants) ←
      (if proposing then t ← effective (mCloseTime ours); Ok (count_time t times, participants + 1)
       else Ok (times, participants));
    let threshVote := participantsNeeded participants (neededWeight closePercent) in
    let threshConsensus := participantsNeeded participants AV_CT_CONSENSUS_PCT in
    Ok (pick_closeTime threshConsensus times threshVote 0 false).

(** [updateOurPositions]; the result includes the new [haveCloseTimeConsensus_]. *)
Definition updateOurPositions (effective : Z → res Z) (now closePercent : Z) (proposing : bool) (r : Round)
    : res (Round * bool) :=
  let ourCutoff := u32 (now - PROPOSE_INTERVAL) in
  let peerCutoff := u32 (now - PROPOSE_FRESHNESS) in
  '(r, times) ← drop_stale effective peerCutoff (map_to_list (peerPositions_ r)) r [];
  '(r, changed) ← update_votes closePercent proposing (ourSet_ r) (map_to_list (disputes_ r)) r None;
  ours ← deref (ourPosition_ r);
  '(closeTime, have) ← closeTime_position effective closePercent proposing ours (Z.of_nat (size (peerPositions_ r))) times;
  ourSet ← match changed with
           | Some s => Ok (Some s)
           | None =>
               if negb (closeTime =? mCloseTime ours) || isStale ourCutoff ours
               then s ← deref (ourSet_ r); Ok (Some s) else Ok None
           end;
  match ourSet with
  | None => Ok (r, have)
  | Some s =>
      let '(changes, p) := changePosition (getID s) closeTime now ours in
      let r := set_our (Some p) (Some s) r in
      if (changes : bool) then
        let r := if proposing then send (Propose p) r else r in
        r ← mapCompleteInternal s false r; Ok (r, have)
      else Ok (r, have)
  end.

(** The loop of [haveConsensus]: it counts, and creates the disputes that are missing. *)
Fixpoint count_positions (ourPosition : Hash) (ps : list (NodeID * Pos)) (agree disagree : Z) (r : Round)
    : res (Z * Z * Round) :=
  match ps with
  | [] => Ok (agree, disagree, r)
  | (_, p) :: ps =>
      if isBowOut p then count_positions ourPosition ps agree disagree r
      else if decide (mCurrentHash p = ourPosition) then count_positions ourPosition ps (agree + 1) disagree r
      else
        let hash := mCurrentHash p in
        r ← (if decide (hash ∈ compares_ r) then Ok r
             else match acquired_ r !! hash, acquired_ r !! ourPosition with
                  | Some s1, Some s2 => createDisputes s2 s1 (set_compares ({[hash]} ∪ compares_ r) r)
                  | _, _ => Ok r
                  end);
        count_positions ourPosition ps agree (disagree + 1) r
  end.

Definition haveConsensus (previousProposers currentValidations previousRoundTime roundTime : Z) (proposing : bool)
    (r : Round) : res (ConsensusState * Round) :=
  ours ← deref (ourPosition_ r);
  '(agree, disagree, r) ← count_positions (mCurrentHash ours) (map_to_list (peerPositions_ r)) 0 0 r;
  Ok (checkConsensus previousProposers (agree + disagree) agree currentValidations previousRoundTime roundTime proposing, r).

End Handlers.
End Consensus.
