(* ===== verification/TxSets.v ===== *)
(** * Sets of numbers as transaction sets

    The smallest instance of the interface of [Consensus.v], for concrete runs: a transaction is a
    number, a set is its own identifier. *)

From S2P Require Import Prelude Consensus.
Local Open Scope Z_scope.

Definition num_differences (s1 s2 : gset N) : list (N * bool) :=
  ((fun t => (t, true)) <$> elements (s1 ∖ s2)) ++ ((fun t => (t, false)) <$> elements (s2 ∖ s1)).

#[export] Instance num_ops : TxSetOps N N (gset N) (gset N) := {
  tx_getID := fun t => t; getID := fun s => s; emptySet := ∅;
  hasEntry := fun s t => bool_decide (t ∈ s); getEntry := fun s t => if decide (t ∈ s) then Some t else None;
  getDifferences := num_differences;
  addEntry := fun t s => {[t]} ∪ s; removeEntry := fun t s => s ∖ {[t]} }.

#[export] Instance num_laws : TxSetLaws N N (gset N) (gset N).
Proof.
  split; cbn.
  - intros s k. case_decide; [by rewrite !bool_decide_true|]. rewrite !bool_decide_false; [done|by intros [? ?]|done].
  - intros s k tx. case_decide; by intros [= ->].
  - unfold num_differences. intros s1 s2 k b [H|H]%elem_of_app; apply list_elem_of_fmap in H as (t&[= -> ->]&Ht%elem_of_elements);
      apply elem_of_difference in Ht as [Hin Hout];
      by rewrite (bool_decide_eq_true_2 _ Hin), (bool_decide_eq_false_2 _ Hout).
  - intros s tx k. destruct (decide (tx = k)), (decide (k ∈ s)); repeat case_bool_decide; set_solver.
  - intros s k k'. destruct (decide (k = k')), (decide (k' ∈ s)); repeat case_bool_decide; set_solver.
Qed.
