(* ===== verification/ConsensusInv.v ===== *)
(** * The invariant of a consensus round

    Every handler of [Consensus.v] keeps the disputes exact tallies of live peers, our votes in
    step with our set, and never fails an assertion. *)

From S2P Require Import Prelude LedgerTiming Dispute Consensus.
Local Open Scope Z_scope.

Section Invariant.
Context {NodeID Hash TxID Tx TxSet : Type}.
Context `{!EqDecision NodeID, !Countable NodeID, !EqDecision Hash, !Countable Hash, !EqDecision TxID, !Countable TxID}.
Context `{!TxSetOps TxID Tx TxSet Hash, !TxSetLaws TxID Tx TxSet Hash}.
Notation Pos := (LedgerProposal NodeID Hash).
Notation Dispute := (DisputedTx NodeID Tx).
Notation Round := (@Round NodeID Hash TxID Tx TxSet _ _ _ _ _ _).
Notation Peers := (gmap NodeID Pos).
Implicit Types (r : Round) (d : Dispute) (t : TxID) (s : TxSet) (p : Pos) (k : NodeID).
Context (shouldRelay : TxID → bool).

(** ** The invariant *)

Definition in_set (os : option TxSet) (t : TxID) : bool :=
  match os with Some s => hasEntry s t | None => false end.

(** A dispute is filed under its transaction, its counters tally votes of current proposers, and
    our vote says whether the transaction is in our set. *)
Definition dispute_ok (os : option TxSet) (ps : Peers) (t : TxID) (d : Dispute) : Prop :=
  tx_getID (transaction d) = t ∧ tallied d ∧ (∀ k, is_Some (mVotes d !! k) → is_Some (ps !! k))
  ∧ mOurVote d = in_set os t.

Definition peer_ok (prev : Hash) (dead : gset NodeID) (k : NodeID) (p : Pos) : Prop :=
  mPeerID p = k ∧ mPreviousLedger p = prev ∧ isBowOut p = false ∧ k ∉ dead.

Definition our_ok (op : option Pos) (os : option TxSet) : Prop :=
  match op, os with
  | None, None => True
  | Some p, Some s => isBowOut p = false → getID s = mCurrentHash p
  | _, _ => False
  end.

Record round_ok (prev : Hash) (r : Round) : Prop := {
  ok_peers : ∀ k p, peerPositions_ r !! k = Some p → peer_ok prev (deadNodes_ r) k p;
  ok_acquired : ∀ h s, acquired_ r !! h = Some s → getID s = h;
  ok_disputes : ∀ t d, disputes_ r !! t = Some d → dispute_ok (ourSet_ r) (peerPositions_ r) t d;
  ok_our : our_ok (ourPosition_ r) (ourSet_ r) }.

(** The vote of every proposer whose set we have is recorded, and is what its set says. *)
Definition vote_exact (ps : Peers) (acq : gmap Hash TxSet) (t : TxID) (d : Dispute) : Prop :=
  ∀ k p s, ps !! k = Some p → acq !! mCurrentHash p = Some s → mVotes d !! k = Some (hasEntry s t).

Definition votes_exact (r : Round) : Prop :=
  ∀ t d, disputes_ r !! t = Some d → vote_exact (peerPositions_ r) (acquired_ r) t d.

(** What creating disputes leaves alone. *)
Definition frame (r r' : Round) : Prop :=
  ourPosition_ r' = ourPosition_ r ∧ ourSet_ r' = ourSet_ r ∧ peerPositions_ r' = peerPositions_ r
  ∧ acquired_ r' = acquired_ r ∧ deadNodes_ r' = deadNodes_ r ∧ closeTimes_ r' = closeTimes_ r
  ∧ compares_ r' = compares_ r.

#[local] Instance frame_preorder : PreOrder frame.
Proof. split; [done|]. unfold frame. intros r1 r2 r3 H1 H2. intuition congruence. Qed.

(** ** Sequences of votes *)

Lemma fold_votes acq t d ps :
  let d' := map_fold (peer_vote acq t) d ps in
  (tallied d → tallied d') ∧ mOurVote d' = mOurVote d ∧ transaction d' = transaction d ∧
  ∀ k, mVotes d' !! k = match ps !! k ≫= fun p => acq !! mCurrentHash p with
                        | Some s => Some (hasEntry s t) | None => mVotes d !! k end.
Proof.
  apply (map_fold_weak_ind (fun d' ps => (tallied d → tallied d') ∧ mOurVote d' = mOurVote d
    ∧ transaction d' = transaction d ∧ ∀ k, mVotes d' !! k = match ps !! k ≫= fun p => acq !! mCurrentHash p with
      | Some s => Some (hasEntry s t) | None => mVotes d !! k end)).
  { split_and!; try done. }
  intros i p m r Hi (Ht&Ho&Htx&Hv). unfold peer_vote. destruct (acq !! mCurrentHash p) as [s|] eqn:E.
  - destruct (setVote_frame i (hasEntry s t) r) as [-> ->]. split_and!; [auto using tallied_setVote|done..|].
    intros k. rewrite setVote_votes. destruct (decide (k = i)) as [->|Hne].
    + rewrite !lookup_insert_eq. cbn. by rewrite E.
    + by rewrite !lookup_insert_ne, Hv.
  - split_and!; try done. intros k. rewrite Hv. destruct (decide (k = i)) as [->|Hne].
    + rewrite lookup_insert_eq, Hi. cbn. by rewrite E.
    + by rewrite lookup_insert_ne.
Qed.

Lemma foldl_votes (b : bool) (peers : list NodeID) : ∀ d,
  let d' := foldl (fun d (q : NodeID) => setVote q b d) d peers in
  (tallied d → tallied d') ∧ mOurVote d' = mOurVote d ∧ transaction d' = transaction d ∧
  ∀ k, mVotes d' !! k = if decide (k ∈ peers) then Some b else mVotes d !! k.
Proof.
  induction peers as [|p peers IH]; intros d; cbn [foldl]; [done|].
  destruct (IH (setVote p b d)) as (Ht&Ho&Htx&Hv). destruct (setVote_frame p b d) as [Ho' Htx'].
  split_and!; [auto using tallied_setVote|congruence..|]. intros k. rewrite Hv, setVote_votes.
  destruct (decide (k = p)) as [->|Hne].
  - rewrite lookup_insert_eq, (decide_True (P := p ∈ p :: peers)) by (by left). by case_decide.
  - rewrite lookup_insert_ne by done. destruct (decide (k ∈ peers)) as [Hin|Hin].
    + by rewrite decide_True by (by right).
    + rewrite decide_False; [done|]. by intros [?|?]%elem_of_cons.
Qed.

(** ** Creating disputes *)

(** Disputes are only added, and the new ones satisfy the invariants. *)
Definition extends (r r' : Round) : Prop :=
  frame r r' ∧ (∀ t, is_Some (disputes_ r !! t) → disputes_ r' !! t = disputes_ r !! t)
  ∧ ∀ t d, disputes_ r' !! t = Some d → disputes_ r !! t = Some d
      ∨ dispute_ok (ourSet_ r) (peerPositions_ r) t d ∧ vote_exact (peerPositions_ r) (acquired_ r) t d.

Lemma extends_refl r : extends r r.
Proof. repeat split; auto. Qed.

Lemma extends_trans r1 r2 r3 : extends r1 r2 → extends r2 r3 → extends r1 r3.
Proof.
  intros (F1&K1&D1) (F2&K2&D2). split; [by etrans|]. split.
  - intros t Ht. rewrite <-(K1 t Ht). apply K2. by rewrite (K1 t Ht).
  - intros t d Hd. destruct F1 as (_&Hs&Hp&Ha&_). destruct (D2 t d Hd) as [Hd2|Hd2]; [by apply D1|].
    right. by rewrite <-Hs, <-Hp, <-Ha.
Qed.

Lemma addDisputedTransaction_extends tx r :
  extends r (addDisputedTransaction shouldRelay tx r)
  ∧ is_Some (disputes_ (addDisputedTransaction shouldRelay tx r) !! tx_getID tx).
Proof.
  unfold addDisputedTransaction. destruct (disputes_ r !! tx_getID tx) as [d0|] eqn:E.
  { split; [apply extends_refl|]. by rewrite E. }
  change (match ourSet_ r with Some s => hasEntry s (tx_getID tx) | None => false end)
    with (in_set (ourSet_ r) (tx_getID tx)).
  set (d := map_fold _ _ _). set (r1 := if shouldRelay _ then _ else r).
  assert (frame r r1 ∧ disputes_ r1 = disputes_ r) as [F Hd1] by (by unfold r1; case_match).
  assert (dispute_ok (ourSet_ r) (peerPositions_ r) (tx_getID tx) d
    ∧ vote_exact (peerPositions_ r) (acquired_ r) (tx_getID tx) d) as Hnew.
  { destruct (fold_votes (acquired_ r) (tx_getID tx) (DisputedTx_init tx (in_set (ourSet_ r) (tx_getID tx)))
      (peerPositions_ r)) as (Ht&Ho&Htx&Hv). fold d in Ht, Ho, Htx, Hv |- *. split.
    - split_and!; [by rewrite Htx|apply Ht, tallied_init..| |done].
      intros k. rewrite Hv. destruct (peerPositions_ r !! k); [done|]. cbn. by rewrite lookup_empty.
    - intros k p s Hp Hs. rewrite Hv, Hp. cbn. by rewrite Hs. }
  split; [split; [done|split]|]; cbn [disputes_ set_disputes]; rewrite ?Hd1.
  - intros t Ht. rewrite lookup_insert_ne; [done|]. intros <-. rewrite E in Ht. by destruct Ht.
  - intros t d' [[<- <-]|[_ Hd']]%lookup_insert_Some; auto.
  - rewrite lookup_insert_eq. by eexists.
Qed.

Lemma add_differences_ok (m1 m2 : TxSet) (l : list (TxID * bool)) : ∀ r,
  (∀ t b, (t, b) ∈ l → hasEntry m1 t = b ∧ hasEntry m2 t = negb b) →
  ∃ r', add_differences shouldRelay m1 m2 l r = Ok r' ∧ extends r r'
    ∧ ∀ t b, (t, b) ∈ l → is_Some (disputes_ r' !! t).
Proof.
  induction l as [|[t b] l IH]; intros r Hl; cbn [add_differences].
  { exists r. split; [done|]. split; [apply extends_refl|]. by intros ? ? ?%elem_of_nil. }
  destruct (Hl t b) as [H1 H2]; [by left|]. rewrite has_get in H1, H2. rewrite H1, H2.
  rewrite (proj2 (assert_ok _ tt)) by (by destruct b). cbn [mbind res_bind].
  assert (∃ tx, (if b then getEntry m1 t else getEntry m2 t) = Some tx ∧ tx_getID tx = t) as (tx&Htx&Hid).
  { destruct b; [apply bool_decide_eq_true in H1 as [tx Htx]|apply bool_decide_eq_true in H2 as [tx Htx]];
      exists tx; eauto using get_id. }
  rewrite Htx. cbn [deref]. destruct (addDisputedTransaction_extends tx r) as [He Hin].
  destruct (IH (addDisputedTransaction shouldRelay tx r)) as (r'&Hr'&He'&Hl').
  { intros t' b' Ht'. apply Hl. by right. }
  exists r'. split; [done|]. split; [by eapply extends_trans|]. intros t' b' [[= -> ->]|Ht']%elem_of_cons; [|eauto].
  rewrite Hid in Hin. destruct He' as (_&K&_). by rewrite K.
Qed.

Lemma createDisputes_ok m1 m2 r :
  ∃ r', createDisputes shouldRelay m1 m2 r = Ok r' ∧ extends r r'
    ∧ (getID m1 ≠ getID m2 → ∀ t b, (t, b) ∈ getDifferences m1 m2 → is_Some (disputes_ r' !! t)).
Proof.
  unfold createDisputes. case_decide as E; [exists r; repeat split; auto; done|].
  destruct (add_differences_ok m1 m2 (getDifferences m1 m2) r) as (r'&Hr&He&Hd); [apply differences_sound|].
  exists r'. eauto.
Qed.

Lemma extends_ok prev r r' : extends r r' → round_ok prev r → round_ok prev r'.
Proof.
  intros ((Hp&Hs&Hpp&Ha&Hdn&_)&_&D) [P A Di O]. split; rewrite ?Hp, ?Hs, ?Hpp, ?Ha, ?Hdn; [done..| |done].
  intros t d Hd. destruct (D t d Hd) as [?|[? _]]; auto.
Qed.

Lemma extends_exact r r' : extends r r' → votes_exact r → votes_exact r'.
Proof.
  intros ((_&_&Hpp&Ha&_)&_&D) Hx t d Hd. rewrite Hpp, Ha. destruct (D t d Hd) as [?|[_ ?]]; auto.
Qed.

(** ** Completed sets *)

Lemma proposers_spec prev h r k : round_ok prev r →
  k ∈ proposers h r ↔ ∃ p, peerPositions_ r !! k = Some p ∧ mCurrentHash p = h.
Proof.
  intros Hr. unfold proposers. rewrite list_elem_of_omap. split.
  - intros ([k' p]&Hin%elem_of_map_to_list&Hk). cbn in Hk. case_decide as Hh; [|done]. injection Hk as <-.
    destruct (ok_peers _ _ Hr k' p Hin) as [-> _]. eauto.
  - intros (p&Hp&Hh). exists (k, p). split; [by apply elem_of_map_to_list|]. cbn. rewrite decide_True by done.
    by destruct (ok_peers _ _ Hr k p Hp) as [-> _].
Qed.

Lemma imap_disputes_inv (f : TxID → Dispute → Dispute) (m : gmap TxID Dispute) t d' :
  map_imap (fun t d => Some (f t d)) m !! t = Some d' → ∃ d, m !! t = Some d ∧ d' = f t d.
Proof. rewrite map_lookup_imap. intros (d&Hd&[= <-])%bind_Some. eauto. Qed.

Lemma imap_disputes_dom (f : TxID → Dispute → Dispute) (m : gmap TxID Dispute) t :
  is_Some (m !! t) → is_Some (map_imap (fun t d => Some (f t d)) m !! t).
Proof. intros [d Hd]. rewrite map_lookup_imap, Hd. by eexists. Qed.

(** The votes of a list of current proposers of the set [s]. *)
Lemma adjusted_ok os ps t d s (peers : list NodeID) :
  dispute_ok os ps t d → (∀ k, k ∈ peers → is_Some (ps !! k)) →
  dispute_ok os ps t (foldl (fun d q => setVote q (hasEntry s t) d) d peers).
Proof.
  intros (Hid&Ht&Hv&Ho) Hp. destruct (foldl_votes (hasEntry s t) peers d) as (Ht'&Ho'&Htx'&Hv').
  unfold dispute_ok. rewrite Htx', Ho'. split_and!; auto. intros k. rewrite Hv'. case_decide; auto.
Qed.

(** Storing a set and counting the votes of its proposers. *)
Definition acquire_set (map : TxSet) (r : Round) : Round :=
  let peers := proposers (getID map) r in
  let r := if decide (peers = []) then r else adjustCount map peers r in
  set_acquired (<[getID map := map]> (acquired_ r)) r.

Lemma acquire_set_disputes map r t d' : disputes_ (acquire_set map r) !! t = Some d' →
  ∃ d, disputes_ r !! t = Some d
    ∧ d' = foldl (fun d q => setVote q (hasEntry map t) d) d (proposers (getID map) r).
Proof.
  unfold acquire_set. case_decide as E; cbn; [|by intros ?%imap_disputes_inv].
  intros Hd. exists d'. by rewrite E.
Qed.

Lemma acquire_set_frame map r :
  ourPosition_ (acquire_set map r) = ourPosition_ r ∧ ourSet_ (acquire_set map r) = ourSet_ r
  ∧ peerPositions_ (acquire_set map r) = peerPositions_ r ∧ deadNodes_ (acquire_set map r) = deadNodes_ r
  ∧ acquired_ (acquire_set map r) = <[getID map := map]> (acquired_ r) ∧ compares_ (acquire_set map r) = compares_ r
  ∧ ∀ t, is_Some (disputes_ r !! t) → is_Some (disputes_ (acquire_set map r) !! t).
Proof. unfold acquire_set. case_decide; cbn; split_and!; auto using imap_disputes_dom. Qed.

Lemma acquire_set_ok prev map r : round_ok prev r → round_ok prev (acquire_set map r).
Proof.
  intros Hr. destruct (acquire_set_frame map r) as (Hp&Hs&Hpp&Hdn&Ha&_). pose proof Hr as [P A Di O].
  split; rewrite ?Hp, ?Hs, ?Hpp, ?Hdn, ?Ha; [done| | |done].
  - by intros h s [[<- <-]|[_ ?]]%lookup_insert_Some; [|apply A].
  - intros t d' (d&Hd&->)%acquire_set_disputes. apply adjusted_ok; [by apply Di|].
    intros k (p&Hk&_)%(proposers_spec prev); [by eexists|done].
Qed.

Lemma acquire_set_exact prev map r : round_ok prev r → votes_exact r → votes_exact (acquire_set map r).
Proof.
  intros Hr Hx t d' Hd' k p s. destruct (acquire_set_frame map r) as (_&_&->&_&->&_).
  destruct (acquire_set_disputes _ _ _ _ Hd') as (d&Hd&->). intros Hp Hs.
  destruct (foldl_votes (hasEntry map t) (proposers (getID map) r) d) as (_&_&_&->).
  apply lookup_insert_Some in Hs as [[Hh <-]|[Hh Hs]].
  - rewrite decide_True; [done|]. apply (proposers_spec prev); eauto.
  - rewrite decide_False; [by apply (Hx t d Hd k p)|]. intros (p'&Hp'&Hh')%(proposers_spec prev); [|done]. congruence.
Qed.

(** What [mapCompleteInternal] leaves alone. *)
Definition same_base (r r' : Round) : Prop :=
  ourPosition_ r' = ourPosition_ r ∧ ourSet_ r' = ourSet_ r ∧ peerPositions_ r' = peerPositions_ r
  ∧ deadNodes_ r' = deadNodes_ r.

Lemma compares_ok prev c r : round_ok prev r → round_ok prev (set_compares c r).
Proof. by intros [P A D O]. Qed.

Lemma send_ok prev m r : round_ok prev r → round_ok prev (send m r).
Proof. by intros [P A D O]. Qed.

Lemma mapCompleteInternal_ok prev map acquired r : round_ok prev r →
  ∃ r', mapCompleteInternal shouldRelay map acquired r = Ok r' ∧ round_ok prev r' ∧ same_base r r'
    ∧ (votes_exact r → votes_exact r') ∧ is_Some (acquired_ r' !! getID map).
Proof.
  intros Hr. unfold mapCompleteInternal. destruct (acquired_ r !! getID map) as [s0|] eqn:E.
  { exists r. split_and!; try done. }
  set (r0 := if acquired then r else send (ShareSet map) r).
  assert (round_ok prev r0 ∧ same_base r r0 ∧ (votes_exact r → votes_exact r0)) as (H0&B0&X0)
    by (unfold r0; destruct acquired; split_and!; auto using send_ok; done).
  assert (∃ r1, (match ourPosition_ r0 with None => Ok r0 | Some p =>
      if isBowOut p then Ok r0 else if decide (getID map = mCurrentHash p) then Ok r0 else
      s ← deref (ourSet_ r0); r2 ← createDisputes shouldRelay s map r0;
      Ok (set_compares ({[getID map]} ∪ compares_ r2) r2) end) = Ok r1
    ∧ round_ok prev r1 ∧ same_base r r1 ∧ (votes_exact r → votes_exact r1)) as (r1&->&H1&B1&X1).
  { destruct (ourPosition_ r0) as [p|] eqn:Ep; [|by eauto]. case_match; [by eauto|]. case_decide; [by eauto|].
    pose proof (ok_our _ _ H0) as Ho. rewrite Ep in Ho. destruct (ourSet_ r0) as [s|]; [|done]. cbn [deref mbind res_bind].
    destruct (createDisputes_ok s map r0) as (r2&->&He&_). cbn [mbind res_bind]. eexists. split; [done|].
    pose proof He as ((Hp&Hs&Hpp&_&Hdn&_)&_). destruct B0 as (B1&B2&B3&B4).
    split_and!; [by apply compares_ok, (extends_ok prev r0)|unfold same_base; cbn; split_and!; congruence|].
    intros Hx. apply X0 in Hx. by apply (extends_exact r0 r2 He) in Hx. }
  cbn [mbind res_bind]. fold (acquire_set map r1). exists (acquire_set map r1). split; [done|].
  destruct (acquire_set_frame map r1) as (Hp&Hs&Hpp&Hdn&Ha&_). destruct B1 as (B1&B2&B3&B4).
  split_and!; [by apply acquire_set_ok|unfold same_base; split_and!; congruence| |].
  - intros Hx. apply (acquire_set_exact prev); auto.
  - rewrite Ha, lookup_insert_eq. by eexists.
Qed.

(** ** Peers that leave *)

Lemma dropped_ok prev k dead r : (∀ q, q ∉ deadNodes_ r → q ≠ k → q ∉ dead) → round_ok prev r →
  round_ok prev (set_peers (delete k (peerPositions_ r)) dead (set_disputes (unVote k <$> disputes_ r) r)).
Proof.
  intros Hdead [P A D O]. split; cbn; [|done| |done].
  - intros q p [Hne Hq]%lookup_delete_Some. destruct (P q p Hq) as (?&?&?&?). split_and!; auto.
  - intros t d' Hd'. rewrite lookup_fmap in Hd'. destruct (disputes_ r !! t) as [d|] eqn:E; [|done]. injection Hd' as <-.
    destruct (D t d E) as (?&?&Hv&?). destruct (unVote_frame k d) as [Ho Htx]. unfold dispute_ok. rewrite Ho, Htx.
    split_and!; auto using tallied_unVote. intros q. rewrite unVote_votes. intros [b [Hne Hq]%lookup_delete_Some].
    rewrite lookup_delete_ne by done. apply Hv. by eexists.
Qed.

Lemma dropped_exact k dead r : votes_exact r →
  votes_exact (set_peers (delete k (peerPositions_ r)) dead (set_disputes (unVote k <$> disputes_ r) r)).
Proof.
  intros Hx t d' Hd' q p s Hq Hs. cbn in *. apply lookup_delete_Some in Hq as [Hne Hq].
  rewrite lookup_fmap in Hd'. destruct (disputes_ r !! t) as [d|] eqn:E; [|done]. injection Hd' as <-.
  rewrite unVote_votes, lookup_delete_ne by done. by apply (Hx t d E q p).
Qed.

(** ** Proposals *)

Section Peers.
Context (getSet : Hash → option TxSet).

(** [InboundTransactions::getSet] returns the set that was asked for. *)
Definition answers : Prop := ∀ h s, getSet h = Some s → getID s = h.

Definition voted (peer : NodeID) (s : TxSet) (ds : gmap TxID Dispute) : gmap TxID Dispute :=
  map_imap (fun t d => Some (setVote peer (hasEntry s t) d)) ds.

(** The proposal is stored, counted for its close time, and its set is looked up. *)
Definition stored (p : Pos) (r : Round) : Round :=
  let r := set_peers (<[mPeerID p := p]> (peerPositions_ r)) (deadNodes_ r) r in
  let r := if isInitial p then set_closeTimes (count_time (mCloseTime p) (closeTimes_ r)) r else r in
  match acquired_ r !! mCurrentHash p with
  | Some _ => r
  | None => match getSet (mCurrentHash p) with
            | Some s => set_acquired (<[mCurrentHash p := s]> (acquired_ r)) r
            | None => r end
  end.

Definition accepts (prev : Hash) (p : Pos) (r : Round) : Prop :=
  mPreviousLedger p = prev ∧ mPeerID p ∉ deadNodes_ r
  ∧ ∀ c, peerPositions_ r !! mPeerID p = Some c → mProposeSeq c < mProposeSeq p.

Lemma peerPosition_cases prev p r :
  (¬ accepts prev p r ∧ peerPosition getSet prev p r = (false, r))
  ∨ (accepts prev p r ∧ isBowOut p = true ∧ peerPosition getSet prev p r =
      (true, set_peers (delete (mPeerID p) (peerPositions_ r)) ({[mPeerID p]} ∪ deadNodes_ r)
               (set_disputes (unVote (mPeerID p) <$> disputes_ r) r)))
  ∨ (accepts prev p r ∧ isBowOut p = false ∧ peerPosition getSet prev p r =
      (true, let r1 := stored p r in
             match acquired_ r1 !! mCurrentHash p with
             | Some s => set_disputes (voted (mPeerID p) s (disputes_ r1)) r1
             | None => r1 end)).
Proof.
  unfold peerPosition, accepts. case_bool_decide as E1; cbn [negb]; [|naive_solver].
  case_bool_decide as E2; [naive_solver|].
  destruct (peerPositions_ r !! mPeerID p) as [c|] eqn:Ec.
  - destruct (Z.leb_spec (mProposeSeq p) (mProposeSeq c)) as [Hle|Hlt].
    { left. split; [|done]. intros (_&_&Hc). specialize (Hc c eq_refl). lia. }
    right. destruct (isBowOut p) eqn:Eb; [left|right]; (split; [|split; [done|]]).
    1,3: split_and!; auto; intros ? [= <-]; lia. 1: done.
    fold (stored p r). unfold voted. cbv zeta. by case_match.
  - right. destruct (isBowOut p) eqn:Eb; [left|right]; (split; [|split; [done|]]).
    1,3: by split_and!. 1: done.
    fold (stored p r). unfold voted. cbv zeta. by case_match.
Qed.

Lemma stored_frame p r :
  let r' := stored p r in
  ourPosition_ r' = ourPosition_ r ∧ ourSet_ r' = ourSet_ r ∧ disputes_ r' = disputes_ r
  ∧ peerPositions_ r' = <[mPeerID p := p]> (peerPositions_ r) ∧ deadNodes_ r' = deadNodes_ r
  ∧ compares_ r' = compares_ r
  ∧ (∀ h s, acquired_ r' !! h = Some s → acquired_ r !! h = Some s
      ∨ (acquired_ r !! h = None ∧ h = mCurrentHash p ∧ getSet h = Some s)).
Proof.
  unfold stored. destruct (isInitial p); cbn; (destruct (acquired_ r !! mCurrentHash p) eqn:Ea; cbn;
    [split_and!; auto|destruct (getSet (mCurrentHash p)) eqn:Eg; cbn; split_and!; auto]);
    intros h s [[<- <-]|[? ?]]%lookup_insert_Some; auto.
Qed.

Lemma stored_ok prev p r : answers → accepts prev p r → isBowOut p = false → round_ok prev r → round_ok prev (stored p r).
Proof.
  intros Hans (Hprev&Hdead&_) Hb [P A D O]. destruct (stored_frame p r) as (Hp&Hs&Hd&Hpp&Hdn&_&Ha).
  split; rewrite ?Hp, ?Hs, ?Hd, ?Hpp, ?Hdn; [| | |done].
  - by intros k q [[<- <-]|[_ ?]]%lookup_insert_Some; [|apply P].
  - intros h s [?|(_&_&?)]%Ha; auto.
  - intros t d Hdt. destruct (D t d Hdt) as (?&?&Hv&?). split_and!; auto. intros k [p' Hk]%Hv.
    destruct (decide (k = mPeerID p)) as [->|Hne]; [rewrite lookup_insert_eq|rewrite lookup_insert_ne by done]; by eexists.
Qed.

Lemma voted_ok prev peer s r : round_ok prev r → is_Some (peerPositions_ r !! peer) →
  round_ok prev (set_disputes (voted peer s (disputes_ r)) r).
Proof.
  intros [P A D O] Hpeer. split; [done..| |done]. cbn. intros t d' (d&Hd&->)%imap_disputes_inv.
  apply (adjusted_ok _ _ _ _ s [peer]); [by apply D|]. by intros k ->%list_elem_of_singleton.
Qed.

Lemma peerPosition_ok prev p r : answers → round_ok prev r → round_ok prev (peerPosition getSet prev p r).2.
Proof.
  intros Hans Hr. destruct (peerPosition_cases prev p r) as [(_&->)|[(Ha&Hb&->)|(Ha&Hb&->)]]; cbn [snd]; [done| |].
  - apply dropped_ok; [set_solver|done].
  - pose proof (stored_ok prev p r Hans Ha Hb Hr) as H1. cbv zeta.
    destruct (acquired_ (stored p r) !! mCurrentHash p) as [s|]; [|done]. apply voted_ok; [done|].
    destruct (stored_frame p r) as (_&_&_&->&_). rewrite lookup_insert_eq. by eexists.
Qed.

(** The set of the new proposal is only taken from [InboundTransactions] when no other peer
    already proposes it: it has then been delivered by [gotMap] before. *)
Definition quiet (p : Pos) (r : Round) : Prop :=
  acquired_ r !! mCurrentHash p = None → is_Some (getSet (mCurrentHash p)) →
  ∀ k q, peerPositions_ r !! k = Some q → mCurrentHash q = mCurrentHash p → k = mPeerID p.

Lemma peerPosition_exact prev p r : quiet p r → votes_exact r → votes_exact (peerPosition getSet prev p r).2.
Proof.
  intros Hq Hx. destruct (peerPosition_cases prev p r) as [(_&->)|[(Ha&Hb&->)|(Ha&Hb&->)]]; cbn [snd]; [done| |].
  - by apply dropped_exact.
  - cbv zeta. destruct (stored_frame p r) as (_&_&Hd&Hpp&_&_&Hacq).
    assert (∀ t d k q s, disputes_ r !! t = Some d → k ≠ mPeerID p → peerPositions_ r !! k = Some q →
      acquired_ (stored p r) !! mCurrentHash q = Some s → mVotes d !! k = Some (hasEntry s t)) as Hold.
    { intros t d k q s Hdt Hne Hk [Hs|(Hn&Hh&Hg)]%Hacq; [by apply (Hx t d Hdt k q)|].
      destruct Hne. apply (Hq ltac:(congruence)) with q; [rewrite <-Hh, Hg; by eexists|done..]. }
    destruct (acquired_ (stored p r) !! mCurrentHash p) as [s1|] eqn:E; intros t d' Hd' k q s; cbn in *; rewrite Hpp.
    + rewrite Hd in Hd'. apply imap_disputes_inv in Hd' as (d&Hdt&->). rewrite setVote_votes.
      intros [[<- <-]|[Hne Hk]]%lookup_insert_Some Hs.
      * rewrite lookup_insert_eq. congruence.
      * rewrite lookup_insert_ne by done. by eapply Hold.
    + rewrite Hd in Hd'. intros [[<- <-]|[Hne Hk]]%lookup_insert_Some Hs; [congruence|]. by eapply Hold.
Qed.

Lemma playback_ok prev (l : list Pos) : answers → ∀ r, round_ok prev r → round_ok prev (playback getSet prev l r).
Proof.
  intros Hans. induction l as [|p l IH]; intros r Hr; cbn [playback]; [done|].
  pose proof (peerPosition_ok prev p r Hans Hr) as H1. destruct (peerPosition getSet prev p r) as [u r1].
  apply IH. destruct u; [by apply send_ok|done].
Qed.
End Peers.

(** ** Our position *)

Lemma leave_ok prev now r : round_ok prev r →
  round_ok prev (leave now r) ∧ same_base (set_our (ourPosition_ (leave now r)) (ourSet_ r) r) (leave now r)
  ∧ disputes_ (leave now r) = disputes_ r ∧ acquired_ (leave now r) = acquired_ r.
Proof.
  intros Hr. unfold leave. destruct (ourPosition_ r) as [p|] eqn:Ep.
  - destruct (isBowOut p) eqn:Eb; [split_and!; done|]. unfold bowOut. rewrite Eb. cbn [snd].
    split_and!; [|done..]. apply send_ok. destruct Hr as [P A D O]. split; [done..|]. cbn. rewrite Ep in O.
    by destruct (ourSet_ r).
  - split_and!; done.
Qed.

(** Progress of a loop that only creates disputes. *)
Definition grows (prev : Hash) (r r' : Round) : Prop :=
  round_ok prev r' ∧ same_base r r' ∧ acquired_ r' = acquired_ r ∧ (votes_exact r → votes_exact r').

Lemma grows_refl prev r : round_ok prev r → grows prev r r.
Proof. done. Qed.

Lemma grows_trans prev r1 r2 r3 : grows prev r1 r2 → grows prev r2 r3 → grows prev r1 r3.
Proof.
  intros (Hr1&(?&?&?&?)&?&X1) (Hr2&(?&?&?&?)&?&X2). split_and!; [done|unfold same_base; split_and!; congruence|congruence|auto].
Qed.

Lemma createDisputes_grows prev c m1 m2 r : round_ok prev r →
  ∃ r', createDisputes shouldRelay m1 m2 (set_compares c r) = Ok r' ∧ grows prev r r'.
Proof.
  intros Hr. destruct (createDisputes_ok m1 m2 (set_compares c r)) as (r'&->&He&_). exists r'. split; [done|].
  pose proof He as ((?&?&?&?&?&_)&_). split_and!; [by apply (extends_ok prev (set_compares c r)), compares_ok|done|done|].
  intros Hx. by apply (extends_exact _ _ He).
Qed.

Lemma compare_initial_ok prev initialSet (hashes : list Hash) : ∀ r, round_ok prev r →
  ∃ r', compare_initial shouldRelay initialSet hashes r = Ok r' ∧ grows prev r r'.
Proof.
  induction hashes as [|h hashes IH]; intros r Hr; cbn [compare_initial]; [eauto using grows_refl|].
  assert (∃ r1, match acquired_ r !! h with Some s => if decide (h ∈ compares_ r) then Ok r
      else createDisputes shouldRelay initialSet s (set_compares ({[h]} ∪ compares_ r) r) | None => Ok r end = Ok r1
    ∧ grows prev r r1) as (r1&->&G1).
  { destruct (acquired_ r !! h) as [s|]; [|eauto using grows_refl]. case_decide; [eauto using grows_refl|].
    by apply createDisputes_grows. }
  cbn [mbind res_bind]. destruct (IH r1) as (r'&->&G2); [by apply G1|]. eauto using grows_trans.
Qed.

Lemma takeInitialPosition_ok prev initialSet initialPos proposing r :
  round_ok prev r → getID initialSet = mCurrentHash initialPos →
  ∃ r', takeInitialPosition shouldRelay initialSet initialPos proposing r = Ok r' ∧ round_ok prev r'
    ∧ ourPosition_ r' = Some initialPos ∧ ourSet_ r' = Some initialSet ∧ peerPositions_ r' = peerPositions_ r
    ∧ deadNodes_ r' = deadNodes_ r ∧ (votes_exact r → votes_exact r').
Proof.
  intros Hr Hid. unfold takeInitialPosition. rewrite bool_decide_true by done. cbn [assert_ mbind res_bind].
  set (r1 := set_compares _ _).
  assert (round_ok prev r1) as H1.
  { destruct Hr as [P A D O]. split; [done..| |by intros _]. cbn. intros t d' (d&Hd&->)%imap_disputes_inv.
    destruct (D t d Hd) as (?&?&?&?). by split_and!. }
  assert (votes_exact r → votes_exact r1) as X1.
  { intros Hx t d' (d&Hd&->)%imap_disputes_inv. exact (Hx t d Hd). }
  destruct (compare_initial_ok prev initialSet ((fun kp => mCurrentHash kp.2) <$> map_to_list (peerPositions_ r1)) r1 H1)
    as (r2&Hr2&H2&(Bp2&Bs2&Bpp2&Bd2)&_&X2). rewrite Hr2. cbn [mbind res_bind].
  destruct (mapCompleteInternal_ok prev initialSet false r2 H2) as (r3&->&H3&(Bp3&Bs3&Bpp3&Bd3)&X3&_). cbn [mbind res_bind].
  assert (ourPosition_ r3 = Some initialPos ∧ ourSet_ r3 = Some initialSet ∧ peerPositions_ r3 = peerPositions_ r
    ∧ deadNodes_ r3 = deadNodes_ r) as (Hp&Hs&Hpp&Hd) by (split_and!; cbn in *; congruence).
  destruct proposing; [rewrite Hp; cbn [deref mbind res_bind]|]; eexists; (split; [done|]);
    split_and!; auto using send_ok.
Qed.

(** ** Updating our position *)

Section Update.
Context (effective : Z → res Z) (Heff : ∀ c : Z, is_ok (effective c) = true).

Lemma effective_ok (c : Z) : ∃ u, effective c = Ok u.
Proof. specialize (Heff c). destruct (effective c); [by eexists|done]. Qed.

Lemma drop_stale_ok prev cutoff (ps : list (NodeID * Pos)) : ∀ r times,
  round_ok prev r → (∀ k p, (k, p) ∈ ps → mPeerID p = k) →
  ∃ r' times', drop_stale effective cutoff ps r times = Ok (r', times') ∧ round_ok prev r'
    ∧ ourPosition_ r' = ourPosition_ r ∧ ourSet_ r' = ourSet_ r ∧ acquired_ r' = acquired_ r ∧ compares_ r' = compares_ r
    ∧ deadNodes_ r' = deadNodes_ r ∧ peerPositions_ r' ⊆ peerPositions_ r ∧ (votes_exact r → votes_exact r')
    ∧ ∀ t, is_Some (disputes_ r' !! t) ↔ is_Some (disputes_ r !! t).
Proof.
  induction ps as [|[k p] ps IH]; intros r times Hr Hps; cbn [drop_stale].
  { exists r, times. split_and!; done. }
  destruct (isStale cutoff p).
  - rewrite (Hps k p) by (by left). cbn [peerPositions_ deadNodes_ set_disputes].
    edestruct IH as (r'&times'&->&H'&?&?&?&?&?&Hsub&X'&Hdom);
      [exact (dropped_ok prev k (deadNodes_ r) r ltac:(done) Hr)|intros; apply Hps; by right|].
    exists r', times'. split_and!; try done.
    + etrans; [exact Hsub|]. apply delete_subseteq.
    + intros Hx. by apply X', dropped_exact.
    + intros t. rewrite Hdom. cbn. by rewrite lookup_fmap, fmap_is_Some.
  - destruct (effective_ok (mCloseTime p)) as [u ->]. cbn [mbind res_bind].
    apply IH; [done|]. intros; apply Hps; by right.
Qed.

Lemma updateVote_same pt pr d : (updateVote pt pr d).1 = false → (updateVote pt pr d).2 = d.
Proof. unfold updateVote. by repeat case_match. Qed.

Lemma updateVote_change pt pr d : (updateVote pt pr d).1 = true → mOurVote (updateVote pt pr d).2 = negb (mOurVote d).
Proof.
  unfold updateVote. repeat case_match; try done. cbn. intros _. match goal with E : Bool.eqb ?a ?b = false |- _ => by destruct a, b end.
Qed.

Definition current (changed os : option TxSet) : option TxSet := match changed with Some s => Some s | None => os end.

Lemma update_votes_ok pt proposing os (ds : list (TxID * Dispute)) : ∀ r changed,
  is_Some os → NoDup ds.*1 → (∀ t d, (t, d) ∈ ds → disputes_ r !! t = Some d) →
  (∀ t d, disputes_ r !! t = Some d → dispute_ok (current changed os) (peerPositions_ r) t d) →
  ∃ r' changed', update_votes pt proposing os ds r changed = Ok (r', changed')
    ∧ r' = set_disputes (disputes_ r') r ∧ (changed = changed' ∨ is_Some changed')
    ∧ (∀ t d, disputes_ r' !! t = Some d → dispute_ok (current changed' os) (peerPositions_ r) t d)
    ∧ (votes_exact r → votes_exact r')
    ∧ (∀ t, is_Some (disputes_ r' !! t) ↔ is_Some (disputes_ r !! t))
    ∧ (∀ t, in_set (current changed' os) t ≠ in_set (current changed os) t → is_Some (disputes_ r !! t)).
Proof.
  induction ds as [|[t d] ds IH]; intros r changed Hos Hnd Hin Hok; cbn [update_votes].
  { exists r, changed. split_and!; try done; [by destruct r|by left]. }
  apply NoDup_cons in Hnd as [Ht Hnd]. pose proof (Hin t d ltac:(by left)) as Hd.
  destruct (Hok t d Hd) as (Hid&Htal&Hv&Hour). pose proof (updateVote_votes pt proposing d) as Hf. cbn zeta in Hf.
  pose proof (updateVote_same pt proposing d) as Hsame. pose proof (updateVote_change pt proposing d) as Hch.
  pose proof (tallied_updateVote pt proposing d Htal) as Htal'.
  destruct (updateVote pt proposing d) as [change d']. cbn [fst snd] in *. destruct Hf as (Hvo&_&_&Htx).
  set (r1 := set_disputes (<[t:=d']> (disputes_ r)) r).
  assert (∀ t, is_Some (disputes_ r1 !! t) ↔ is_Some (disputes_ r !! t)) as Hdom1.
  { intros u. unfold r1; cbn. destruct (decide (u = t)) as [->|]; [rewrite lookup_insert_eq|by rewrite lookup_insert_ne].
    rewrite Hd. split; by eexists. }
  assert (votes_exact r → votes_exact r1) as X1.
  { intros Hx u e. unfold r1; cbn. intros [[<- <-]|[_ He]]%lookup_insert_Some; [|exact (Hx u e He)]. unfold vote_exact. rewrite Hvo. exact (Hx t d Hd). }
  assert (∀ u e, (u, e) ∈ ds → disputes_ r1 !! u = Some e) as Hin1.
  { intros u e Hue. unfold r1; cbn. rewrite lookup_insert_ne; [apply Hin; by right|]. intros <-. apply Ht.
    apply (list_elem_of_fmap_2 fst) in Hue. done. }
  destruct change; cbn zeta.
  - assert (∃ s, match changed with Some s => Ok s | None => deref os end = Ok s ∧ current changed os = Some s) as (s&->&Hcur).
    { destruct changed; [by eexists|]. destruct Hos as [s0 ->]. by exists s0. }
    cbn [mbind res_bind]. specialize (Hch eq_refl). rewrite Hcur in Hok, Hour. cbn in Hour.
    set (s' := if mOurVote d' then _ else _).
    assert (∀ u, hasEntry s' u = if decide (u = t) then mOurVote d' else hasEntry s u) as Hs'.
    { intros u. unfold s'. destruct (mOurVote d') eqn:E; [rewrite has_add, Htx, Hid|rewrite has_remove].
      - case_decide as Hu; [subst; by rewrite bool_decide_true|by rewrite bool_decide_false].
      - case_decide as Hu; [subst; by rewrite bool_decide_true|by rewrite bool_decide_false]. }
    destruct (IH r1 (Some s') Hos Hnd Hin1) as (r'&changed'&->&Hr'&Hc&Hok'&X'&Hdom&Hdiff).
    { intros u e. unfold r1; cbn. intros [[<- <-]|[Hne He]]%lookup_insert_Some.
      - split_and!; [congruence|done|by rewrite Hvo|]. cbn. by rewrite Hs', decide_True.
      - destruct (Hok u e He) as (?&?&?&Ho). split_and!; try done. cbn in *. by rewrite Hs', decide_False by done. }
    exists r', changed'. split_and!; auto.
    + destruct Hc as [<-|?]; right; [by eexists|done].
    + intros u. by rewrite Hdom.
    + intros u Hu. destruct (decide (u = t)) as [->|Hne]; [by eexists|]. apply Hdom1, Hdiff. rewrite Hcur in Hu. cbn in *.
      by rewrite Hs', decide_False by done.
  - specialize (Hsame eq_refl). subst d'. destruct (IH r1 changed Hos Hnd Hin1) as (r'&changed'&->&Hr'&Hc&Hok'&X'&Hdom&Hdiff).
    { intros u e. unfold r1; cbn. intros [[<- <-]|[Hne He]]%lookup_insert_Some; [by apply Hok|by apply Hok]. }
    exists r', changed'. split_and!; auto.
    + intros u. by rewrite Hdom.
    + intros u Hu. by apply Hdom1, Hdiff.
Qed.

Lemma closeTime_position_ok pt proposing (ours : Pos) n times :
  ∃ c have, closeTime_position effective pt proposing ours n times = Ok (c, have).
Proof.
  unfold closeTime_position. destruct (effective_ok (mCloseTime ours)) as [u Hu]. rewrite Hu.
  destruct (n =? 0); [by do 2 eexists|]. destruct proposing; cbn; destruct (pick_closeTime _ _ _ _ _); by do 2 eexists.
Qed.

Lemma changePosition_ok (s : TxSet) c now p :
  let '(changes, p') := changePosition (getID s) c now p in our_ok (Some p') (Some s) ∧ isBowOut p = negb changes.
Proof.
  unfold changePosition, isBowOut. destruct (mProposeSeq p =? seqLeave) eqn:E; cbn; [|done].
  unfold isBowOut. rewrite E. done.
Qed.

(** The last step of [updateOurPositions]: the new position is taken and announced. *)
Definition move (s : TxSet) (closeTime now : Z) (proposing : bool) (ours : Pos) (r : Round) : res Round :=
  let '(changes, p) := changePosition (getID s) closeTime now ours in
  let r := set_our (Some p) (Some s) r in
  if (changes : bool) then
    mapCompleteInternal shouldRelay s false (if proposing then send (Propose p) r else r)
  else Ok r.

Lemma move_ok prev s c now proposing ours r :
  (∀ k p, peerPositions_ r !! k = Some p → peer_ok prev (deadNodes_ r) k p) →
  (∀ h s, acquired_ r !! h = Some s → getID s = h) →
  (∀ t d, disputes_ r !! t = Some d → dispute_ok (Some s) (peerPositions_ r) t d) →
  ∃ r', move s c now proposing ours r = Ok r' ∧ round_ok prev r' ∧ is_Some (ourPosition_ r')
    ∧ ourSet_ r' = Some s ∧ peerPositions_ r' = peerPositions_ r ∧ deadNodes_ r' = deadNodes_ r
    ∧ (votes_exact r → votes_exact r').
Proof.
  intros P A D. unfold move. pose proof (changePosition_ok s c now ours) as Hch.
  destruct (changePosition (getID s) c now ours) as [changes p]. destruct Hch as [Ho _].
  assert (round_ok prev (set_our (Some p) (Some s) r)) as H1 by (by split).
  destruct changes; [|eexists; split_and!; try done; by eexists].
  set (r1 := if proposing then _ else _).
  assert (round_ok prev r1 ∧ same_base (set_our (Some p) (Some s) r) r1 ∧ (votes_exact r → votes_exact r1))
    as (H2&(B1&B2&B3&B4)&X1) by (unfold r1; destruct proposing; split_and!; auto using send_ok; done).
  destruct (mapCompleteInternal_ok prev s false r1 H2) as (r'&->&H'&(C1&C2&C3&C4)&X'&_). cbn in B1, B2, B3, B4.
  exists r'. split_and!; [done|done|rewrite C1, B1; by eexists|congruence..|auto].
Qed.

Lemma updateOurPositions_unfold now pt proposing r :
  updateOurPositions shouldRelay effective now pt proposing r =
  ('(r, times) ← drop_stale effective (u32 (now - PROPOSE_FRESHNESS)) (map_to_list (peerPositions_ r)) r [];
   '(r, changed) ← update_votes pt proposing (ourSet_ r) (map_to_list (disputes_ r)) r None;
   ours ← deref (ourPosition_ r);
   '(closeTime, have) ← closeTime_position effective pt proposing ours (Z.of_nat (size (peerPositions_ r))) times;
   ourSet ← match changed with
            | Some s => Ok (Some s)
            | None => if negb (closeTime =? mCloseTime ours) || isStale (u32 (now - PROPOSE_INTERVAL)) ours
                      then s ← deref (ourSet_ r); Ok (Some s) else Ok None end;
   match ourSet with
   | None => Ok (r, have)
   | Some s => r ← move s closeTime now proposing ours r; Ok (r, have)
   end).
Proof.
  unfold updateOurPositions. destruct (drop_stale _ _ _ _ _) as [[r1 times]|]; [cbn [mbind res_bind]|done].
  destruct (update_votes _ _ _ _ _ _) as [[r2 changed]|]; [cbn [mbind res_bind]|done].
  destruct (deref (ourPosition_ r2)) as [ours|]; [cbn [mbind res_bind]|done].
  destruct (closeTime_position _ _ _ _ _ _) as [[c have]|]; [cbn [mbind res_bind]|done].
  match goal with |- context [match changed with Some s => Ok (Some s) | None => ?e end] =>
    destruct (match changed with Some s => Ok (Some s) | None => e end) as [[s|]|] end; cbn [mbind res_bind]; [|done..].
  unfold move. destruct (changePosition (getID s) c now ours) as [[] p]; done.
Qed.

Lemma updateOurPositions_ok prev now pt proposing r :
  round_ok prev r → is_Some (ourPosition_ r) →
  ∃ r' have, updateOurPositions shouldRelay effective now pt proposing r = Ok (r', have) ∧ round_ok prev r'
    ∧ is_Some (ourPosition_ r') ∧ peerPositions_ r' ⊆ peerPositions_ r ∧ deadNodes_ r' = deadNodes_ r
    ∧ (votes_exact r → votes_exact r').
Proof.
  intros Hr [ours Hours]. rewrite updateOurPositions_unfold.
  destruct (drop_stale_ok prev (u32 (now - PROPOSE_FRESHNESS)) (map_to_list (peerPositions_ r)) r []) as
    (r1&times&->&H1&Hp1&Hs1&Ha1&Hc1&Hd1&Hsub1&X1&_); [done|by intros k p Hkp%elem_of_map_to_list; apply (ok_peers _ _ Hr)|].
  cbn [mbind res_bind]. pose proof (ok_our _ _ H1) as Ho1. rewrite Hp1, Hours in Ho1. destruct (ourSet_ r1) as [s1|] eqn:Es1; [|done].
  destruct (update_votes_ok pt proposing (Some s1) (map_to_list (disputes_ r1)) r1 None) as
    (r2&changed&->&Hr2&_&Hok2&X2&_); [by eexists|apply NoDup_fst_map_to_list|by intros t d ?%elem_of_map_to_list| |].
  { intros t d Hd. rewrite <-Es1. by apply (ok_disputes _ _ H1). }
  cbn [mbind res_bind]. rewrite Hr2. cbn [ourPosition_ ourSet_ peerPositions_ set_disputes]. rewrite Hp1, Hours, Es1. cbn [deref mbind res_bind].
  destruct (closeTime_position_ok pt proposing ours (Z.of_nat (size (peerPositions_ r1))) times) as (c&have&->).
  cbn [mbind res_bind]. set (r3 := set_disputes (disputes_ r2) r1).
  assert (∀ s, current changed (Some s1) = Some s → ∃ r' , move s c now proposing ours r3 = Ok r' ∧ round_ok prev r'
    ∧ is_Some (ourPosition_ r') ∧ peerPositions_ r' ⊆ peerPositions_ r ∧ deadNodes_ r' = deadNodes_ r
    ∧ (votes_exact r → votes_exact r')) as Hmove.
  { intros s Hs. destruct (move_ok prev s c now proposing ours r3) as (r'&Hm&H'&Hp'&_&Hpp'&Hd'&X').
    - apply (ok_peers _ _ H1).
    - apply (ok_acquired _ _ H1).
    - rewrite <-Hs. exact Hok2.
    - exists r'. split_and!; [done..|by rewrite Hpp'|by rewrite Hd'|]. intros Hx. apply X'. unfold r3. rewrite <-Hr2. auto. }
  destruct changed as [s|]; cbn [mbind res_bind].
  { destruct (Hmove s eq_refl) as (r'&->&?). eauto. }
  destruct (negb _ || _); cbn [mbind res_bind].
  - destruct (Hmove s1 eq_refl) as (r'&->&?). eauto.
  - exists r3, have. split_and!; try done; [|unfold r3; cbn; rewrite Hp1, Hours; by eexists|].
    + destruct H1 as [P A D O]. split; try done. cbn. rewrite Es1. exact Hok2.
    + intros Hx. unfold r3. rewrite <-Hr2. auto.
Qed.
End Update.

(** ** Looking for consensus *)

Lemma count_positions_ok prev our (ps : list (NodeID * Pos)) : ∀ a b r, round_ok prev r →
  ∃ a' b' r', count_positions shouldRelay our ps a b r = Ok (a', b', r') ∧ grows prev r r'.
Proof.
  induction ps as [|[k p] ps IH]; intros a b r Hr; cbn [count_positions]; [exists a, b, r; auto using grows_refl|].
  destruct (isBowOut p); [by apply IH|]. case_decide; [by apply IH|].
  assert (∃ r1, (if decide (mCurrentHash p ∈ compares_ r) then Ok r else
      match acquired_ r !! mCurrentHash p, acquired_ r !! our with
      | Some s1, Some s2 => createDisputes shouldRelay s2 s1 (set_compares ({[mCurrentHash p]} ∪ compares_ r) r)
      | _, _ => Ok r end) = Ok r1 ∧ grows prev r r1) as (r1&Hr1&G1).
  { case_decide; [eauto using grows_refl|]. destruct (acquired_ r !! mCurrentHash p), (acquired_ r !! our);
      eauto using grows_refl. by apply createDisputes_grows. }
  cbv zeta. rewrite Hr1. cbn [mbind res_bind]. destruct (IH a (b + 1) r1) as (a'&b'&r'&->&G2); [by apply G1|]. eauto 10 using grows_trans.
Qed.

Lemma haveConsensus_ok prev pp cv prt rt proposing r : round_ok prev r → is_Some (ourPosition_ r) →
  ∃ c r', haveConsensus shouldRelay pp cv prt rt proposing r = Ok (c, r') ∧ grows prev r r'.
Proof.
  intros Hr [ours Hours]. unfold haveConsensus. rewrite Hours. cbn [deref mbind res_bind].
  destruct (count_positions_ok prev (mCurrentHash ours) (map_to_list (peerPositions_ r)) 0 0 r Hr) as (a&b&r'&->&G).
  cbn [mbind res_bind]. eauto.
Qed.

End Invariant.
