(* ===== verification/LedgerConsensus.v ===== *)
(** * The consensus object ([app/ledger/impl/LedgerConsensusImp.cpp], [ConsensusImp.cpp])

    The phases of a round around the position tracking of [Consensus.v]: the timer, closing the
    ledger, following the network to another last closed ledger, starting a round and accepting
    the result.  What the object reads from the rest of the server at the time of a call (clocks,
    open ledger, validations, ledger store) is the record [Env]. *)

From S2P Require Import Prelude LedgerTiming Dispute Consensus.
Local Open Scope Z_scope.

(** The fields of [LedgerInfo] that the consensus code reads. *)
Record LedgerInfo (Hash : Type) := mkLedger {
  l_hash : Hash; l_parentHash : Hash; l_seq : Z; l_closeTime : Z; l_parentCloseTime : Z;
  l_closeTimeResolution : Z; l_closeFlags : Z }.
Arguments mkLedger {_}.
Arguments l_hash {_} _.
Arguments l_parentHash {_} _.
Arguments l_seq {_} _.
Arguments l_closeTime {_} _.
Arguments l_parentCloseTime {_} _.
Arguments l_closeTimeResolution {_} _.
Arguments l_closeFlags {_} _.

Definition sLCF_NoConsensusTime : Z := 1.
Definition getCloseAgree {Hash} (info : LedgerInfo Hash) : bool :=
  Z.land (l_closeFlags info) sLCF_NoConsensusTime =? 0.

Inductive State := open | establish | processing | accepted.

#[export] Instance State_eq_dec : EqDecision State.
Proof. solve_decision. Defined.

Section Object.
Context {NodeID Hash TxID Tx TxSet : Type}.
Context `{!EqDecision NodeID, !Countable NodeID, !EqDecision Hash, !Countable Hash, !EqDecision TxID, !Countable TxID}.
Context `{!TxSetOps TxID Tx TxSet Hash}.
Notation Pos := (LedgerProposal NodeID Hash).
Notation Round := (@Round NodeID Hash TxID Tx TxSet _ _ _ _ _ _).
Notation Ledger := (LedgerInfo Hash).

(** ** The state that outlives a round: [ConsensusImp] *)

Record ConsensusImp := mkConsensusImp {
  c_proposing : bool; c_validating : bool;
  lastCloseProposers_ : Z; lastCloseConvergeTook_ : Z; lastCloseTime_ : Z;
  lastValidation_ : option (Z * Hash); lastValidationTimestamp_ : Z;
  storedProposals_ : gmap NodeID (list Pos) }.

Definition ConsensusImp_init : ConsensusImp := mkConsensusImp false false 0 LEDGER_IDLE_INTERVAL 0 None 0 ∅.

Definition setProposing (p v : bool) (i : ConsensusImp) : ConsensusImp :=
  mkConsensusImp p v (lastCloseProposers_ i) (lastCloseConvergeTook_ i) (lastCloseTime_ i) (lastValidation_ i)
    (lastValidationTimestamp_ i) (storedProposals_ i).
Definition newLCL (proposers convergeTime : Z) (i : ConsensusImp) : ConsensusImp :=
  mkConsensusImp (c_proposing i) (c_validating i) proposers convergeTime (lastCloseTime_ i) (lastValidation_ i)
    (lastValidationTimestamp_ i) (storedProposals_ i).
Definition setLastCloseTime (t : Z) (i : ConsensusImp) : ConsensusImp :=
  mkConsensusImp (c_proposing i) (c_validating i) (lastCloseProposers_ i) (lastCloseConvergeTook_ i) t
    (lastValidation_ i) (lastValidationTimestamp_ i) (storedProposals_ i).
Definition setLastValidation (v : Z * Hash) (i : ConsensusImp) : ConsensusImp :=
  mkConsensusImp (c_proposing i) (c_validating i) (lastCloseProposers_ i) (lastCloseConvergeTook_ i) (lastCloseTime_ i)
    (Some v) (lastValidationTimestamp_ i) (storedProposals_ i).

Definition validationTimestamp (vt : Z) (i : ConsensusImp) : Z * ConsensusImp :=
  let vt := if vt <=? lastValidationTimestamp_ i then u32 (lastValidationTimestamp_ i + 1) else vt in
  (vt, mkConsensusImp (c_proposing i) (c_validating i) (lastCloseProposers_ i) (lastCloseConvergeTook_ i)
         (lastCloseTime_ i) (lastValidation_ i) vt (storedProposals_ i)).

Definition storeProposal (proposal : Pos) (nodeID : NodeID) (i : ConsensusImp) : ConsensusImp :=
  let props := default [] (storedProposals_ i !! nodeID) in
  let props := if (10 <=? length props)%nat then tail props else props in
  mkConsensusImp (c_proposing i) (c_validating i) (lastCloseProposers_ i) (lastCloseConvergeTook_ i) (lastCloseTime_ i)
    (lastValidation_ i) (lastValidationTimestamp_ i) (<[nodeID := props ++ [proposal]]> (storedProposals_ i)).

Definition getStoredProposals (prevLedger : Hash) (i : ConsensusImp) : list Pos :=
  filter (fun p => mPreviousLedger p = prevLedger) (concat (map_to_list (storedProposals_ i)).*2).

(** ** The environment of a call *)

Record Env := mkEnv {
  now : Z;                                         (* [timeKeeper().closeTime()] *)
  net_now : Z;                                     (* [timeKeeper().now()] *)
  steady : Z;                                      (* [steady_clock::now()], milliseconds *)
  openTxs : list Tx; openParent : Hash;            (* [openLedger()] *)
  standalone : bool;
  flagQuorum : Hash → bool;                        (* enough trusted validations of a flag ledger *)
  doVoting : TxSet → TxSet;                        (* pseudo-transactions of fee and amendment votes *)
  nodesAfter : Hash → Z;                           (* [Validations::getNodesAfter] *)
  currentValidations : Hash → option Hash → list (Hash * Z);
  ledgerByHash : Hash → option Ledger;             (* [LedgerMaster::getLedgerByHash] *)
  inboundSet : Hash → option TxSet;                (* [InboundTransactions::getSet] *)
  relayable : TxID → bool;                         (* [HashRouter::shouldRelay] *)
  needNetworkLedger : bool; fullMode : bool;       (* [NetworkOPs] *)
  zeroID : NodeID;                                 (* the default [NodeID] *)
  replay : option (Z * Z);                         (* [LedgerMaster::releaseReplay]: close time and flags *)
  buildLedger : Ledger → TxSet → Z → Z → bool → Ledger;
  compatible : Ledger → bool }.                    (* [LedgerMaster::isCompatible] *)

(** ** The state *)

(** The job that accepts a ledger runs without the lock of the object, which it takes for its last
    assignments only.  Other calls come between its parts: building the ledger of a set, opening
    the next one on top of it, and the end. *)
Inductive AcceptJob := accept_set (s : TxSet) | accept_opens (lcl : Ledger) | accept_ends.

(** [previousLedger_] is null until the first round. *)
Record LC := mkLC {
  round_ : Round; state_ : State; closeTime_ : Z; prevLedgerHash_ : Hash; acquiringLedger_ : Hash;
  previousLedger_ : option Ledger; hasKeys_ : bool; proposing_ : bool; validating_ : bool;
  haveCorrectLCL_ : bool; consensusFail_ : bool; roundTime_ : Z; closePercent_ : Z; closeResolution_ : Z;
  haveCloseTimeConsensus_ : bool; consensusStartTime_ : Z; previousProposers_ : Z;
  previousRoundTime_ : Z; consensus_ : ConsensusImp; acceptJob_ : option AcceptJob }.

Definition set_round (v : Round) (c : LC) : LC :=
  mkLC v (state_ c) (closeTime_ c) (prevLedgerHash_ c) (acquiringLedger_ c) (previousLedger_ c) (hasKeys_ c)
    (proposing_ c) (validating_ c) (haveCorrectLCL_ c) (consensusFail_ c) (roundTime_ c) (closePercent_ c)
    (closeResolution_ c) (haveCloseTimeConsensus_ c) (consensusStartTime_ c) (previousProposers_ c)
    (previousRoundTime_ c) (consensus_ c) (acceptJob_ c).
Definition set_state (v : State) (c : LC) : LC :=
  mkLC (round_ c) v (closeTime_ c) (prevLedgerHash_ c) (acquiringLedger_ c) (previousLedger_ c) (hasKeys_ c)
    (proposing_ c) (validating_ c) (haveCorrectLCL_ c) (consensusFail_ c) (roundTime_ c) (closePercent_ c)
    (closeResolution_ c) (haveCloseTimeConsensus_ c) (consensusStartTime_ c) (previousProposers_ c)
    (previousRoundTime_ c) (consensus_ c) (acceptJob_ c).
Definition set_prev (v : Hash) (c : LC) : LC :=
  mkLC (round_ c) (state_ c) (closeTime_ c) v (acquiringLedger_ c) (previousLedger_ c) (hasKeys_ c)
    (proposing_ c) (validating_ c) (haveCorrectLCL_ c) (consensusFail_ c) (roundTime_ c) (closePercent_ c)
    (closeResolution_ c) (haveCloseTimeConsensus_ c) (consensusStartTime_ c) (previousProposers_ c)
    (previousRoundTime_ c) (consensus_ c) (acceptJob_ c).
Definition set_acquiring (v0 : Hash) (v1 : bool) (c : LC) : LC :=
  mkLC (round_ c) (state_ c) (closeTime_ c) (prevLedgerHash_ c) v0 (previousLedger_ c) (hasKeys_ c)
    (proposing_ c) (validating_ c) v1 (consensusFail_ c) (roundTime_ c) (closePercent_ c) (closeResolution_ c)
    (haveCloseTimeConsensus_ c) (consensusStartTime_ c) (previousProposers_ c) (previousRoundTime_ c)
    (consensus_ c) (acceptJob_ c).
Definition set_proposing (v : bool) (c : LC) : LC :=
  mkLC (round_ c) (state_ c) (closeTime_ c) (prevLedgerHash_ c) (acquiringLedger_ c) (previousLedger_ c)
    (hasKeys_ c) v (validating_ c) (haveCorrectLCL_ c) (consensusFail_ c) (roundTime_ c) (closePercent_ c)
    (closeResolution_ c) (haveCloseTimeConsensus_ c) (consensusStartTime_ c) (previousProposers_ c)
    (previousRoundTime_ c) (consensus_ c) (acceptJob_ c).
Definition set_validating (v : bool) (c : LC) : LC :=
  mkLC (round_ c) (state_ c) (closeTime_ c) (prevLedgerHash_ c) (acquiringLedger_ c) (previousLedger_ c)
    (hasKeys_ c) (proposing_ c) v (haveCorrectLCL_ c) (consensusFail_ c) (roundTime_ c) (closePercent_ c)
    (closeResolution_ c) (haveCloseTimeConsensus_ c) (consensusStartTime_ c) (previousProposers_ c)
    (previousRoundTime_ c) (consensus_ c) (acceptJob_ c).
Definition set_fail (v : bool) (c : LC) : LC :=
  mkLC (round_ c) (state_ c) (closeTime_ c) (prevLedgerHash_ c) (acquiringLedger_ c) (previousLedger_ c)
    (hasKeys_ c) (proposing_ c) (validating_ c) (haveCorrectLCL_ c) v (roundTime_ c) (closePercent_ c)
    (closeResolution_ c) (haveCloseTimeConsensus_ c) (consensusStartTime_ c) (previousProposers_ c)
    (previousRoundTime_ c) (consensus_ c) (acceptJob_ c).
Definition set_times (v0 : Z) (v1 : Z) (c : LC) : LC :=
  mkLC (round_ c) (state_ c) (closeTime_ c) (prevLedgerHash_ c) (acquiringLedger_ c) (previousLedger_ c)
    (hasKeys_ c) (proposing_ c) (validating_ c) (haveCorrectLCL_ c) (consensusFail_ c) v0 v1
    (closeResolution_ c) (haveCloseTimeConsensus_ c) (consensusStartTime_ c) (previousProposers_ c)
    (previousRoundTime_ c) (consensus_ c) (acceptJob_ c).
Definition set_haveCT (v : bool) (c : LC) : LC :=
  mkLC (round_ c) (state_ c) (closeTime_ c) (prevLedgerHash_ c) (acquiringLedger_ c) (previousLedger_ c)
    (hasKeys_ c) (proposing_ c) (validating_ c) (haveCorrectLCL_ c) (consensusFail_ c) (roundTime_ c)
    (closePercent_ c) (closeResolution_ c) v (consensusStartTime_ c) (previousProposers_ c)
    (previousRoundTime_ c) (consensus_ c) (acceptJob_ c).
Definition set_closing (v0 : State) (v1 : Z) (v2 : Z) (c : LC) : LC :=
  mkLC (round_ c) v0 v1 (prevLedgerHash_ c) (acquiringLedger_ c) (previousLedger_ c) (hasKeys_ c)
    (proposing_ c) (validating_ c) (haveCorrectLCL_ c) (consensusFail_ c) (roundTime_ c) (closePercent_ c)
    (closeResolution_ c) (haveCloseTimeConsensus_ c) v2 (previousProposers_ c) (previousRoundTime_ c)
    (consensus_ c) (acceptJob_ c).
Definition set_consensus (v : ConsensusImp) (c : LC) : LC :=
  mkLC (round_ c) (state_ c) (closeTime_ c) (prevLedgerHash_ c) (acquiringLedger_ c) (previousLedger_ c)
    (hasKeys_ c) (proposing_ c) (validating_ c) (haveCorrectLCL_ c) (consensusFail_ c) (roundTime_ c)
    (closePercent_ c) (closeResolution_ c) (haveCloseTimeConsensus_ c) (consensusStartTime_ c)
    (previousProposers_ c) (previousRoundTime_ c) v (acceptJob_ c).
Definition set_job (v : option AcceptJob) (c : LC) : LC :=
  mkLC (round_ c) (state_ c) (closeTime_ c) (prevLedgerHash_ c) (acquiringLedger_ c) (previousLedger_ c)
    (hasKeys_ c) (proposing_ c) (validating_ c) (haveCorrectLCL_ c) (consensusFail_ c) (roundTime_ c)
    (closePercent_ c) (closeResolution_ c) (haveCloseTimeConsensus_ c) (consensusStartTime_ c)
    (previousProposers_ c) (previousRoundTime_ c) (consensus_ c) v.

Definition sends (m : Msg) (c : LC) : LC := set_round (send m (round_ c)) c.

(** ** Position, validation and closing *)

Definition leaveConsensus (e : Env) (c : LC) : LC :=
  set_proposing false (set_round (leave (now e) (round_ c)) c).

Definition makeInitialPosition (e : Env) (prev : Ledger) (c : LC) : TxSet * Pos :=
  let initialSet := foldl (fun s tx => addEntry tx s) emptySet (openTxs e) in
  let initialSet :=
    if (standalone e || (proposing_ c && haveCorrectLCL_ c)) && (l_seq prev mod 256 =? 0)
    then if flagQuorum e (l_parentHash prev) then doVoting e initialSet else initialSet
    else initialSet in
  (initialSet, mkProposal (openParent e) (getID initialSet) (closeTime_ c) seqJoin (zeroID e) (now e)).

Definition checkOurValidation (e : Env) (c : LC) : res LC :=
  if negb (haveCorrectLCL_ c) || negb (hasKeys_ c) || needNetworkLedger e then Ok c
  else
    prev ← deref (previousLedger_ c);
    if match lastValidation_ (consensus_ c) with
       | Some (seq, hash) => (seq =? l_seq prev) || bool_decide (hash = prevLedgerHash_ c)
       | None => false
       end then Ok c
    else
      let '(t, i) := validationTimestamp (net_now e) (consensus_ c) in
      Ok (set_consensus (setLastValidation (0, l_hash prev) i) (sends (AddValidation (l_hash prev) t false) c)).

Definition closeLedger (e : Env) (c : LC) : res LC :=
  c ← checkOurValidation e c;
  let c := set_closing establish (now e) (steady e) c in
  let c := set_consensus (setLastCloseTime (closeTime_ c) (consensus_ c)) c in
  prev ← deref (previousLedger_ c);
  let c := sends (StatusChange (haveCorrectLCL_ c) true (l_hash prev)) c in
  let '(initialSet, initialPos) := makeInitialPosition e prev c in
  r ← takeInitialPosition (relayable e) initialSet initialPos (proposing_ c) (round_ c);
  Ok (set_round r c).

Definition statePreClose (e : Env) (c : LC) : res LC :=
  prev ← deref (previousLedger_ c);
  let previousCloseCorrect :=
    haveCorrectLCL_ c && getCloseAgree prev && negb (l_closeTime prev =? l_parentCloseTime prev + 1) in
  closeTime ← (if previousCloseCorrect then Ok (l_closeTime prev)
               else roundCloseTime (lastCloseTime_ (consensus_ c)) (closeResolution_ c));
  t ← roundCloseTime (now e) (closeResolution_ c);
  let sinceClose := if closeTime <=? t then (t - closeTime) * 1000 else - ((closeTime - t) * 1000) in
  let idleInterval := Z.max LEDGER_IDLE_INTERVAL (l_closeTimeResolution prev * 1000) in
  if shouldCloseLedger (negb (bool_decide (openTxs e = []))) (previousProposers_ c)
       (Z.of_nat (size (peerPositions_ (round_ c)))) (nodesAfter e (prevLedgerHash_ c))
       (previousRoundTime_ c) sinceClose (roundTime_ c) idleInterval
  then closeLedger e c else Ok c.

(** ** Accepting *)

(** The close time of the new ledger, and whether it was agreed upon. *)
Definition acceptCloseTime (e : Env) (prev : Ledger) (ours : Pos) (c : LC) : res (Z * bool) :=
  match replay e with
  | Some (t, flags) => Ok (t, Z.land flags sLCF_NoConsensusTime =? 0)
  | None =>
      if mCloseTime ours =? 0 then Ok (u32 (l_closeTime prev + 1), false)
      else t ← effectiveCloseTime (closeResolution_ c) (l_closeTime prev) (mCloseTime ours); Ok (t, true)
  end.

(** The offset of our clock from the average of the close times reported. *)
Definition closeOffset (closeTime : Z) (closeTimes : list (Z * Z)) : Z :=
  let closeCount := foldl (fun n p => n + p.2) 1 closeTimes in
  let closeTotal := foldl (fun s p => u64 (s + u64 (p.1 * p.2))) closeTime closeTimes in
  let closeTotal := u64 (closeTotal + Z.quot closeCount 2) / closeCount in
  i32 (i32 closeTotal - i32 closeTime).

(** The first part of [accept]: the ledger is built, announced and validated. *)
Definition accept_build (e : Env) (set : TxSet) (c : LC) : res (Ledger * LC) :=
  ours ← deref (ourPosition_ (round_ c));
  prev ← deref (previousLedger_ c);
  '(closeTime, closeTimeCorrect) ← acceptCloseTime e prev ours c;
  let lcl := buildLedger e prev set closeTime (closeResolution_ c) closeTimeCorrect in
  let c := sends (StatusChange (haveCorrectLCL_ c) false (l_hash lcl)) (sends (BuildLedger set closeTime closeTimeCorrect) c) in
  let c := if validating_ c && negb (compatible e lcl) then set_validating false c else c in
  let c :=
    if validating_ c && negb (consensusFail_ c) then
      let '(t, i) := validationTimestamp (net_now e) (consensus_ c) in
      set_consensus (setLastValidation (l_seq lcl, l_hash lcl) i) (sends (AddValidation (l_hash lcl) t (proposing_ c)) c)
    else c in
  Ok (lcl, c).

(** The second part: the disputed transactions that did not get in are tried in the next one. *)
Definition accept_open (lcl : Ledger) (c : LC) : LC :=
  let disputed := omap (fun d => if mOurVote d then None else Some (transaction d)) (map_to_list (disputes_ (round_ c))).*2 in
  sends (OpenLedger (l_hash lcl) disputed) c.

(** The last part: our clock is adjusted, and the round is over. *)
Definition accept_end (c : LC) : LC :=
  let c := if validating_ c then sends (AdjustCloseTime (closeOffset (closeTime_ c) (closeTimes_ (round_ c)))) c else c in
  sends (EndConsensus (haveCorrectLCL_ c)) (set_state accepted c).

Definition accept (e : Env) (set : TxSet) (c : LC) : res LC :=
  '(lcl, c) ← accept_build e set c;
  Ok (accept_end (accept_open lcl c)).

Definition beginAccept (e : Env) (synchronous : bool) (c : LC) : res LC :=
  match ourPosition_ (round_ c), ourSet_ (round_ c) with
  | Some _, Some s =>
      let c := set_consensus (newLCL (Z.of_nat (size (peerPositions_ (round_ c)))) (roundTime_ c) (consensus_ c)) c in
      if synchronous then accept e s c else Ok (set_job (Some (accept_set s)) c)
  | _, _ => Err assert_failed   (* [abort ()] *)
  end.

(** The next part of the job queued by [beginAccept]. *)
Definition acceptLedger (e : Env) (c : LC) : res LC :=
  match acceptJob_ c with
  | Some (accept_set s) => '(lcl, c) ← accept_build e s c; Ok (set_job (Some (accept_opens lcl)) c)
  | Some (accept_opens lcl) => Ok (set_job (Some accept_ends) (accept_open lcl c))
  | Some accept_ends => Ok (accept_end (set_job None c))
  | None => Ok c
  end.

Definition stateEstablish (e : Env) (c : LC) : res LC :=
  if roundTime_ c <? LEDGER_MIN_CONSENSUS then Ok c
  else
    prev ← deref (previousLedger_ c);
    '(r, have) ← updateOurPositions (relayable e)
       (effectiveCloseTime (closeResolution_ c) (l_closeTime prev))
       (now e) (closePercent_ c) (proposing_ c) (round_ c);
    let c := set_haveCT have (set_round r c) in
    '(ret, r) ← haveConsensus (relayable e) (previousProposers_ c) (nodesAfter e (prevLedgerHash_ c))
       (previousRoundTime_ c) (roundTime_ c) (proposing_ c) (round_ c);
    let c := set_round r c in
    match ret with
    | CS_No => Ok c
    | _ =>
        let c := set_fail (match ret with CS_MovedOn => true | _ => false end) c in
        if negb (haveCloseTimeConsensus_ c) then Ok c
        else beginAccept e false (set_state processing c)
    end.

(** ** Following the network *)

(** The ledger most validators are on, [prevLedgerHash] when there is a tie with it. *)
Fixpoint preferred (prevLedgerHash : Hash) (vals : list (Hash * Z)) (netLgr : Hash) (count : Z) : Hash :=
  match vals with
  | [] => netLgr
  | (h, n) :: vals =>
      if (count <? n) || ((n =? count) && bool_decide (h = prevLedgerHash)) then preferred prevLedgerHash vals h n
      else preferred prevLedgerHash vals netLgr count
  end.

Definition playbackProposals (e : Env) (c : LC) : LC :=
  set_round (playback (inboundSet e) (prevLedgerHash_ c)
    (getStoredProposals (prevLedgerHash_ c) (consensus_ c)) (round_ c)) c.

(** The collections emptied by [handleLCL] *)
Definition clear_round (r : Round) : Round :=
  mkRound (ourPosition_ r) (ourSet_ r) ∅ (acquired_ r) ∅ ∅ [] ∅ (sent r).

(** The first part of [handleLCL]: the first time we switch to this ledger *)
Definition switch_ledger (e : Env) (lclHash : Hash) (c : LC) : LC :=
  if decide (prevLedgerHash_ c = lclHash) then c
  else
    let c := set_prev lclHash c in
    let c := if haveCorrectLCL_ c && proposing_ c && bool_decide (is_Some (ourPosition_ (round_ c)))
             then leaveConsensus e c else c in
    playbackProposals e (set_round (clear_round (round_ c)) (set_proposing false c)).

Section Recursive.
(** [startRound] is called back by [handleLCL]. *)
Context (start : Hash → Ledger → Z → Z → Z → LC → res LC).

Definition handleLCL (e : Env) (lclHash : Hash) (c : LC) : res LC :=
  prev ← deref (previousLedger_ c);
  assert_ (negb (bool_decide (lclHash = prevLedgerHash_ c)) || negb (bool_decide (l_hash prev = lclHash)));;
  let c := switch_ledger e lclHash c in
  if decide (l_hash prev = prevLedgerHash_ c) then Ok c
  else
    match ledgerByHash e (prevLedgerHash_ c) with
    | None =>
        if decide (acquiringLedger_ c = lclHash) then Ok c
        else Ok (set_acquiring (prevLedgerHash_ c) false (sends (AcquireLedger (prevLedgerHash_ c)) c))
    | Some buildLCL =>
        assert_ (bool_decide (l_hash buildLCL = lclHash));;
        c ← start lclHash buildLCL (closeTime_ c) (previousProposers_ c) (previousRoundTime_ c) c;
        Ok (set_proposing false c)
    end.

Definition checkLCL (e : Env) (c : LC) : res LC :=
  prev ← deref (previousLedger_ c);
  let priorLedger := if haveCorrectLCL_ c then Some (l_parentHash prev) else None in
  let netLgr := preferred (prevLedgerHash_ c) (currentValidations e (prevLedgerHash_ c) priorLedger) (prevLedgerHash_ c) 0 in
  if negb (bool_decide (netLgr = prevLedgerHash_ c)) then
    handleLCL e netLgr (if haveCorrectLCL_ c then sends ViewChange c else c)
  else if negb (bool_decide (l_hash prev = prevLedgerHash_ c)) then handleLCL e netLgr c
  else Ok c.

Definition timerEntry_with (e : Env) (c : LC) : res LC :=
  c ← (match state_ c with open | establish => checkLCL e c | _ => Ok c end);
  let roundTime := steady e - consensusStartTime_ c in
  let c := set_times roundTime (i32 (Z.quot (roundTime * 100) (Z.max (previousRoundTime_ c) AV_MIN_CONSENSUS_TIME))) c in
  match state_ c with
  | open =>
      c ← statePreClose e c;
      (if decide (state_ c = establish) then stateEstablish e c else Ok c)
  | establish => stateEstablish e c
  | _ => Ok c
  end.
End Recursive.

(** The assignments at the beginning of [startRound]; [InboundTransactions::newRound], which
    forgets old sets there, is part of the environment. *)
Definition reset_round (e : Env) (prevLCLHash : Hash) (prevLedger : Ledger)
    (closeTime previousProposers previousConvergeTime closeResolution : Z) (c : LC) : LC :=
  let validating := hasKeys_ c && negb (needNetworkLedger e) in
  mkLC (empty_round (sent (round_ c))) open closeTime prevLCLHash (acquiringLedger_ c) (Some prevLedger) (hasKeys_ c)
    (validating && fullMode e) validating (bool_decide (l_hash prevLedger = prevLCLHash)) false 0 0 closeResolution
    false (steady e) previousProposers previousConvergeTime (consensus_ c) (acceptJob_ c).

Fixpoint startRound (fuel : nat) (e : Env) (prevLCLHash : Hash) (prevLedger : Ledger)
    (closeTime previousProposers previousConvergeTime : Z) (c : LC) : res LC :=
  match fuel with
  | O => Err out_of_fuel
  | S fuel =>
      if decide (state_ c = processing) then Ok c
      else
        closeResolution ← getNextLedgerTimeResolution (l_closeTimeResolution prevLedger) (getCloseAgree prevLedger)
                            (u32 (l_seq prevLedger + 1));
        let c := reset_round e prevLCLHash prevLedger closeTime previousProposers previousConvergeTime closeResolution c in
        c ← (if haveCorrectLCL_ c then
               Ok (set_consensus (setProposing (proposing_ c) (validating_ c) (consensus_ c)) c)
             else
               let c := set_consensus (setProposing false false (consensus_ c)) c in
               handleLCL (startRound fuel e) e (prevLedgerHash_ c) c);
        let c := playbackProposals e c in
        if Z.quot (previousProposers_ c) 2 <? Z.of_nat (size (peerPositions_ (round_ c)))
        then timerEntry_with (startRound fuel e) e c else Ok c
  end.

Definition timerEntry (fuel : nat) (e : Env) (c : LC) : res LC := timerEntry_with (startRound fuel e) e c.

Definition simulate (e : Env) (consensusDelay : option Z) (c : LC) : res LC :=
  c ← closeLedger e c;
  beginAccept e true (set_times (default 100 consensusDelay) (closePercent_ c) c).

(** [gotMap] and [peerPosition] of the object, and [ConsensusImp::startRound] *)
Definition lc_gotMap (e : Env) (map : TxSet) (c : LC) : res LC :=
  r ← gotMap (relayable e) map (round_ c); Ok (set_round r c).

Definition lc_peerPosition (e : Env) (p : Pos) (c : LC) : bool * LC :=
  let '(b, r) := peerPosition (inboundSet e) (prevLedgerHash_ c) p (round_ c) in (b, set_round r c).

Definition consensus_startRound (fuel : nat) (e : Env) (prevLCLHash : Hash) (previousLedger : Ledger) (closeTime : Z)
    (c : LC) : res LC :=
  startRound fuel e prevLCLHash previousLedger closeTime (lastCloseProposers_ (consensus_ c))
    (lastCloseConvergeTook_ (consensus_ c)) c.

End Object.
