(* ===== verification/LedgerConsensusInv.v ===== *)
(** * Invariant of the consensus object

    Whatever the timer, the peers, the acquired sets and the network's view do, the object keeps
    its invariant and reaches no failed assertion, no null dereference and no [abort]. *)

From S2P Require Import Prelude LedgerTiming Dispute Consensus ConsensusInv LedgerConsensus.
Local Open Scope Z_scope.

Section Object.
Context {NodeID Hash TxID Tx TxSet : Type}.
Context `{!EqDecision NodeID, !Countable NodeID, !EqDecision Hash, !Countable Hash, !EqDecision TxID, !Countable TxID}.
Context `{!TxSetOps TxID Tx TxSet Hash, !TxSetLaws TxID Tx TxSet Hash}.
Notation Pos := (LedgerProposal NodeID Hash).
Notation Round := (@Round NodeID Hash TxID Tx TxSet _ _ _ _ _ _).
Notation Ledger := (LedgerInfo Hash).
Notation LC := (@LC NodeID Hash TxID Tx TxSet _ _ _ _ _ _).
Notation Env := (@Env NodeID Hash TxID Tx TxSet).
Implicit Types (c : LC) (e : Env) (r : Round) (l : Ledger) (h : Hash).

(** ** The invariant *)

Definition ledger_ok (l : Ledger) : Prop := possible (l_closeTimeResolution l) ∧ 0 <= l_seq l < 2 ^ 32 - 1.

(** What the object relies on: sets and ledgers are found under their hashes, and stored ledgers
    have one of the possible resolutions. *)
Definition env_ok (e : Env) : Prop :=
  answers (inboundSet e) ∧ ∀ h l, ledgerByHash e h = Some l → l_hash l = h ∧ ledger_ok l.

Record lc_ok (c : LC) : Prop := {
  lc_round : round_ok (prevLedgerHash_ c) (round_ c);
  lc_position : state_ c = establish ∨ state_ c = processing → is_Some (ourPosition_ (round_ c));
  lc_resolution : possible (closeResolution_ c);
  lc_ledger : match previousLedger_ c with Some l => ledger_ok l | None => state_ c = open end;
  lc_job : is_Some (acceptJob_ c) ↔ state_ c = processing }.

(** A round has been started. *)
Definition started (c : LC) : Prop := is_Some (previousLedger_ c).

(** A call either returns with the invariant, or the bound on the nested calls was too small. *)
Definition sound (m : res LC) : Prop := match m with Ok c => lc_ok c ∧ started c | Err x => x = out_of_fuel end.

Lemma sound_bind (m : res LC) (f : LC → res LC) : sound m → (∀ c, lc_ok c → started c → sound (f c)) → sound (m ≫= f).
Proof. destruct m; cbn; [intros [? ?]|]; auto. Qed.

Lemma started_ledger c : lc_ok c → started c → ∃ l, previousLedger_ c = Some l ∧ ledger_ok l.
Proof. intros [_ _ _ L _] [l Hl]. rewrite Hl in L. eauto. Qed.

Lemma not_open_started c : lc_ok c → state_ c ≠ open → started c.
Proof. intros Hc Hs. pose proof (lc_ledger _ Hc) as H. unfold started. destruct (previousLedger_ c); [by eexists|done]. Qed.

Lemma possible_pos (x : Z) : possible x → 0 < x.
Proof. intros Hx. apply possible_cases in Hx. lia. Qed.

Lemma round_time_ok (t x : Z) : 0 < x → ∃ u, roundCloseTime t x = Ok u.
Proof.
  intros Hx. unfold roundCloseTime. destruct (t =? 0); [by eexists|]. rewrite (proj2 (Z.eqb_neq x 0)) by lia. by eexists.
Qed.

Lemma effective_total (x y t : Z) : 0 < x → is_ok (effectiveCloseTime x y t) = true.
Proof.
  intros Hx. unfold effectiveCloseTime. destruct (t =? 0); [done|]. by destruct (round_time_ok t x Hx) as [u ->].
Qed.

(** ** Preservation *)

(** Changes outside the fields of the invariant. *)
Lemma frame_ok c c' : lc_ok c → round_ok (prevLedgerHash_ c') (round_ c') →
  (is_Some (ourPosition_ (round_ c)) → is_Some (ourPosition_ (round_ c'))) →
  state_ c' = state_ c → closeResolution_ c' = closeResolution_ c → previousLedger_ c' = previousLedger_ c →
  acceptJob_ c' = acceptJob_ c → lc_ok c'.
Proof. intros [R P Re L J] R' P' Hs Hre Hl Hj. split; rewrite ?Hs, ?Hre, ?Hl, ?Hj; auto. Qed.

Lemma sends_ok m c : lc_ok c → lc_ok (sends m c).
Proof. intros Hc. apply (frame_ok c); try done. apply send_ok, (lc_round _ Hc). Qed.

Lemma leaveConsensus_ok e c : lc_ok c → lc_ok (leaveConsensus e c).
Proof.
  intros Hc. destruct (leave_ok (prevLedgerHash_ c) (now e) (round_ c) (lc_round _ Hc)) as (H1&(Hp&_)&_).
  apply (frame_ok c); try done. cbn. unfold leave. intros [p Hpos]. rewrite Hpos. case_match; cbn; [rewrite Hpos|]; by eexists.
Qed.

(** The fields that the parts of a round do not touch. *)
Definition keeps_phase (c c' : LC) : Prop :=
  state_ c' = state_ c ∧ closeResolution_ c' = closeResolution_ c ∧ previousLedger_ c' = previousLedger_ c
  ∧ acceptJob_ c' = acceptJob_ c ∧ prevLedgerHash_ c' = prevLedgerHash_ c.

Lemma checkOurValidation_frame e c : started c →
  ∃ c', checkOurValidation e c = Ok c' ∧ keeps_phase c c' ∧ ∃ ms, round_ c' = foldr send (round_ c) ms.
Proof.
  intros [l Hl]. unfold checkOurValidation, keeps_phase. case_match; [eexists; split_and!; try done; by exists []|].
  rewrite Hl. cbn [deref mbind res_bind].
  match goal with |- context [if ?b then _ else _] => destruct b end; [eexists; split_and!; try done; by exists []|].
  destruct (validationTimestamp _ _) as [t i]. cbn. eexists. split_and!; try done. by exists [AddValidation (l_hash l) t false].
Qed.

Lemma sent_ok prev ms r : round_ok prev r → round_ok prev (foldr send r ms).
Proof. intros Hr. induction ms; cbn; auto using send_ok. Qed.

Lemma closeLedger_ok e c : lc_ok c → started c → acceptJob_ c = None → ∃ c', closeLedger e c = Ok c' ∧ lc_ok c'
  ∧ state_ c' = establish ∧ acceptJob_ c' = None ∧ previousLedger_ c' = previousLedger_ c.
Proof.
  intros Hc Hst Hj. unfold closeLedger. destruct (started_ledger c Hc Hst) as (l&Hl&Hlok).
  destruct (checkOurValidation_frame e c Hst) as (c1&->&(Hs&Hre&Hl1&Hjob&Hprev)&ms&Hms).
  cbn [mbind res_bind]. cbn [previousLedger_ set_consensus set_closing]. rewrite Hl1, Hl. cbn [deref mbind res_bind].
  set (c2 := sends _ _). destruct (makeInitialPosition e l c2) as [s p] eqn:Em.
  assert (getID s = mCurrentHash p) as Hid by (unfold makeInitialPosition in Em; by simplify_eq).
  assert (round_ok (prevLedgerHash_ c) (round_ c2)) as R2.
  { unfold c2; cbn. apply send_ok. rewrite Hms. apply sent_ok, (lc_round _ Hc). }
  destruct (takeInitialPosition_ok (relayable e) (prevLedgerHash_ c) s p (proposing_ c2) (round_ c2) R2 Hid)
    as (r&->&Hr&Hp&_). cbn [mbind res_bind]. eexists. split; [done|]. cbn. rewrite Hjob, Hl1.
  split_and!; try done. split; cbn; rewrite ?Hprev, ?Hre, ?Hl1, ?Hl, ?Hjob, ?Hj; [done| |apply Hc|done|].
  - intros _. rewrite Hp. by eexists.
  - split; [by intros [? ?]|done].
Qed.

Lemma statePreClose_ok e c : lc_ok c → started c → acceptJob_ c = None → ∃ c', statePreClose e c = Ok c' ∧ lc_ok c' ∧ started c'
  ∧ (c' = c ∨ state_ c' = establish).
Proof.
  intros Hc Hst Hj. unfold statePreClose. destruct (started_ledger c Hc Hst) as (l&Hl&_). rewrite Hl. cbn [deref mbind res_bind].
  pose proof (possible_pos _ (lc_resolution _ Hc)) as Hx.
  destruct (round_time_ok (now e) _ Hx) as [t Ht]. destruct (round_time_ok (lastCloseTime_ (consensus_ c)) _ Hx) as [t' Ht'].
  rewrite Ht, Ht'.
  match goal with |- context [if ?b then Ok (l_closeTime _) else Ok t'] => destruct b end; cbn [mbind res_bind];
    (match goal with |- context [if ?b then closeLedger e c else _] => destruct b end;
     [destruct (closeLedger_ok e c Hc Hst Hj) as (c'&->&?&?&_&Hl'); exists c'; unfold started; rewrite Hl'; eauto|eauto 6]).
Qed.

Lemma acceptCloseTime_ok e l (ours : Pos) c : lc_ok c → ∃ t b, acceptCloseTime e l ours c = Ok (t, b).
Proof.
  intros Hc. unfold acceptCloseTime. destruct (replay e) as [[t f]|]; [by do 2 eexists|].
  destruct (mCloseTime ours =? 0); [by do 2 eexists|].
  pose proof (effective_total (closeResolution_ c) (l_closeTime l) (mCloseTime ours)
    (possible_pos _ (lc_resolution _ Hc))) as He.
  destruct (effectiveCloseTime _ _ _) as [u|]; [|done]. by do 2 eexists.
Qed.

(** The parts of [accept] leave our position, our set and the phase as they are. *)
Definition keeps_round (c c' : LC) : Prop :=
  keeps_phase c c' ∧ ∃ ms, round_ c' = foldr send (round_ c) ms.

Lemma foldr_send_our r ms : ourPosition_ (foldr send r ms) = ourPosition_ r ∧ ourSet_ (foldr send r ms) = ourSet_ r.
Proof. induction ms as [|m ms IH]; cbn; [done|]. exact IH. Qed.

Lemma keeps_round_ok c c' : lc_ok c → keeps_round c c' → lc_ok c'.
Proof.
  intros Hc [(Hs&Hre&Hl&Hj&Hp) [ms Hms]]. apply (frame_ok c); try done.
  - rewrite Hms, Hp. apply sent_ok, (lc_round _ Hc).
  - by rewrite Hms, (proj1 (foldr_send_our _ _)).
Qed.

Lemma accept_build_ok e (set : TxSet) c : lc_ok c → started c → is_Some (ourPosition_ (round_ c)) →
  ∃ lcl c', accept_build e set c = Ok (lcl, c') ∧ keeps_round c c'.
Proof.
  intros Hc Hst [p Hp]. destruct (started_ledger c Hc Hst) as (l&Hl&_). unfold accept_build. rewrite Hp, Hl.
  cbn [deref mbind res_bind]. destruct (acceptCloseTime_ok e l p c Hc) as (t&b&->). cbn [mbind res_bind].
  do 2 eexists. split; [done|]. set (lcl := buildLedger _ _ _ _ _ _).
  repeat (match goal with
    | |- context [validationTimestamp ?a ?b] => destruct (validationTimestamp a b) as [? ?]
    | |- context [if ?b then _ else _] => destruct b end); (split; [done|]); cbn;
    first [by eexists [AddValidation _ _ _; StatusChange _ _ _; BuildLedger _ _ _]|by eexists [StatusChange _ _ _; BuildLedger _ _ _]].
Qed.

Lemma accept_open_ok lcl c : keeps_round c (accept_open lcl c).
Proof. split; [done|]. by eexists [OpenLedger _ _]. Qed.

Lemma accept_end_ok c l : round_ok (prevLedgerHash_ c) (round_ c) → possible (closeResolution_ c) → previousLedger_ c = Some l → ledger_ok l →
  acceptJob_ c = None → lc_ok (accept_end c) ∧ started (accept_end c) ∧ state_ (accept_end c) = accepted.
Proof.
  intros Hr Hre Hl Hlok Hj. split_and!; [|unfold started, accept_end; case_match; cbn; rewrite Hl; by eexists|done].
  unfold accept_end. case_match; (split; cbn; rewrite ?Hl, ?Hj; [by repeat apply send_ok|by intros [?|?]|done..|]); (split; [by intros [? ?]|done]).
Qed.

Lemma accept_ok e (set : TxSet) c : lc_ok c → started c → is_Some (ourPosition_ (round_ c)) → acceptJob_ c = None →
  ∃ c', accept e set c = Ok c' ∧ lc_ok c' ∧ started c' ∧ state_ c' = accepted.
Proof.
  intros Hc Hst Hp Hj. destruct (started_ledger c Hc Hst) as (l&Hl&Hlok).
  destruct (accept_build_ok e set c Hc Hst Hp) as (lcl&c1&Hb&Hk). unfold accept. rewrite Hb. cbn [mbind res_bind].
  pose proof (keeps_round_ok _ _ Hc Hk) as Hc1. destruct Hk as [(_&_&Hl1&Hj1&_) _].
  pose proof (keeps_round_ok _ _ Hc1 (accept_open_ok lcl c1)) as Hc2.
  eexists. split; [done|]. apply (accept_end_ok _ l); [apply Hc2|apply Hc2|cbn; congruence|done|cbn; congruence].
Qed.

(** The next part of the job. *)
Lemma acceptLedger_ok e c : lc_ok c → acceptJob_ c ≠ None →
  ∃ c', acceptLedger e c = Ok c' ∧ lc_ok c' ∧ started c' ∧ (acceptJob_ c = Some accept_ends ∧ state_ c' = accepted
    ∨ acceptJob_ c ≠ Some accept_ends ∧ state_ c' = processing ∧ ourPosition_ (round_ c') = ourPosition_ (round_ c) ∧ ourSet_ (round_ c') = ourSet_ (round_ c)).
Proof.
  intros Hc Hj. unfold acceptLedger. assert (state_ c = processing) as Hs by (apply (lc_job _ Hc); by apply not_eq_None_Some).
  assert (started c) as Hst by (apply not_open_started; [done|congruence]).
  destruct (started_ledger c Hc Hst) as (l&Hl&Hlok).
  assert (∀ c1 j, keeps_round c c1 → lc_ok (set_job (Some j) c1) ∧ started (set_job (Some j) c1) ∧ state_ (set_job (Some j) c1) = processing
    ∧ ourPosition_ (round_ (set_job (Some j) c1)) = ourPosition_ (round_ c) ∧ ourSet_ (round_ (set_job (Some j) c1)) = ourSet_ (round_ c)) as Hkeep.
  { intros c1 j Hk. pose proof (keeps_round_ok _ _ Hc Hk) as Hc1. destruct Hk as [(Hs1&_&Hl1&_) [ms Hms]]. split_and!; cbn.
    - split; cbn; [apply Hc1..|]. rewrite Hs1, Hs. split; [done|by eexists].
    - unfold started. cbn. by rewrite Hl1.
    - by rewrite Hs1.
    - by rewrite Hms, (proj1 (foldr_send_our _ _)).
    - by rewrite Hms, (proj2 (foldr_send_our _ _)). }
  destruct (acceptJob_ c) as [[s|lcl|]|]; [| | |done].
  - destruct (accept_build_ok e s c Hc Hst) as (lcl&c1&->&Hk); [apply Hc; by right|]. cbn [mbind res_bind].
    destruct (Hkeep c1 (accept_opens lcl) Hk) as (?&?&?&?&?). eexists. split; [done|]. split_and!; try done. right. by split_and!.
  - destruct (Hkeep _ accept_ends (accept_open_ok lcl c)) as (?&?&?&?&?). eexists. split; [done|]. split_and!; try done. right. by split_and!.
  - destruct (accept_end_ok (set_job None c) l) as (?&?&?); [apply Hc..|done|done|done|]. eexists. split; [done|]. split_and!; try done. by left.
Qed.

Lemma stateEstablish_ok e c : lc_ok c → started c → state_ c = establish → ∃ c', stateEstablish e c = Ok c' ∧ lc_ok c' ∧ started c'
  ∧ (state_ c' = establish ∨ state_ c' = processing).
Proof.
  intros Hc Hst Hs. destruct (started_ledger c Hc Hst) as (l&Hl&Hlok).
  unfold stateEstablish. case_match; [eauto 6|]. pose proof (lc_position _ Hc (or_introl Hs)) as Hp.
  rewrite Hl. cbn [deref mbind res_bind].
  destruct (updateOurPositions_ok (relayable e) (effectiveCloseTime (closeResolution_ c) (l_closeTime l))
    (fun t => effective_total _ _ t (possible_pos _ (lc_resolution _ Hc))) (prevLedgerHash_ c) (now e) (closePercent_ c)
    (proposing_ c) (round_ c) (lc_round _ Hc) Hp) as (r1&have&->&H1&Hp1&_). cbn [mbind res_bind].
  destruct (haveConsensus_ok (relayable e) (prevLedgerHash_ c) (previousProposers_ c) (nodesAfter e (prevLedgerHash_ c))
    (previousRoundTime_ c) (roundTime_ c) (proposing_ c) r1 H1 Hp1) as (ret&r2&Hret&H2&(Hp2&_)&_). cbn. rewrite Hret.
  cbn [mbind res_bind]. rewrite <-Hp2 in Hp1.
  assert (acceptJob_ c = None) as Hj.
  { destruct (acceptJob_ c) eqn:E; [|done]. pose proof (proj1 (lc_job _ Hc)) as Hjob. rewrite E, Hs in Hjob. by specialize (Hjob (ex_intro _ _ eq_refl)). }
  assert (∀ c', round_ c' = r2 → prevLedgerHash_ c' = prevLedgerHash_ c → state_ c' = establish →
    closeResolution_ c' = closeResolution_ c → previousLedger_ c' = previousLedger_ c → acceptJob_ c' = None → lc_ok c' ∧ started c') as Hstay.
  { intros c' Hr' Hprev' Hs' Hre Hl' Hj'. split; [|unfold started; by rewrite Hl'].
    split; rewrite ?Hr', ?Hprev', ?Hs', ?Hre, ?Hl', ?Hl, ?Hj'; auto; [apply Hc|]. split; [by intros [? ?]|done]. }
  assert (∀ b, ∃ c', beginAccept e false (set_state processing (set_fail b (set_round r2 (set_haveCT have (set_round r1 c))))) = Ok c'
    ∧ lc_ok c' ∧ started c' ∧ (state_ c' = establish ∨ state_ c' = processing)) as Hacc.
  { intros b. unfold beginAccept. cbn. pose proof (ok_our _ _ H2) as Ho. destruct Hp1 as [p Hp1]. rewrite Hp1 in *.
    destruct (ourSet_ r2); [|done]. eexists. split; [done|]. split_and!; [|done|by right].
    split; cbn; rewrite ?Hl; [done|intros _; rewrite Hp1; by eexists|apply Hc|done|split; [done|by eexists]]. }
  destruct ret; cbn; [eexists; split; [done|]; split_and!; [by apply Hstay..|by left]|..];
    (destruct have; cbn; [apply Hacc|eexists; split; [done|]; split_and!; [by apply Hstay..|by left]]).
Qed.

(** ** Following the network and starting rounds *)

Lemma playbackProposals_ok e c : env_ok e → lc_ok c → lc_ok (playbackProposals e c).
Proof.
  intros [Hans _] Hc. apply (frame_ok c); try done; [by apply playback_ok, (lc_round _ Hc)|].
  cbn. generalize (getStoredProposals (prevLedgerHash_ c) (consensus_ c)) as ps, (round_ c) as r.
  induction ps as [|p ps IH]; intros r Hr; cbn [playback]; [done|].
  assert (ourPosition_ (peerPosition (inboundSet e) (prevLedgerHash_ c) p r).2 = ourPosition_ r) as Hp.
  { destruct (peerPosition_cases (inboundSet e) (prevLedgerHash_ c) p r) as [(_&->)|[(_&_&->)|(_&_&->)]]; [done..|].
    cbn. destruct (stored_frame (inboundSet e) p r) as (Hp&_). by case_match. }
  destruct (peerPosition (inboundSet e) (prevLedgerHash_ c) p r) as [u r1]. apply IH. cbn in Hp. by destruct u; cbn; rewrite Hp.
Qed.

Lemma clear_round_ok prev prev' r : round_ok prev r → round_ok prev' (clear_round r).
Proof. intros [P A D O]. by split. Qed.

Lemma switch_ledger_ok e h c : env_ok e → lc_ok c →
  lc_ok (switch_ledger e h c) ∧ prevLedgerHash_ (switch_ledger e h c) = h ∧ state_ (switch_ledger e h c) = state_ c
  ∧ previousLedger_ (switch_ledger e h c) = previousLedger_ c.
Proof.
  intros He Hc. unfold switch_ledger. case_decide as E; [done|].
  set (c2 := if haveCorrectLCL_ _ && _ && _ then _ else _).
  assert (prevLedgerHash_ c2 = h ∧ state_ c2 = state_ c ∧ closeResolution_ c2 = closeResolution_ c
    ∧ previousLedger_ c2 = previousLedger_ c ∧ acceptJob_ c2 = acceptJob_ c) as (Hp2&Hs2&Hre2&Hl2&Hj2)
    by (unfold c2; by case_match).
  split_and!; [|done..]. apply playbackProposals_ok; [done|].
  assert (round_ok (prevLedgerHash_ c) (round_ c2)
    ∧ (is_Some (ourPosition_ (round_ c)) → is_Some (ourPosition_ (round_ c2)))) as [R2 P2].
  { unfold c2. case_match; [|split; [apply Hc|done]]. cbn. split; [by apply leave_ok, (lc_round _ Hc)|].
    intros [p Hp]. unfold leave. rewrite Hp. case_match; cbn; [rewrite Hp|]; by eexists. }
  apply (frame_ok c); try done. cbn. rewrite Hp2. by apply (clear_round_ok (prevLedgerHash_ c)).
Qed.

Section Follow.
Context (e : Env) (He : env_ok e) (start : Hash → Ledger → Z → Z → Z → LC → res LC).
Context (Hstart : ∀ h l t pp prt c, lc_ok c → ledger_ok l → sound (start h l t pp prt c)).

Lemma handleLCL_ok h l c : lc_ok c → previousLedger_ c = Some l → h ≠ prevLedgerHash_ c ∨ l_hash l ≠ h → sound (handleLCL start e h c).
Proof.
  intros Hc Hprev Hne. unfold handleLCL. rewrite Hprev. cbn [deref mbind res_bind].
  assert (negb (bool_decide (h = prevLedgerHash_ c)) || negb (bool_decide (l_hash l = h)) = true) as ->.
  { destruct Hne; [rewrite (bool_decide_false (h = _)) by done|rewrite (bool_decide_false (_ = h)) by done];
      [done|apply orb_true_r]. }
  cbn [assert_ mbind res_bind]. destruct (switch_ledger_ok e h c He Hc) as (Hc1&Hh&_&Hl1). set (c1 := switch_ledger e h c) in *.
  assert (started c1) as Hst1 by (unfold started; rewrite Hl1, Hprev; by eexists).
  case_decide as El; [done|]. rewrite Hh in El |- *. destruct (ledgerByHash e h) as [l'|] eqn:Eb.
  - destruct (proj2 He h l' Eb) as [Hlh Hl]. rewrite bool_decide_true by done. cbn [assert_ mbind res_bind].
    apply sound_bind; [by apply Hstart|]. intros c' Hc' Hst'. split; [|done]. by apply (frame_ok c'); try done; apply Hc'.
  - case_decide; [done|]. split; [|done]. apply (frame_ok c1); try done. apply send_ok, (lc_round _ Hc1).
Qed.

Lemma checkLCL_ok c : lc_ok c → started c → sound (checkLCL start e c).
Proof.
  intros Hc Hst. destruct (started_ledger c Hc Hst) as (l&Hl&_). unfold checkLCL. rewrite Hl. cbn [deref mbind res_bind].
  case_bool_decide as E1; cbn [negb].
  - rewrite E1. case_bool_decide as E2; cbn [negb]; [done|]. apply (handleLCL_ok _ l); auto.
  - apply (handleLCL_ok _ l); [case_match; [by apply sends_ok|done]|by case_match|]. left. by case_match.
Qed.

Lemma no_job c : lc_ok c → state_ c ≠ processing → acceptJob_ c = None.
Proof. intros Hc Hs. destruct (acceptJob_ c) eqn:E; [|done]. destruct Hs. apply (lc_job _ Hc). rewrite E. by eexists. Qed.

Lemma timerEntry_with_ok c : lc_ok c → started c → sound (timerEntry_with start e c).
Proof.
  intros Hc Hst. unfold timerEntry_with. apply sound_bind.
  { destruct (state_ c); try done; by apply checkLCL_ok. }
  clear c Hc Hst. intros c Hc Hst. set (c1 := set_times _ _ c).
  assert (lc_ok c1) as Hc1 by (by apply (frame_ok c); try done; apply Hc).
  destruct (state_ c1) eqn:Es; [| |done..].
  - destruct (statePreClose_ok e c1 Hc1 Hst) as (c2&->&Hc2&Hst2&_); [apply no_job; [done|by rewrite Es]|]. cbn [mbind res_bind].
    case_decide as E2; [|done]. by destruct (stateEstablish_ok e c2 Hc2 Hst2 E2) as (c3&->&?&?&_).
  - by destruct (stateEstablish_ok e c1 Hc1 Hst Es) as (c3&->&?&?&_).
Qed.
End Follow.

Lemma next_resolution_ok l : ledger_ok l →
  ∃ x, getNextLedgerTimeResolution (l_closeTimeResolution l) (getCloseAgree l) (u32 (l_seq l + 1)) = Ok x ∧ possible x.
Proof.
  intros [Hp Hs]. destruct (next_possible (l_closeTimeResolution l) (getCloseAgree l) (u32 (l_seq l + 1)) Hp) as (x&Hx&Hpx&_).
  { unfold u32. rewrite Z.mod_small by lia. lia. }
  eauto.
Qed.

Lemma reset_round_ok e h l t pp prt x c : lc_ok c → ledger_ok l → state_ c ≠ processing → possible x →
  lc_ok (reset_round e h l t pp prt x c).
Proof.
  intros Hc Hl Es Hpx. split; cbn; [split; cbn; try done|by intros [?|?]|done..|]; rewrite ?(no_job c Hc Es).
  all: try (by intros ? ? ?); split; by intros [? ?] || done.
Qed.

Lemma startRound_ok fuel e : env_ok e → ∀ h l t pp prt c, lc_ok c → ledger_ok l → sound (startRound fuel e h l t pp prt c).
Proof.
  intros He. induction fuel as [|fuel IH]; intros h l t pp prt c Hc Hl; cbn [startRound]; [done|].
  case_decide as Es; [split; [done|apply not_open_started; [done|by rewrite Es]]|].
  destruct (next_resolution_ok l Hl) as (x&Hx&Hpx). rewrite Hx. cbn [mbind res_bind].
  set (c1 := reset_round e h l t pp prt x c).
  assert (lc_ok c1) as Hc1 by (by apply reset_round_ok). assert (started c1) as Hst1 by (by eexists). apply sound_bind.
  - destruct (haveCorrectLCL_ c1) eqn:E1; [split; [|done]; by apply (frame_ok c1); try done; apply Hc1|].
    apply (handleLCL_ok e He _ IH _ l); [by apply (frame_ok c1); try done; apply Hc1|done|]. right. cbn.
    by apply bool_decide_eq_false in E1.
  - intros c2 Hc2 Hst2. cbv zeta. pose proof (playbackProposals_ok e c2 He Hc2).
    case_match; [by apply timerEntry_with_ok|done].
Qed.

Lemma simulate_ok e d c : lc_ok c → started c → state_ c ≠ processing →
  ∃ c', simulate e d c = Ok c' ∧ lc_ok c' ∧ started c' ∧ state_ c' = accepted.
Proof.
  intros Hc Hst Hs. unfold simulate. destruct (closeLedger_ok e c Hc Hst (no_job c Hc Hs)) as (c1&->&Hc1&Hs1&Hj1&Hl1). cbn [mbind res_bind].
  set (c2 := set_times _ _ c1). unfold beginAccept. destruct (lc_position _ Hc1 (or_introl Hs1)) as [p Hp].
  pose proof (ok_our _ _ (lc_round _ Hc1)) as Ho. cbn. rewrite Hp in *. destruct (ourSet_ (round_ c1)) as [s|]; [|done].
  apply accept_ok; [by apply (frame_ok c1); try done; apply Hc1|unfold started; cbn; by rewrite Hl1|cbn; rewrite Hp; by eexists|done].
Qed.

(** ** Runs *)

Inductive Event :=
| Timer | PeerPosition (p : Pos) | GotMap (s : TxSet) | AcceptStep | StoreProposal (p : Pos)
| StartRound (h : Hash) (l : Ledger) (closeTime : Z) | Simulate (consensusDelay : option Z).

Definition step (fuel : nat) (e : Env) (ev : Event) (c : LC) : res LC :=
  match ev with
  | Timer => timerEntry fuel e c
  | PeerPosition p => Ok (lc_peerPosition e p c).2
  | GotMap s => lc_gotMap e s c
  | AcceptStep => acceptLedger e c
  | StoreProposal p => Ok (set_consensus (storeProposal p (mPeerID p) (consensus_ c)) c)
  | StartRound h l t => consensus_startRound fuel e h l t c
  | Simulate d => simulate e d c
  end.

(** What the server sees to: the first round is started before the timer is, and a round is
    simulated only in stand-alone mode, where there is no timer whose round could be pending. *)
Definition event_ok (ev : Event) (c : LC) : Prop :=
  match ev with
  | StartRound _ l _ => ledger_ok l
  | Timer => started c
  | Simulate _ => started c ∧ state_ c ≠ processing
  | _ => True
  end.

(** A call returns with the invariant, and a round that was started stays so. *)
Definition kept (c : LC) (m : res LC) : Prop :=
  match m with Ok c' => lc_ok c' ∧ (started c → started c') | Err x => x = out_of_fuel end.

Lemma sound_kept c m : sound m → kept c m.
Proof. destruct m; cbn; [intros [? ?]|]; auto. Qed.

Lemma step_sound fuel e ev c : env_ok e → event_ok ev c → lc_ok c → kept c (step fuel e ev c).
Proof.
  intros He Hev Hc. destruct ev as [|p|s| |p|h l t|d]; cbn [step].
  - apply sound_kept, timerEntry_with_ok; [done|by apply startRound_ok|done|done].
  - unfold lc_peerPosition. destruct (peerPosition _ _ _ _) as [b r] eqn:E.
    pose proof (peerPosition_ok (inboundSet e) (prevLedgerHash_ c) p (round_ c) (proj1 He) (lc_round _ Hc)) as Hr.
    rewrite E in Hr. split; [|done]. apply (frame_ok c); try done. cbn.
    destruct (peerPosition_cases (inboundSet e) (prevLedgerHash_ c) p (round_ c)) as [(_&E')|[(_&_&E')|(_&_&E')]];
      rewrite E in E'; injection E' as _ ->; [done..|].
    destruct (stored_frame (inboundSet e) p (round_ c)) as (Hp&_). cbn. by case_match; cbn; rewrite Hp.
  - unfold lc_gotMap, gotMap.
    destruct (mapCompleteInternal_ok (relayable e) (prevLedgerHash_ c) s true (round_ c) (lc_round _ Hc)) as (r&->&Hr&(Hp&_)&_).
    split; [|done]. apply (frame_ok c); try done. cbn. by rewrite Hp.
  - destruct (acceptJob_ c) as [j|] eqn:Ej; [|unfold acceptLedger; by rewrite Ej].
    destruct (acceptLedger_ok e c Hc) as (c'&->&?&?&_); [by rewrite Ej|]. by split.
  - split; [|done]. by apply (frame_ok c); try done; apply Hc.
  - by apply sound_kept, startRound_ok.
  - destruct Hev as [Hst Hs]. by destruct (simulate_ok e d c Hc Hst Hs) as (c'&->&?&?&_).
Qed.

(** States reached by calls that return, each in an environment of its own. *)
Inductive reachable (c0 : LC) : LC → Prop :=
| reach_refl : reachable c0 c0
| reach_step fuel e ev c c' : reachable c0 c → env_ok e → event_ok ev c → step fuel e ev c = Ok c' → reachable c0 c'.

Lemma reachable_ok c0 c : lc_ok c0 → reachable c0 c → lc_ok c.
Proof.
  intros H0. induction 1 as [|fuel e ev c c' _ IH He Hev Hstep]; [done|].
  pose proof (step_sound fuel e ev c He Hev IH) as Hs. rewrite Hstep in Hs. by apply Hs.
Qed.
End Object.
