(* ===== verification/ConsensusProps.v ===== *)
(** * What a consensus round guarantees

    Tallies that count every proposer, agreement of two nodes that declare consensus, and the
    nested calls of the object that return. *)

From S2P Require Import Prelude LedgerTiming Dispute Consensus ConsensusInv LedgerConsensus LedgerConsensusInv.
Local Open Scope Z_scope.

Section Props.
Context {NodeID Hash TxID Tx TxSet : Type}.
Context `{!EqDecision NodeID, !Countable NodeID, !EqDecision Hash, !Countable Hash, !EqDecision TxID, !Countable TxID}.
Context `{!TxSetOps TxID Tx TxSet Hash, !TxSetLaws TxID Tx TxSet Hash}.
Notation Pos := (LedgerProposal NodeID Hash).
Notation Round := (@Round NodeID Hash TxID Tx TxSet _ _ _ _ _ _).
Notation Peers := (gmap NodeID Pos).
Notation Ledger := (LedgerInfo Hash).
Notation LC := (@LC NodeID Hash TxID Tx TxSet _ _ _ _ _ _).
Notation Env := (@Env NodeID Hash TxID Tx TxSet).
Notation Event := (@Event NodeID Hash TxSet).
Implicit Types (r : Round) (t : TxID) (p : Pos) (k : NodeID) (ps : Peers) (h : Hash).

(** ** Counting the positions *)

(** The peers that propose the set [h]. *)
Definition supporters (h : Hash) (ps : Peers) : gset NodeID := dom (filter (fun kp => mCurrentHash kp.2 = h) ps).

Lemma elem_of_supporters h ps k : k ∈ supporters h ps ↔ ∃ p, ps !! k = Some p ∧ mCurrentHash p = h.
Proof.
  unfold supporters. rewrite elem_of_dom. split.
  - intros [p [Hp Hh]%map_lookup_filter_Some]. eauto.
  - intros (p&Hp&Hh). exists p. by apply map_lookup_filter_Some.
Qed.

Lemma size_supporters h ps :
  size (supporters h ps) = length (filter (fun kp => mCurrentHash kp.2 = h) (map_to_list ps)).
Proof.
  apply size_dom_filter.
Qed.

Lemma count_positions_spec relay our (l : list (NodeID * Pos)) : ∀ a b r a' b' r',
  (∀ k p, (k, p) ∈ l → isBowOut p = false) → count_positions relay our l a b r = Ok (a', b', r') →
  a' = a + Z.of_nat (length (filter (fun kp => mCurrentHash kp.2 = our) l)) ∧ a' + b' = a + b + Z.of_nat (length l).
Proof.
  induction l as [|[k p] l IH]; intros a b r a' b' r' Hl H; cbn [count_positions] in H.
  { injection H as <- <- <-. cbn. lia. }
  rewrite (Hl k p) in H by (by left). rewrite filter_cons. cbn [snd].
  case_decide as E; [|apply bind_ok in H as (r1&_&H)]; apply IH in H as [? ?]; cbn [length];
    try lia; intros; eapply Hl; right; eauto.
Qed.

Lemma haveConsensus_counts prev relay pp cv prt rt proposing r ours c r' :
  round_ok prev r → ourPosition_ r = Some ours →
  haveConsensus relay pp cv prt rt proposing r = Ok (c, r') →
  c = checkConsensus pp (Z.of_nat (size (peerPositions_ r)))
        (Z.of_nat (size (supporters (mCurrentHash ours) (peerPositions_ r)))) cv prt rt proposing.
Proof.
  intros Hr Ho H. unfold haveConsensus in H. rewrite Ho in H. cbn [deref mbind res_bind] in H.
  destruct (count_positions _ _ _ _ _ _) as [[[a b] r1]|] eqn:E; [|done]. cbn [mbind res_bind] in H. injection H as <- _.
  apply count_positions_spec in E as [Ha Hb]; [|by intros k p (_&_&?&_)%elem_of_map_to_list%(ok_peers _ _ Hr)].
  rewrite size_supporters. rewrite length_map_to_list in Hb. f_equal; lia.
Qed.

Lemma yes_quorum pp n a cv prt rt : 0 <= a → 0 < n → checkConsensus pp n a cv prt rt true = CS_Yes → 81 * (n + 1) <= 100 * (a + 1).
Proof.
  intros Ha Hn. unfold checkConsensus. repeat case_match; try done. intros _. by apply reached_weight.
Qed.

(** ** Agreement *)

(** What node [n] knows of the position of node [k]. *)
Definition view (n : NodeID) (r : Round) (k : NodeID) : option Hash :=
  if decide (k = n) then mCurrentHash <$> ourPosition_ r else mCurrentHash <$> peerPositions_ r !! k.

(** The nodes that, in the view of [n], propose what [n] proposes. *)
Lemma quorum_of prev n (P : gset NodeID) r ours relay pp cv prt rt r' :
  round_ok prev r → ourPosition_ r = Some ours → n ∈ P → dom (peerPositions_ r) = P ∖ {[n]} → (2 <= size P)%nat →
  haveConsensus relay pp cv prt rt true r = Ok (CS_Yes, r') →
  ∃ Q : gset NodeID, Q ⊆ P ∧ 81 * Z.of_nat (size P) <= 100 * Z.of_nat (size Q)
    ∧ ∀ k, k ∈ Q → view n r k = Some (mCurrentHash ours).
Proof.
  intros Hr Ho Hn Hdom HP H. pose proof (haveConsensus_counts prev _ _ _ _ _ _ r ours _ _ Hr Ho H) as Hc.
  symmetry in Hc. apply yes_quorum in Hc; [|lia|].
  2: { rewrite <-size_dom, Hdom, size_difference by set_solver. rewrite size_singleton. lia. }
  exists ({[n]} ∪ supporters (mCurrentHash ours) (peerPositions_ r)). split_and!.
  - intros k [->%elem_of_singleton|(p&Hp&_)%elem_of_supporters]%elem_of_union; [done|].
    apply (elem_of_dom_2 (D := gset NodeID)) in Hp. set_solver.
  - rewrite size_union, size_singleton.
    + rewrite <-size_dom, Hdom, size_difference, size_singleton in Hc by set_solver. lia.
    + apply disjoint_singleton_l. intros (p&Hp&_)%elem_of_supporters. apply (elem_of_dom_2 (D := gset NodeID)) in Hp. set_solver.
  - intros k Hk. unfold view. case_decide as E; [by rewrite Ho|].
    apply elem_of_union in Hk as [->%elem_of_singleton|(p&Hp&Hh)%elem_of_supporters]; [done|]. rewrite Hp. cbn. by rewrite Hh.
Qed.

Lemma quorums_meet (P Q1 Q2 : gset NodeID) : Q1 ⊆ P → Q2 ⊆ P →
  81 * Z.of_nat (size P) <= 100 * Z.of_nat (size Q1) → 81 * Z.of_nat (size P) <= 100 * Z.of_nat (size Q2) →
  62 * Z.of_nat (size P) <= 100 * Z.of_nat (size (Q1 ∩ Q2)).
Proof.
  intros H1 H2 S1 S2. assert (size (Q1 ∪ Q2) ≤ size P)%nat by (apply subseteq_size; set_solver).
  assert (size (Q1 ∪ Q2) = size Q1 + size (Q2 ∖ Q1))%nat by apply size_union_alt.
  assert (size Q2 = size (Q1 ∩ Q2) + size (Q2 ∖ Q1))%nat.
  { rewrite <-size_union by set_solver. f_equal. apply set_eq. intros x. destruct (decide (x ∈ Q1)); set_solver. }
  lia.
Qed.

(** C4: Two proposing nodes that hear all proposers cannot both declare consensus on
    different transaction sets: if the nodes that tell them different positions are
    fewer than 62 percent of the proposers, the two positions are the same. *)
Theorem consensus_agreement (P F : gset NodeID) a b prev1 prev2 (r1 r2 : Round) p1 p2
    relay1 relay2 pp1 pp2 cv1 cv2 prt1 prt2 rt1 rt2 r1' r2' :
  round_ok prev1 r1 → round_ok prev2 r2 → ourPosition_ r1 = Some p1 → ourPosition_ r2 = Some p2 →
  a ∈ P → b ∈ P → a ≠ b → dom (peerPositions_ r1) = P ∖ {[a]} → dom (peerPositions_ r2) = P ∖ {[b]} →
  (∀ k, k ∈ P → k ∉ F → view a r1 k = view b r2 k) → 100 * Z.of_nat (size F) < 62 * Z.of_nat (size P) →
  haveConsensus relay1 pp1 cv1 prt1 rt1 true r1 = Ok (CS_Yes, r1') →
  haveConsensus relay2 pp2 cv2 prt2 rt2 true r2 = Ok (CS_Yes, r2') →
  mCurrentHash p1 = mCurrentHash p2.
Proof.
  intros R1 R2 O1 O2 Ha Hb Hab D1 D2 Hview HF H1 H2.
  assert (2 <= size P)%nat as HP.
  { rewrite <-(size_singleton (C := gset NodeID) a) at 1. transitivity (size ({[a]} ∪ {[b]} : gset NodeID)).
    - rewrite size_union by set_solver. rewrite !size_singleton. lia.
    - apply subseteq_size. set_solver. }
  destruct (quorum_of prev1 a P r1 p1 _ _ _ _ _ _ R1 O1 Ha D1 HP H1) as (Q1&S1&N1&V1).
  destruct (quorum_of prev2 b P r2 p2 _ _ _ _ _ _ R2 O2 Hb D2 HP H2) as (Q2&S2&N2&V2).
  pose proof (quorums_meet P Q1 Q2 S1 S2 N1 N2) as Hm.
  assert (¬ Q1 ∩ Q2 ⊆ F) as Hno by (intros Hs%subseteq_size; lia).
  destruct (decide (set_Exists (fun k => k ∉ F) (Q1 ∩ Q2))) as [(k&Hk&HkF)|Hall].
  - apply elem_of_intersection in Hk as [Hk1 Hk2]. pose proof (V1 k Hk1) as E1. pose proof (V2 k Hk2) as E2.
    rewrite (Hview k) in E1 by set_solver. congruence.
  - destruct Hno. intros k Hk. destruct (decide (k ∈ F)); [done|]. destruct Hall. by exists k.
Qed.

(** Proposers that all support our position are a consensus, once the waiting times are over. *)
Lemma unanimous_consensus prev relay pp cv prt rt proposing r ours :
  round_ok prev r → ourPosition_ r = Some ours →
  (∀ k p, peerPositions_ r !! k = Some p → mCurrentHash p = mCurrentHash ours) →
  LEDGER_MIN_CONSENSUS < rt → prt + LEDGER_MIN_CONSENSUS <= rt →
  ∃ r', haveConsensus relay pp cv prt rt proposing r = Ok (CS_Yes, r').
Proof.
  intros Hr Ho Hall Hrt Hprt.
  destruct (haveConsensus_ok relay prev pp cv prt rt proposing r Hr) as (c&r'&H&_); [by rewrite Ho|].
  exists r'. rewrite H. do 2 f_equal. rewrite (haveConsensus_counts prev _ _ _ _ _ _ r ours _ _ Hr Ho H).
  assert (supporters (mCurrentHash ours) (peerPositions_ r) = dom (peerPositions_ r)) as ->.
  { apply set_eq. intros k. rewrite elem_of_supporters, elem_of_dom. split; [intros (p&Hp&_); by eexists|].
    intros [p Hp]. eauto. }
  rewrite size_dom. unfold checkConsensus. rewrite (proj2 (Z.leb_gt _ _)) by lia.
  rewrite (proj2 (Z.ltb_ge rt _)) by lia. rewrite andb_false_r, reached_all by lia. done.
Qed.

(** ** Tallies *)

(** A round tracked by the handlers, in any order; [Q] is asked of the proposals that arrive. *)
Inductive handled (Q : (Hash → option TxSet) → Pos → Round → Prop) (prev : Hash) : Round → Prop :=
| tr_start out : handled Q prev (empty_round out)
| tr_peer getSet p r : handled Q prev r → answers getSet → Q getSet p r →
    handled Q prev (peerPosition getSet prev p r).2
| tr_map relay s r r' : handled Q prev r → gotMap relay s r = Ok r' → handled Q prev r'
| tr_take relay s p proposing r r' : handled Q prev r → ourPosition_ r = None →
    takeInitialPosition relay s p proposing r = Ok r' → handled Q prev r'
| tr_update relay effective now pt proposing r r' have : handled Q prev r → is_Some (ourPosition_ r) →
    (∀ x, is_ok (effective x) = true) →
    updateOurPositions relay effective now pt proposing r = Ok (r', have) → handled Q prev r'
| tr_have relay pp cv prt rt proposing r c r' : handled Q prev r → is_Some (ourPosition_ r) →
    haveConsensus relay pp cv prt rt proposing r = Ok (c, r') → handled Q prev r'
| tr_leave now r : handled Q prev r → handled Q prev (leave now r).

(** Whatever arrives. *)
Definition anything (getSet : Hash → option TxSet) (p : Pos) (r : Round) : Prop := True.

(** No set arrives behind the back of a peer that already proposes it. *)
Definition tracks : Hash → Round → Prop := handled quiet.

Lemma handled_anything Q prev r : handled Q prev r → handled anything prev r.
Proof. induction 1; by econstructor. Qed.

Lemma handled_ok Q prev r : handled Q prev r → round_ok prev r ∧ ((∀ getSet p r, Q getSet p r → quiet getSet p r) → votes_exact r).
Proof.
  induction 1 as [out|getSet p r _ [IH X] Ha Hq|relay s r r' _ [IH X] Hg|relay s p proposing r r' _ [IH X] _ Ht
    |relay eff now pt proposing r r' have _ [IH X] Hp He Hu|relay pp cv prt rt proposing r c r' _ [IH X] Hp Hh|now r _ [IH X]].
  - by split.
  - split; [by apply peerPosition_ok|intros HQ; apply peerPosition_exact; auto].
  - destruct (mapCompleteInternal_ok relay prev s true r IH) as (r1&Hr1&?&_&X1&_). unfold gotMap in Hg. rewrite Hr1 in Hg. simplify_eq. auto.
  - assert (getID s = mCurrentHash p) as Hid
      by (unfold takeInitialPosition in Ht; inv_res; by eapply bool_decide_eq_true).
    destruct (takeInitialPosition_ok relay prev s p proposing r IH Hid) as (r1&Hr1&?&_&_&_&_&X1). rewrite Hr1 in Ht. simplify_eq. auto.
  - destruct (updateOurPositions_ok relay eff He prev now pt proposing r IH Hp) as (r1&h1&Hr1&?&_&_&_&X1).
    rewrite Hr1 in Hu. simplify_eq. auto.
  - destruct (haveConsensus_ok relay prev pp cv prt rt proposing r IH Hp) as (c1&r1&Hr1&?&_&_&X1).
    rewrite Hr1 in Hh. simplify_eq. auto.
  - destruct (leave_ok prev now r IH) as (H1&(_&_&Hpp&_)&Hd&Ha). split; [done|]. intros HQ. unfold votes_exact. rewrite Hd, Ha, Hpp. by apply X.
Qed.

Lemma tracks_ok prev r : tracks prev r → round_ok prev r ∧ votes_exact r.
Proof. intros [Hr Hx]%handled_ok. auto. Qed.

(** The proposers whose set contains a transaction, or does not. *)
Definition voters (b : bool) (t : TxID) (r : Round) : gset NodeID :=
  dom (filter (fun kp => (fun s => hasEntry s t) <$> acquired_ r !! mCurrentHash kp.2 = Some b) (peerPositions_ r)).

Lemma votes_for_size b (V : gmap NodeID bool) : votes_for b V = Z.of_nat (size (filter (fun kv => kv.2 = b) V)).
Proof.
  unfold votes_for. induction V as [|k v V Hk IH] using map_ind; [by rewrite msum_empty, map_filter_empty, map_size_empty|].
  rewrite msum_insert, IH by done. unfold ind. destruct (decide (v = b)) as [->|Hne].
  - rewrite map_filter_insert_True by done. rewrite map_size_insert_None by (apply map_lookup_filter_None; auto).
    destruct b; cbn; lia.
  - rewrite map_filter_insert_not' by (try done; intros; congruence). destruct b, v; done.
Qed.

(** C9: In a round whose sets are handed over before another peer proposes them, and
    when the sets of all proposers are known, a dispute counts exactly the proposers
    whose set has the transaction as yes and the others as no, and our vote is the
    membership in our set. *)
Theorem dispute_tallies prev r t d :
  tracks prev r → disputes_ r !! t = Some d →
  (∀ k p, peerPositions_ r !! k = Some p → is_Some (acquired_ r !! mCurrentHash p)) →
  mYays d = Z.of_nat (size (voters true t r)) ∧ mNays d = Z.of_nat (size (voters false t r))
  ∧ mYays d + mNays d = Z.of_nat (size (peerPositions_ r)) ∧ mOurVote d = in_set (ourSet_ r) t.
Proof.
  intros [Hr Hx]%tracks_ok Hd Hall. destruct (ok_disputes _ _ Hr t d Hd) as (_&[Hy Hn]&Hv&Ho).
  assert (∀ b, votes_for b (mVotes d) = Z.of_nat (size (voters b t r))) as Hcount.
  { intros b. rewrite votes_for_size. unfold voters. rewrite <-!(size_dom (D := gset NodeID)). do 2 f_equal. apply set_eq. intros k.
    rewrite !elem_of_dom. split.
    - intros [v [Hk Hb]%map_lookup_filter_Some]. cbn in Hb. subst v. destruct (Hv k) as [p Hp]; [by eexists|].
      destruct (Hall k p Hp) as [s Hs]. exists p. apply map_lookup_filter_Some. split; [done|]. cbn. rewrite Hs. cbn.
      rewrite <-(Hx t d Hd k p s Hp Hs). done.
    - intros [p [Hp Hb]%map_lookup_filter_Some]. cbn in Hb. apply fmap_Some in Hb as (s&Hs&->).
      eexists. apply map_lookup_filter_Some. split; [by apply (Hx t d Hd k p s)|done]. }
  rewrite Hy, Hn, !Hcount. split_and!; try done. unfold voters. rewrite !size_dom.
  rewrite <-(map_filter_union_complement (fun kp => (fun s => hasEntry s t) <$> acquired_ r !! mCurrentHash kp.2 = Some true) (peerPositions_ r)) at 3.
  rewrite map_size_disj_union by apply map_disjoint_filter_complement. rewrite Nat2Z.inj_add. do 3 f_equal.
  apply map_filter_ext. intros k p Hp. cbn. destruct (Hall k p Hp) as [s ->]. cbn. destruct (hasEntry s t); naive_solver.
Qed.

Lemma mapComplete_stores relay s acquired r r' : acquired_ r !! getID s = None →
  mapCompleteInternal relay s acquired r = Ok r' → acquired_ r' !! getID s = Some s.
Proof.
  intros Hn H. unfold mapCompleteInternal in H. rewrite Hn in H. apply bind_ok in H as (r1&_&H). injection H as <-.
  cbn. by rewrite lookup_insert_eq.
Qed.

(** A proposal that is accepted, with a set that is known then. *)
Lemma peerPosition_known getSet prev p r s : accepts prev p r → isBowOut p = false →
  acquired_ (stored getSet p r) !! mCurrentHash p = Some s →
  (peerPosition getSet prev p r).2 = set_disputes (voted (mPeerID p) s (disputes_ r)) (stored getSet p r).
Proof.
  intros Ha Hb Hs. destruct (peerPosition_cases getSet prev p r) as [(?&_)|[(_&?&_)|(_&_&->)]]; [done|congruence|]. cbn [snd].
  cbv zeta. rewrite Hs. by destruct (stored_frame getSet p r) as (_&_&->&_).
Qed.

(** C30: In a round without late sets so far: when a transaction set that a peer already
    proposes becomes available and another peer proposes it before it is handed over,
    the votes of the first peer on the disputes stay as they were: the second proposal
    stores the set and records the vote of its sender only, and the hand-over then finds
    the set stored and changes nothing. When the set is handed over before the second
    proposal, the first peer's vote is recorded in every dispute. *)
Theorem late_set_loses_votes prev relay getSet r s k1 p1 p2 :
  tracks prev r → answers getSet → acquired_ r !! getID s = None → getSet (getID s) = Some s →
  peerPositions_ r !! k1 = Some p1 → mCurrentHash p1 = getID s →
  accepts prev p2 r → isBowOut p2 = false → mCurrentHash p2 = getID s → mPeerID p2 ≠ k1 →
  (let r1 := (peerPosition getSet prev p2 r).2 in
   gotMap relay s r1 = Ok r1
   ∧ ∀ t d, disputes_ r !! t = Some d → ∃ d1, disputes_ r1 !! t = Some d1
       ∧ mVotes d1 !! k1 = mVotes d !! k1 ∧ mVotes d1 !! mPeerID p2 = Some (hasEntry s t))
  ∧ (∃ r2, gotMap relay s r = Ok r2 ∧ let r3 := (peerPosition getSet prev p2 r2).2 in
       ∀ t d, disputes_ r3 !! t = Some d → mVotes d !! k1 = Some (hasEntry s t)).
Proof.
  intros Ht Hans Hn Hg Hk1 Hp1 Hacc Hb Hp2 Hne. destruct (tracks_ok _ _ Ht) as [Hr Hx]. split.
  - assert (acquired_ (stored getSet p2 r) !! mCurrentHash p2 = Some s) as Hs.
    { unfold stored. destruct (isInitial p2); cbn; rewrite Hp2, Hn, Hg; cbn; by rewrite lookup_insert_eq. }
    rewrite (peerPosition_known getSet prev p2 r s Hacc Hb Hs). cbv zeta. split.
    + unfold gotMap, mapCompleteInternal. cbn [acquired_ set_disputes]. by rewrite <-Hp2, Hs.
    + intros t d Hd. exists (setVote (mPeerID p2) (hasEntry s t) d). cbn. unfold voted. rewrite map_lookup_imap, Hd. split; [done|].
      rewrite setVote_votes. split; [by rewrite lookup_insert_ne|by rewrite lookup_insert_eq].
  - destruct (mapCompleteInternal_ok relay prev s true r Hr) as (r2&Hr2&_&(_&_&Hpp&_)&_). exists r2. split; [done|]. cbv zeta.
    pose proof (mapComplete_stores relay s true r r2 Hn Hr2) as Ha2.
    assert (tracks prev (peerPosition getSet prev p2 r2).2) as Ht3.
    { apply tr_peer; [by eapply tr_map|done|]. intros Hx2. by rewrite Hp2, Ha2 in Hx2. }
    destruct (tracks_ok _ _ Ht3) as [_ Hx3]. intros t d Hd. apply (Hx3 t d Hd k1 p1 s).
    + destruct (peerPosition_cases getSet prev p2 r2) as [(_&->)|[(_&?&_)|(_&_&->)]]; [cbn; congruence|congruence|]. cbn [snd]. cbv zeta.
      destruct (stored_frame getSet p2 r2) as (_&_&_&Hps&_). case_match; cbn; rewrite Hps, lookup_insert_ne by done; congruence.
    + rewrite Hp1. destruct (peerPosition_cases getSet prev p2 r2) as [(_&->)|[(_&?&_)|(_&_&->)]]; [done|congruence|]. cbn [snd]. cbv zeta.
      assert (acquired_ (stored getSet p2 r2) !! getID s = Some s) as Hs by (unfold stored; destruct (isInitial p2); cbn; by rewrite Hp2, Ha2).
      by case_match.
Qed.
End Props.
