(* ===== verification/ConsensusCover.v ===== *)
(** * Every difference is disputed

    A dispute is created when two sets are compared, and each set is compared once.  Along a round
    this is enough: after agreement was checked, every transaction on which our set and the known
    set of a proposer differ is in dispute, whatever positions we took in between. *)

From S2P Require Import Prelude LedgerTiming Dispute Consensus ConsensusInv ConsensusProps TxSets.
Local Open Scope Z_scope.

(** Sets with the same identifier have the same transactions, and differences are complete
    (those of [RCLTxSet] are when there are no more than 65536 transactions). *)
Class TxSetExact (TxID Tx TxSet Hash : Type) `{!TxSetOps TxID Tx TxSet Hash} := {
  id_binds (s1 s2 : TxSet) (t : TxID) : getID s1 = getID s2 → hasEntry s1 t = hasEntry s2 t;
  differences_complete (s1 s2 : TxSet) (t : TxID) :
    hasEntry s1 t ≠ hasEntry s2 t → ∃ b, (t, b) ∈ getDifferences s1 s2 }.

#[export] Instance num_exact : TxSetExact N N (gset N) (gset N).
Proof.
  split; cbn; [by intros s1 s2 t ->|]. intros s1 s2 t Hne. unfold num_differences. exists (bool_decide (t ∈ s1)).
  apply elem_of_app. case_bool_decide as H1; case_bool_decide as H2; try done; [left|right];
    apply list_elem_of_fmap; exists t; (split; [done|]); apply elem_of_elements; set_solver.
Qed.

Section Cover.
Context {NodeID Hash TxID Tx TxSet : Type}.
Context `{!EqDecision NodeID, !Countable NodeID, !EqDecision Hash, !Countable Hash, !EqDecision TxID, !Countable TxID}.
Context `{!TxSetOps TxID Tx TxSet Hash, !TxSetLaws TxID Tx TxSet Hash, !TxSetExact TxID Tx TxSet Hash}.
Notation Pos := (LedgerProposal NodeID Hash).
Notation Round := (@Round NodeID Hash TxID Tx TxSet _ _ _ _ _ _).
Implicit Types (r : Round) (t : TxID) (s : TxSet) (p : Pos) (h : Hash).

(** ** The invariant *)

Definition disputed (r : Round) (t : TxID) : Prop := is_Some (disputes_ r !! t).

(** Every difference between the set and ours is disputed. *)
Definition settled (r : Round) (s : TxSet) : Prop := ∀ t, hasEntry s t ≠ in_set (ourSet_ r) t → disputed r t.

Definition bowed (r : Round) : Prop := ∃ p, ourPosition_ r = Some p ∧ isBowOut p = true.

(** Sets are compared once we have a position, and the comparison still holds.  [map] is a set
    that is marked as compared just before it is stored. *)
Record compared (map : option TxSet) (r : Round) : Prop := {
  cp_none : ourPosition_ r = None → compares_ r = ∅;
  cp_known : ∀ h, h ∈ compares_ r → is_Some (acquired_ r !! h) ∨ ∃ s, map = Some s ∧ h = getID s ∧ settled r s;
  cp_settled : ∀ h s, h ∈ compares_ r → acquired_ r !! h = Some s → settled r s }.

Record covers (r : Round) : Prop := {
  cv_ours : ∀ p, ourPosition_ r = Some p → is_Some (acquired_ r !! mCurrentHash p);
  cv_compared : compared None r }.

Definition covered (r : Round) : Prop := bowed r ∨ covers r.

(** Steps that add disputes and change our set only where there is a dispute. *)
Definition tame (r r' : Round) : Prop :=
  (∀ t, disputed r t → disputed r' t) ∧ ∀ t, in_set (ourSet_ r') t ≠ in_set (ourSet_ r) t → disputed r' t.

Lemma tame_settled r r' s : tame r r' → settled r s → settled r' s.
Proof.
  intros [Hd Ho] Hs t Ht. destruct (decide (in_set (ourSet_ r') t = in_set (ourSet_ r) t)) as [E|]; [|by apply Ho].
  apply Hd, Hs. by rewrite <-E.
Qed.

Lemma tame_frame r r' : ourSet_ r' = ourSet_ r → (∀ t, disputed r t → disputed r' t) → tame r r'.
Proof. intros E Hd. split; [done|]. intros t. by rewrite E. Qed.

(** A step that compares nothing and forgets no set. *)
Lemma compared_tame m r r' : tame r r' → compares_ r' = compares_ r → (ourPosition_ r' = None → ourPosition_ r = None) →
  (∀ h, is_Some (acquired_ r !! h) → acquired_ r' !! h = acquired_ r !! h) → compared None r → compared m r'.
Proof.
  intros Ht Hc Hp Ha [N K S]. split; rewrite ?Hc.
  - auto.
  - intros h Hh. left. destruct (K h Hh) as [Hs|(?&?&_)]; [|done]. by rewrite Ha.
  - intros h s Hh Hs. apply (tame_settled r); [done|]. destruct (K h Hh) as [Hk|(?&?&_)]; [|done].
    rewrite Ha in Hs by done. by apply (S h).
Qed.

Lemma our_set_settled r s : ourSet_ r = Some s → settled r s.
Proof. intros E t Ht. by rewrite E in Ht. Qed.

Lemma same_id_settled r s1 s2 : getID s1 = getID s2 → settled r s1 → settled r s2.
Proof. intros Hid Hs t Ht. apply Hs. by rewrite (id_binds _ _ t Hid). Qed.

(** ** Comparing sets *)

Section Relay.
Context (relay : TxID → bool).

Lemma createDisputes_settles m1 m2 r r' : createDisputes relay m1 m2 r = Ok r' →
  (∀ t, hasEntry m1 t = in_set (ourSet_ r) t) → frame r r' ∧ tame r r' ∧ settled r' m2.
Proof.
  intros H H1. destruct (createDisputes_ok relay m1 m2 r) as (r2&Hr2&(F&K&_)&Hd). rewrite Hr2 in H. injection H as <-.
  pose proof F as (_&Hs&_). split_and!; [done|apply tame_frame; [done|]; intros t Ht; unfold disputed; by rewrite K|].
  intros t Ht. rewrite Hs, <-H1 in Ht. destruct (decide (getID m1 = getID m2)) as [E|E].
  { destruct Ht. symmetry. by apply id_binds. }
  destruct (differences_complete m1 m2 t) as [b Hb]; [done|]. by apply (Hd E t b).
Qed.

(** A known set is compared with ours. *)
Lemma compared_add m m1 m2 h r r' : compared m r → ourPosition_ r ≠ None → acquired_ r !! h = Some m2 →
  (∀ t, hasEntry m1 t = in_set (ourSet_ r) t) →
  createDisputes relay m1 m2 (set_compares ({[h]} ∪ compares_ r) r) = Ok r' →
  compared m r' ∧ frame (set_compares ({[h]} ∪ compares_ r) r) r'.
Proof.
  intros [N K S] Hp Hh H1 H. destruct (createDisputes_settles _ _ _ _ H H1) as (F&T&Hs). split; [|done].
  destruct F as (Fp&_&_&Fa&_&_&Fc). split; rewrite ?Fp, ?Fa, ?Fc; cbn.
  - done.
  - intros h' [->%elem_of_singleton|Hh']%elem_of_union; [left; by rewrite Hh|].
    destruct (K h' Hh') as [?|(s&?&?&?)]; [by left|right]. exists s. split_and!; try done. by apply (tame_settled _ _ _ T).
  - intros h' s [->%elem_of_singleton|Hh']%elem_of_union Hs'; [by rewrite Hh in Hs'; injection Hs' as <-|].
    apply (tame_settled _ _ _ T). by apply (S h').
Qed.

Lemma acquire_set_tame map r : tame r (acquire_set map r).
Proof. destruct (acquire_set_frame map r) as (_&Hs&_&_&_&_&Hd). by apply tame_frame. Qed.

Lemma acquire_set_compared map r : acquired_ r !! getID map = None → compared (Some map) r → compared None (acquire_set map r).
Proof.
  intros Hnew [N K S]. destruct (acquire_set_frame map r) as (Hp&_&_&_&Ha&Hc&_). pose proof (acquire_set_tame map r) as T.
  split; rewrite ?Hp, ?Ha, ?Hc; [done|..].
  - intros h Hh. left. destruct (decide (h = getID map)) as [->|]; [rewrite lookup_insert_eq; by eexists|].
    rewrite lookup_insert_ne by done. destruct (K h Hh) as [?|(s&[= <-]&?&_)]; done.
  - intros h s Hh [[<- <-]|[_ Hs]]%lookup_insert_Some; apply (tame_settled _ _ _ T); [|by apply (S h)].
    destruct (K _ Hh) as [[s Hs]|(s&[= <-]&_&?)]; [congruence|done].
Qed.

(** [mapCompleteInternal], on a round that may already count the set as compared. *)
Lemma mapCompleteInternal_covers map acquired r r' : compared (Some map) r →
  mapCompleteInternal relay map acquired r = Ok r' →
  compared None r' ∧ (∀ h, is_Some (acquired_ r !! h) → acquired_ r' !! h = acquired_ r !! h)
  ∧ is_Some (acquired_ r' !! getID map) ∧ ourPosition_ r' = ourPosition_ r.
Proof.
  intros Hc H. unfold mapCompleteInternal in H. destruct (acquired_ r !! getID map) as [s0|] eqn:E.
  { injection H as <-. split_and!; [|done|by rewrite E|done]. destruct Hc as [N K S]. split; [done| |done].
    intros h Hh. left. destruct (K h Hh) as [?|(s&[= <-]&->&_)]; [done|by rewrite E]. }
  set (r0 := if acquired then r else send (ShareSet map) r) in H.
  apply bind_ok in H as (r1&H1&H). fold (acquire_set map r1) in H. injection H as <-.
  assert (compared (Some map) r0 ∧ acquired_ r0 = acquired_ r ∧ ourPosition_ r0 = ourPosition_ r) as (C0&A0&P0)
    by (unfold r0; by destruct acquired, Hc).
  assert (compared (Some map) r1 ∧ acquired_ r1 = acquired_ r0 ∧ ourPosition_ r1 = ourPosition_ r0) as (C1&A1&P1).
  { destruct (ourPosition_ r0) as [p|] eqn:Ep; [|by injection H1 as <-]. destruct (isBowOut p); [by injection H1 as <-|].
    case_decide; [by injection H1 as <-|]. apply bind_ok in H1 as (s&Hs%deref_ok&H1). apply bind_ok in H1 as (r2&H2&H1). injection H1 as <-.
    destruct (createDisputes_settles s map r0 r2 H2) as ((Fp&Fs&_&Fa&_&_&Fc)&T&Hm); [by rewrite Hs|].
    cbn. split_and!; [|done|by rewrite Fp]. destruct C0 as [N K S]. split; cbn; rewrite ?Fp, ?Fa, ?Fc, ?Ep; [done|..].
    - intros h [->%elem_of_singleton|Hh]%elem_of_union; [right; by exists map|].
      destruct (K h Hh) as [?|(s'&?&?&?)]; [by left|right]. exists s'. split_and!; try done. by apply (tame_settled r0 r2).
    - intros h s' [->%elem_of_singleton|Hh]%elem_of_union Hs'; [congruence|]. apply (tame_settled r0 r2); [done|]. by apply (S h). }
  destruct (acquire_set_frame map r1) as (P2&_&_&_&A2&_). split_and!; [apply acquire_set_compared; congruence|..].
  - intros h Hh. rewrite A2, lookup_insert_ne; [congruence|]. intros <-. rewrite E in Hh. by destruct Hh.
  - rewrite A2, lookup_insert_eq. by eexists.
  - congruence.
Qed.

Lemma covers_compared_some m r : covers r → compared (Some m) r.
Proof. intros [_ [N K S]]. split; [done| |done]. intros h Hh. destruct (K h Hh) as [?|(?&?&_)]; [by left|done]. Qed.

Lemma gotMap_covers map r r' : covers r → gotMap relay map r = Ok r' → covers r'.
Proof.
  intros Hc H. destruct (mapCompleteInternal_covers map true r r') as (Hc'&Ha&_&Hp); [by apply covers_compared_some|done|].
  split; [|done]. rewrite Hp. intros p Hpp. rewrite Ha; by apply (cv_ours _ Hc).
Qed.

(** ** Peers *)

Lemma peerPosition_covers getSet prev p r : covers r → covers (peerPosition getSet prev p r).2.
Proof.
  intros [Ho Hc]. destruct (peerPosition_cases getSet prev p r) as [(_&->)|[(_&_&->)|(_&_&->)]]; cbn [snd]; [done|..].
  - split; [done|]. apply (compared_tame None r); try done. apply tame_frame; [done|]. intros t. unfold disputed. cbn.
    by rewrite lookup_fmap, fmap_is_Some.
  - cbv zeta. destruct (stored_frame getSet p r) as (Fp&Fs&Fd&_&_&Fc&_).
    assert (∀ h, is_Some (acquired_ r !! h) → acquired_ (stored getSet p r) !! h = acquired_ r !! h) as Fa.
    { intros h Hh. unfold stored. destruct (isInitial p); cbn; (destruct (acquired_ r !! mCurrentHash p) eqn:Ea; [done|]);
        (destruct (getSet (mCurrentHash p)); [|done]); cbn; (rewrite lookup_insert_ne; [done|]); intros <-; rewrite Ea in Hh; by destruct Hh. }
    assert (covers (stored getSet p r)) as [So Sc].
    { split; [rewrite Fp; intros q Hq; rewrite Fa; by apply Ho|]. apply (compared_tame None r); try done; [|congruence].
      apply tame_frame; [done|]. intros t. unfold disputed. by rewrite Fd. }
    destruct (acquired_ (stored getSet p r) !! mCurrentHash p) as [s|] eqn:E; [|done]. split; [done|].
    apply (compared_tame None (stored getSet p r)); try done. apply tame_frame; [done|]. intros t. apply imap_disputes_dom.
Qed.

(** ** Our position *)

Lemma compare_initial_covers initialSet (hashes : list Hash) : ∀ r r',
  compared (Some initialSet) r → ourPosition_ r ≠ None → ourSet_ r = Some initialSet →
  compare_initial relay initialSet hashes r = Ok r' →
  compared (Some initialSet) r' ∧ ourPosition_ r' = ourPosition_ r.
Proof.
  induction hashes as [|h hashes IH]; intros r r' Hc Hp Hs H; cbn [compare_initial] in H; [by injection H as <-|].
  apply bind_ok in H as (r1&H1&H). destruct (acquired_ r !! h) as [s|] eqn:E; [|injection H1 as <-; by apply (IH r)].
  destruct (decide (h ∈ compares_ r)); [injection H1 as <-; by apply (IH r)|].
  destruct (compared_add (Some initialSet) initialSet s h r r1 Hc Hp E) as (C1&P1&S1&_); [by rewrite Hs|done|].
  cbn in P1, S1. destruct (IH r1 r') as (C2&P2); [done|congruence..|]. split; [done|congruence].
Qed.

Lemma takeInitialPosition_covers s p proposing r r' : covers r → ourPosition_ r = None →
  (∀ h s, acquired_ r !! h = Some s → getID s = h) →
  takeInitialPosition relay s p proposing r = Ok r' → covers r'.
Proof.
  intros [_ [N _ _]] Hn Hacq H. specialize (N Hn). unfold takeInitialPosition in H. rewrite bind_ok in H. destruct H as ([]&Hid&H).
  apply assert_ok, bool_decide_eq_true in Hid. apply bind_ok in H as (r1&H1&H). apply bind_ok in H as (r2&H2&H).
  apply compare_initial_covers in H1 as [C1 P1]; [|split; cbn|done|done].
  - destruct (mapCompleteInternal_covers s false r1 r2 C1 H2) as (C2&_&A2&P2). cbn in P1. rewrite P1 in P2.
    assert (covers r2) as [O2 _] by (split; [|done]; rewrite P2; intros ? [= <-]; by rewrite <-Hid).
    destruct proposing; [rewrite P2 in H|]; cbn in H; injection H as <-; [|done]. split; [done|]. by destruct C2.
  - done.
  - rewrite N. intros h Hh. right. exists s. split_and!; [done|set_solver|by apply our_set_settled].
  - rewrite N. intros h s' Hh Hs'.
    apply (same_id_settled _ s); [|by apply our_set_settled]. rewrite (Hacq _ _ Hs'). set_solver.
Qed.

(** Our set moves by the votes we change, all of them on disputed transactions. *)
Lemma move_covers s c now proposing ours r r' : covers r → ourPosition_ r = Some ours → ¬ bowed r →
  (∀ t, hasEntry s t ≠ in_set (ourSet_ r) t → disputed r t) →
  move relay s c now proposing ours r = Ok r' → covers r'.
Proof.
  intros [Ho Hc] Hp Hb Hs H. unfold move in H. pose proof (changePosition_ok s c now ours) as Hch.
  unfold changePosition in *. destruct (mProposeSeq ours =? seqLeave) eqn:El; [destruct Hb; by exists ours|].
  set (p' := mkProposal _ _ _ _ _ _) in *. set (r1 := set_our (Some p') (Some s) r) in H.
  assert (compared (Some s) r1) as C1.
  { by apply (compared_tame (Some s) r). }
  destruct (mapCompleteInternal_covers s false (if proposing then send (Propose p') r1 else r1) r') as (C'&_&A'&P').
  - destruct proposing; [|done]. by destruct C1.
  - done.
  - split; [|done]. rewrite P'. intros q Hq. assert (q = p') as -> by (destruct proposing; by injection Hq). exact A'.
Qed.

(** [updateOurPositions]: peers are dropped and votes counted, then our position may move. *)
Lemma updateOurPositions_steps prev effective now pt proposing r r' have ours :
  (∀ x, is_ok (effective x) = true) → round_ok prev r → ourPosition_ r = Some ours →
  updateOurPositions relay effective now pt proposing r = Ok (r', have) →
  ∃ r2, ourPosition_ r2 = Some ours ∧ ourSet_ r2 = ourSet_ r ∧ acquired_ r2 = acquired_ r ∧ compares_ r2 = compares_ r
    ∧ (∀ t, disputed r2 t ↔ disputed r t)
    ∧ (r' = r2 ∨ ∃ s c, (∀ t, hasEntry s t ≠ in_set (ourSet_ r2) t → disputed r2 t)
                       ∧ move relay s c now proposing ours r2 = Ok r').
Proof.
  intros He Hr Hours. rewrite updateOurPositions_unfold.
  destruct (drop_stale_ok effective He prev (u32 (now - PROPOSE_FRESHNESS)) (map_to_list (peerPositions_ r)) r []) as
    (r1&times&->&H1&Hp1&Hs1&Ha1&Hc1&Hd1&_&_&Hdom1); [done|by intros k p Hkp%elem_of_map_to_list; apply (ok_peers _ _ Hr)|].
  cbn [mbind res_bind]. pose proof (ok_our _ _ H1) as Ho1. rewrite Hp1, Hours in Ho1. destruct (ourSet_ r1) as [s1|] eqn:Es1; [|done].
  destruct (update_votes_ok pt proposing (Some s1) (map_to_list (disputes_ r1)) r1 None) as
    (r2&changed&->&Hr2&_&_&_&Hdom2&Hdiff); [by eexists|apply NoDup_fst_map_to_list|by intros t d ?%elem_of_map_to_list| |].
  { intros t d Hd. rewrite <-Es1. by apply (ok_disputes _ _ H1). }
  assert (ourPosition_ r2 = Some ours ∧ ourSet_ r2 = Some s1 ∧ acquired_ r2 = acquired_ r ∧ compares_ r2 = compares_ r)
    as (P2&S2&A2&C2) by (rewrite Hr2; cbn; split_and!; congruence).
  cbn [mbind res_bind]. rewrite P2, S2. cbn [deref mbind res_bind].
  destruct (closeTime_position_ok effective He pt proposing ours (Z.of_nat (size (peerPositions_ r2))) times) as (c&hv&->).
  cbn [mbind res_bind]. intros H. exists r2. split_and!; [done|congruence|done|done|by intros t; unfold disputed; rewrite Hdom2, Hdom1|].
  assert (∀ s, current changed (Some s1) = Some s → ∀ t, hasEntry s t ≠ in_set (ourSet_ r2) t → disputed r2 t) as Hmove.
  { intros s Hs t Ht. apply Hdom2, Hdiff. rewrite Hs. cbn. by rewrite S2 in Ht. }
  destruct changed as [s|]; cbn [mbind res_bind] in H; [|destruct (negb _ || _); cbn [mbind res_bind] in H; [|left; by injection H]];
    apply bind_ok in H as (r3&H3&H); injection H as <- _; right; eauto.
Qed.

Lemma updateOurPositions_covers prev effective now pt proposing r r' have :
  (∀ x, is_ok (effective x) = true) → round_ok prev r → is_Some (ourPosition_ r) → covers r → ¬ bowed r →
  updateOurPositions relay effective now pt proposing r = Ok (r', have) → covers r'.
Proof.
  intros He Hr [ours Hours] [Ho Hc] Hb H.
  destruct (updateOurPositions_steps _ _ _ _ _ _ _ _ _ He Hr Hours H) as (r2&P2&S2&A2&C2&D2&Hor).
  assert (covers r2) as Hc2.
  { split; [rewrite P2, A2, <-Hours; done|]. apply (compared_tame None r); try done; [|congruence|by rewrite A2].
    apply tame_frame; [congruence|]. intros t. by rewrite D2. }
  destruct Hor as [->|(s&c&Hs&Hm)]; [done|]. apply (move_covers s c now proposing ours r2); try done.
  intros (q&Hq&Hbq). apply Hb. exists q. split; [congruence|done].
Qed.

Lemma updateOurPositions_bowed prev effective now pt proposing r r' have :
  (∀ x, is_ok (effective x) = true) → round_ok prev r → bowed r →
  updateOurPositions relay effective now pt proposing r = Ok (r', have) → bowed r'.
Proof.
  intros He Hr (ours&Hours&Hb) H.
  destruct (updateOurPositions_steps _ _ _ _ _ _ _ _ _ He Hr Hours H) as (r2&P2&_&_&_&_&[->|(s&c&_&Hm)]); [by exists ours|].
  unfold move, changePosition in Hm. unfold isBowOut in Hb. rewrite Hb in Hm. injection Hm as <-. by exists ours.
Qed.

(** ** Looking for consensus *)

Lemma count_positions_covers our (ps : list (NodeID * Pos)) s0 : ∀ a b r a' b' r',
  compared None r → ourPosition_ r ≠ None → acquired_ r !! our = Some s0 → (∀ t, hasEntry s0 t = in_set (ourSet_ r) t) →
  count_positions relay our ps a b r = Ok (a', b', r') →
  compared None r' ∧ ourPosition_ r' = ourPosition_ r ∧ acquired_ r' = acquired_ r ∧ ourSet_ r' = ourSet_ r
  ∧ compares_ r ⊆ compares_ r'
  ∧ ∀ k p, (k, p) ∈ ps → isBowOut p = false → mCurrentHash p ≠ our → is_Some (acquired_ r !! mCurrentHash p) →
      mCurrentHash p ∈ compares_ r'.
Proof.
  induction ps as [|[k p] ps IH]; intros a b r a' b' r' Hc Hp Ha Hs H; cbn [count_positions] in H.
  { injection H as <- <- <-. split_and!; try done. by intros ? ? ?%elem_of_nil. }
  assert (∃ a1 b1 r1, count_positions relay our ps a1 b1 r1 = Ok (a', b', r') ∧ compared None r1
    ∧ ourPosition_ r1 = ourPosition_ r ∧ acquired_ r1 = acquired_ r ∧ ourSet_ r1 = ourSet_ r ∧ compares_ r ⊆ compares_ r1
    ∧ (isBowOut p = false → mCurrentHash p ≠ our → is_Some (acquired_ r !! mCurrentHash p) → mCurrentHash p ∈ compares_ r1))
    as (a1&b1&r1&H1&C1&P1&A1&S1&Sub1&In1).
  { destruct (isBowOut p); [exists a, b, r; by split_and!|]. case_decide as E1; [exists (a + 1), b, r; by split_and!|].
    apply bind_ok in H as (r1&H1&H). exists a, (b + 1), r1. split; [done|].
    case_decide as E2; [injection H1 as <-; by split_and!|]. rewrite Ha in H1.
    destruct (acquired_ r !! mCurrentHash p) as [s|] eqn:Es; [|injection H1 as <-; split_and!; try done; by intros _ _ []].
    destruct (compared_add None s0 s _ r r1 Hc Hp Es Hs H1) as (C1&F1&F2&_&F4&_&_&F7).
    rewrite F1, F2, F4, F7. cbn. split_and!; try done; set_solver. }
  destruct (IH a1 b1 r1 a' b' r') as (C'&P'&A'&S'&Sub'&In'); [done|congruence..|by rewrite S1|done|].
  split_and!; [done|congruence..|by etrans|]. intros k' p' [[= -> ->]|Hin]%elem_of_cons Hb Hne Hk; [apply Sub', In1; done|].
  apply (In' k' p' Hin Hb Hne). by rewrite A1.
Qed.

Lemma haveConsensus_covers prev pp cv prt rt proposing r c r' : round_ok prev r → covers r → ¬ bowed r → is_Some (ourPosition_ r) →
  haveConsensus relay pp cv prt rt proposing r = Ok (c, r') →
  covers r' ∧ ∀ k p s, peerPositions_ r !! k = Some p → acquired_ r !! mCurrentHash p = Some s → settled r' s.
Proof.
  intros Hr [Ho Hc] Hb [ours Hours] H. unfold haveConsensus in H. rewrite Hours in H. cbn [deref mbind res_bind] in H.
  apply bind_ok in H as ([[a b] r1]&H1&H). injection H as <- <-.
  destruct (Ho _ Hours) as [s0 Hs0]. pose proof (ok_our _ _ Hr) as Hour. rewrite Hours in Hour.
  destruct (ourSet_ r) as [s1|] eqn:Es1; [|done].
  assert (isBowOut ours = false) as Hbo by (destruct (isBowOut ours) eqn:E; [destruct Hb; by exists ours|done]).
  assert (getID s0 = getID s1) as Hid by (rewrite (ok_acquired _ _ Hr _ _ Hs0); symmetry; by apply Hour).
  destruct (count_positions_covers (mCurrentHash ours) (map_to_list (peerPositions_ r)) s0 0 0 r a b r1) as (C1&P1&A1&S1&_&In1);
    [done|congruence|done|rewrite Es1; intros t; by apply id_binds|done|].
  split; [split; [rewrite P1, A1; done|done]|]. intros k p s Hk Hs.
  destruct (decide (mCurrentHash p = mCurrentHash ours)) as [E|E].
  - apply (same_id_settled _ s1); [|apply our_set_settled; congruence]. rewrite <-Hid. f_equal. congruence.
  - apply (cp_settled _ _ C1 (mCurrentHash p)); [|congruence]. apply (In1 k p); [by apply elem_of_map_to_list|
      by apply (ok_peers _ _ Hr k p Hk)|done|by eexists].
Qed.
End Relay.

(** ** Along a round *)

(** A position that bowed out stays so. *)
Lemma bowed_dec r : bowed r ∨ ¬ bowed r.
Proof.
  unfold bowed. destruct (ourPosition_ r) as [p|]; [|right; by intros (?&?&_)].
  destruct (isBowOut p) eqn:E; [left; by exists p|right; intros (?&[= <-]&?); congruence].
Qed.

Lemma peerPosition_our getSet prev p r : ourPosition_ (peerPosition getSet prev p r).2 = ourPosition_ r.
Proof.
  destruct (peerPosition_cases getSet prev p r) as [(_&->)|[(_&_&->)|(_&_&->)]]; cbn [snd]; [done..|].
  destruct (stored_frame getSet p r) as (Hp&_). cbv zeta. by case_match.
Qed.

Lemma handled_covered Q prev r : handled Q prev r → covered r.
Proof.
  assert (∀ r r', ourPosition_ r' = ourPosition_ r → (covers r → covers r') → covered r → covered r') as Hstep.
  { intros r1 r2 Hp Hc [(p&?&?)|?]; [left; exists p; by rewrite Hp|right; auto]. }
  induction 1 as [out|getSet p r Ht IH Ha Hq|relay s r r' Ht IH Hg|relay s p proposing r r' Ht IH Hn Hk
    |relay eff now pt proposing r r' have Ht IH Hp He Hu|relay pp cv prt rt proposing r c r' Ht IH Hp Hh|now r Ht IH];
    try (pose proof (handled_ok _ _ _ Ht) as [Hr _]).
  - right. split; [done|]. split; [done|set_solver..].
  - revert IH. apply Hstep; [apply peerPosition_our|apply peerPosition_covers].
  - revert IH. apply Hstep; [|intros; by eapply gotMap_covers].
    destruct (mapCompleteInternal_ok relay prev s true r Hr) as (r1&Hr1&_&(Hp&_)&_). unfold gotMap in Hg. congruence.
  - destruct IH as [(q&Hq&_)|IH]; [congruence|right]. eapply takeInitialPosition_covers; [done..| |done]. apply (ok_acquired _ _ Hr).
  - destruct IH as [Hb|IH]; [left; by eapply updateOurPositions_bowed|]. destruct (bowed_dec r); [left; by eapply updateOurPositions_bowed|].
    right. by eapply updateOurPositions_covers.
  - destruct (haveConsensus_ok relay prev pp cv prt rt proposing r Hr Hp) as (c1&r1&Hr1&_&(Ho&_)&_). rewrite Hr1 in Hh. simplify_eq.
    destruct (bowed_dec r) as [(q&?&?)|Hb]; [left; exists q; by rewrite Ho|]. destruct IH as [?|IH]; [done|right].
    by eapply haveConsensus_covers.
  - unfold leave. destruct (ourPosition_ r) as [p|] eqn:Ep; [|done]. destruct (isBowOut p) eqn:Eb; [done|]. left.
    eexists. split; [done|]. unfold bowOut. by rewrite Eb.
Qed.

(** C10: Whatever proposals and sets arrived and however our position moved before in
    the round, if we have not bowed out, once agreement has been counted every
    transaction that is in our set and not in the known set of a proposer, or the other
    way round, is in dispute and our vote is the membership in our set; the vote of that
    proposer is the membership in its set, unless some set became available between two
    proposals for it. The differences of two sets are taken to be complete, which they
    are up to 65536. *)
Theorem disputes_complete prev relay pp cv prt rt proposing r c r' ours s k p sp t :
  handled anything prev r → ourPosition_ r = Some ours → isBowOut ours = false →
  haveConsensus relay pp cv prt rt proposing r = Ok (c, r') →
  ourSet_ r' = Some s → peerPositions_ r' !! k = Some p → acquired_ r' !! mCurrentHash p = Some sp →
  hasEntry sp t ≠ hasEntry s t →
  ∃ d, disputes_ r' !! t = Some d ∧ mOurVote d = hasEntry s t ∧ (tracks prev r → mVotes d !! k = Some (hasEntry sp t)).
Proof.
  intros Ht Hp Hb H Hs Hk Hsp Hne. destruct (handled_ok _ _ _ Ht) as [Hr _].
  destruct (haveConsensus_ok relay prev pp cv prt rt proposing r Hr) as (c1&r1&Hr1&Hr'&(_&_&Hpp&_)&Ha&_); [by eexists|].
  rewrite Hr1 in H. simplify_eq.
  assert (¬ bowed r) as Hnb by (intros (q&Hq&Hbq); congruence). destruct (handled_covered _ _ _ Ht) as [?|Hc]; [done|].
  destruct (haveConsensus_covers relay prev pp cv prt rt proposing r c r' Hr Hc Hnb) as [_ Hsettled]; [by eexists|done|].
  destruct (Hsettled k p sp) with t as [d Hd]; [congruence..|by rewrite Hs|].
  exists d. split; [done|]. destruct (ok_disputes _ _ Hr' t d Hd) as (_&_&_&->). split; [by rewrite Hs|]. intros Hq.
  assert (tracks prev r') as Hq' by (eapply tr_have; [done|by eexists|done]). destruct (tracks_ok _ _ Hq') as [_ Hx'].
  by apply (Hx' t d Hd k p).
Qed.
End Cover.
