(* ===== verification/ConsensusRun.v ===== *)
(** * Runs of the consensus object

    The invariant along every run, the phases of a round, what entering the last phase means, the
    close time that is picked, and the return of the nested calls. *)

From S2P Require Import Prelude LedgerTiming Dispute Consensus ConsensusInv LedgerConsensus LedgerConsensusInv ConsensusProps.
Local Open Scope Z_scope.

Section Run.
Context {NodeID Hash TxID Tx TxSet : Type}.
Context `{!EqDecision NodeID, !Countable NodeID, !EqDecision Hash, !Countable Hash, !EqDecision TxID, !Countable TxID}.
Context `{!TxSetOps TxID Tx TxSet Hash, !TxSetLaws TxID Tx TxSet Hash}.
Notation Pos := (LedgerProposal NodeID Hash).
Notation Round := (@Round NodeID Hash TxID Tx TxSet _ _ _ _ _ _).
Notation Ledger := (LedgerInfo Hash).
Notation LC := (@LC NodeID Hash TxID Tx TxSet _ _ _ _ _ _).
Notation Env := (@Env NodeID Hash TxID Tx TxSet).
Notation Event := (@Event NodeID Hash TxSet).
Implicit Types (c : LC) (e : Env) (ev : Event) (r : Round) (l : Ledger) (h : Hash) (k : NodeID).

(** The constructor: there is no previous ledger, its hash is the default one, and [proposing_],
    [validating_] and [haveCorrectLCL_] are not initialized. *)
Definition LC_init (zero : Hash) (keys proposing validating haveCorrectLCL : bool) : LC :=
  mkLC (empty_round []) open 0 zero zero None keys proposing validating haveCorrectLCL false 0 0 30 false 0 0 0 ConsensusImp_init None.

Lemma LC_init_ok zero keys b1 b2 b3 : lc_ok (LC_init zero keys b1 b2 b3).
Proof. split; cbn; [by split|by intros [?|?]|by right; right; left|done|]. split; [by intros [? ?]|done]. Qed.

(** A new object: what is not initialized is arbitrary. *)
Definition born (c0 : LC) : Prop := ∃ zero keys b1 b2 b3, c0 = LC_init zero keys b1 b2 b3.

Lemma born_ok c0 c : born c0 → reachable c0 c → lc_ok c.
Proof. intros (zero&keys&b1&b2&b3&->). apply reachable_ok, LC_init_ok. Qed.

(** Without a round the timer dereferences the null pointer. *)
Lemma timer_before_round fuel e c0 : born c0 → step fuel e Timer c0 = Err undefined.
Proof. by intros (zero&keys&b1&b2&b3&->). Qed.

(** A call that fails no assertion and dereferences nothing invalid. *)
Definition no_failure (m : res LC) : Prop := match m with Ok _ => True | Err x => x = out_of_fuel end.

(** C2: From the constructed object, whose previous ledger is null and three of whose
    flags are uninitialized, in every state it can reach by timers, proposals,
    transaction sets, steps of the accept job, starts of rounds and simulations (the
    timer only after the first round was started, simulations only then and not while a
    round is being processed), the next such call returns without a failed assertion, a
    null dereference or an abort, or the bound on its nested calls was too small; the
    counters of every dispute are the numbers of yes and no votes recorded, only current
    proposers have votes, our vote says whether the transaction is in our set, the
    proposals kept are on our previous ledger and of nodes that have not bowed out, and
    while establishing or processing we hold a position and (when we have not bowed out)
    its set. Sets and ledgers are taken to be found under their hashes, and ledgers to
    have a possible close time resolution and a 32-bit sequence number that is not the
    largest. *)
Theorem consensus_invariant c0 c fuel e ev :
  born c0 → reachable c0 c → env_ok e → event_ok ev c →
  no_failure (step fuel e ev c)
  ∧ (∀ t d, disputes_ (round_ c) !! t = Some d →
       mYays d = votes_for true (mVotes d) ∧ mNays d = votes_for false (mVotes d)
       ∧ (∀ k, is_Some (mVotes d !! k) → is_Some (peerPositions_ (round_ c) !! k))
       ∧ mOurVote d = in_set (ourSet_ (round_ c)) t)
  ∧ (∀ k p, peerPositions_ (round_ c) !! k = Some p →
       mPreviousLedger p = prevLedgerHash_ c ∧ isBowOut p = false ∧ k ∉ deadNodes_ (round_ c))
  ∧ (state_ c = establish ∨ state_ c = processing → ∃ p s, ourPosition_ (round_ c) = Some p ∧ ourSet_ (round_ c) = Some s
       ∧ (isBowOut p = false → getID s = mCurrentHash p)).
Proof.
  intros H0 Hreach He Hev. pose proof (born_ok _ _ H0 Hreach) as Hc.
  split; [pose proof (step_sound fuel e ev c He Hev Hc); by destruct (step fuel e ev c)|].
  pose proof (lc_round _ Hc) as Hr. split_and!.
  - intros t d Hd. destruct (ok_disputes _ _ Hr t d Hd) as (_&[? ?]&?&?). auto.
  - intros k p Hp. by destruct (ok_peers _ _ Hr k p Hp) as (_&?&?&?).
  - intros Hs. pose proof (ok_our _ _ Hr) as Ho. destruct (lc_position _ Hc Hs) as [p Hp]. rewrite Hp in Ho.
    destruct (ourSet_ (round_ c)) as [s|] eqn:Es; [|done]. eauto.
Qed.

(** ** Phases *)

Definition not_accepted (m : res LC) : Prop := match m with Ok c => state_ c ≠ accepted | Err _ => True end.

Lemma not_accepted_bind (m : res LC) (f : LC → res LC) :
  not_accepted m → (∀ c, m = Ok c → state_ c ≠ accepted → not_accepted (f c)) → not_accepted (m ≫= f).
Proof. destruct m; cbn; auto. Qed.

Lemma handleLCL_phase (start : Hash → Ledger → Z → Z → Z → LC → res LC) e h c :
  (∀ h l t pp prt c, not_accepted (start h l t pp prt c)) → state_ c ≠ accepted → not_accepted (handleLCL start e h c).
Proof.
  intros Hst Hc. unfold handleLCL. destruct (previousLedger_ c) as [prev|]; [cbn [deref mbind res_bind]|done].
  destruct (assert_ _); [cbn [mbind res_bind]|done]. set (c1 := switch_ledger e h c).
  assert (state_ c1 = state_ c) as Hc1 by (unfold c1, switch_ledger; repeat case_match; done).
  case_decide; cbn; [by rewrite Hc1|]. destruct (ledgerByHash e _) as [l|].
  - destruct (assert_ _); [cbn [mbind res_bind]|done]. apply not_accepted_bind; [apply Hst|]. by intros c' _ ?.
  - case_decide; cbn; by rewrite Hc1.
Qed.

Lemma checkLCL_phase (start : Hash → Ledger → Z → Z → Z → LC → res LC) e c :
  (∀ h l t pp prt c, not_accepted (start h l t pp prt c)) → state_ c ≠ accepted → not_accepted (checkLCL start e c).
Proof.
  intros Hst Hc. unfold checkLCL. destruct (previousLedger_ c); [cbn [deref mbind res_bind]|done]. repeat case_match; try done; apply handleLCL_phase; done.
Qed.

Lemma takes_establish e c c' : closeLedger e c = Ok c' →
  state_ c' = establish ∧ consensusStartTime_ c' = steady e ∧ roundTime_ c' = roundTime_ c.
Proof.
  unfold closeLedger. intros H. apply bind_ok in H as (c1&H1&H). apply bind_ok in H as (prev&_&H).
  assert (roundTime_ c1 = roundTime_ c) as Hrt.
  { unfold checkOurValidation in H1. destruct (_ || _); [by injection H1 as <-|]. apply bind_ok in H1 as (p&_&H1).
    match type of H1 with (if ?b then _ else _) = _ => destruct b end; [by injection H1 as <-|].
    destruct (validationTimestamp _ _). by injection H1 as <-. }
  destruct (makeInitialPosition _ _ _). inv_res. done.
Qed.

Lemma statePreClose_phase e c c' : statePreClose e c = Ok c' →
  c' = c ∨ state_ c' = establish ∧ consensusStartTime_ c' = steady e ∧ roundTime_ c' = roundTime_ c.
Proof.
  unfold statePreClose. intros H. apply bind_ok in H as (prev&_&H). apply bind_ok in H as (t&_&H). apply bind_ok in H as (u&_&H).
  case_match; [right; by apply takes_establish|]. inv_res. by left.
Qed.

Lemma stateEstablish_phase e c c' : stateEstablish e c = Ok c' → state_ c' = state_ c ∨ state_ c' = processing.
Proof.
  unfold stateEstablish. intros H. destruct (roundTime_ c <? _); [inv_res; by left|].
  apply bind_ok in H as (prev&_&H). apply bind_ok in H as ([r have]&_&H).
  apply bind_ok in H as ([ret r2]&_&H). destruct ret; [inv_res; by left|..];
    (destruct (negb _); [inv_res; by left|]; unfold beginAccept in H; cbn in H; repeat case_match; try done; inv_res; by right).
Qed.

Lemma timerEntry_phase (start : Hash → Ledger → Z → Z → Z → LC → res LC) e c :
  (∀ h l t pp prt c, not_accepted (start h l t pp prt c)) → state_ c ≠ accepted → not_accepted (timerEntry_with start e c).
Proof.
  intros Hst Hc. unfold timerEntry_with. apply not_accepted_bind.
  { destruct (state_ c) eqn:E; try done; [..|cbn; by rewrite E]; by apply checkLCL_phase; rewrite ?E. }
  intros c1 _ Hc1. cbv zeta. cbn [state_ set_times]. destruct (state_ c1) eqn:Es1; try done; [..|cbn; by rewrite Es1].
  - destruct (statePreClose _ _) as [c2|] eqn:E2; [cbn [mbind res_bind]|done]. apply statePreClose_phase in E2. cbn in E2.
    case_decide as Es; [|cbn; intros Hx; destruct E2 as [->|[E2 _]]; [cbn in Hx; by rewrite Es1 in Hx|congruence]].
    destruct (stateEstablish e c2) as [c3|] eqn:E3; [|done]. apply stateEstablish_phase in E3. cbn. rewrite Es in E3.
    by destruct E3 as [-> | ->].
  - destruct (stateEstablish _ _) as [c3|] eqn:E3; [|done]. apply stateEstablish_phase in E3. cbn in E3 |- *. rewrite Es1 in E3.
    by destruct E3 as [-> | ->].
Qed.

Lemma startRound_phase fuel e : ∀ h l t pp prt c, not_accepted (startRound fuel e h l t pp prt c).
Proof.
  induction fuel as [|fuel IH]; intros h l t pp prt c; cbn [startRound]; [done|]. case_decide as Es; [cbn; by rewrite Es|].
  destruct (getNextLedgerTimeResolution _ _ _) as [x|]; [cbn [mbind res_bind]|done]. apply not_accepted_bind.
  - destruct (haveCorrectLCL_ _); [done|]. by apply handleLCL_phase.
  - intros c2 _ Hc2. cbv zeta. case_match; [by apply timerEntry_phase|done].
Qed.

(** C23: From the constructed object, in every reachable state: a round that is being
    processed is left only by the last of the three parts of its accept job, and until
    then our position and our set stay as they are and only the parts of the job change
    the job; the accepted phase is entered only by that part, or by simulate (which runs
    the job at once and is called when no round is being processed), and left only by
    starting a round. Sets and ledgers are taken to be found under their hashes, and
    ledgers to have a possible close time resolution and a 32-bit sequence number that
    is not the largest. *)
Theorem phase_discipline c0 c fuel e ev c' :
  born c0 → reachable c0 c → env_ok e → event_ok ev c → step fuel e ev c = Ok c' →
  (state_ c = processing →
     ev = AcceptStep ∧ acceptJob_ c = Some accept_ends ∧ state_ c' = accepted
     ∨ state_ c' = processing ∧ ourPosition_ (round_ c') = ourPosition_ (round_ c)
       ∧ ourSet_ (round_ c') = ourSet_ (round_ c) ∧ (ev = AcceptStep ∨ acceptJob_ c' = acceptJob_ c))
  ∧ (state_ c' = accepted → state_ c = accepted ∨ (∃ d, ev = Simulate d)
       ∨ state_ c = processing ∧ ev = AcceptStep ∧ acceptJob_ c = Some accept_ends)
  ∧ (state_ c = accepted → state_ c' = accepted ∨ ∃ h l t, ev = StartRound h l t).
Proof.
  intros H0 Hreach He Hev Hstep. pose proof (born_ok _ _ H0 Hreach) as Hc.
  destruct ev as [|p|s| |p|h' l' t|d]; cbn [step] in Hstep.
  - assert (state_ c ≠ accepted → state_ c' ≠ accepted) as Hna.
    { intros Hne. pose proof (timerEntry_phase (startRound fuel e) e c (startRound_phase fuel e) Hne) as Hx.
      unfold timerEntry in Hstep. by rewrite Hstep in Hx. }
    unfold timerEntry, timerEntry_with in Hstep. destruct (state_ c) eqn:Es; split_and!; intros; try done; auto.
    + by destruct Hna.
    + by destruct Hna.
    + right. cbn [mbind res_bind] in Hstep. cbn [state_ set_times] in Hstep. rewrite Es in Hstep. injection Hstep as <-. cbn. auto.
    + by destruct Hna.
    + left. cbn [mbind res_bind] in Hstep. cbn [state_ set_times] in Hstep. rewrite Es in Hstep. by injection Hstep as <-.
  - injection Hstep as <-. unfold lc_peerPosition.
    destruct (peerPosition (inboundSet e) (prevLedgerHash_ c) p (round_ c)) as [b r] eqn:E. cbn.
    split_and!; intros Hs; auto. right. split; [done|].
    destruct (peerPosition_cases (inboundSet e) (prevLedgerHash_ c) p (round_ c)) as [(_&E')|[(_&_&E')|(_&_&E')]];
      rewrite E in E'; injection E' as _ ->; [auto..|].
    destruct (stored_frame (inboundSet e) p (round_ c)) as (Hp&Hs'&_). cbn. case_match; cbn; rewrite Hp, Hs'; auto.
  - unfold lc_gotMap, gotMap in Hstep.
    destruct (mapCompleteInternal_ok (relayable e) (prevLedgerHash_ c) s true (round_ c) (lc_round _ Hc)) as (r&Hr&_&(Hp&Hs'&_)&_).
    rewrite Hr in Hstep. injection Hstep as <-. cbn. split_and!; intros Hs; auto 6.
  - destruct (acceptJob_ c) as [j|] eqn:Ej; [|unfold acceptLedger in Hstep; rewrite Ej in Hstep; injection Hstep as <-; split_and!; intros; auto 6].
    assert (state_ c = processing) as Hs by (apply (lc_job _ Hc); rewrite Ej; by eexists).
    destruct (acceptLedger_ok e c Hc) as (c2&Hc2&_&_&Hcase); [by rewrite Ej|]. rewrite Hc2 in Hstep. injection Hstep as <-. rewrite Ej in Hcase.
    destruct Hcase as [[Hj Ha]|(Hj&Hp&Hpos&Hset)]; split_and!; intros; try congruence; auto 8.
  - injection Hstep as <-. cbn. split_and!; intros; auto 6.
  - unfold consensus_startRound in Hstep. split_and!; intros Hs; eauto.
    + right. destruct fuel; [done|]. cbn [startRound] in Hstep. rewrite decide_True in Hstep by done. injection Hstep as <-. auto.
    + pose proof (startRound_phase fuel e h' l' t (lastCloseProposers_ (consensus_ c)) (lastCloseConvergeTook_ (consensus_ c)) c) as Hx.
      by rewrite Hstep in Hx.
  - destruct Hev as [Hst Hs]. destruct (simulate_ok e d c Hc Hst Hs) as (c2&Hc2&_&_&Ha). rewrite Hc2 in Hstep. injection Hstep as <-.
    split_and!; intros; try done; eauto.
Qed.

(** ** Entering the last phase *)

(** What holds of a round that has just been declared complete. *)
Definition agreed (c : LC) : Prop :=
  ∃ p s, ourPosition_ (round_ c) = Some p ∧ acceptJob_ c = Some (accept_set s) ∧ (isBowOut p = false → getID s = mCurrentHash p)
    ∧ LEDGER_MIN_CONSENSUS < roundTime_ c ∧ haveCloseTimeConsensus_ c = true
    ∧ (consensusFail_ c = false → proposing_ c = true → peerPositions_ (round_ c) ≠ ∅ →
       81 * (Z.of_nat (size (peerPositions_ (round_ c))) + 1)
       <= 100 * (Z.of_nat (size (supporters (mCurrentHash p) (peerPositions_ (round_ c)))) + 1)).

Lemma establish_agreed e c c' : lc_ok c → started c → state_ c = establish → stateEstablish e c = Ok c' → state_ c' = processing → agreed c'.
Proof.
  intros Hc Hst Hs H Hs'. destruct (started_ledger c Hc Hst) as (l&Hl&_).
  unfold stateEstablish in H. destruct (roundTime_ c <? LEDGER_MIN_CONSENSUS) eqn:Ert; [inv_res; congruence|].
  rewrite Hl in H. cbn [deref mbind res_bind] in H.
  destruct (updateOurPositions_ok (relayable e) (effectiveCloseTime (closeResolution_ c) (l_closeTime l))
    (fun t => effective_total _ _ t (possible_pos _ (lc_resolution _ Hc))) (prevLedgerHash_ c) (now e) (closePercent_ c)
    (proposing_ c) (round_ c) (lc_round _ Hc) (lc_position _ Hc (or_introl Hs))) as (r1&have&Hu&H1&[p Hp1]&_).
  rewrite Hu in H. cbn [mbind res_bind] in H. cbn in H. apply bind_ok in H as ([ret r2]&Hret&H).
  destruct (haveConsensus_ok (relayable e) (prevLedgerHash_ c) (previousProposers_ c) (nodesAfter e (prevLedgerHash_ c))
    (previousRoundTime_ c) (roundTime_ c) (proposing_ c) r1 H1) as (ret'&r2'&Hret'&H2&(Hp2&_&Hpp2&_)&_); [by rewrite Hp1|].
  rewrite Hret in Hret'. injection Hret' as <- <-.
  pose proof (haveConsensus_counts (prevLedgerHash_ c) _ _ _ _ _ _ r1 p _ _ H1 Hp1 Hret) as Hcc.
  assert (ret ≠ CS_No) as Hne by (intros ->; inv_res; cbn in Hs'; congruence).
  assert (LEDGER_MIN_CONSENSUS < roundTime_ c) as Hrt.
  { destruct (Z.leb_spec (roundTime_ c) LEDGER_MIN_CONSENSUS) as [Hle|]; [|done]. destruct Hne. rewrite Hcc. unfold checkConsensus.
    by rewrite (proj2 (Z.leb_le _ _)). }
  pose proof (ok_our _ _ H2) as Ho. rewrite Hp2, Hp1 in Ho. destruct (ourSet_ r2) as [s|] eqn:Es; [|done].
  assert (have = true ∧ c' = set_job (Some (accept_set s)) (set_consensus (newLCL (Z.of_nat (size (peerPositions_ r2))) (roundTime_ c) (consensus_ c))
     (set_state processing (set_fail (match ret with CS_MovedOn => true | _ => false end) (set_round r2 (set_haveCT have (set_round r1 c)))))))
    as [-> ->].
  { destruct ret; [done|..]; (destruct have; cbn in H; [|inv_res; cbn in Hs'; congruence]); unfold beginAccept in H; cbn in H;
      rewrite Hp2, Hp1, Es in H; by inv_res. }
  exists p, s. cbn. rewrite Hp2, Hpp2. split_and!; try done. intros Hf Hprop Hne'. destruct ret; [done|done|]. symmetry in Hcc.
  rewrite Hprop in Hcc. apply yes_quorum in Hcc; [done|lia|]. destruct (size (peerPositions_ r1)) eqn:En; [|lia].
  by apply map_size_empty_iff in En.
Qed.

(** A round that was started in this call: no time has passed in it. *)
Definition just_started (e : Env) (c : LC) : Prop := consensusStartTime_ c = steady e ∧ state_ c ≠ processing.
Definition started_by (e : Env) (m : res LC) : Prop := match m with Ok c => just_started e c | Err _ => True end.

Lemma handleLCL_started (start : Hash → Ledger → Z → Z → Z → LC → res LC) e h c c' :
  (∀ h l t pp prt c, state_ c ≠ processing → started_by e (start h l t pp prt c)) → state_ c ≠ processing →
  handleLCL start e h c = Ok c' → just_started e c' ∨ state_ c' = state_ c ∧ consensusStartTime_ c' = consensusStartTime_ c.
Proof.
  intros Hst Hs H. unfold handleLCL in H. apply bind_ok in H as (prev&_&H). apply bind_ok in H as (?&_&H).
  set (c1 := switch_ledger e h c) in *.
  assert (state_ c1 = state_ c ∧ consensusStartTime_ c1 = consensusStartTime_ c) as [Hs1 Ht1] by (unfold c1, switch_ledger; repeat case_match; done).
  case_decide; [injection H as <-; auto|]. destruct (ledgerByHash e _) as [l|].
  - apply bind_ok in H as (?&_&H). apply bind_ok in H as (c2&H2&H). injection H as <-. left.
    pose proof (Hst h l (closeTime_ c1) (previousProposers_ c1) (previousRoundTime_ c1) c1) as Hx. rewrite H2, Hs1 in Hx. by apply Hx.
  - case_decide; injection H as <-; auto.
Qed.

Lemma checkLCL_started (start : Hash → Ledger → Z → Z → Z → LC → res LC) e c c' :
  (∀ h l t pp prt c, state_ c ≠ processing → started_by e (start h l t pp prt c)) → state_ c ≠ processing →
  checkLCL start e c = Ok c' → just_started e c' ∨ state_ c' = state_ c ∧ consensusStartTime_ c' = consensusStartTime_ c.
Proof.
  intros Hst Hs H. unfold checkLCL in H. apply bind_ok in H as (prev&_&H). case_match.
  - apply handleLCL_started in H; [|done|by case_match]. by case_match.
  - case_match; [by apply handleLCL_started in H|]. injection H as <-. auto.
Qed.

Lemma timerEntry_started (start : Hash → Ledger → Z → Z → Z → LC → res LC) e c :
  (∀ h l t pp prt c, state_ c ≠ processing → started_by e (start h l t pp prt c)) → state_ c ≠ processing →
  (∀ c1, match state_ c with open | establish => checkLCL start e c | _ => Ok c end = Ok c1 → just_started e c1) →
  started_by e (timerEntry_with start e c).
Proof.
  intros Hst Hs Hc1. unfold timerEntry_with. destruct (match state_ c with open | establish => _ | _ => _ end) as [c1|] eqn:E1; [|done].
  cbn [mbind res_bind]. destruct (Hc1 c1 eq_refl) as [Ht Hp]. set (c2 := set_times _ _ c1).
  assert (roundTime_ c2 = 0) as Hr by (cbn; lia).
  assert (∀ c3, roundTime_ c3 = 0 → stateEstablish e c3 = Ok c3) as Hest by (intros c3 H3; unfold stateEstablish; by rewrite H3).
  destruct (state_ c2) eqn:Es; [|rewrite Hest by done; by split|by split..].
  destruct (statePreClose e c2) as [c3|] eqn:E3; [|done]. cbn [mbind res_bind]. apply statePreClose_phase in E3.
  assert (roundTime_ c3 = 0 ∧ just_started e c3) as [H3 Hj3].
  { destruct E3 as [->|(Hs3&Ht3&Hr3)]; [by split_and!|]. split; [congruence|]. split; [done|by rewrite Hs3]. }
  case_decide; [by rewrite Hest|done].
Qed.

Lemma startRound_started fuel e : ∀ h l t pp prt c, state_ c ≠ processing → started_by e (startRound fuel e h l t pp prt c).
Proof.
  induction fuel as [|fuel IH]; intros h l t pp prt c Hs; cbn [startRound]; [done|]. rewrite decide_False by done.
  destruct (getNextLedgerTimeResolution _ _ _) as [x|]; [cbn [mbind res_bind]|done]. set (c1 := reset_round e h l t pp prt x c).
  assert (just_started e c1) as Hj1 by done.
  match goal with |- started_by e (?m ≫= _) => destruct m as [c2|] eqn:E2; [cbn [mbind res_bind]|done] end.
  assert (just_started e c2) as Hj2.
  { destruct (haveCorrectLCL_ c1); [by injection E2 as <-|]. apply handleLCL_started in E2 as [?|[Hx Hy]]; [done| |exact IH|exact (proj2 Hj1)].
    by split; [rewrite Hy|rewrite Hx]. }
  set (c3 := playbackProposals e c2). assert (just_started e c3) as Hj3 by done. cbv zeta. fold c3.
  destruct (_ <? _); [|exact Hj3]. apply timerEntry_started; [done|apply Hj3|]. intros c4 H4.
  assert (just_started e c4 ∨ state_ c4 = state_ c3 ∧ consensusStartTime_ c4 = consensusStartTime_ c3) as [?|[Hx Hy]]; [|done|].
  - destruct (state_ c3) eqn:Es; [..|injection H4 as <-; auto|injection H4 as <-; auto];
      (destruct (checkLCL_started _ _ _ _ IH (proj2 Hj3) H4) as [?|[Hx Hy]]; [by left|right; by rewrite <-Es]).
  - split; [rewrite Hy|rewrite Hx]; apply Hj3.
Qed.

(** C17: From the constructed object, whatever happened before, a call moves to the
    processing phase only if it is the timer, and then with agreement on the close time,
    later than the minimum time, and with the set of our position (when we have not
    bowed out) as the one to accept; when the network has not moved on without us and we
    propose with others, at least 81 percent of the proposers and ourselves support that
    position. Sets and ledgers are taken to be found under their hashes, and ledgers to
    have a possible close time resolution and a 32-bit sequence number that is not the
    largest. *)
Theorem accept_needs_quorum c0 c fuel e ev c' :
  born c0 → reachable c0 c → env_ok e → event_ok ev c → step fuel e ev c = Ok c' →
  state_ c ≠ processing → state_ c' = processing → ev = Timer ∧ agreed c'.
Proof.
  intros H0 Hreach He Hev Hstep Hs Hs'. pose proof (born_ok _ _ H0 Hreach) as Hc.
  destruct ev as [|p|s| |p|h' l' t|d]; cbn [step] in Hstep.
  - split; [done|]. unfold timerEntry in Hstep. pose proof (timerEntry_started (startRound fuel e) e c (startRound_started fuel e) Hs) as Hx.
    rewrite Hstep in Hx. cbn in Hx. unfold timerEntry_with in Hstep. apply bind_ok in Hstep as (c1&H1&Hstep).
    assert (just_started e c1 ∨ ¬ just_started e c1 ∧ lc_ok c1 ∧ started c1) as [Hj|(_&Hc1&Hst1)].
    { destruct (decide (consensusStartTime_ c1 = steady e ∧ state_ c1 ≠ processing)) as [|Hn]; [by left|right]. split; [done|].
      pose proof (checkLCL_ok e He (startRound fuel e) (startRound_ok fuel e He) c Hc Hev) as Hok.
      destruct (state_ c); [rewrite H1 in Hok; exact Hok..|by injection H1 as <-|by injection H1 as <-]. }
    { destruct Hx as [_ Hx]; [|done]. intros c1' H1'. rewrite H1 in H1'. by injection H1' as <-. }
    set (c2 := set_times _ _ c1) in Hstep. assert (lc_ok c2) as Hc2 by (by apply (frame_ok c1); try done; apply Hc1).
    destruct (state_ c2) eqn:Es2.
    + destruct (statePreClose_ok e c2 Hc2 Hst1) as (c3&E3&Hc3&Hst3&_); [apply no_job; [done|by rewrite Es2]|].
      rewrite E3 in Hstep. cbn [mbind res_bind] in Hstep. case_decide as Es3; [by apply (establish_agreed e c3)|].
      injection Hstep as <-. apply statePreClose_phase in E3 as [->|[? _]]; congruence.
    + by apply (establish_agreed e c2).
    + injection Hstep as <-. exfalso. cbn in Es2.
      destruct (state_ c) eqn:Es; [..|done|injection H1 as <-; congruence].
      all: destruct (checkLCL_started _ _ _ _ (startRound_started fuel e) ltac:(by rewrite Es) H1) as [[_ ?]|[Hx1 _]]; congruence.
    + injection Hstep as <-. congruence.
  - injection Hstep as <-. unfold lc_peerPosition in Hs'. destruct (peerPosition _ _ _ _). by cbn in Hs'.
  - unfold lc_gotMap in Hstep. apply bind_ok in Hstep as (r&_&Hstep). injection Hstep as <-. by cbn in Hs'.
  - unfold acceptLedger in Hstep. rewrite (no_job c Hc Hs) in Hstep. by injection Hstep as <-.
  - injection Hstep as <-. by cbn in Hs'.
  - pose proof (startRound_started fuel e h' l' t (lastCloseProposers_ (consensus_ c)) (lastCloseConvergeTook_ (consensus_ c)) c Hs) as Hx.
    unfold consensus_startRound in Hstep. rewrite Hstep in Hx. by destruct Hx.
  - destruct Hev as [Hst _]. destruct (simulate_ok e d c Hc Hst Hs) as (c2&Hc2&_&_&Ha). rewrite Hc2 in Hstep. injection Hstep as <-. congruence.
Qed.

(** ** The close time *)

Lemma pick_closeTime_spec tc (times : list (Z * Z)) : ∀ tv t0 have0 t have,
  pick_closeTime tc times tv t0 have0 = (t, have) →
  (have = true → have0 = true ∧ (∀ u n, (u, n) ∈ times → n < tv) ∧ t = t0
     ∨ ∃ n, (t, n) ∈ times ∧ tv <= n ∧ (have0 = true ∨ tc <= n) ∧ ∀ u m, (u, m) ∈ times → m <= n)
  ∧ (have = false → have0 = false ∧ ∀ u n, (u, n) ∈ times → n < Z.max tv tc).
Proof.
  induction times as [|[u n] times IH]; intros tv t0 have0 t have H; cbn [pick_closeTime] in H.
  { injection H as <- <-. split; intros ->; [left|]; (split; [done|]); [split; [|done]|]; by intros ? ? ?%elem_of_nil. }
  destruct (Z.leb_spec tv n) as [Hle|Hlt].
  - apply IH in H as [Ht Hf]. split.
    + intros Hh. right. destruct (Ht Hh) as [(Hh0&Hall&->)|(m&Hm&Hnm&Htc&Hall)].
      * exists n. split_and!; [by left|done| |].
        -- apply orb_true_iff in Hh0 as [?|?%Z.leb_le]; auto.
        -- intros v m [[= -> ->]|Hv]%elem_of_cons; [lia|]. specialize (Hall v m Hv). lia.
      * exists m. split_and!; [by right|lia| |].
        -- destruct Htc as [[?|?%Z.leb_le]%orb_true_iff|?]; auto. right. lia.
        -- intros v k [[= -> ->]|Hv]%elem_of_cons; [lia|eauto].
    + intros Hh. destruct (Hf Hh) as [Hh0 Hall]. apply orb_false_iff in Hh0 as [-> Hn%Z.leb_gt]. split; [done|].
      intros v m [[= -> ->]|Hv]%elem_of_cons; [lia|]. specialize (Hall v m Hv). lia.
  - apply IH in H as [Ht Hf]. split.
    + intros Hh. destruct (Ht Hh) as [(Hh0&Hall&->)|(m&Hm&Hnm&Htc&Hall)].
      * left. split_and!; try done. intros v m [[= -> ->]|Hv]%elem_of_cons; [lia|eauto].
      * right. exists m. split_and!; [by right|done|done|]. intros v k [[= -> ->]|Hv]%elem_of_cons; [lia|eauto].
    + intros Hh. destruct (Hf Hh) as [-> Hall]. split; [done|]. intros v m [[= -> ->]|Hv]%elem_of_cons; [lia|eauto].
Qed.

(** The times counted: those of the fresh proposals, and ours when we propose. *)
Definition counted (effective : Z → res Z) (proposing : bool) (ours : Pos) (times : list (Z * Z)) : list (Z * Z) :=
  if proposing then match effective (mCloseTime ours) with Ok t => count_time t times | Err _ => times end else times.

(** The close time position has consensus exactly when some close time has as many votes
    as both the avalanche threshold and the 75 percent threshold need, and then it is
    one with the most votes. *)
Theorem closeTime_vote (effective : Z → res Z) pt proposing (ours : Pos) n times t have :
  0 < n → closeTime_position effective pt proposing ours n times = Ok (t, have) →
  let total := n + (if proposing then 1 else 0) in
  let all := counted effective proposing ours times in
  let needed := Z.max (participantsNeeded total (neededWeight pt)) (participantsNeeded total AV_CT_CONSENSUS_PCT) in
  (have = true → ∃ v, (t, v) ∈ all ∧ needed <= v ∧ ∀ u w, (u, w) ∈ all → w <= v)
  ∧ (have = false → ∀ u w, (u, w) ∈ all → w < needed).
Proof.
  intros Hn H. cbv zeta. unfold closeTime_position in H. rewrite (proj2 (Z.eqb_neq n 0)) in H by lia. unfold counted.
  apply bind_ok in H as ([ts m]&Hts&H). injection H as H.
  assert (ts = (if proposing then match effective (mCloseTime ours) with Ok t => count_time t times | Err _ => times end else times)
    ∧ m = n + (if proposing then 1 else 0)) as [-> ->].
  { destruct proposing; [|injection Hts as <- <-; split; [done|lia]].
    destruct (effective (mCloseTime ours)); [|done]. by injection Hts as <- <-. }
  apply pick_closeTime_spec in H as [Ht Hf]. split.
  - intros Hh. destruct (Ht Hh) as [(?&_)|(v&Hv&Hle&[?|Htc]&Hall)]; [done|done|]. exists v. split_and!; [done|lia|done].
  - intros Hh. by destruct (Hf Hh).
Qed.

(** ** The nested calls return *)

Notation fueled m := (m ≠ Err out_of_fuel).

Lemma sound_returns (m : res LC) : sound m → fueled m → ∃ c, m = Ok c ∧ lc_ok c ∧ started c.
Proof. destruct m as [c|x]; cbn; [intros [? ?]; eauto|]. intros -> H. by destruct H. Qed.

(** The validators' view of the last closed ledger does not depend on ours. *)
Definition settled (e : Env) (L : Hash) : Prop :=
  ∀ h prior, preferred h (currentValidations e h prior) h 0 = L.

Section Return.
Context (e : Env) (He : env_ok e) (L : Hash) (HL : settled e L).
Notation starter := (Hash → Ledger → Z → Z → Z → LC → res LC).

Lemma handleLCL_fueled (start : starter) h c : lc_ok c →
  (∀ l t pp prt c, ledgerByHash e h = Some l → lc_ok c → fueled (start h l t pp prt c)) → fueled (handleLCL start e h c).
Proof.
  intros Hc Hst. unfold handleLCL. destruct (previousLedger_ c); [cbn [deref mbind res_bind]|done].
  assert (∀ b (m : res LC), fueled m → fueled (assert_ b ;; m)) as Hassert by (by intros [] m Hf; cbn).
  apply Hassert.
  destruct (switch_ledger_ok e h c He Hc) as (Hc1&Hh&_). set (c1 := switch_ledger e h c) in *.
  case_decide; [done|]. rewrite Hh. destruct (ledgerByHash e h) as [l2|] eqn:El; [|by case_decide].
  apply Hassert. pose proof (Hst l2 (closeTime_ c1) (previousProposers_ c1) (previousRoundTime_ c1) c1 eq_refl Hc1) as Hs.
  by destruct (start _ _ _ _ _ _).
Qed.

Lemma checkLCL_fueled (start : starter) c : lc_ok c →
  (∀ l t pp prt c, ledgerByHash e L = Some l → lc_ok c → fueled (start L l t pp prt c)) → fueled (checkLCL start e c).
Proof.
  intros Hc Hst. unfold checkLCL. destruct (previousLedger_ c); [cbn [deref mbind res_bind]|done]. rewrite HL. case_match; [apply handleLCL_fueled; [case_match; [by apply sends_ok|done]|done]|].
  case_match; [by apply handleLCL_fueled|done].
Qed.

Lemma checkLCL_settled (start : starter) l c : prevLedgerHash_ c = L → previousLedger_ c = Some l → l_hash l = L → checkLCL start e c = Ok c.
Proof. intros H1 Hl H2. unfold checkLCL. rewrite Hl. cbn [deref mbind res_bind]. rewrite HL, H1, H2, !bool_decide_true by done. done. Qed.

Lemma timerEntry_fueled (start : starter) c :
  (∀ c', checkLCL start e c = Ok c' → lc_ok c' ∧ started c') → fueled (checkLCL start e c) → lc_ok c → started c →
  fueled (timerEntry_with start e c).
Proof.
  intros Hok Hf Hc Hst. unfold timerEntry_with.
  assert (∀ c1, lc_ok c1 ∧ started c1 → fueled (let roundTime := steady e - consensusStartTime_ c1 in
    let c := set_times roundTime (i32 (Z.quot (roundTime * 100) (Z.max (previousRoundTime_ c1) AV_MIN_CONSENSUS_TIME))) c1 in
    match state_ c with
    | open => c ← statePreClose e c; (if decide (state_ c = establish) then stateEstablish e c else Ok c)
    | establish => stateEstablish e c | _ => Ok c end)) as Hrest.
  { intros c1 [Hc1 Hst1]. cbv zeta. set (c2 := set_times _ _ c1).
    assert (lc_ok c2) as Hc2 by (by apply (frame_ok c1); try done; apply Hc1).
    destruct (state_ c2) eqn:Es; [| |done..].
    - destruct (statePreClose_ok e c2 Hc2 Hst1) as (c3&->&Hc3&Hst3&_); [apply no_job; [done|by rewrite Es]|]. cbn [mbind res_bind].
      case_decide as E3; [|done]. by destruct (stateEstablish_ok e c3 Hc3 Hst3 E3) as (c4&->&_).
    - by destruct (stateEstablish_ok e c2 Hc2 Hst1 Es) as (c4&->&_). }
  destruct (state_ c) eqn:Es; cbn [mbind res_bind]; [| |by apply Hrest..];
    (destruct (checkLCL start e c) as [c'|x] eqn:E; [apply Hrest; by apply Hok|by destruct x]).
Qed.

(** [startRound] on the ledger of its hash: the first call on the network's ledger needs no other. *)
Lemma startRound_fueled fuel h l t pp prt c : lc_ok c → ledger_ok l → l_hash l = h →
  (h = L ∨ ∀ l t pp prt c, ledgerByHash e L = Some l → lc_ok c → fueled (startRound fuel e L l t pp prt c)) →
  fueled (startRound (S fuel) e h l t pp prt c).
Proof.
  intros Hc Hl Hh Hst. cbn [startRound]. case_decide as Es; [done|]. destruct (next_resolution_ok l Hl) as (x&Hx&Hpx).
  rewrite Hx. cbn [mbind res_bind]. set (c1 := reset_round e h l t pp prt x c).
  assert (lc_ok c1) as Hc1 by (by apply reset_round_ok). assert (haveCorrectLCL_ c1 = true) as -> by (by apply bool_decide_true).
  cbn [mbind res_bind]. set (c2 := playbackProposals e _).
  assert (lc_ok c2) as Hc2 by (apply playbackProposals_ok; [done|]; by apply (frame_ok c1); try done; apply Hc1).
  assert (started c2) as Hst2 by (by eexists).
  case_match; [|done]. apply timerEntry_fueled; [| |done|done].
  - intros c' H'. pose proof (checkLCL_ok e He (startRound fuel e) (startRound_ok fuel e He) c2 Hc2 Hst2) as Hs. by rewrite H' in Hs.
  - destruct Hst as [->|Hst]; [by rewrite (checkLCL_settled _ l)|by apply checkLCL_fueled].
Qed.

Lemma startRound_settled fuel l t pp prt c : ledgerByHash e L = Some l → lc_ok c → fueled (startRound (S fuel) e L l t pp prt c).
Proof. intros Hl Hc. destruct (proj2 He L l Hl). apply startRound_fueled; auto. Qed.

Lemma timer_returns fuel c : lc_ok c → started c → fueled (timerEntry_with (startRound (S fuel) e) e c).
Proof.
  intros Hc Hst. apply timerEntry_fueled; [| |done|done].
  - intros c' H'. pose proof (checkLCL_ok e He _ (startRound_ok (S fuel) e He) c Hc Hst) as Hs. by rewrite H' in Hs.
  - apply checkLCL_fueled; [done|]. intros. by apply startRound_settled.
Qed.

Lemma startRound_returns fuel h l t pp prt c : lc_ok c → ledger_ok l → fueled (startRound (S (S (S fuel))) e h l t pp prt c).
Proof.
  intros Hc Hl. destruct (decide (l_hash l = h)) as [Hh|Hh].
  { apply startRound_fueled; auto. right. intros. by apply startRound_settled. }
  remember (S (S fuel)) as f.
  cbn [startRound]. case_decide as Es; [done|]. destruct (next_resolution_ok l Hl) as (x&Hx&Hpx).
  rewrite Hx. cbn [mbind res_bind]. set (c1 := reset_round e h l t pp prt x c). assert (lc_ok c1) as Hc1 by (by apply reset_round_ok).
  assert (haveCorrectLCL_ c1 = false) as -> by (by apply bool_decide_false).
  set (c2 := set_consensus _ c1). assert (lc_ok c2) as Hc2 by (by apply (frame_ok c1); try done; apply Hc1).
  assert (fueled (handleLCL (startRound f e) e h c2)) as Hf.
  { apply handleLCL_fueled; [done|]. intros l' t' pp' prt' c' Hl' Hc'. destruct (proj2 He h l' Hl'). subst f.
    apply startRound_fueled; auto. right. intros. by apply startRound_settled. }
  pose proof (handleLCL_ok e He (startRound f e) (startRound_ok f e He) h l c2 Hc2 eq_refl (or_intror Hh)) as Hs.
  destruct (sound_returns _ Hs Hf) as (c3&Hc3&Hok3&Hst3). cbv zeta. change (prevLedgerHash_ c2) with h. rewrite Hc3. cbn [mbind res_bind].
  pose proof (playbackProposals_ok e c3 He Hok3). case_match; [|done]. subst f. by apply (timer_returns (S fuel) (playbackProposals e c3)).
Qed.
End Return.

(** C25: When the validators' view of the last closed ledger does not depend on ours,
    every call on a reachable consensus object (timer after the first round was started,
    proposal, set, step of the accept job, start of a round, simulation while no round
    is being processed) returns, with at most three nested starts of a round. Sets and
    ledgers are taken to be found under their hashes, and ledgers to have a possible
    close time resolution and a 32-bit sequence number that is not the largest. *)
Theorem steps_return c0 c fuel e ev L :
  born c0 → reachable c0 c → env_ok e → event_ok ev c → settled e L → (3 <= fuel)%nat →
  ∃ c', step fuel e ev c = Ok c'.
Proof.
  intros H0 Hreach He Hev HL Hf. pose proof (born_ok _ _ H0 Hreach) as Hc.
  assert (fueled (step fuel e ev c)) as Hfu.
  { destruct fuel as [|[|[|fuel]]]; try lia. destruct ev as [|p|s| |p|h' l' t|d]; cbn [step].
    - by apply (timer_returns e He L HL).
    - done.
    - unfold lc_gotMap, gotMap.
      by destruct (mapCompleteInternal_ok (relayable e) (prevLedgerHash_ c) s true (round_ c) (lc_round _ Hc)) as (r&->&_).
    - destruct (acceptJob_ c) as [j|] eqn:Ej; [|unfold acceptLedger; by rewrite Ej].
      by destruct (acceptLedger_ok e c Hc) as (c'&->&_); [rewrite Ej|].
    - done.
    - by apply (startRound_returns e He L HL).
    - destruct Hev as [Hst Hs]. by destruct (simulate_ok e d c Hc Hst Hs) as (c'&->&_). }
  pose proof (step_sound fuel e ev c He Hev Hc) as Hs. destruct (step fuel e ev c) as [c'|x]; [eauto|]. cbn in Hs. by subst.
Qed.
End Run.
