(* ===== verification/ConsensusExamples.v ===== *)
(** * Concrete consensus rounds

    Runs over sets of numbers: they instantiate the theorems of [ConsensusProps.v] and
    [ConsensusRun.v], and show how a set that arrives between two proposals loses votes. *)

From S2P Require Import Prelude LedgerTiming Dispute Consensus TxSets ConsensusInv LedgerConsensus LedgerConsensusInv.
From S2P Require Import ConsensusProps ConsensusCover ConsensusRun.
Local Open Scope Z_scope.

Notation Pos := (LedgerProposal N (gset N)).
Notation NRound := (@Round N (gset N) N N (gset N) _ _ _ _ _ _).
Notation NEnv := (@Env N (gset N) N N (gset N)).
Notation NEvent := (@Event N (gset N) (gset N)).
Notation NLC := (@LC N (gset N) N N (gset N) _ _ _ _ _ _).

Definition proposal (k : N) (seq : Z) (s : gset N) : Pos := mkProposal ∅ s 700 seq k 1000.
Definition relay_none (_ : N) : bool := false.
Definition no_set (_ : gset N) : option (gset N) := None.
Definition have_set (s : gset N) : option (gset N) := Some s.

(** ** A set that arrives between two proposals *)

(** We propose [{8}], node 1 proposes [{7}], node 2 proposes [{6, 7}], which we do not have yet.
    The set arrives, and node 3 proposes it too: before or after the set is handed to us. *)
Definition arrival (gotMapFirst : bool) : res NRound :=
  r ← takeInitialPosition relay_none ({[8%N]} : gset N) (proposal 9 0 {[8%N]}) true (empty_round []);
  let r := (peerPosition have_set ∅ (proposal 1 0 {[7%N]}) r).2 in
  '(_, r) ← haveConsensus relay_none 0 0 0 0 true r;
  let r := (peerPosition no_set ∅ (proposal 2 0 {[6%N; 7%N]}) r).2 in
  if gotMapFirst then
    r ← gotMap relay_none ({[6%N; 7%N]} : gset N) r;
    Ok (peerPosition have_set ∅ (proposal 3 0 {[6%N; 7%N]}) r).2
  else gotMap relay_none ({[6%N; 7%N]} : gset N) (peerPosition have_set ∅ (proposal 3 0 {[6%N; 7%N]}) r).2.

(** The yes votes counted for transaction 7, and the proposers whose set has it. *)
Definition yes_on_7 (m : res NRound) : option Z * nat :=
  match m with Ok r => (mYays <$> disputes_ r !! 7%N, size (voters true 7%N r)) | Err _ => (None, O) end.

Example late_set_run :
  yes_on_7 (arrival true) = (Some 3, 3%nat) ∧ yes_on_7 (arrival false) = (Some 2, 3%nat).
Proof. split; by vm_compute. Qed.

(** ** Agreement *)

Definition demo_round (me : N) (peers : list N) : NRound :=
  mkRound (Some (proposal me 0 {[7%N]})) (Some {[7%N]})
    (list_to_map ((fun k => (k, proposal k 0 {[7%N]})) <$> peers)) ∅ ∅ ∅ [] ∅ [].

Lemma demo_ok me peers : round_ok (∅ : gset N) (demo_round me peers).
Proof.
  split; try done. cbn. intros k p Hp%elem_of_list_to_map_2. apply list_elem_of_fmap in Hp as (k'&[= -> ->]&_).
  by split_and!.
Qed.

Definition demo_nodes : gset N := {[1%N; 2%N; 3%N; 4%N]}.

Lemma consensus_agreement_witness :
  mCurrentHash (proposal 1 0 {[7%N]}) = mCurrentHash (proposal 2 0 {[7%N]}).
Proof.
  apply (consensus_agreement (TxSet := gset N) demo_nodes {[3%N]} 1%N 2%N ∅ ∅
    (demo_round 1 [2; 3; 4]%N) (demo_round 2 [1; 3; 4]%N)
    (proposal 1 0 {[7%N]}) (proposal 2 0 {[7%N]}) relay_none relay_none 4 4 0 0 2000 2000 5000 5000
    (demo_round 1 [2; 3; 4]%N) (demo_round 2 [1; 3; 4]%N)); try apply demo_ok; try reflexivity.
  - done.
  - intros k Hk _. apply (bool_decide_unpack (set_Forall (fun k => view 1%N (demo_round 1 [2; 3; 4]%N) k
      = view 2%N (demo_round 2 [1; 3; 4]%N) k) demo_nodes)); [by vm_compute|done].
Defined.

(** ** Tallies *)

Definition heard_round : NRound := (peerPosition have_set ∅ (proposal 1 0 {[7%N]}) (empty_round [])).2.
Definition tally_round : NRound :=
  unwrap (empty_round []) (takeInitialPosition relay_none ({[8%N]} : gset N) (proposal 9 0 {[8%N]}) true heard_round).

Lemma tally_round_tracks : tracks (∅ : gset N) tally_round.
Proof.
  eapply (tr_take _ _ relay_none ({[8%N]} : gset N) (proposal 9 0 {[8%N]}) true heard_round);
    [|by vm_compute|apply unwrap_ok; by vm_compute].
  apply tr_peer; [apply tr_start|by intros h s [= ->]|done].
Qed.

Lemma dispute_tallies_witness :
  ∃ d, disputes_ tally_round !! 7%N = Some d ∧ mYays d = 1 ∧ mYays d = Z.of_nat (size (voters true 7%N tally_round))
    ∧ mOurVote d = false.
Proof.
  destruct (disputes_ tally_round !! 7%N) as [d|] eqn:E; [|by exfalso; vm_compute in E].
  destruct (dispute_tallies ∅ tally_round 7%N d tally_round_tracks E) as (Hy&_&_&Ho).
  { assert (map_Forall (fun _ p => is_Some (acquired_ tally_round !! mCurrentHash p)) (peerPositions_ tally_round)) as Hall
      by (apply (bool_decide_unpack _); by vm_compute). exact Hall. }
  exists d. split_and!; [done|by rewrite Hy; vm_compute|done|by rewrite Ho; vm_compute].
Defined.

(** Node 2 proposes [{6, 7}], which we do not have yet. *)
Definition waiting_round : NRound := (peerPosition no_set ∅ (proposal 2 0 {[6%N; 7%N]}) tally_round).2.

Lemma waiting_round_tracks : tracks (∅ : gset N) waiting_round.
Proof. apply tr_peer; [apply tally_round_tracks|done|]. by intros _ [? ?]. Qed.

(** The vote of node 2 is lost when node 3 proposes the same set before it is handed over. *)
Lemma late_set_loses_votes_witness :
  ∃ d, disputes_ (peerPosition have_set ∅ (proposal 3 0 {[6%N; 7%N]}) waiting_round).2 !! 7%N = Some d
    ∧ mVotes d !! 2%N = None ∧ mVotes d !! 3%N = Some true.
Proof.
  destruct (disputes_ waiting_round !! 7%N) as [d0|] eqn:E; [|by exfalso; vm_compute in E].
  destruct (late_set_loses_votes ∅ relay_none have_set waiting_round ({[6%N; 7%N]} : gset N) 2%N (proposal 2 0 {[6%N; 7%N]})
    (proposal 3 0 {[6%N; 7%N]})) as [[_ Hlost] _];
    [exact waiting_round_tracks|by intros h s [= ->]|by vm_compute|done|by vm_compute|done|split_and!; [done|by vm_compute|by vm_compute]|done|done|done|].
  destruct (Hlost 7%N d0 E) as (d&Hd&H2&H3). exists d. split_and!; [exact Hd| |exact H3].
  rewrite H2. vm_compute in E. injection E as <-. by vm_compute.
Defined.

(** The position of the peer has transaction 7, ours 8: both are disputed, and the votes are opposite. *)
Definition checked_round : NRound :=
  (unwrap (CS_No, empty_round []) (haveConsensus relay_none 1 0 2000 5000 true tally_round)).2.

Lemma checked_round_eq : ∃ c, haveConsensus relay_none 1 0 2000 5000 true tally_round = Ok (c, checked_round).
Proof.
  exists (unwrap (CS_No, empty_round []) (haveConsensus relay_none 1 0 2000 5000 true tally_round)).1.
  unfold checked_round. rewrite <-surjective_pairing. apply unwrap_ok. by vm_compute.
Qed.

Lemma disputes_complete_witness :
  ∃ d, disputes_ checked_round !! 7%N = Some d ∧ mOurVote d = false ∧ mVotes d !! 1%N = Some true.
Proof.
  destruct checked_round_eq as [c Hc].
  destruct (disputes_complete ∅ relay_none 1 0 2000 5000 true tally_round c checked_round (proposal 9 0 {[8%N]})
    ({[8%N]} : gset N) 1%N (proposal 1 0 {[7%N]}) ({[7%N]} : gset N) 7%N) as (d&Hd&Ho&Hv);
    [exact (handled_anything _ _ _ tally_round_tracks)|by vm_compute|by vm_compute|exact Hc|by vm_compute..|].
  exists d. split_and!; [exact Hd|by rewrite Ho; vm_compute|rewrite (Hv tally_round_tracks); by vm_compute].
Defined.

(** ** Runs *)

Definition genesis : LedgerInfo (gset N) := mkLedger ∅ ∅ 3 500 470 30 0.

(** A moment at which the validators are on the genesis ledger. *)
Definition moment (steady_ms net : Z) : NEnv :=
  mkEnv net net steady_ms [7%N] ∅ false (fun _ => false) (fun s => s) (fun _ => 0) (fun _ _ => [(∅, 3)])
    (fun _ => None) have_set relay_none false true 0%N None (fun l _ _ _ _ => l) (fun _ => true).

Lemma moment_ok ms net : env_ok (moment ms net).
Proof. split; [by intros h s [= ->]|done]. Qed.

Lemma genesis_ok : ledger_ok genesis.
Proof. split; [by right; right; left|done]. Qed.

Definition newborn : NLC := LC_init ∅ true false false false.

Lemma newborn_born : born newborn.
Proof. by exists ∅, true, false, false, false. Qed.

Fixpoint run (es : list (NEnv * NEvent)) (c : NLC) : res NLC :=
  match es with [] => Ok c | (e, ev) :: es => c ← step 3 e ev c; run es c end.

Definition enabled (ev : NEvent) (c : NLC) : bool :=
  match ev with
  | StartRound _ _ _ => true
  | Timer => bool_decide (is_Some (previousLedger_ c))
  | Simulate _ => bool_decide (is_Some (previousLedger_ c)) && negb (bool_decide (state_ c = processing))
  | _ => true
  end.

Fixpoint all_enabled (es : list (NEnv * NEvent)) (c : NLC) : bool :=
  match es with
  | [] => true
  | (e, ev) :: es => enabled ev c && match step 3 e ev c with Ok c => all_enabled es c | Err _ => false end
  end.

Definition given (x : NEnv * NEvent) : Prop := env_ok x.1 ∧ match x.2 with StartRound _ l _ => ledger_ok l | _ => True end.

Lemma run_reachable es : ∀ c0 c c', reachable c0 c → Forall given es → all_enabled es c = true →
  run es c = Ok c' → reachable c0 c'.
Proof.
  induction es as [|[e ev] es IH]; intros c0 c c' Hc Hes Hen H; cbn [run] in H; [by injection H as <-|].
  apply bind_ok in H as (c1&H1&H). apply Forall_cons in Hes as [[He Hev] Hes]. cbn [all_enabled] in Hen. rewrite H1 in Hen.
  apply andb_true_iff in Hen as [Hen1 Hen]. eapply IH; [|done|exact Hen|done]. eapply reach_step; [done|done| |done].
  destruct ev; cbn in *; try done; [by apply bool_decide_eq_true in Hen1|].
  apply andb_true_iff in Hen1 as [Hs Hp]. apply bool_decide_eq_true in Hs. apply negb_true_iff, bool_decide_eq_false in Hp. by split.
Qed.

(** A round: started in sync, node 1 disagrees, the ledger closes, a timer passes without
    agreement and both give up their transaction. *)
Definition story : list (NEnv * NEvent) :=
  [(moment 0 1000, StartRound ∅ genesis 500);
   (moment 0 1000, PeerPosition (proposal 1 0 {[8%N]}));
   (moment 0 1000, Timer);
   (moment 3000 1003, Timer);
   (moment 3000 1003, PeerPosition (mkProposal ∅ ∅ 990 1 1%N 1003))].

Definition late : NLC := unwrap newborn (run story newborn).

Lemma late_reachable : reachable newborn late.
Proof.
  eapply (run_reachable story); [constructor| |by vm_compute|apply unwrap_ok; by vm_compute].
  repeat (constructor; [split; [apply moment_ok|try exact I; exact genesis_ok]|]). constructor.
Qed.

Lemma late_started : started late.
Proof. eexists. by vm_compute. Qed.

Definition built : NLC := unwrap late (step 3 (moment 3000 1003) Timer late).

Lemma accept_needs_quorum_witness :
  ∃ p s, ourPosition_ (round_ built) = Some p ∧ acceptJob_ built = Some (accept_set s)
    ∧ (isBowOut p = false → getID s = mCurrentHash p).
Proof.
  destruct (accept_needs_quorum newborn late 3 (moment 3000 1003) Timer built newborn_born late_reachable (moment_ok _ _) late_started)
    as (_&p&s&?&?&?&_); [apply unwrap_ok; by vm_compute|by vm_compute|by vm_compute|eauto].
Defined.

Lemma consensus_invariant_witness :
  no_failure (step 3 (moment 3000 1003) Timer late).
Proof.
  exact (proj1 (consensus_invariant newborn late 3 (moment 3000 1003) Timer newborn_born late_reachable (moment_ok _ _) late_started)).
Defined.

Lemma phase_discipline_witness : state_ built = processing
  ∧ (state_ built = accepted → state_ late = accepted ∨ (∃ d, @Timer N (gset N) (gset N) = Simulate d)
      ∨ state_ late = processing ∧ @Timer N (gset N) (gset N) = AcceptStep ∧ acceptJob_ late = Some accept_ends).
Proof.
  split; [by vm_compute|].
  destruct (phase_discipline newborn late 3 (moment 3000 1003) Timer built newborn_born late_reachable (moment_ok _ _) late_started) as (_&H&_);
    [apply unwrap_ok; by vm_compute|exact H].
Defined.

Lemma steps_return_witness : ∃ c', step 3 (moment 3000 1003) (StartRound {[5%N]} genesis 500) late = Ok c'.
Proof.
  apply (steps_return newborn late 3 (moment 3000 1003) (StartRound {[5%N]} genesis 500) ∅ newborn_born late_reachable
    (moment_ok _ _) genesis_ok); [done|lia].
Defined.

(** The round that is built is accepted in three parts, between which a proposal is heard; and in
    stand-alone mode a round is simulated at once. *)
Example accepted_run :
  match run (story ++ [(moment 3000 1003, Timer); (moment 3001 1003, AcceptStep); (moment 3002 1003, PeerPosition (mkProposal ∅ ∅ 990 2 1%N 1003));
                       (moment 3003 1003, AcceptStep); (moment 3004 1003, AcceptStep)]) newborn with
  | Ok c => (state_ c, acceptJob_ c) = (accepted, None)
  | Err _ => False
  end
  ∧ match run [(moment 0 1000, StartRound ∅ genesis 500); (moment 1 1000, Simulate None)] newborn with
    | Ok c => (state_ c, roundTime_ c) = (accepted, 100)
    | Err _ => False
    end.
Proof. split; by vm_compute. Qed.

Lemma closeTime_vote_witness :
  ∃ v, (990, v) ∈ [(960, 1); (990, 4)] ∧ 4 <= v ∧ ∀ u w, (u, w) ∈ [(960, 1); (990, 4)] → w <= v.
Proof.
  apply (proj1 (closeTime_vote (NodeID := N) (Hash := N) Ok 0 true (mkProposal 0%N 0%N 990 0 9%N 1000) 4 [(960, 1); (990, 3)] 990 true
    ltac:(lia) eq_refl) eq_refl).
Defined.

(** The first timer after a long open phase closes the ledger and, in the same call, declares
    consensus on the positions heard before: the initial wait of the establish phase is measured
    from the start of the open phase. *)
Example one_tick_consensus :
  match run [(moment 0 1000, StartRound ∅ genesis 500); (moment 6000 1006, Timer)] newborn with
  | Ok c => (state_ c, consensusStartTime_ c, roundTime_ c) = (processing, 6000, 6000)
  | Err _ => False
  end.
Proof. by vm_compute. Qed.
