(* ===== verification/InboundTransactions.v ===== *)
(** * Transaction sets that arrive ([app/ledger/impl/InboundTransactions.cpp])

    The transaction sets that were made here, received, or are being acquired, each with the
    consensus round in which it was last asked for.  Consensus asks for sets by [getSet] and is
    told of new ones through [m_gotSet].  The object that acquires a set from peers
    ([TransactionAcquire]) is a parameter; what is asked of it is listed in the result. *)

From S2P Require Import Prelude Bytes Consensus ConsensusInv TxSets.
Local Open Scope Z_scope.

Definition startPeers : Z := 2.
Definition setKeepRounds : Z := 3.

Section Inbound.
Context {Hash TxSet Acquire : Type} `{!EqDecision Hash, !Countable Hash} (zero : Hash).

Record InboundTransactionSet := mkInbound { mSeq : Z; mAcquire : option Acquire; mSet : option TxSet }.

(** [m_zeroSet] is a reference to the element of the map under the zero hash: it dangles once
    that element was erased. *)
Record Inbound := mkInboundTransactions {
  sets : gmap Hash InboundTransactionSet; m_seq : Z; zero_alive : bool; stopping : bool }.

Definition with_sets (m : gmap Hash InboundTransactionSet) (st : Inbound) : Inbound :=
  mkInboundTransactions m (m_seq st) (zero_alive st) (stopping st).

Definition Inbound_init (emptyMap : TxSet) : Inbound :=
  mkInboundTransactions {[zero := mkInbound 0 None (Some emptyMap)]} 0 true false.

Definition getAcquire (hash : Hash) (st : Inbound) : option Acquire := sets st !! hash ≫= mAcquire.

(** What [getSet] asks of the acquiring objects. *)
Inductive AcquireCall := StillNeed (a : Acquire) | InitAcquire (a : Acquire) (peers : Z).

(** [ta] is the object made when the set is to be acquired. *)
Definition getSet (ta : Acquire) (hash : Hash) (acquire : bool) (st : Inbound)
    : option TxSet * list AcquireCall * Inbound :=
  match sets st !! hash with
  | Some it =>
      if acquire then
        (mSet it, match mAcquire it with Some a => [StillNeed a] | None => [] end,
         with_sets (<[hash := mkInbound (m_seq st) (mAcquire it) (mSet it)]> (sets st)) st)
      else (mSet it, [], st)
  | None =>
      if negb acquire || stopping st then (None, [], st)
      else (None, [InitAcquire ta startPeers], with_sets (<[hash := mkInbound (m_seq st) (Some ta) None]> (sets st)) st)
  end.

(** The result is the set that is announced through [m_gotSet], if it is new. *)
Definition giveSet (hash : Hash) (set : TxSet) (fromAcquire : bool) (st : Inbound) : option (TxSet * bool) * Inbound :=
  let inboundSet := default (mkInbound 0 None None) (sets st !! hash) in
  let seq := if mSeq inboundSet <? m_seq st then m_seq st else mSeq inboundSet in
  let isNew := match mSet inboundSet with Some _ => false | None => true end in
  let stored := match mSet inboundSet with Some s => Some s | None => Some set end in
  (if isNew then Some (set, fromAcquire) else None, with_sets (<[hash := mkInbound seq None stored]> (sets st)) st).

Definition keeps (minSeq maxSeq : Z) (it : InboundTransactionSet) : bool :=
  negb ((mSeq it <? minSeq) || (maxSeq <? mSeq it)).

Definition newRound (seq : Z) (st : Inbound) : res Inbound :=
  m ← (if zero_alive st then z ← deref (sets st !! zero); Ok (<[zero := mkInbound seq (mAcquire z) (mSet z)]> (sets st))
       else Err undefined);
  if m_seq st =? seq then Ok (with_sets m st)
  else
    let minSeq := if seq <? setKeepRounds then 0 else seq - setKeepRounds in
    let maxSeq := u32 (seq + setKeepRounds) in
    let kept := filter (fun kv => keeps minSeq maxSeq kv.2 = true) m in
    Ok (mkInboundTransactions kept seq (bool_decide (is_Some (kept !! zero))) (stopping st)).

(** [Stoppable]: the flag is raised some time before [onStop] is called. *)
Definition stop_requested (st : Inbound) : Inbound := mkInboundTransactions (sets st) (m_seq st) (zero_alive st) true.

Definition onStop (st : Inbound) : Inbound := mkInboundTransactions ∅ (m_seq st) false true.

(** *** Data from peers *)

(** A node of the message: its identifier and its data, which may be absent. *)
Definition packet_node : Type := option bytes * option bytes.

Fixpoint read_nodes (nodes : list packet_node) : option (list (bytes * bytes)) :=
  match nodes with
  | [] => Some []
  | (Some nodeid, Some nodedata) :: nodes =>
      if (length nodeid =? 33)%nat then (fun l => (nodeid, nodedata) :: l) <$> read_nodes nodes else None
  | _ :: _ => None
  end.

Inductive PeerCharge := feeUnwantedData | feeInvalidRequest.

(** [takeNodes] tells whether the nodes were useful. *)
Definition gotData (takeNodes : Acquire → list (bytes * bytes) → bool) (hash : Hash) (nodes : list packet_node)
    (st : Inbound) : option PeerCharge :=
  match getAcquire hash st with
  | None => Some feeUnwantedData
  | Some ta =>
      match read_nodes nodes with
      | None => Some feeInvalidRequest
      | Some l => if takeNodes ta l then None else Some feeUnwantedData
      end
  end.

(** ** Runs *)

Inductive InboundOp :=
| DoGet (ta : Acquire) (hash : Hash) (acquire : bool)
| DoGive (hash : Hash) (set : TxSet) (fromAcquire : bool)
| DoRound (seq : Z)
| DoStopRequest
| DoStop.

Definition inbound_op (op : InboundOp) (st : Inbound) : res Inbound :=
  match op with
  | DoGet ta hash acquire => Ok (getSet ta hash acquire st).2
  | DoGive hash set fromAcquire => Ok (giveSet hash set fromAcquire st).2
  | DoRound seq => newRound seq st
  | DoStopRequest => Ok (stop_requested st)
  | DoStop => Ok (onStop st)
  end.

Fixpoint inbound_run (ops : list InboundOp) (st : Inbound) : res Inbound :=
  match ops with
  | [] => Ok st
  | op :: ops => st ← inbound_op op st; inbound_run ops st
  end.

(** ** The invariant *)

Section Sets.
Context {TxID Tx : Type} `{!TxSetOps TxID Tx TxSet Hash} (Hzero : getID emptySet = zero).

(** Sets are given under their identifier. *)
Definition given (op : InboundOp) : Prop := match op with DoGive hash set _ => getID set = hash | _ => True end.

(** The object has not stopped, and the numbers of rounds leave room for three more. *)
Definition lasting (op : InboundOp) : Prop :=
  match op with DoRound seq => 0 <= seq < 2 ^ 32 - setKeepRounds | DoStop => False | _ => True end.

Definition op_ok (op : InboundOp) : Prop := given op ∧ lasting op.

(** Sets are kept under their identifier. *)
Definition ids_ok (st : Inbound) : Prop := ∀ h it s, sets st !! h = Some it → mSet it = Some s → getID s = h.

Lemma ids_ok_put h it st : ids_ok st → (∀ s, mSet it = Some s → getID s = h) → ids_ok (with_sets (<[h := it]> (sets st)) st).
Proof. intros I Hid h' it' s Hit. cbn in Hit. apply lookup_insert_Some in Hit as [[<- <-]|[_ Hit]]; [apply Hid|by apply I]. Qed.

Lemma inbound_op_ids op st st' : ids_ok st → given op → inbound_op op st = Ok st' → ids_ok st'.
Proof.
  intros I Hg H. destruct op as [ta h' acquire|h' s' fa|seq| |]; cbn in H.
  - injection H as <-. unfold getSet. destruct (sets st !! h') as [it'|] eqn:E.
    + destruct acquire; [|done]. apply ids_ok_put; [done|]. intros s. by apply (I h' it').
    + destruct (_ || _); [done|]. by apply ids_ok_put.
  - injection H as <-. apply ids_ok_put; [done|]. intros s. cbn in Hg |- *.
    destruct (sets st !! h') as [it'|] eqn:E; cbn; [|by intros [= <-]]. destruct (mSet it') eqn:Es; intros [= <-]; [by apply (I h' it')|done].
  - unfold newRound in H. apply bind_ok in H as (m&Hm&H). destruct (zero_alive st); [|done].
    apply bind_ok in Hm as (z&Hz%deref_ok&[= <-]).
    pose proof (ids_ok_put zero (mkInbound seq (mAcquire z) (mSet z)) st I (fun s => I zero z s Hz)) as I'.
    destruct (_ =? _); injection H as <-; [done|]. intros h it s [Hit _]%map_lookup_filter_Some. by apply I'.
  - injection H as <-. done.
  - injection H as <-. intros h it s Hit. cbn in Hit. by rewrite lookup_empty in Hit.
Qed.

Lemma inbound_run_ids (ops : list InboundOp) : ∀ st st', ids_ok st → Forall given ops → inbound_run ops st = Ok st' → ids_ok st'.
Proof.
  induction ops as [|op ops IH]; intros st st' I Hg H; cbn [inbound_run] in H; [by injection H as <-|].
  apply Forall_cons in Hg as [H1 H2]. apply bind_ok in H as (st1&Hop&H). eapply IH; [|done|done]. by eapply inbound_op_ids.
Qed.

Record inbound_ok (st : Inbound) : Prop := {
  in_seq : 0 <= m_seq st;
  in_alive : zero_alive st = true;
  in_zero : ∃ z, sets st !! zero = Some z ∧ mSet z = Some emptySet;
  in_ids : ids_ok st;
  in_seqs : ∀ h it, sets st !! h = Some it → mSeq it <= m_seq st + setKeepRounds }.

(** The set [h] is there and young enough for the rounds [q] to [q + 3]. *)
Definition stays (q : Z) (h : Hash) (st : Inbound) : Prop :=
  q <= m_seq st <= q + setKeepRounds ∧ ∃ it, sets st !! h = Some it ∧ is_Some (mSet it) ∧ q <= mSeq it <= q + setKeepRounds.

Lemma inbound_ok_put st h it : inbound_ok st → (∀ s, mSet it = Some s → getID s = h) → mSeq it <= m_seq st + setKeepRounds →
  (∀ it', sets st !! h = Some it' → is_Some (mSet it') → mSet it = mSet it') →
  inbound_ok (with_sets (<[h := it]> (sets st)) st).
Proof.
  intros [Q A (z&Hz&Hs) I S] Hid Hseq Hkeep. split; cbn; [done|done| | |].
  - destruct (decide (h = zero)) as [->|]; [|exists z; by rewrite lookup_insert_ne]. exists it. rewrite lookup_insert_eq.
    split; [done|]. rewrite (Hkeep z Hz); [done|by rewrite Hs].
  - by apply ids_ok_put.
  - intros h' it' [[<- <-]|[_ ?]]%lookup_insert_Some; [done|by eapply S].
Qed.

Lemma getSet_ok ta h acquire st : inbound_ok st → inbound_ok (getSet ta h acquire st).2.
Proof.
  intros Hok. unfold getSet. destruct (sets st !! h) as [it|] eqn:E.
  - destruct acquire; cbn [snd]; [|done]. apply inbound_ok_put; [done|intros s; by apply (in_ids _ Hok h it)|cbn; unfold setKeepRounds; lia|].
    intros it' Hit' _. cbn. congruence.
  - destruct (negb acquire || stopping st); [done|]. cbn [snd]. apply inbound_ok_put; cbn; [done|done|unfold setKeepRounds; lia|congruence].
Qed.

Lemma giveSet_ok h s fromAcquire st : inbound_ok st → getID s = h → inbound_ok (giveSet h s fromAcquire st).2.
Proof.
  intros Hok Hid. unfold giveSet. cbn [snd]. destruct (sets st !! h) as [it|] eqn:E; cbn [default].
  - pose proof (in_seqs _ Hok h it E) as Hq. apply inbound_ok_put; cbn; [done| | |].
    + intros s'. destruct (mSet it) eqn:Es; intros [= <-]; [by apply (in_ids _ Hok h it)|done].
    + destruct (_ <? _); unfold setKeepRounds in *; lia.
    + intros it' Hit' [s' Hs']. rewrite E in Hit'. injection Hit' as <-. by rewrite Hs'.
  - apply inbound_ok_put; cbn; [done|by intros s' [= <-]| |congruence].
    pose proof (in_seq _ Hok). destruct (0 <? m_seq st); unfold setKeepRounds; lia.
Qed.

Lemma keeps_iff lo hi it : keeps lo hi it = true ↔ lo <= mSeq it <= hi.
Proof. unfold keeps. rewrite negb_true_iff, orb_false_iff, !Z.ltb_ge. done. Qed.

Lemma newRound_ok seq st : inbound_ok st → op_ok (DoRound seq) → ∃ st', newRound seq st = Ok st' ∧ inbound_ok st'.
Proof.
  intros Hok [_ Hseq]. pose proof Hok as [Q A (z&Hz&Hs) I S]. cbn in Hseq. unfold newRound. rewrite A, Hz. cbn [deref mbind res_bind].
  set (z' := mkInbound seq (mAcquire z) (mSet z)).
  assert (∀ h it s, <[zero := z']> (sets st) !! h = Some it → mSet it = Some s → getID s = h) as I'.
  { intros h it s [[<- <-]|[_ ?]]%lookup_insert_Some; [cbn; by apply (I zero z)|by eapply I]. }
  destruct (Z.eqb_spec (m_seq st) seq) as [<-|Hne]; eexists; (split; [done|]).
  - apply inbound_ok_put; [done|intros s; by apply (I zero z)|cbn; unfold setKeepRounds; lia|]. intros it Hit _. cbn. congruence.
  - assert (u32 (seq + setKeepRounds) = seq + setKeepRounds) as Hu by (apply Z.mod_small; unfold setKeepRounds in *; lia).
    rewrite Hu. set (lo := if seq <? setKeepRounds then 0 else seq - setKeepRounds).
    assert (lo <= seq) by (unfold lo, setKeepRounds; destruct (seq <? 3); lia).
    assert (filter (fun kv : Hash * InboundTransactionSet => keeps lo (seq + setKeepRounds) kv.2 = true) (<[zero := z']> (sets st)) !! zero = Some z') as Hz'.
    { apply map_lookup_filter_Some. rewrite lookup_insert_eq. split; [done|]. apply keeps_iff. cbn. unfold setKeepRounds. lia. }
    split; cbn [m_seq zero_alive sets].
    + lia.
    + rewrite Hz'. by apply bool_decide_true.
    + by exists z'.
    + intros h it s [Hit _]%map_lookup_filter_Some. by apply I'.
    + intros h it [_ Hk]%map_lookup_filter_Some. cbn in Hk. apply keeps_iff in Hk. lia.
Qed.

Lemma inbound_op_ok op st : inbound_ok st → op_ok op → ∃ st', inbound_op op st = Ok st' ∧ inbound_ok st'.
Proof.
  intros Hok Hop. destruct op; cbn [inbound_op] in *.
  - eexists. split; [done|]. by apply getSet_ok.
  - eexists. split; [done|]. apply giveSet_ok; [done|apply Hop].
  - by apply newRound_ok.
  - eexists. split; [done|]. by destruct Hok.
  - by destruct Hop.
Qed.

Lemma inbound_run_ok (ops : list InboundOp) : ∀ st, inbound_ok st → Forall op_ok ops →
  ∃ st', inbound_run ops st = Ok st' ∧ inbound_ok st'.
Proof.
  induction ops as [|op ops IH]; intros st Hok Hops; cbn [inbound_run]; [eauto|].
  apply Forall_cons in Hops as [H1 H2]. destruct (inbound_op_ok op st Hok H1) as (st1&->&Hok1). cbn [mbind res_bind]. auto.
Qed.

Lemma inbound_init_ok : inbound_ok (Inbound_init emptySet).
Proof.
  split; cbn; [lia|done|eexists; by rewrite lookup_singleton_eq|..].
  - intros h it s Hit. cbn in Hit. apply lookup_singleton_Some in Hit as [<- <-]. by intros [= <-].
  - intros h it [<- <-]%lookup_singleton_Some. cbn. unfold setKeepRounds. lia.
Qed.

(** ** Sets stay for the next rounds *)

Definition round_within (q : Z) (op : InboundOp) : Prop :=
  match op with DoRound seq => q <= seq <= q + setKeepRounds | _ => True end.

Lemma inbound_op_stays q h op st st' : 0 <= q → q + 2 * setKeepRounds < 2 ^ 32 → round_within q op → lasting op →
  stays q h st → inbound_op op st = Ok st' → stays q h st'.
Proof.
  intros Hq Hq2 Hop Hlast (Hm&it&Hit&Hset&Hseq) H. destruct op as [ta h' acquire|h' s' fa|seq| |]; cbn in H; [| | | |done].
  - injection H as <-. split; [unfold getSet; by repeat case_match|].
    unfold getSet. destruct (sets st !! h') as [it'|] eqn:E.
    + destruct acquire; cbn; [|eauto]. destruct (decide (h = h')) as [->|].
      * rewrite lookup_insert_eq. rewrite E in Hit. injection Hit as ->. eexists. split; [done|]. cbn. auto.
      * rewrite lookup_insert_ne by done. eauto.
    + destruct (negb acquire || stopping st); cbn; [eauto|]. rewrite lookup_insert_ne by congruence. eauto.
  - injection H as <-. split; [done|]. unfold giveSet. cbn. destruct (decide (h = h')) as [->|].
    + rewrite lookup_insert_eq, Hit. eexists. split; [done|]. cbn. destruct Hset as [s ->]. split; [done|]. destruct (Z.ltb_spec (mSeq it) (m_seq st)); lia.
    + rewrite lookup_insert_ne by done. eauto.
  - cbn in Hop. unfold newRound in H. apply bind_ok in H as (m&Hm'&H). destruct (zero_alive st); [|done].
    apply bind_ok in Hm' as (z&Hz%deref_ok&[= <-]).
    assert (∃ it', <[zero := mkInbound seq (mAcquire z) (mSet z)]> (sets st) !! h = Some it' ∧ is_Some (mSet it') ∧ q <= mSeq it' <= q + setKeepRounds)
      as (it'&Hit'&Hset'&Hseq').
    { destruct (decide (h = zero)) as [->|]; [rewrite lookup_insert_eq; rewrite Hz in Hit; injection Hit as ->; eexists; split; [done|]; done|].
      rewrite lookup_insert_ne by done. eauto. }
    destruct (Z.eqb_spec (m_seq st) seq) as [<-|Hne]; injection H as <-; (split; [done|]); exists it'; cbn; [done|].
    split; [|done]. apply map_lookup_filter_Some. split; [done|]. cbn. apply keeps_iff.
    unfold u32. rewrite Z.mod_small by (unfold setKeepRounds in *; lia). unfold setKeepRounds in *. destruct (seq <? 3); lia.
  - injection H as <-. split; [done|]. eauto.
Qed.

Lemma inbound_run_stays q h (ops : list InboundOp) : 0 <= q → q + 2 * setKeepRounds < 2 ^ 32 → ∀ st st',
  Forall (round_within q) ops → Forall lasting ops → stays q h st → inbound_run ops st = Ok st' → stays q h st'.
Proof.
  intros Hq Hq2. induction ops as [|op ops IH]; intros st st' Hops Hl Hs H; cbn [inbound_run] in H; [by injection H as <-|].
  apply Forall_cons in Hops as [H1 H2]. apply Forall_cons in Hl as [L1 L2]. apply bind_ok in H as (st1&Hop&H).
  eapply IH; [done|done| |done]. by eapply inbound_op_stays.
Qed.

Lemma getSet_answer ta h acquire st it : sets st !! h = Some it → (getSet ta h acquire st).1.1 = mSet it.
Proof. intros Hit. unfold getSet. rewrite Hit. by destruct acquire. Qed.

(** A set that was just given can stay. *)
Lemma giveSet_stays h s fromAcquire st : inbound_ok st → stays (m_seq st) h (giveSet h s fromAcquire st).2.
Proof.
  intros Hok. pose proof (in_seq _ Hok). split; [cbn; unfold setKeepRounds; lia|]. eexists. cbn. rewrite lookup_insert_eq. split; [done|]. cbn.
  split; [case_match; by eexists|].
  destruct (sets st !! h) as [it|] eqn:E; cbn; [pose proof (in_seqs _ Hok h it E)|];
    destruct (Z.ltb_spec (mSeq (default (mkInbound 0 None None) (sets st !! h))) (m_seq st)); rewrite E in *; cbn in *; unfold setKeepRounds in *;
    repeat case_match; lia.
Qed.

(** C24: For runs in which transaction sets are given under their identifiers: every
    answer of getSet has the identifier that was asked for, which is what consensus
    relies on, also while stopping; and as long as onStop was not called and the numbers
    of rounds stay below 2^32 - 3, every operation returns, the empty set is always
    there, and a set that was given is answered through the next three rounds, whatever
    else is asked, given or started. *)
Theorem inbound_sets_kept (ops1 ops2 : list InboundOp) h s fromAcquire ta acquire :
  Forall given ops1 → Forall given ops2 → getID s = h →
  (∀ st st2, inbound_run ops1 (Inbound_init emptySet) = Ok st → inbound_run ops2 (giveSet h s fromAcquire st).2 = Ok st2 →
     answers (fun h => (getSet ta h true st2).1.1))
  ∧ (Forall lasting ops1 → Forall lasting ops2 →
     ∃ st st2, inbound_run ops1 (Inbound_init emptySet) = Ok st ∧ inbound_run ops2 (giveSet h s fromAcquire st).2 = Ok st2
       ∧ (getSet ta zero acquire st2).1.1 = Some emptySet
       ∧ (Forall (round_within (m_seq st)) ops2 → m_seq st + 2 * setKeepRounds < 2 ^ 32 →
          ∃ s', (getSet ta h acquire st2).1.1 = Some s' ∧ getID s' = h)).
Proof.
  intros G1 G2 Hid. split.
  - intros st st2 Hr1 Hr2. pose proof (inbound_run_ids ops1 _ _ (in_ids _ inbound_init_ok) G1 Hr1) as I1.
    assert (ids_ok (giveSet h s fromAcquire st).2) as Ig by (by apply (inbound_op_ids (DoGive h s fromAcquire) st)).
    pose proof (inbound_run_ids ops2 _ _ Ig G2 Hr2) as I2.
    intros h' s'. unfold getSet. destruct (sets st2 !! h') as [it|] eqn:E; cbn; [intros Hs'; by apply (I2 h' it)|].
    destruct (stopping st2); done.
  - intros L1 L2. destruct (inbound_run_ok ops1 _ inbound_init_ok) as (st&Hr1&Hok); [by apply Forall_and|].
    pose proof (giveSet_ok h s fromAcquire st Hok Hid) as Hokg.
    destruct (inbound_run_ok ops2 _ Hokg) as (st2&Hr2&Hok2); [by apply Forall_and|]. exists st, st2. split_and!; [done|done|..].
    + destruct (in_zero _ Hok2) as (z&Hz&Hs). by rewrite (getSet_answer _ _ _ _ z Hz).
    + intros Hw Hq. destruct (inbound_run_stays (m_seq st) h ops2 (in_seq _ Hok) Hq _ st2 Hw L2 (giveSet_stays h s fromAcquire st Hok) Hr2)
        as (_&it&Hit&[s' Hs']&_).
      exists s'. rewrite (getSet_answer _ _ _ _ it Hit). split; [done|]. by apply (in_ids _ Hok2 h it).
Qed.
End Sets.
End Inbound.

(** ** Announcements and the empty set *)

Section Announce.
Context {Hash TxSet Acquire : Type} `{!EqDecision Hash, !Countable Hash} (zero : Hash).
Notation Sets := (@Inbound Hash TxSet Acquire _ _).

(** A set is announced when it is stored, and not again while it is kept. *)
Lemma giveSet_announces_once h (s s' : TxSet) fa fa' (st : Sets) :
  (giveSet h s fa st).1 = (if mSet <$> sets st !! h is Some (Some _) then None else Some (s, fa))
  ∧ (giveSet h s' fa' (giveSet h s fa st).2).1 = None.
Proof.
  unfold giveSet. cbn. rewrite lookup_insert_eq. cbn. destruct (sets st !! h) as [it|]; cbn; [|done].
  by destruct (mSet it).
Qed.

(** The reference to the empty set dangles after [onStop]: a round that starts then writes
    through it. *)
Lemma newRound_after_stop seq (st : Sets) : newRound zero seq (onStop st) = Err undefined.
Proof. done. Qed.

(** It also dangles after a round with one of the last three 32-bit numbers. *)
Lemma newRound_wraps (e : TxSet) seq : 2 ^ 32 - setKeepRounds <= seq < 2 ^ 32 →
  ∃ st : Sets, newRound zero seq (Inbound_init zero e) = Ok st ∧ ∀ seq', newRound zero seq' st = Err undefined.
Proof.
  intros Hs. unfold newRound at 1, Inbound_init. cbn [zero_alive sets m_seq]. rewrite lookup_singleton_eq. cbn [deref mbind res_bind].
  unfold setKeepRounds in *. destruct (Z.eqb_spec 0 seq); [lia|]. eexists. split; [done|]. intros seq'. unfold newRound. cbn [zero_alive].
  rewrite bool_decide_false; [done|]. intros [it [Hit Hk]%map_lookup_filter_Some]. rewrite insert_singleton_eq in Hit.
  apply lookup_singleton_Some in Hit as [_ <-]. cbn in Hk. apply keeps_iff in Hk. cbn in Hk. unfold u32 in Hk.
  replace (seq + 3) with (seq + 3 - 2 ^ 32 + 1 * 2 ^ 32) in Hk by lia. rewrite Z.mod_add in Hk by lia. rewrite Z.mod_small in Hk by lia. lia.
Qed.
End Announce.

(** A run: a set given in round 8 is answered in round 11. *)
Notation NInbound := (@Inbound (gset N) (gset N) N _ _).
Notation NOp := (@InboundOp (gset N) (gset N) N).

Definition inbound_before : list NOp := [DoRound 8; DoGet 1%N {[5%N]} true].
Definition inbound_after : list NOp := [DoRound 9; DoGet 2%N {[7%N]} true; DoRound 11].

Definition inbound_st1 : NInbound := unwrap (Inbound_init ∅ ∅) (inbound_run ∅ inbound_before (Inbound_init ∅ ∅)).
Definition inbound_st2 : NInbound := unwrap (Inbound_init ∅ ∅) (inbound_run ∅ inbound_after (giveSet {[5%N]} {[5%N]} true inbound_st1).2).

Lemma inbound_sets_kept_witness :
  ∃ s, (getSet 3%N {[5%N]} false inbound_st2).1.1 = Some s ∧ getID s = ({[5%N]} : gset N).
Proof.
  destruct (inbound_sets_kept (Tx := N) (∅ : gset N) eq_refl inbound_before inbound_after {[5%N]} {[5%N]} true 3%N false) as [_ H];
    [by repeat constructor|by repeat constructor|done|].
  destruct H as (st&st2&H1&H2&_&H); [repeat constructor; cbn; unfold setKeepRounds; lia..|].
  assert (st = inbound_st1) as -> by exact (eq_sym (f_equal (unwrap (Inbound_init ∅ ∅)) H1)).
  assert (st2 = inbound_st2) as -> by exact (eq_sym (f_equal (unwrap (Inbound_init ∅ ∅)) H2)).
  apply H; [|by vm_compute]. assert (m_seq inbound_st1 = 8) as -> by (by vm_compute). repeat constructor; cbn; unfold setKeepRounds; lia.
Defined.
