(* ===== verification/Validations.v ===== *)
(** * Validations ([app/misc/Validations.cpp])

    The signed statements of validators that they have validated a ledger: those of each ledger
    (kept in a [TaggedCache] of shared sets), the latest of each validator, and the ones that are
    no longer current and are on their way to the database.  A validation is a shared object: its
    trusted flag and its previous ledger change after it was stored, so validations are pointers
    into a store.  The job that writes runs between the calls on the object; its steps under the
    lock are separate.  The traversal order of hash tables is an argument. *)

From S2P Require Import Prelude TaggedCache.
Local Open Scope Z_scope.

(** [app/ledger/LedgerTiming.h] *)
Definition VALIDATION_VALID_WALL : Z := 300.
Definition VALIDATION_VALID_LOCAL : Z := 180.
Definition VALIDATION_VALID_EARLY : Z := 180.

Section Validations.
Context {Hash PublicKey Ptr : Type} `{!EqDecision Hash, !Countable Hash, !EqDecision PublicKey, !Countable PublicKey, !EqDecision Ptr}.
Context (zero : Hash).

(** The fields of [STValidation] that are used here; times are seconds of the network clock. *)
Record STValidation := mkValidation {
  sfLedgerHash : Hash; sfSigningTime : Z; sfLedgerSequence : option Z; sfLoadFee : option Z; sfFlags : Z;
  sfSigningPubKey : PublicKey; mNodeID : N; mPreviousHash : Hash; mTrusted : bool; mSeen : Z }.

Definition kFullFlag : Z := 1.
Definition isFull (v : STValidation) : bool := negb (Z.land (sfFlags v) kFullFlag =? 0).
Definition isPreviousHash (h : Hash) (v : STValidation) : bool := bool_decide (mPreviousHash v = h).
Definition setTrusted (v : STValidation) : STValidation :=
  mkValidation (sfLedgerHash v) (sfSigningTime v) (sfLedgerSequence v) (sfLoadFee v) (sfFlags v) (sfSigningPubKey v)
    (mNodeID v) (mPreviousHash v) true (mSeen v).
Definition setPreviousHash (h : Hash) (v : STValidation) : STValidation :=
  mkValidation (sfLedgerHash v) (sfSigningTime v) (sfLedgerSequence v) (sfLoadFee v) (sfFlags v) (sfSigningPubKey v)
    (mNodeID v) h (mTrusted v) (mSeen v).

(** A [ValidationSet]; the pointers of [mCurrentValidations] can be null. *)
Definition ValidationSet : Type := gmap PublicKey Ptr.

(** The job that writes: none, queued, or in the middle of writing a batch. *)
Inductive WriteJob := NoJob | Queued | Writing (batch : list Ptr).

Record Validations := mkValidations {
  heap : Ptr → STValidation; mValidations : TaggedCache Hash N; vsets : gmap N ValidationSet; nextSet : N;
  mCurrentValidations : gmap PublicKey (option Ptr); mStaleValidations : list Ptr; mWriting : bool;
  job : WriteJob; written : list Ptr }.

Definition Validations_init (h : Ptr → STValidation) : Validations :=
  mkValidations h (TaggedCache_init 4096 600) ∅ 0 ∅ [] false NoJob [].

Definition set_heap (h : Ptr → STValidation) (st : Validations) : Validations :=
  mkValidations h (mValidations st) (vsets st) (nextSet st) (mCurrentValidations st) (mStaleValidations st) (mWriting st) (job st) (written st).
Definition set_sets (c : TaggedCache Hash N) (s : gmap N ValidationSet) (n : N) (st : Validations) : Validations :=
  mkValidations (heap st) c s n (mCurrentValidations st) (mStaleValidations st) (mWriting st) (job st) (written st).
Definition set_current (m : gmap PublicKey (option Ptr)) (st : Validations) : Validations :=
  mkValidations (heap st) (mValidations st) (vsets st) (nextSet st) m (mStaleValidations st) (mWriting st) (job st) (written st).
Definition set_stale (l : list Ptr) (st : Validations) : Validations :=
  mkValidations (heap st) (mValidations st) (vsets st) (nextSet st) (mCurrentValidations st) l (mWriting st) (job st) (written st).
Definition set_job (w : bool) (j : WriteJob) (l : list Ptr) (st : Validations) : Validations :=
  mkValidations (heap st) (mValidations st) (vsets st) (nextSet st) (mCurrentValidations st) (mStaleValidations st) w j l.

Definition modify (p : Ptr) (f : STValidation → STValidation) (st : Validations) : Validations :=
  set_heap (fun q => if decide (q = p) then f (heap st p) else heap st q) st.

(** *** The sets of the ledgers

    Nobody outside holds a set between two calls; a call holds the one it works on. *)

Definition findSet (clock : Z) (ledgerHash : Hash) (st : Validations) : option N * Validations :=
  let '(j, c) := fetch (fun _ => 0) clock ledgerHash (mValidations st) in
  (j, set_sets c (vsets st) (nextSet st) st).

Definition findCreateSet (clock : Z) (ledgerHash : Hash) (st : Validations) : N * Validations :=
  let '(j, st) := findSet clock ledgerHash st in
  match j with
  | Some j => (j, st)
  | None =>
      let j := nextSet st in
      let '(_, j', c) := canonicalize (fun q => if decide (q = j) then 1 else 0) clock ledgerHash j false (mValidations st) in
      (j', set_sets c (<[j := ∅]> (vsets st)) (N.succ j) st)
  end.

Definition set_at (j : N) (st : Validations) : ValidationSet := default ∅ (vsets st !! j).
Definition put_set (j : N) (s : ValidationSet) (st : Validations) : Validations :=
  set_sets (mValidations st) (<[j := s]> (vsets st)) (nextSet st) st.

(** *** Writing *)

Definition condWrite (st : Validations) : Validations :=
  if mWriting st then st else set_job true Queued (written st) st.

(** The test of the loop of [doWrite], under the lock. *)
Definition write_next (st : Validations) : Validations :=
  match mStaleValidations st with
  | [] => set_job false NoJob (written st) st
  | l => set_stale [] (set_job (mWriting st) (Writing l) (written st) st)
  end.

(** [doWrite]: it starts, or commits a batch and looks for more. *)
Definition doWrite (st : Validations) : res Validations :=
  match job st with
  | NoJob => Ok st
  | Queued => assert_ (mWriting st);; Ok (write_next st)
  | Writing batch => Ok (write_next (set_job (mWriting st) (job st) (written st ++ batch) st))
  end.

(** *** Adding *)

Definition current (now : Z) (v : STValidation) : bool :=
  (now - VALIDATION_VALID_EARLY <? sfSigningTime v) && (sfSigningTime v <? now + VALIDATION_VALID_WALL)
  && ((mSeen v =? 0) || (mSeen v <? now + VALIDATION_VALID_LOCAL)).

Definition add_stale (p : Ptr) (st : Validations) : Validations :=
  condWrite (set_stale (mStaleValidations st ++ [p]) st).

(** The validator's previous validation [old] when [val] arrives: the set loses one that a revoked
    key signed for the same ledger sequence, and [val] takes the place when it is newer. *)
Definition replace_current (clock : Z) (pubKey : PublicKey) (val old : Ptr) (st : Validations) : bool * Validations :=
  let v := heap st val in
  let o := heap st old in
  let otherKey := negb (bool_decide (sfSigningPubKey v = sfSigningPubKey o)) in
  let sameSeq := match sfLedgerSequence o, sfLedgerSequence v with Some a, Some b => a =? b | _, _ => false end in
  let st :=
    if sameSeq && otherKey then
      let '(set, st) := findSet clock (sfLedgerHash o) st in
      match set with Some j => put_set j (delete pubKey (set_at j st)) st | None => st end
    else st in
  if (sfSigningTime o <? sfSigningTime v) || otherKey then
    let st := modify val (setPreviousHash (sfLedgerHash o)) st in
    let st := set_stale (mStaleValidations st ++ [old]) st in
    (true, condWrite (set_current (<[pubKey := Some val]> (mCurrentValidations st)) st))
  else (false, st).

(** What [addValidation] does with a current validation of a known validator, under the lock:
    [None] when the ledger already has one of this validator. *)
Definition store_validation (clock : Z) (pubKey : PublicKey) (val : Ptr) (st : Validations) : option bool * Validations :=
  let '(j, st) := findCreateSet clock (sfLedgerHash (heap st val)) st in
  match set_at j st !! pubKey with
  | Some _ => (None, st)
  | None =>
      let st := put_set j (<[pubKey := val]> (set_at j st)) st in
      match mCurrentValidations st !! pubKey with
      | None | Some None => (Some true, set_current (<[pubKey := Some val]> (mCurrentValidations st)) st)
      | Some (Some old) => let '(isCurrent, st) := replace_current clock pubKey val old st in (Some isCurrent, st)
      end
  end.

(** The keys of the validator lists, [app_.validators ()]. *)
Section Lists.
Context (getTrustedKey getListedKey : PublicKey → option PublicKey).

(** The validator of the signing key; a validation of a trusted validator becomes trusted. *)
Definition find_signer (val : Ptr) (st : Validations) : option PublicKey * Validations :=
  let signer := sfSigningPubKey (heap st val) in
  let pubKey := getTrustedKey signer in
  let st := if negb (mTrusted (heap st val)) && bool_decide (is_Some pubKey) then modify val setTrusted st else st in
  (match pubKey with Some k => Some k | None => getListedKey signer end, st).

(** The result has the arguments of [LedgerMaster::checkAccept], when it is called. *)
Definition addValidation (now clock : Z) (val : Ptr) (st : Validations) : res (bool * option (Hash * Z) * Validations) :=
  let hash := sfLedgerHash (heap st val) in
  let isCurrent := current now (heap st val) in
  let '(pubKey, st) := find_signer val st in
  '(stored, st) ←
    (if isCurrent && (mTrusted (heap st val) || bool_decide (is_Some pubKey)) then
       k ← deref pubKey; Ok (store_validation clock k val st)
     else Ok (Some isCurrent, st));
  match stored with
  | None => Ok (false, None, st)
  | Some isCurrent =>
      if mTrusted (heap st val) && isCurrent
      then Ok (true, Some (hash, default 0 (sfLedgerSequence (heap st val))), st)
      else Ok (false, None, st)
  end.
End Lists.

(** *** Queries of a ledger *)

Definition getValidations (clock : Z) (ledger : Hash) (st : Validations) : ValidationSet * Validations :=
  let '(set, st) := findSet clock ledger st in
  (match set with Some j => set_at j st | None => ∅ end, st).

(** The trusted validations of a ledger, in some order. *)
Definition trusted_of (clock : Z) (ledger : Hash) (st : Validations) : list Ptr * Validations :=
  let '(set, st) := getValidations clock ledger st in
  (filter (fun p => mTrusted (heap st p) = true) (map_to_list set).*2, st).

Definition getTrustedValidationCount (clock : Z) (ledger : Hash) (st : Validations) : Z * Validations :=
  let '(l, st) := trusted_of clock ledger st in (Z.of_nat (length l), st).

Definition fees (clock : Z) (ledger : Hash) (base : Z) (st : Validations) : list Z * Validations :=
  let '(l, st) := trusted_of clock ledger st in ((fun p => default base (sfLoadFee (heap st p))) <$> l, st).

Definition getValidationTimes (clock : Z) (ledger : Hash) (st : Validations) : list Z * Validations :=
  let '(l, st) := trusted_of clock ledger st in ((fun p => sfSigningTime (heap st p)) <$> l, st).

(** *** Queries of the current validations *)

(** The loops that dereference every pointer. *)
Fixpoint deref_all (l : list (option Ptr)) : res (list Ptr) :=
  match l with
  | [] => Ok []
  | o :: l => p ← deref o; l ← deref_all l; Ok (p :: l)
  end.

Definition getNodesAfter (ledger : Hash) (st : Validations) : res Z :=
  l ← deref_all (map_to_list (mCurrentValidations st)).*2;
  Ok (Z.of_nat (length (filter (fun p => mTrusted (heap st p) && isPreviousHash ledger (heap st p) = true) l))).

Definition getLoadRatio (overLoaded : bool) (st : Validations) : res Z :=
  l ← deref_all (map_to_list (mCurrentValidations st)).*2;
  let trusted := filter (fun p => mTrusted (heap st p) = true) l in
  let full := Z.of_nat (length (filter (fun p => isFull (heap st p) = true) trusted)) in
  let goodNodes := (if overLoaded then 1 else 0) + full in
  let badNodes := (if overLoaded then 0 else 1) + (Z.of_nat (length trusted) - full) in
  Ok (goodNodes * 100 / (goodNodes + badNodes)).

(** The loop shared by the next three: records that are gone or no longer current are erased, and
    the live ones are visited. *)
Fixpoint visit_current (now : Z) (order : list PublicKey) (st : Validations) : list (PublicKey * Ptr) * Validations :=
  match order with
  | [] => ([], st)
  | k :: order =>
      match mCurrentValidations st !! k with
      | None => visit_current now order st
      | Some None => visit_current now order (set_current (delete k (mCurrentValidations st)) st)
      | Some (Some p) =>
          if current now (heap st p) then
            let '(l, st) := visit_current now order st in ((k, p) :: l, st)
          else
            let st := add_stale p st in
            visit_current now order (set_current (delete k (mCurrentValidations st)) st)
      end
  end.

Definition getCurrentTrustedValidations (now : Z) (order : list PublicKey) (st : Validations) : list Ptr * Validations :=
  let '(l, st) := visit_current now order st in (filter (fun p => mTrusted (heap st p) = true) l.*2, st).

Definition getCurrentPublicKeys (now : Z) (order : list PublicKey) (st : Validations) : gset PublicKey * Validations :=
  let '(l, st) := visit_current now order st in (list_to_set l.*1, st).

(** The ledger a validation counts for: up to one ledger of slip in either direction. *)
Definition counts_for (currentLedger priorLedger : Hash) (v : STValidation) : Hash :=
  let valCurrentLedger := negb (bool_decide (currentLedger = zero)) in
  let valPriorLedger := negb (bool_decide (priorLedger = zero)) in
  if (valCurrentLedger && bool_decide (sfLedgerHash v = currentLedger))
     || (valCurrentLedger && isPreviousHash currentLedger v)
     || (valPriorLedger && bool_decide (sfLedgerHash v = priorLedger))
  then currentLedger else sfLedgerHash v.

Definition countable (cutoffBefore : Z) (v : STValidation) : bool :=
  mTrusted v && match sfLedgerSequence v with Some s => cutoffBefore <=? s | None => true end.

Definition count_validation (currentLedger priorLedger : Hash) (v : STValidation) (ret : gmap Hash (Z * N)) : gmap Hash (Z * N) :=
  let ledger := counts_for currentLedger priorLedger v in
  let '(count, ni) := default (0, 0%N) (ret !! ledger) in
  <[ledger := (count + 1, if (ni <? mNodeID v)%N then mNodeID v else ni)]> ret.

Definition getCurrentValidations (currentLedger priorLedger : Hash) (cutoffBefore : Z) (now : Z) (order : list PublicKey)
    (st : Validations) : gmap Hash (Z * N) * Validations :=
  let '(l, st) := visit_current now order st in
  (foldl (fun ret kp => if countable cutoffBefore (heap st kp.2)
                        then count_validation currentLedger priorLedger (heap st kp.2) ret else ret) ∅ l, st).

(** *** Flushing and sweeping *)

(** [flush] up to its waiting loop, which ends when [mWriting] is false. *)
Definition flush (order : list PublicKey) (st : Validations) : Validations :=
  let st' := set_current ∅ (set_stale (mStaleValidations st ++ omap (fun k => mjoin (mCurrentValidations st !! k)) order) st) in
  if decide (order = []) then st' else condWrite st'.

Definition sweep_validations (clock : Z) (order : list Hash) (st : Validations) : Validations :=
  set_sets (sweep (fun _ => 0) clock order (mValidations st)) (vsets st) (nextSet st) st.

End Validations.
