(* ===== verification/ValidationsProps.v ===== *)
(** * What is promised about validations

    No validation is lost or written twice whatever the interleaving with the writing job;
    a flush ends with everything written; the queries count every current validation once; and
    consensus moves to another ledger only for more validators than ours has. *)

From S2P Require Import Prelude LedgerTiming Dispute Consensus LedgerConsensus TaggedCache Validations.
Local Open Scope Z_scope.

Section Props.
Context {Hash PublicKey Ptr : Type} `{!EqDecision Hash, !Countable Hash, !EqDecision PublicKey, !Countable PublicKey, !EqDecision Ptr}.
Context (zero : Hash).
Notation STValidation := (@STValidation Hash PublicKey).
Notation Validations := (@Validations Hash PublicKey Ptr _ _ _ _).
Implicit Types (st : Validations) (p : Ptr) (k : PublicKey) (l : list Ptr).

(** ** Where validations are *)

Definition currents (m : gmap PublicKey (option Ptr)) : list Ptr := omap snd (map_to_list m).
Definition batch (j : WriteJob) : list Ptr := match j with Writing l => l | _ => [] end.
Definition kept (st : Validations) : list Ptr :=
  currents (mCurrentValidations st) ++ mStaleValidations st ++ batch (job st) ++ written st.

Record valid_ok (st : Validations) : Prop := {
  vo_null : ∀ k, mCurrentValidations st !! k ≠ Some None;
  vo_stale : mStaleValidations st ≠ [] → mWriting st = true;
  vo_job : mWriting st = match job st with NoJob => false | _ => true end }.

Lemma currents_insert m k p : m !! k = None → currents (<[k := Some p]> m) ≡ₚ p :: currents m.
Proof. intros Hk. unfold currents. by rewrite map_to_list_insert. Qed.

Lemma currents_delete m k p : m !! k = Some (Some p) → currents m ≡ₚ p :: currents (delete k m).
Proof.
  intros Hk. rewrite <-(currents_insert (delete k m) k p) by apply lookup_delete_eq. by rewrite insert_delete_id.
Qed.

Lemma currents_replace m k p q : m !! k = Some (Some q) → q :: currents (<[k := Some p]> m) ≡ₚ p :: currents m.
Proof.
  intros Hk. rewrite <-insert_delete_eq. rewrite currents_insert by apply lookup_delete_eq.
  rewrite (currents_delete m k q Hk). constructor.
Qed.

(** ** The operations *)

(** What does not touch the current and the stale validations. *)
Definition apart (st st' : Validations) : Prop :=
  mCurrentValidations st' = mCurrentValidations st ∧ mStaleValidations st' = mStaleValidations st
  ∧ mWriting st' = mWriting st ∧ job st' = job st ∧ written st' = written st.

#[local] Instance apart_preorder : PreOrder apart.
Proof. split; [done|]. unfold apart. intros a b c H1 H2. intuition congruence. Qed.

Lemma apart_kept st st' : apart st st' → kept st' = kept st.
Proof. intros (E1&E2&E3&E4&E5). unfold kept. by rewrite E1, E2, E4, E5. Qed.

Lemma apart_ok st st' : apart st st' → valid_ok st → valid_ok st'.
Proof. intros (E1&E2&E3&E4&E5) [N S J]. split; by rewrite ?E1, ?E2, ?E3, ?E4. Qed.

Lemma findSet_apart clock h st : apart st (findSet clock h st).2 ∧ heap (findSet clock h st).2 = heap st.
Proof. unfold findSet. by destruct (fetch _ _ _ _). Qed.

Lemma findCreateSet_apart clock h st : apart st (findCreateSet clock h st).2 ∧ heap (findCreateSet clock h st).2 = heap st.
Proof.
  unfold findCreateSet. destruct (findSet_apart clock h st) as [Ha Hh]. destruct (findSet clock h st) as [[j|] st1]; cbn in *; [done|].
  destruct (canonicalize _ _ _ _ _ _) as [[b j] c]. done.
Qed.

Lemma find_signer_apart gt gl val st : apart st (find_signer gt gl val st).2.
Proof. unfold find_signer. cbn. by case_match. Qed.

Definition same_but_job (st st' : Validations) : Prop :=
  mCurrentValidations st' = mCurrentValidations st ∧ mStaleValidations st' = mStaleValidations st ∧ heap st' = heap st
  ∧ written st' = written st.

Lemma condWrite_ok st : (∀ k, mCurrentValidations st !! k ≠ Some None) → mWriting st = match job st with NoJob => false | _ => true end →
  valid_ok (condWrite st) ∧ kept (condWrite st) = kept st ∧ same_but_job st (condWrite st).
Proof.
  intros N J. unfold condWrite. destruct (mWriting st) eqn:E.
  { split_and!; [split; [done|by rewrite E|by rewrite E]|done|done]. }
  split_and!; [by split|unfold kept; cbn; by destruct (job st)|done].
Qed.

Lemma replace_current_ok clock k val old st : valid_ok st → mCurrentValidations st !! k = Some (Some old) →
  let '(isCurrent, st') := replace_current clock k val old st in
  valid_ok st' ∧ kept st' ≡ₚ (if isCurrent then [val] else []) ++ kept st
  ∧ isCurrent = (sfSigningTime (heap st old) <? sfSigningTime (heap st val))
                || negb (bool_decide (sfSigningPubKey (heap st val) = sfSigningPubKey (heap st old)))
  ∧ mCurrentValidations st' = (if isCurrent then <[k := Some val]> (mCurrentValidations st) else mCurrentValidations st)
  ∧ (isCurrent = true → mPreviousHash (heap st' val) = sfLedgerHash (heap st old)) ∧ (isCurrent = false → heap st' = heap st).
Proof.
  intros Hok Hk. unfold replace_current. set (other := negb _). set (st1 := if _ && other then _ else st).
  assert (apart st st1 ∧ heap st1 = heap st) as [Ha Hh].
  { unfold st1. destruct (_ && other); [|done]. destruct (findSet_apart clock (sfLedgerHash (heap st old)) st) as [Ha Hh].
    destruct (findSet clock _ st) as [[j|] st2]; done. }
  pose proof (apart_ok _ _ Ha Hok) as [N S J]. pose proof Ha as (E1&E2&E3&E4&E5).
  destruct ((_ <? _) || other) eqn:Eb.
  - set (st2 := set_stale _ _). set (st3 := set_current _ st2).
    destruct (condWrite_ok st3) as (H3&K3&(C3&_&P3&_)); [|done|].
    { intros k'. cbn. intros [[_ ?]|[_ ?]]%lookup_insert_Some; [done|by eapply N]. }
    split_and!; [done| |done|by rewrite C3; cbn; rewrite E1| |done].
    + rewrite K3. unfold st3, st2, kept. cbn. rewrite E1, E2, E4, E5, <-!app_assoc.
      change (val :: currents (mCurrentValidations st) ++ ?l) with ((val :: currents (mCurrentValidations st)) ++ l).
      rewrite <-(currents_replace _ k val old Hk). cbn. rewrite (app_assoc (currents _) (mStaleValidations st) (old :: _)), (app_assoc (currents _) (mStaleValidations st) (batch _ ++ _)).
      symmetry. apply Permutation_middle.
    + intros _. rewrite P3. cbn. by rewrite decide_True.
  - split_and!; [by split|by rewrite (apart_kept _ _ Ha)|done|done|done|by intros _].
Qed.

Lemma kept_add st st' k p : currents (mCurrentValidations st') ≡ₚ p :: currents (mCurrentValidations st) →
  mStaleValidations st' = mStaleValidations st → job st' = job st → written st' = written st → kept st' ≡ₚ p :: kept st.
Proof. intros Hc E1 E2 E3. unfold kept. by rewrite Hc, E1, E2, E3. Qed.

Lemma store_validation_ok clock k val st : valid_ok st →
  let '(o, st') := store_validation clock k val st in
  valid_ok st' ∧ kept st' ≡ₚ (if o is Some true then [val] else []) ++ kept st
  ∧ (o = Some true → mCurrentValidations st' !! k = Some (Some val)).
Proof.
  intros Hok. unfold store_validation. destruct (findCreateSet_apart clock (sfLedgerHash (heap st val)) st) as [Ha Hh].
  destruct (findCreateSet clock _ st) as [j st1]. cbn [snd] in Ha, Hh. destruct (set_at j st1 !! k).
  { split_and!; [by apply (apart_ok st)|by rewrite (apart_kept _ _ Ha)|done]. }
  set (st2 := put_set _ _ st1). assert (apart st st2) as Ha2 by exact Ha.
  pose proof (apart_ok _ _ Ha2 Hok) as Hok2. rewrite <-(apart_kept _ _ Ha2). pose proof Hok2 as [N S J].
  destruct (mCurrentValidations st2 !! k) as [[old|]|] eqn:E; [|by apply N in E|].
  - pose proof (replace_current_ok clock k val old st2 Hok2 E) as Hr.
    destruct (replace_current clock k val old st2) as [isC st3]. destruct Hr as (H1&H2&_&H4&_).
    split_and!; [done|by destruct isC|]. intros [= ->]. rewrite H4. apply lookup_insert_eq.
  - split_and!.
    + split; cbn; [|done|done]. intros k'. intros [[_ ?]|[_ ?]]%lookup_insert_Some; [done|by eapply N].
    + apply (kept_add st2 _ k); try done. by apply currents_insert.
    + intros _. apply lookup_insert_eq.
Qed.

(** The validations that a call of [addValidation] makes current. *)
Definition accepts (gt gl : PublicKey → option PublicKey) (now clock : Z) (val : Ptr) (st : Validations) : list Ptr :=
  let '(key, st1) := find_signer gt gl val st in
  match key with
  | Some k => if current now (heap st val) then if (store_validation clock k val st1).1 is Some true then [val] else [] else []
  | None => []
  end.

Lemma store_validation_frame clock k val st : mTrusted (heap (store_validation clock k val st).2 val) = mTrusted (heap st val)
  ∧ sfLedgerSequence (heap (store_validation clock k val st).2 val) = sfLedgerSequence (heap st val).
Proof.
  unfold store_validation. destruct (findCreateSet_apart clock (sfLedgerHash (heap st val)) st) as [_ Hh].
  destruct (findCreateSet clock _ st) as [j st1]. cbn [snd] in Hh. destruct (set_at j st1 !! k); [cbn; by rewrite Hh|].
  set (st2 := put_set _ _ st1). assert (heap st2 = heap st) as Hh2 by exact Hh. clearbody st2.
  destruct (mCurrentValidations st2 !! k) as [[old|]|]; [|cbn; by rewrite Hh2..].
  unfold replace_current. set (other := negb _). set (st3 := if _ && other then _ else st2).
  assert (heap st3 = heap st) as Hh3.
  { unfold st3. destruct (_ && other); [|done]. destruct (findSet_apart clock (sfLedgerHash (heap st2 old)) st2) as [_ Hh3].
    destruct (findSet clock _ st2) as [[j'|] st4]; cbn in *; congruence. }
  destruct ((_ <? _) || other); cbn; [|by rewrite Hh3]. unfold condWrite. case_match; cbn; rewrite decide_True by done; by rewrite Hh3.
Qed.

Lemma addValidation_ok gt gl now clock val st : valid_ok st →
  match addValidation gt gl now clock val st with
  | Ok (b, call, st') =>
      valid_ok st' ∧ kept st' ≡ₚ accepts gt gl now clock val st ++ kept st
      ∧ b = bool_decide (accepts gt gl now clock val st = [val]) && mTrusted (heap st' val)
      ∧ call = (if b then Some (sfLedgerHash (heap st val), default 0 (sfLedgerSequence (heap st val))) else None)
  | Err _ => (find_signer gt gl val st).1 = None ∧ mTrusted (heap st val) = true
  end.
Proof.
  intros Hok. unfold addValidation, accepts. pose proof (find_signer_apart gt gl val st) as Ha.
  assert (mTrusted (heap (find_signer gt gl val st).2 val) = mTrusted (heap st val) || bool_decide (is_Some (gt (sfSigningPubKey (heap st val))))
    ∧ sfLedgerSequence (heap (find_signer gt gl val st).2 val) = sfLedgerSequence (heap st val)) as [Ht Hq].
  { unfold find_signer. cbn. destruct (mTrusted (heap st val)) eqn:Et; cbn; [by rewrite Et|].
    case_bool_decide; cbn; [by rewrite decide_True|by rewrite Et]. }
  assert ((find_signer gt gl val st).1 = None → gt (sfSigningPubKey (heap st val)) = None) as Hnone.
  { unfold find_signer. cbn. by case_match. }
  destruct (find_signer gt gl val st) as [key st1]. cbn [fst snd] in *.
  pose proof (apart_ok _ _ Ha Hok) as Hok1. pose proof (apart_kept _ _ Ha) as Hk1.
  destruct key as [k|].
  - rewrite (bool_decide_true (is_Some (Some k))) by (by eexists). rewrite orb_true_r, andb_true_r. cbn [deref].
    destruct (current now (heap st val)); cbn [mbind res_bind].
    + pose proof (store_validation_ok clock k val st1 Hok1) as Hs. destruct (store_validation_frame clock k val st1) as [Ft Fq].
      destruct (store_validation clock k val st1) as [[[]|] st2]; cbn [fst snd] in *; destruct Hs as (H1&H2&_).
      * rewrite andb_true_r. rewrite (bool_decide_true ([val] = [val])) by done. cbn [andb].
        destruct (mTrusted (heap st2 val)) eqn:Et2; split_and!; try done; [by rewrite H2, Hk1|by rewrite Fq, Hq|by rewrite H2, Hk1].
      * rewrite andb_false_r. split_and!; try done. by rewrite H2, Hk1.
      * split_and!; try done. by rewrite H2, Hk1.
    + rewrite andb_false_r. split_and!; try done. by rewrite Hk1.
  - rewrite (bool_decide_false (is_Some None)) by (by intros []). rewrite orb_false_r. specialize (Hnone eq_refl).
    rewrite Hnone in Ht. rewrite (bool_decide_false (is_Some None)), orb_false_r in Ht by (by intros []). rewrite Ht.
    destruct (current now (heap st val)), (mTrusted (heap st val)) eqn:Et; cbn [andb deref mbind res_bind]; try done;
      rewrite ?Ht; cbn [andb]; split_and!; try done; by rewrite Hk1.
Qed.

(** *** Visiting the current validations *)

Definition live_at (now : Z) (st : Validations) (o : option Ptr) : option Ptr :=
  match o with Some p => if current now (heap st p) then Some p else None | None => None end.

(** The latest validation of each validator that is still current. *)
Definition live (now : Z) (st : Validations) : gmap PublicKey Ptr := omap (live_at now st) (mCurrentValidations st).

Lemma lookup_live now st k p : live now st !! k = Some p ↔ mCurrentValidations st !! k = Some (Some p) ∧ current now (heap st p) = true.
Proof.
  unfold live. rewrite lookup_omap. destruct (mCurrentValidations st !! k) as [[q|]|]; cbn; [|split; [done|by intros [? _]]..].
  destruct (current now (heap st q)) eqn:E; split; [by intros [= ->]|intros [[= ->] ?]; congruence|done|intros [[= ->] ?]; congruence].
Qed.

Lemma add_stale_ok st k p : valid_ok st → mCurrentValidations st !! k = Some (Some p) →
  let st' := set_current (delete k (mCurrentValidations (add_stale p st))) (add_stale p st) in
  valid_ok st' ∧ kept st' ≡ₚ kept st ∧ heap st' = heap st ∧ mCurrentValidations st' = delete k (mCurrentValidations st).
Proof.
  intros [N S J] Hk. unfold add_stale. destruct (condWrite_ok (set_stale (mStaleValidations st ++ [p]) st)) as (H1&K1&(C1&S1&P1&W1)); [done..|].
  cbn. split_and!.
  - destruct H1 as [N1 S1' J1]. split; [|done|done]. cbn. rewrite C1. cbn. intros k' [_ ?]%lookup_delete_Some. by eapply N.
  - rewrite C1. unfold kept in *. rewrite C1 in K1. cbn in *. apply app_inv_head in K1. rewrite K1.
    rewrite (currents_delete _ k p Hk). cbn. rewrite <-!app_assoc. cbn.
    rewrite (app_assoc (currents _) (mStaleValidations st) (p :: _)), (app_assoc (currents _) (mStaleValidations st) (batch _ ++ _)).
    symmetry. apply Permutation_middle.
  - by rewrite P1.
  - by rewrite C1.
Qed.

Lemma visit_current_spec now (order : list PublicKey) : ∀ st, valid_ok st → NoDup order →
  let '(l, st') := visit_current now order st in
  valid_ok st' ∧ kept st' ≡ₚ kept st ∧ heap st' = heap st
  ∧ (∀ k, mCurrentValidations st' !! k = if decide (k ∈ order) then Some <$> live now st !! k else mCurrentValidations st !! k)
  ∧ (∀ k p, (k, p) ∈ l ↔ k ∈ order ∧ live now st !! k = Some p) ∧ NoDup l.*1.
Proof.
  induction order as [|k order IH]; intros st Hok Hnd; cbn [visit_current].
  { split_and!; [done..|intros k p; split; [by intros ?%elem_of_nil|by intros [?%elem_of_nil _]]|apply NoDup_nil_2]. }
  apply NoDup_cons in Hnd as [Hk Hnd].
  assert (∀ q, k ∈ q :: order → q = k) as Hq by (intros q [->|?]%elem_of_cons; done).
  destruct (mCurrentValidations st !! k) as [[p|]|] eqn:E; [|by apply (vo_null _ Hok) in E|].
  - destruct (current now (heap st p)) eqn:Ec.
    + pose proof (IH st Hok Hnd) as H. destruct (visit_current now order st) as [l st']. destruct H as (H1&H2&H3&H4&H5&H6).
      assert (live now st !! k = Some p) as Hl by (by apply lookup_live).
      split_and!; try done.
      * intros k'. rewrite H4. destruct (decide (k' = k)) as [->|Hne].
        -- rewrite decide_False, decide_True by (done || by left). by rewrite Hl, E.
        -- destruct (decide (k' ∈ order)) as [Hin|Hin]; [by rewrite decide_True by (by right)|]. rewrite decide_False; [done|].
           by intros [|]%elem_of_cons.
      * intros k' p'. rewrite !elem_of_cons, H5. split.
        -- intros [[= -> ->]|[? ?]]; [by split; [left|]|by split; [right|]].
        -- intros [[->|?] Hl']; [left; congruence|by right].
      * cbn. apply NoDup_cons. split; [|done]. intros ([k' p']&->&Hin)%list_elem_of_fmap. by apply H5 in Hin as [? _].
    + destruct (add_stale_ok st k p Hok E) as (G1&G2&G3&G4). set (st1 := set_current _ _) in *.
      pose proof (IH st1 G1 Hnd) as H. destruct (visit_current now order st1) as [l st']. destruct H as (H1&H2&H3&H4&H5&H6).
      assert (∀ k', k' ≠ k → live now st1 !! k' = live now st !! k') as Hlive.
      { intros k' Hne. unfold live, live_at. rewrite !lookup_omap, G3, G4, lookup_delete_ne by done. done. }
      assert (live now st !! k = None) as Hl by (unfold live; rewrite lookup_omap, E; cbn; by rewrite Ec).
      split_and!; [done|by rewrite H2|congruence| | |done].
      * intros k'. rewrite H4. destruct (decide (k' = k)) as [->|Hne].
        -- rewrite decide_False, decide_True by (done || by left). by rewrite Hl, G4, lookup_delete_eq.
        -- rewrite Hlive by done. destruct (decide (k' ∈ order)) as [Hin|Hin]; [by rewrite decide_True by (by right)|].
           rewrite decide_False by (by intros [|]%elem_of_cons). by rewrite G4, lookup_delete_ne.
      * intros k' p'. rewrite H5, elem_of_cons. destruct (decide (k' = k)) as [->|Hne]; [|rewrite Hlive by done]; naive_solver.
  - assert (live now st !! k = None) as Hl by (unfold live; by rewrite lookup_omap, E).
    pose proof (IH st Hok Hnd) as H. destruct (visit_current now order st) as [l st']. destruct H as (H1&H2&H3&H4&H5&H6).
    split_and!; try done.
    + intros k'. rewrite H4. destruct (decide (k' = k)) as [->|Hne].
      * rewrite decide_False, decide_True by (done || by left). by rewrite Hl.
      * destruct (decide (k' ∈ order)) as [Hin|Hin]; [by rewrite decide_True by (by right)|]. rewrite decide_False; [done|].
        by intros [|]%elem_of_cons.
    + intros k' p'. rewrite H5, elem_of_cons. naive_solver.
Qed.

Lemma visit_current_ok now (order : list PublicKey) st : valid_ok st → order ≡ₚ (map_to_list (mCurrentValidations st)).*1 →
  let '(l, st') := visit_current now order st in
  valid_ok st' ∧ kept st' ≡ₚ kept st ∧ heap st' = heap st ∧ mCurrentValidations st' = Some <$> live now st
  ∧ l ≡ₚ map_to_list (live now st).
Proof.
  intros Hok Ho. assert (NoDup order) as Hnd by (rewrite Ho; apply NoDup_fst_map_to_list).
  assert (∀ k, k ∈ order ↔ is_Some (mCurrentValidations st !! k)) as Hin.
  { intros k. rewrite Ho. split.
    - intros ([k' o]&->&H%elem_of_map_to_list)%list_elem_of_fmap. by eexists.
    - intros [o H]. apply list_elem_of_fmap. exists (k, o). by rewrite elem_of_map_to_list. }
  pose proof (visit_current_spec now order st Hok Hnd) as H. destruct (visit_current now order st) as [l st'].
  destruct H as (H1&H2&H3&H4&H5&H6). split_and!; try done.
  - apply map_eq. intros k. rewrite H4, lookup_fmap. case_decide as Hk; [done|]. rewrite Hin in Hk.
    destruct (mCurrentValidations st !! k) eqn:E; [destruct Hk; by eexists|]. unfold live. by rewrite lookup_omap, E.
  - apply NoDup_Permutation; [by eapply NoDup_fmap_1|apply NoDup_map_to_list|]. intros [k p]. rewrite H5, elem_of_map_to_list, Hin.
    split; [by intros [_ ?]|]. intros Hl. split; [|done]. apply lookup_live in Hl as [-> _]. by eexists.
Qed.

(** *** Flushing and writing *)

Lemma keys_currents (m : gmap PublicKey (option Ptr)) (order : list PublicKey) : order ≡ₚ (map_to_list m).*1 →
  omap (fun k => mjoin (m !! k)) order ≡ₚ currents m.
Proof.
  intros ->. unfold currents. assert (∀ k o, (k, o) ∈ map_to_list m → m !! k = Some o) as Hin by (intros k o; apply elem_of_map_to_list).
  induction (map_to_list m) as [|[k o] l IH]; [done|]. cbn. rewrite (Hin k o) by (by left). cbn.
  destruct o; [constructor|]; apply IH; intros k' o' ?; apply Hin; by right.
Qed.

Lemma flush_kept (order : list PublicKey) st : valid_ok st → order ≡ₚ (map_to_list (mCurrentValidations st)).*1 →
  valid_ok (flush order st) ∧ kept (flush order st) ≡ₚ kept st ∧ mCurrentValidations (flush order st) = ∅
  ∧ written (flush order st) = written st.
Proof.
  intros [N S J] Ho. unfold flush. set (st1 := set_current ∅ _).
  assert (kept st1 ≡ₚ kept st) as Hk.
  { unfold kept, st1. cbn. rewrite <-(keys_currents _ order Ho). unfold currents. rewrite map_to_list_empty. cbn.
    rewrite !app_assoc. do 2 f_equiv. apply Permutation_app_comm. }
  case_decide as E.
  - split_and!; try done. split; [by intros k|cbn; subst order; cbn; by rewrite app_nil_r|done].
  - destruct (condWrite_ok st1) as (H1&K1&(C1&_&_&W1)); [by intros k|done|]. split_and!; [done|by rewrite K1|by rewrite C1|by rewrite W1].
Qed.

Lemma write_next_ok st : valid_ok st → job st ≠ NoJob →
  valid_ok (write_next st) ∧ kept (write_next st) = currents (mCurrentValidations st) ++ mStaleValidations st ++ written st.
Proof.
  intros [N S J] Hj. unfold write_next. destruct (mStaleValidations st) as [|p l] eqn:E.
  - split; [split; [done|by cbn; rewrite E|done]|]. unfold kept. cbn. by rewrite E.
  - split; [split; [done|done|cbn; rewrite J; by destruct (job st)]|]. done.
Qed.

Lemma doWrite_ok st : valid_ok st → ∃ st', doWrite st = Ok st' ∧ valid_ok st' ∧ kept st' ≡ₚ kept st.
Proof.
  intros Hok. pose proof Hok as [N S J]. unfold doWrite. destruct (job st) as [| |l] eqn:Ej.
  - eauto.
  - rewrite J. cbn [assert_ mbind res_bind]. eexists. split; [done|]. destruct (write_next_ok st Hok) as [H1 ->]; [by rewrite Ej|].
    split; [done|]. unfold kept. by rewrite Ej.
  - eexists. split; [done|]. set (st1 := set_job _ _ _ st). destruct (write_next_ok st1) as [H1 ->]; [split; cbn; by rewrite ?Ej|done|].
    split; [done|]. unfold kept, st1. cbn. rewrite Ej. cbn. do 2 f_equiv. apply Permutation_app_comm.
Qed.

(** ** Runs *)

(** One call on the object, or a step of the writing job; the list has the validations that
    become current. *)
Inductive vstep : Validations → list Ptr → Validations → Prop :=
| vs_new p (v : STValidation) st : p ∉ kept st → vstep st [] (modify p (fun _ => v) st)
| vs_add gt gl now clock val st b call st' : addValidation gt gl now clock val st = Ok (b, call, st') →
    vstep st (accepts gt gl now clock val st) st'
| vs_validations clock h st : vstep st [] (getValidations clock h st).2
| vs_count clock h st : vstep st [] (getTrustedValidationCount clock h st).2
| vs_fees clock h base st : vstep st [] (fees clock h base st).2
| vs_times clock h st : vstep st [] (getValidationTimes clock h st).2
| vs_trusted now order st : order ≡ₚ (map_to_list (mCurrentValidations st)).*1 →
    vstep st [] (getCurrentTrustedValidations now order st).2
| vs_keys now order st : order ≡ₚ (map_to_list (mCurrentValidations st)).*1 → vstep st [] (getCurrentPublicKeys now order st).2
| vs_current c pr cut now order st : order ≡ₚ (map_to_list (mCurrentValidations st)).*1 →
    vstep st [] (getCurrentValidations zero c pr cut now order st).2
| vs_flush order st : order ≡ₚ (map_to_list (mCurrentValidations st)).*1 → vstep st [] (flush order st)
| vs_sweep clock order st : vstep st [] (sweep_validations clock order st)
| vs_write st st' : doWrite st = Ok st' → vstep st [] st'.

Inductive vreach (h : Ptr → STValidation) : list Ptr → Validations → Prop :=
| vr_init : vreach h [] (Validations_init h)
| vr_step acc st a st' : vreach h acc st → vstep st a st' → vreach h (a ++ acc) st'.

Lemma trusted_of_apart clock h st : apart st (trusted_of clock h st).2 ∧ apart st (getValidations clock h st).2.
Proof.
  unfold trusted_of, getValidations. destruct (findSet_apart clock h st) as [Ha _]. by destruct (findSet clock h st) as [[j|] st1].
Qed.

Lemma vstep_ok st a st' : vstep st a st' → valid_ok st → valid_ok st' ∧ kept st' ≡ₚ a ++ kept st.
Proof.
  assert (∀ st st', apart st st' → valid_ok st → valid_ok st' ∧ kept st' ≡ₚ [] ++ kept st) as Hapart.
  { intros s1 s2 Ha Hok. split; [by apply (apart_ok s1)|by rewrite (apart_kept _ _ Ha)]. }
  assert (∀ st now order, order ≡ₚ (map_to_list (mCurrentValidations st)).*1 → valid_ok st →
    valid_ok (visit_current now order st).2 ∧ kept (visit_current now order st).2 ≡ₚ [] ++ kept st) as Hvisit.
  { intros s1 now order Ho Hok. pose proof (visit_current_ok now order s1 Hok Ho) as H.
    destruct (visit_current now order s1). by destruct H as (?&?&_). }
  intros [p v s1 Hp|gt gl now clock val s1 b call s2 H|clock h s1|clock h s1|clock h base s1|clock h s1|now order s1 Ho|now order s1 Ho
    |c pr cut now order s1 Ho|order s1 Ho|clock order s1|s1 s2 H] Hok.
  - by apply Hapart.
  - pose proof (addValidation_ok gt gl now clock val s1 Hok) as Ha. rewrite H in Ha. by destruct Ha as (?&?&_).
  - apply Hapart; [|done]. apply trusted_of_apart.
  - apply Hapart; [|done]. unfold getTrustedValidationCount. destruct (trusted_of_apart clock h s1) as [Ha _]. by destruct (trusted_of clock h s1).
  - apply Hapart; [|done]. unfold fees. destruct (trusted_of_apart clock h s1) as [Ha _]. by destruct (trusted_of clock h s1).
  - apply Hapart; [|done]. unfold getValidationTimes. destruct (trusted_of_apart clock h s1) as [Ha _]. by destruct (trusted_of clock h s1).
  - pose proof (Hvisit s1 now order Ho Hok) as Hv. unfold getCurrentTrustedValidations. by destruct (visit_current now order s1).
  - pose proof (Hvisit s1 now order Ho Hok) as Hv. unfold getCurrentPublicKeys. by destruct (visit_current now order s1).
  - pose proof (Hvisit s1 now order Ho Hok) as Hv. unfold getCurrentValidations. by destruct (visit_current now order s1).
  - by destruct (flush_kept order s1 Hok Ho) as (?&?&_).
  - by apply Hapart.
  - destruct (doWrite_ok s1 Hok) as (s3&H3&?&?). rewrite H in H3. by injection H3 as <-.
Qed.

Lemma vreach_ok h acc st : vreach h acc st → valid_ok st ∧ kept st ≡ₚ acc.
Proof.
  induction 1 as [|acc st a st' _ [Hok Hk] Hs]; [by split; [split|]|].
  destruct (vstep_ok _ _ _ Hs Hok) as [H1 H2]. split; [done|]. by rewrite H2, Hk.
Qed.

Lemma deref_all_ok (m : gmap PublicKey (option Ptr)) : (∀ k, m !! k ≠ Some None) → deref_all (map_to_list m).*2 = Ok (currents m).
Proof.
  intros Hn. unfold currents. assert (∀ k o, (k, o) ∈ map_to_list m → is_Some o) as Hin.
  { intros k [p|] Hk%elem_of_map_to_list; [by eexists|by apply Hn in Hk]. }
  induction (map_to_list m) as [|[k o] l IH]; [done|]. cbn. destruct (Hin k o) as [p ->]; [by left|]. cbn.
  rewrite IH; [done|]. intros k' o' ?. apply (Hin k'). by right.
Qed.

(** C12: Whatever the interleaving of calls and of the job that writes, the validations
    that were ever made current are, each as often as it was made current, the current
    ones, the stale ones, the batch being written and those in the database; while there
    are stale ones a write is pending; the assertion of the job holds, and the queries
    that dereference every current validation meet no null pointer. *)
Theorem validations_conserved h acc st :
  vreach h acc st →
  kept st ≡ₚ acc ∧ (mStaleValidations st ≠ [] → mWriting st = true ∧ job st ≠ NoJob)
  ∧ is_ok (doWrite st) = true ∧ (∀ ledger, is_ok (getNodesAfter ledger st) = true)
  ∧ ∀ overLoaded, ∃ n, getLoadRatio overLoaded st = Ok n ∧ 0 <= n <= 100.
Proof.
  intros [Hok Hk]%vreach_ok. pose proof Hok as [N S J]. split_and!; [done| | | |].
  - intros Hs. split; [by apply S|]. intros E. rewrite E, S in J by done. done.
  - destruct (doWrite_ok st Hok) as (st'&->&_). done.
  - intros ledger. unfold getNodesAfter. by rewrite deref_all_ok.
  - intros b. unfold getLoadRatio. rewrite deref_all_ok by done. cbn [mbind res_bind]. eexists. split; [done|].
    set (tr := filter _ (currents _)). set (full := Z.of_nat (length (filter _ tr))).
    assert (0 <= full <= Z.of_nat (length tr)) by (pose proof (length_filter (fun p => isFull (heap st p) = true) tr); unfold full; lia).
    destruct b; (split; [apply Z.div_pos; lia|apply Z.div_le_upper_bound; lia]).
Qed.

(** The writing job alone, for [n] steps. *)
Fixpoint run_writer (n : nat) (st : Validations) : res Validations :=
  match n with O => Ok st | S n => st ← doWrite st; run_writer n st end.

(** C13: After flush, at any point of the work of the writing job, two more steps of the
    job end it, which is what flush waits for, and every validation that was ever
    current is then in the database. *)
Theorem flush_writes_all h acc st (order : list PublicKey) :
  vreach h acc st → order ≡ₚ (map_to_list (mCurrentValidations st)).*1 →
  ∃ st', run_writer 2 (flush order st) = Ok st' ∧ mWriting st' = false ∧ mCurrentValidations st' = ∅ ∧ written st' ≡ₚ acc.
Proof.
  intros [Hok Hk]%vreach_ok Ho. destruct (flush_kept order st Hok Ho) as (H1&K1&C1&_). set (s1 := flush order st) in *. clearbody s1.
  rewrite Hk in K1. pose proof H1 as [_ S J]. unfold kept in K1. rewrite C1 in K1. unfold currents in K1. rewrite map_to_list_empty in K1. cbn in K1.
  cbn [run_writer]. unfold doWrite. destruct (job s1) as [| |l] eqn:Ej; cbn in K1, J.
  - cbn. rewrite Ej. cbn. exists s1. split_and!; try done. destruct (mStaleValidations s1); [done|]. by rewrite S in J.
  - rewrite J. cbn. unfold write_next. destruct (mStaleValidations s1) as [|p l] eqn:E; cbn; eexists; split_and!; try done.
    rewrite <-K1. apply (Permutation_app_comm (written s1) (p :: l)).
  - unfold write_next. cbn. destruct (mStaleValidations s1) as [|p l'] eqn:E; cbn; eexists; split_and!; try done.
    + rewrite <-K1. apply (Permutation_app_comm (written s1) l).
    + cbn. rewrite <-K1, (Permutation_app_comm (written s1) l). apply (Permutation_app_comm _ (p :: l')).
Qed.

(** ** The latest validation of a validator *)

Lemma fetch_none_absent (owners : N → Z) clock (h : Hash) (c c' : TaggedCache Hash N) :
  fetch owners clock h c = (None, c') → m_cache c' !! h = None.
Proof.
  unfold fetch. destruct (m_cache c !! h) as [e|] eqn:E; [|by intros [= <-]].
  unfold isCached, isWeak. cbn. destruct (ptr e); cbn; [done|]. destruct (lock _ _ _); cbn; [done|]. intros [= <-]. cbn. apply lookup_delete_eq.
Qed.

(** The set that is found or made holds what a query of the ledger returns. *)
Lemma findCreateSet_contents clock h st : set_at (findCreateSet clock h st).1 (findCreateSet clock h st).2 = (getValidations clock h st).1.
Proof.
  unfold findCreateSet, getValidations, findSet. destruct (fetch _ _ _ _) as [[j|] c] eqn:E; [done|].
  unfold canonicalize. cbn [mValidations set_sets]. rewrite (fetch_none_absent _ _ _ _ _ E). cbn. unfold set_at. cbn. by rewrite lookup_insert_eq.
Qed.

Lemma store_validation_replaces clock k val old st : valid_ok st → mCurrentValidations st !! k = Some (Some old) →
  let '(o, st') := store_validation clock k val st in
  match (getValidations clock (sfLedgerHash (heap st val)) st).1 !! k with
  | Some _ => o = None ∧ mCurrentValidations st' = mCurrentValidations st
  | None =>
      if (sfSigningTime (heap st old) <? sfSigningTime (heap st val))
         || negb (bool_decide (sfSigningPubKey (heap st val) = sfSigningPubKey (heap st old)))
      then o = Some true ∧ mCurrentValidations st' = <[k := Some val]> (mCurrentValidations st)
           ∧ mPreviousHash (heap st' val) = sfLedgerHash (heap st old)
      else o = Some false ∧ mCurrentValidations st' = mCurrentValidations st
  end.
Proof.
  intros Hok Hk. unfold store_validation. destruct (findCreateSet_apart clock (sfLedgerHash (heap st val)) st) as [Ha Hh].
  pose proof (findCreateSet_contents clock (sfLedgerHash (heap st val)) st) as Hc.
  destruct (findCreateSet clock _ st) as [j st1]. cbn [fst snd] in *. rewrite <-Hc. pose proof Ha as (E1&_).
  destruct (set_at j st1 !! k); [by rewrite E1|]. set (st2 := put_set _ _ st1).
  assert (mCurrentValidations st2 = mCurrentValidations st ∧ heap st2 = heap st ∧ valid_ok st2) as (C2&H2&Hok2) by
    (split_and!; [exact E1|exact Hh|exact (apart_ok st st2 Ha Hok)]).
  clearbody st2. rewrite C2, Hk. rewrite <-C2 in Hk. pose proof (replace_current_ok clock k val old st2 Hok2 Hk) as Hr.
  destruct (replace_current clock k val old st2) as [isC st3]. rewrite H2, C2 in Hr. destruct Hr as (_&_&<-&->&Hp&_).
  destruct isC; auto.
Qed.

(** A current validation of a validator whose latest one is known replaces it exactly
    when the ledger has none of this validator yet and it was signed later or with
    another key; it then remembers the ledger of the one it replaces, and is reported if
    it is trusted. Otherwise the current validations do not change and nothing is
    reported. *)
Theorem newest_validation_wins h acc gt gl now clock val old k st st1 b call st' :
  vreach h acc st → find_signer gt gl val st = (Some k, st1) → current now (heap st val) = true →
  mCurrentValidations st !! k = Some (Some old) → val ≠ old →
  addValidation gt gl now clock val st = Ok (b, call, st') →
  match (getValidations clock (sfLedgerHash (heap st val)) st).1 !! k with
  | Some _ => b = false ∧ mCurrentValidations st' = mCurrentValidations st
  | None =>
      if (sfSigningTime (heap st old) <? sfSigningTime (heap st val))
         || negb (bool_decide (sfSigningPubKey (heap st val) = sfSigningPubKey (heap st old)))
      then b = mTrusted (heap st' val) ∧ mCurrentValidations st' = <[k := Some val]> (mCurrentValidations st)
           ∧ mPreviousHash (heap st' val) = sfLedgerHash (heap st old)
      else b = false ∧ mCurrentValidations st' = mCurrentValidations st
  end.
Proof.
  intros [Hok _]%vreach_ok Hf Hcur Hk Hne H. pose proof (find_signer_apart gt gl val st) as Ha. unfold addValidation in H.
  assert (heap st1 old = heap st old ∧ sfSigningTime (heap st1 val) = sfSigningTime (heap st val)
    ∧ sfSigningPubKey (heap st1 val) = sfSigningPubKey (heap st val) ∧ sfLedgerHash (heap st1 val) = sfLedgerHash (heap st val)
    ∧ (getValidations clock (sfLedgerHash (heap st val)) st1).1 = (getValidations clock (sfLedgerHash (heap st val)) st).1) as (F1&F2&F3&F4&F5).
  { unfold find_signer in Hf. injection Hf as _ <-. destruct (negb _ && _); [|done]. cbn. rewrite decide_False, decide_True by done. split_and!; try done.
    unfold getValidations, findSet. cbn. destruct (fetch _ _ _ _) as [[j|] c]; done. }
  rewrite Hf in H, Ha. cbn [snd] in Ha. pose proof (apart_ok _ _ Ha Hok) as Hok1. pose proof Ha as (E1&_). rewrite <-E1 in Hk.
  rewrite Hcur, (bool_decide_true (is_Some (Some k))), orb_true_r in H by (by eexists). cbn [andb deref mbind res_bind] in H.
  pose proof (store_validation_replaces clock k val old st1 Hok1 Hk) as Hs. rewrite F1, F2, F3, F4, F5, E1 in Hs.
  destruct (store_validation clock k val st1) as [o st2]. destruct ((getValidations _ _ _).1 !! k).
  { destruct Hs as [-> <-]. by injection H as <- <- <-. }
  destruct (_ || _).
  - destruct Hs as (->&<-&Hp). rewrite andb_true_r in H. destruct (mTrusted (heap st2 val)) eqn:Et; injection H as <- <- <-; by rewrite Et.
  - destruct Hs as (->&<-). rewrite andb_false_r in H. by injection H as <- <- <-.
Qed.

(** ** Counting the current validations *)

Section Counting.
Context (currentLedger priorLedger : Hash) (cutoff : Z).

Definition votes_for_ledger (st : Validations) (h : Hash) (p : Ptr) : bool :=
  countable cutoff (heap st p) && bool_decide (counts_for zero currentLedger priorLedger (heap st p) = h).

(** The validators whose latest current validation counts for a ledger. *)
Definition validators (now : Z) (st : Validations) (h : Hash) : gset PublicKey :=
  dom (filter (fun kp => votes_for_ledger st h kp.2 = true) (live now st)).

Definition highest (st : Validations) (n : N) (ps : list Ptr) : N := foldl (fun n p => N.max n (mNodeID (heap st p))) n ps.

Definition count_step (st : Validations) (ret : gmap Hash (Z * N)) (kp : PublicKey * Ptr) : gmap Hash (Z * N) :=
  if countable cutoff (heap st kp.2) then count_validation zero currentLedger priorLedger (heap st kp.2) ret else ret.

Lemma count_step_lookup st ret kp h : count_step st ret kp !! h =
  if votes_for_ledger st h kp.2
  then Some ((default (0, 0%N) (ret !! h)).1 + 1, N.max (default (0, 0%N) (ret !! h)).2 (mNodeID (heap st kp.2)))
  else ret !! h.
Proof.
  unfold count_step, votes_for_ledger, count_validation. destruct (countable cutoff (heap st kp.2)); [|done]. cbn [andb].
  destruct (default (0, 0%N) (ret !! counts_for zero currentLedger priorLedger (heap st kp.2))) as [n ni] eqn:E.
  case_bool_decide as Hc.
  - subst h. rewrite lookup_insert_eq, E. cbn. do 2 f_equal. destruct (N.ltb_spec ni (mNodeID (heap st kp.2))); lia.
  - by rewrite lookup_insert_ne.
Qed.

Lemma count_fold st h (l : list (PublicKey * Ptr)) : ∀ ret,
  let vs := filter (fun p => votes_for_ledger st h p = true) l.*2 in
  foldl (count_step st) ret l !! h =
  match vs with
  | [] => ret !! h
  | _ => Some ((default (0, 0%N) (ret !! h)).1 + Z.of_nat (length vs), highest st (default (0, 0%N) (ret !! h)).2 vs)
  end.
Proof.
  induction l as [|kp l IH]; intros ret; cbn [foldl fmap list_fmap]; [done|]. cbv zeta in IH |- *. rewrite IH, count_step_lookup, filter_cons.
  destruct (votes_for_ledger st h kp.2) eqn:E.
  - rewrite decide_True by done. cbn [default]. destruct (filter _ l.*2) as [|q vs]; cbn; [done|]. do 2 f_equal. lia.
  - rewrite decide_False by done. done.
Qed.

Lemma size_validators now st h (l : list (PublicKey * Ptr)) : l ≡ₚ map_to_list (live now st) →
  length (filter (fun p => votes_for_ledger st h p = true) l.*2) = size (validators now st h).
Proof.
  intros Hl. unfold validators. rewrite size_dom_filter, <-Hl. clear Hl.
  induction l as [|kp l IH]; [done|]. cbn [fmap list_fmap]. rewrite !filter_cons. case_decide; cbn [length]; by rewrite IH.
Qed.

Lemma getCurrentValidations_counts now (order : list PublicKey) st ret st' : valid_ok st → order ≡ₚ (map_to_list (mCurrentValidations st)).*1 →
  getCurrentValidations zero currentLedger priorLedger cutoff now order st = (ret, st') →
  ∀ h, match ret !! h with
       | None => validators now st h = ∅
       | Some (n, ni) => n = Z.of_nat (size (validators now st h)) ∧ 0 < n
           ∧ (∀ k p, k ∈ validators now st h → live now st !! k = Some p → (mNodeID (heap st p) <= ni)%N)
       end.
Proof.
  intros Hok Ho H h. unfold getCurrentValidations in H. pose proof (visit_current_ok now order st Hok Ho) as Hv.
  destruct (visit_current now order st) as [l st1]. destruct Hv as (_&_&Hh&_&Hl). injection H as <- <-. rewrite Hh.
  pose proof (count_fold st h l ∅) as Hf. cbv zeta in Hf. unfold count_step in Hf. rewrite Hf, lookup_empty. clear Hf. cbn [default fst snd].
  pose proof (size_validators now st h l Hl) as Hs.
  assert (∀ k p, k ∈ validators now st h → live now st !! k = Some p → p ∈ filter (fun p => votes_for_ledger st h p = true) l.*2) as Hin.
  { intros k p Hk Hp. unfold validators in Hk. apply elem_of_dom in Hk as (p'&[Hp' Hv']%map_lookup_filter_Some). rewrite Hp in Hp'. injection Hp' as <-.
    apply list_elem_of_filter. split; [done|]. apply list_elem_of_fmap. exists (k, p). split; [done|]. by rewrite Hl, elem_of_map_to_list. }
  destruct (filter (fun p => votes_for_ledger st h p = true) l.*2) as [|q vs].
  - apply leibniz_equiv, size_empty_inv. by rewrite <-Hs.
  - split_and!; [cbn in *; lia|cbn; lia|]. intros k p Hk Hp. specialize (Hin k p Hk Hp). unfold highest.
    revert Hin. generalize (q :: vs) as ps, 0%N as n. induction ps as [|a ps IH]; intros n; [by intros ?%elem_of_nil|]. cbn [foldl].
    assert (∀ ps n, (n <= foldl (fun n p => N.max n (mNodeID (heap st p))) n ps)%N) as Hmono.
    { clear. induction ps as [|b ps IH]; intros n; cbn [foldl]; [lia|]. specialize (IH (N.max n (mNodeID (heap st b)))). lia. }
    intros [->|Hin]%elem_of_cons; [specialize (Hmono ps (N.max n (mNodeID (heap st a)))); lia|by apply IH].
Qed.
End Counting.

(** ** The ledger of the network *)

Lemma preferred_spec (prev : Hash) (vals : list (Hash * Z)) : ∀ net count,
  ∃ n, count <= n ∧ ((preferred prev vals net count = net ∧ n = count) ∨ (preferred prev vals net count, n) ∈ vals)
    ∧ (∀ h m, (h, m) ∈ vals → m <= n)
    ∧ (preferred prev vals net count ≠ prev → (∀ m, (prev, m) ∈ vals → m < n) ∧ (net = prev → count < n)).
Proof.
  induction vals as [|[h x] vals IH]; intros net count; cbn [preferred].
  { exists count. split_and!; [lia|by left|by intros ? ? ?%elem_of_nil|]. intros Hne. split; [by intros m ?%elem_of_nil|done]. }
  destruct ((count <? x) || ((x =? count) && bool_decide (h = prev))) eqn:E.
  - assert (count < x ∨ (x = count ∧ h = prev)) as Hx.
    { apply orb_true_iff in E as [?%Z.ltb_lt|[?%Z.eqb_eq ?%bool_decide_eq_true]%andb_true_iff]; auto. }
    destruct (IH h x) as (n&Hn&Hr&Hall&Hprev). exists n. split_and!; [lia| | |].
    + right. destruct Hr as [[-> ->]|Hr]; [by left|by right].
    + intros h' m [[= -> ->]|Hin]%elem_of_cons; [done|by eapply Hall].
    + intros Hne. destruct (Hprev Hne) as [H1 H2]. split.
      * intros m [[= -> ->]|Hin]%elem_of_cons; auto.
      * intros ->. destruct Hx as [|[-> ->]]; [lia|auto].
  - apply orb_false_iff in E as [Hc%Z.ltb_ge Hx]. destruct (IH net count) as (n&Hn&Hr&Hall&Hprev). exists n. split_and!; [done| | |].
    + destruct Hr as [?|?]; [by left|right; by right].
    + intros h' m [[= -> ->]|Hin]%elem_of_cons; [lia|by eapply Hall].
    + intros Hne. destruct (Hprev Hne) as [H1 H2]. split; [|done]. intros m [[= <- <-]|Hin]%elem_of_cons; [|auto].
      rewrite (bool_decide_true (prev = prev)), andb_true_r in Hx by done. apply Z.eqb_neq in Hx. lia.
Qed.

(** C11: The ledger that consensus takes for the one of the network, from the counts of
    the current validations, has at least as many trusted validators behind it as any
    other, each validator counted once by its latest current validation; it is not ours
    only if strictly more validators are behind it than behind ours. *)
Theorem network_ledger_majority h0 acc st prev prior cutoff now (order : list PublicKey) ret st' (vals : list (Hash * Z)) :
  vreach h0 acc st → order ≡ₚ (map_to_list (mCurrentValidations st)).*1 →
  getCurrentValidations zero prev prior cutoff now order st = (ret, st') →
  vals ≡ₚ (fun hc => (hc.1, hc.2.1)) <$> map_to_list ret →
  let net := preferred prev vals prev 0 in
  (∀ h, size (validators prev prior cutoff now st h) ≤ size (validators prev prior cutoff now st net))%nat
  ∧ (net ≠ prev → size (validators prev prior cutoff now st prev) < size (validators prev prior cutoff now st net))%nat.
Proof.
  intros [Hok _]%vreach_ok Ho Hget Hvals. pose proof (getCurrentValidations_counts prev prior cutoff now order st ret st' Hok Ho Hget) as Hc.
  assert (∀ h n, (h, n) ∈ vals ↔ ∃ ni, ret !! h = Some (n, ni)) as Hin.
  { intros h n. rewrite Hvals, list_elem_of_fmap. split.
    - intros ([h' [n' ni]]&[= -> ->]&Hm%elem_of_map_to_list). by exists ni.
    - intros [ni Hm]. exists (h, (n, ni)). by rewrite elem_of_map_to_list. }
  assert (∀ h n, (h, n) ∈ vals → n = Z.of_nat (size (validators prev prior cutoff now st h))) as Hsize.
  { intros h n [ni Hm]%Hin. specialize (Hc h). rewrite Hm in Hc. by destruct Hc. }
  assert (∀ h, (∃ n, (h, n) ∈ vals) ∨ size (validators prev prior cutoff now st h) = 0%nat) as Hall.
  { intros h. specialize (Hc h). destruct (ret !! h) as [[n ni]|] eqn:E; [left; exists n; apply Hin; by exists ni|right]. rewrite Hc. apply size_empty. }
  destruct (preferred_spec prev vals prev 0) as (n&Hn&Hr&Hmax&Hprev). cbv zeta. set (net := preferred prev vals prev 0) in *.
  assert (Z.of_nat (size (validators prev prior cutoff now st net)) = n ∨ (n = 0 ∧ net = prev)) as Hnet.
  { destruct Hr as [[-> ->]|Hr]; [by right|left]. symmetry. by apply Hsize. }
  split.
  - intros h. destruct (Hall h) as [[m Hm]| ->]; [|lia]. pose proof (Hmax h m Hm). rewrite (Hsize h m Hm) in *.
    destruct Hnet as [|[-> Hnet]]; [lia|]. lia.
  - intros Hne. destruct (Hprev Hne) as [H1 H2]. specialize (H2 eq_refl). destruct Hnet as [Hnet|[_ ?]]; [|done].
    destruct (Hall prev) as [[m Hm]| ->]; [|lia]. pose proof (H1 m Hm). rewrite (Hsize prev m Hm) in *. lia.
Qed.
End Props.
