(* ===== verification/ValidationsExamples.v ===== *)
(** * Concrete runs of the validations

    Three validators, one of which moves on to the next ledger. *)

From S2P Require Import Prelude LedgerTiming Dispute Consensus LedgerConsensus TaggedCache Validations ValidationsProps.
Local Open Scope Z_scope.

Notation NVal := (@STValidation N N).
Notation NVals := (@Validations N N N _ _ _ _).

Definition validation (ledger : N) (time seq : Z) (key : N) : NVal :=
  mkValidation ledger time (Some seq) None 1 key key 0%N false 0.

Definition demo_heap (p : N) : NVal :=
  match p with
  | 1 => validation 100 1000 7 51
  | 2 => validation 101 1003 8 51
  | 3 => validation 100 1000 7 52
  | _ => validation 101 1002 8 53
  end%N.

Definition demo_add (p : N) (st : NVals) : res (bool * option (N * Z) * NVals) := addValidation Some Some 1001 0 p st.
Definition vadd (p : N) (st : NVals) : NVals := (unwrap (false, None, st) (demo_add p st)).2.

Lemma vadd_reach acc p (st : NVals) : vreach 0%N demo_heap acc st → accepts Some Some 1001 0 p st = [p] →
  is_ok (demo_add p st) = true → vreach 0%N demo_heap (p :: acc) (vadd p st).
Proof.
  intros Hr Ha Ho. change (p :: acc) with ([p] ++ acc). rewrite <-Ha. eapply vr_step; [done|].
  apply (unwrap_ok (false, None, st)) in Ho. unfold vadd. destruct (unwrap (false, None, st) (demo_add p st)) as [[b call] st'].
  by eapply vs_add.
Qed.

Definition demo_v3 : NVals := vadd 4%N (vadd 3%N (vadd 1%N (Validations_init demo_heap))).
Definition demo_v4 : NVals := vadd 2%N demo_v3.

Lemma demo_v3_reach : vreach 0%N demo_heap [4; 3; 1]%N demo_v3.
Proof. do 3 (apply vadd_reach; [|by vm_compute|by vm_compute]). apply vr_init. Qed.

Lemma demo_v4_reach : vreach 0%N demo_heap [2; 4; 3; 1]%N demo_v4.
Proof. apply vadd_reach; [apply demo_v3_reach|by vm_compute|by vm_compute]. Qed.

Definition demo_order (st : NVals) : list N := (map_to_list (mCurrentValidations st)).*1.

Lemma validations_conserved_witness : mStaleValidations demo_v4 = [1%N] ∧ mWriting demo_v4 = true ∧ kept demo_v4 ≡ₚ [2; 4; 3; 1]%N.
Proof.
  destruct (validations_conserved 0%N demo_heap _ demo_v4 demo_v4_reach) as (Hk&Hs&_).
  split_and!; [by vm_compute|by apply Hs; vm_compute|exact Hk].
Defined.

Lemma flush_writes_all_witness :
  ∃ st, run_writer 2 (flush (demo_order demo_v4) demo_v4) = Ok st ∧ mWriting st = false ∧ written st ≡ₚ [2; 4; 3; 1]%N.
Proof.
  destruct (flush_writes_all 0%N demo_heap _ demo_v4 (demo_order demo_v4) demo_v4_reach) as (st&H1&H2&_&H4); [reflexivity|].
  exists st. exact (conj H1 (conj H2 H4)).
Defined.

Lemma newest_validation_wins_witness : mCurrentValidations demo_v3 !! 51%N = Some (Some 1%N)
  ∧ mCurrentValidations demo_v4 !! 51%N = Some (Some 2%N) ∧ mPreviousHash (heap demo_v4 2%N) = 100%N.
Proof.
  assert (∃ b call, demo_add 2%N demo_v3 = Ok (b, call, demo_v4)) as (b&call&H).
  { exists (unwrap (false, None, demo_v3) (demo_add 2%N demo_v3)).1.1, (unwrap (false, None, demo_v3) (demo_add 2%N demo_v3)).1.2.
    unfold demo_v4, vadd. rewrite <-!surjective_pairing. apply unwrap_ok. by vm_compute. }
  pose proof (newest_validation_wins 0%N demo_heap _ Some Some 1001 0 2%N 1%N 51%N demo_v3 (find_signer Some Some 2%N demo_v3).2 b call demo_v4
    demo_v3_reach) as Hw.
  assert ((getValidations 0 (sfLedgerHash (heap demo_v3 2%N)) demo_v3).1 !! 51%N = None) as Hd by (by vm_compute). rewrite Hd in Hw.
  assert ((sfSigningTime (heap demo_v3 1%N) <? sfSigningTime (heap demo_v3 2%N)) = true) as Ht by (by vm_compute). rewrite Ht in Hw.
  cbn [orb] in Hw. assert ((find_signer Some Some 2%N demo_v3).1 = Some 51%N) as Hf by (by vm_compute).
  assert (current 1001 (heap demo_v3 2%N) = true) as Hcur by (by vm_compute).
  assert (mCurrentValidations demo_v3 !! 51%N = Some (Some 1%N)) as Hold by (by vm_compute).
  rewrite <-Hf in Hw. specialize (Hw (surjective_pairing _) Hcur).
  unfold demo_add in H. specialize (Hw Hold (ltac:(lia)) H). destruct Hw as (_&Hc&Hp).
  split_and!; [exact Hold|rewrite Hc; apply lookup_insert_eq|rewrite Hp; by vm_compute].
Defined.

Definition demo_counts : gmap N (Z * N) := (getCurrentValidations 0%N 200%N 0%N 0 1001 (demo_order demo_v4) demo_v4).1.
Definition demo_votes : list (N * Z) := (fun hc => (hc.1, hc.2.1)) <$> map_to_list demo_counts.

Lemma network_ledger_majority_witness : preferred 200%N demo_votes 200%N 0 = 101%N
  ∧ (size (validators 0%N 200%N 0%N 0 1001 demo_v4 200%N) < size (validators 0%N 200%N 0%N 0 1001 demo_v4 (preferred 200%N demo_votes 200%N 0)))%nat.
Proof.
  destruct (network_ledger_majority 0%N demo_heap _ demo_v4 200%N 0%N 0 1001 (demo_order demo_v4) demo_counts
    (getCurrentValidations 0%N 200%N 0%N 0 1001 (demo_order demo_v4) demo_v4).2 demo_votes demo_v4_reach) as [_ Hn];
    [reflexivity|apply surjective_pairing|reflexivity|]. split; [by vm_compute|apply Hn; by vm_compute].
Defined.
