(* ===== verification/Manifest.v ===== *)
(** * Validator manifests ([app/misc/impl/Manifest.cpp])

    A manifest says that a master key signs with another key.  [ManifestCache] keeps the latest
    manifest of each master key, and the master key of each signing key.  Whether the signatures
    of a manifest are good is the argument [verify]. *)

From S2P Require Import Prelude.
Local Open Scope Z_scope.

Section Manifest.
Context {PublicKey : Type} `{!EqDecision PublicKey, !Countable PublicKey}.

(** The serialized form is left out; [signingKey] of a revocation is the empty key. *)
Record Manifest := mkManifest { masterKey : PublicKey; signingKey : PublicKey; m_sequence : Z }.

Definition manifest_revoked (m : Manifest) : bool := m_sequence m =? 2 ^ 32 - 1.

(** [make_Manifest], from the fields of the serialized object that are present. *)
Definition make_Manifest (emptyKey : PublicKey) (opt_pk : option PublicKey) (opt_seq : option Z) (opt_msig : bool)
    (opt_spk : option PublicKey) (opt_sig : bool) : option Manifest :=
  match opt_pk, opt_seq with
  | Some pk, Some seq =>
      if negb opt_msig then None
      else if negb (seq =? 2 ^ 32 - 1) then
        match opt_spk with Some spk => if opt_sig then Some (mkManifest pk spk seq) else None | None => None end
      else Some (mkManifest pk emptyKey seq)
  | _, _ => None
  end.

Inductive ManifestDisposition := manifest_accepted | manifest_stale | manifest_invalid.

Record ManifestCache := mkManifestCache { map_ : gmap PublicKey Manifest; signingToMasterKeys_ : gmap PublicKey PublicKey }.

Definition ManifestCache_init : ManifestCache := mkManifestCache ∅ ∅.

Definition getSigningKey (pk : PublicKey) (c : ManifestCache) : PublicKey :=
  match map_ c !! pk with
  | Some m => if manifest_revoked m then pk else signingKey m
  | None => pk
  end.

Definition getMasterKey (pk : PublicKey) (c : ManifestCache) : PublicKey := default pk (signingToMasterKeys_ c !! pk).

Definition revoked (pk : PublicKey) (c : ManifestCache) : bool :=
  match map_ c !! pk with Some m => manifest_revoked m | None => false end.

Definition applyManifest (verify : Manifest → bool) (m : Manifest) (c : ManifestCache) : ManifestDisposition * ManifestCache :=
  let old := map_ c !! masterKey m in
  if match old with Some o => m_sequence m <=? m_sequence o | None => false end then (manifest_stale, c)
  else if negb (verify m) then (manifest_invalid, c)
  else
    let keys := match old with Some o => delete (signingKey o) (signingToMasterKeys_ c) | None => signingToMasterKeys_ c end in
    let keys := if manifest_revoked m then keys else <[signingKey m := masterKey m]> keys in
    (manifest_accepted, mkManifestCache (<[masterKey m := m]> (map_ c)) keys).

(** [load] from the database: the rows that are manifests with good signatures are applied. *)
Fixpoint load_manifests (verify : Manifest → bool) (rows : list (option Manifest)) (c : ManifestCache) : ManifestCache :=
  match rows with
  | [] => c
  | Some m :: rows => load_manifests verify rows (if verify m then (applyManifest verify m c).2 else c)
  | None :: rows => load_manifests verify rows c
  end.

(** [load] with the manifest and the revocation of the configuration, when there are any;
    [Some None] is one that cannot be read. *)
Definition load_configured (verify : Manifest → bool) (configManifest configRevocation : option (option Manifest))
    (c : ManifestCache) : bool * ManifestCache :=
  let '(ok, c) :=
    match configManifest with
    | None => (true, c)
    | Some None => (false, c)
    | Some (Some m) => match applyManifest verify m c with (manifest_invalid, c) => (false, c) | (_, c) => (true, c) end
    end in
  if negb ok then (false, c)
  else
    match configRevocation with
    | None => (true, c)
    | Some None => (false, c)
    | Some (Some m) =>
        if negb (manifest_revoked m) then (false, c)
        else match applyManifest verify m c with (manifest_invalid, c) => (false, c) | (_, c) => (true, c) end
    end.

Definition load_all (verify : Manifest → bool) (rows : list (option Manifest)) (configManifest configRevocation : option (option Manifest))
    (c : ManifestCache) : bool * ManifestCache :=
  load_configured verify configManifest configRevocation (load_manifests verify rows c).

(** [save]: the manifests that are written to the database. *)
Definition save_manifests (isTrusted : PublicKey → bool) (c : ManifestCache) : list Manifest :=
  filter (fun m => manifest_revoked m || isTrusted (masterKey m) = true) (map_to_list (map_ c)).*2.

(** ** Consistency

    A signing key signs the manifest that names it, so it belongs to one master key. *)
Section Owner.
Context (verify : Manifest → bool) (owner : PublicKey → PublicKey).
Context (Howner : ∀ m, verify m = true → manifest_revoked m = false → owner (signingKey m) = masterKey m).

Record manifests_ok (c : ManifestCache) : Prop := {
  mo_master : ∀ k m, map_ c !! k = Some m → masterKey m = k ∧ (manifest_revoked m = false → owner (signingKey m) = k);
  mo_keys : ∀ s k, signingToMasterKeys_ c !! s = Some k ↔ ∃ m, map_ c !! k = Some m ∧ manifest_revoked m = false ∧ signingKey m = s }.

Inductive manifest_run : list Manifest → ManifestCache → Prop :=
| mr_init : manifest_run [] ManifestCache_init
| mr_apply ms m c : manifest_run ms c → 0 <= m_sequence m < 2 ^ 32 → manifest_run (m :: ms) (applyManifest verify m c).2.

(** The signing keys without that of the manifest that is superseded. *)
Lemma superseded_keys m c s k : manifests_ok c → 0 <= m_sequence m < 2 ^ 32 →
  (∀ o, map_ c !! masterKey m = Some o → m_sequence o < m_sequence m) →
  match map_ c !! masterKey m with Some o => delete (signingKey o) (signingToMasterKeys_ c) | None => signingToMasterKeys_ c end !! s = Some k
  ↔ k ≠ masterKey m ∧ ∃ m', map_ c !! k = Some m' ∧ manifest_revoked m' = false ∧ signingKey m' = s.
Proof.
  intros [M K] Hseq Hnew. destruct (map_ c !! masterKey m) as [o|] eqn:E.
  - assert (owner (signingKey o) = masterKey m) as Ho.
    { destruct (M _ _ E) as [_ Ho]. apply Ho. unfold manifest_revoked. apply Z.eqb_neq. specialize (Hnew o eq_refl). lia. }
    rewrite lookup_delete_Some, K. split.
    + intros [Hne (m'&Hm'&Hr&Hs)]. split; [|eauto]. intros ->. rewrite E in Hm'. injection Hm' as <-. done.
    + intros [Hne (m'&Hm'&Hr&Hs)]. split; [|eauto]. intros Heq. apply Hne. rewrite <-Ho, Heq, <-Hs. symmetry. by apply (M k m').
  - rewrite K. split; [|by intros [_ ?]]. intros (m'&Hm'&?). split; [|eauto]. intros ->. congruence.
Qed.

Lemma applyManifest_ok m c : manifests_ok c → 0 <= m_sequence m < 2 ^ 32 → manifests_ok (applyManifest verify m c).2.
Proof.
  intros Hok Hseq. unfold applyManifest. destruct (match map_ c !! masterKey m with Some o => _ | None => false end) eqn:Es; [done|].
  destruct (verify m) eqn:Ev; [|done]. cbn [negb snd].
  assert (∀ o, map_ c !! masterKey m = Some o → m_sequence o < m_sequence m) as Hnew by (intros o Ho; rewrite Ho in Es; by apply Z.leb_gt).
  pose proof (fun s k => superseded_keys m c s k Hok Hseq Hnew) as Hdel.
  destruct Hok as [M K]. split; cbn [map_ signingToMasterKeys_].
  - intros k m' [[<- <-]|[_ Hm]]%lookup_insert_Some; [auto|by apply M].
  - intros s k. destruct (manifest_revoked m) eqn:Er.
    + rewrite Hdel. split.
      * intros [Hne (m'&Hm'&?)]. exists m'. by rewrite lookup_insert_ne.
      * intros (m'&[[<- <-]|[Hne Hm']]%lookup_insert_Some&Hr&Hs); [congruence|]. split; [done|eauto].
    + rewrite lookup_insert_Some, Hdel. split.
      * intros [[<- <-]|[Hs [Hne (m'&Hm'&?)]]]; [exists m; by rewrite lookup_insert_eq|exists m'; by rewrite lookup_insert_ne].
      * intros (m'&[[<- <-]|[Hne Hm']]%lookup_insert_Some&Hr&Hs); [by left|]. right. split; [|split; [done|eauto]].
        intros Heq. apply Hne. rewrite <-(Howner m Ev Er), Heq, <-Hs. by apply (M k m').
Qed.

Lemma manifest_run_ok ms c : manifest_run ms c → manifests_ok c.
Proof.
  induction 1 as [|ms m c _ IH Hm]; [|by apply applyManifest_ok]. split; cbn; [by intros k m|].
  intros s k. split; [done|]. by intros (m&?&_).
Qed.

Definition readable (o : option Manifest) : Prop := match o with Some m => 0 <= m_sequence m < 2 ^ 32 | None => True end.

Lemma load_manifests_ok rows : ∀ c, Forall readable rows → manifests_ok c → manifests_ok (load_manifests verify rows c).
Proof.
  induction rows as [|[m|] rows IH]; intros c Hf Hok; cbn [load_manifests]; [done|..]; apply Forall_cons in Hf as [Hm Hf]; apply IH; try done.
  destruct (verify m); [|done]. by apply applyManifest_ok.
Qed.

Lemma load_configured_ok cm cr c : readable (default None cm) → readable (default None cr) → manifests_ok c →
  manifests_ok (load_configured verify cm cr c).2.
Proof.
  intros Hm Hr Hok. unfold load_configured.
  assert (∀ m c', readable (Some m) → manifests_ok c' → manifests_ok
    (match applyManifest verify m c' with (manifest_invalid, c) => (false, c) | (_, c) => (true, c) end).2) as Happ.
  { intros m c' Hm' Hc'. pose proof (applyManifest_ok m c' Hc' Hm') as H. by destruct (applyManifest verify m c') as [[] ?]. }
  set (r := match cm with None => _ | Some None => _ | Some (Some m) => _ end).
  assert (manifests_ok r.2) as Hr2 by (unfold r; destruct cm as [[m|]|]; [by apply Happ|done|done]).
  destruct r as [ok c1]. cbn [snd] in Hr2. destruct (negb ok); [done|]. destruct cr as [[m|]|]; [|done|done].
  destruct (negb (manifest_revoked m)); [done|]. by apply Happ.
Qed.

(** The manifest that is kept is the one with the highest sequence of those that verify. *)
Lemma manifest_run_newest ms c : manifest_run ms c → ∀ k,
  match map_ c !! k with
  | Some m => m ∈ ms ∧ verify m = true ∧ masterKey m = k ∧ ∀ m', m' ∈ ms → masterKey m' = k → verify m' = true → m_sequence m' <= m_sequence m
  | None => ∀ m', m' ∈ ms → masterKey m' = k → verify m' = false
  end.
Proof.
  induction 1 as [|ms m c Hrun IH Hm]; intros k; [cbn; rewrite lookup_empty; by intros m' ?%elem_of_nil|]. specialize (IH k). unfold applyManifest.
  destruct (decide (masterKey m = k)) as [<-|Hne].
  - destruct (map_ c !! masterKey m) as [o|] eqn:E.
    + destruct IH as (Hin&Hv&Hk&Hmax). destruct (Z.leb_spec (m_sequence m) (m_sequence o)) as [Hle|Hlt]; cbn [snd].
      * rewrite E. split_and!; [by right|done|done|]. intros m' [->|Hin']%elem_of_cons; auto.
      * destruct (verify m) eqn:Ev; cbn.
        -- rewrite lookup_insert_eq. split_and!; [by left|done|done|]. intros m' [->|Hin']%elem_of_cons Hk' Hv'; [lia|].
           specialize (Hmax m' Hin' Hk' Hv'). lia.
        -- rewrite E. split_and!; [by right|done|done|]. intros m' [->|Hin']%elem_of_cons; [congruence|auto].
    + destruct (verify m) eqn:Ev; cbn.
      * rewrite lookup_insert_eq. split_and!; [by left|done|done|]. intros m' [->|Hin']%elem_of_cons Hk' Hv'; [lia|].
        rewrite (IH m' Hin' Hk') in Hv'. done.
      * rewrite E. intros m' [->|Hin']%elem_of_cons; auto.
  - assert (map_ (applyManifest verify m c).2 !! k = map_ c !! k) as Heq.
    { unfold applyManifest. destruct (match map_ c !! masterKey m with Some o => _ | None => false end); [done|].
      destruct (negb (verify m)); cbn; [done|]. by rewrite lookup_insert_ne. }
    unfold applyManifest in Heq. rewrite Heq. destruct (map_ c !! k).
    + destruct IH as (?&?&?&Hmax). split_and!; [by right|done|done|]. intros m' [->|?]%elem_of_cons; [done|auto].
    + intros m' [->|?]%elem_of_cons; [done|auto].
Qed.

(** Whatever manifests arrive, in whatever order: the one kept for a master key is the latest of
    those that verify; a signing key and its master key lead to one another; a superseded key
    leads to no master; and a revocation is final. *)
Theorem manifests_consistent ms c : manifest_run ms c →
  (∀ k m, map_ c !! k = Some m → m ∈ ms ∧ ∀ m', m' ∈ ms → masterKey m' = k → verify m' = true → m_sequence m' <= m_sequence m)
  ∧ (∀ k, revoked k c = false → is_Some (map_ c !! k) → getMasterKey (getSigningKey k c) c = k)
  ∧ (∀ s, getMasterKey s c ≠ s → getSigningKey (getMasterKey s c) c = s)
  ∧ (∀ k m, revoked k c = true → 0 <= m_sequence m < 2 ^ 32 → revoked k (applyManifest verify m c).2 = true).
Proof.
  intros Hrun. pose proof (manifest_run_ok ms c Hrun) as [M K]. split_and!.
  - intros k m Hm. pose proof (manifest_run_newest ms c Hrun k) as Hn. rewrite Hm in Hn. by destruct Hn as (?&_&_&?).
  - intros k Hr [m Hm]. unfold revoked, getSigningKey, getMasterKey in *. rewrite Hm in *. rewrite Hr.
    assert (signingToMasterKeys_ c !! signingKey m = Some k) as -> by (apply K; eauto). done.
  - intros s. unfold getMasterKey, getSigningKey. destruct (signingToMasterKeys_ c !! s) as [k|] eqn:E; cbn; [|done]. intros _.
    apply K in E as (m&->&->&?). done.
  - intros k m Hr Hm. unfold revoked in *. unfold applyManifest. destruct (map_ c !! k) as [o|] eqn:E; [|done].
    destruct (decide (masterKey m = k)) as [<-|Hne].
    + rewrite E. unfold manifest_revoked in Hr. apply Z.eqb_eq in Hr. rewrite (proj2 (Z.leb_le (m_sequence m) (m_sequence o))) by lia.
      cbn. rewrite E. unfold manifest_revoked. apply Z.eqb_eq. lia.
    + destruct (match map_ c !! masterKey m with Some o => _ | None => false end); [by cbn; rewrite E|].
      destruct (negb (verify m)); cbn; [by rewrite E|]. rewrite lookup_insert_ne by done. by rewrite E.
Qed.
End Owner.
End Manifest.

(** ** A run: the validator changes its signing key *)

Definition demo_verify (m : Manifest) : bool := manifest_revoked m || (signingKey m / 100 =? masterKey m)%N.
Definition demo_manifests : list (Manifest (PublicKey := N)) := [mkManifest 1%N 102%N 6; mkManifest 1%N 101%N 5].
Definition demo_cache : ManifestCache (PublicKey := N) :=
  (applyManifest demo_verify (mkManifest 1%N 102%N 6) (applyManifest demo_verify (mkManifest 1%N 101%N 5) ManifestCache_init).2).2.

Lemma manifests_consistent_witness : getMasterKey (getSigningKey 1%N demo_cache) demo_cache = 1%N
  ∧ getSigningKey 1%N demo_cache = 102%N ∧ getMasterKey 101%N demo_cache = 101%N.
Proof.
  destruct (manifests_consistent demo_verify (fun s => s / 100)%N) with (ms := demo_manifests) (c := demo_cache) as (_&Hrt&_).
  - intros m Hv Hr. unfold demo_verify in Hv. rewrite Hr in Hv. by apply N.eqb_eq in Hv.
  - unfold demo_manifests, demo_cache. do 2 (apply mr_apply; [|cbn; lia]). apply mr_init.
  - split_and!; [apply Hrt; [by vm_compute|by eexists; vm_compute]|by vm_compute|by vm_compute].
Defined.
