(* ===== verification/ValidatorList.v ===== *)
(** * Trusted validators ([app/misc/impl/ValidatorList.cpp], [app/misc/ValidatorList.h])

    The keys of the configuration and of the lists that trusted publishers sign, the number of
    lists each key is on, and the trusted keys and the quorum that are drawn from them at the
    start of a consensus round.  Parsing (base58, hexadecimal, base64, JSON, regular expressions)
    and signatures are arguments; the random order of the listed keys is one, too. *)

From stdpp Require Import sorting.
From S2P Require Import Prelude Manifest.
Local Open Scope Z_scope.

Section ValidatorList.
Context {PublicKey : Type} `{!EqDecision PublicKey, !Countable PublicKey}.
(** The order of keys, and the default key, which has no bytes. *)
Context (key_le : relation PublicKey) `{!RelDecision key_le} (emptyKey : PublicKey).
Notation Manifests := (@ManifestCache PublicKey _ _).
Notation Mf := (@Manifest PublicKey).

Record PublisherList := mkPublisher { available : bool; pub_list : list PublicKey; pub_sequence : Z; expiration : Z }.

Record ValidatorList := mkValidatorList {
  quorum_ : Z; minimumQuorum_ : option Z; publisherLists_ : gmap PublicKey PublisherList;
  keyListings_ : gmap PublicKey Z; trustedKeys_ : gset PublicKey; localPubKey_ : PublicKey }.

Definition ValidatorList_init (minimumQuorum : option Z) : ValidatorList :=
  mkValidatorList (default 1 minimumQuorum) minimumQuorum ∅ ∅ ∅ emptyKey.

Definition with_lists (p : gmap PublicKey PublisherList) (k : gmap PublicKey Z) (v : ValidatorList) : ValidatorList :=
  mkValidatorList (quorum_ v) (minimumQuorum_ v) p k (trustedKeys_ v) (localPubKey_ v).
Definition with_trusted (q : Z) (t : gset PublicKey) (v : ValidatorList) : ValidatorList :=
  mkValidatorList q (minimumQuorum_ v) (publisherLists_ v) (keyListings_ v) t (localPubKey_ v).

Definition new_publisher : PublisherList := mkPublisher false [] 0 0.
Definition publisher (k : PublicKey) (v : ValidatorList) : PublisherList := default new_publisher (publisherLists_ v !! k).

(** *** Loading the configuration

    A key that cannot be parsed is [None]. *)

Fixpoint load_publishers (manifests : Manifests) (keys : list (option PublicKey)) (v : ValidatorList) : bool * ValidatorList :=
  match keys with
  | [] => (true, v)
  | None :: _ => (false, v)
  | Some id :: keys =>
      if revoked id manifests then load_publishers manifests keys v
      else if bool_decide (is_Some (publisherLists_ v !! id)) then load_publishers manifests keys v
      else load_publishers manifests keys (with_lists (<[id := new_publisher]> (publisherLists_ v)) (keyListings_ v) v)
  end.

Fixpoint load_keys (localSigningKey : PublicKey) (keys : list (option PublicKey)) (v : ValidatorList) : bool * ValidatorList :=
  match keys with
  | [] => (true, v)
  | None :: _ => (false, v)
  | Some id :: keys =>
      if bool_decide (id = localPubKey_ v) || bool_decide (id = localSigningKey) then load_keys localSigningKey keys v
      else if bool_decide (is_Some (keyListings_ v !! id)) then load_keys localSigningKey keys v
      else
        let l := publisher emptyKey v in
        load_keys localSigningKey keys
          (with_lists (<[emptyKey := mkPublisher true (pub_list l ++ [id]) (pub_sequence l) (expiration l)]> (publisherLists_ v))
             (<[id := 1]> (keyListings_ v)) v)
  end.

Definition load (manifests : Manifests) (localSigningKey : PublicKey) (configKeys publisherKeys : list (option PublicKey))
    (v : ValidatorList) : bool * ValidatorList :=
  let '(ok, v) := load_publishers manifests publisherKeys v in
  if negb ok then (false, v)
  else
    let local := getMasterKey localSigningKey manifests in
    let listings := if decide (local = emptyKey) then keyListings_ v
                    else match keyListings_ v !! local with Some _ => keyListings_ v | None => <[local := 1]> (keyListings_ v) end in
    load_keys localSigningKey configKeys
      (mkValidatorList (quorum_ v) (minimumQuorum_ v) (publisherLists_ v) listings (trustedKeys_ v) local).

(** *** Published lists *)

(** [++keyListings_[k]], and the decrement of [applyList]; [operator[]] makes an entry of zero. *)
Definition list_key (k : PublicKey) (kl : gmap PublicKey Z) : gmap PublicKey Z := <[k := u64 (default 0 (kl !! k) + 1)]> kl.
Definition unlist_key (k : PublicKey) (kl : gmap PublicKey Z) : gmap PublicKey Z :=
  let n := default 0 (kl !! k) in if n =? 1 then delete k kl else <[k := u64 (n - 1)]> kl.

(** [*a < *b] *)
Definition key_lt (a b : PublicKey) : bool := bool_decide (key_le a b) && negb (bool_decide (a = b)).

(** The walk over the old and the new list, which are sorted. *)
Fixpoint update_listings (iNew : list PublicKey) : list PublicKey → gmap PublicKey Z → gmap PublicKey Z :=
  fix walk (iOld : list PublicKey) (kl : gmap PublicKey Z) : gmap PublicKey Z :=
    match iNew, iOld with
    | [], [] => kl
    | n :: iNew', [] => update_listings iNew' [] (list_key n kl)
    | [], o :: iOld' => walk iOld' (unlist_key o kl)
    | n :: iNew', o :: iOld' =>
        if key_lt n o then update_listings iNew' iOld (list_key n kl)
        else if key_lt o n then walk iOld' (unlist_key o kl)
        else update_listings iNew' iOld' kl
    end.

(** [removePublisherList], which looks the key up before it decrements. *)
Definition drop_listing (kl : gmap PublicKey Z) (k : PublicKey) : gmap PublicKey Z :=
  match kl !! k with
  | None => kl
  | Some n => if n <=? 1 then delete k kl else <[k := n - 1]> kl
  end.

Definition removePublisherList (publisherKey : PublicKey) (v : ValidatorList) : bool * ValidatorList :=
  match publisherLists_ v !! publisherKey with
  | None => (false, v)
  | Some l => (true, with_lists (publisherLists_ v) (foldl drop_listing (keyListings_ v) (pub_list l)) v)
  end.

Inductive ListDisposition := list_accepted | unsupported_version | untrusted | list_stale | list_invalid.

(** The content of a list: its sequence, its expiration and the keys that can be read. *)
Record Blob := mkBlob { b_sequence : Z; b_expiration : Z; b_validators : list PublicKey }.

Section Apply.
(** The manifest that comes with the list and whether it verifies; the blob when it is signed by
    the given key and has the expected members ([None] if not). *)
Context (verifyManifest : Mf → bool) (read_blob : PublicKey → option Blob).

Definition verify (now : Z) (m : option Mf) (manifests : Manifests) (v : ValidatorList)
    : (ListDisposition + PublicKey * Blob) * Manifests * ValidatorList :=
  match m with
  | None => (inl untrusted, manifests, v)
  | Some m =>
      if negb (bool_decide (is_Some (publisherLists_ v !! masterKey m))) then (inl untrusted, manifests, v)
      else
        let pubKey := masterKey m in
        let isRevoked := manifest_revoked m in
        let '(result, manifests) := applyManifest verifyManifest m manifests in
        let v :=
          match isRevoked, result with
          | true, manifest_accepted =>
              let v := (removePublisherList pubKey v).2 in
              with_lists (delete pubKey (publisherLists_ v)) (keyListings_ v) v
          | _, _ => v
          end in
        if isRevoked || match result with manifest_invalid => true | _ => false end then (inl untrusted, manifests, v)
        else
          match read_blob (getSigningKey pubKey manifests) with
          | None => (inl list_invalid, manifests, v)
          | Some b =>
              if (b_sequence b <=? pub_sequence (publisher pubKey v)) || (b_expiration b <=? now)
              then (inl list_stale, manifests, v) else (inr (pubKey, b), manifests, v)
          end
  end.

Definition applyList (version now : Z) (m : option Mf) (manifests : Manifests) (v : ValidatorList)
    : ListDisposition * Manifests * ValidatorList :=
  if negb (version =? 1) then (unsupported_version, manifests, v)
  else
    let '(result, manifests, v) := verify now m manifests v in
    match result with
    | inl d => (d, manifests, v)
    | inr (pubKey, b) =>
        let oldList := pub_list (publisher pubKey v) in
        let publisherList := merge_sort key_le (b_validators b) in
        (list_accepted, manifests,
         with_lists (<[pubKey := mkPublisher true publisherList (b_sequence b) (b_expiration b)]> (publisherLists_ v))
           (update_listings publisherList oldList (keyListings_ v)) v)
    end.
End Apply.

(** *** Queries *)

Definition listed (manifests : Manifests) (identity : PublicKey) (v : ValidatorList) : bool :=
  bool_decide (is_Some (keyListings_ v !! getMasterKey identity manifests)).
Definition trusted (manifests : Manifests) (identity : PublicKey) (v : ValidatorList) : bool :=
  bool_decide (getMasterKey identity manifests ∈ trustedKeys_ v).
Definition getListedKey (manifests : Manifests) (v : ValidatorList) (identity : PublicKey) : option PublicKey :=
  let pubKey := getMasterKey identity manifests in
  if decide (is_Some (keyListings_ v !! pubKey)) then Some pubKey else None.
Definition getTrustedKey (manifests : Manifests) (v : ValidatorList) (identity : PublicKey) : option PublicKey :=
  let pubKey := getMasterKey identity manifests in
  if decide (pubKey ∈ trustedKeys_ v) then Some pubKey else None.
Definition trustedPublisher (identity : PublicKey) (v : ValidatorList) : bool :=
  negb (bool_decide (identity = emptyKey)) && bool_decide (is_Some (publisherLists_ v !! identity)).

(** The calls that [for_each_listed] makes. *)
Definition for_each_listed (manifests : Manifests) (v : ValidatorList) : list (PublicKey * bool) :=
  (fun kn => (kn.1, trusted manifests kn.1 v)) <$> map_to_list (keyListings_ v).

(** *** The start of a round *)

Definition quorum_table : list Z := [0; 1; 2; 2; 3; 3; 4; 5; 6; 7].

Definition calculateQuorum (nTrustedKeys : Z) : Z :=
  if nTrustedKeys <? 10 then nth (Z.to_nat nTrustedKeys) quorum_table 0 else nTrustedKeys - nTrustedKeys / 5.

(** Expired lists are removed; whether all the others are available. *)
Fixpoint check_lists (now : Z) (lists : list (PublicKey * PublisherList)) (allListsAvailable : bool) (v : ValidatorList)
    : bool * ValidatorList :=
  match lists with
  | [] => (allListsAvailable, v)
  | (k, l) :: lists =>
      if negb (expiration l =? 0) && (expiration l <=? now)
      then check_lists now lists allListsAvailable (removePublisherList k v).2
      else check_lists now lists (if available l then allListsAvailable else false) v
  end.

Definition max_size : Z := 2 ^ 64 - 1.

(** [std::multimap::insert]: behind the elements with the same rank. *)
Fixpoint insert_ranked (rank : Z) (k : PublicKey) (l : list (Z * PublicKey)) : list (Z * PublicKey) :=
  match l with
  | [] => [(rank, k)]
  | (r, k') :: l => if r <=? rank then (r, k') :: insert_ranked rank k l else (rank, k) :: (r, k') :: l
  end.

Definition eligible (manifests : Manifests) (seen : gset PublicKey) (v : ValidatorList) (k : PublicKey) : bool :=
  negb (revoked k manifests) && (bool_decide (k = localPubKey_ v) || bool_decide (seen = ∅) || bool_decide (k ∈ seen)).

Definition rank_of (v : ValidatorList) (k : PublicKey) : Z :=
  if decide (k = localPubKey_ v) then max_size else default 0 (keyListings_ v !! k).

Definition rank_keys (manifests : Manifests) (seen : gset PublicKey) (v : ValidatorList) (order : list PublicKey)
    : list (Z * PublicKey) :=
  foldl (fun l k => if eligible manifests seen v k then insert_ranked (rank_of v k) k l else l) [] order.

Definition localKeyListed (manifests : Manifests) (v : ValidatorList) : bool :=
  negb (revoked (localPubKey_ v) manifests) && (1 <? default 0 (keyListings_ v !! localPubKey_ v)).

(** The keys from the highest rank on, up to the size. *)
Fixpoint trust_keys (size : Z) (ranked : list (Z * PublicKey)) (t : gset PublicKey) : gset PublicKey :=
  match ranked with
  | [] => t
  | (_, k) :: ranked => if size <=? Z.of_nat (stdpp.base.size t) then t else trust_keys size ranked ({[k]} ∪ t)
  end.

Definition onConsensusStart (manifests : Manifests) (now : Z) (seen : gset PublicKey)
    (lists : list (PublicKey * PublisherList)) (order : gmap PublicKey Z → list PublicKey) (v : ValidatorList) : ValidatorList :=
  let '(allListsAvailable, v) := check_lists now lists true v in
  let rankedKeys := rank_keys manifests seen v (order (keyListings_ v)) in
  let nKeys := Z.of_nat (stdpp.base.size (keyListings_ v)) in
  let nRanked := Z.of_nat (length rankedKeys) in
  let quorum := nKeys / 2 + 1 in
  let quorum :=
    if negb (bool_decide (localPubKey_ v = emptyKey)) && negb (localKeyListed manifests v) && (1 <? nRanked)
       && negb (nKeys mod 2 =? 0)
    then quorum + 1 else quorum in
  let '(quorum, size) :=
    if (nRanked <? 10) || (stdpp.base.size (publisherLists_ v) =? 1)%nat
    then (Z.max quorum (calculateQuorum nRanked), nRanked)
    else (quorum, quorum * 5 / 4) in
  let quorum :=
    match minimumQuorum_ v with
    | Some q => if bool_decide (seen = ∅) || (nRanked <? quorum) then q
                else if allListsAvailable then quorum else max_size
    | None => if allListsAvailable then quorum else max_size
    end in
  with_trusted quorum (trust_keys size (reverse rankedKeys) ∅) v.

End ValidatorList.
