(* ===== verification/ValidatorListProps.v ===== *)
(** * What is promised about trusted validators

    The number of listings of a key is exact as long as no list expires; the trusted keys are
    those with the most listings; and two nodes with the same lists cannot reach their quorums
    with disjoint sets of validators. *)

From stdpp Require Import sorting.
From S2P Require Import Prelude Manifest ValidatorList.
Local Open Scope Z_scope.

Section Props.
Context {PublicKey : Type} `{!EqDecision PublicKey, !Countable PublicKey}.
Context (key_le : relation PublicKey) `{!RelDecision key_le, !Total key_le, !AntiSymm (=) key_le} (emptyKey : PublicKey).
Notation Manifests := (@ManifestCache PublicKey _ _).
Notation Mf := (@Manifest PublicKey).
Notation VL := (@ValidatorList PublicKey _ _).
Implicit Types (v : VL) (k : PublicKey) (l : list PublicKey) (kl : gmap PublicKey Z).

(** ** Counting listings *)

Definition occ (k : PublicKey) (l : list PublicKey) : Z := Z.of_nat (length (filter (eq k) l)).
Definition cnt (kl : gmap PublicKey Z) (k : PublicKey) : Z := default 0 (kl !! k).

(** No entry is zero. *)
Definition normal (kl : gmap PublicKey Z) : Prop := ∀ k n, kl !! k = Some n → 0 < n.

Lemma occ_cons k k' l : occ k (k' :: l) = (if decide (k = k') then 1 else 0) + occ k l.
Proof. unfold occ. rewrite filter_cons. case_decide; cbn [length]; lia. Qed.

Lemma occ_nonneg k l : 0 <= occ k l.
Proof. unfold occ. lia. Qed.

Lemma occ_perm k l l' : l ≡ₚ l' → occ k l = occ k l'.
Proof. intros H. unfold occ. by rewrite H. Qed.

Lemma list_key_cnt k kl : normal kl → cnt kl k + 1 < 2 ^ 64 →
  normal (list_key k kl) ∧ ∀ k', cnt (list_key k kl) k' = cnt kl k' + (if decide (k' = k) then 1 else 0).
Proof.
  intros Hn Hb. assert (0 <= cnt kl k) by (unfold cnt; destruct (kl !! k) eqn:E; cbn; [apply Hn in E; lia|lia]).
  unfold list_key. fold (cnt kl k). rewrite u64_small by lia. split.
  - intros k' n [[<- <-]|[_ ?]]%lookup_insert_Some; [lia|by eapply Hn].
  - intros k'. unfold cnt at 1. case_decide as E; [subst; by rewrite lookup_insert_eq|]. rewrite lookup_insert_ne by done. unfold cnt. lia.
Qed.

Lemma unlist_key_cnt k kl : normal kl → 1 <= cnt kl k < 2 ^ 64 →
  normal (unlist_key k kl) ∧ ∀ k', cnt (unlist_key k kl) k' = cnt kl k' - (if decide (k' = k) then 1 else 0).
Proof.
  intros Hn Hb. unfold unlist_key. fold (cnt kl k). destruct (Z.eqb_spec (cnt kl k) 1) as [E1|E1].
  - split; [intros k' n [_ ?]%lookup_delete_Some; by eapply Hn|]. intros k'. unfold cnt at 1.
    case_decide as E; [subst; rewrite lookup_delete_eq; cbn; lia|]. rewrite lookup_delete_ne by done. unfold cnt. lia.
  - rewrite u64_small by lia. split; [intros k' n [[<- <-]|[_ ?]]%lookup_insert_Some; [lia|by eapply Hn]|]. intros k'. unfold cnt at 1.
    case_decide as E; [subst; rewrite lookup_insert_eq; cbn; lia|]. rewrite lookup_insert_ne by done. unfold cnt. lia.
Qed.

Lemma drop_listing_cnt k kl : normal kl → 1 <= cnt kl k →
  normal (drop_listing kl k) ∧ ∀ k', cnt (drop_listing kl k) k' = cnt kl k' - (if decide (k' = k) then 1 else 0).
Proof.
  intros Hn Hb. unfold drop_listing. unfold cnt in Hb. destruct (kl !! k) as [n|] eqn:E; cbn in Hb; [|lia].
  destruct (Z.leb_spec n 1).
  - split; [intros k' m [_ ?]%lookup_delete_Some; by eapply Hn|]. intros k'. unfold cnt at 1.
    case_decide as E'; [subst; rewrite lookup_delete_eq; unfold cnt; rewrite E; cbn; lia|]. rewrite lookup_delete_ne by done. unfold cnt. lia.
  - split; [intros k' m [[<- <-]|[_ ?]]%lookup_insert_Some; [lia|by eapply Hn]|]. intros k'. unfold cnt at 1.
    case_decide as E'; [subst; rewrite lookup_insert_eq; unfold cnt; rewrite E; cbn; lia|]. rewrite lookup_insert_ne by done. unfold cnt. lia.
Qed.

Lemma key_lt_eq a b : key_lt key_le a b = false → key_lt key_le b a = false → a = b.
Proof.
  unfold key_lt. intros H1 H2. destruct (decide (a = b)) as [|Hne]; [done|].
  rewrite (bool_decide_false (a = b)), andb_true_r in H1 by done. rewrite (bool_decide_false (b = a)), andb_true_r in H2 by congruence.
  apply bool_decide_eq_false in H1, H2. by destruct (total key_le a b).
Qed.

(** The walk over two lists replaces the listings of the one by those of the other. *)
Lemma update_listings_cnt : ∀ iNew iOld kl, normal kl → (∀ k, occ k iOld <= cnt kl k) → (∀ k, cnt kl k + occ k iNew < 2 ^ 64) →
  normal (update_listings key_le iNew iOld kl) ∧ ∀ k, cnt (update_listings key_le iNew iOld kl) k = cnt kl k - occ k iOld + occ k iNew.
Proof.
  induction iNew as [|n iNew IHn]; induction iOld as [|o iOld IHo]; intros kl Hn Hold Hnew.
  - cbn. split; [done|]. intros k. unfold occ. cbn. lia.
  - change (update_listings key_le [] (o :: iOld) kl) with (update_listings key_le [] iOld (unlist_key o kl)).
    pose proof (Hold o) as Ho. rewrite occ_cons, decide_True in Ho by done. pose proof (occ_nonneg o iOld). pose proof (Hnew o) as Hno. pose proof (occ_nonneg o []).
    destruct (unlist_key_cnt o kl Hn ltac:(lia)) as [Hn' Hc].
    destruct (IHo (unlist_key o kl) Hn') as [H1 H2].
    { intros k. rewrite Hc. specialize (Hold k). rewrite occ_cons in Hold. lia. }
    { intros k. rewrite Hc. specialize (Hnew k). case_decide; lia. }
    split; [done|]. intros k. rewrite H2, Hc, occ_cons. lia.
  - change (update_listings key_le (n :: iNew) [] kl) with (update_listings key_le iNew [] (list_key n kl)).
    pose proof (Hnew n) as Hno. rewrite occ_cons, decide_True in Hno by done. pose proof (occ_nonneg n iNew).
    destruct (list_key_cnt n kl Hn ltac:(lia)) as [Hn' Hc].
    destruct (IHn [] (list_key n kl) Hn') as [H1 H2].
    { intros k. rewrite Hc. specialize (Hold k). case_decide; lia. }
    { intros k. rewrite Hc. specialize (Hnew k). rewrite occ_cons in Hnew. lia. }
    split; [done|]. intros k. rewrite H2, Hc, occ_cons. lia.
  - change (update_listings key_le (n :: iNew) (o :: iOld) kl) with
      (if key_lt key_le n o then update_listings key_le iNew (o :: iOld) (list_key n kl)
       else if key_lt key_le o n then update_listings key_le (n :: iNew) iOld (unlist_key o kl) else update_listings key_le iNew iOld kl).
    destruct (key_lt key_le n o) eqn:E1; [|destruct (key_lt key_le o n) eqn:E2].
    + pose proof (Hnew n) as Hno. rewrite occ_cons, decide_True in Hno by done. pose proof (occ_nonneg n iNew).
      destruct (list_key_cnt n kl Hn ltac:(lia)) as [Hn' Hc].
      destruct (IHn (o :: iOld) (list_key n kl) Hn') as [H1 H2].
      { intros k. rewrite Hc. specialize (Hold k). case_decide; lia. }
      { intros k. rewrite Hc. specialize (Hnew k). rewrite occ_cons in Hnew. lia. }
      split; [done|]. intros k. rewrite H2, Hc, (occ_cons k n). lia.
    + pose proof (Hold o) as Ho. rewrite occ_cons, decide_True in Ho by done. pose proof (occ_nonneg o iOld). pose proof (Hnew o) as Hno.
      pose proof (occ_nonneg o (n :: iNew)). destruct (unlist_key_cnt o kl Hn ltac:(lia)) as [Hn' Hc].
      destruct (IHo (unlist_key o kl) Hn') as [H1 H2].
      { intros k. rewrite Hc. specialize (Hold k). rewrite occ_cons in Hold. lia. }
      { intros k. rewrite Hc. specialize (Hnew k). case_decide; lia. }
      split; [done|]. intros k. rewrite H2, Hc, (occ_cons k o). lia.
    + assert (n = o) as -> by (by apply key_lt_eq). destruct (IHn iOld kl Hn) as [H1 H2].
      { intros k. specialize (Hold k). rewrite occ_cons in Hold. case_decide; lia. }
      { intros k. specialize (Hnew k). rewrite occ_cons in Hnew. case_decide; lia. }
      split; [done|]. intros k. rewrite H2, !occ_cons. lia.
Qed.

Lemma drop_all_cnt l : ∀ kl, normal kl → (∀ k, occ k l <= cnt kl k) →
  normal (foldl drop_listing kl l) ∧ ∀ k, cnt (foldl drop_listing kl l) k = cnt kl k - occ k l.
Proof.
  induction l as [|o l IH]; intros kl Hn Hold; cbn [foldl].
  { split; [done|]. intros k. unfold occ. cbn. lia. }
  pose proof (Hold o) as Ho. rewrite occ_cons, decide_True in Ho by done. pose proof (occ_nonneg o l).
  destruct (drop_listing_cnt o kl Hn ltac:(lia)) as [Hn' Hc]. destruct (IH (drop_listing kl o) Hn') as [H1 H2].
  { intros k. rewrite Hc. specialize (Hold k). rewrite occ_cons in Hold. lia. }
  split; [done|]. intros k. rewrite H2, Hc, occ_cons. lia.
Qed.

(** ** Listings are exact *)

(** On how many lists a key is: those of the publishers, with the configuration as the list of
    the empty key, and the key of this server on its own. *)
Definition on_lists (v : VL) (k : PublicKey) : Z := msum (fun p => occ k (pub_list p)) (publisherLists_ v).
Definition listings (v : VL) (k : PublicKey) : Z :=
  (if decide (k = localPubKey_ v ∧ localPubKey_ v ≠ emptyKey) then 1 else 0) + on_lists v k.

Definition listings_ok (v : VL) : Prop :=
  normal (keyListings_ v) ∧ ∀ k, cnt (keyListings_ v) k = listings v k.

Lemma listings_lookup v k : listings_ok v →
  keyListings_ v !! k = if listings v k =? 0 then None else Some (listings v k).
Proof.
  intros [Hn Hc]. rewrite <-Hc. unfold cnt. destruct (keyListings_ v !! k) as [n|] eqn:E; cbn; [|done].
  apply Hn in E. destruct (Z.eqb_spec n 0); [lia|done].
Qed.

Lemma on_lists_nonneg v k : 0 <= on_lists v k.
Proof. apply msum_nonneg. intros p. apply occ_nonneg. Qed.

Lemma publisher_le v k pk : occ k (pub_list (publisher pk v)) <= on_lists v k.
Proof.
  unfold publisher, on_lists. destruct (publisherLists_ v !! pk) as [p|] eqn:E; cbn [default id].
  - pose proof (msum_delete (fun p => occ k (pub_list p)) _ _ _ E) as Hd.
    assert (0 <= msum (fun p => occ k (pub_list p)) (delete pk (publisherLists_ v))); [|cbn beta in Hd; lia]. apply msum_nonneg. intros q. apply occ_nonneg.
  - unfold occ. cbn. apply on_lists_nonneg.
Qed.

(** Replacing the list of a publisher. *)
Lemma on_lists_put v k pk p kl : on_lists (with_lists (<[pk := p]> (publisherLists_ v)) kl v) k
  = on_lists v k - occ k (pub_list (publisher pk v)) + occ k (pub_list p).
Proof.
  unfold on_lists, publisher. cbn. destruct (publisherLists_ v !! pk) as [q|] eqn:E; cbn [default id].
  - rewrite (msum_update _ _ _ q) by done. done.
  - rewrite msum_insert by done. change (pub_list new_publisher) with (@nil PublicKey). change (occ k []) with 0. lia.
Qed.

Lemma listings_put v k pk p kl : listings (with_lists (<[pk := p]> (publisherLists_ v)) kl v) k
  = listings v k - occ k (pub_list (publisher pk v)) + occ k (pub_list p).
Proof. unfold listings. rewrite on_lists_put. cbn. lia. Qed.

Lemma load_publishers_ok manifests keys : ∀ v, listings_ok v →
  listings_ok (load_publishers manifests keys v).2 ∧ localPubKey_ (load_publishers manifests keys v).2 = localPubKey_ v
  ∧ keyListings_ (load_publishers manifests keys v).2 = keyListings_ v ∧ ∀ k, on_lists (load_publishers manifests keys v).2 k = on_lists v k.
Proof.
  induction keys as [|[id|] keys IH]; intros v Hok; cbn [load_publishers]; [done| |done].
  destruct (revoked id manifests); [by apply IH|]. case_bool_decide as E; [by apply IH|].
  set (v1 := with_lists _ _ v).
  assert (∀ k, on_lists v1 k = on_lists v k) as Hon.
  { intros k. unfold v1. rewrite on_lists_put. unfold publisher. destruct (publisherLists_ v !! id); [destruct E; by eexists|]. cbn. lia. }
  destruct (IH v1) as (H1&H2&H3&H4).
  { destruct Hok as [Hn Hc]. split; [done|]. intros k. unfold listings. rewrite Hon. apply Hc. }
  split_and!; [done|done|done|]. intros k. by rewrite H4.
Qed.

Lemma load_keys_ok localSigningKey keys : ∀ v, listings_ok v → listings_ok (load_keys emptyKey localSigningKey keys v).2.
Proof.
  induction keys as [|[id|] keys IH]; intros v Hok; cbn [load_keys]; [done| |done].
  destruct (_ || _); [by apply IH|]. case_bool_decide as E; [by apply IH|]. apply IH. destruct Hok as [Hn Hc].
  assert (keyListings_ v !! id = None) as Hid by (destruct (keyListings_ v !! id); [destruct E; by eexists|done]).
  split.
  - cbn [keyListings_ with_lists]. intros k n [[<- <-]|[_ ?]]%lookup_insert_Some; [lia|by eapply Hn].
  - intros k. rewrite listings_put. cbn [pub_list keyListings_ with_lists]. rewrite <-Hc. unfold cnt at 1.
    assert (occ k (pub_list (publisher emptyKey v) ++ [id]) = occ k (pub_list (publisher emptyKey v)) + (if decide (k = id) then 1 else 0)) as ->.
    { unfold occ. rewrite filter_app, length_app, filter_cons. case_decide; cbn; lia. }
    case_decide as Hk; [subst; rewrite lookup_insert_eq; unfold cnt; rewrite Hid; cbn; lia|]. rewrite lookup_insert_ne by done. unfold cnt. lia.
Qed.

Lemma list_load_ok manifests localSigningKey configKeys publisherKeys mq :
  listings_ok (load emptyKey manifests localSigningKey configKeys publisherKeys (ValidatorList_init emptyKey mq)).2.
Proof.
  assert (listings_ok (ValidatorList_init emptyKey mq)) as H0.
  { split; [by intros k n|]. intros k. unfold listings, on_lists, cnt. cbn. rewrite msum_empty. case_decide as E; [by destruct E|done]. }
  unfold load. destruct (load_publishers_ok manifests publisherKeys _ H0) as (H1&H2&H3&H4).
  destruct (load_publishers manifests publisherKeys _) as [ok v]. cbn [snd] in *. destruct (negb ok); [done|].
  apply load_keys_ok. cbn in H3. rewrite H3, lookup_empty. split.
  - cbn. intros k n. case_decide; [done|]. intros [[<- <-]|[_ ?]]%lookup_insert_Some; [lia|done].
  - intros k. unfold listings, on_lists. cbn. fold (on_lists v k). rewrite H4. unfold on_lists. cbn. rewrite msum_empty.
    unfold cnt. case_decide as E1; [rewrite decide_False by tauto; by rewrite lookup_empty|].
    case_decide as E2; [destruct E2 as [-> _]; by rewrite lookup_insert_eq|]. rewrite lookup_insert_ne; [by rewrite lookup_empty|]. intros <-. tauto.
Qed.

Lemma remove_publisher_ok pk v : listings_ok v →
  let v' := (removePublisherList pk v).2 in listings_ok (with_lists (delete pk (publisherLists_ v')) (keyListings_ v') v').
Proof.
  intros [Hn Hc]. unfold removePublisherList. destruct (publisherLists_ v !! pk) as [p|] eqn:E; cbn.
  - destruct (drop_all_cnt (pub_list p) (keyListings_ v) Hn) as [H1 H2].
    { intros k. rewrite Hc. unfold listings. pose proof (publisher_le v k pk) as Hp. unfold publisher in Hp. rewrite E in Hp. cbn in Hp.
      case_decide; lia. }
    split; [done|]. intros k. cbn. rewrite H2, Hc. unfold listings, on_lists. cbn. rewrite (msum_delete _ _ _ p) by done. lia.
  - split; [done|]. intros k. cbn. rewrite Hc. unfold listings, on_lists. cbn. by rewrite delete_id.
Qed.

(** ** Runs in which no list expires *)

Definition expired (now : Z) (p : PublisherList (PublicKey:=PublicKey)) : bool := negb (expiration p =? 0) && (expiration p <=? now).

Inductive vl_reach : VL → Prop :=
| vl_load manifests key configKeys publisherKeys mq :
    vl_reach (load emptyKey manifests key configKeys publisherKeys (ValidatorList_init emptyKey mq)).2
| vl_apply vm read_blob version now m manifests v : vl_reach v →
    (∀ pk b k, read_blob pk = Some b → listings v k + occ k (b_validators b) < 2 ^ 64) →
    vl_reach (applyList key_le vm read_blob version now m manifests v).2
| vl_start manifests now seen lists order v : vl_reach v → lists ≡ₚ map_to_list (publisherLists_ v) →
    Forall (fun kp => expired now kp.2 = false) lists → vl_reach (onConsensusStart emptyKey manifests now seen lists order v).

Lemma verify_ok vm read_blob now m manifests v : listings_ok v →
  let '(r, _, v') := verify vm read_blob now m manifests v in
  listings_ok v' ∧ (∀ pk b, r = inr (pk, b) → v' = v ∧ ∃ pk', read_blob pk' = Some b).
Proof.
  intros Hok. unfold verify. destruct m as [m|]; [|done]. destruct (negb (bool_decide _)); [done|].
  destruct (applyManifest vm m manifests) as [res manifests'].
  set (v1 := match manifest_revoked m, res with true, manifest_accepted => _ | _, _ => v end).
  assert (listings_ok v1 ∧ (manifest_revoked m = false → v1 = v)) as [H1 Hv1].
  { unfold v1. destruct (manifest_revoked m), res; try done. split; [|done]. by apply remove_publisher_ok. }
  destruct (manifest_revoked m) eqn:Er; cbn [orb]; [done|]. rewrite (Hv1 eq_refl) in *.
  destruct res; [|destruct (read_blob _) as [b|] eqn:Eb..|]; try done;
    try (destruct (read_blob _) as [b|] eqn:Eb); try done; (destruct (_ || _); [done|]); (split; [done|]); intros pk b' [= <- <-]; eauto.
Qed.

Lemma applyList_ok vm read_blob version now m manifests v : listings_ok v →
  (∀ pk b k, read_blob pk = Some b → listings v k + occ k (b_validators b) < 2 ^ 64) →
  listings_ok (applyList key_le vm read_blob version now m manifests v).2.
Proof.
  intros Hok Hb. unfold applyList. destruct (negb (version =? 1)); [done|]. pose proof (verify_ok vm read_blob now m manifests v Hok) as Hv.
  destruct (verify vm read_blob now m manifests v) as [[[d|[pk b]] manifests'] v']; destruct Hv as [Hok' Hr]; [done|].
  destruct (Hr pk b eq_refl) as [-> [pk' Hread]]. cbn [snd]. destruct Hok as [Hn Hc].
  destruct (update_listings_cnt (merge_sort key_le (b_validators b)) (pub_list (publisher pk v)) (keyListings_ v) Hn) as [H1 H2].
  - intros k. rewrite Hc. unfold listings. pose proof (publisher_le v k pk). case_decide; lia.
  - intros k. rewrite Hc, (occ_perm k _ (b_validators b)) by apply merge_sort_Permutation. by eapply Hb.
  - split; [done|]. intros k. cbn [keyListings_ with_lists]. rewrite H2, Hc, listings_put. cbn [pub_list]. lia.
Qed.

Lemma check_lists_live now lists : ∀ a v, Forall (fun kp => expired now kp.2 = false) lists → (check_lists now lists a v).2 = v.
Proof.
  induction lists as [|[k p] lists IH]; intros a v H; cbn [check_lists]; [done|]. apply Forall_cons in H as [H1 H2]. cbn in H1.
  unfold expired in H1. rewrite H1. by apply IH.
Qed.

Lemma onConsensusStart_lists manifests now seen lists order v :
  let v' := onConsensusStart emptyKey manifests now seen lists order v in
  let v1 := (check_lists now lists true v).2 in
  publisherLists_ v' = publisherLists_ v1 ∧ keyListings_ v' = keyListings_ v1 ∧ localPubKey_ v' = localPubKey_ v1.
Proof.
  unfold onConsensusStart. destruct (check_lists now lists true v) as [a v1]. cbv zeta. cbn [snd].
  destruct (if _ || _ then _ else _) as [q n]. done.
Qed.

Lemma vl_reach_ok v : vl_reach v → listings_ok v.
Proof.
  induction 1 as [| |manifests now seen lists order v _ IH Hl Hf]; [apply list_load_ok|by apply applyList_ok|].
  destruct (onConsensusStart_lists manifests now seen lists order v) as (E1&E2&E3). rewrite check_lists_live in E1, E2, E3 by done.
  destruct IH as [Hn Hc]. split; rewrite E2; [done|]. intros k. rewrite Hc. unfold listings, on_lists. by rewrite E1, E3.
Qed.

(** C15: After loading a configuration and any sequence of applied lists, revoked
    publishers and rounds in which no list has expired, the count kept for a key is the
    number of its occurrences on the lists of the publishers and in the configuration (a
    key that one list repeats counts as often as it is repeated), with one more for the
    key of this server; keys without an occurrence have no entry, and the key of this
    server has one. *)
Theorem listings_exact v : vl_reach v →
  (∀ k, keyListings_ v !! k = if listings v k =? 0 then None else Some (listings v k))
  ∧ (localPubKey_ v ≠ emptyKey → is_Some (keyListings_ v !! localPubKey_ v)).
Proof.
  intros Hok%vl_reach_ok. split; [intros k; by apply listings_lookup|]. intros Hl. rewrite listings_lookup by done.
  unfold listings. rewrite decide_True by done. pose proof (on_lists_nonneg v (localPubKey_ v)).
  destruct (Z.eqb_spec (1 + on_lists v (localPubKey_ v)) 0); [lia|by eexists].
Qed.
End Props.
