(* ===== verification/ValidatorListQuorum.v ===== *)
(** * Trusted keys and quorums

    The keys trusted in a round are the eligible ones with the most listings, the quorum is at
    least what [calculateQuorum] asks of their number, and two nodes with the same lists cannot
    reach their quorums with disjoint sets of validators. *)

From stdpp Require Import sorting.
From S2P Require Import Prelude Manifest ValidatorList ValidatorListProps.
Local Open Scope Z_scope.

Section Quorum.
Context {PublicKey : Type} `{!EqDecision PublicKey, !Countable PublicKey}.
Context (emptyKey : PublicKey).
Notation Manifests := (@ManifestCache PublicKey _ _).
Notation VL := (@ValidatorList PublicKey _ _).
Implicit Types (v : VL) (k : PublicKey) (manifests : Manifests).

(** ** Ranked keys *)

Definition rank_le (a b : Z * PublicKey) : Prop := a.1 <= b.1.

Lemma insert_ranked_perm r k l : insert_ranked r k l ≡ₚ (r, k) :: l.
Proof.
  induction l as [|[r' k'] l IH]; cbn; [done|]. destruct (r' <=? r); [|done]. rewrite IH. apply Permutation_swap.
Qed.

Lemma insert_ranked_sorted r k l : StronglySorted rank_le l → StronglySorted rank_le (insert_ranked r k l).
Proof.
  induction 1 as [|[r' k'] l Hs IH Hf]; cbn; [by repeat constructor|]. destruct (Z.leb_spec r' r).
  - constructor; [done|]. rewrite insert_ranked_perm. by constructor.
  - constructor; [by constructor|]. constructor; [unfold rank_le; cbn; lia|].
    eapply Forall_impl; [done|]. intros [r2 k2]. unfold rank_le. cbn. lia.
Qed.

Lemma rank_keys_app manifests seen v order l : StronglySorted rank_le l →
  let l' := foldl (fun l k => if eligible manifests seen v k then insert_ranked (rank_of v k) k l else l) l order in
  StronglySorted rank_le l' ∧ l' ≡ₚ ((fun k => (rank_of v k, k)) <$> filter (fun k => eligible manifests seen v k = true) order) ++ l.
Proof.
  revert l. induction order as [|k order IH]; intros l Hl; cbn [foldl]; [done|]. rewrite filter_cons.
  destruct (eligible manifests seen v k).
  - rewrite decide_True by done. destruct (IH (insert_ranked (rank_of v k) k l)) as [H1 H2]; [by apply insert_ranked_sorted|].
    split; [done|]. rewrite H2, insert_ranked_perm. cbn. by rewrite Permutation_middle.
  - rewrite decide_False by done. by apply IH.
Qed.

Lemma rank_keys_spec manifests seen v order :
  StronglySorted rank_le (rank_keys manifests seen v order)
  ∧ rank_keys manifests seen v order ≡ₚ (fun k => (rank_of v k, k)) <$> filter (fun k => eligible manifests seen v k = true) order.
Proof.
  destruct (rank_keys_app manifests seen v order [] ltac:(constructor)) as [H1 H2]. split; [done|]. by rewrite app_nil_r in H2.
Qed.

Lemma rank_keys_keys manifests seen v order :
  (rank_keys manifests seen v order).*2 ≡ₚ filter (fun k => eligible manifests seen v k = true) order.
Proof.
  rewrite (proj2 (rank_keys_spec manifests seen v order)). rewrite <-list_fmap_compose.
  by rewrite (list_fmap_id (filter _ order)).
Qed.

Lemma trust_keys_take s ranked : ∀ t : gset PublicKey, NoDup ranked.*2 → (∀ k, k ∈ ranked.*2 → k ∉ t) →
  trust_keys s ranked t = list_to_set (take (Z.to_nat (s - Z.of_nat (size t))) ranked.*2) ∪ t.
Proof.
  induction ranked as [|[r k] ranked IH]; intros t Hnd Ht; cbn [trust_keys]; [cbn [fmap list_fmap]; rewrite take_nil; set_solver|].
  cbn [fmap list_fmap] in *. apply NoDup_cons in Hnd as [Hk Hnd]. destruct (Z.leb_spec s (Z.of_nat (size t))).
  { replace (Z.to_nat (s - Z.of_nat (size t))) with 0%nat by lia. cbn. set_solver. }
  assert (size ({[k]} ∪ t) = S (size t)) as Hs.
  { rewrite size_union, size_singleton; [done|]. specialize (Ht k ltac:(left)). set_solver. }
  rewrite IH; [|done|]. 2:{ intros k' Hk'. specialize (Ht k' ltac:(by right)). assert (k' ≠ k) by (by intros ->). set_solver. }
  rewrite Hs. replace (Z.to_nat (s - Z.of_nat (size t))) with (S (Z.to_nat (s - Z.of_nat (S (size t))))) by lia. cbn. set_solver.
Qed.


(** ** What a round trusts *)

Definition keys_of (kl : gmap PublicKey Z) : list PublicKey := (map_to_list kl).*1.

(** The majority of the listed keys, raised for a key of this server that no list has. *)
Definition majority (manifests : Manifests) (r : Z) (v : VL) : Z :=
  let n := Z.of_nat (size (keyListings_ v)) in
  if negb (bool_decide (localPubKey_ v = emptyKey)) && negb (localKeyListed manifests v) && (1 <? r) && negb (n mod 2 =? 0)
  then n / 2 + 1 + 1 else n / 2 + 1.

Lemma majority_ge manifests r v : Z.of_nat (size (keyListings_ v)) / 2 + 1 <= majority manifests r v.
Proof. unfold majority. case_match; lia. Qed.


(** A round trusts the last [s] of the ranked keys. *)
Lemma round_shape manifests now seen lists order v :
  let v' := onConsensusStart emptyKey manifests now seen lists order v in
  let R := rank_keys manifests seen v' (order (keyListings_ v')) in
  let r := Z.of_nat (length R) in
  ∃ q s, majority manifests r v' <= q ∧ (s = r ∧ calculateQuorum r <= q ∨ s = q * 5 / 4 ∧ 10 <= r)
    ∧ trustedKeys_ v' = trust_keys s (reverse R) ∅
    ∧ (minimumQuorum_ v' = None → quorum_ v' = q ∨ quorum_ v' = max_size).
Proof.
  unfold onConsensusStart. destruct (check_lists now lists true v) as [a v1].
  set (R := rank_keys manifests seen v1 (order (keyListings_ v1))). set (r := Z.of_nat (length R)).
  fold (majority manifests r v1). set (q0 := majority manifests r v1).
  destruct (_ || _) eqn:Eb.
  - exists (Z.max q0 (calculateQuorum r)), r. cbn [trustedKeys_ keyListings_ with_trusted minimumQuorum_ quorum_].
    split_and!; [change (q0 <= Z.max q0 (calculateQuorum r)); lia|left; split; [done|change (calculateQuorum r <= Z.max q0 (calculateQuorum r)); lia]|done|].
    intros ->. destruct a; auto.
  - apply orb_false_iff in Eb as [Er%Z.ltb_ge _]. exists q0, (q0 * 5 / 4). cbn [trustedKeys_ keyListings_ with_trusted minimumQuorum_ quorum_].
    split_and!; [done|by right|done|]. intros ->. destruct a; auto.
Qed.

(** The keys a round can trust. *)
Definition candidates (manifests : Manifests) (seen : gset PublicKey) (v : VL) : list PublicKey :=
  filter (fun k => eligible manifests seen v k = true) (keys_of (keyListings_ v)).

Lemma elem_of_candidates manifests seen v k :
  k ∈ candidates manifests seen v ↔ is_Some (keyListings_ v !! k) ∧ eligible manifests seen v k = true.
Proof.
  unfold candidates, keys_of. rewrite list_elem_of_filter, list_elem_of_fmap. split.
  - intros [He [[k' n] [-> Hk%elem_of_map_to_list]]]. split; [by eexists|done].
  - intros [[n Hn] He]. split; [done|]. exists (k, n). split; [done|]. by apply elem_of_map_to_list.
Qed.

Lemma candidates_nodup manifests seen v : NoDup (candidates manifests seen v).
Proof. apply NoDup_filter, NoDup_fst_map_to_list. Qed.

(** The trusted keys are the last ones of the ranked candidates. *)
Lemma trusted_take manifests seen v order s :
  order ≡ₚ keys_of (keyListings_ v) →
  let R := rank_keys manifests seen v order in
  R.*2 ≡ₚ candidates manifests seen v ∧ NoDup (reverse R).*2
  ∧ trust_keys s (reverse R) ∅ = list_to_set (take (Z.to_nat s) (reverse R).*2).
Proof.
  intros Ho R. assert (R.*2 ≡ₚ candidates manifests seen v) as HR by (unfold R, candidates; rewrite rank_keys_keys; by rewrite Ho).
  assert (NoDup (reverse R).*2) as Hnd by (rewrite fmap_reverse, reverse_Permutation, HR; apply candidates_nodup).
  split_and!; [done|done|]. rewrite trust_keys_take by (done || set_solver). rewrite size_empty. rewrite Z.sub_0_r. set_solver.
Qed.



Lemma size_list_to_set_nodup (l : list PublicKey) : NoDup l → size (list_to_set (C:=gset PublicKey) l) = length l.
Proof. intros. by apply size_list_to_set. Qed.



(** ** Overlap of quorums *)

(** Two majorities of a set meet. *)
Lemma majorities_meet (L A B : gset PublicKey) :
  (size L < 2 * size (A ∩ L))%nat → (size L < 2 * size (B ∩ L))%nat → ∃ k, k ∈ A ∧ k ∈ B.
Proof.
  intros HA HB. destruct (decide (A ∩ L ∩ (B ∩ L) = ∅)) as [He|Hne].
  - assert (size (A ∩ L ∪ B ∩ L) <= size L)%nat as Hs by (apply subseteq_size; set_solver).
    rewrite size_union in Hs by set_solver. lia.
  - apply set_choose_L in Hne as [k Hk]. exists k. set_solver.
Qed.

Lemma trusted_bounds manifests now seen lists order v :
  let v' := onConsensusStart emptyKey manifests now seen lists order v in
  order (keyListings_ v') ≡ₚ keys_of (keyListings_ v') →
  trustedKeys_ v' ⊆ dom (keyListings_ v')
  ∧ (size (trustedKeys_ v') <= length (rank_keys manifests seen v' (order (keyListings_ v'))))%nat.
Proof.
  intros v' Ho. destruct (round_shape manifests now seen lists order v) as (q&s&_&_&Ht&_). fold v' in Ht.
  destruct (trusted_take manifests seen v' (order (keyListings_ v')) s Ho) as (HR&Hnd&Htake). rewrite Ht, Htake. split.
  - intros k Hk%elem_of_list_to_set. apply elem_of_take in Hk as (i&Hi%list_elem_of_lookup_2&_).
    rewrite fmap_reverse, reverse_Permutation, HR in Hi. apply elem_of_candidates in Hi as [Hi _]. by apply elem_of_dom.
  - rewrite size_list_to_set_nodup by (eapply sublist_NoDup; [done|apply sublist_take]).
    rewrite length_take, length_fmap, length_reverse. lia.
Qed.

(** The keys with listings are those of the lists and the one of this server. *)
Lemma dom_listings v (L : gset PublicKey) : listings_ok emptyKey v → (∀ k, k ∈ L ↔ 0 < on_lists v k) →
  dom (keyListings_ v) = L ∪ (if decide (localPubKey_ v = emptyKey) then ∅ else {[localPubKey_ v]}).
Proof.
  intros Hok HL. apply set_eq. intros k. rewrite elem_of_union, elem_of_dom, (listings_lookup emptyKey), HL by done.
  unfold listings. pose proof (on_lists_nonneg v k).
  destruct (decide (localPubKey_ v = emptyKey)) as [E|E].
  - rewrite decide_False by tauto. destruct (Z.eqb_spec (0 + on_lists v k) 0); rewrite elem_of_empty; [rewrite is_Some_alt; lia|].
    split; [left; lia|by eexists].
  - rewrite elem_of_singleton. case_decide as Ek.
    + destruct (Z.eqb_spec (1 + on_lists v k) 0); [lia|]. split; [right; tauto|by eexists].
    + destruct (Z.eqb_spec (0 + on_lists v k) 0); [rewrite is_Some_alt; split; [done|]; intros [?|?]; [lia|tauto]|].
      split; [left; lia|by eexists].
Qed.

(** A round of a node whose listings are exact and whose lists are current. *)
Definition live_round (now : Z) (lists : list (PublicKey * @PublisherList PublicKey)) (order : gmap PublicKey Z → list PublicKey) (v : VL) : Prop :=
  Forall (fun kp => expired now kp.2 = false) lists ∧ order (keyListings_ v) ≡ₚ keys_of (keyListings_ v)
  ∧ minimumQuorum_ v = None ∧ Z.of_nat (size (keyListings_ v)) < max_size.

Lemma live_round_start manifests now seen lists order v : live_round now lists order v →
  let v' := onConsensusStart emptyKey manifests now seen lists order v in
  publisherLists_ v' = publisherLists_ v ∧ keyListings_ v' = keyListings_ v ∧ localPubKey_ v' = localPubKey_ v ∧ minimumQuorum_ v' = None.
Proof.
  intros (Hf&_&Hm&_). pose proof (onConsensusStart_lists emptyKey manifests now seen lists order v) as (E1&E2&E3).
  rewrite check_lists_live in E1, E2, E3 by done. split_and!; [done..|].
  unfold onConsensusStart. pose proof (check_lists_live now lists true v Hf) as Hc. destruct (check_lists now lists true v) as [a v1].
  cbn in Hc. subst v1. cbv zeta. by destruct (if _ || _ then _ else _) as [q n].
Qed.

(** A quorum has more than half of the keys that are on the lists. *)
Lemma quorum_majority manifests now seen lists order v (L A : gset PublicKey) :
  listings_ok emptyKey v → live_round now lists order v → (∀ k, k ∈ L ↔ 0 < on_lists v k) → L ≠ ∅ →
  let v' := onConsensusStart emptyKey manifests now seen lists order v in
  A ⊆ trustedKeys_ v' → quorum_ v' <= Z.of_nat (size A) → (size L < 2 * size (A ∩ L))%nat.
Proof.
  intros Hok Hl HL Hne v' HA Hq. pose proof (live_round_start manifests now seen lists order v Hl) as (E1&E2&E3&E4). fold v' in E1, E2, E3, E4.
  destruct Hl as (_&Ho&_&Hsz). rewrite <-E2 in Ho, Hsz. destruct (trusted_bounds manifests now seen lists order v Ho) as [Hdom Hlen].
  destruct (round_shape manifests now seen lists order v) as (q&s&Hmaj&_&_&Hmin). fold v' in Hdom, Hlen, Hmaj, Hmin.
  set (r := length (rank_keys manifests seen v' (order (keyListings_ v')))) in *.
  pose proof (dom_listings v L Hok HL) as Hd. rewrite <-E2, <-E3 in Hd.
  assert (size A <= size (trustedKeys_ v'))%nat as HAt by by apply subseteq_size.
  assert (size A <= size (keyListings_ v'))%nat as HAn by (rewrite <-size_dom; apply subseteq_size; set_solver).
  assert (q <= Z.of_nat (size A)) as Hqa by (destruct (Hmin E4) as [Hx|Hx]; lia). clear Hmin Hq.
  assert (0 < size L)%nat by (apply Nat.neq_0_lt_0; intros Hz%size_empty_inv; set_solver).
  pose proof (majority_ge manifests (Z.of_nat r) v') as Hge. rewrite <-size_dom in Hge.
  assert (Z.of_nat (size (dom (keyListings_ v'))) / 2 + 1 <= q) by lia. clear Hge.
  pose proof (Z.div_mod (Z.of_nat (size (dom (keyListings_ v')))) 2 ltac:(lia)).
  pose proof (Z.mod_pos_bound (Z.of_nat (size (dom (keyListings_ v')))) 2 ltac:(lia)).
  destruct (decide (localPubKey_ v' = emptyKey ∨ localPubKey_ v' ∈ L)) as [Hin|Hout].
  - assert (dom (keyListings_ v') = L) as HdL by (rewrite Hd; case_decide; set_solver).
    rewrite HdL in *. replace (A ∩ L) with A by set_solver. lia.
  - assert (localPubKey_ v' ≠ emptyKey ∧ localPubKey_ v' ∉ L) as [Hne' Hnin] by tauto. rewrite decide_False in Hd by done.
    assert (size (dom (keyListings_ v')) = S (size L)) as HN by (rewrite Hd, size_union, size_singleton by set_solver; lia).
    assert (size A <= S (size (A ∩ L)))%nat as HAL.
    { transitivity (size (A ∩ L ∪ {[localPubKey_ v']})); [apply subseteq_size; set_solver|].
      rewrite size_union_alt. assert (size ({[localPubKey_ v']} ∖ (A ∩ L)) <= size ({[localPubKey_ v']} : gset PublicKey))%nat as Hx
        by (apply subseteq_size; set_solver). rewrite size_singleton in Hx. lia. }
    assert (localKeyListed manifests v' = false) as Hlk.
    { unfold localKeyListed. apply andb_false_iff. right. apply Z.ltb_ge. rewrite E2, (listings_lookup emptyKey) by done.
      unfold listings. rewrite E3 in *. rewrite decide_True by done. rewrite HL in Hnin. pose proof (on_lists_nonneg v (localPubKey_ v)).
      destruct (_ =? _); cbn; lia. }
    rewrite HN in *. unfold majority in Hmaj. rewrite Hlk, bool_decide_false in Hmaj by done. cbn [negb andb] in Hmaj.
    rewrite <-size_dom, HN in Hmaj. destruct (Z.ltb_spec 1 (Z.of_nat r)); [|lia].
    destruct (Z.eqb_spec (Z.of_nat (S (size L)) mod 2) 0); cbn [negb andb] in Hmaj; lia.
Qed.

Context (key_le : relation PublicKey) `{!RelDecision key_le, !Total key_le, !AntiSymm (=) key_le}.

(** C14: Two servers whose lists name the same validators cannot both reach their
    quorums with disjoint sets of trusted validators, whatever validations each has
    seen, also when either of them is itself a validator that no list names, and
    whatever the random choice among equally ranked keys: any two such sets have a
    validator in common. Both servers are in states reached by loading a configuration,
    applying lists and starting rounds, with current lists and no configured minimum
    quorum. *)
Theorem quorum_prevents_fork m1 now1 seen1 lists1 order1 v1 m2 now2 seen2 lists2 order2 v2 (L A B : gset PublicKey) :
  vl_reach key_le emptyKey v1 → vl_reach key_le emptyKey v2 →
  live_round now1 lists1 order1 v1 → live_round now2 lists2 order2 v2 →
  (∀ k, k ∈ L ↔ 0 < on_lists v1 k) → (∀ k, k ∈ L ↔ 0 < on_lists v2 k) → L ≠ ∅ →
  let v1' := onConsensusStart emptyKey m1 now1 seen1 lists1 order1 v1 in
  let v2' := onConsensusStart emptyKey m2 now2 seen2 lists2 order2 v2 in
  A ⊆ trustedKeys_ v1' → quorum_ v1' <= Z.of_nat (size A) →
  B ⊆ trustedKeys_ v2' → quorum_ v2' <= Z.of_nat (size B) → ∃ k, k ∈ A ∧ k ∈ B.
Proof.
  intros H1 H2 Hl1 Hl2 HL1 HL2 Hne v1' v2' HA HqA HB HqB.
  pose proof (vl_reach_ok key_le emptyKey v1 H1) as Hok1. pose proof (vl_reach_ok key_le emptyKey v2 H2) as Hok2.
  apply (majorities_meet L).
  - by apply (quorum_majority m1 now1 seen1 lists1 order1 v1).
  - by apply (quorum_majority m2 now2 seen2 lists2 order2 v2).
Qed.
End Quorum.
