(* ===== verification/ValidatorListExpired.v ===== *)
(** * Expired lists, and concrete runs

    A list that expires stays among the lists of its publisher: its keys lose a listing at the
    start of every round after its expiration. *)

From stdpp Require Import sorting.
From S2P Require Import Prelude Manifest ValidatorList ValidatorListProps ValidatorListQuorum.
Local Open Scope Z_scope.

Section Expired.
Context {PublicKey : Type} `{!EqDecision PublicKey, !Countable PublicKey} (emptyKey : PublicKey).
Notation Manifests := (@ManifestCache PublicKey _ _).
Notation VL := (@ValidatorList PublicKey _ _).
Implicit Types (v : VL) (k : PublicKey) (kl : gmap PublicKey Z) (lists : list (PublicKey * @PublisherList PublicKey)).

(** How often a key is on an expired list. *)
Fixpoint expired_occ (now : Z) (lists : list (PublicKey * @PublisherList PublicKey)) (k : PublicKey) : Z :=
  match lists with
  | [] => 0
  | (_, l) :: lists => (if expired now l then occ k (pub_list l) else 0) + expired_occ now lists k
  end.

Lemma expired_occ_nonneg now lists k : 0 <= expired_occ now lists k.
Proof. induction lists as [|[pk l] lists IH]; cbn; [lia|]. pose proof (occ_nonneg k (pub_list l)). destruct (expired now l); lia. Qed.

Lemma cnt_nonneg kl k : normal kl → 0 <= cnt kl k.
Proof. intros Hn. unfold cnt. destruct (kl !! k) eqn:E; cbn; [apply Hn in E; lia|lia]. Qed.

(** A listing is dropped unless there is none. *)
Lemma drop_listing_max k kl : normal kl →
  normal (drop_listing kl k) ∧ ∀ k', cnt (drop_listing kl k) k' = Z.max 0 (cnt kl k' - (if decide (k' = k) then 1 else 0)).
Proof.
  intros Hn. destruct (decide (1 <= cnt kl k)) as [H1|H1].
  - destruct (drop_listing_cnt k kl Hn H1) as [H2 H3]. split; [done|]. intros k'. rewrite H3. pose proof (cnt_nonneg kl k' Hn).
    case_decide; [subst|]; lia.
  - assert (kl !! k = None) as Hk. { unfold cnt in H1. destruct (kl !! k) eqn:E; [|done]. apply Hn in E. cbn in H1. lia. }
    unfold drop_listing. rewrite Hk. split; [done|]. intros k'. pose proof (cnt_nonneg kl k' Hn). case_decide; [subst|]; lia.
Qed.

Lemma drop_all_max l : ∀ kl, normal kl →
  normal (foldl drop_listing kl l) ∧ ∀ k, cnt (foldl drop_listing kl l) k = Z.max 0 (cnt kl k - occ k l).
Proof.
  induction l as [|o l IH]; intros kl Hn; cbn [foldl].
  { split; [done|]. intros k. pose proof (cnt_nonneg kl k Hn). unfold occ. cbn. lia. }
  destruct (drop_listing_max o kl Hn) as [Hn' Hc]. destruct (IH _ Hn') as [H1 H2]. split; [done|]. intros k.
  rewrite H2, Hc, occ_cons. pose proof (occ_nonneg k l). case_decide; lia.
Qed.

Lemma check_lists_max now lists : ∀ a v, normal (keyListings_ v) → Forall (fun kp => publisherLists_ v !! kp.1 = Some kp.2) lists →
  let v' := (check_lists now lists a v).2 in
  publisherLists_ v' = publisherLists_ v ∧ normal (keyListings_ v')
  ∧ ∀ k, cnt (keyListings_ v') k = Z.max 0 (cnt (keyListings_ v) k - expired_occ now lists k).
Proof.
  induction lists as [|[pk l] lists IH]; intros a v Hn Hf; cbn [check_lists expired_occ].
  { split_and!; [done|done|]. intros k. pose proof (cnt_nonneg (keyListings_ v) k Hn). cbn. lia. }
  apply Forall_cons in Hf as [Hl Hf]. cbn in Hl. fold (expired now l). destruct (expired now l); [|by apply IH].
  unfold removePublisherList. rewrite Hl. cbn [snd].
  destruct (drop_all_max (pub_list l) (keyListings_ v) Hn) as [Hn' Hc].
  destruct (IH a (with_lists (publisherLists_ v) (foldl drop_listing (keyListings_ v) (pub_list l)) v) Hn' Hf) as (H1&H2&H3).
  split_and!; [done|done|]. intros k. rewrite H3. cbn. rewrite Hc. pose proof (expired_occ_nonneg now lists k). lia.
Qed.

(** Rounds at a time. *)
Fixpoint rounds (n : nat) (manifests : Manifests) (now : Z) (seen : gset PublicKey)
    (lists : list (PublicKey * @PublisherList PublicKey)) (order : gmap PublicKey Z → list PublicKey) (v : VL) : VL :=
  match n with
  | O => v
  | S n => rounds n manifests now seen lists order (onConsensusStart emptyKey manifests now seen lists order v)
  end.

(** C39: A list that has expired stays with its publisher, and every start of a round
    takes one listing per occurrence from its keys again: after n rounds a key with c
    listings has the larger of 0 and c - n times its occurrences on expired lists, so
    that keys which are also configured or on other lists lose those listings, too. *)
Theorem expired_drops_each_round n manifests now seen lists order v :
  normal (keyListings_ v) → lists ≡ₚ map_to_list (publisherLists_ v) →
  let v' := rounds n manifests now seen lists order v in
  publisherLists_ v' = publisherLists_ v
  ∧ ∀ k, cnt (keyListings_ v') k = Z.max 0 (cnt (keyListings_ v) k - Z.of_nat n * expired_occ now lists k).
Proof.
  intros Hn Hl. revert v Hn Hl. induction n as [|n IH]; intros v Hn Hl; cbn [rounds].
  { split; [done|]. intros k. pose proof (cnt_nonneg (keyListings_ v) k Hn). lia. }
  destruct (onConsensusStart_lists emptyKey manifests now seen lists order v) as (E1&E2&_).
  destruct (check_lists_max now lists true v Hn) as (H1&H2&H3).
  { apply Forall_forall. intros [pk l] Hin. rewrite Hl in Hin. by apply elem_of_map_to_list in Hin. }
  rewrite <-E1 in H1. rewrite <-E2 in H2, H3. destruct (IH (onConsensusStart emptyKey manifests now seen lists order v)) as [H4 H5]; [done|by rewrite H1|].
  split; [by rewrite H4|]. intros k. rewrite H5, H3. pose proof (expired_occ_nonneg now lists k). pose proof (cnt_nonneg (keyListings_ v) k Hn). nia.
Qed.
End Expired.

(** ** Concrete runs

    A publisher (key 100, which signs with 200) lists the validators 1, 2 and 3 until the time
    1000.  One server has no key of its own, another is the validator 9, which no list has. *)

Definition ex_manifests : ManifestCache (PublicKey := N) := ManifestCache_init.
Definition ex_loaded (local : N) : ValidatorList (PublicKey := N) :=
  (load 0%N ex_manifests local [] [Some 100%N] (ValidatorList_init 0%N None)).2.
Definition ex_blob (l : list N) (seq expires : Z) (k : N) : option Blob := if decide (k = 200%N) then Some (mkBlob seq expires l) else None.
Definition ex_apply (l : list N) (seq expires now : Z) (v : ValidatorList (PublicKey := N)) : ValidatorList (PublicKey := N) :=
  (applyList N.le (fun _ => true) (ex_blob l seq expires) 1 now (Some (mkManifest 100%N 200%N 1)) ManifestCache_init v).2.
Definition ex_listed (local : N) : ValidatorList (PublicKey := N) := ex_apply [3; 1; 2]%N 1 1000 10 (ex_loaded local).
Definition ex_order : gmap N Z → list N := keys_of.
Definition ex_start (local : N) : ValidatorList (PublicKey := N) :=
  onConsensusStart 0%N ex_manifests 20 ∅ (map_to_list (publisherLists_ (ex_listed local))) ex_order (ex_listed local).

Lemma ex_lists local k : local = 0%N ∨ local = 9%N → on_lists (ex_loaded local) k = 0 ∧ on_lists (ex_listed local) k = occ k [1; 2; 3]%N.
Proof.
  intros Hl. unfold on_lists.
  assert (publisherLists_ (ex_loaded local) = {[100%N := new_publisher]}) as -> by (by destruct Hl as [->| ->]; vm_compute).
  assert (publisherLists_ (ex_listed local) = {[100%N := mkPublisher true [1; 2; 3]%N 1 1000]}) as -> by (by destruct Hl as [->| ->]; vm_compute).
  rewrite <-!insert_empty, !msum_insert, !msum_empty by apply lookup_empty. cbn. unfold occ at 1. cbn. lia.
Qed.

Lemma occ_le_length {K} `{EqDecision K} (k : K) l : occ k l <= Z.of_nat (length l).
Proof. unfold occ. pose proof (length_filter (eq k) l). lia. Qed.

Lemma ex_reach local : local = 0%N ∨ local = 9%N → vl_reach N.le 0%N (ex_listed local).
Proof.
  intros Hl. unfold ex_listed, ex_apply. apply vl_apply; [apply vl_load|]. intros pk b k Hb.
  unfold listings. rewrite (proj1 (ex_lists local k Hl)). unfold ex_blob in Hb. destruct (decide (pk = 200%N)); [|done]. injection Hb as <-.
  pose proof (occ_le_length k [3; 1; 2]%N). cbn in *. case_decide; lia.
Qed.

Lemma ex_live local : local = 0%N ∨ local = 9%N →
  live_round 20 (map_to_list (publisherLists_ (ex_listed local))) ex_order (ex_listed local).
Proof. intros [->| ->]; (split_and!; [by vm_compute; repeat constructor|done|by vm_compute|by vm_compute]). Qed.

Lemma ex_keys local k : local = 0%N ∨ local = 9%N → k ∈ ({[1; 2; 3]}%N : gset N) ↔ 0 < on_lists (ex_listed local) k.
Proof.
  intros Hl. rewrite (proj2 (ex_lists local k Hl)), !occ_cons. unfold occ. cbn [filter list_filter length].
  assert (k ∈ ({[1; 2; 3]}%N : gset N) ↔ k = 1%N ∨ k = 2%N ∨ k = 3%N) as -> by set_solver.
  repeat case_decide; cbn; lia || naive_solver.
Qed.

(** Two quorums of the two servers. *)
Lemma quorum_prevents_fork_witness :
  quorum_ (ex_start 0%N) = 2 ∧ quorum_ (ex_start 9%N) = 3 ∧ ∃ k, k ∈ ({[1; 2]}%N : gset N) ∧ k ∈ ({[9; 3; 2]}%N : gset N).
Proof.
  split_and!; [by vm_compute|by vm_compute|].
  apply (quorum_prevents_fork 0%N N.le ex_manifests 20 ∅ (map_to_list (publisherLists_ (ex_listed 0%N))) ex_order (ex_listed 0%N)
    ex_manifests 20 ∅ (map_to_list (publisherLists_ (ex_listed 9%N))) ex_order (ex_listed 9%N) {[1; 2; 3]}%N);
    [apply ex_reach|apply ex_reach|apply ex_live|apply ex_live|intros k; apply ex_keys|intros k; apply ex_keys| | | | | ]; auto; try (by vm_compute);
    apply (bool_decide_eq_true_1 _); by vm_compute.
Defined.

Lemma listings_exact_witness : keyListings_ (ex_listed 9%N) !! 1%N = Some 1 ∧ is_Some (keyListings_ (ex_listed 9%N) !! 9%N).
Proof.
  destruct (listings_exact N.le 0%N (ex_listed 9%N)) as [H1 H2]; [apply ex_reach; auto|].
  split; [rewrite H1; by vm_compute|by apply H2].
Defined.


(** The validator 1 is configured, too; the list expires, is renewed and then leaves 2 out. *)
Definition ex_config : ValidatorList (PublicKey := N) :=
  ex_apply [3; 1; 2]%N 1 1000 10 (load 0%N ex_manifests 0%N [Some 1%N] [Some 100%N] (ValidatorList_init 0%N None)).2.
Definition ex_rounds (n : nat) : ValidatorList (PublicKey := N) :=
  rounds 0%N n ex_manifests 2000 ∅ (map_to_list (publisherLists_ ex_config)) ex_order ex_config.

(** After the first round the configured validator is still listed, after the second it is not. *)
Lemma expired_drops_each_round_witness :
  cnt (keyListings_ (ex_rounds 1)) 1%N = 1 ∧ cnt (keyListings_ (ex_rounds 2)) 1%N = 0 ∧ keyListings_ (ex_rounds 2) !! 1%N = None.
Proof.
  assert (normal (keyListings_ ex_config)) as Hn.
  { intros k n Hk. assert (map_Forall (fun _ n => 0 < n) (keyListings_ ex_config)) as Hf by (apply (bool_decide_eq_true_1 _); by vm_compute). by apply (Hf k). }
  split_and!; [unfold ex_rounds; rewrite (proj2 (expired_drops_each_round 0%N 1 ex_manifests 2000 ∅ _ ex_order ex_config Hn (Permutation_refl _))); by vm_compute
              |unfold ex_rounds; rewrite (proj2 (expired_drops_each_round 0%N 2 ex_manifests 2000 ∅ _ ex_order ex_config Hn (Permutation_refl _))); by vm_compute
              |by vm_compute].
Defined.

(** A renewed list with the same validators does not list them again, and when it leaves one of
    them out its number of listings wraps: the validator is listed more than any other. *)
Example renewed_list_run :
  let v1 := ex_apply [1; 2; 3]%N 2 5000 2000 (ex_rounds 2) in
  let v2 := ex_apply [1; 3]%N 3 5000 2000 v1 in
  keyListings_ v1 = ∅ ∧ keyListings_ v2 = {[2%N := 2 ^ 64 - 1]}.
Proof. split; by vm_compute. Qed.
