(* ===== verification/SHANode.v ===== *)
(** * Nodes of the hash tree

    [shamap/SHAMapNodeID.h], [impl/SHAMapNodeID.cpp], [SHAMapItem.h], and the version 1
    inner nodes and leaves of [SHAMapTreeNode.h] and [impl/SHAMapTreeNode.cpp]: positions
    in the tree, nodes as values, and the operations on one node.  The digest is the class
    [Sha512Half]. *)

From S2P Require Import Prelude Bytes NodeCodec.
Local Open Scope Z_scope.

Abbreviation uint256 := bytes.

Definition zero256 : uint256 := replicate 32 x00.

(** ** Positions *)

Record SHAMapNodeID := mkNodeID { mNodeID : uint256; mDepth : nat }.

(** The loop of [masks_t]: [n] rounds from byte [i] on. *)
Fixpoint masks_loop (n i : nat) (selector : uint256) : list uint256 :=
  match n with
  | O => [selector]
  | S n =>
      let e0 := selector in
      let e1 := <[i := xf0]> selector in
      e0 :: e1 :: masks_loop n (S i) (<[i := xff]> selector)
  end.
Definition masks : list uint256 := masks_loop 32 0 zero256.
Definition Masks (depth : nat) : uint256 := nth depth masks zero256.

Definition byte_and (a b : byte) : byte := byte_of (Z.land (bval a) (bval b)).
Definition byte_or (a b : byte) : byte := byte_of (Z.lor (bval a) (bval b)).
Definition uint256_and (a b : uint256) : uint256 := zip_with byte_and a b.

(** The default constructor, and the one that checks its arguments. *)
Definition NodeID_root : SHAMapNodeID := mkNodeID zero256 0.
Definition NodeID_init (depth : nat) (hash : uint256) : res SHAMapNodeID :=
  assert_ (Nat.ltb depth 65);;
  assert_ (bool_decide (hash = uint256_and hash (Masks depth)));;
  Ok (mkNodeID hash depth).

Definition isRoot (id : SHAMapNodeID) : bool := Nat.eqb (mDepth id) 0.

Definition getChildNodeID (m : nat) (id : SHAMapNodeID) : res SHAMapNodeID :=
  assert_ (Nat.ltb m 16);;
  assert_ (Nat.ltb (mDepth id) 64);;
  let i := (mDepth id / 2)%nat in
  b ← deref (mNodeID id !! i);
  let v := if Nat.odd (mDepth id) then byte_of (Z.of_nat m) else byte_of (Z.shiftl (Z.of_nat m) 4) in
  NodeID_init (mDepth id + 1) (<[i := byte_or b v]> (mNodeID id)).

Definition selectBranch (id : SHAMapNodeID) (hash : uint256) : res nat :=
  b ← deref (hash !! (mDepth id / 2)%nat);
  let branch := Z.to_nat (if Nat.odd (mDepth id) then Z.land (bval b) 0xf
                          else Z.shiftr (bval b) 4) in
  assert_ (Nat.ltb branch 16);;
  Ok branch.

(** ** Nodes *)

Record SHAMapItem := mkItem { item_key : uint256; item_data : bytes }.

Inductive TNType := tnERROR | tnINNER | tnTRANSACTION_NM | tnTRANSACTION_MD | tnACCOUNT_STATE.

#[global] Instance TNType_eq_dec : EqDecision TNType.
Proof. solve_decision. Defined.

Abbreviation loc := positive.

Inductive node :=
| InnerNode (seq : Z) (hash : uint256) (isBranch : Z) (hashes : list uint256)
    (children : list (option loc))
| TreeNode (seq : Z) (hash : uint256) (type : TNType) (item : SHAMapItem).

Definition getSeq (n : node) : Z :=
  match n with InnerNode s _ _ _ _ => s | TreeNode s _ _ _ => s end.
Definition getNodeHash (n : node) : uint256 :=
  match n with InnerNode _ h _ _ _ => h | TreeNode _ h _ _ => h end.
Definition getType (n : node) : TNType :=
  match n with InnerNode _ _ _ _ _ => tnINNER | TreeNode _ _ t _ => t end.
Definition isInner (n : node) : bool := bool_decide (getType n = tnINNER).
Definition isLeaf (n : node) : bool :=
  bool_decide (getType n = tnTRANSACTION_NM) || bool_decide (getType n = tnTRANSACTION_MD)
  || bool_decide (getType n = tnACCOUNT_STATE).
Definition isValid (n : node) : bool := negb (bool_decide (getType n = tnERROR)).
Definition setSeq (s : Z) (n : node) : node :=
  match n with
  | InnerNode _ h b hs ch => InnerNode s h b hs ch
  | TreeNode _ h t i => TreeNode s h t i
  end.

Definition transactionID : Z := HashPrefix 84 88 78.   (* 'T', 'X', 'N' *)
Definition txNode : Z := HashPrefix 83 78 68.          (* 'S', 'N', 'D' *)
Definition leafNode : Z := HashPrefix 77 76 78.        (* 'M', 'L', 'N' *)

Class Sha512Half := sha512Half : bytes → uint256.

Section node.
Context `{!Sha512Half}.

(** [SHAMapTreeNode::updateHash] *)
Definition leaf_hash (type : TNType) (item : SHAMapItem) : res uint256 :=
  match type with
  | tnTRANSACTION_NM => Ok (sha512Half (field_bytes uint32_t transactionID ++ item_data item))
  | tnACCOUNT_STATE =>
      Ok (sha512Half (field_bytes uint32_t leafNode ++ item_data item ++ item_key item))
  | tnTRANSACTION_MD =>
      Ok (sha512Half (field_bytes uint32_t txNode ++ item_data item ++ item_key item))
  | _ => Err assert_failed
  end.

(** [SHAMapInnerNode::updateHash] *)
Definition inner_hash (isBranch : Z) (hashes : list uint256) : uint256 :=
  if isBranch =? 0 then zero256
  else sha512Half (field_bytes uint32_t innerNode ++ concat hashes).

(** Constructors *)
Definition new_inner (seq : Z) : node :=
  InnerNode seq zero256 0 (replicate 16 zero256) (replicate 16 None).
Definition new_leaf (item : SHAMapItem) (type : TNType) (seq : Z) : res node :=
  assert_ (Nat.leb 12 (length (item_data item)));;
  h ← leaf_hash type item;
  Ok (TreeNode seq h type item).

Definition clone (seq : Z) (n : node) : res node :=
  match n with
  | InnerNode _ h b hs ch => Ok (InnerNode seq h b hs ch)
  | TreeNode _ h t i =>
      assert_ (Nat.leb 12 (length (item_data i)));;
      Ok (TreeNode seq h t i)
  end.

Definition isEmptyBranch (isBranch : Z) (m : nat) : bool :=
  Z.land isBranch (Z.shiftl 1 (Z.of_nat m)) =? 0.
Definition isEmpty (isBranch : Z) : bool := isBranch =? 0.
Definition getBranchCount (isBranch : Z) : nat :=
  length (filter (fun i => isEmptyBranch isBranch i = false) (seq 0 16)).

(** [setChild], for a node at [this]. *)
Definition setChild (this : loc) (m : nat) (child : option loc) (n : node) : res node :=
  match n with
  | TreeNode _ _ _ _ => Err undefined
  | InnerNode seq h b hs ch =>
      assert_ (Nat.ltb m 16);;
      assert_ (negb (seq =? 0));;
      assert_ (negb (bool_decide (child = Some this)));;
      Ok (InnerNode seq zero256
            (match child with
             | Some _ => Z.lor b (Z.shiftl 1 (Z.of_nat m))
             | None => Z.land b (Z.lnot (Z.shiftl 1 (Z.of_nat m)))
             end)
            (<[m := zero256]> hs) (<[m := child]> ch))
  end.

(** [shareChild] *)
Definition shareChild (this : loc) (m : nat) (child : loc) (n : node) : res node :=
  match n with
  | TreeNode _ _ _ _ => Err undefined
  | InnerNode seq h b hs ch =>
      assert_ (Nat.ltb m 16);;
      assert_ (negb (seq =? 0));;
      assert_ (negb (bool_decide (child = this)));;
      Ok (InnerNode seq h b hs (<[m := Some child]> ch))
  end.

(** [setItem]: the node, and whether its hash changed. *)
Definition setItem (item : SHAMapItem) (type : TNType) (n : node) : res (bool * node) :=
  match n with
  | InnerNode _ _ _ _ _ => Err undefined
  | TreeNode seq h _ _ =>
      assert_ (isLeaf (TreeNode seq h type item));;
      assert_ (negb (seq =? 0));;
      nh ← leaf_hash type item;
      Ok (negb (bool_decide (nh = h)), TreeNode seq nh type item)
  end.
End node.
