(* ===== verification/SHAKeys.v ===== *)
(** * Keys and positions of the hash tree

    A key is 32 bytes, read as 64 four-bit digits; [selectBranch] reads one digit and
    [getChildNodeID] appends one. *)

From S2P Require Import Prelude Bytes NodeCodec SHANode.
Local Open Scope Z_scope.

(** The digit of a key at a depth. *)
Definition nib (d : nat) (k : uint256) : nat :=
  match k !! (d / 2)%nat with
  | Some b => Z.to_nat (if Nat.odd d then Z.land (bval b) 0xf else Z.shiftr (bval b) 4)
  | None => 0
  end.

Definition is_key (k : uint256) : Prop := length k = 32%nat.

Lemma nib_lt d k : (nib d k < 16)%nat.
Proof.
  unfold nib. destruct (k !! (d / 2)%nat) as [b|]; [|lia]. destruct (Nat.odd d); by destruct b; vm_compute; lia.
Qed.

Lemma selectBranch_ok id k :
  is_key k → (mDepth id < 64)%nat → selectBranch id k = Ok (nib (mDepth id) k).
Proof.
  intros Hk Hd. pose proof (nib_lt (mDepth id) k) as Hn. unfold selectBranch, nib in *.
  assert (mDepth id / 2 < length k)%nat as Hi
    by (rewrite Hk; apply Nat.Div0.div_lt_upper_bound; lia).
  apply lookup_lt_is_Some_2 in Hi as [b Hb]. rewrite Hb in *. cbn [deref mbind res_bind].
  rewrite (proj2 (Nat.ltb_lt _ _)) by done. done.
Qed.

(** Two digits make a byte. *)
Lemma byte_nibbles a b :
  Z.shiftr (bval a) 4 = Z.shiftr (bval b) 4 → Z.land (bval a) 0xf = Z.land (bval b) 0xf → a = b.
Proof.
  intros H1 H2. rewrite <-(byte_of_bval a), <-(byte_of_bval b). f_equal.
  change 0xf with (Z.ones 4) in H2. rewrite !Z.land_ones in H2 by lia.
  rewrite !Z.shiftr_div_pow2 in H1 by lia.
  rewrite (Z.div_mod (bval a) (2 ^ 4)), (Z.div_mod (bval b) (2 ^ 4)) by lia. congruence.
Qed.

(** Keys with the same digits up to a depth. *)
Definition agree (d : nat) (k1 k2 : uint256) : Prop := ∀ i, (i < d)%nat → nib i k1 = nib i k2.

#[global] Instance agree_dec d k1 k2 : Decision (agree d k1 k2).
Proof.
  refine (cast_if (decide (Forall (fun i => nib i k1 = nib i k2) (seq 0 d))));
    unfold agree; rewrite Forall_forall in *; setoid_rewrite elem_of_seq in f || setoid_rewrite elem_of_seq in n.
  - intros i Hi. apply f. lia.
  - intros Ha. apply n. intros i Hi. apply Ha. lia.
Defined.

Lemma agree_key k1 k2 : is_key k1 → is_key k2 → agree 64 k1 k2 → k1 = k2.
Proof.
  intros H1 H2 Ha. apply list_eq_same_length with 32%nat; [done..|].
  intros i a b Hi Hk1 Hk2.
  pose proof (Ha (2 * i)%nat ltac:(lia)) as He. pose proof (Ha (2 * i + 1)%nat ltac:(lia)) as Ho.
  unfold nib in He, Ho.
  replace ((2 * i) / 2)%nat with i in He by (rewrite Nat.mul_comm, Nat.div_mul; lia).
  replace ((2 * i + 1) / 2)%nat with i in Ho
    by (rewrite Nat.mul_comm, Nat.div_add_l; simpl; lia).
  rewrite Hk1, Hk2 in He, Ho. rewrite Nat.odd_even in He. rewrite Nat.odd_odd in Ho.
  pose proof (bval_range a). pose proof (bval_range b).
  apply byte_nibbles.
  - apply Z2Nat.inj; [apply Z.shiftr_nonneg; lia..|done].
  - apply Z2Nat.inj; [apply Z.land_nonneg; lia..|done].
Qed.

Lemma agree_S d k1 k2 : agree (S d) k1 k2 ↔ agree d k1 k2 ∧ nib d k1 = nib d k2.
Proof.
  unfold agree. split.
  - intros Ha. split; [intros; apply Ha; lia|apply Ha; lia].
  - intros [Ha Hd] i Hi. destruct (decide (i = d)) as [->|]; [done|]. apply Ha. lia.
Qed.
Lemma agree_refl d k : agree d k k.
Proof. by intros i _. Qed.
Lemma agree_sym d k1 k2 : agree d k1 k2 → agree d k2 k1.
Proof. intros Ha i Hi. symmetry. by apply Ha. Qed.
Lemma agree_trans d k1 k2 k3 : agree d k1 k2 → agree d k2 k3 → agree d k1 k3.
Proof. intros H1 H2 i Hi. by rewrite H1, H2. Qed.

(** ** Positions *)

Definition valid_id (id : SHAMapNodeID) : Prop :=
  length (mNodeID id) = 32%nat ∧ mNodeID id = uint256_and (mNodeID id) (Masks (mDepth id)).

Definition mask_byte (d j : nat) : byte :=
  if Nat.ltb j (d / 2) then xff else if Nat.eqb j (d / 2) && Nat.odd d then xf0 else x00.

Lemma Masks_spec d : (d < 65)%nat → Masks d = mask_byte d <$> seq 0 32.
Proof.
  intros Hd. assert (Forall (fun d => Masks d = mask_byte d <$> seq 0 32) (seq 0 65)) as HF
    by by_compute.
  rewrite Forall_forall in HF. apply HF. apply elem_of_seq. lia.
Qed.

Lemma valid_id_spec id :
  (mDepth id < 65)%nat →
  valid_id id ↔ length (mNodeID id) = 32%nat
    ∧ ∀ j b, mNodeID id !! j = Some b → byte_and b (mask_byte (mDepth id) j) = b.
Proof.
  intros Hd. unfold valid_id, uint256_and. rewrite Masks_spec by done. split.
  - intros [Hl He]. split; [done|]. intros j b Hj. pose proof Hj as Hj'.
    rewrite He in Hj'. apply lookup_zip_with_Some in Hj' as (b'&c&Hbc&Hb'&Hc).
    rewrite Hj in Hb'. injection Hb' as <-.
    rewrite list_lookup_fmap, lookup_seq_lt in Hc by (apply lookup_lt_Some in Hj; lia).
    injection Hc as <-. done.
  - intros [Hl He]. split; [done|]. apply list_eq. intros j.
    destruct (mNodeID id !! j) as [b|] eqn:Hj.
    + symmetry. apply lookup_zip_with_Some. exists b, (mask_byte (mDepth id) j).
      rewrite list_lookup_fmap, lookup_seq_lt by (apply lookup_lt_Some in Hj; lia).
      split_and!; [symmetry; by apply He|done|done].
    + symmetry. apply lookup_zip_with_None. by left.
Qed.

Lemma valid_root : valid_id NodeID_root.
Proof. split; [done|]. by vm_compute. Qed.

Lemma byte_and_ff b : byte_and b xff = b.
Proof. by destruct b. Qed.
Lemma byte_and_00 b : byte_and b x00 = b → b = x00.
Proof. by destruct b. Qed.
Lemma high_digit_mask m :
  (m < 16)%nat →
  let v := byte_or x00 (byte_of (Z.shiftl (Z.of_nat m) 4)) in byte_and v xf0 = v.
Proof. intros Hm. do 16 (destruct m as [|m]; [by vm_compute|]). lia. Qed.

(** A mask and the next one differ in one digit. *)
Lemma mask_byte_other d j : j ≠ (d / 2)%nat → mask_byte (d + 1) j = mask_byte d j.
Proof.
  intros Hj. unfold mask_byte. destruct (Nat.odd d) eqn:Ho.
  - apply Nat.odd_spec in Ho as [e ->].
    replace ((2 * e + 1 + 1) / 2)%nat with (S e)
      by (replace (2 * e + 1 + 1)%nat with (S e * 2)%nat by lia; by rewrite Nat.div_mul).
    replace ((2 * e + 1) / 2)%nat with e in *
      by (rewrite Nat.mul_comm, Nat.div_add_l; simpl; lia).
    replace (Nat.odd (2 * e + 1 + 1)) with false 
      by (replace (2 * e + 1 + 1)%nat with (2 * S e)%nat by lia; by rewrite Nat.odd_even).
    rewrite andb_false_r, andb_true_r. rewrite (proj2 (Nat.eqb_neq _ _)) by done.
    destruct (Nat.ltb_spec j (S e)), (Nat.ltb_spec j e); try done; lia.
  - assert (Nat.even d = true) as He by (by rewrite <-Nat.negb_odd, Ho).
    apply Nat.even_spec in He as [e ->].
    replace ((2 * e + 1) / 2)%nat with e by (rewrite Nat.mul_comm, Nat.div_add_l; simpl; lia).
    replace ((2 * e) / 2)%nat with e in * by (rewrite Nat.mul_comm, Nat.div_mul; lia).
    rewrite (proj2 (Nat.eqb_neq _ _)) by done. done.
Qed.

Lemma mask_byte_even d : Nat.odd d = false → mask_byte d (d / 2) = x00 ∧ mask_byte (d + 1) (d / 2) = xf0.
Proof.
  intros Ho. assert (Nat.even d = true) as He by (by rewrite <-Nat.negb_odd, Ho).
  apply Nat.even_spec in He as [e ->]. unfold mask_byte.
  replace ((2 * e + 1) / 2)%nat with e by (rewrite Nat.mul_comm, Nat.div_add_l; simpl; lia).
  replace ((2 * e) / 2)%nat with e by (rewrite Nat.mul_comm, Nat.div_mul; lia).
  rewrite Nat.ltb_irrefl, Nat.eqb_refl, Nat.odd_even, Nat.odd_odd. done.
Qed.
Lemma mask_byte_odd d : Nat.odd d = true → mask_byte (d + 1) (d / 2) = xff.
Proof.
  intros Ho. apply Nat.odd_spec in Ho as [e ->]. unfold mask_byte.
  replace ((2 * e + 1 + 1) / 2)%nat with (S e)
    by (replace (2 * e + 1 + 1)%nat with (S e * 2)%nat by lia; by rewrite Nat.div_mul).
  replace ((2 * e + 1) / 2)%nat with e by (rewrite Nat.mul_comm, Nat.div_add_l; simpl; lia).
  by rewrite (proj2 (Nat.ltb_lt _ _)) by lia.
Qed.

Lemma getChildNodeID_ok m id :
  valid_id id → (mDepth id < 64)%nat → (m < 16)%nat →
  ∃ id', getChildNodeID m id = Ok id' ∧ valid_id id' ∧ mDepth id' = S (mDepth id).
Proof.
  intros Hv Hd Hm. unfold getChildNodeID.
  rewrite (proj2 (Nat.ltb_lt m 16)) by done. rewrite (proj2 (Nat.ltb_lt (mDepth id) 64)) by done.
  cbn [assert_ mbind res_bind]. apply valid_id_spec in Hv as [Hl Hb]; [|lia].
  set (d := mDepth id) in *. set (i := (d / 2)%nat) in *.
  assert (i < 32)%nat as Hi by (apply Nat.Div0.div_lt_upper_bound; lia).
  destruct (lookup_lt_is_Some_2 (mNodeID id) i) as [b Hbi]; [lia|].
  rewrite Hbi. cbn [deref mbind res_bind]. set (v := if Nat.odd d then _ else _).
  set (x := <[i := byte_or b v]> (mNodeID id)).
  assert (valid_id (mkNodeID x (d + 1))) as Hx.
  { apply valid_id_spec; cbn [mDepth mNodeID]; [lia|]. split; [by unfold x; rewrite length_insert|].
    intros j c. unfold x. rewrite list_lookup_insert_Some. intros [(<-&<-&_)|[Hne Hj]].
    - unfold v. destruct (Nat.odd d) eqn:Ho.
      + unfold i. rewrite mask_byte_odd by done. apply byte_and_ff.
      + destruct (mask_byte_even d Ho) as [E0 E1]. fold i in E0, E1. rewrite E1.
        specialize (Hb i b Hbi). rewrite E0 in Hb. apply byte_and_00 in Hb as ->.
        by apply high_digit_mask.
    - rewrite mask_byte_other by (fold i; lia). by apply Hb. }
  exists (mkNodeID x (d + 1)). split_and!; [|done|simpl; lia].
  unfold NodeID_init. rewrite (proj2 (Nat.ltb_lt (d + 1) 65)) by lia. cbn [assert_ mbind res_bind].
  destruct Hx as [_ Hx]. cbn [mNodeID mDepth] in Hx. by rewrite bool_decide_true.
Qed.

(** ** The position of a node on the way to a key *)

(** The first [d] digits of a key. *)
Definition prefix_id (d : nat) (k : uint256) : SHAMapNodeID := mkNodeID (uint256_and k (Masks d)) d.

Lemma lookup_prefix d k j b :
  is_key k → (d < 65)%nat → k !! j = Some b →
  uint256_and k (Masks d) !! j = Some (byte_and b (mask_byte d j)).
Proof.
  intros Hk Hd Hj. unfold uint256_and. rewrite Masks_spec by done. apply lookup_zip_with_Some.
  exists b, (mask_byte d j). split_and!; [done|done|].
  pose proof (lookup_lt_Some _ _ _ Hj) as Hlt. rewrite Hk in Hlt.
  by rewrite list_lookup_fmap, lookup_seq_lt.
Qed.

Lemma length_prefix d k : is_key k → (d < 65)%nat → length (uint256_and k (Masks d)) = 32%nat.
Proof.
  intros Hk Hd. unfold uint256_and. rewrite Masks_spec, length_zip_with, length_fmap, length_seq, Hk by done. done.
Qed.

(** Adding the digit of [b] to its masked part. *)
Lemma digit_high b :
  byte_or (byte_and b x00) (byte_of (Z.shiftl (Z.of_nat (Z.to_nat (Z.shiftr (bval b) 4))) 4)) = byte_and b xf0.
Proof. by destruct b. Qed.
Lemma digit_low b :
  byte_or (byte_and b xf0) (byte_of (Z.of_nat (Z.to_nat (Z.land (bval b) 0xf)))) = byte_and b xff.
Proof. by destruct b. Qed.

Lemma mask_byte_odd_low d : Nat.odd d = true → mask_byte d (d / 2) = xf0.
Proof.
  intros Ho. unfold mask_byte. by rewrite Nat.ltb_irrefl, Nat.eqb_refl, Ho.
Qed.

Lemma prefix_child d k :
  is_key k → (d < 64)%nat →
  getChildNodeID (nib d k) (prefix_id d k) = Ok (prefix_id (S d) k).
Proof.
  intros Hk Hd. unfold getChildNodeID, prefix_id. cbn [mDepth mNodeID].
  rewrite (proj2 (Nat.ltb_lt (nib d k) 16)), (proj2 (Nat.ltb_lt d 64)) by (done || apply nib_lt).
  cbn [assert_ mbind res_bind]. set (i := (d / 2)%nat).
  assert (i < 32)%nat as Hi by (apply Nat.Div0.div_lt_upper_bound; lia).
  destruct (lookup_lt_is_Some_2 k i) as [b Hb]; [rewrite Hk; lia|].
  rewrite (lookup_prefix d k i b) by (done || lia). cbn [deref mbind res_bind].
  assert (<[i := byte_or (byte_and b (mask_byte d i))
      (if Nat.odd d then byte_of (Z.of_nat (nib d k)) else byte_of (Z.shiftl (Z.of_nat (nib d k)) 4))]>
    (uint256_and k (Masks d)) = uint256_and k (Masks (d + 1))) as E.
  { apply list_eq_same_length with 32%nat; [by apply length_prefix; [|lia]|by rewrite length_insert; apply length_prefix; [|lia]|].
    intros j x y Hj Hx Hy. destruct (lookup_lt_is_Some_2 k j) as [c Hc]; [rewrite Hk; lia|].
    rewrite (lookup_prefix (d + 1) k j c) in Hy by (done || lia). injection Hy as <-.
    rewrite list_lookup_insert_Some in Hx. destruct Hx as [(<-&<-&_)|[Hne Hx]].
    - rewrite Hb in Hc. injection Hc as <-. unfold nib. fold i. rewrite Hb. destruct (Nat.odd d) eqn:Ho.
      + unfold i. rewrite mask_byte_odd_low, mask_byte_odd by done. apply digit_low.
      + destruct (mask_byte_even d Ho) as [E0 E1]. fold i in E0, E1. rewrite E0, E1. apply digit_high.
    - rewrite (lookup_prefix d k j c) in Hx by (done || lia). injection Hx as <-.
      by rewrite mask_byte_other. }
  rewrite E. unfold NodeID_init. replace (d + 1)%nat with (S d) by lia.
  rewrite (proj2 (Nat.ltb_lt (S d) 65)) by lia. cbn [assert_ mbind res_bind].
  rewrite bool_decide_true; [done|]. apply list_eq_same_length with 32%nat.
  - unfold uint256_and at 1. rewrite length_zip_with, length_prefix, Masks_spec, length_fmap, length_seq by (done || lia). done.
  - apply length_prefix; [done|lia].
  - intros j x y Hj Hx Hy. destruct (lookup_lt_is_Some_2 k j) as [c Hc]; [rewrite Hk; lia|].
    rewrite (lookup_prefix (S d) k j c) in Hx by (done || lia). injection Hx as <-.
    apply lookup_zip_with_Some in Hy as (z&mb&->&Hz&Hm). rewrite Masks_spec in Hm by lia.
    rewrite (lookup_prefix (S d) k j c) in Hz by (done || lia). injection Hz as <-.
    rewrite list_lookup_fmap, lookup_seq_lt in Hm by lia. injection Hm as <-.
    unfold mask_byte. destruct (Nat.ltb j (S d / 2)); [by destruct c|].
    destruct (Nat.eqb j (S d / 2) && Nat.odd (S d)); by destruct c.
Qed.

Lemma prefix_root k : is_key k → NodeID_root = prefix_id 0 k.
Proof.
  intros Hk. unfold NodeID_root, prefix_id. f_equal. apply list_eq_same_length with 32%nat; [by apply length_prefix; [|lia]|done|].
  intros j x y Hj Hx Hy. destruct (lookup_lt_is_Some_2 k j) as [c Hc]; [rewrite Hk; lia|].
  rewrite (lookup_prefix 0 k j c) in Hy by (done || lia). injection Hy as <-.
  apply lookup_replicate in Hx as [-> _]. unfold mask_byte. cbn [Nat.div]. 
  replace (Nat.ltb j (0 / 2)) with false by (by destruct j). rewrite andb_false_r. by destruct c.
Qed.
