(* ===== verification/SHAMap.v ===== *)
(** * The hash tree ([shamap/SHAMap.h], [shamap/impl/SHAMap.cpp])

    A map is a radix tree of fan-out 16 with shared nodes.  Nodes live in a heap; a node
    whose sequence number is that of the map belongs to the map and is changed in place,
    any other is copied first.  Modelled are the operations of version 1 maps whose nodes
    are all in memory ([backed_] is false): adding, changing and deleting items, lookup,
    traversal, snapshots, and the computation of the hashes. *)

From S2P Require Import Prelude Bytes NodeCodec SHANode.
Local Open Scope Z_scope.

(** ** Heap and errors *)

Abbreviation heap := (gmap loc node).

Definition St (A : Type) : Type := heap → res (A * heap).

#[global] Instance St_ret : MRet St := fun A a h => Ok (a, h).
#[global] Instance St_bind : MBind St := fun A B f m h =>
  match m h with Ok (a, h') => f a h' | Err e => Err e end.

Definition lift {A} (r : res A) : St A := fun h =>
  match r with Ok a => Ok (a, h) | Err e => Err e end.
Definition load (p : loc) : St node := fun h => lift (deref (h !! p)) h.
Definition save (p : loc) (n : node) : St unit := fun h => Ok (tt, <[p := n]> h).
(** [std::make_shared] *)
Definition alloc (n : node) : St loc := fun h =>
  let p := fresh (dom h) in Ok (p, <[p := n]> h).

(** ** Maps *)

Inductive SHAMapState := Modifying | Immutable | Synching | Floating | Invalid.
#[global] Instance SHAMapState_eq_dec : EqDecision SHAMapState.
Proof. solve_decision. Defined.

Record SHAMap := mkMap { seq_ : Z; state_ : SHAMapState; root_ : loc }.

Definition set_root (p : loc) (m : SHAMap) : SHAMap := mkMap (seq_ m) (state_ m) p.

(** A stack of nodes and their positions, the top first. *)
Abbreviation NodeStack := (list (loc * SHAMapNodeID)).

Section shamap.
Context `{!Sha512Half}.

(** The constructor. *)
Definition SHAMap_init : St SHAMap :=
  p ← alloc (new_inner 1);
  mret (mkMap 1 Modifying p).

(** ** Descending *)

(** [descendThrow] on a map that is not backed. *)
Definition descendThrow (isBranch : Z) (children : list (option loc)) (branch : nat) : St loc :=
  ret ← lift (deref (children !! branch));
  match ret with
  | Some p => mret p
  | None => lift (if isEmptyBranch isBranch branch then Err undefined else Err exception_thrown)
  end.

(** The loop of [walkTowardsKey]; a path has at most 65 nodes. *)
Fixpoint walk_loop (fuel : nat) (id : uint256) (p : loc) (nodeID : SHAMapNodeID)
    (stack : NodeStack) : St (option loc * NodeStack) :=
  match fuel with
  | O => lift (Err out_of_fuel)
  | S fuel =>
      n ← load p;
      match n with
      | InnerNode _ _ isBranch _ children =>
          let stack := (p, nodeID) :: stack in
          branch ← lift (selectBranch nodeID id);
          if isEmptyBranch isBranch branch then mret (None, stack)
          else
            q ← descendThrow isBranch children branch;
            nodeID ← lift (getChildNodeID branch nodeID);
            walk_loop fuel id q nodeID stack
      | TreeNode _ _ _ _ => mret (Some p, (p, nodeID) :: stack)
      end
  end.
Definition walkTowardsKey (id : uint256) (m : SHAMap) : St (option loc * NodeStack) :=
  walk_loop 65 id (root_ m) NodeID_root [].

(** The item of a leaf. *)
Definition peekItem_at (p : loc) : St SHAMapItem :=
  n ← load p;
  match n with TreeNode _ _ _ i => mret i | InnerNode _ _ _ _ _ => lift (Err undefined) end.

Definition findKey (id : uint256) (m : SHAMap) : St (option loc) :=
  '(leaf, _) ← walkTowardsKey id m;
  match leaf with
  | None => mret None
  | Some p =>
      i ← peekItem_at p;
      mret (if decide (item_key i = id) then Some p else None)
  end.

Definition peekItem (id : uint256) (m : SHAMap) : St (option SHAMapItem) :=
  leaf ← findKey id m;
  match leaf with None => mret None | Some p => i ← peekItem_at p; mret (Some i) end.

Definition hasItem (id : uint256) (m : SHAMap) : St bool :=
  leaf ← findKey id m;
  mret (match leaf with Some _ => true | None => false end).

(** ** Changing *)

Definition unshareNode (p : loc) (nodeID : SHAMapNodeID) (m : SHAMap) : St (loc * SHAMap) :=
  n ← load p;
  lift (assert_ (isValid n));;
  lift (assert_ (getSeq n <=? seq_ m));;
  if negb (getSeq n =? seq_ m) then
    lift (assert_ (negb (bool_decide (state_ m = Immutable))));;
    n ← lift (clone (seq_ m) n);
    lift (assert_ (isValid n));;
    q ← alloc n;
    mret (q, if isRoot nodeID then set_root q m else m)
  else mret (p, m).

Definition setChild_at (p : loc) (branch : nat) (child : option loc) : St unit :=
  n ← load p;
  n ← lift (setChild p branch child n);
  save p n.

Fixpoint dirtyUp_loop (stack : NodeStack) (target : uint256) (child : loc) (m : SHAMap)
  : St SHAMap :=
  match stack with
  | [] => mret m
  | (p, nodeID) :: stack =>
      branch ← lift (selectBranch nodeID target);
      '(p, m) ← unshareNode p nodeID m;
      setChild_at p branch (Some child);;
      dirtyUp_loop stack target p m
  end.
Definition dirtyUp (stack : NodeStack) (target : uint256) (child : loc) (m : SHAMap) : St SHAMap :=
  lift (assert_ (negb (bool_decide (state_ m = Synching)) && negb (bool_decide (state_ m = Immutable))));;
  n ← load child;
  lift (assert_ (getSeq n =? seq_ m));;
  dirtyUp_loop stack target child m.

Definition leaf_type (isTransaction hasMeta : bool) : TNType :=
  if negb isTransaction then tnACCOUNT_STATE
  else if hasMeta then tnTRANSACTION_MD else tnTRANSACTION_NM.

(** The loop of [addGiveItem]: new inner nodes while both keys take the same branch. *)
Fixpoint split_loop (fuel : nat) (tag other : uint256) (p : loc) (nodeID : SHAMapNodeID)
    (stack : NodeStack) (m : SHAMap) : St (loc * nat * nat * NodeStack) :=
  b1 ← lift (selectBranch nodeID tag);
  b2 ← lift (selectBranch nodeID other);
  if Nat.eqb b1 b2 then
    match fuel with
    | O => lift (Err out_of_fuel)
    | S fuel =>
        let stack := (p, nodeID) :: stack in
        nodeID ← lift (getChildNodeID b1 nodeID);
        p ← alloc (new_inner (seq_ m));
        split_loop fuel tag other p nodeID stack m
    end
  else mret (p, b1, b2, stack).

Definition addGiveItem (item : SHAMapItem) (isTransaction hasMeta : bool) (m : SHAMap)
  : St (bool * SHAMap) :=
  let tag := item_key item in
  let type := leaf_type isTransaction hasMeta in
  lift (assert_ (negb (bool_decide (state_ m = Immutable))));;
  '(_, stack) ← walkTowardsKey tag m;
  match stack with
  | [] => lift (Err exception_thrown)
  | (p, nodeID) :: stack =>
      n ← load p;
      if match n with TreeNode _ _ _ i => bool_decide (item_key i = tag) | _ => false end
      then mret (false, m)
      else
        '(p, m) ← unshareNode p nodeID m;
        n ← load p;
        match n with
        | InnerNode _ _ isBranch _ _ =>
            branch ← lift (selectBranch nodeID tag);
            lift (assert_ (isEmptyBranch isBranch branch));;
            leaf ← lift (new_leaf item type (seq_ m));
            q ← alloc leaf;
            setChild_at p branch (Some q);;
            m ← dirtyUp stack tag p m;
            mret (true, m)
        | TreeNode sq _ _ otherItem =>
            lift (assert_ (negb (bool_decide (tag = item_key otherItem))));;
            p ← alloc (new_inner sq);
            '(p, b1, b2, stack) ← split_loop 64 tag (item_key otherItem) p nodeID stack m;
            leaf ← lift (new_leaf item type (seq_ m));
            q ← alloc leaf;
            setChild_at p b1 (Some q);;
            leaf ← lift (new_leaf otherItem type (seq_ m));
            q ← alloc leaf;
            setChild_at p b2 (Some q);;
            m ← dirtyUp stack tag p m;
            mret (true, m)
        end
  end.

Definition updateGiveItem (item : SHAMapItem) (isTransaction hasMeta : bool) (m : SHAMap)
  : St (bool * SHAMap) :=
  let tag := item_key item in
  lift (assert_ (negb (bool_decide (state_ m = Immutable))));;
  '(_, stack) ← walkTowardsKey tag m;
  match stack with
  | [] => lift (Err exception_thrown)
  | (p, nodeID) :: stack =>
      n ← load p;
      if match n with TreeNode _ _ _ i => negb (bool_decide (item_key i = tag)) | _ => true end
      then lift (Err assert_failed)
      else
        '(p, m) ← unshareNode p nodeID m;
        n ← load p;
        '(changed, n) ← lift (setItem item (leaf_type isTransaction hasMeta) n);
        save p n;;
        if negb changed then mret (true, m)
        else m ← dirtyUp stack tag p m; mret (true, m)
  end.

(** ** Deleting *)

(** [onlyBelow]: the item when there is one below the node. *)
Fixpoint onlyBelow (fuel : nat) (p : loc) : St (option SHAMapItem) :=
  match fuel with
  | O => lift (Err out_of_fuel)
  | S fuel =>
      n ← load p;
      match n with
      | TreeNode _ _ _ i => mret (Some i)
      | InnerNode _ _ isBranch _ children =>
          match filter (fun i => isEmptyBranch isBranch i = false) (seq 0 16) with
          | [] => lift (Err assert_failed)
          | [i] => q ← descendThrow isBranch children i; onlyBelow fuel q
          | i :: _ => q ← descendThrow isBranch children i; mret None
          end
      end
  end.

(** The first branch that is not empty. *)
Definition first_branch (isBranch : Z) : option nat :=
  head (filter (fun i => isEmptyBranch isBranch i = false) (seq 0 16)).

(** What is attached above a node that is not the root: nothing, the one leaf left, or the
    node. *)
Definition pull_up (p : loc) (type : TNType) : St (option loc) :=
  n ← load p;
  match n with
  | TreeNode _ _ _ _ => lift (Err undefined)
  | InnerNode sq _ isBranch _ _ =>
      let bc := getBranchCount isBranch in
      if Nat.eqb bc 0 then mret None
      else if Nat.eqb bc 1 then
        item ← onlyBelow 65 p;
        match item with
        | Some item =>
            i ← lift (deref (first_branch isBranch));
            setChild_at p i None;;
            leaf ← lift (new_leaf item type sq);
            q ← alloc leaf;
            mret (Some q)
        | None => mret (Some p)
        end
      else mret (Some p)
  end.

Fixpoint del_loop (stack : NodeStack) (id : uint256) (type : TNType) (prevNode : option loc)
    (m : SHAMap) : St SHAMap :=
  match stack with
  | [] => mret m
  | (p, nodeID) :: stack =>
      '(p, m) ← unshareNode p nodeID m;
      branch ← lift (selectBranch nodeID id);
      setChild_at p branch prevNode;;
      if isRoot nodeID then del_loop stack id type prevNode m
      else
        prevNode ← pull_up p type;
        del_loop stack id type prevNode m
  end.

Definition delItem (id : uint256) (m : SHAMap) : St (bool * SHAMap) :=
  lift (assert_ (negb (bool_decide (state_ m = Immutable))));;
  '(_, stack) ← walkTowardsKey id m;
  match stack with
  | [] => lift (Err exception_thrown)
  | (p, _) :: stack =>
      n ← load p;
      match n with
      | TreeNode _ _ type i =>
          if decide (item_key i = id) then
            m ← del_loop stack id type None m;
            mret (true, m)
          else mret (false, m)
      | InnerNode _ _ _ _ _ => mret (false, m)
      end
  end.

(** ** Hashing and sharing *)

Definition preFlushNode (p : loc) (m : SHAMap) : St loc :=
  n ← load p;
  lift (assert_ (negb (getSeq n =? 0)));;
  if negb (getSeq n =? seq_ m) then
    n ← lift (clone (seq_ m) n);
    alloc n
  else mret p.

(** [updateHash] of a leaf, then [setSeq (0)]. *)
Definition flush_leaf (p : loc) : St unit :=
  n ← load p;
  match n with
  | TreeNode _ _ t i => nh ← lift (leaf_hash t i); save p (TreeNode 0 nh t i)
  | InnerNode _ _ _ _ _ => lift (Err undefined)
  end.

(** [updateHashDeep]: the hashes of the children that are in memory. *)
Fixpoint child_hashes (ch : list (option loc)) (hs : list uint256) : St (list uint256) :=
  match ch, hs with
  | c :: ch, old :: hs =>
      nh ← (match c with Some q => n ← load q; mret (getNodeHash n) | None => mret old end);
      hs ← child_hashes ch hs;
      mret (nh :: hs)
  | _, _ => mret []
  end.

(** [updateHashDeep] of an inner node, then [setSeq (0)]. *)
Definition flush_inner (p : loc) : St unit :=
  n ← load p;
  match n with
  | InnerNode _ _ b hs ch =>
      hs ← child_hashes ch hs;
      save p (InnerNode 0 (inner_hash b hs) b hs ch)
  | TreeNode _ _ _ _ => lift (Err undefined)
  end.

Definition shareChild_at (p : loc) (pos : nat) (child : loc) : St unit :=
  n ← load p;
  n ← lift (shareChild p pos child n);
  save p n.

Definition assert_ours (p : loc) (m : SHAMap) : St unit :=
  n ← load p; lift (assert_ (getSeq n =? seq_ m)).

(** The loops of [walkSubTree] without writing: the node in hand, the next branch, and the
    nodes waiting for it. *)
Fixpoint flush_loop (fuel : nat) (p : loc) (pos : nat) (stack : list (loc * nat)) (flushed : Z)
    (m : SHAMap) : St (loc * Z) :=
  match fuel with
  | O => lift (Err out_of_fuel)
  | S fuel =>
      n ← load p;
      match n with
      | TreeNode _ _ _ _ => lift (Err undefined)
      | InnerNode _ _ isBranch _ children =>
          if Nat.ltb pos 16 then
            if isEmptyBranch isBranch pos then flush_loop fuel p (S pos) stack flushed m
            else
              c ← lift (deref (children !! pos));
              match c with
              | None => flush_loop fuel p (S pos) stack flushed m
              | Some c =>
                  cn ← load c;
                  if getSeq cn =? 0 then flush_loop fuel p (S pos) stack flushed m
                  else
                    c ← preFlushNode c m;
                    cn ← load c;
                    if isInner cn then flush_loop fuel c 0 ((p, pos) :: stack) flushed m
                    else
                      assert_ours p m;;
                      flush_leaf c;;
                      shareChild_at p pos c;;
                      flush_loop fuel p (S pos) stack (flushed + 1) m
              end
          else
            flush_inner p;;
            let flushed := flushed + 1 in
            match stack with
            | [] => mret (p, flushed)
            | (parent, pos) :: stack =>
                assert_ours parent m;;
                shareChild_at parent pos p;;
                flush_loop fuel parent (S pos) stack flushed m
            end
      end
  end.

(** [unshare]: [walkSubTree (false, hotUNKNOWN, 0)] *)
Definition unshare (fuel : nat) (m : SHAMap) : St (Z * SHAMap) :=
  n ← load (root_ m);
  if getSeq n =? 0 then mret (0, m)
  else match n with
       | TreeNode _ _ _ _ =>
           p ← preFlushNode (root_ m) m;
           flush_leaf p;;
           mret (1, set_root p m)
       | InnerNode _ _ isBranch _ _ =>
           if isEmpty isBranch then
             p ← alloc (new_inner 0);
             mret (1, set_root p m)
           else
             p ← preFlushNode (root_ m) m;
             '(p, flushed) ← flush_loop fuel p 0 [] 0 m;
             mret (flushed, set_root p m)
       end.

Definition getHash (fuel : nat) (m : SHAMap) : St (uint256 * SHAMap) :=
  n ← load (root_ m);
  if decide (getNodeHash n = zero256) then
    '(_, m) ← unshare fuel m;
    n ← load (root_ m);
    mret (getNodeHash n, m)
  else mret (getNodeHash n, m).

Definition snapShot (fuel : nat) (isMutable : bool) (m : SHAMap) : St SHAMap :=
  newMap ← SHAMap_init;
  let newMap := mkMap (u32 (seq_ m + 1)) (if negb isMutable then Immutable else state_ newMap)
                  (root_ m) in
  if negb (bool_decide (state_ m = Immutable)) || negb isMutable then
    '(_, newMap) ← unshare fuel newMap;
    mret newMap
  else mret newMap.
End shamap.
