(* ===== verification/SHAMapInv.v ===== *)
(** * What a hash tree represents

    The contents of a map are a finite map [M] from keys to data.  [repr] says that the node
    at an address is the root of the tree of [M] below some depth: a leaf for one item, an
    inner node for more.  So the shape of the tree is determined by its contents.  A node
    with sequence number 0 is shared and stays as it is, and has its hash; the nodes with
    the sequence number of the map are its own and make up its footprint. *)

From S2P Require Import Prelude Bytes NodeCodec SHANode SHAKeys SHAMap.
Local Open Scope Z_scope.

Abbreviation contents := (gmap uint256 bytes).

(** ** Parts of the contents *)

(** The items whose digit at depth [d] is [i]. *)
Definition sub (d i : nat) (M : contents) : contents := filter (fun kv => nib d kv.1 = i) M.
(** The items that share their first [d] digits with [id]. *)
Definition below (d : nat) (id : uint256) (M : contents) : contents :=
  filter (fun kv => agree d id kv.1) M.

Definition wf_contents (M : contents) : Prop :=
  ∀ k v, M !! k = Some v → is_key k ∧ (12 <= length v)%nat.

Lemma lookup_sub d i M k v : sub d i M !! k = Some v ↔ M !! k = Some v ∧ nib d k = i.
Proof. unfold sub. by rewrite map_lookup_filter_Some. Qed.
Lemma lookup_below d id M k v : below d id M !! k = Some v ↔ M !! k = Some v ∧ agree d id k.
Proof. unfold below. by rewrite map_lookup_filter_Some. Qed.

Lemma below_0 id M : below 0 id M = M.
Proof. apply map_eq. intros k. apply option_eq. intros v. rewrite lookup_below. split; [tauto|].
  intros ?. split; [done|]. intros i Hi. lia. Qed.

Lemma below_S d id M : below (S d) id M = sub d (nib d id) (below d id M).
Proof.
  apply map_eq. intros k. apply option_eq. intros v.
  rewrite lookup_sub, !lookup_below, agree_S. intuition congruence.
Qed.

(** A change at [id] does not show in the other branches. *)
Lemma sub_below_other d id i M M' :
  (∀ k, k ≠ id → M' !! k = M !! k) → i ≠ nib d id →
  sub d i (below d id M') = sub d i (below d id M).
Proof.
  intros Hoff Hi. apply map_eq. intros k. apply option_eq. intros v.
  rewrite !lookup_sub, !lookup_below. destruct (decide (k = id)) as [->|Hne].
  - split; intros [_ ?]; congruence.
  - by rewrite Hoff.
Qed.

Lemma sub_empty d i M : sub d i M = ∅ ↔ ∀ k v, M !! k = Some v → nib d k ≠ i.
Proof.
  split.
  - intros He k v Hk Hi. assert (sub d i M !! k = Some v) as Hs by (by apply lookup_sub).
    by rewrite He, lookup_empty in Hs.
  - intros Hn. apply map_empty. intros k. apply eq_None_not_Some. intros [v Hv].
    apply lookup_sub in Hv as [Hk Hi]. by apply (Hn k v).
Qed.

Lemma wf_sub d i M : wf_contents M → wf_contents (sub d i M).
Proof. intros Hw k v [Hk _]%lookup_sub. by apply Hw. Qed.
Lemma wf_below d id M : wf_contents M → wf_contents (below d id M).
Proof. intros Hw k v [Hk _]%lookup_below. by apply Hw. Qed.

Lemma below_subseteq d id M : below d id M ⊆ M.
Proof. apply map_filter_subseteq. Qed.
Lemma below_mono d d' id M : (d <= d')%nat → below d' id M ⊆ below d id M.
Proof.
  intros Hd. apply map_subseteq_spec. intros k v [Hk Ha]%lookup_below.
  apply lookup_below. split; [done|]. intros i Hi. apply Ha. lia.
Qed.
Lemma size_below_mono d d' id M : (d <= d')%nat → (size (below d' id M) <= size (below d id M))%nat.
Proof. intros Hd. by apply map_subseteq_size, below_mono. Qed.

(** All 64 digits tell keys apart. *)
Lemma below_64 id M : is_key id → wf_contents M → (size (below 64 id M) <= 1)%nat.
Proof.
  intros Hid Hw. destruct (decide (below 64 id M = ∅)) as [->|Hne]; [by rewrite map_size_empty; lia|].
  apply map_choose in Hne as (k&v&Hk).
  assert (below 64 id M = {[k := v]}) as ->; [|by rewrite map_size_singleton].
  apply map_eq. intros k'. destruct (decide (k' = k)) as [->|Hne].
  { by rewrite lookup_singleton_eq. }
  rewrite lookup_singleton_ne by done. apply eq_None_not_Some. intros [v' Hv'].
  apply lookup_below in Hk as [Hk Ha], Hv' as [Hk' Ha']. apply Hne.
  destruct (Hw _ _ Hk), (Hw _ _ Hk'). apply agree_key; [done..|].
  eapply agree_trans; [by apply agree_sym|done].
Qed.

Lemma size_1 (M : contents) : size M = 1%nat ↔ ∃ k v, M = {[k := v]}.
Proof.
  split.
  - intros Hs. destruct (decide (M = ∅)) as [->|Hne]; [by rewrite map_size_empty in Hs|].
    apply map_choose in Hne as (k&v&Hk). exists k, v.
    rewrite <-(insert_delete_id M k v) by done. rewrite <-(insert_delete_id M k v), map_size_insert_None in Hs;
      [|by rewrite lookup_delete_eq|done].
    assert (delete k M = ∅) as -> by (apply map_size_empty_iff; lia). done.
  - intros (k&v&->). apply map_size_singleton.
Qed.

Lemma sub_singleton d i k v :
  sub d i {[k := v]} = if decide (nib d k = i) then {[k := v]} else (∅ : contents).
Proof.
  unfold sub. case_decide.
  - by rewrite map_filter_singleton_True.
  - by rewrite map_filter_singleton_False.
Qed.

(** Contents that lie below one node at depth [d]. *)
Definition common (d : nat) (N : contents) : Prop :=
  ∀ k k' v v', N !! k = Some v → N !! k' = Some v' → agree d k k'.

Lemma common_sub d i N : common d N → common (S d) (sub d i N).
Proof.
  intros Hc k k' v v' [Hk Hi]%lookup_sub [Hk' Hi']%lookup_sub. apply agree_S. split; [by eapply Hc|congruence].
Qed.
Lemma common_64 N : wf_contents N → common 64 N → (size N <= 1)%nat.
Proof.
  intros Hw Hc. destruct (decide (N = ∅)) as [->|Hne]; [by rewrite map_size_empty; lia|].
  apply map_choose in Hne as (k&v&Hk). destruct (Hw _ _ Hk) as [Hkey _].
  assert (below 64 k N = N) as <-; [|by apply below_64].
  apply map_eq. intros k'. apply option_eq. intros v'. rewrite lookup_below. split; [tauto|].
  intros Hk'. split; [done|]. by eapply Hc.
Qed.

(** Empty, one item, or more. *)
Lemma contents_cases (N : contents) : N = ∅ ∨ (∃ k v, N = {[k := v]}) ∨ (2 <= size N)%nat.
Proof.
  destruct (decide (size N = 0%nat)) as [E|E]; [left; by apply map_size_empty_iff|].
  destruct (decide (size N = 1%nat)) as [E1|E1]; [right; left; by apply size_1|]. right; right. lia.
Qed.

Lemma branches_eq (d : nat) (N N' : contents) :
  (∀ i, (i < 16)%nat → sub d i N = sub d i N') → N = N'.
Proof.
  intros Hs. apply map_eq. intros k. apply option_eq. intros v.
  pose proof (Hs _ (nib_lt d k)) as E. split; intros Hk.
  - assert (sub d (nib d k) N !! k = Some v) as Hk' by (by apply lookup_sub).
    rewrite E in Hk'. by apply lookup_sub in Hk' as [? _].
  - assert (sub d (nib d k) N' !! k = Some v) as Hk' by (by apply lookup_sub).
    rewrite <-E in Hk'. by apply lookup_sub in Hk' as [? _].
Qed.

(** ** Branch bits *)

Lemma isEmptyBranch_spec b i : isEmptyBranch b i = negb (Z.testbit b (Z.of_nat i)).
Proof.
  unfold isEmptyBranch. rewrite Z.shiftl_1_l. 
  destruct (Z.testbit b (Z.of_nat i)) eqn:Ht; cbn [negb].
  - apply Z.eqb_neq. intros H0.
    assert (Z.testbit (Z.land b (2 ^ Z.of_nat i)) (Z.of_nat i) = true) as Hb
      by (rewrite Z.land_spec, Ht, Z.pow2_bits_true by lia; done).
    by rewrite H0, Z.bits_0 in Hb.
  - apply Z.eqb_eq, Z.bits_inj_0. intros j. rewrite Z.land_spec.
    destruct (decide (j = Z.of_nat i)) as [->|Hne]; [by rewrite Ht|].
    rewrite Z.pow2_bits_false by done. apply andb_false_r.
Qed.

Lemma set_bit_spec b i j :
  (0 <= j)%Z → Z.testbit (Z.lor b (Z.shiftl 1 (Z.of_nat i))) j = (j =? Z.of_nat i) || Z.testbit b j.
Proof.
  intros Hj. rewrite Z.lor_spec, Z.shiftl_1_l. destruct (Z.eqb_spec j (Z.of_nat i)) as [->|Hne].
  - rewrite Z.pow2_bits_true by lia. by rewrite orb_true_r.
  - rewrite Z.pow2_bits_false by done. by rewrite orb_false_r.
Qed.
Lemma clear_bit_spec b i j :
  (0 <= j)%Z → Z.testbit (Z.land b (Z.lnot (Z.shiftl 1 (Z.of_nat i)))) j
  = negb (j =? Z.of_nat i) && Z.testbit b j.
Proof.
  intros Hj. rewrite Z.land_spec, Z.lnot_spec, Z.shiftl_1_l by done.
  destruct (Z.eqb_spec j (Z.of_nat i)) as [->|Hne].
  - rewrite Z.pow2_bits_true by lia. by rewrite andb_false_r.
  - rewrite Z.pow2_bits_false by done. by rewrite andb_true_r.
Qed.

(** ** Trees *)

Section repr.
Context `{!Sha512Half} (T : TNType).

(** The hash of a leaf of a map with leaves of type [T]. *)
Definition lhash (k : uint256) (v : bytes) : uint256 :=
  match leaf_hash T (mkItem k v) with Ok h => h | Err _ => zero256 end.

(** The hash of the tree of the contents below depth [d], with [n] levels left. *)
Fixpoint thash (n d : nat) (M : contents) : uint256 :=
  match map_to_list M with
  | [] => zero256
  | [(k, v)] => lhash k v
  | _ =>
      match n with
      | O => zero256
      | S n => sha512Half (field_bytes uint32_t innerNode
                 ++ concat ((fun i => thash n (S d) (sub d i M)) <$> seq 0 16))
      end
  end.

(** The hashes of the branches of an inner node. *)
Definition bhashes (n d : nat) (M : contents) : list uint256 :=
  (fun i => thash n (S d) (sub d i M)) <$> seq 0 16.

(** The hash of a map. *)
Definition rhash (M : contents) : uint256 :=
  if decide (M = ∅) then zero256
  else sha512Half (field_bytes uint32_t innerNode ++ concat (bhashes 63 0 M)).

Definition fp_union (fps : nat → gset loc) : gset loc := ⋃ (fps <$> seq 0 16).

(** The fields of an inner node agree with its children. *)
Record inner_shape (hs : list uint256) (isb : Z) (ch : list (option loc)) : Prop := {
  is_hashes : length hs = 16%nat;
  is_children : length ch = 16%nat;
  is_bits : ∀ j, Z.testbit isb (Z.of_nat j)
                 = match ch !! j with Some (Some _) => true | _ => false end;
  is_empty : ∀ i, ch !! i = Some None → hs !! i = Some zero256;
  is_nonneg : 0 <= isb
}.

Definition child_ok (R : loc → contents → gset loc → Prop) (c : option loc) (N : contents)
    (f : gset loc) : Prop :=
  match c with None => N = ∅ ∧ f = ∅ | Some q => N ≠ ∅ ∧ R q N f end.

(** Who owns an inner node: nobody, and then nothing below it is owned and the hashes are
    right; or the map, whose footprint is the node and what it owns below. *)
Definition inner_own (n d : nat) (s : Z) (p : loc) (M : contents) (fp : gset loc)
    (sq : Z) (hash : uint256) (isb : Z) (hs : list uint256) (fps : nat → gset loc) : Prop :=
  (sq = 0 ∧ fp = ∅ ∧ (∀ i, fps i = ∅) ∧ hs = bhashes n d M ∧ hash = inner_hash isb hs)
  ∨ (sq = s ∧ hash = zero256 ∧ p ∉ fp_union fps ∧ fp = {[p]} ∪ fp_union fps
     ∧ (∀ i j, (i < 16)%nat → (j < 16)%nat → i ≠ j → fps i ## fps j)).

Definition inner_ok (R : loc → contents → gset loc → Prop) (n d : nat) (h : heap) (s : Z)
    (p : loc) (M : contents) (fp : gset loc) : Prop :=
  ∃ sq hash isb hs ch fps,
    h !! p = Some (InnerNode sq hash isb hs ch) ∧ inner_shape hs isb ch
    ∧ (∀ i c, ch !! i = Some c → child_ok R c (sub d i M) (fps i))
    ∧ inner_own n d s p M fp sq hash isb hs fps.

Definition leaf_ok (h : heap) (s : Z) (p : loc) (M : contents) (fp : gset loc) : Prop :=
  ∃ sq k v, h !! p = Some (TreeNode sq (lhash k v) T (mkItem k v)) ∧ M = {[k := v]}
    ∧ (sq = 0 ∧ fp = ∅ ∨ sq = s ∧ fp = {[p]}).

(** The node at [p], [n] levels above the lowest one and at depth [d]. *)
Fixpoint repr (n d : nat) (h : heap) (s : Z) (p : loc) (M : contents) (fp : gset loc) : Prop :=
  leaf_ok h s p M fp
  ∨ ((2 <= size M)%nat ∧
     match n with O => False | S n => inner_ok (repr n (S d) h s) n d h s p M fp end).

(** The root is an inner node whatever the contents. *)
Definition root_repr (h : heap) (s : Z) (p : loc) (M : contents) (fp : gset loc) : Prop :=
  inner_ok (repr 63 1 h s) 63 0 h s p M fp.

Lemma elem_of_fp_union x fps : x ∈ fp_union fps ↔ ∃ i, (i < 16)%nat ∧ x ∈ fps i.
Proof.
  unfold fp_union. rewrite elem_of_union_list. split.
  - intros (X&HX&Hx). apply list_elem_of_fmap in HX as (i&->&Hi%elem_of_seq). exists i. split; [lia|done].
  - intros (i&Hi&Hx). exists (fps i). split; [|done]. apply list_elem_of_fmap_2, elem_of_seq. lia.
Qed.

(** ** Writes elsewhere *)

(** Shared nodes and those of the footprint are as before. *)
Definition preserved (h h' : heap) (fp : gset loc) : Prop :=
  ∀ q n, h !! q = Some n → getSeq n = 0 ∨ q ∈ fp → h' !! q = Some n.

Lemma preserved_mono h h' fp fp' : fp' ⊆ fp → preserved h h' fp → preserved h h' fp'.
Proof. intros Hs Hp q n Hq [?|?]; apply Hp; auto. Qed.

Lemma child_ok_impl (R R' : loc → contents → gset loc → Prop) c N f :
  (∀ q, R q N f → R' q N f) → child_ok R c N f → child_ok R' c N f.
Proof. intros Hi. destruct c; [|done]. intros [? ?]. split; auto. Qed.

Lemma inner_own_sub n d s p M fp sq hash isb hs fps i :
  inner_own n d s p M fp sq hash isb hs fps → (i < 16)%nat → fps i ⊆ fp.
Proof.
  intros [(_&_&Hf&_)|(_&_&_&->&_)] Hi; [rewrite Hf; set_solver|].
  intros x Hx. apply elem_of_union. right. apply elem_of_fp_union. eauto.
Qed.

Lemma inner_frame R R' n d h h' s p M fp :
  inner_ok R n d h s p M fp → preserved h h' fp →
  (∀ q N f, f ⊆ fp → R q N f → R' q N f) → inner_ok R' n d h' s p M fp.
Proof.
  intros (sq&hash&isb&hs&ch&fps&Hp&Hsh&Hch&Hown) Hpr HR.
  exists sq, hash, isb, hs, ch, fps. split_and!; [|done| |done].
  - apply Hpr; [done|]. destruct Hown as [(->&_)|(_&_&_&->&_)]; [by left|right; set_solver].
  - intros i c Hc. eapply child_ok_impl; [|by apply Hch]. intros q. apply HR.
    eapply inner_own_sub; [done|]. apply lookup_lt_Some in Hc. by rewrite (is_children _ _ _ Hsh) in Hc.
Qed.

Lemma repr_frame n : ∀ d h h' s p M fp,
  repr n d h s p M fp → preserved h h' fp → repr n d h' s p M fp.
Proof.
  induction n as [|n IH]; intros d h h' s p M fp [Hl|[Hsz Hi]] Hpr; try done.
  - left. destruct Hl as (sq&k&v&Hp&HM&Hown). exists sq, k, v. split; [|done].
    apply Hpr; [done|]. destruct Hown as [[-> _]|[_ ->]]; [by left|right; set_solver].
  - left. destruct Hl as (sq&k&v&Hp&HM&Hown). exists sq, k, v. split; [|done].
    apply Hpr; [done|]. destruct Hown as [[-> _]|[_ ->]]; [by left|right; set_solver].
  - right. split; [done|]. eapply inner_frame; [done..|].
    intros q N f Hf HR. eapply IH; [done|]. by eapply preserved_mono.
Qed.

Lemma root_frame h h' s p M fp : root_repr h s p M fp → preserved h h' fp → root_repr h' s p M fp.
Proof.
  intros Hr Hpr. eapply inner_frame; [done..|]. intros q N f Hf HR.
  eapply repr_frame; [done|]. by eapply preserved_mono.
Qed.
End repr.
