(* ===== verification/SHARaw.v ===== *)
(** * Serialized nodes of a hash tree

    [addRaw] and [make] of [shamap/impl/SHAMapTreeNode.cpp] for leaves and inner nodes of
    both versions, in the prefix format (what is hashed and stored) and the wire format
    (what peers send), with the operations of a version 2 inner node on its prefix. *)

From S2P Require Import Prelude Bytes NodeCodec Serializer SHANode SHAKeys SHAMapInv.
Local Open Scope Z_scope.

Inductive SHANodeFormat := snfPREFIX | snfWIRE | snfHASH.

(** [SHAMapInnerNodeV2] *)
Record InnerNodeV2 := mkV2 {
  v2_seq : Z; v2_hash : uint256; v2_isBranch : Z; v2_hashes : list uint256;
  v2_children : list (option loc); v2_common : uint256; v2_depth : Z
}.

Inductive anynode := NodeV1 (n : node) | NodeV2 (n : InnerNodeV2).

(** ** The prefix of a version 2 node *)

Definition set_common (depth : Z) (common : uint256) (n : InnerNodeV2) : InnerNodeV2 :=
  mkV2 (v2_seq n) (v2_hash n) (v2_isBranch n) (v2_hashes n) (v2_children n) common depth.

Definition high (b : byte) : Z := Z.land (bval b) 0xF0.

(** The loop of [has_common_prefix], over the whole bytes, and the half byte. *)
Fixpoint common_loop (n : nat) (x y : bytes) (odd : bool) : res bool :=
  match n, x, y with
  | S n, a :: x, b :: y =>
      if negb (bool_decide (a = b)) then Ok false else common_loop n x y odd
  | O, a :: _, b :: _ => if odd then Ok (high a =? high b) else Ok true
  | O, _, _ => if odd then Err undefined else Ok true
  | S _, _, _ => Err undefined
  end.
Definition has_common_prefix (key : uint256) (n : InnerNodeV2) : res bool :=
  common_loop (Z.to_nat (v2_depth n / 2)) (v2_common n) key (Z.odd (v2_depth n)).

Fixpoint get_common_loop (n : nat) (x y : bytes) (odd : bool) (r : Z) : res Z :=
  match n, x, y with
  | S n, a :: x, b :: y =>
      if negb (bool_decide (a = b)) then Ok (if high a =? high b then r + 1 else r)
      else get_common_loop n x y odd (r + 2)
  | O, a :: _, b :: _ => if odd then Ok (if high a =? high b then r + 1 else r) else Ok r
  | O, _, _ => if odd then Err undefined else Ok r
  | S _, _, _ => Err undefined
  end.
Definition get_common_prefix (key : uint256) (n : InnerNodeV2) : res Z :=
  get_common_loop (Z.to_nat (v2_depth n / 2)) (v2_common n) key (Z.odd (v2_depth n)) 0.

(** The loop of [setChildren]: the common bytes, and where the keys first differ. *)
Fixpoint split_keys (k1 k2 : bytes) (depth : nat) : res (nat * byte * byte) :=
  match k1, k2 with
  | a :: k1, b :: k2 =>
      if bool_decide (a = b) then split_keys k1 k2 (S depth) else Ok (depth, a, b)
  | _, _ => Err undefined
  end.
Definition setChildren (child1 child2 : loc) (k1 k2 : uint256) (n : InnerNodeV2) : res InnerNodeV2 :=
  assert_ (negb (bool_decide (k1 = k2)));;
  '(i, a, b) ← split_keys k1 k2 0;
  let common := take i k1 ++ drop i (v2_common n) in
  let '(common, b1, b2, depth) :=
    if high a =? high b then
      (<[i := byte_of (high a)]> common, Z.land (bval a) 0x0F, Z.land (bval b) 0x0F, 2 * Z.of_nat i + 1)
    else (common, Z.shiftr (bval a) 4, Z.shiftr (bval b) 4, 2 * Z.of_nat i) in
  Ok (mkV2 (v2_seq n) (v2_hash n)
        (Z.lor (Z.lor (v2_isBranch n) (Z.shiftl 1 b1)) (Z.shiftl 1 b2)) (v2_hashes n)
        (<[Z.to_nat b2 := Some child2]> (<[Z.to_nat b1 := Some child1]> (v2_children n))) common depth).

(** ** Writing *)

Definition add_hashes (hs : list uint256) (s : Serializer) : Serializer :=
  fold_left (fun s h => (add256 h s).2) hs s.

(** The hashes of the branches in use, each with its number. *)
Fixpoint add_branches (isBranch : Z) (i : nat) (hs : list uint256) (s : Serializer) : Serializer :=
  match hs with
  | [] => s
  | h :: hs =>
      let s := if negb (isEmptyBranch isBranch i) then (add8 (Z.of_nat i) (add256 h s).2).2 else s in
      add_branches isBranch (S i) hs s
  end.

(** [SHAMapInnerNode::addRaw] *)
Definition inner_addRaw (hash : uint256) (isBranch : Z) (hashes : list uint256)
    (format : SHANodeFormat) (s : Serializer) : res Serializer :=
  match format with
  | snfHASH => Ok (add256 hash s).2
  | snfPREFIX =>
      assert_ (negb (isEmpty isBranch));;
      Ok (add_hashes hashes (add32 innerNode s).2)
  | snfWIRE =>
      assert_ (negb (isEmpty isBranch));;
      Ok (if Nat.ltb (getBranchCount isBranch) 12
          then (add8 3 (add_branches isBranch 0 hashes s)).2
          else (add8 2 (add_hashes hashes s)).2)
  end.

(** [SHAMapTreeNode::addRaw] *)
Definition leaf_addRaw (hash : uint256) (type : TNType) (item : SHAMapItem)
    (format : SHANodeFormat) (s : Serializer) : res Serializer :=
  match type with
  | tnERROR => Err exception_thrown
  | _ =>
    match format, type with
    | snfHASH, _ => Ok (add256 hash s).2
    | snfPREFIX, tnACCOUNT_STATE =>
        Ok (add256 (item_key item) (ser_addRaw (item_data item) (add32 leafNode s).2).2).2
    | snfWIRE, tnACCOUNT_STATE =>
        Ok (add8 1 (add256 (item_key item) (ser_addRaw (item_data item) s).2).2).2
    | snfPREFIX, tnTRANSACTION_NM => Ok (ser_addRaw (item_data item) (add32 transactionID s).2).2
    | snfWIRE, tnTRANSACTION_NM => Ok (add8 0 (ser_addRaw (item_data item) s).2).2
    | snfPREFIX, tnTRANSACTION_MD =>
        Ok (add256 (item_key item) (ser_addRaw (item_data item) (add32 txNode s).2).2).2
    | snfWIRE, tnTRANSACTION_MD =>
        Ok (add8 4 (add256 (item_key item) (ser_addRaw (item_data item) s).2).2).2
    | _, _ => Err assert_failed
    end
  end.

(** The [(depth_+1)/2] bytes of the prefix, read through an iterator of [common_]. *)
Definition common_bytes (depth : Z) (common : uint256) : res bytes :=
  let n := Z.to_nat ((depth + 1) / 2) in
  if Nat.ltb (length common) n then Err undefined else Ok (take n common).

(** [data.back () += 3] *)
Definition bump_last (s : Serializer) : res Serializer :=
  match reverse s with
  | [] => Err undefined
  | b :: r => Ok (reverse (byte_of (bval b + 3) :: r))
  end.

(** [SHAMapInnerNodeV2::addRaw] *)
Definition v2_addRaw (n : InnerNodeV2) (format : SHANodeFormat) (s : Serializer) : res Serializer :=
  match format with
  | snfPREFIX =>
      let s := add_hashes (v2_hashes n) (add32 innerNodeV2 s).2 in
      let s := (add8 (v2_depth n) s).2 in
      c ← common_bytes (v2_depth n) (v2_common n);
      Ok (s ++ c)
  | _ =>
      s ← inner_addRaw (v2_hash n) (v2_isBranch n) (v2_hashes n) format s;
      match format with snfWIRE => bump_last s | _ => Ok s end
  end.

Definition addRaw (n : anynode) (format : SHANodeFormat) (s : Serializer) : res Serializer :=
  match n with
  | NodeV1 (InnerNode _ h b hs _) => inner_addRaw h b hs format s
  | NodeV1 (TreeNode _ h t i) => leaf_addRaw h t i format s
  | NodeV2 n => v2_addRaw n format s
  end.

(** ** Reading *)

Definition isZero (u : uint256) : bool := bool_decide (u = zero256).

(** [s.get256 (ret->mHashes[pos].as_uint256(), offset)] and the update of [mIsBranch]. *)
Definition read_hash (pos offset : Z) (s : Serializer) (hs : list uint256) (isBranch : Z)
  : res (list uint256 * Z) :=
  old ← deref (if pos <? 0 then None else hs !! Z.to_nat pos);
  o ← get256 offset s;
  let h := default old o in
  Ok (<[Z.to_nat pos := h]> hs, if negb (isZero h) then Z.lor isBranch (Z.shiftl 1 pos) else isBranch).

(** The loop over 16 hashes: the hashes and [mIsBranch]. *)
Fixpoint read_full (L : list nat) (s : Serializer) (hs : list uint256) (isBranch : Z)
  : res (list uint256 * Z) :=
  match L with
  | [] => Ok (hs, isBranch)
  | i :: L =>
      '(hs, isBranch) ← read_hash (Z.of_nat i) (Z.of_nat (i * 32)) s hs isBranch;
      read_full L s hs isBranch
  end.

(** The loop over the compressed hashes. *)
Fixpoint read_branches (L : list nat) (s : Serializer) (hs : list uint256) (isBranch : Z)
  : res (list uint256 * Z) :=
  match L with
  | [] => Ok (hs, isBranch)
  | i :: L =>
      match ser_get8 (32 + i * 33) s with
      | None => Err exception_thrown
      | Some pos =>
          if (pos <? 0) || (16 <=? pos) then Err exception_thrown
          else
            '(hs, isBranch) ← read_hash pos (Z.of_nat (i * 33)) s hs isBranch;
            read_branches L s hs isBranch
      end
  end.

Definition no_hashes : list uint256 := replicate 16 zero256.
Definition no_children : list (option loc) := replicate 16 None.

(** The loop that fills [common_], without a check of its size. *)
Fixpoint read_common (L : list nat) (s : Serializer) (common : uint256) : res uint256 :=
  match L with
  | [] => Ok common
  | i :: L =>
      b ← deref (ser_get8 (512 + 1 + i) s);
      if Nat.ltb i (length common) then read_common L s (<[i := byte_of b]> common)
      else Err undefined
  end.

(** [rawNode[i]]; then the first four bytes. *)
Definition raw_byte (i : nat) (rawNode : bytes) : res Z := b ← deref (rawNode !! i); Ok (bval b).

Definition raw_prefix (rawNode : bytes) : res Z :=
  b0 ← raw_byte 0 rawNode;
  b1 ← raw_byte 1 rawNode;
  let prefix := Z.lor (Z.shiftl b0 8) b1 in
  b2 ← raw_byte 2 rawNode;
  let prefix := Z.lor (Z.shiftl prefix 8) b2 in
  b3 ← raw_byte 3 rawNode;
  Ok (Z.lor (Z.shiftl prefix 8) b3).

Section make.
Context `{!Sha512Half}.

(** [SHAMapInnerNodeV2::updateHash] *)
Definition v2_updateHash (n : InnerNodeV2) : res InnerNodeV2 :=
  nh ← (if v2_isBranch n =? 0 then Ok zero256
        else s ← v2_addRaw n snfPREFIX []; Ok (sha512Half s));
  Ok (mkV2 (v2_seq n) nh (v2_isBranch n) (v2_hashes n) (v2_children n) (v2_common n) (v2_depth n)).

(** [SHAMapTreeNode] with or without a given hash. *)
Definition make_leaf (item : SHAMapItem) (type : TNType) (seq : Z) (hash : uint256) (hashValid : bool)
  : res (option anynode) :=
  if hashValid then
    assert_ (Nat.leb 12 (length (item_data item)));;
    Ok (Some (NodeV1 (TreeNode seq hash type item)))
  else n ← new_leaf item type seq; Ok (Some (NodeV1 n)).

Definition make_inner (seq : Z) (hs : list uint256) (isBranch : Z) (hash : uint256) (hashValid : bool)
  : option anynode :=
  Some (NodeV1 (InnerNode seq (if hashValid then hash else inner_hash isBranch hs) isBranch hs no_children)).

Definition make_inner_v2 (seq : Z) (hs : list uint256) (isBranch : Z) (common : uint256) (depth : Z)
    (hash : uint256) (hashValid : bool) : res (option anynode) :=
  let n h := mkV2 seq h isBranch hs no_children common depth in
  if hashValid then Ok (Some (NodeV2 (n hash)))
  else n ← v2_updateHash (n zero256); Ok (Some (NodeV2 n)).

(** A leaf whose key is behind its data. *)
Definition make_keyed (s : Serializer) (check : bool) (type : TNType) (seq : Z) (hash : uint256)
    (hashValid : bool) : res (option anynode) :=
  let len := ssize s in
  if len <? 32 then Err exception_thrown
  else
    o ← get256 (len - 32) s;
    let u := default zero256 o in
    let s := (chop 32 s).2 in
    if check && isZero u then Err exception_thrown
    else make_leaf (mkItem u s) type seq hash hashValid.

(** [make] for the wire format *)
Definition make_wire (rawNode : bytes) (seq : Z) (hash : uint256) (hashValid : bool)
    (id : SHAMapNodeID) : res (option anynode) :=
  if Nat.eqb (length rawNode) 0 then Ok None
  else
    let s := take (length rawNode - 1) rawNode in
    b ← deref (rawNode !! (length rawNode - 1)%nat);
    let type := bval b in
    let len := length s in
    if (type <? 0) || (6 <? type) then Ok None
    else if type =? 0 then
      make_leaf (mkItem (sha512Half (field_bytes uint32_t transactionID ++ s)) s) tnTRANSACTION_NM
        seq hash hashValid
    else if type =? 1 then make_keyed s true tnACCOUNT_STATE seq hash hashValid
    else if type =? 2 then
      if negb (Nat.eqb len 512) then Err exception_thrown
      else '(hs, isb) ← read_full (List.seq 0 16) s no_hashes 0;
           Ok (make_inner seq hs isb hash hashValid)
    else if type =? 3 then
      '(hs, isb) ← read_branches (List.seq 0 (len / 33)) s no_hashes 0;
      Ok (make_inner seq hs isb hash hashValid)
    else if type =? 4 then make_keyed s true tnTRANSACTION_MD seq hash hashValid
    else if type =? 5 then
      if negb (Nat.eqb len 512) then Err exception_thrown
      else '(hs, isb) ← read_full (List.seq 0 16) s no_hashes 0;
           make_inner_v2 seq hs isb (mNodeID id) (Z.of_nat (mDepth id)) hash hashValid
    else
      '(hs, isb) ← read_branches (List.seq 0 (len / 33)) s no_hashes 0;
      make_inner_v2 seq hs isb (mNodeID id) (Z.of_nat (mDepth id)) hash hashValid.

(** [make] for the prefix format *)
Definition make_prefix (rawNode : bytes) (seq : Z) (hash : uint256) (hashValid : bool)
  : res (option anynode) :=
  if Nat.ltb (length rawNode) 4 then Err exception_thrown
  else
    prefix ← raw_prefix rawNode;
    let s := drop 4 rawNode in
    let len := length s in
    if prefix =? transactionID then
      make_leaf (mkItem (sha512Half rawNode) s) tnTRANSACTION_NM seq hash hashValid
    else if prefix =? leafNode then make_keyed s true tnACCOUNT_STATE seq hash hashValid
    else if (prefix =? innerNode) || (prefix =? innerNodeV2) then
      let isV2 := prefix =? innerNodeV2 in
      if Nat.ltb len 512 || negb isV2 && negb (Nat.eqb len 512) || isV2 && Nat.eqb len 512
      then Err exception_thrown
      else
        '(hs, isb) ← read_full (List.seq 0 16) s no_hashes 0;
        if isV2 then
          let depth := default 64 (ser_get8 512 s) in
          let n := Z.to_nat ((depth + 1) / 2) in
          if negb (Nat.eqb len (512 + 1 + n)) then Err exception_thrown
          else
            common ← read_common (List.seq 0 n) s zero256;
            make_inner_v2 seq hs isb common depth hash hashValid
        else Ok (make_inner seq hs isb hash hashValid)
    else if prefix =? txNode then make_keyed s false tnTRANSACTION_MD seq hash hashValid
    else Err exception_thrown.

Definition make (rawNode : bytes) (seq : Z) (format : SHANodeFormat) (hash : uint256)
    (hashValid : bool) (id : SHAMapNodeID) : res (option anynode) :=
  match format with
  | snfWIRE => make_wire rawNode seq hash hashValid id
  | snfPREFIX => make_prefix rawNode seq hash hashValid
  | snfHASH => Err assert_failed
  end.
End make.
