(* ===== verification/SHARawProps.v ===== *)
(** * Serialized nodes: round trips and safety of [make] *)

From S2P Require Import Prelude Bytes NodeCodec Serializer SHANode SHAKeys SHAMapInv SHARaw.
Local Open Scope Z_scope.

Lemma Ok_inj {A} (a b : A) : Ok a = Ok b → a = b.
Proof. by intros [=]. Qed.

(** ** Blocks *)

(** The block behind [pre] blocks of [n] bytes. *)
Lemma block_at (n : nat) (pre : list bytes) (b rest : bytes) :
  Forall (fun x => length x = n) pre → drop (length pre * n) (concat pre ++ b ++ rest) = b ++ rest.
Proof.
  induction 1 as [|x pre Hx _ IH]; [done|]. cbn [length concat]. rewrite <-(assoc_L (++)).
  replace (S (length pre) * n)%nat with (length x + length pre * n)%nat by lia.
  by rewrite drop_app_add.
Qed.

Lemma length_concat_blocks (n : nat) (l : list bytes) :
  Forall (fun x => length x = n) l → length (concat l) = (length l * n)%nat.
Proof. induction 1 as [|x l Hx _ IH]; [done|]. cbn [concat length]. rewrite length_app, IH, Hx. lia. Qed.

Lemma get256_at off (s h rest : bytes) :
  drop off s = h ++ rest → length h = 32%nat → get256 (Z.of_nat off) s = Ok (Some h).
Proof.
  intros Hd Hh. unfold get256, ssize. pose proof (length_drop s off) as Hl.
  rewrite Hd, length_app in Hl. rewrite !(proj2 (Z.ltb_ge _ _)) by lia. cbn [orb]. rewrite Nat2Z.id, Hd, <-Hh. by rewrite take_app_length.
Qed.

(** A hash that is there is stored in its place. *)
Lemma read_hash_at pos off (s h rest : bytes) hs b :
  drop off s = h ++ rest → length h = 32%nat → (pos < length hs)%nat →
  read_hash (Z.of_nat pos) (Z.of_nat off) s hs b
  = Ok (<[pos := h]> hs, if negb (isZero h) then Z.lor b (Z.shiftl 1 (Z.of_nat pos)) else b).
Proof.
  intros Hd Hh Hp. unfold read_hash. rewrite (proj2 (Z.ltb_ge _ _)), Nat2Z.id by lia.
  destruct (lookup_lt_is_Some_2 hs pos Hp) as [old ->]. cbn [deref mbind res_bind].
  by rewrite (get256_at off s h rest Hd Hh).
Qed.

Lemma get8_at off (s : bytes) b rest : drop off s = b :: rest → ser_get8 off s = Some (bval b).
Proof.
  intros Hd. unfold ser_get8, ssize. pose proof (length_drop s off) as Hl. rewrite Hd in Hl. cbn [length] in Hl.
  rewrite (proj2 (Z.leb_gt _ _)) by lia.
  rewrite <-(Nat.add_0_r off), <-lookup_drop, Hd. done.
Qed.

(** ** The branches in use *)

Fixpoint mask_from (i : nat) (hs : list uint256) (b : Z) : Z :=
  match hs with
  | [] => b
  | h :: hs => mask_from (S i) hs (if negb (isZero h) then Z.lor b (Z.shiftl 1 (Z.of_nat i)) else b)
  end.

Lemma mask_from_spec hs : ∀ i b j,
  Z.testbit (mask_from i hs b) (Z.of_nat j)
  = Z.testbit b (Z.of_nat j)
    || (Nat.leb i j && match hs !! (j - i)%nat with Some h => negb (isZero h) | None => false end).
Proof.
  induction hs as [|h hs IH]; intros i b j; cbn [mask_from].
  - rewrite lookup_nil, andb_false_r, orb_false_r. done.
  - rewrite IH. clear IH. destruct (Nat.leb_spec i j) as [Hij|Hij], (Nat.leb_spec (S i) j) as [Hij'|Hij']; try lia.
    + replace (j - i)%nat with (S (j - S i)) by lia. cbn [lookup list_lookup]. cbn [andb]. f_equal.
      destruct (isZero h); [done|]. cbn [negb]. rewrite Z.lor_spec, Z.shiftl_1_l, Z.pow2_bits_false by lia. apply orb_false_r.
    + assert (j = i) as -> by lia. rewrite Nat.sub_diag. cbn [lookup list_lookup andb].
      destruct (isZero h); [done|]. cbn [negb]. rewrite Z.lor_spec, Z.shiftl_1_l, Z.pow2_bits_true by lia.
      by rewrite !orb_true_r.
    + cbn [andb]. f_equal. destruct (isZero h); [done|]. cbn [negb].
      rewrite Z.lor_spec, Z.shiftl_1_l, Z.pow2_bits_false by lia. apply orb_false_r.
Qed.

(** The hashes and [mIsBranch] of an inner node agree. *)
Definition raw_ok (isb : Z) (hs : list uint256) : Prop :=
  length hs = 16%nat ∧ Forall (fun h => length h = 32%nat) hs ∧ 0 <= isb < 2 ^ 16
  ∧ ∀ i h, hs !! i = Some h → isEmptyBranch isb i = isZero h.

Lemma mask_ok isb hs : raw_ok isb hs → mask_from 0 hs 0 = isb.
Proof.
  intros (Hl&_&Hr&Hb). apply Z.bits_inj'. intros n Hn. rewrite <-(Z2Nat.id n) by done. set (j := Z.to_nat n).
  rewrite mask_from_spec, Z.bits_0, Nat.sub_0_r. cbn [Nat.leb andb orb].
  destruct (hs !! j) as [h|] eqn:Hj.
  - rewrite <-(Hb j h Hj), isEmptyBranch_spec. apply negb_involutive.
  - apply lookup_ge_None_1 in Hj. symmetry. rewrite <-(Z.mod_small isb (2 ^ 16)) by done.
    apply Z.mod_pow2_bits_high. lia.
Qed.

(** The used branches with their numbers. *)
Fixpoint used (i : nat) (hs : list uint256) : list (uint256 * nat) :=
  match hs with [] => [] | h :: hs => if isZero h then used (S i) hs else (h, i) :: used (S i) hs end.

Definition flat (ps : list (uint256 * nat)) : list bytes :=
  (fun p => p.1 ++ [byte_of (Z.of_nat p.2)]) <$> ps.

Lemma add_hashes_app hs : ∀ s, add_hashes hs s = s ++ concat hs.
Proof.
  induction hs as [|h hs IH]; intros s; unfold add_hashes; cbn [fold_left concat]; [by rewrite app_nil_r|].
  change (add_hashes hs (s ++ h) = s ++ h ++ concat hs). by rewrite IH, (assoc_L (++)).
Qed.

Lemma add_branches_app isb hs : ∀ i s,
  (∀ j h, hs !! j = Some h → isEmptyBranch isb (i + j) = isZero h) →
  add_branches isb i hs s = s ++ concat (flat (used i hs)).
Proof.
  induction hs as [|h hs IH]; intros i s Hb; cbn [add_branches used]; [by rewrite app_nil_r|].
  pose proof (Hb 0%nat h eq_refl) as H0. rewrite Nat.add_0_r in H0.
  assert (∀ j h, hs !! j = Some h → isEmptyBranch isb (S i + j) = isZero h) as Hb'.
  { intros j h' Hj. specialize (Hb (S j) h' Hj). by rewrite Nat.add_succ_r in Hb. }
  rewrite H0. destruct (isZero h); cbn [negb]; rewrite IH by done; [done|].
  cbn [flat fmap list_fmap concat add8 add256 append snd fst]. by rewrite <-!(assoc_L (++)).
Qed.

Lemma used_fits hs : ∀ i p,
  Forall (fun h => length h = 32%nat) hs → p ∈ used i hs →
  length p.1 = 32%nat ∧ (i <= p.2 < i + length hs)%nat ∧ isZero p.1 = false.
Proof.
  induction hs as [|h hs IH]; intros i p Hh Hp; cbn [used] in Hp; [by apply elem_of_nil in Hp|].
  apply Forall_cons in Hh as [Hl Hh]. cbn [length]. destruct (isZero h) eqn:Hz.
  - destruct (IH _ _ Hh Hp) as (?&?&?). split_and!; [done|lia..|done].
  - apply elem_of_cons in Hp as [->|Hp]; [cbn; split_and!; [done|lia..|done]|].
    destruct (IH _ _ Hh Hp) as (?&?&?). split_and!; [done|lia..|done].
Qed.

(** ** Reading the hashes *)

Lemma read_full_ok hs : ∀ (pre : list uint256) rest cur b,
  Forall (fun h => length h = 32%nat) pre → Forall (fun h => length h = 32%nat) hs →
  length cur = length hs →
  read_full (seq (length pre) (length hs)) (concat pre ++ concat hs ++ rest) (pre ++ cur) b
  = Ok (pre ++ hs, mask_from (length pre) hs b).
Proof.
  induction hs as [|h hs IH]; intros pre rest cur b Hpre Hhs Hc.
  - destruct cur; [|done]. cbn. done.
  - apply Forall_cons in Hhs as [Hh Hhs]. destruct cur as [|c cur]; [done|]. injection Hc as Hc.
    cbn [length seq read_full mask_from concat].
    assert (drop (length pre * 32) (concat pre ++ (h ++ concat hs) ++ rest) = h ++ concat hs ++ rest) as Hd
      by (rewrite <-(assoc_L (++) h); by apply block_at).
    rewrite (read_hash_at _ _ _ h _ _ _ Hd Hh) by (rewrite length_app; cbn; lia). cbn [mbind res_bind]. rewrite insert_app_r_alt, Nat.sub_diag by done. cbn [insert list_insert].
    specialize (IH (pre ++ [h]) rest cur (if negb (isZero h) then Z.lor b (Z.shiftl 1 (Z.of_nat (length pre))) else b)).
    rewrite length_app, concat_app in IH. cbn [length concat] in IH. rewrite Nat.add_1_r, app_nil_r, <-!(assoc_L (++)) in IH.
    rewrite <-!(assoc_L (++)). cbn [app] in IH. apply IH; [|done|done].
    apply Forall_app. split; [done|]. by repeat constructor.
Qed.

Lemma read_full_raw isb hs rest :
  raw_ok isb hs → read_full (seq 0 16) (concat hs ++ rest) no_hashes 0 = Ok (hs, isb).
Proof.
  intros Hok. destruct Hok as (Hl&Hh&Hr&Hb) eqn:E. pose proof (read_full_ok hs [] rest no_hashes 0) as H.
  cbn [length concat app] in H. rewrite Hl in H. rewrite H by done. do 2 f_equal. by apply mask_ok.
Qed.

Fixpoint put_pairs (ps : list (uint256 * nat)) (hs : list uint256) (b : Z) : list uint256 * Z :=
  match ps with
  | [] => (hs, b)
  | (h, i) :: ps => put_pairs ps (<[i := h]> hs) (if negb (isZero h) then Z.lor b (Z.shiftl 1 (Z.of_nat i)) else b)
  end.

Lemma read_branches_ok ps : ∀ pre hs b,
  Forall (fun x => length x = 33%nat) pre →
  (∀ p, p ∈ ps → length p.1 = 32%nat ∧ (p.2 < 16)%nat) → length hs = 16%nat →
  read_branches (seq (length pre) (length ps)) (concat pre ++ concat (flat ps)) hs b = Ok (put_pairs ps hs b).
Proof.
  induction ps as [|[h i] ps IH]; intros pre hs b Hpre Hps Hlen; [done|]. cbn [length seq read_branches put_pairs flat fmap list_fmap concat fst snd].
  destruct (Hps (h, i)) as [Hh Hi]; [by left|]. cbn [fst snd] in *. set (blk := h ++ [byte_of (Z.of_nat i)]).
  fold (flat ps). pose proof (block_at 33 pre blk (concat (flat ps)) Hpre) as Hd.
  rewrite (get8_at _ _ (byte_of (Z.of_nat i)) (concat (flat ps))).
  2: { rewrite (Nat.add_comm 32), <-drop_drop, Hd. unfold blk. rewrite <-(assoc_L (++)), <-Hh. by rewrite drop_app_length. }
  rewrite bval_byte_of, Z.mod_small by lia. rewrite (proj2 (Z.ltb_ge _ _)), (proj2 (Z.leb_gt _ _)) by lia. cbn [orb].
  rewrite (read_hash_at i _ _ h ([byte_of (Z.of_nat i)] ++ concat (flat ps))) by (lia || done || by rewrite Hd, (assoc_L (++))).
  cbn [mbind res_bind].
  specialize (IH (pre ++ [blk]) (<[i:=h]> hs) (if negb (isZero h) then Z.lor b (Z.shiftl 1 (Z.of_nat i)) else b)).
  rewrite length_app, concat_app in IH. cbn [length concat] in IH. rewrite Nat.add_1_r, app_nil_r, <-!(assoc_L (++)) in IH.
  subst blk. rewrite <-!(assoc_L (++)). rewrite <-!(assoc_L (++)) in IH. apply IH.
  - apply Forall_app. split; [done|]. constructor; [|done]. rewrite length_app, Hh. done.
  - intros p Hp. apply Hps. by right.
  - by rewrite length_insert.
Qed.

Lemma put_used hs : ∀ pre b,
  put_pairs (used (length pre) hs) (pre ++ replicate (length hs) zero256) b
  = (pre ++ hs, mask_from (length pre) hs b).
Proof.
  induction hs as [|h hs IH]; intros pre b; [done|]. cbn [used mask_from length replicate].
  specialize (IH (pre ++ [h])). rewrite length_app in IH. cbn [length] in IH. rewrite Nat.add_1_r in IH.
  destruct (isZero h) eqn:Hz; cbn [negb put_pairs].
  - apply bool_decide_eq_true_1 in Hz as ->. specialize (IH b). rewrite <-!(assoc_L (++)) in IH. done.
  - rewrite Hz. cbn [negb]. rewrite insert_app_r_alt, Nat.sub_diag by done. cbn [insert list_insert].
    specialize (IH (Z.lor b (Z.shiftl 1 (Z.of_nat (length pre))))). rewrite <-!(assoc_L (++)) in IH. done.
Qed.

Lemma read_branches_raw isb hs :
  raw_ok isb hs →
  read_branches (seq 0 (length (concat (flat (used 0 hs))) / 33)) (concat (flat (used 0 hs))) no_hashes 0 = Ok (hs, isb).
Proof.
  intros Hok. pose proof Hok as (Hl&Hh&_). rewrite (length_concat_blocks 33).
  - rewrite Nat.div_mul by done. unfold flat. rewrite length_fmap. fold (flat (used 0 hs)).
    pose proof (read_branches_ok (used 0 hs) [] no_hashes 0) as H. cbn [length concat app] in H. rewrite H; [|done| |done].
    + f_equal. pose proof (put_used hs [] 0) as Hp. rewrite Hl in Hp. cbn [length app] in Hp.
      fold no_hashes in Hp. rewrite Hp. f_equal. by apply mask_ok.
    + intros p Hp. destruct (used_fits hs 0 p Hh Hp) as (?&?&_). split; [done|lia].
  - apply Forall_fmap, Forall_forall. intros p Hp. destruct (used_fits hs 0 p Hh Hp) as (E&_). cbn.
    by rewrite length_app, E.
Qed.

(** ** Prefixes *)

Lemma add32_bytes v s : (add32 v s).2 = s ++ field_bytes uint32_t v.
Proof.
  unfold add32, append. cbn [snd field_bytes]. rewrite Z.shiftr_0_r. by rewrite !byte_of_land.
Qed.

Lemma raw_prefix_ok v s : 0 <= v < 2 ^ 32 → raw_prefix (field_bytes uint32_t v ++ s) = Ok v.
Proof.
  intros Hv. unfold raw_prefix, raw_byte. cbn [field_bytes lookup list_lookup app deref mbind res_bind]. f_equal. assert (v / 2 ^ 32 = 0) by (apply Z.div_small; lia).
  rewrite !(Z.lor_comm (Z.shiftl _ _)), !lor_shiftl_add by (lia || apply bval_range).
  rewrite !bval_field by lia. pose proof (horner v 24 ltac:(lia)) as H1. pose proof (horner v 16 ltac:(lia)) as H2.
  pose proof (horner v 8 ltac:(lia)) as H3. pose proof (horner v 0 ltac:(lia)) as H4.
  change (24 + 8) with 32 in H1. change (16 + 8) with 24 in H2. change (8 + 8) with 16 in H3. change (0 + 8) with 8 in H4.
  change (2 ^ 0) with 1 in *. rewrite !Z.div_1_r in *. generalize dependent ((v / 2 ^ 24) mod 2 ^ 8).
  generalize dependent ((v / 2 ^ 16) mod 2 ^ 8). generalize dependent ((v / 2 ^ 8) mod 2 ^ 8).
  generalize dependent (v mod 2 ^ 8). intros. lia.
Qed.

Lemma keyed_split (data key : bytes) :
  length key = 32%nat →
  (ssize (data ++ key) <? 32) = false ∧ get256 (ssize (data ++ key) - 32) (data ++ key) = Ok (Some key)
  ∧ (chop 32 (data ++ key)).2 = data.
Proof.
  intros Hk. unfold ssize at 1 2. rewrite length_app, Hk. split_and!.
  - apply Z.ltb_ge. lia.
  - replace (Z.of_nat (length data + 32) - 32) with (Z.of_nat (length data)) by lia.
    apply (get256_at _ _ _ []); [|done]. rewrite app_nil_r. apply drop_app_length.
  - unfold chop, ssize. rewrite length_app, Hk, (proj2 (Z.ltb_ge _ _)) by lia. cbn [snd].
    rewrite Nat.add_sub. apply take_app_length.
Qed.

(** ** Round trip *)

Section roundtrip.
Context `{!Sha512Half}.

Definition node_hash (n : anynode) : uint256 :=
  match n with NodeV1 n => getNodeHash n | NodeV2 n => v2_hash n end.

(** The node as it is read: under another sequence number and without links. *)
Definition detach (seq : Z) (n : anynode) : anynode :=
  match n with
  | NodeV1 (InnerNode _ h b hs _) => NodeV1 (InnerNode seq h b hs no_children)
  | NodeV1 (TreeNode _ h t i) => NodeV1 (TreeNode seq h t i)
  | NodeV2 n => NodeV2 (mkV2 seq (v2_hash n) (v2_isBranch n) (v2_hashes n) no_children (v2_common n) (v2_depth n))
  end.

(** The stored hash is up to date. *)
Definition hashed (n : anynode) : Prop :=
  match n with
  | NodeV1 (InnerNode _ h b hs _) => h = inner_hash b hs
  | NodeV1 (TreeNode _ h t i) => leaf_hash t i = Ok h
  | NodeV2 n => ∃ s, v2_addRaw n snfPREFIX [] = Ok s ∧ v2_hash n = sha512Half s
  end.

(** The number of bytes of a version 2 prefix. *)
Definition prefix_size (depth : Z) : nat := Z.to_nat ((depth + 1) / 2).

(** What the formats can hold. *)
Definition encodable (format : SHANodeFormat) (id : SHAMapNodeID) (n : anynode) : Prop :=
  match n with
  | NodeV1 (InnerNode _ _ b hs _) => raw_ok b hs ∧ b ≠ 0
  | NodeV1 (TreeNode _ _ t i) =>
      length (item_key i) = 32%nat ∧ (12 <= length (item_data i))%nat
      ∧ match t with
        | tnTRANSACTION_NM => item_key i = sha512Half (field_bytes uint32_t transactionID ++ item_data i)
        | tnACCOUNT_STATE => item_key i ≠ zero256
        | tnTRANSACTION_MD => format = snfWIRE → item_key i ≠ zero256
        | _ => False
        end
  | NodeV2 n =>
      raw_ok (v2_isBranch n) (v2_hashes n) ∧ v2_isBranch n ≠ 0 ∧ 0 <= v2_depth n <= 64
      ∧ v2_common n = take (prefix_size (v2_depth n)) (v2_common n) ++ replicate (32 - prefix_size (v2_depth n)) x00
      ∧ length (v2_common n) = 32%nat
      ∧ (format = snfWIRE → id = mkNodeID (v2_common n) (Z.to_nat (v2_depth n)))
  end.

Lemma make_leaf_ok item type seq sq h hv :
  (12 <= length (item_data item))%nat → leaf_hash type item = Ok h →
  make_leaf item type seq h hv = Ok (Some (detach seq (NodeV1 (TreeNode sq h type item)))).
Proof.
  intros Hd Hh. unfold make_leaf, new_leaf. rewrite (proj2 (Nat.leb_le _ _)) by done. cbn [assert_ mbind res_bind].
  destruct hv; [done|]. by rewrite Hh.
Qed.

Lemma make_keyed_ok data key check type seq sq h hv :
  length key = 32%nat → (12 <= length data)%nat → (check = true → key ≠ zero256) →
  leaf_hash type (mkItem key data) = Ok h →
  make_keyed (data ++ key) check type seq h hv = Ok (Some (detach seq (NodeV1 (TreeNode sq h type (mkItem key data))))).
Proof.
  intros Hk Hd Hc Hh. destruct (keyed_split data key Hk) as (H1&H2&H3). unfold make_keyed.
  rewrite H1, H2, H3. cbn [mbind res_bind]. change (default zero256 (Some key)) with key.
  replace (check && isZero key) with false; [by apply make_leaf_ok|].
  destruct check; [|done]. symmetry. apply bool_decide_false. by apply Hc.
Qed.

Lemma wire_split (s : bytes) b :
  Nat.eqb (length (s ++ [b])) 0 = false ∧ take (length (s ++ [b]) - 1) (s ++ [b]) = s
  ∧ (s ++ [b]) !! (length (s ++ [b]) - 1)%nat = Some b.
Proof.
  rewrite length_app. cbn [length]. rewrite Nat.add_sub. split_and!; [apply Nat.eqb_neq; lia|apply take_app_length|].
  by rewrite lookup_app_r, Nat.sub_diag.
Qed.

Ltac wire_type k :=
  cbn [deref mbind res_bind]; change (bval (byte_of k)) with k;
  cbn [Z.ltb Z.compare Z.eqb orb Pos.compare Pos.compare_cont Pos.eqb].

Lemma wire_leaf_ok seq sq h t item hv id :
  encodable snfWIRE id (NodeV1 (TreeNode sq h t item)) → leaf_hash t item = Ok h →
  ∃ raw, leaf_addRaw h t item snfWIRE [] = Ok raw
    ∧ make_wire raw seq h hv id = Ok (Some (detach seq (NodeV1 (TreeNode sq h t item)))).
Proof.
  destruct item as [key data]. cbn [encodable item_key item_data]. intros (Hk&Hd&Ht) Hh.
  destruct t; try done; cbn [leaf_addRaw item_key item_data]; unfold ser_addRaw, add8, add256, append; cbn [snd];
    rewrite app_nil_l; eexists; (split; [reflexivity|]); unfold make_wire.
  - destruct (wire_split data (byte_of 0)) as (-> & -> & ->). wire_type 0.
    rewrite <-Ht. by apply make_leaf_ok.
  - destruct (wire_split (data ++ key) (byte_of 4)) as (-> & -> & ->). wire_type 4.
    apply make_keyed_ok; [done..| |done]. intros _. by apply Ht.
  - destruct (wire_split (data ++ key) (byte_of 1)) as (-> & -> & ->). wire_type 1.
    by apply make_keyed_ok.
Qed.

Lemma prefix_split (v : Z) (s : bytes) :
  0 <= v < 2 ^ 32 →
  Nat.ltb (length (field_bytes uint32_t v ++ s)) 4 = false ∧ raw_prefix (field_bytes uint32_t v ++ s) = Ok v
  ∧ drop 4 (field_bytes uint32_t v ++ s) = s.
Proof. intros Hv. split_and!; [done|by apply raw_prefix_ok|done]. Qed.

Ltac prefix_type :=
  cbn [mbind res_bind];
  repeat match goal with |- context [Z.eqb ?a ?b] =>
    match b with transactionID => idtac | leafNode => idtac | innerNode => idtac | innerNodeV2 => idtac
               | txNode => idtac end;
    let v := eval vm_compute in (Z.eqb a b) in change (Z.eqb a b) with v
  end; cbn [orb negb andb].

Lemma prefix_leaf_ok seq sq h t item hv id :
  encodable snfPREFIX id (NodeV1 (TreeNode sq h t item)) → leaf_hash t item = Ok h →
  ∃ raw, leaf_addRaw h t item snfPREFIX [] = Ok raw ∧ sha512Half raw = h
    ∧ make_prefix raw seq h hv = Ok (Some (detach seq (NodeV1 (TreeNode sq h t item)))).
Proof.
  destruct item as [key data]. cbn [encodable item_key item_data]. intros (Hk&Hd&Ht) Hh.
  destruct t; try done; cbn [leaf_addRaw item_key item_data]; rewrite add32_bytes, app_nil_l;
    unfold ser_addRaw, add256, append; cbn [snd]; rewrite <-?(assoc_L (++)); eexists; (split; [reflexivity|]);
    (split; [by injection Hh|]); unfold make_prefix.
  - destruct (prefix_split transactionID data) as (-> & -> & ->); [by vm_compute|].
    cbn [mbind res_bind]. rewrite Z.eqb_refl, <-Ht. by apply make_leaf_ok.
  - destruct (prefix_split txNode (data ++ key)) as (-> & -> & ->); [by vm_compute|].
    prefix_type. by apply make_keyed_ok.
  - destruct (prefix_split leafNode (data ++ key)) as (-> & -> & ->); [by vm_compute|].
    prefix_type. by apply make_keyed_ok.
Qed.

Lemma length_hashes16 isb hs : raw_ok isb hs → length (concat hs) = 512%nat.
Proof. intros (Hl&Hh&_). by rewrite (length_concat_blocks 32), Hl. Qed.

Lemma not_empty b : b ≠ 0 → negb (isEmpty b) = true.
Proof. intros Hb. unfold isEmpty. by rewrite (proj2 (Z.eqb_neq _ _)). Qed.

Lemma raw_used isb hs s : raw_ok isb hs → add_branches isb 0 hs s = s ++ concat (flat (used 0 hs)).
Proof. intros (_&_&_&Hb). by apply add_branches_app. Qed.

(** Both wire forms of an inner node, of version 1 or (with [off = 3]) 2. *)
Lemma wire_inner_bytes h isb hs :
  raw_ok isb hs → isb ≠ 0 →
  inner_addRaw h isb hs snfWIRE [] = Ok (concat (flat (used 0 hs)) ++ [byte_of 3])
  ∨ inner_addRaw h isb hs snfWIRE [] = Ok (concat hs ++ [byte_of 2]).
Proof.
  intros Hok Hne. unfold inner_addRaw. rewrite (not_empty _ Hne). cbn [assert_ mbind res_bind].
  destruct (Nat.ltb _ 12); [left|right]; unfold add8, append; cbn [snd].
  - by rewrite raw_used.
  - by rewrite add_hashes_app.
Qed.

Lemma bump_last_ok s b : bump_last (s ++ [b]) = Ok (s ++ [byte_of (bval b + 3)]).
Proof. unfold bump_last. rewrite reverse_snoc, reverse_cons, reverse_involutive. done. Qed.

Lemma wire_inner_ok seq sq h isb hs ch hv id :
  raw_ok isb hs → isb ≠ 0 → h = inner_hash isb hs →
  ∃ raw, inner_addRaw h isb hs snfWIRE [] = Ok raw
    ∧ make_wire raw seq h hv id = Ok (Some (detach seq (NodeV1 (InnerNode sq h isb hs ch)))).
Proof.
  intros Hok Hne Hh.
  destruct (wire_inner_bytes h isb hs Hok Hne) as [->| ->]; (eexists; split; [reflexivity|]); unfold make_wire.
  - destruct (wire_split (concat (flat (used 0 hs))) (byte_of 3)) as (-> & -> & ->). wire_type 3.
    rewrite read_branches_raw with (isb := isb) by done. cbn [mbind res_bind]. unfold make_inner. rewrite <-Hh. by destruct hv.
  - destruct (wire_split (concat hs) (byte_of 2)) as (-> & -> & ->). wire_type 2.
    rewrite (length_hashes16 isb hs Hok). cbn [Nat.eqb negb].
    rewrite <-(app_nil_r (concat hs)), (read_full_raw isb hs [] Hok). cbn [mbind res_bind]. unfold make_inner. rewrite <-Hh. by destruct hv.
Qed.

Lemma prefix_inner_ok seq sq h isb hs ch hv :
  raw_ok isb hs → isb ≠ 0 → h = inner_hash isb hs →
  ∃ raw, inner_addRaw h isb hs snfPREFIX [] = Ok raw ∧ sha512Half raw = h
    ∧ make_prefix raw seq h hv = Ok (Some (detach seq (NodeV1 (InnerNode sq h isb hs ch)))).
Proof.
  intros Hok Hne Hh. unfold inner_addRaw. rewrite (not_empty _ Hne), add_hashes_app, add32_bytes, app_nil_l.
  eexists. split; [reflexivity|]. split.
  { rewrite Hh. unfold inner_hash. by rewrite (proj2 (Z.eqb_neq _ _)). }
  unfold make_prefix. destruct (prefix_split innerNode (concat hs)) as (-> & -> & ->); [by vm_compute|].
  prefix_type. rewrite (length_hashes16 isb hs Hok). cbn [Nat.ltb Nat.leb Nat.eqb negb orb].
  rewrite <-(app_nil_r (concat hs)), (read_full_raw isb hs [] Hok). cbn [mbind res_bind]. unfold make_inner. rewrite <-Hh. by destruct hv.
Qed.

(** *** Version 2 *)

Lemma prefix_size_le depth : 0 <= depth <= 64 → (prefix_size depth <= 32)%nat.
Proof.
  intros Hd. unfold prefix_size. assert ((depth + 1) / 2 < 33) by (apply Z.div_lt_upper_bound; lia). lia.
Qed.

Lemma read_common_ok (c : bytes) : ∀ pre hs d (cur : bytes),
  length hs = 512%nat → length cur = (length c + (32 - length pre - length c))%nat → (length pre + length c <= 32)%nat →
  read_common (List.seq (length pre) (length c)) (hs ++ d :: pre ++ c) (pre ++ cur) = Ok (pre ++ c ++ drop (length c) cur).
Proof.
  induction c as [|b c IH]; intros pre hs d cur Hhs Hcur Hle; [done|]. cbn [length List.seq read_common].
  destruct cur as [|x cur]; [cbn in Hcur; lia|]. rewrite (get8_at _ _ b c).
  2: { rewrite <-Nat.add_assoc, <-Hhs, drop_app_add. cbn [drop Nat.add]. apply drop_app_length. }
  cbn [deref mbind res_bind]. rewrite (proj2 (Nat.ltb_lt _ _)) by (rewrite length_app; cbn [length]; cbn [length] in *; lia).
  rewrite byte_of_bval, insert_app_r_alt, Nat.sub_diag by done. cbn [insert list_insert].
  specialize (IH (pre ++ [b]) hs d cur Hhs). rewrite length_app, <-!(assoc_L (++)) in IH. cbn [length app] in IH.
  rewrite Nat.add_1_r in IH. cbn [length app drop]. cbn [length] in Hcur, Hle. apply IH; lia.
Qed.

Lemma v2_hash_ok n s :
  v2_addRaw n snfPREFIX [] = Ok s → v2_hash n = sha512Half s → v2_isBranch n ≠ 0 → ∀ seq,
  make_inner_v2 seq (v2_hashes n) (v2_isBranch n) (v2_common n) (v2_depth n) (v2_hash n) true
  = Ok (Some (detach seq (NodeV2 n)))
  ∧ make_inner_v2 seq (v2_hashes n) (v2_isBranch n) (v2_common n) (v2_depth n) (v2_hash n) false
    = Ok (Some (detach seq (NodeV2 n))).
Proof.
  intros Hs Hh Hne seq. split; [done|]. unfold make_inner_v2, v2_updateHash. cbn [v2_isBranch].
  rewrite (proj2 (Z.eqb_neq _ _)) by done.
  match goal with |- context [v2_addRaw ?m snfPREFIX []] => change (v2_addRaw m snfPREFIX []) with (v2_addRaw n snfPREFIX []) end.
  rewrite Hs. cbn [mbind res_bind]. cbn [detach]. by rewrite Hh.
Qed.

Lemma v2_make n s seq hv :
  v2_addRaw n snfPREFIX [] = Ok s → v2_hash n = sha512Half s → v2_isBranch n ≠ 0 →
  make_inner_v2 seq (v2_hashes n) (v2_isBranch n) (v2_common n) (v2_depth n) (v2_hash n) hv
  = Ok (Some (detach seq (NodeV2 n))).
Proof. intros Hs Hh Hne. destruct (v2_hash_ok n s Hs Hh Hne seq). by destruct hv. Qed.

Lemma wire_v2_ok seq n hv id :
  encodable snfWIRE id (NodeV2 n) → hashed (NodeV2 n) →
  ∃ raw, v2_addRaw n snfWIRE [] = Ok raw ∧ make_wire raw seq (v2_hash n) hv id = Ok (Some (detach seq (NodeV2 n))).
Proof.
  cbn [encodable hashed]. intros (Hok&Hne&Hd&_&_&Hid) (s&Hs&Hh). specialize (Hid eq_refl). cbn [v2_addRaw].
  destruct (wire_inner_bytes (v2_hash n) _ _ Hok Hne) as [->| ->]; cbn [mbind res_bind]; rewrite bump_last_ok;
    (eexists; split; [reflexivity|]); unfold make_wire; subst id; cbn [mNodeID mDepth]; rewrite Z2Nat.id by lia.
  - change (byte_of (bval (byte_of 3) + 3)) with (byte_of 6).
    destruct (wire_split (concat (flat (used 0 (v2_hashes n)))) (byte_of 6)) as (-> & -> & ->). wire_type 6.
    rewrite read_branches_raw with (isb := v2_isBranch n) by done. cbn [mbind res_bind]. by apply (v2_make n s).
  - change (byte_of (bval (byte_of 2) + 3)) with (byte_of 5).
    destruct (wire_split (concat (v2_hashes n)) (byte_of 5)) as (-> & -> & ->). wire_type 5.
    rewrite (length_hashes16 _ _ Hok). cbn [Nat.eqb negb].
    rewrite <-(app_nil_r (concat _)), (read_full_raw _ _ [] Hok). cbn [mbind res_bind]. by apply (v2_make n s).
Qed.

Lemma prefix_v2_ok seq n hv id :
  encodable snfPREFIX id (NodeV2 n) → hashed (NodeV2 n) →
  ∃ raw, v2_addRaw n snfPREFIX [] = Ok raw ∧ sha512Half raw = v2_hash n
    ∧ make_prefix raw seq (v2_hash n) hv = Ok (Some (detach seq (NodeV2 n))).
Proof.
  cbn [encodable hashed]. intros (Hok&Hne&Hd&Hc&Hl&_) (s&Hs&Hh). exists s. split_and!; [done..|].
  pose proof (prefix_size_le _ Hd) as Hp. pose proof (v2_make n s seq hv Hs Hh Hne) as Hmake.
  cbn [v2_addRaw] in Hs. unfold common_bytes in Hs. fold (prefix_size (v2_depth n)) in Hs.
  rewrite (proj2 (Nat.ltb_ge _ _)) in Hs by lia. cbn [mbind res_bind] in Hs. apply Ok_inj in Hs.
  set (c := take (prefix_size (v2_depth n)) (v2_common n)) in *.
  assert (length c = prefix_size (v2_depth n)) as Hcl by (subst c; rewrite length_take; lia).
  rewrite add_hashes_app, add32_bytes, app_nil_l in Hs. unfold add8, append in Hs. cbn [snd] in Hs.
  rewrite <-!(assoc_L (++)) in Hs. subst s. unfold make_prefix.
  destruct (prefix_split innerNodeV2 (concat (v2_hashes n) ++ [byte_of (v2_depth n)] ++ c)) as (-> & -> & ->); [by vm_compute|].
  prefix_type. rewrite length_app, (length_hashes16 _ _ Hok). cbn [app length].
  rewrite (read_full_raw _ _ (byte_of (v2_depth n) :: c) Hok). cbn [mbind res_bind].
  rewrite (get8_at 512 _ (byte_of (v2_depth n)) c) by (rewrite <-(length_hashes16 _ _ Hok); apply drop_app_length).
  rewrite bval_byte_of, Z.mod_small by lia. change (default 64 (Some (v2_depth n))) with (v2_depth n).
  fold (prefix_size (v2_depth n)). rewrite <-Hcl. rewrite (proj2 (Nat.ltb_ge _ _)), (proj2 (Nat.eqb_neq _ _)) by lia. cbn [orb].
  rewrite (proj2 (Nat.eqb_eq _ _)) by lia. cbn [negb].
  pose proof (read_common_ok c [] (concat (v2_hashes n)) (byte_of (v2_depth n)) zero256) as Hrc. cbn [length app] in Hrc.
  rewrite Hrc; [|by apply (length_hashes16 _ _ Hok)|cbn; lia|lia]. cbn [mbind res_bind].
  replace (c ++ drop (length c) zero256) with (v2_common n); [done|].
  rewrite Hc, Hcl. f_equal. unfold zero256. by rewrite drop_replicate.
Qed.

Lemma raw_roundtrip n format id seq hv :
  format ≠ snfHASH → encodable format id n → hashed n →
  ∃ raw, addRaw n format [] = Ok raw ∧ make raw seq format (node_hash n) hv id = Ok (Some (detach seq n))
    ∧ (format = snfPREFIX → sha512Half raw = node_hash n).
Proof.
  intros Hf He Hh. destruct format; [..|done]; destruct n as [[sq h b hs ch|sq h t i]|n];
    cbn [addRaw make node_hash getNodeHash].
  - destruct He as [Hok Hne]. destruct (prefix_inner_ok seq sq h b hs ch hv Hok Hne Hh) as (raw&?&?&?). by exists raw.
  - destruct (prefix_leaf_ok seq sq h t i hv id He Hh) as (raw&?&?&?). by exists raw.
  - destruct (prefix_v2_ok seq n hv id He Hh) as (raw&?&?&?). by exists raw.
  - destruct He as [Hok Hne]. destruct (wire_inner_ok seq sq h b hs ch hv id Hok Hne Hh) as (raw&?&?). by exists raw.
  - destruct (wire_leaf_ok seq sq h t i hv id He Hh) as (raw&?&?). by exists raw.
  - destruct (wire_v2_ok seq n hv id He Hh) as (raw&?&?). by exists raw.
Qed.

(** C5: A well-formed tree node of either version, written in the wire or in the prefix
    format, is read back by make as the same node with the given sequence number and its
    children not yet loaded; and the bytes of the prefix format hash to the node's hash.
    *)
Theorem node_raw_roundtrip n format id seq hv :
  format ≠ snfHASH → encodable format id n → hashed n →
  ∃ raw, addRaw n format [] = Ok raw ∧ make raw seq format (node_hash n) hv id = Ok (Some (detach seq n))
    ∧ (format = snfPREFIX → sha512Half raw = node_hash n).
Proof. apply raw_roundtrip. Qed.

(** ** Memory safety of [make] *)

Definition defined {A} (r : res A) : Prop := r ≠ Err undefined.

Lemma make_leaf_defined item type seq h hv : defined (make_leaf item type seq h hv).
Proof.
  unfold make_leaf, new_leaf. destruct hv, (Nat.leb 12 _); cbn; try done. by destruct type.
Qed.

Lemma make_keyed_defined s check type seq h hv : defined (make_keyed s check type seq h hv).
Proof.
  unfold make_keyed. destruct (Z.ltb_spec (ssize s) 32); [done|]. unfold get256.
  rewrite (proj2 (Z.ltb_ge (ssize s - 32) 0)) by lia. destruct (_ || _); cbn [mbind res_bind];
    (destruct (check && _); [done|apply make_leaf_defined]).
Qed.

(** Hashes are stored within the array and read within the data. *)
Lemma read_hash_defined pos off s hs b :
  0 <= pos < 16 → 0 <= off → length hs = 16%nat →
  ∃ hs' b', read_hash pos off s hs b = Ok (hs', b') ∧ length hs' = 16%nat.
Proof.
  intros Hp Ho Hl. unfold read_hash. rewrite (proj2 (Z.ltb_ge pos 0)) by lia.
  destruct (lookup_lt_is_Some_2 hs (Z.to_nat pos)) as [old ->]; [lia|]. cbn [deref mbind res_bind]. unfold get256.
  rewrite (proj2 (Z.ltb_ge off 0)) by lia. destruct (_ || _); cbn [mbind res_bind]; eexists _, _; (split; [done|]);
    by rewrite length_insert.
Qed.

Lemma read_full_defined L : ∀ s hs b,
  Forall (fun i => i < 16)%nat L → length hs = 16%nat → ∃ p, read_full L s hs b = Ok p.
Proof.
  induction L as [|i L IH]; intros s hs b HL Hl; [by eexists|]. apply Forall_cons in HL as [Hi HL]. cbn [read_full].
  destruct (read_hash_defined (Z.of_nat i) (Z.of_nat (i * 32)) s hs b) as (hs'&b'&->&Hl'); [lia|lia|done|].
  cbn [mbind res_bind]. by apply IH.
Qed.

Lemma read_16_defined s : ∃ p, read_full (List.seq 0 16) s no_hashes 0 = Ok p.
Proof. apply read_full_defined; [|done]. by apply (bool_decide_eq_true_1 _). Qed.

Lemma read_branches_defined L : ∀ s hs b, length hs = 16%nat → defined (read_branches L s hs b).
Proof.
  induction L as [|i L IH]; intros s hs b Hl; [done|]. cbn [read_branches].
  destruct (ser_get8 _ _) as [pos|]; [|done].
  destruct (Z.ltb_spec pos 0), (Z.leb_spec 16 pos); try done. cbn [orb].
  destruct (read_hash_defined pos (Z.of_nat (i * 33)) s hs b) as (hs'&b'&->&Hl'); [lia|lia|done|].
  cbn [mbind res_bind]. by apply IH.
Qed.

Lemma raw_prefix_defined raw : (4 <= length raw)%nat → ∃ v, raw_prefix raw = Ok v.
Proof. destruct raw as [|b0 [|b1 [|b2 [|b3 raw]]]]; cbn [length]; [lia..|]. intros _. by eexists. Qed.

Lemma make_inner_v2_defined seq hs isb common depth h hv :
  length common = 32%nat → (prefix_size depth <= 32)%nat →
  defined (make_inner_v2 seq hs isb common depth h hv).
Proof.
  intros Hc Hd. unfold make_inner_v2. destruct hv; [done|]. unfold v2_updateHash. cbn [v2_isBranch].
  destruct (isb =? 0); [done|]. unfold v2_addRaw, common_bytes. cbn [v2_common v2_depth]. fold (prefix_size depth).
  by rewrite (proj2 (Nat.ltb_ge _ _)) by lia.
Qed.

Lemma read_common_cases k : ∀ i s common,
  length common = 32%nat → (i <= 32)%nat → (512 + 1 + i + k <= length s)%nat →
  if decide (i + k <= 32)%nat then ∃ c, read_common (List.seq i k) s common = Ok c ∧ length c = 32%nat
  else read_common (List.seq i k) s common = Err undefined.
Proof.
  induction k as [|k IH]; intros i s common Hc Hi Hs; cbn [List.seq read_common].
  - rewrite decide_True by lia. eauto.
  - destruct (lookup_lt_is_Some_2 s (512 + 1 + i)) as [b Hb]; [lia|].
    unfold ser_get8, ssize. rewrite (proj2 (Z.leb_gt _ _)), Hb by lia. cbn [fmap option_fmap option_map deref mbind res_bind].
    destruct (Nat.ltb_spec i (length common)) as [Hl|Hl].
    + specialize (IH (S i) s (<[i := byte_of (bval b)]> common)). rewrite length_insert in IH.
      specialize (IH Hc ltac:(lia) ltac:(lia)). rewrite <-Nat.add_succ_comm. exact IH.
    + by rewrite decide_False by lia.
Qed.

(** A version 2 node whose depth does not fit its prefix. *)
Definition overflows (raw : bytes) : Prop :=
  (4 <= length raw)%nat ∧ raw_prefix raw = Ok innerNodeV2
  ∧ ∃ b, raw !! 516%nat = Some b ∧ length raw = (517 + prefix_size (bval b))%nat ∧ 64 < bval b.

Lemma prefix_size_small d : 0 <= d → (prefix_size d <= 32)%nat ↔ d <= 64.
Proof.
  intros Hd. split; [|intros; by apply prefix_size_le]. unfold prefix_size. intros Hp.
  pose proof (Z.div_mod (d + 1) 2 ltac:(lia)). pose proof (Z.mod_pos_bound (d + 1) 2 ltac:(lia)). lia.
Qed.

Lemma make_prefix_defined raw seq h hv : make_prefix raw seq h hv = Err undefined ↔ overflows raw.
Proof.
  unfold make_prefix, overflows. destruct (Nat.ltb_spec (length raw) 4) as [H4|H4]; [split; [done|lia]|].
  assert (∀ (P Q : Prop), ¬ P → ¬ Q → P ↔ Q) as Hno by tauto.
  destruct (raw_prefix_defined raw H4) as [v ->]. cbn [mbind res_bind].
  destruct (Z.eqb_spec v transactionID) as [->|H1].
  { apply Hno; [apply make_leaf_defined|]. by intros (_&E&_). }
  destruct (Z.eqb_spec v leafNode) as [->|H2].
  { apply Hno; [apply make_keyed_defined|]. by intros (_&E&_). }
  destruct (read_16_defined (drop 4 raw)) as [[hs isb] Hread].
  destruct (Z.eqb_spec v innerNodeV2) as [->|H3].
  2: { apply Hno; [|by intros (_&[= ->]&_)]. destruct (Z.eqb_spec v innerNode); cbn [orb].
       - destruct (_ || _); [done|]. by rewrite Hread.
       - destruct (v =? txNode); [apply make_keyed_defined|done]. }
  rewrite orb_true_r. cbn [negb andb orb]. rewrite length_drop, orb_false_r.
  destruct (Nat.ltb_spec (length raw - 4) 512) as [Hl|Hl]; cbn [orb]; [split; [done|]|].
  { intros (_&_&b&Hb%lookup_lt_Some&_). lia. }
  destruct (Nat.eqb_spec (length raw - 4) 512) as [Hl'|Hl']; [split; [done|]|].
  { intros (_&_&b&Hb%lookup_lt_Some&_). lia. }
  rewrite Hread. cbn [mbind res_bind]. destruct (lookup_lt_is_Some_2 raw 516) as [b Hb]; [lia|].
  assert (ser_get8 512 (drop 4 raw) = Some (bval b)) as ->.
  { unfold ser_get8, ssize. rewrite length_drop, (proj2 (Z.leb_gt _ _)), lookup_drop by lia. cbn [Nat.add]. by rewrite Hb. }
  change (default 64 (Some (bval b))) with (bval b). fold (prefix_size (bval b)). pose proof (bval_range b) as Hr.
  pose proof (prefix_size_small (bval b) ltac:(lia)) as Hps.
  destruct (Nat.eqb_spec (length raw - 4) (512 + 1 + prefix_size (bval b))) as [He|He]; cbn [negb].
  2: { apply Hno; [done|]. intros (_&_&b'&Hb'&Hlen&_). simplify_eq. lia. }
  pose proof (read_common_cases (prefix_size (bval b)) 0 (drop 4 raw) zero256 eq_refl ltac:(lia)) as Hc.
  rewrite length_drop in Hc. specialize (Hc ltac:(lia)). cbn [Nat.add] in Hc.
  destruct (decide (prefix_size (bval b) <= 32)%nat) as [Hle|Hgt].
  - destruct Hc as (c&->&Hlc). cbn [mbind res_bind]. apply Hno; [by apply make_inner_v2_defined|].
    intros (_&_&b'&Hb'&_&Hgt). simplify_eq. tauto || lia.
  - rewrite Hc. cbn [mbind res_bind]. split; [intros _|done]. split_and!; [lia|done|]. exists b. split_and!; [done|lia|lia].
Qed.

Lemma make_wire_defined raw seq h hv id :
  length (mNodeID id) = 32%nat → (mDepth id <= 64)%nat → defined (make_wire raw seq h hv id).
Proof.
  intros Hid Hd. unfold make_wire. destruct (Nat.eqb_spec (length raw) 0) as [|Hne]; [done|].
  destruct (lookup_lt_is_Some_2 raw (length raw - 1)) as [b ->]; [lia|]. cbn [deref mbind res_bind].
  assert (prefix_size (Z.of_nat (mDepth id)) <= 32)%nat as Hp by (apply prefix_size_le; lia).
  destruct (read_16_defined (take (length raw - 1) raw)) as [[hs isb] Hread].
  destruct (_ || _); [done|]. destruct (bval b =? 0); [apply make_leaf_defined|].
  destruct (bval b =? 1); [apply make_keyed_defined|].
  destruct (bval b =? 2); [destruct (negb _); [done|]; by rewrite Hread|].
  assert (∀ k : list uint256 * Z → res (option anynode), (∀ p, defined (k p)) →
    defined (read_branches (List.seq 0 (length (take (length raw - 1) raw) / 33)) (take (length raw - 1) raw) no_hashes 0 ≫= k)) as Hrb.
  { intros k Hk. pose proof (read_branches_defined (List.seq 0 (length (take (length raw - 1) raw) / 33))
      (take (length raw - 1) raw) no_hashes 0 eq_refl) as Hb. destruct (read_branches _ _ _ _) as [p|e]; cbn [mbind res_bind]; [apply Hk|].
    intros [= ->]. by apply Hb. }
  destruct (bval b =? 3); [by apply Hrb; intros []|].
  destruct (bval b =? 4); [apply make_keyed_defined|].
  destruct (bval b =? 5); [destruct (negb _); [done|]; rewrite Hread; by apply make_inner_v2_defined|].
  apply Hrb. intros []. by apply make_inner_v2_defined.
Qed.

(** C26: Reading a tree node from arbitrary bytes, for a position of at most 64 digits,
    stays inside the buffer, the 16 hashes and the common prefix, returning a node,
    null, an exception or a failed assertion, in exactly all cases but one: a version 2
    inner node in the prefix format that claims a depth above 64 overruns the common
    prefix. *)
Theorem make_memory_safe raw seq format hash hv id :
  length (mNodeID id) = 32%nat → (mDepth id <= 64)%nat →
  make raw seq format hash hv id = Err undefined ↔ format = snfPREFIX ∧ overflows raw.
Proof.
  intros Hid Hd. destruct format; cbn [make].
  - rewrite make_prefix_defined. naive_solver.
  - pose proof (make_wire_defined raw seq hash hv id Hid Hd). split; [done|by intros []].
  - split; [done|by intros []].
Qed.
End roundtrip.

(** ** Examples *)

Definition ex_digest : Sha512Half := fun x => replicate 31 (byte_of (Z.of_nat (length x))) ++ [x01].
#[local] Existing Instance ex_digest.

Definition ex_item : SHAMapItem := mkItem (replicate 32 x05) (replicate 12 x07).
Definition ex_leaf : anynode :=
  NodeV1 (TreeNode 3 (default zero256 (match leaf_hash tnACCOUNT_STATE ex_item with Ok h => Some h | _ => None end))
            tnACCOUNT_STATE ex_item).
Definition ex_hashes : list uint256 := replicate 32 x01 :: zero256 :: replicate 32 x02 :: replicate 13 zero256.
Definition ex_inner : anynode := NodeV1 (InnerNode 3 (inner_hash 5 ex_hashes) 5 ex_hashes no_children).

Lemma ex_raw_ok : raw_ok 5 ex_hashes.
Proof.
  split_and!; [done|by repeat constructor|lia|lia|]. intros i h Hi.
  do 16 (destruct i as [|i]; [injection Hi as <-; by vm_compute|]). done.
Qed.

Lemma node_raw_roundtrip_witness :
  ∃ raw, addRaw ex_inner snfWIRE [] = Ok raw
    ∧ make raw 9 snfWIRE (node_hash ex_inner) true NodeID_root = Ok (Some (detach 9 ex_inner))
    ∧ (snfWIRE = snfPREFIX → sha512Half raw = node_hash ex_inner).
Proof.
  apply (node_raw_roundtrip ex_inner snfWIRE NodeID_root 9 true); [done| |reflexivity].
  split; [apply ex_raw_ok|done].
Defined.

(** A prefix node of depth 65 writes behind its prefix. *)
Definition ex_deep : bytes := field_bytes uint32_t innerNodeV2 ++ replicate 512 x01 ++ [byte_of 65] ++ replicate 33 x00.

Lemma make_memory_safe_witness : make ex_deep 1 snfPREFIX zero256 true NodeID_root = Err undefined.
Proof.
  apply (make_memory_safe ex_deep 1 snfPREFIX zero256 true NodeID_root); [done|cbn; lia|].
  split; [done|]. split_and!; [by vm_compute; lia|by vm_compute|]. exists (byte_of 65). by vm_compute.
Defined.
