(* ===== verification/SHAV2.v ===== *)
(** * The prefix of a version 2 inner node

    [has_common_prefix], [get_common_prefix] and [setChildren] of
    [shamap/impl/SHAMapTreeNode.cpp] in terms of the digits of the keys. *)

From S2P Require Import Prelude Bytes NodeCodec Serializer SHANode SHAKeys SHAMapInv SHARaw.
Local Open Scope Z_scope.

(** ** Digits of a list of bytes *)

Lemma nib_SS i a l : nib (S (S i)) (a :: l) = nib i l.
Proof.
  unfold nib. replace (S (S i) / 2)%nat with (S (i / 2)); [done|].
  change (S (S i)) with (1 * 2 + i)%nat. by rewrite Nat.div_add_l.
Qed.

Lemma nib_0 a l : nib 0 (a :: l) = Z.to_nat (Z.shiftr (bval a) 4).
Proof. done. Qed.
Lemma nib_1 a l : nib 1 (a :: l) = Z.to_nat (Z.land (bval a) 0xf).
Proof. done. Qed.

Lemma nib_high a : high a = 16 * Z.shiftr (bval a) 4.
Proof. by destruct a. Qed.

Lemma digit_nonneg a : 0 <= Z.shiftr (bval a) 4.
Proof. apply Z.shiftr_nonneg. pose proof (bval_range a). lia. Qed.

Lemma high_spec a b x y : (high a =? high b) = Nat.eqb (nib 0 (a :: x)) (nib 0 (b :: y)).
Proof.
  rewrite !nib_0, !nib_high. pose proof (digit_nonneg a). pose proof (digit_nonneg b).
  destruct (Z.eqb_spec (16 * Z.shiftr (bval a) 4) (16 * Z.shiftr (bval b) 4)) as [E|E];
    symmetry; [apply Nat.eqb_eq|apply Nat.eqb_neq]; lia.
Qed.

Lemma byte_digits a b x y : nib 0 (a :: x) = nib 0 (b :: y) → nib 1 (a :: x) = nib 1 (b :: y) → a = b.
Proof.
  rewrite !nib_0, !nib_1. intros H0 H1. pose proof (bval_range a). pose proof (bval_range b).
  apply byte_nibbles; apply Z2Nat.inj; try done; (apply Z.shiftr_nonneg || apply Z.land_nonneg); lia.
Qed.

Lemma agree_cons d a x y : agree (S (S d)) (a :: x) (a :: y) ↔ agree d x y.
Proof.
  split.
  - intros Ha i Hi. specialize (Ha (S (S i)) ltac:(lia)). by rewrite !nib_SS in Ha.
  - intros Ha [|[|i]] Hi; [done|done|]. rewrite !nib_SS. apply Ha. lia.
Qed.

Lemma agree_1 x y : agree 1 x y ↔ nib 0 x = nib 0 y.
Proof. split; [intros Ha; apply Ha; lia|]. intros E [|i] Hi; [done|lia]. Qed.

(** ** Common prefixes *)

(** The longest common prefix of at most [d] digits. *)
Definition longest (d : nat) (x y : uint256) (c : nat) : Prop :=
  (c <= d)%nat ∧ agree c x y ∧ ((c < d)%nat → nib c x ≠ nib c y).

Definition digits (n : nat) (odd : bool) : nat := 2 * n + (if odd then 1 else 0).

(** Both loops stop at the first difference. *)
Lemma common_loops n : ∀ x y odd r,
  length x = length y → (digits n odd <= 2 * length x)%nat →
  ∃ c, longest (digits n odd) x y c ∧ get_common_loop n x y odd r = Ok (r + Z.of_nat c)
    ∧ common_loop n x y odd = Ok (bool_decide (c = digits n odd)).
Proof.
  induction n as [|n IH]; intros x y odd r Hl Hd.
  - destruct x as [|a x], y as [|b y]; try done.
    + destruct odd; [cbn in Hd; lia|]. exists 0%nat. cbn. split_and!; [split_and!; [lia|by intros ? ?%Nat.nlt_0_r|intros; unfold digits in *; lia]|f_equal; lia|done].
    + destruct odd; cbn [get_common_loop common_loop digits].
      * rewrite (high_spec a b x y). destruct (Nat.eqb_spec (nib 0 (a :: x)) (nib 0 (b :: y))) as [E|E].
        -- exists 1%nat. split_and!; [split_and!; [done|by apply agree_1|intros; unfold digits in *; lia]|done|done].
        -- exists 0%nat. split_and!; [split_and!; [lia|by intros ? ?%Nat.nlt_0_r|done]|f_equal; lia|done].
      * exists 0%nat. split_and!; [split_and!; [lia|by intros ? ?%Nat.nlt_0_r|intros; unfold digits in *; lia]|f_equal; lia|done].
  - destruct x as [|a x], y as [|b y]; try done; [unfold digits in Hd; cbn in Hd; lia|]. injection Hl as Hl.
    cbn [get_common_loop common_loop].
    assert (digits (S n) odd = S (S (digits n odd))) as Hds by (unfold digits; lia). rewrite Hds in *. cbn [length] in Hd.
    case_bool_decide as E; cbn [negb]; [subst b|].
    + destruct (IH x y odd (r + 2) Hl ltac:(lia)) as (c&(Hc&Ha&Hn)&Hg&Hh). exists (S (S c)). split_and!.
      * split_and!; [lia|by apply agree_cons|]. intros Hlt. rewrite !nib_SS. apply Hn. lia.
      * rewrite Hg. f_equal. lia.
      * rewrite Hh. f_equal. apply bool_decide_ext. lia.
    + rewrite (high_spec a b x y). destruct (Nat.eqb_spec (nib 0 (a :: x)) (nib 0 (b :: y))) as [E0|E0].
      * exists 1%nat. split_and!; [split_and!; [lia|by apply agree_1|]|done|by rewrite bool_decide_false by lia].
        intros _ E1. apply E. by eapply byte_digits.
      * exists 0%nat. split_and!; [split_and!; [lia|by intros ? ?%Nat.nlt_0_r|done]|f_equal; lia|by rewrite bool_decide_false by lia].
Qed.

Lemma depth_digits d : 0 <= d → digits (Z.to_nat (d / 2)) (Z.odd d) = Z.to_nat d.
Proof.
  intros Hd. unfold digits. pose proof (Zmod_odd d) as Ho. pose proof (Z.div_mod d 2 ltac:(lia)).
  assert (0 <= d / 2) by (apply Z.div_pos; lia). destruct (Z.odd d); lia.
Qed.

(** ** Two leaves *)

Lemma split_keys_ok k1 : ∀ k2 i,
  length k1 = length k2 → k1 ≠ k2 →
  ∃ pre a b x y, k1 = pre ++ a :: x ∧ k2 = pre ++ b :: y ∧ a ≠ b
    ∧ split_keys k1 k2 i = Ok ((i + length pre)%nat, a, b).
Proof.
  induction k1 as [|a k1 IH]; intros [|b k2] i Hl Hne; try done. injection Hl as Hl. cbn [split_keys].
  case_bool_decide as E.
  - subst b. destruct (IH k2 (S i) Hl ltac:(congruence)) as (pre&a'&b'&x&y&->&->&Hab&Hs).
    exists (a :: pre), a', b', x, y. split_and!; [done..|]. rewrite Hs. cbn [length]. do 3 f_equal. lia.
  - exists [], a, b, k1, k2. split_and!; [done..|]. cbn. do 3 f_equal. lia.
Qed.

Lemma nib_app pre x i : nib (2 * length pre + i) (pre ++ x) = nib i x.
Proof.
  induction pre as [|a pre IH]; [done|]. cbn [length app].
  replace (2 * S (length pre) + i)%nat with (S (S (2 * length pre + i))) by lia. by rewrite nib_SS.
Qed.

Lemma agree_app pre d x y : agree d x y → agree (2 * length pre + d) (pre ++ x) (pre ++ y).
Proof.
  intros Ha. induction pre as [|a pre IH]; [done|]. cbn [length app].
  replace (2 * S (length pre) + d)%nat with (S (S (2 * length pre + d))) by lia. by apply agree_cons.
Qed.

(** A new node, before its children are set. *)
Definition fresh_v2 (seq : Z) : InnerNodeV2 := mkV2 seq zero256 0 no_hashes no_children zero256 64.

Lemma common_set i a (k1 x : uint256) (hi : bool) (d : nat) :
  length k1 = 32%nat → k1 = take i k1 ++ a :: x → (i < 32)%nat →
  d = (2 * i + (if hi then 1 else 0))%nat →
  (let c := take i k1 ++ drop i zero256 in if hi then <[i := byte_of (high a)]> c else c)
  = uint256_and k1 (Masks d).
Proof.
  intros Hl Hk Hi Hd. assert (d < 65)%nat by (destruct hi; lia). cbv zeta.
  assert (d / 2 = i)%nat as Hdiv.
  { subst d. rewrite Nat.mul_comm, Nat.div_add_l by done. destruct hi; cbn; lia. }
  assert (length (take i k1) = i) as Hti by (rewrite length_take; lia).
  assert (length (take i k1 ++ drop i zero256) = 32%nat) as Hlc by (rewrite length_app, length_drop, Hti; cbn; lia).
  apply list_eq_same_length with 32%nat; [rewrite length_prefix; done|destruct hi; by rewrite ?length_insert|].
  intros j u v Hj Hu Hv. destruct (lookup_lt_is_Some_2 k1 j) as [b Hb]; [lia|].
  rewrite (lookup_prefix d k1 j b) in Hv by done. injection Hv as <-.
  assert (k1 !! i = Some a) as Hia by (rewrite Hk, lookup_app_r, Hti, Nat.sub_diag by lia; done).
  unfold mask_byte. rewrite Hdiv.
  assert (∀ u, (take i k1 ++ drop i zero256) !! j = Some u →
    u = byte_and b (if Nat.ltb j i then xff else x00)) as Hc.
  { intros w. destruct (Nat.ltb_spec j i) as [Hji|Hji].
    - rewrite lookup_app_l, lookup_take_lt, Hb by lia. intros [= <-]. symmetry. apply byte_and_ff.
    - rewrite lookup_app_r, lookup_drop by lia. intros Hw. apply lookup_replicate in Hw as [-> _]. by destruct b. }
  assert (Nat.odd d = hi) as ->.
  { subst d. destruct hi; [apply Nat.odd_odd|]. rewrite Nat.add_0_r. apply Nat.odd_even. }
  destruct (Nat.eqb_spec j i) as [->|Hji]; cbn [andb].
  - assert (b = a) as -> by congruence. rewrite Nat.ltb_irrefl in *. destruct hi; [|by apply Hc].
    rewrite list_lookup_insert_eq in Hu by lia. by injection Hu as <-.
  - apply Hc. destruct hi; [|done]. by rewrite list_lookup_insert_ne in Hu by done.
Qed.

(** The two branches of a node that splits at a digit. *)
Definition split_at (n : InnerNodeV2) (d : nat) (child1 child2 : loc) (k1 k2 : uint256) : Prop :=
  v2_depth n = Z.of_nat d ∧ v2_common n = mNodeID (prefix_id d k1)
  ∧ v2_isBranch n = Z.lor (Z.shiftl 1 (Z.of_nat (nib d k1))) (Z.shiftl 1 (Z.of_nat (nib d k2)))
  ∧ v2_children n = <[nib d k2 := Some child2]> (<[nib d k1 := Some child1]> no_children).

Lemma nib_digits a x : Z.of_nat (nib 0 (a :: x)) = Z.shiftr (bval a) 4 ∧ Z.of_nat (nib 1 (a :: x)) = Z.land (bval a) 0x0F.
Proof.
  rewrite nib_0, nib_1. pose proof (bval_range a).
  rewrite !Z2Nat.id; [done|apply Z.land_nonneg; lia|apply digit_nonneg].
Qed.

Lemma setChildren_ok seq child1 child2 k1 k2 :
  is_key k1 → is_key k2 → k1 ≠ k2 →
  ∃ n d, setChildren child1 child2 k1 k2 (fresh_v2 seq) = Ok n ∧ (d < 64)%nat
    ∧ agree d k1 k2 ∧ nib d k1 ≠ nib d k2 ∧ split_at n d child1 child2 k1 k2.
Proof.
  intros H1 H2 Hne. unfold setChildren. rewrite bool_decide_false by done. cbn [negb assert_].
  destruct (split_keys_ok k1 k2 0) as (pre&a&b&x&y&E1&E2&Hab&->); [by rewrite H1, H2|done|]. cbn [Nat.add mbind res_bind].
  assert (length pre < 32)%nat as Hp by (unfold is_key in H1; rewrite E1, length_app in H1; cbn in H1; lia).
  assert (k1 = take (length pre) k1 ++ a :: x) as Ht by (by rewrite E1 at 2; rewrite take_app_length).
  assert (∀ i, nib (2 * length pre + i) k1 = nib i (a :: x)) as N1 by (intros; by rewrite E1, nib_app).
  assert (∀ i, nib (2 * length pre + i) k2 = nib i (b :: y)) as N2 by (intros; by rewrite E2, nib_app).
  assert (∀ d, agree d (a :: x) (b :: y) → agree (2 * length pre + d) k1 k2) as Ag
    by (intros d Hd; rewrite E1, E2; by apply agree_app).
  cbn [fresh_v2 v2_common v2_isBranch v2_children v2_seq v2_hash v2_hashes].
  destruct (nib_digits a x) as [A0 A1], (nib_digits b y) as [B0 B1].
  rewrite (high_spec a b x y). destruct (Nat.eqb_spec (nib 0 (a :: x)) (nib 0 (b :: y))) as [E|E].
  - eexists _, (2 * length pre + 1)%nat. split; [reflexivity|]. unfold split_at. rewrite N1, N2.
    split_and!; [lia|by apply Ag, agree_1|intros Hn; apply Hab; by eapply byte_digits|cbn; lia| | |]; cbn [v2_common v2_isBranch v2_children prefix_id mNodeID].
    + by apply (common_set _ a k1 x true).
    + by rewrite A1, B1.
    + by rewrite <-A1, <-B1, !Nat2Z.id.
  - eexists _, (2 * length pre + 0)%nat. split; [reflexivity|]. unfold split_at. rewrite N1, N2.
    split_and!; [lia|apply Ag; by intros ? ?%Nat.nlt_0_r|done|cbn; lia| | |]; cbn [v2_common v2_isBranch v2_children prefix_id mNodeID].
    + by apply (common_set _ a k1 x false).
    + by rewrite A0, B0.
    + by rewrite <-A0, <-B0, !Nat2Z.id.
Qed.

(** get_common_prefix of a version 2 node is the length of the longest common prefix of
    the node's prefix and the key, and has_common_prefix says whether that is the whole
    prefix of the node. *)
Theorem v2_prefix_functions n key :
  0 <= v2_depth n <= 64 → length (v2_common n) = 32%nat → length key = 32%nat →
  (∃ c, longest (Z.to_nat (v2_depth n)) (v2_common n) key c ∧ get_common_prefix key n = Ok (Z.of_nat c))
  ∧ has_common_prefix key n = Ok (bool_decide (agree (Z.to_nat (v2_depth n)) (v2_common n) key)).
Proof.
  intros Hd Hc Hk. unfold get_common_prefix, has_common_prefix.
  pose proof (depth_digits (v2_depth n) ltac:(lia)) as Hdd.
  destruct (common_loops (Z.to_nat (v2_depth n / 2)) (v2_common n) key (Z.odd (v2_depth n)) 0)
    as (c&Hl&->&->); [by rewrite Hc, Hk|rewrite Hdd, Hc; lia|]. rewrite Hdd in *. split; [by exists c|].
  f_equal. apply bool_decide_ext. destruct Hl as (Hle&Ha&Hn). split; [by intros <-|]. intros Hall.
  destruct (decide (c < Z.to_nat (v2_depth n))%nat) as [Hlt|]; [|lia]. exfalso. by apply (Hn Hlt), Hall.
Qed.

Definition ex_v2 : InnerNodeV2 := mkV2 1 zero256 0 no_hashes no_children ([x12; x30] ++ replicate 30 x00) 3.

Lemma v2_prefix_functions_witness :
  (∃ c, longest 3 (v2_common ex_v2) ([x12; x40] ++ replicate 30 x00) c
        ∧ get_common_prefix ([x12; x40] ++ replicate 30 x00) ex_v2 = Ok (Z.of_nat c))
  ∧ has_common_prefix ([x12; x40] ++ replicate 30 x00) ex_v2
    = Ok (bool_decide (agree 3 (v2_common ex_v2) ([x12; x40] ++ replicate 30 x00))).
Proof. apply (v2_prefix_functions ex_v2 ([x12; x40] ++ replicate 30 x00)); [cbn; lia|reflexivity|reflexivity]. Defined.
