(* ===== verification/SHAStore.v ===== *)
(** * Tree nodes in the node store

    [writeNode] and [fetchNodeFromDB] of [shamap/impl/SHAMap.cpp] over the database of
    NodeDatabase.v: what is written under a node's hash is read back as that node. *)

From S2P Require Import Prelude Bytes Varint NodeCodec CodecLemmas CodecProps NodeBackend NodeDatabase.
From S2P Require Import Serializer SHANode SHAKeys SHAMapInv SHARaw SHARawProps.
Local Open Scope Z_scope.

(** A node behind a pointer of the base class. *)
Definition any_seq (n : anynode) : Z := match n with NodeV1 n => getSeq n | NodeV2 n => v2_seq n end.
Definition any_setSeq (s : Z) (n : anynode) : anynode :=
  match n with
  | NodeV1 n => NodeV1 (setSeq s n)
  | NodeV2 n => NodeV2 (mkV2 s (v2_hash n) (v2_isBranch n) (v2_hashes n) (v2_children n) (v2_common n) (v2_depth n))
  end.
Definition is_v2_node (n : anynode) : bool := match n with NodeV2 _ => true | _ => false end.
Definition any_isInner (n : anynode) : bool := match n with NodeV1 n => isInner n | NodeV2 _ => true end.

Section store.
Context `{!Sha512Half} `{!LZ4} `{!Nudb}.

(** [writeNode] on a backed map with sequence number [seq_]; [canonicalize] may put a node
    that is already in the cache in place of ours. *)
Definition writeNode (canonicalize : uint256 → anynode → anynode) (seq_ t : Z) (n : anynode) (db : DatabaseImp)
  : res (anynode * DatabaseImp) :=
  assert_ (any_seq n =? seq_);;
  let n := any_setSeq 0 n in
  let n := canonicalize (node_hash n) n in
  s ← addRaw n snfPREFIX [];
  db ← storeInternal (mkNodeObject t s (node_hash n)) db;
  Ok (n, db).

(** What [fetchNodeFromDB] makes of the object, on a backed map of version [is_v2], whose root
    is empty or not: a node of the other version is accepted into an empty map only.  Changing
    the empty root to that version and sharing the node through the cache of tree nodes
    ([canonicalize]) do not change the node that is returned. *)
Definition read_node (is_v2 root_isEmpty : bool) (hash : uint256) (obj : option NodeObject) : res (option anynode) :=
  match obj with
  | None => Ok None
  | Some obj =>
      catch
        (node ← make (mData obj) 0 snfPREFIX hash true NodeID_root;
         match node with
         | Some n =>
             (if any_isInner n && negb (Bool.eqb (is_v2_node n) is_v2) then assert_ root_isEmpty else Ok tt);;
             Ok (Some n)
         | None => Ok None
         end)
  end.

Definition fetchNodeFromDB (is_v2 root_isEmpty : bool) (hash : uint256) (db : DatabaseImp)
  : res (option anynode * DatabaseImp) :=
  '(obj, db) ← doFetch hash db;
  node ← read_node is_v2 root_isEmpty hash obj;
  Ok (node, db).

(** ** What a node is stored as *)

Lemma prefix_of_blob t p s h :
  0 <= p < 2 ^ 32 → prefix_of (blob (mkNodeObject t (field_bytes uint32_t p ++ s) h)) = p.
Proof.
  intros Hp. unfold prefix_of, blob, EncodedBlob_prepare. cbn [snd mType mData].
  match goal with |- readp _ ?b = _ => change b with (field_bytes uint32_t p) end. apply field_roundtrip. cbn [field_max]. lia.
Qed.

Lemma reshape_concat (hs : list bytes) rest :
  Forall (fun h => length h = 32%nat) hs →
  reshape (replicate (length hs) 32%nat) (take (length hs * 32) (concat hs ++ rest)) = hs.
Proof.
  intros Hh. rewrite take_app_le by (rewrite (length_concat_blocks 32) by done; lia).
  rewrite take_ge by (rewrite (length_concat_blocks 32) by done; lia). clear rest.
  induction Hh as [|h hs Hh _ IH]; [done|]. cbn [length replicate reshape concat].
  rewrite take_app_length', drop_app_length' by done. by rewrite IH.
Qed.

Lemma stored_count isb (hs : list bytes) : ∀ i,
  (∀ j h, hs !! j = Some h → isEmptyBranch isb (i + j) = isZero h) →
  length (stored hs) = length (filter (fun k => isEmptyBranch isb k = false) (seq i (length hs))).
Proof.
  induction hs as [|h hs IH]; intros i Hb; [done|]. cbn [length seq]. rewrite filter_cons.
  pose proof (Hb 0%nat h eq_refl) as Hz. rewrite Nat.add_0_r in Hz.
  assert (length (stored hs) = length (filter (fun k => isEmptyBranch isb k = false) (seq (S i) (length hs)))) as IH'
    by (apply IH; intros j h' Hj; specialize (Hb (S j) h' Hj); by rewrite Nat.add_succ_r in Hb).
  clear IH. unfold isZero in Hz. case_bool_decide as E.
  - rewrite stored_zero by done. rewrite decide_False; [done|]. by rewrite Hz.
  - rewrite stored_cons by done. rewrite decide_True by done. cbn [length]. by rewrite IH'.
Qed.

Lemma children_blob t p isb hs rest h :
  raw_ok isb hs →
  length (children (blob (mkNodeObject t (field_bytes uint32_t p ++ concat hs ++ rest) h))) = getBranchCount isb.
Proof.
  intros (Hl&Hh&_&Hb). pose proof (reshape_concat hs rest Hh) as Hr. rewrite Hl in Hr.
  unfold children. replace (hashes _) with hs by (symmetry; exact Hr).
  rewrite (stored_count isb hs 0) by done. by rewrite Hl.
Qed.

Lemma branch_count_pos isb hs : raw_ok isb hs → isb ≠ 0 → (0 < getBranchCount isb)%nat.
Proof.
  intros (_&_&Hr&_) Hne. unfold getBranchCount.
  destruct (filter _ (seq 0 16)) as [|x l] eqn:E; [exfalso|cbn; lia]. apply Hne. apply Z.bits_inj'. intros n Hn.
  rewrite Z.bits_0. destruct (decide (n < 16)) as [Hlt|Hge].
  - destruct (Z.testbit isb n) eqn:Ht; [exfalso|done].
    assert (Z.to_nat n ∈ filter (fun i => isEmptyBranch isb i = false) (seq 0 16)) as Hin; [|rewrite E in Hin; by apply elem_of_nil in Hin].
    apply list_elem_of_filter. split; [|apply elem_of_seq; lia]. by rewrite isEmptyBranch_spec, Z2Nat.id, Ht.
  - rewrite <-(Z.mod_small isb (2 ^ 16)) by done. apply Z.mod_pow2_bits_high. lia.
Qed.

(** What fits in the store: the codec needs two children in a version 2 inner node. *)
Definition fits_store (t : Z) (n : anynode) : Prop :=
  known_type t = true
  ∧ match n with
    | NodeV1 (TreeNode _ _ _ i) => Z.of_nat (length (item_data i)) <= LZ4_MAX_INPUT_SIZE - 64
    | NodeV1 _ => True
    | NodeV2 n => (2 <= getBranchCount (v2_isBranch n))%nat
    end.

Lemma plain_storable t p rest h :
  known_type t = true → 0 <= p < 2 ^ 32 → p ≠ innerNode → p ≠ innerNodeV2 →
  Z.of_nat (length rest) <= LZ4_MAX_INPUT_SIZE - 16 →
  storable (mkNodeObject t (field_bytes uint32_t p ++ rest) h).
Proof.
  intros Ht Hp Hn1 Hn2 Hl. split_and!; [done|done|rewrite length_blob; cbn [mData]; rewrite length_app; cbn; lia| |].
  - unfold is_inner_v1. rewrite prefix_of_blob, (proj2 (Z.eqb_neq _ _)) by done. by rewrite andb_false_r.
  - unfold is_inner_v2. rewrite prefix_of_blob, (proj2 (Z.eqb_neq _ _)) by done. by rewrite andb_false_r.
Qed.

Lemma leaf_storable t sq h ty item id s :
  fits_store t (NodeV1 (TreeNode sq h ty item)) → encodable snfPREFIX id (NodeV1 (TreeNode sq h ty item)) →
  leaf_addRaw h ty item snfPREFIX [] = Ok s → storable (mkNodeObject t s h).
Proof.
  destruct item as [key data]. intros [Ht Hlen] (Hk&Hd&Hty) Hs. cbn [item_key item_data] in *.
  destruct ty; try done; cbn [leaf_addRaw item_key item_data] in Hs; rewrite add32_bytes, app_nil_l in Hs; apply Ok_inj in Hs;
    unfold ser_addRaw, add256, append in Hs; cbn [snd] in Hs; rewrite <-?(assoc_L (++)) in Hs; subst s;
    (apply plain_storable; [done|by vm_compute|vm_compute; discriminate|vm_compute; discriminate|rewrite ?length_app; lia]).
Qed.

Lemma inner_storable t sq h isb hs ch id s :
  known_type t = true → encodable snfPREFIX id (NodeV1 (InnerNode sq h isb hs ch)) →
  inner_addRaw h isb hs snfPREFIX [] = Ok s → storable (mkNodeObject t s h).
Proof.
  intros Ht [Hok Hne] Hs. unfold inner_addRaw in Hs. rewrite (not_empty _ Hne), add_hashes_app, add32_bytes, app_nil_l in Hs.
  apply Ok_inj in Hs. subst s. pose proof (length_hashes16 isb hs Hok) as Hl.
  split_and!; [done|done|rewrite length_blob; cbn [mData]; rewrite length_app, Hl; vm_compute; discriminate| |].
  - intros _ E. apply (f_equal length) in E. rewrite <-(app_nil_r (concat hs)), (children_blob t _ isb) in E by done.
    pose proof (branch_count_pos isb hs Hok Hne). change (length []) with 0%nat in E. lia.
  - unfold is_inner_v2. by rewrite prefix_of_blob, andb_false_r by (by vm_compute).
Qed.

Lemma v2_storable t n id s :
  fits_store t (NodeV2 n) → encodable snfPREFIX id (NodeV2 n) →
  v2_addRaw n snfPREFIX [] = Ok s → storable (mkNodeObject t s (v2_hash n)).
Proof.
  intros [Ht Hbc] (Hok&Hne&Hd&Hc&Hl&_) Hs. cbn [v2_addRaw] in Hs. unfold common_bytes in Hs.
  fold (prefix_size (v2_depth n)) in Hs. pose proof (prefix_size_le _ Hd) as Hp.
  rewrite (proj2 (Nat.ltb_ge _ _)) in Hs by lia. cbn [mbind res_bind] in Hs. apply Ok_inj in Hs.
  rewrite add_hashes_app, add32_bytes, app_nil_l in Hs. unfold add8, append in Hs. cbn [snd] in Hs.
  rewrite <-!(assoc_L (++)) in Hs. subst s. set (c := take _ _).
  assert (length c = prefix_size (v2_depth n)) as Hcl by (subst c; rewrite length_take; lia).
  pose proof (length_hashes16 _ _ Hok) as Hlh.
  assert (length (blob (mkNodeObject t (field_bytes uint32_t innerNodeV2 ++ concat (v2_hashes n) ++ [byte_of (v2_depth n)] ++ c) (v2_hash n)))
    = (526 + length c)%nat) as Hlb.
  { rewrite length_blob. cbn [mData]. rewrite !length_app, Hlh. cbn. lia. }
  split_and!; [done|done|rewrite Hlb; unfold LZ4_MAX_INPUT_SIZE; lia| |].
  - unfold is_inner_v1. by rewrite prefix_of_blob, andb_false_r by (by vm_compute).
  - intros _. rewrite (children_blob t _ (v2_isBranch n)) by done. split; [|done].
    unfold exact_v2. apply Nat.eqb_eq. rewrite Hlb, Hcl. f_equal. unfold common_size, prefix_size. do 3 f_equal.
    unfold depth_of. unfold blob, EncodedBlob_prepare. cbn [snd mType mData replicate app drop field_bytes].
    fold (concat (v2_hashes n)). change (byte_of (v2_depth n) :: c) with ([byte_of (v2_depth n)] ++ c).
    replace (drop 512 (concat (v2_hashes n) ++ [byte_of (v2_depth n)] ++ c)) with ([byte_of (v2_depth n)] ++ c)
      by (rewrite <-Hlh; by rewrite drop_app_length).
    cbn. rewrite bval_byte_of, Z.mod_small; lia.
Qed.

Lemma node_storable t n id s :
  fits_store t n → encodable snfPREFIX id n → addRaw n snfPREFIX [] = Ok s → storable (mkNodeObject t s (node_hash n)).
Proof.
  intros Hf He Hs. destruct n as [[sq h isb hs ch|sq h ty i]|n]; cbn [addRaw node_hash getNodeHash] in *.
  - destruct Hf as [Ht _]. by eapply inner_storable.
  - by eapply leaf_storable.
  - by eapply v2_storable.
Qed.

Lemma addRaw_detach q n format s : addRaw (detach q n) format s = addRaw n format s.
Proof. by destruct n as [[]|[]]. Qed.

Lemma node_hash_detach q n : node_hash (detach q n) = node_hash n.
Proof. by destruct n as [[]|[]]. Qed.

Lemma detach_setSeq q s n : detach q (any_setSeq s n) = detach q n.
Proof. by destruct n as [[]|[]]. Qed.

Lemma detach_kind q n : any_isInner (detach q n) = any_isInner n ∧ is_v2_node (detach q n) = is_v2_node n.
Proof. by destruct n as [[]|[]]. Qed.

(** What is answered for a node, the caches left aside. *)
Definition node_answer (r : res (option anynode * DatabaseImp)) : res (option anynode) :=
  '(node, _) ← r;
  Ok node.

Lemma fetchNode_other is_v2 root_isEmpty h db db' :
  answer (doFetch h db') = answer (doFetch h db) →
  node_answer (fetchNodeFromDB is_v2 root_isEmpty h db') = node_answer (fetchNodeFromDB is_v2 root_isEmpty h db).
Proof.
  unfold fetchNodeFromDB. destruct (doFetch h db') as [[o d]|], (doFetch h db) as [[o' d']|]; cbn; try done; [|by intros [= ->]].
  intros [= ->]. by destruct (read_node _ _ _ _).
Qed.

(** C22: A tree node of the current sequence, with an up-to-date hash not yet in the
    backend, that the prefix format can hold (keys of 32 bytes, hashes matching the
    branches, a non-zero key for account state, the digest as the key of a transaction),
    of a known object type, with item data below the limit of LZ4 and, for a version 2
    inner node, at least two children, and of the version of the map if it is an inner
    node: writing it through writeNode, the caches of the database, the NuDB backend and
    its codec throws only when the database does; after it succeeded fetchNodeFromDB
    gives the node back for its hash, from the cache or from the backend, whatever the
    caches have forgotten, and every other hash is answered as before. The cache of tree
    nodes is taken to hold nodes of the same contents under a hash. *)
Theorem stored_node_read_back `{!LZ4Laws, !NudbLaws} canonicalize seq t n db is_v2 root_isEmpty
  (Hcan : ∀ h n, detach 0 (canonicalize h n) = detach 0 n)
  (Hfit : fits_store t n) (Henc : encodable snfPREFIX NodeID_root n) (Hhash : hashed n)
  (Hseq : any_seq n = seq) (Hv : any_isInner n = true → is_v2_node n = is_v2)
  (Habs : db_fetch (node_hash n) (m_backend db) = inr key_not_found) :
  (writeNode canonicalize seq t n db = Err exception_thrown
   ∨ ∃ n' db', writeNode canonicalize seq t n db = Ok (n', db'))
  ∧ (accepts (node_hash n) (m_backend db) → ∃ n' db', writeNode canonicalize seq t n db = Ok (n', db'))
  ∧ ∀ n' db', writeNode canonicalize seq t n db = Ok (n', db') →
      (∀ db1, forgets db' db1 → ∃ db2, fetchNodeFromDB is_v2 root_isEmpty (node_hash n) db1 = Ok (Some (detach 0 n), db2))
      ∧ ∀ h, h ≠ node_hash n →
          node_answer (fetchNodeFromDB is_v2 root_isEmpty h db') = node_answer (fetchNodeFromDB is_v2 root_isEmpty h db).
Proof.
  destruct (raw_roundtrip n snfPREFIX NodeID_root 0 true ltac:(done) Henc Hhash) as (raw&Hraw&Hmake&_).
  pose proof (node_storable t n NodeID_root raw Hfit Henc Hraw) as Hst.
  unfold writeNode. rewrite (proj2 (Z.eqb_eq _ _)) by done. cbn [assert_ mbind res_bind].
  set (n1 := canonicalize _ _).
  assert (detach 0 n1 = detach 0 n) as Hd by (unfold n1; by rewrite Hcan, detach_setSeq).
  rewrite <-(addRaw_detach 0 n1), Hd, addRaw_detach, Hraw. cbn [mbind res_bind].
  rewrite <-(node_hash_detach 0 n1), Hd, node_hash_detach. set (no := mkNodeObject t raw (node_hash n)).
  destruct (codec_storable no Hst) as (c&Hc&_). split_and!.
  - unfold storeInternal, store, do_insert. change (EncodedBlob_prepare no) with (node_hash n, blob no). cbn iota. rewrite Hc.
    cbn [mbind res_bind]. destruct (db_insert _ c _) as [db' []]; cbn; eauto.
  - intros Ha. destruct (store_accepted no (m_backend db) c Hc Ha) as (db'&Hs&_). unfold storeInternal. rewrite Hs. cbn. eauto.
  - intros n' db' Hw. destruct (storeInternal no db) as [db1|] eqn:Hs; [|done]. apply Ok_inj in Hw as [= _ ->]. split.
    + intros db1 Hf. destruct (store_doFetch no db db' db1 Hst Habs Hs Hf) as (obj&db2&Hfetch&Hobj). exists db2.
      change (mHash no) with (node_hash n) in Hfetch. unfold fetchNodeFromDB. rewrite Hfetch. cbn [mbind res_bind read_node].
      assert (mData obj = raw) as -> by (by destruct Hobj as [->| ->]).
      cbn [make] in *. rewrite Hmake. cbn [mbind res_bind]. destruct (detach_kind 0 n) as [-> ->].
      destruct (any_isInner n); cbn [andb]; [|done]. by rewrite Hv, Bool.eqb_reflx.
    + intros h Hh. apply fetchNode_other. by apply (store_other no db db' h Habs Hs).
Qed.
End store.

#[local] Existing Instance ex_digest.
#[local] Existing Instance lz4_store.
#[local] Existing Instance lz4_store_laws.
#[local] Existing Instance nudb_assoc.
#[local] Existing Instance nudb_assoc_laws.

(** The node is read back when the caches forgot everything. *)
Definition demo_database : DatabaseImp := mkDatabase ∅ ∅ demo_db.

Lemma stored_node_read_back_witness :
  ∃ n' db' db2, writeNode (fun _ n => n) 3 hotACCOUNT_NODE ex_inner demo_database = Ok (n', db')
    ∧ fetchNodeFromDB false true (node_hash ex_inner) (mkDatabase ∅ ∅ (m_backend db')) = Ok (Some (detach 0 ex_inner), db2).
Proof.
  destruct (stored_node_read_back (fun _ n => n) 3 hotACCOUNT_NODE ex_inner demo_database false true) as (_&Ha&H);
    [done|split; [by vm_compute|done]|split; [apply ex_raw_ok|done]|done|done|done|done|].
  destruct Ha as (n'&db'&Hw); [intros v; reflexivity|]. destruct (H n' db' Hw) as [Hr _].
  destruct (Hr (mkDatabase ∅ ∅ (m_backend db'))) as [db2 Hdb2]; [split_and!; [apply map_empty_subseteq|set_solver|done]|].
  exists n', db', db2. split; [exact Hw|exact Hdb2].
Defined.
