(* ===== verification/SHAMapSteps.v ===== *)
(** * Steps of the operations on a hash tree

    How a footprint may change, the path an operation walked down and has to update on its
    way up, and the two steps of an update: making a node one's own and setting a child. *)

From S2P Require Import Prelude Bytes NodeCodec SHANode SHAKeys SHAMap SHAMapInv.
Local Open Scope Z_scope.

(** ** Footprints *)

(** A computation that owns [fp] writes there and to new nodes only, and ends up owning
    [fp']. *)
Record evolves (h : heap) (fp : gset loc) (h' : heap) (fp' : gset loc) : Prop := {
  ev_step x n : h !! x = Some n → getSeq n = 0 ∨ x ∉ fp → h' !! x = Some n;
  ev_fp x : x ∈ fp' → x ∈ fp ∨ x ∉ dom h;
  ev_dom : dom h ⊆ dom h'
}.

Lemma evolves_refl h fp : evolves h fp h fp.
Proof. split; [done|by left|done]. Qed.

Lemma evolves_trans h fp h1 fp1 h2 fp2 :
  evolves h fp h1 fp1 → evolves h1 fp1 h2 fp2 → evolves h fp h2 fp2.
Proof.
  intros H1 H2. split.
  - intros x n Hx Hor. apply (ev_step _ _ _ _ H2); [by apply (ev_step _ _ _ _ H1)|].
    destruct Hor as [?|Hn]; [by left|right]. intros [?|Hd]%(ev_fp _ _ _ _ H1); [done|].
    apply Hd. by apply elem_of_dom_2 in Hx.
  - intros x [Hx|Hx]%(ev_fp _ _ _ _ H2); [by apply (ev_fp _ _ _ _ H1)|].
    right. intros Hd. apply Hx. by apply (ev_dom _ _ _ _ H1).
  - etrans; [apply (ev_dom _ _ _ _ H1)|apply (ev_dom _ _ _ _ H2)].
Qed.

Lemma evolves_frame h fp h' fp' X :
  evolves h fp h' fp' → evolves h (fp ∪ X) h' (fp' ∪ X).
Proof.
  intros He. split.
  - intros x n Hx Hor. apply (ev_step _ _ _ _ He); [done|]. set_solver.
  - intros x [Hx|?]%elem_of_union; [|set_solver]. apply (ev_fp _ _ _ _ He) in Hx. set_solver.
  - apply (ev_dom _ _ _ _ He).
Qed.

Lemma evolves_weaken h fp h' fp' fp0 fp1 :
  evolves h fp h' fp' → fp ⊆ fp0 → fp1 ⊆ fp' → evolves h fp0 h' fp1.
Proof.
  intros He H0 H1. split.
  - intros x n Hx Hor. apply (ev_step _ _ _ _ He); [done|]. set_solver.
  - intros x Hx. apply H1, (ev_fp _ _ _ _ He) in Hx. set_solver.
  - apply (ev_dom _ _ _ _ He).
Qed.

Lemma evolves_preserved h fp h' fp' X : evolves h fp h' fp' → X ## fp → preserved h h' X.
Proof. intros He Hd q n Hq Hor. apply (ev_step _ _ _ _ He); [done|]. set_solver. Qed.

Lemma preserved_trans h h1 h2 X : preserved h h1 X → preserved h1 h2 X → preserved h h2 X.
Proof. intros H1 H2 q n Hq Hor. apply H2; [by apply H1|done]. Qed.

Lemma evolves_disjoint h fp h' fp' X :
  evolves h fp h' fp' → X ## fp → X ⊆ dom h → X ## fp'.
Proof. intros He Hd Hs x Hx [?|?]%(ev_fp _ _ _ _ He); set_solver. Qed.

Lemma evolves_alloc h n : evolves h ∅ (<[fresh (dom h) := n]> h) {[fresh (dom h)]}.
Proof.
  pose proof (is_fresh (dom h)) as Hf. split.
  - intros x n' Hx _. rewrite lookup_insert_ne; [done|]. intros <-. apply Hf. by apply elem_of_dom_2 in Hx.
  - intros x ->%elem_of_singleton. by right.
  - set_solver.
Qed.

Lemma evolves_save h p n fp : p ∈ fp → (∀ n0, h !! p = Some n0 → getSeq n0 ≠ 0) → evolves h fp (<[p := n]> h) fp.
Proof.
  intros Hp Hs. split.
  - intros x n' Hx Hor. rewrite lookup_insert_ne; [done|]. intros <-. destruct Hor as [Hz|?]; [|done].
    by apply (Hs n').
  - by left.
  - set_solver.
Qed.

(** ** Running *)

Lemma St_bind_ok {A B} (m : St A) (f : A → St B) h a h' :
  m h = Ok (a, h') → (m ≫= f) h = f a h'.
Proof. intros E. unfold mbind, St_bind. by rewrite E. Qed.
Lemma load_ok h p n : h !! p = Some n → load p h = Ok (n, h).
Proof. intros E. unfold load. by rewrite E. Qed.
Lemma lift_ok {A} (r : res A) a h : r = Ok a → lift r h = Ok (a, h).
Proof. by intros ->. Qed.
Lemma assert_run (b : bool) h : b = true → lift (assert_ b) h = Ok (tt, h).
Proof. by intros ->. Qed.

(** One step of a computation whose first part succeeds. *)
Ltac run H := rewrite (St_bind_ok _ _ _ _ _ H); cbv beta iota.
Ltac run_load := let H := fresh in
  match goal with E : _ !! ?p = Some _ |- context [load ?p] => run (load_ok _ _ _ E) end.

Section steps.
Context `{!Sha512Half} (T : TNType).
Abbreviation repr := (repr T).
Abbreviation root_repr := (root_repr T).

(** The nodes of a footprint have the sequence number of the map. *)
Lemma inner_fp (R : loc → contents → gset loc → Prop) n d h s p M fp x :
  (∀ q N f, R q N f → x ∈ f → ∃ nd, h !! x = Some nd ∧ getSeq nd = s) →
  inner_ok T R n d h s p M fp → x ∈ fp → ∃ nd, h !! x = Some nd ∧ getSeq nd = s.
Proof.
  intros HR (sq&hash&isb&hs&ch&fps&Hp&Hsh&Hch&Hown) Hx.
  destruct Hown as [(_&->&_)|(->&_&_&->&_)]; [set_solver|].
  apply elem_of_union in Hx as [->%elem_of_singleton|Hx]; [eauto|].
  apply elem_of_fp_union in Hx as (i&Hi&Hx).
  destruct (lookup_lt_is_Some_2 ch i) as [c Hc]; [rewrite (is_children _ _ _ Hsh); lia|].
  specialize (Hch i c Hc). destruct c as [q|]; simpl in Hch; [by eapply HR; [apply Hch|]|].
  destruct Hch as [_ E]. rewrite E in Hx. set_solver.
Qed.

Lemma repr_fp n : ∀ d h s p M fp x,
  repr n d h s p M fp → x ∈ fp → ∃ nd, h !! x = Some nd ∧ getSeq nd = s.
Proof.
  induction n as [|n IH]; intros d h s p M fp x [Hl|[_ Hi]] Hx; try done.
  - destruct Hl as (sq&k&v&Hp&_&[[_ ->]|[-> ->]]); [set_solver|].
    apply elem_of_singleton in Hx as ->. eauto.
  - destruct Hl as (sq&k&v&Hp&_&[[_ ->]|[-> ->]]); [set_solver|].
    apply elem_of_singleton in Hx as ->. eauto.
  - eapply inner_fp; [|done..]. intros q N f. apply IH.
Qed.

Lemma root_fp h s p M fp x :
  root_repr h s p M fp → x ∈ fp → ∃ nd, h !! x = Some nd ∧ getSeq nd = s.
Proof. intros Hr Hx. eapply inner_fp; [|done..]. intros q N f. apply repr_fp. Qed.

Lemma repr_dom n d h s p M fp : repr n d h s p M fp → fp ⊆ dom h.
Proof. intros Hr x Hx. destruct (repr_fp _ _ _ _ _ _ _ _ Hr Hx) as (nd&Hn&_). by apply elem_of_dom_2 in Hn. Qed.
Lemma root_dom h s p M fp : root_repr h s p M fp → fp ⊆ dom h.
Proof. intros Hr x Hx. destruct (root_fp _ _ _ _ _ _ Hr Hx) as (nd&Hn&_). by apply elem_of_dom_2 in Hn. Qed.

(** ** An inner node but for one child *)

Definition fupd (b : nat) (X : gset loc) (fps : nat → gset loc) : nat → gset loc :=
  fun i => if decide (i = b) then X else fps i.

Lemma fupd_eq b X fps : fupd b X fps b = X.
Proof. unfold fupd. by rewrite decide_True. Qed.
Lemma fupd_ne b X fps i : i ≠ b → fupd b X fps i = fps i.
Proof. intros Hi. unfold fupd. by rewrite decide_False. Qed.

Lemma fp_union_fupd fps b X :
  (b < 16)%nat → fp_union (fupd b X fps) = fp_union (fupd b ∅ fps) ∪ X.
Proof.
  intros Hb. apply set_eq. intros x. rewrite elem_of_union, !elem_of_fp_union. unfold fupd. split.
  - intros (i&Hi&Hx). case_decide; [by right|]. left. exists i. by rewrite decide_False.
  - intros [(i&Hi&Hx)|Hx]; [|exists b; by rewrite decide_True].
    case_decide; [set_solver|]. exists i. by rewrite decide_False.
Qed.
Lemma fp_union_split fps b : (b < 16)%nat → fp_union fps = fp_union (fupd b ∅ fps) ∪ fps b.
Proof.
  intros Hb. rewrite <-fp_union_fupd by done. unfold fp_union. f_equal. apply list_fmap_ext.
  intros i j _. unfold fupd. by case_decide; subst.
Qed.

Definition fps_disjoint (fps : nat → gset loc) : Prop :=
  ∀ i j, (i < 16)%nat → (j < 16)%nat → i ≠ j → fps i ## fps j.

Lemma fps_disjoint_but fps b : fps_disjoint fps → fps_disjoint (fupd b ∅ fps).
Proof. intros Hd i j Hi Hj Hij. unfold fupd. repeat case_decide; try set_solver. by apply Hd. Qed.
Lemma fps_disjoint_fupd fps b X :
  fps_disjoint fps → X ## fp_union fps → fps_disjoint (fupd b X fps).
Proof.
  intros Hd HX. assert (∀ i, (i < 16)%nat → X ## fps i) as HX'.
  { intros i Hi x Hx Hi'. apply (HX x Hx). apply elem_of_fp_union. eauto. }
  intros i j Hi Hj Hij. unfold fupd. repeat case_decide; subst; [done|by apply HX'|symmetry; by apply HX'|].
  by apply Hd.
Qed.
Lemma fps_disjoint_split fps b :
  fps_disjoint fps → (b < 16)%nat → fp_union (fupd b ∅ fps) ## fps b.
Proof.
  intros Hd Hb x Hx Hxb. apply elem_of_fp_union in Hx as (i&Hi&Hx). unfold fupd in Hx.
  case_decide as Hib; [set_solver|]. by apply (Hd i b Hi Hb Hib x).
Qed.

(** The footprint of a node and of its children but one. *)
Definition own_but (s : Z) (p : loc) (sq : Z) (fpn : gset loc) (fps : nat → gset loc) : Prop :=
  (sq = 0 ∧ fpn = ∅ ∧ ∀ i, fps i = ∅)
  ∨ (sq = s ∧ p ∉ fp_union fps ∧ fpn = {[p]} ∪ fp_union fps ∧ fps_disjoint fps).

(** The node at [p] is right for [N] but for branch [b], where its child is [c]; [sq] is its
    sequence number. *)
Definition node_but (h : heap) (s : Z) (d b : nat) (p : loc) (sq : Z) (c : option loc)
    (N : contents) (fpn : gset loc) : Prop :=
  ∃ hash isb hs ch fps,
    h !! p = Some (InnerNode sq hash isb hs ch) ∧ inner_shape hs isb ch
    ∧ ch !! b = Some c ∧ fps b = ∅
    ∧ (∀ i c, i ≠ b → ch !! i = Some c →
         child_ok (repr (63 - d) (S d) h s) c (sub d i N) (fps i))
    ∧ own_but s p sq fpn fps.

Abbreviation inner_at d h s := (inner_ok T (repr (63 - d) (S d) h s) (63 - d) d h s).

Lemma inner_split h s d b p N fp :
  (b < 16)%nat → inner_at d h s p N fp →
  ∃ sq hash isb hs ch c fpn fpc,
    h !! p = Some (InnerNode sq hash isb hs ch) ∧ inner_shape hs isb ch
    ∧ ch !! b = Some c ∧ child_ok (repr (63 - d) (S d) h s) c (sub d b N) fpc
    ∧ node_but h s d b p sq c N fpn ∧ fpn ## fpc ∧ fp = fpn ∪ fpc.
Proof.
  intros Hb (sq&hash&isb&hs&ch&fps&Hp&Hsh&Hch&Hown).
  destruct (lookup_lt_is_Some_2 ch b) as [c Hc]; [rewrite (is_children _ _ _ Hsh); lia|].
  assert (∃ fpn, own_but s p sq fpn (fupd b ∅ fps) ∧ fpn ## fps b ∧ fp = fpn ∪ fps b)
    as (fpn&Hob&Hdis&Hfp).
  { destruct Hown as [(->&->&Hf&_)|(->&_&Hpn&->&Hd)].
    - exists ∅. rewrite Hf. split_and!; [|set_solver..]. left. split_and!; [done..|].
      intros i. unfold fupd. by case_decide.
    - exists ({[p]} ∪ fp_union (fupd b ∅ fps)). rewrite (fp_union_split fps b Hb) in *.
      pose proof (fps_disjoint_split fps b Hd Hb). split_and!; [|set_solver..].
      right. split_and!; [done|set_solver|done|]. by apply fps_disjoint_but. }
  exists sq, hash, isb, hs, ch, c, fpn, (fps b). split_and!; [done..| | |done|done].
  - by apply Hch.
  - exists hash, isb, hs, ch, (fupd b ∅ fps). split_and!; [done|done|done| | |done].
    + apply fupd_eq.
    + intros i c' Hi Hc'. rewrite fupd_ne by done. by apply Hch.
Qed.

Lemma node_but_frame h h' s d b p sq c N fpn :
  node_but h s d b p sq c N fpn → preserved h h' fpn → node_but h' s d b p sq c N fpn.
Proof.
  intros (hash&isb&hs&ch&fps&Hp&Hsh&Hcb&Hb&Hch&Hown) Hpr.
  exists hash, isb, hs, ch, fps. split_and!; [|done|done|done| |done].
  - apply Hpr; [done|]. destruct Hown as [(->&_)|(_&_&->&_)]; [by left|right; set_solver].
  - intros i c' Hi Hc. eapply child_ok_impl; [|by apply Hch]. intros q Hq.
    eapply repr_frame; [done|]. eapply preserved_mono; [|done].
    apply lookup_lt_Some in Hc. rewrite (is_children _ _ _ Hsh) in Hc.
    destruct Hown as [(_&_&Hf)|(_&_&->&_)]; [rewrite Hf; set_solver|].
    intros x Hx. apply elem_of_union. right. apply elem_of_fp_union. eauto.
Qed.

Lemma node_but_ext h s d b p sq c N N' fpn :
  node_but h s d b p sq c N fpn → (∀ i, i ≠ b → sub d i N' = sub d i N) →
  node_but h s d b p sq c N' fpn.
Proof.
  intros (hash&isb&hs&ch&fps&Hp&Hsh&Hcb&Hb&Hch&Hown) HN.
  exists hash, isb, hs, ch, fps. split_and!; [done..| |done]. intros i c' Hi Hc. rewrite HN by done. by apply Hch.
Qed.

Lemma node_but_dom h s d b p sq c N fpn : node_but h s d b p sq c N fpn → fpn ⊆ dom h.
Proof.
  intros (hash&isb&hs&ch&fps&Hp&Hsh&Hcb&Hb&Hch&[(_&->&_)|(_&_&->&_)]) x Hx; [set_solver|].
  apply elem_of_union in Hx as [->%elem_of_singleton|Hx]; [by apply elem_of_dom_2 in Hp|].
  apply elem_of_fp_union in Hx as (i&Hi&Hx). destruct (decide (i = b)) as [->|Hne]; [set_solver|].
  destruct (lookup_lt_is_Some_2 ch i) as [c' Hc]; [rewrite (is_children _ _ _ Hsh); lia|].
  specialize (Hch i c' Hne Hc). destruct c' as [q|]; simpl in Hch.
  - eapply repr_dom; [apply Hch|done].
  - destruct Hch as [_ E]. rewrite E in Hx. set_solver.
Qed.

(** ** Making a node one's own *)

Lemma fresh_ne (h : heap) q n : h !! q = Some n → q ≠ fresh (dom h).
Proof. intros Hq ->. apply (is_fresh (dom h)). by apply elem_of_dom_2 in Hq. Qed.

Lemma preserved_alloc (h : heap) n X : preserved h (<[fresh (dom h) := n]> h) X.
Proof. intros q n' Hq _. rewrite lookup_insert_ne; [done|]. symmetry. by eapply fresh_ne. Qed.

Lemma fp_union_empty fps : (∀ i, fps i = ∅) → fp_union fps = ∅.
Proof. intros Hf. apply set_eq. intros x. rewrite elem_of_fp_union. set_solver. Qed.

(** A map with another root. *)
Definition moved (m : SHAMap) (r : loc) (m' : SHAMap) : Prop :=
  seq_ m' = seq_ m ∧ state_ m' = state_ m ∧ root_ m' = r.

Lemma unshare_but h m d b p sq nid c N fpn :
  node_but h (seq_ m) d b p sq c N fpn → 0 < seq_ m → state_ m ≠ Immutable →
  (isRoot nid = true → root_ m = p) →
  ∃ q m' h' fpn', unshareNode p nid m h = Ok ((q, m'), h')
    ∧ node_but h' (seq_ m) d b q (seq_ m) c N fpn' ∧ evolves h fpn h' fpn' 
    ∧ moved m (if isRoot nid then q else root_ m) m'.
Proof.
  intros Hn Hpos Hst Hroot. pose proof Hn as (hash&isb&hs&ch&fps&Hp&Hsh&Hcb&Hb&Hch&Hown).
  unfold unshareNode. run_load. run (assert_run true h eq_refl).
  assert (sq <= seq_ m) as Hle by (destruct Hown as [(->&_)|(->&_)]; lia). simpl getSeq.
  run (assert_run (sq <=? seq_ m) h ltac:(by apply Z.leb_le)).
  destruct (Z.eqb_spec sq (seq_ m)) as [->|Hne]; cbn [negb].
  - exists p, m, h, fpn. split_and!; [done|done|apply evolves_refl|].
    repeat split. destruct (isRoot nid); [by apply Hroot|done].
  - destruct Hown as [(->&->&Hf)|(->&_)]; [|done].
    run (assert_run (negb (bool_decide (state_ m = Immutable))) h ltac:(by rewrite bool_decide_false)).
    cbn [clone]. run (lift_ok (Ok (InnerNode (seq_ m) hash isb hs ch)) _ h eq_refl).
    run (assert_run true h eq_refl). set (n' := InnerNode (seq_ m) hash isb hs ch).
    run (eq_refl : alloc n' h = Ok (fresh (dom h), <[fresh (dom h) := n']> h)).
    set (q := fresh (dom h)). set (h' := <[q := n']> h).
    exists q, (if isRoot nid then set_root q m else m), h', {[q]}. split_and!; [done| | |].
    + exists hash, isb, hs, ch, fps. split_and!; [by apply lookup_insert_eq|done|done|done| |].
      * intros i c' Hi Hc. eapply child_ok_impl; [|by apply Hch]. intros q' Hq'.
        eapply repr_frame; [done|]. apply preserved_alloc.
      * right. rewrite fp_union_empty by done. split_and!; [done|set_solver..|].
        intros i j _ _ _. rewrite Hf. set_solver.
    + apply evolves_alloc.
    + by destruct (isRoot nid).
Qed.

(** ** Setting a child *)

Lemma shape_setChild hs isb ch b c :
  inner_shape hs isb ch → (b < 16)%nat →
  inner_shape (<[b := zero256]> hs)
    (match c with
     | Some _ => Z.lor isb (Z.shiftl 1 (Z.of_nat b))
     | None => Z.land isb (Z.lnot (Z.shiftl 1 (Z.of_nat b)))
     end) (<[b := c]> ch).
Proof.
  intros [Hh Hc Hbits He Hz] Hb. split.
  - by rewrite length_insert.
  - by rewrite length_insert.
  - intros j. destruct (decide (j = b)) as [->|Hne].
    + rewrite list_lookup_insert_eq by lia. destruct c.
      * rewrite set_bit_spec, Z.eqb_refl by lia. done.
      * rewrite clear_bit_spec, Z.eqb_refl by lia. done.
    + rewrite list_lookup_insert_ne by done. rewrite <-Hbits. destruct c.
      * rewrite set_bit_spec by lia. by rewrite (proj2 (Z.eqb_neq _ _)) by lia.
      * rewrite clear_bit_spec by lia. by rewrite (proj2 (Z.eqb_neq _ _)) by lia.
  - intros i. destruct (decide (i = b)) as [->|Hne].
    + intros _. apply list_lookup_insert_eq. lia.
    + rewrite !list_lookup_insert_ne by done. apply He.
  - destruct c.
    + apply Z.lor_nonneg. split; [done|]. apply Z.shiftl_nonneg. lia.
    + apply Z.land_nonneg. by left.
Qed.

(** A write to a node outside a footprint that is nobody's. *)
Lemma preserved_save (h : heap) p n0 n X :
  h !! p = Some n0 → getSeq n0 ≠ 0 → p ∉ X → preserved h (<[p := n]> h) X.
Proof.
  intros Hp Hs HX q n' Hq Hor. rewrite lookup_insert_ne; [done|]. intros <-.
  rewrite Hp in Hq. injection Hq as <-. by destruct Hor.
Qed.

Lemma repr_root_in n d h s p N fp nd :
  repr n d h s p N fp → h !! p = Some nd → getSeq nd ≠ 0 → p ∈ fp.
Proof.
  intros Hr Hp Hs. assert (leaf_ok T h s p N fp ∨ ∃ n', n = S n' ∧ inner_ok T (repr n' (S d) h s) n' d h s p N fp)
    as [Hl|(n'&->&Hi)] by (destruct n; destruct Hr as [?|[_ ?]]; eauto; done).
  - destruct Hl as (sq&k&v&Hp'&_&Ho). simplify_eq/=. destruct Ho as [[? _]|[_ ->]]; [done|set_solver].
  - destruct Hi as (sq&hash&isb&hs&ch&fps&Hp'&_&_&Ho). simplify_eq/=.
    destruct Ho as [(?&_)|(_&_&_&->&_)]; [done|set_solver].
Qed.

Lemma setChild_but h s d b p c0 N N' fpn c fpc :
  node_but h s d b p s c0 N fpn → s ≠ 0 → (b < 16)%nat →
  (∀ i, i ≠ b → sub d i N' = sub d i N) →
  child_ok (repr (63 - d) (S d) h s) c (sub d b N') fpc → fpn ## fpc →
  ∃ h', setChild_at p b c h = Ok (tt, h') ∧ inner_at d h' s p N' (fpn ∪ fpc)
    ∧ p ∈ fpn ∧ evolves h (fpn ∪ fpc) h' (fpn ∪ fpc).
Proof.
  intros (hash&isb&hs&ch&fps&Hp&Hsh&Hcb&Hb&Hch&Hown) Hs0 Hb16 HN Hc Hdis.
  destruct Hown as [(?&_)|(_&Hpn&Hfpn&Hd)]; [done|].
  assert (c ≠ Some p) as Hcp.
  { intros ->. destruct Hc as [_ Hc]. eapply repr_root_in in Hc; [|done|done]. set_solver. }
  unfold setChild_at. run_load. unfold setChild.
  rewrite (proj2 (Nat.ltb_lt b 16)) by done. rewrite (proj2 (Z.eqb_neq s 0)) by done.
  rewrite bool_decide_false by done. cbn [assert_ negb mbind res_bind].
  set (n' := InnerNode _ _ _ _ _). run (lift_ok (Ok n') _ h eq_refl).
  exists (<[p := n']> h). split; [done|]. assert (p ∈ fpn) as Hpin by set_solver.
  assert (∀ X, p ∉ X → preserved h (<[p := n']> h) X) as Hpr
    by (intros X HX; by eapply preserved_save).
  split_and!; [|done|apply evolves_save; [set_solver|by intros n0 Hn0; simplify_eq]].
  eexists s, zero256, _, _, _, (fupd b fpc fps).
  split_and!; [apply lookup_insert_eq|by apply shape_setChild| |].
  - intros i c' Hi. destruct (decide (i = b)) as [->|Hne].
    + rewrite list_lookup_insert_eq in Hi by (rewrite (is_children _ _ _ Hsh); lia).
      injection Hi as <-. rewrite fupd_eq. eapply child_ok_impl; [|done]. intros q Hq.
      eapply repr_frame; [done|]. apply Hpr. set_solver.
    + rewrite list_lookup_insert_ne in Hi by done. rewrite fupd_ne, HN by done.
      eapply child_ok_impl; [|by apply Hch]. intros q Hq. eapply repr_frame; [done|].
      apply Hpr. intros Hin. apply Hpn, elem_of_fp_union. apply lookup_lt_Some in Hi.
      rewrite (is_children _ _ _ Hsh) in Hi. eauto.
  - right. rewrite fp_union_fupd by done.
    assert (fp_union (fupd b ∅ fps) = fp_union fps) as ->.
    { rewrite (fp_union_split fps b), Hb by done. set_solver. }
    split_and!; [done|done|set_solver|set_solver|]. apply fps_disjoint_fupd; [done|set_solver].
Qed.

(** ** The path to a key *)

(** The tree at depth [d] on the path: the root or a node below. *)
Definition tree_at (d : nat) (h : heap) (s : Z) (p : loc) (N : contents) (fp : gset loc) : Prop :=
  if decide (d = 0%nat) then inner_at 0 h s p N fp else repr (64 - d) d h s p N fp.

Lemma tree_at_cases d h s p N fp :
  (d <= 64)%nat → tree_at d h s p N fp →
  (0 < d)%nat ∧ leaf_ok T h s p N fp
  ∨ (d < 64)%nat ∧ inner_at d h s p N fp ∧ ((0 < d)%nat → (2 <= size N)%nat).
Proof.
  intros Hd. unfold tree_at. case_decide as Hz.
  - subst. intros Hi. right. split_and!; [lia|done|lia].
  - destruct (decide (d = 64%nat)) as [->|Hne].
    + intros [Hl|[_ []]]. left. split; [lia|done].
    + replace (64 - d)%nat with (S (63 - d)) by lia. intros [Hl|[Hsz Hi]].
      * left. split; [lia|done].
      * right. split_and!; [lia|done|done].
Qed.

Lemma tree_at_inner d h s p N fp :
  (d < 64)%nat → inner_at d h s p N fp → ((0 < d)%nat → (2 <= size N)%nat) → tree_at d h s p N fp.
Proof.
  intros Hd Hi Hsz. unfold tree_at. case_decide as Hz; [by subst|].
  replace (64 - d)%nat with (S (63 - d)) by lia. right. split; [apply Hsz; lia|done].
Qed.

Lemma tree_at_leaf d h s p N fp : (0 < d)%nat → leaf_ok T h s p N fp → tree_at d h s p N fp.
Proof.
  intros Hd Hl. unfold tree_at. rewrite decide_False by lia. destruct (64 - d)%nat; by left.
Qed.

Lemma tree_at_child d h s p N fp :
  (d < 64)%nat → tree_at (S d) h s p N fp = repr (63 - d) (S d) h s p N fp.
Proof. intros Hd. unfold tree_at. rewrite decide_False by lia. by replace (64 - S d)%nat with (63 - d)%nat by lia. Qed.

(** The inner nodes from the root down towards [id], the lowest first. *)
Fixpoint path (h : heap) (s : Z) (id : uint256) (M : contents) (st : NodeStack) (fp : gset loc)
  : Prop :=
  match st with
  | [] => fp = ∅
  | (p, nid) :: st =>
      let d := length st in
      (d < 64)%nat ∧ valid_id nid ∧ mDepth nid = d
      ∧ ∃ sq c fpn fpr, node_but h s d (nib d id) p sq c (below d id M) fpn
          ∧ path h s id M st fpr ∧ fpn ## fpr ∧ fp = fpn ∪ fpr
  end.

(** The root, for a path above [p]. *)
Definition bottom (st : NodeStack) (p : loc) : loc :=
  match last st with Some (q, _) => q | None => p end.

Lemma bottom_cons p nid st q : bottom ((p, nid) :: st) q = bottom st p.
Proof. unfold bottom. rewrite last_cons. by destruct (last st) as [[]|]. Qed.

Lemma bottom_any st x y : st ≠ [] → bottom st x = bottom st y.
Proof. destruct st as [|z st _] using rev_ind; [done|]. unfold bottom. by rewrite last_snoc. Qed.

Lemma path_frame h h' s id M st : ∀ fp,
  path h s id M st fp → preserved h h' fp → path h' s id M st fp.
Proof.
  induction st as [|[p nid] st IH]; intros fp; [done|]. cbn [path].
  intros (Hd&Hv&Hdp&sq&c&fpn&fpr&Hn&Hp&Hdis&->) Hpr. split_and!; [done..|].
  exists sq, c, fpn, fpr. split_and!; [|apply IH; [done|]|done|done].
  - eapply node_but_frame; [done|]. by eapply preserved_mono; [|done]; set_solver.
  - by eapply preserved_mono; [|done]; set_solver.
Qed.

Lemma path_ext h s id M M' st : ∀ fp,
  (∀ k, k ≠ id → M' !! k = M !! k) → path h s id M st fp → path h s id M' st fp.
Proof.
  induction st as [|[p nid] st IH]; intros fp Hoff; [done|]. cbn [path].
  intros (Hd&Hv&Hdp&sq&c&fpn&fpr&Hn&Hp&Hdis&->). split_and!; [done..|].
  exists sq, c, fpn, fpr. split_and!; [|by apply IH|done|done].
  eapply node_but_ext; [done|]. intros i Hi. by apply sub_below_other.
Qed.

Lemma path_dom h s id M st : ∀ fp, path h s id M st fp → fp ⊆ dom h.
Proof.
  induction st as [|[p nid] st IH]; intros fp; cbn [path]; [set_solver|].
  intros (_&_&_&sq&c&fpn&fpr&Hn&Hp&_&->). apply union_subseteq. split; [by eapply node_but_dom|by apply IH].
Qed.

Lemma path_length h s id M st fp : path h s id M st fp → (length st <= 64)%nat.
Proof. destruct st as [|[]]; cbn [path length]; [lia|]. intros (?&_). lia. Qed.

(** Where a walk ends: at an inner node without the branch, or at a leaf. *)
Definition walk_end (h : heap) (s : Z) (id : uint256) (M : contents) (r : option loc)
    (q : loc) (nid : SHAMapNodeID) (st : NodeStack) (fp : gset loc) : Prop :=
  let d := length st in
  valid_id nid ∧ mDepth nid = d ∧
  match r with
  | None => (d < 64)%nat ∧ below (S d) id M = ∅ ∧ ((0 < d)%nat → (2 <= size (below d id M))%nat)
      ∧ ∃ sq fpn fpr, node_but h s d (nib d id) q sq None (below d id M) fpn
          ∧ path h s id M st fpr ∧ fpn ## fpr ∧ fp = fpn ∪ fpr
  | Some l => l = q ∧ (0 < d <= 64)%nat
      ∧ ∃ fpl fpr, leaf_ok T h s q (below d id M) fpl
          ∧ path h s id M st fpr ∧ fpl ## fpr ∧ fp = fpl ∪ fpr
  end.

Definition sizes (d : nat) (id : uint256) (M : contents) : Prop :=
  ∀ e, (0 < e < d)%nat → (2 <= size (below e id M))%nat.

Lemma sizes_S d id M :
  sizes (S d) id M ↔ sizes d id M ∧ ((0 < d)%nat → (2 <= size (below d id M))%nat).
Proof.
  unfold sizes. split.
  - intros Hs. split; [intros; apply Hs; lia|intros; apply Hs; lia].
  - intros [Hs Hd] e He. destruct (decide (e = d)) as [->|]; [apply Hd; lia|apply Hs; lia].
Qed.
End steps.
