(* ===== verification/SHAMapOps.v ===== *)
(** * Operations on a hash tree

    Lookup, insertion, change and deletion, each proved against the contents of the map: the
    walk down, the way up, and the nodes made or removed at the end of the path. *)

From S2P Require Import Prelude Bytes NodeCodec SHANode SHAKeys SHAMap SHAMapInv SHAMapSteps.
Local Open Scope Z_scope.

Section ops.
Context `{!Sha512Half} (T : TNType).
Abbreviation repr := (repr T).
Abbreviation root_repr := (root_repr T).
Abbreviation tree_at := (tree_at T).
Abbreviation path := (path T).
Abbreviation node_but := (node_but T).
Abbreviation walk_end := (walk_end T).
Abbreviation inner_at d h s := (inner_ok T (repr (63 - d) (S d) h s) (63 - d) d h s).

(** ** Walking down *)

Lemma branch_bit hs isb ch b c :
  inner_shape hs isb ch → ch !! b = Some c →
  isEmptyBranch isb b = match c with Some _ => false | None => true end.
Proof.
  intros Hsh Hc. rewrite isEmptyBranch_spec, (is_bits _ _ _ Hsh), Hc. by destruct c.
Qed.

Lemma descendThrow_ok isb ch b q h :
  ch !! b = Some (Some q) → descendThrow isb ch b h = Ok (q, h).
Proof. intros Hc. unfold descendThrow. rewrite Hc. done. Qed.

Lemma walk_ok id M s fuel : ∀ p nid st h fpr fp,
  is_key id → (length st <= 64)%nat → (65 - length st <= fuel)%nat →
  valid_id nid → mDepth nid = length st →
  path h s id M st fpr → tree_at (length st) h s p (below (length st) id M) fp → fpr ## fp →
  sizes (length st) id M →
  ∃ r q nid' st', walk_loop fuel id p nid st h = Ok ((r, (q, nid') :: st'), h)
    ∧ walk_end h s id M r q nid' st' (fpr ∪ fp) ∧ bottom st' q = bottom st p
    ∧ sizes (length st') id M.
Proof.
  induction fuel as [|fuel IH]; intros p nid st h fpr fp Hid Hlen Hfuel Hv Hd Hpath Ht Hdis Hsz; [lia|].
  cbn [walk_loop]. apply tree_at_cases in Ht as [[Hpos Hl]|(Hlt&Hi&Hsize)]; [| |done].
  - pose proof Hl as (sq&k&v&Hp&_). run_load.
    exists (Some p), p, nid, st. split_and!; [done| |done|done].
    split_and!; [done|done|done|lia|lia|]. exists fp, fpr. split_and!; [done|done|set_solver|set_solver].
  - apply (inner_split T h s (length st) (nib (length st) id)) in Hi
      as (sq&hash&isb&hs&ch&c&fpn&fpc&Hp&Hsh&Hc&Hcok&Hbut&Hd1&->); [|apply nib_lt].
    rewrite <-below_S in Hcok.
    run_load. run (lift_ok _ _ h (selectBranch_ok nid id Hid ltac:(lia))). rewrite Hd.
    rewrite (branch_bit _ _ _ _ _ Hsh Hc). destruct c as [q|].
    + run (descendThrow_ok isb ch _ q h Hc).
      destruct (getChildNodeID_ok (nib (length st) id) nid Hv ltac:(lia) (nib_lt _ _)) as (nid'&E&Hv'&Hd').
      rewrite E. cbn [lift]. run (lift_ok (Ok nid') _ h eq_refl).
      destruct Hcok as [Hne Hq].
      destruct (IH q nid' ((p, nid) :: st) h (fpn ∪ fpr) fpc) as (r&q'&nid''&st'&Hw&He&Hb&Hs');
        [done|simpl; lia|simpl; lia|done|simpl; lia| | |set_solver| |].
      * cbn [path]. split_and!; [done..|]. exists sq, (Some q), fpn, fpr. split_and!; [done|done|set_solver|done].
      * cbn [length]. by rewrite tree_at_child.
      * cbn [length]. by apply sizes_S.
      * exists r, q', nid'', st'. split_and!; [exact Hw| | |done].
        -- replace (fpr ∪ (fpn ∪ fpc)) with (fpn ∪ fpr ∪ fpc) by set_solver. done.
        -- by rewrite bottom_cons in Hb.
    + destruct Hcok as [He ->]. exists None, p, nid, st. split_and!; [done| |done|done].
      split_and!; [done..|]. exists sq, fpn, fpr. split_and!; [done|done|set_solver|set_solver].
Qed.

Lemma walkTowardsKey_ok id M m h fp :
  is_key id → root_repr h (seq_ m) (root_ m) M fp →
  ∃ r q nid st, walkTowardsKey id m h = Ok ((r, (q, nid) :: st), h)
    ∧ walk_end h (seq_ m) id M r q nid st fp ∧ bottom st q = root_ m ∧ sizes (length st) id M.
Proof.
  intros Hid Hr. unfold walkTowardsKey.
  destruct (walk_ok id M (seq_ m) 65 (root_ m) NodeID_root [] h ∅ fp) as (r&q&nid&st&Hw&He&Hb&Hs);
    [done|simpl; lia|simpl; lia|apply valid_root|done|done| |set_solver|intros e He; simpl in He; lia|].
  - cbn [length]. by rewrite below_0.
  - exists r, q, nid, st. rewrite union_empty_l_L in He. done.
Qed.

(** ** Lookup *)

Lemma below_lookup d id M : below d id M !! id = M !! id.
Proof.
  apply option_eq. intros v. rewrite lookup_below. split; [tauto|]. intros ?. split; [done|apply agree_refl].
Qed.

Lemma findKey_ok id M m h fp :
  is_key id → root_repr h (seq_ m) (root_ m) M fp →
  ∃ r, findKey id m h = Ok (r, h) ∧
    match M !! id with
    | Some v => ∃ p sq, r = Some p ∧ h !! p = Some (TreeNode sq (lhash T id v) T (mkItem id v))
    | None => r = None
    end.
Proof.
  intros Hid Hr. destruct (walkTowardsKey_ok id M m h fp Hid Hr) as (r&q&nid&st&Hw&He&_).
  unfold findKey. run Hw. destruct He as (_&_&He). destruct r as [l|].
  - destruct He as (->&_&fpl&fpr&(sq&k&v&Hq&Hb&_)&_).
    pose proof (below_lookup (length st) id M) as Hl. rewrite Hb in Hl.
    unfold peekItem_at. rewrite (St_bind_ok _ _ _ (mkItem k v) h) by (by run_load). cbn [item_key].
    eexists. split; [done|]. destruct (decide (k = id)) as [->|Hne].
    + rewrite lookup_singleton_eq in Hl. rewrite <-Hl. eauto.
    + rewrite lookup_singleton_ne in Hl by done. by rewrite <-Hl.
  - destruct He as (_&He&_). exists None. split; [done|].
    rewrite <-(below_lookup (S (length st))), He. done.
Qed.

Lemma peekItem_ok id M m h fp :
  is_key id → root_repr h (seq_ m) (root_ m) M fp →
  peekItem id m h = Ok (mkItem id <$> M !! id, h).
Proof.
  intros Hid Hr. destruct (findKey_ok id M m h fp Hid Hr) as (r&Hf&Hm). unfold peekItem. run Hf.
  destruct (M !! id) as [v|]; [|by rewrite Hm]. destruct Hm as (p&sq&->&Hp).
  unfold peekItem_at. rewrite (St_bind_ok _ _ _ (mkItem id v) h) by (by run_load). done.
Qed.

Lemma hasItem_ok id M m h fp :
  is_key id → root_repr h (seq_ m) (root_ m) M fp →
  hasItem id m h = Ok (bool_decide (is_Some (M !! id)), h).
Proof.
  intros Hid Hr. destruct (findKey_ok id M m h fp Hid Hr) as (r&Hf&Hm). unfold hasItem. run Hf.
  destruct (M !! id) as [v|]; [|by rewrite Hm]. by destruct Hm as (p&sq&->&Hp).
Qed.

(** ** The way up *)

Lemma child_ok_frame n d h h' s c N f :
  child_ok (repr n d h s) c N f → preserved h h' f → child_ok (repr n d h' s) c N f.
Proof. intros Hc Hpr. eapply child_ok_impl; [|done]. intros q Hq. by eapply repr_frame. Qed.
Lemma child_ok_dom n d h s c N f : child_ok (repr n d h s) c N f → f ⊆ dom h.
Proof. destruct c as [q|]; [intros [_ Hq]; by eapply repr_dom|intros [_ ->]; set_solver]. Qed.

Lemma isRoot_spec nid (st : NodeStack) : mDepth nid = length st → isRoot nid = true ↔ st = [].
Proof.
  intros Hd. unfold isRoot. rewrite Hd. destruct st; split; intros; try done.
Qed.

Lemma bottom_move st nid m q p :
  mDepth nid = length st → root_ m = bottom st p →
  (if isRoot nid then q else root_ m) = bottom st q.
Proof.
  intros Hd Hroot. pose proof (isRoot_spec nid st Hd) as Hir. destruct (isRoot nid) eqn:E.
  - by rewrite (proj1 Hir eq_refl).
  - rewrite Hroot. assert (st ≠ []) as Hne by (intros Hs; by apply Hir in Hs).
    by apply bottom_any.
Qed.

Lemma unshare_path h m id p nid st sq c N fpn :
  node_but h (seq_ m) (length st) (nib (length st) id) p sq c N fpn → mDepth nid = length st →
  0 < seq_ m → state_ m ≠ Immutable → root_ m = bottom st p →
  ∃ q m' h' fpn', unshareNode p nid m h = Ok ((q, m'), h')
    ∧ node_but h' (seq_ m) (length st) (nib (length st) id) q (seq_ m) c N fpn'
    ∧ evolves h fpn h' fpn' ∧ moved m (bottom st q) m'.
Proof.
  intros Hn Hd Hpos Hst Hroot.
  destruct (unshare_but T h m (length st) (nib (length st) id) p sq nid c N fpn)
    as (q&m'&h'&fpn'&Hu&Hn'&He&Hm'); [done..| |].
  { intros ->%(isRoot_spec nid st Hd). done. }
  exists q, m', h', fpn'. split_and!; [done..|]. by rewrite <-(bottom_move st nid m q p).
Qed.

(** One node of the path: it becomes the map's own and gets its new child. *)
Lemma step_up h m id M p nid st c fpc fpr :
  is_key id → path h (seq_ m) id M ((p, nid) :: st) fpr → 0 < seq_ m → state_ m ≠ Immutable →
  child_ok (repr (63 - length st) (S (length st)) h (seq_ m)) c (below (S (length st)) id M) fpc →
  fpc ## fpr → root_ m = bottom st p →
  ∃ q m1 h1 h2 fp1 fpr1,
    selectBranch nid id = Ok (nib (length st) id)
    ∧ unshareNode p nid m h = Ok ((q, m1), h1)
    ∧ setChild_at q (nib (length st) id) c h1 = Ok (tt, h2)
    ∧ inner_at (length st) h2 (seq_ m) q (below (length st) id M) fp1 ∧ q ∈ fp1
    ∧ path h2 (seq_ m) id M st fpr1 ∧ fp1 ## fpr1
    ∧ evolves h (fpc ∪ fpr) h2 (fp1 ∪ fpr1) ∧ moved m (bottom st q) m1.
Proof.
  intros Hid Hpath Hpos Hst Hc Hdis Hroot.
  cbn [path] in Hpath. destruct Hpath as (Hd64&Hv&Hd&sq&c0&fpn&fpr0&Hn&Hp&Hdn&->).
  set (d := length st) in *.
  destruct (unshare_path h m id p nid st sq c0 (below d id M) fpn) as (q&m1&h1&fpn1&Hu&Hn1&He1&Hm1);
    [done..|].
  assert (fpn1 ## fpc ∪ fpr0) as Hd1.
  { symmetry. eapply evolves_disjoint; [done|set_solver|]. apply union_subseteq. split.
    - by eapply child_ok_dom.
    - by eapply path_dom. }
  destruct (setChild_but T h1 (seq_ m) d (nib d id) q c0 (below d id M) (below d id M) fpn1 c fpc)
    as (h2&Hsc&Hin&Hq&He2); [done|lia|apply nib_lt|done| |set_solver|].
  { rewrite <-below_S. eapply child_ok_frame; [done|]. eapply evolves_preserved; [done|set_solver]. }
  exists q, m1, h1, h2, (fpn1 ∪ fpc), fpr0. split_and!; [|done|done|done|set_solver| |set_solver| |done].
  - rewrite <-Hd. apply selectBranch_ok; [done|lia].
  - eapply path_frame; [done|]. eapply preserved_trans; eapply evolves_preserved; [exact He1| |exact He2|]; set_solver.
  - apply (evolves_frame _ _ _ _ (fpc ∪ fpr0)) in He1. apply (evolves_frame _ _ _ _ fpr0) in He2.
    eapply evolves_weaken; [eapply evolves_trans; [exact He1|]| |].
    + eapply evolves_weaken; [exact He2|set_solver|]. reflexivity.
    + set_solver.
    + set_solver.
Qed.

Lemma dirtyUp_loop_ok id M st : ∀ h m child fpc fpr,
  is_key id → path h (seq_ m) id M st fpr → 0 < seq_ m → state_ m ≠ Immutable →
  tree_at (length st) h (seq_ m) child (below (length st) id M) fpc →
  below (length st) id M ≠ ∅ ∨ st = [] → sizes (length st) id M →
  fpc ## fpr → root_ m = bottom st child →
  ∃ m' h' fp', dirtyUp_loop st id child m h = Ok (m', h')
    ∧ root_repr h' (seq_ m) (root_ m') M fp' ∧ evolves h (fpc ∪ fpr) h' fp'
    ∧ moved m (root_ m') m'.
Proof.
  induction st as [|[p nid] st IH]; intros h m child fpc fpr Hid Hpath Hpos Hst Ht Hne Hsz Hdis Hroot.
  - cbn in Hpath. subst fpr. cbn [dirtyUp_loop]. exists m, h, fpc. cbn in Hroot. rewrite Hroot.
    split_and!; [done| | |done].
    + cbn [length] in Ht. by rewrite below_0 in Ht.
    + rewrite union_empty_r_L. apply evolves_refl.
  - pose proof Hpath as Hpath'. cbn [path] in Hpath'. destruct Hpath' as (Hd64&_).
    cbn [length] in *. rewrite tree_at_child in Ht by done. rewrite bottom_cons in Hroot.
    destruct Hne as [Hne|]; [|done].
    destruct (step_up h m id M p nid st (Some child) fpc fpr)
      as (q&m1&h1&h2&fp1&fpr1&Hsb&Hu&Hsc&Hi&Hq&Hp1&Hd1&He&Hm1); [done..|].
    destruct Hm1 as (Es&Et&Er). apply sizes_S in Hsz as [Hsz Hsz1].
    cbn [dirtyUp_loop]. run (lift_ok _ _ h Hsb). run Hu. run Hsc.
    destruct (IH h2 m1 q fp1 fpr1) as (m'&h'&fp'&Hrun&Hr&He'&Hm'&Hst'&_);
      [done|by rewrite Es|lia|congruence| | |done|done|done|].
    + rewrite Es. apply tree_at_inner; done.
    + left. intros He0. apply Hne. rewrite below_S, He0. by apply map_filter_empty.
    + exists m', h', fp'. rewrite Es in *. split_and!; [done|done|by eapply evolves_trans|].
      split_and!; congruence.
Qed.

Lemma dirtyUp_ok id M st h m child nd fpc fpr :
  is_key id → path h (seq_ m) id M st fpr → 0 < seq_ m → state_ m = Modifying →
  tree_at (length st) h (seq_ m) child (below (length st) id M) fpc →
  below (length st) id M ≠ ∅ ∨ st = [] → sizes (length st) id M →
  fpc ## fpr → root_ m = bottom st child → h !! child = Some nd → getSeq nd = seq_ m →
  ∃ m' h' fp', dirtyUp st id child m h = Ok (m', h')
    ∧ root_repr h' (seq_ m) (root_ m') M fp' ∧ evolves h (fpc ∪ fpr) h' fp'
    ∧ moved m (root_ m') m'.
Proof.
  intros Hid Hpath Hpos Hst Ht Hne Hsz Hdis Hroot Hc Hnd. unfold dirtyUp. rewrite Hst.
  run (assert_run true h eq_refl). run_load. run (assert_run (getSeq nd =? seq_ m) h ltac:(by apply Z.eqb_eq)).
  eapply dirtyUp_loop_ok; try done. by rewrite Hst.
Qed.

(** ** New nodes *)

Definition is_leaf_type : Prop := T = tnTRANSACTION_NM ∨ T = tnTRANSACTION_MD ∨ T = tnACCOUNT_STATE.

Lemma new_leaf_ok k v s :
  is_leaf_type → (12 <= length v)%nat →
  new_leaf (mkItem k v) T s = Ok (TreeNode s (lhash T k v) T (mkItem k v)).
Proof.
  intros HT Hv. unfold new_leaf, lhash. cbn [item_data]. rewrite (proj2 (Nat.leb_le 12 _)) by done.
  by destruct HT as [E|[E|E]]; rewrite E.
Qed.

(** A fresh leaf, linked nowhere yet. *)
Lemma alloc_leaf h s k v :
  ∃ q h', alloc (TreeNode s (lhash T k v) T (mkItem k v)) h = Ok (q, h')
    ∧ leaf_ok T h' s q {[k := v]} {[q]} ∧ evolves h ∅ h' {[q]}.
Proof.
  eexists _, _. split_and!; [done| |apply evolves_alloc].
  exists s, k, v. rewrite lookup_insert_eq. split_and!; [done..|]. by right.
Qed.

Lemma new_inner_shape : inner_shape (replicate 16 zero256) 0 (replicate 16 None).
Proof.
  split; [done|done| | |done].
  - intros j. rewrite Z.bits_0. destruct (replicate 16 None !! j) as [c|] eqn:E; [|done].
    apply lookup_replicate in E as [E _]. by subst c.
  - intros i Hi. apply lookup_replicate in Hi as [_ Hi]. by apply lookup_replicate.
Qed.

Lemma new_inner_but h s d b p N :
  h !! p = Some (new_inner s) → (b < 16)%nat → (∀ i, i ≠ b → sub d i N = ∅) →
  node_but h s d b p s None N {[p]}.
Proof.
  intros Hp Hb HN. exists zero256, 0, (replicate 16 zero256), (replicate 16 None), (fun _ => ∅).
  split_and!; [done|apply new_inner_shape|by apply lookup_replicate|done| |].
  - intros i c Hi Hc. apply lookup_replicate in Hc as [-> _]. split; [by apply HN|done].
  - right. rewrite fp_union_empty by done. split_and!; [done|set_solver..|]. intros i j _ _ _. set_solver.
Qed.

(** A node the map owns gets a new leaf in an empty branch. *)
Lemma put_leaf h s d b p c0 N N' fpn k v :
  node_but h s d b p s c0 N fpn → s ≠ 0 → (b < 16)%nat → (d < 64)%nat →
  (∀ i, i ≠ b → sub d i N' = sub d i N) → sub d b N' = {[k := v]} →
  ∃ q h1 h2 fp, alloc (TreeNode s (lhash T k v) T (mkItem k v)) h = Ok (q, h1)
    ∧ setChild_at p b (Some q) h1 = Ok (tt, h2)
    ∧ inner_at d h2 s p N' fp ∧ p ∈ fp ∧ evolves h fpn h2 fp.
Proof.
  intros Hn Hs0 Hb Hd HN Hsub. destruct (alloc_leaf h s k v) as (q&h1&Ha&Hl&He1).
  assert (fpn ## {[q]}) as Hdis
    by (eapply evolves_disjoint; [done|set_solver|by eapply node_but_dom]).
  destruct (setChild_but T h1 s d b p c0 N N' fpn (Some q) {[q]}) as (h2&Hsc&Hi&Hp&He2);
    [|done..| |done|].
  - eapply node_but_frame; [done|]. eapply evolves_preserved; [done|set_solver].
  - split; [rewrite Hsub; apply map_non_empty_singleton|]. rewrite Hsub.
    destruct (63 - d)%nat; by left.
  - exists q, h1, h2, (fpn ∪ {[q]}). split_and!; [done|done|done|set_solver|].
    eapply evolves_trans; [|exact He2]. apply (evolves_frame _ _ _ _ fpn) in He1.
    eapply evolves_weaken; [exact He1|set_solver|set_solver].
Qed.
End ops.
