(* ===== verification/SHAMapAdd.v ===== *)
(** * Adding and changing items of a hash tree *)

From S2P Require Import Prelude Bytes NodeCodec SHANode SHAKeys SHAMap SHAMapInv SHAMapSteps.
From S2P Require Import SHAMapOps.
Local Open Scope Z_scope.

(** ** Contents with a new item *)

Lemma below_insert d id v M : below d id (<[id := v]> M) = <[id := v]> (below d id M).
Proof.
  apply map_eq. intros k. apply option_eq. intros w.
  rewrite lookup_below, !lookup_insert_Some, lookup_below.
  pose proof (agree_refl d id). split; [|intros [[-> ->]|(?&?&?)]; auto].
  intros [[[-> ->]|[? ?]] ?]; auto.
Qed.

Lemma sub_insert_other d i id v N :
  i ≠ nib d id → sub d i (<[id := v]> N) = sub d i N.
Proof.
  intros Hi. apply map_eq. intros k. apply option_eq. intros w. rewrite !lookup_sub.
  destruct (decide (k = id)) as [->|Hne]; [|by rewrite lookup_insert_ne].
  split; intros [_ ?]; congruence.
Qed.

Lemma size_insert_le (M : contents) k v : (size M <= size (<[k := v]> M))%nat.
Proof. rewrite map_size_insert. destruct (M !! k); simpl; lia. Qed.

Lemma sizes_insert d id v M : sizes d id M → sizes d id (<[id := v]> M).
Proof.
  intros Hs e He. rewrite below_insert. specialize (Hs e He).
  pose proof (size_insert_le (below e id M) id v). lia.
Qed.

Lemma size_pair (k0 k : uint256) v0 v :
  k0 ≠ k → size (<[k := v]> ({[k0 := v0]} : contents)) = 2%nat.
Proof. intros Hne. rewrite map_size_insert_None, map_size_singleton; [done|by rewrite lookup_singleton_ne]. Qed.

Lemma pair_comm (k0 k : uint256) v0 v :
  k ≠ k0 → <[k := v]> ({[k0 := v0]} : contents) = <[k0 := v0]> {[k := v]}.
Proof. intros Hne. rewrite <-!insert_empty. by apply insert_insert_ne. Qed.

Section add.
Context `{!Sha512Half} (T : TNType).
Abbreviation repr := (repr T).
Abbreviation root_repr := (root_repr T).
Abbreviation tree_at := (tree_at T).
Abbreviation path := (path T).
Abbreviation node_but := (node_but T).
Abbreviation inner_at d h s := (inner_ok T (repr (63 - d) (S d) h s) (63 - d) d h s).

(** ** Two leaves where there was one *)

(** The keys of two items part before depth 64. *)
Lemma part_before id k0 : is_key id → is_key k0 → id ≠ k0 → ∀ d, agree d id k0 → (d < 64)%nat.
Proof.
  intros H1 H2 Hne d Ha. destruct (decide (d < 64)%nat); [done|]. destruct Hne.
  apply agree_key; [done..|]. intros i Hi. apply Ha. lia.
Qed.

Lemma below_pair d id v k0 v0 M :
  below d id M = {[k0 := v0]} → ∀ e, (d <= e)%nat → agree e id k0 →
  below e id (<[id := v]> M) = <[id := v]> {[k0 := v0]}.
Proof.
  intros Hb e He Ha. rewrite below_insert. f_equal. apply map_eq. intros k. apply option_eq. intros w.
  rewrite lookup_below. split.
  - intros [Hk Hag]. rewrite <-Hb. apply lookup_below. split; [done|]. intros i Hi. apply Hag. lia.
  - intros Hk. assert (below d id M !! k = Some w) as Hk' by (by rewrite Hb).
    apply lookup_singleton_Some in Hk as [<- <-]. by apply lookup_below in Hk' as [? _].
Qed.

Lemma split_loop_ok id v k0 v0 M m fuel : ∀ p nid st h fpr,
  let s := seq_ m in let M' := <[id := v]> M in
  is_key id → is_key k0 → id ≠ k0 → s ≠ 0 →
  valid_id nid → mDepth nid = length st → (64 - length st <= fuel)%nat →
  path h s id M' st fpr → h !! p = Some (new_inner s) → p ∉ fpr → st ≠ [] →
  below (length st) id M' = <[id := v]> {[k0 := v0]} → agree (length st) id k0 →
  (∀ e, (length st <= e)%nat → agree e id k0 → below e id M' = <[id := v]> {[k0 := v0]}) →
  sizes (length st) id M' →
  ∃ p' st' h' fpr', 
    split_loop fuel id k0 p nid st m h
      = Ok ((p', nib (length st') id, nib (length st') k0, st'), h')
    ∧ nib (length st') id ≠ nib (length st') k0
    ∧ (length st' < 64)%nat ∧ path h' s id M' st' fpr' ∧ h' !! p' = Some (new_inner s)
    ∧ p' ∉ fpr' ∧ below (length st') id M' = <[id := v]> {[k0 := v0]} ∧ st' ≠ []
    ∧ sizes (length st') id M' ∧ (∀ x, bottom st' x = bottom st x)
    ∧ evolves h ({[p]} ∪ fpr) h' ({[p']} ∪ fpr').
Proof.
  induction fuel as [|fuel IH]; intros p nid st h fpr s M' Hid Hk0 Hne Hs0 Hv Hd Hfuel Hpath Hp Hpn Hst Hb Ha HM Hsz;
    (assert (length st < 64)%nat as Hlt by (by apply (part_before id k0)));
    cbn [split_loop]; run (lift_ok _ _ h (selectBranch_ok nid id Hid ltac:(lia)));
    run (lift_ok _ _ h (selectBranch_ok nid k0 Hk0 ltac:(lia))); rewrite Hd; [lia|].
  destruct (Nat.eqb_spec (nib (length st) id) (nib (length st) k0)) as [Heq|Hdiff].
  - destruct (getChildNodeID_ok (nib (length st) id) nid Hv ltac:(lia) (nib_lt _ _)) as (nid'&E&Hv'&Hd').
    rewrite E. run (lift_ok (Ok nid') _ h eq_refl).
    set (q := fresh (dom h)). set (h1 := <[q := new_inner s]> h).
    run (eq_refl : alloc (new_inner (seq_ m)) h = Ok (q, h1)).
    pose proof (evolves_alloc h (new_inner s)) as He1. fold q h1 in He1.
    assert ({[p]} ∪ fpr ⊆ dom h) as Hdom.
    { apply union_subseteq. split; [|by eapply path_dom]. apply singleton_subseteq_l. by eapply elem_of_dom_2. }
    assert ({[p]} ∪ fpr ## {[q]}) as Hq by (eapply evolves_disjoint; [done|set_solver|done]).
    assert (agree (S (length st)) id k0) as Ha' by (by apply agree_S).
    assert (2 <= size (below (length st) id M'))%nat as Hsize by (rewrite Hb, size_pair; done).
    destruct (IH q nid' ((p, nid) :: st) h1 ({[p]} ∪ fpr)) as (p'&st'&h'&fpr'&Hrun&Hr); try done.
    + simpl. lia.
    + simpl. lia.
    + cbn [path]. split_and!; [done..|]. exists s, None, {[p]}, fpr. split_and!; [| |set_solver|done].
      * apply new_inner_but; [|apply nib_lt|].
        -- unfold h1. rewrite lookup_insert_ne; [done|]. set_solver.
        -- intros i Hi. fold M'. rewrite Hb. rewrite sub_insert_other by done.
           rewrite sub_singleton, decide_False; [done|]. congruence.
      * eapply path_frame; [done|]. eapply evolves_preserved; [done|set_solver].
    + apply lookup_insert_eq.
    + set_solver.
    + cbn [length]. apply HM; [lia|done].
    + intros e He Hae. apply HM; [|done]. cbn [length] in He. lia.
    + cbn [length]. by apply sizes_S.
    + exists p', st', h', fpr'. destruct Hr as (H1&H2&H3&H4&H5&H6&H7&H8&H9&H10).
      split_and!; [done..| |].
      * intros x. rewrite H9, bottom_cons. by apply bottom_any.
      * eapply evolves_trans; [|exact H10]. apply (evolves_frame _ _ _ _ ({[p]} ∪ fpr)) in He1.
        eapply evolves_weaken; [exact He1|set_solver|set_solver].
  - exists p, st, h, fpr. split_and!; try done. apply evolves_refl.
Qed.

Lemma unshare_leaf h m p nid k v fpl sq :
  is_leaf_type T → h !! p = Some (TreeNode sq (lhash T k v) T (mkItem k v)) →
  sq = 0 ∧ fpl = ∅ ∨ sq = seq_ m ∧ fpl = {[p]} →
  (12 <= length v)%nat → 0 < seq_ m → state_ m ≠ Immutable → isRoot nid = false →
  ∃ q h', unshareNode p nid m h = Ok ((q, m), h')
    ∧ h' !! q = Some (TreeNode (seq_ m) (lhash T k v) T (mkItem k v)) ∧ evolves h fpl h' {[q]}
    ∧ h ⊆ h'.
Proof.
  intros HT Hp Hown Hv Hpos Hst Hroot. unfold unshareNode. run_load.
  set (n := TreeNode sq _ _ _).
  run (assert_run (isValid n) h ltac:(by destruct HT as [E|[E|E]]; unfold n; rewrite E)).
  run (assert_run (getSeq n <=? seq_ m) h ltac:(destruct Hown as [[E _]|[E _]]; unfold n; rewrite E; apply Z.leb_le; simpl; lia)).
  unfold n at 1. cbn [getSeq]. destruct (Z.eqb_spec sq (seq_ m)) as [->|Hne]; cbn [negb].
  - exists p, h. destruct Hown as [[? _]|[_ ->]]; [lia|]. split_and!; [done|done|apply evolves_refl|done].
  - destruct Hown as [[-> ->]|[? _]]; [|done].
    run (assert_run (negb (bool_decide (state_ m = Immutable))) h ltac:(by rewrite bool_decide_false)).
    unfold n. cbn [clone item_data]. rewrite (proj2 (Nat.leb_le 12 _)) by done. cbn [assert_ mbind res_bind].
    set (n' := TreeNode (seq_ m) _ _ _). run (lift_ok (Ok n') _ h eq_refl).
    run (assert_run (isValid n') h ltac:(by destruct HT as [E|[E|E]]; unfold n'; rewrite E)).
    run (eq_refl : alloc n' h = Ok (fresh (dom h), <[fresh (dom h) := n']> h)).
    rewrite Hroot. eexists _, _. split_and!; [done|apply lookup_insert_eq|apply evolves_alloc|].
    apply insert_subseteq. apply not_elem_of_dom, is_fresh.
Qed.

(** An inner node with two new leaves. *)
Lemma put_pair h s d p id v k0 v0 :
  h !! p = Some (new_inner s) → s ≠ 0 → (d < 64)%nat → nib d id ≠ nib d k0 →
  ∃ q1 h1 h2 q2 h3 h4 fp,
    alloc (TreeNode s (lhash T id v) T (mkItem id v)) h = Ok (q1, h1)
    ∧ setChild_at p (nib d id) (Some q1) h1 = Ok (tt, h2)
    ∧ alloc (TreeNode s (lhash T k0 v0) T (mkItem k0 v0)) h2 = Ok (q2, h3)
    ∧ setChild_at p (nib d k0) (Some q2) h3 = Ok (tt, h4)
    ∧ inner_at d h4 s p (<[id := v]> {[k0 := v0]}) fp ∧ p ∈ fp ∧ evolves h {[p]} h4 fp.
Proof.
  intros Hp Hs0 Hd Hne. assert (id ≠ k0) as Hkne by congruence.
  destruct (put_leaf T h s d (nib d id) p None ∅ {[id := v]} {[p]} id v)
    as (q1&h1&h2&fp1&Ha1&Hc1&Hi1&Hp1&He1); [|done|apply nib_lt|done| | |].
  { apply new_inner_but; [done|apply nib_lt|]. intros i _. by apply map_filter_empty. }
  { intros i Hi. rewrite sub_singleton, decide_False by done. symmetry. apply map_filter_empty. }
  { by rewrite sub_singleton, decide_True. }
  apply (inner_split T h2 s d (nib d k0)) in Hi1
    as (sq&hash&isb&hs&ch&c&fpn&fpc&Hp2&Hsh&Hc&Hcok&Hbut&Hd1&Hfp1); [|apply nib_lt].
  rewrite sub_singleton, decide_False in Hcok by done.
  destruct c as [q|]; [by destruct Hcok as [Hcok _]|]. destruct Hcok as [_ ->]. rewrite union_empty_r_L in Hfp1. subst fp1.
  assert (sq = s) as ->.
  { pose proof Hbut as (?&?&?&?&?&_&_&_&_&_&[(_&->&_)|(->&_)]); [set_solver|done]. }
  destruct (put_leaf T h2 s d (nib d k0) p None {[id := v]} (<[id := v]> {[k0 := v0]}) fpn k0 v0)
    as (q2&h3&h4&fp2&Ha2&Hc2&Hi2&Hpin&He2); [done|done|apply nib_lt|done| | |].
  { intros i Hi. rewrite pair_comm by done. by apply sub_insert_other. }
  { rewrite sub_insert_other by done. by rewrite sub_singleton, decide_True. }
  exists q1, h1, h2, q2, h3, h4, fp2. split_and!; try done. by eapply evolves_trans.
Qed.

(** ** [addGiveItem] *)

Definition add_result (k : uint256) (v : bytes) (M : contents) : bool * contents :=
  match M !! k with Some _ => (false, M) | None => (true, <[k := v]> M) end.

(** What an operation that changes a map does: the result, the tree, and what it writes. *)
Definition changes {A} (op : St (A * SHAMap)) (h : heap) (m : SHAMap) (fp : gset loc)
    (r : A * contents) : Prop :=
  ∃ m' h' fp', op h = Ok ((r.1, m'), h') ∧ root_repr h' (seq_ m) (root_ m') r.2 fp'
    ∧ evolves h fp h' fp' ∧ moved m (root_ m') m'.

Lemma leaf_type_T a b : T = leaf_type a b → is_leaf_type T.
Proof. intros E. unfold is_leaf_type. rewrite E. destruct a, b; simpl; auto. Qed.

(** Facts on a map that may be changed. *)
Record writable (m : SHAMap) : Prop := {
  w_seq : 0 < seq_ m;
  w_state : state_ m = Modifying
}.
Lemma w_mutable m : writable m → state_ m ≠ Immutable.
Proof. intros [_ ->]. done. Qed.
Lemma w_ne m : writable m → seq_ m ≠ 0.
Proof. intros [Hs _]. lia. Qed.

(** The key leads to an inner node without that branch. *)
Lemma add_at_inner k v a b M m h fp q nid st :
  T = leaf_type a b → writable m → is_key k → (12 <= length v)%nat →
  walkTowardsKey k m h = Ok ((None, (q, nid) :: st), h) →
  walk_end T h (seq_ m) k M None q nid st fp → root_ m = bottom st q → sizes (length st) k M →
  changes (addGiveItem (mkItem k v) a b m) h m fp (true, <[k := v]> M).
Proof.
  intros HT Hw Hk Hv Hwalk (Hvalid&Hd&Hlt&Hempty&Hsize&sq&fpn&fpr&Hn&Hpath&Hdis&->) Hroot Hsz.
  assert (∃ hash isb hs ch, h !! q = Some (InnerNode sq hash isb hs ch)) as (ha&ib&hs&ch&Hq)
    by (destruct Hn as (?&?&?&?&?&?&_); eauto).
  destruct (unshare_path T h m k q nid st sq None (below (length st) k M) fpn)
    as (q1&m1&h1&fpn1&Hu&Hn1&He1&Es&Est&Er); [done|done|apply Hw|by apply w_mutable|done|].
  destruct (put_leaf T h1 (seq_ m) (length st) (nib (length st) k) q1 None (below (length st) k M)
    (below (length st) k (<[k := v]> M)) fpn1 k v) as (l&h2&h3&fp1&Ha&Hc&Hi&Hq1&He2);
    [done|by apply w_ne|apply nib_lt|done| | |].
  { intros i Hi. rewrite below_insert. by apply sub_insert_other. }
  { by rewrite <-below_S, below_insert, Hempty, insert_empty. }
  assert (evolves h fpn h3 fp1) as He by (by eapply evolves_trans).
  pose proof (path_dom _ _ _ _ _ _ _ Hpath) as Hdom.
  assert (fpr ## fp1) as Hd1 by (by eapply evolves_disjoint).
  destruct (inner_fp T _ _ _ _ _ _ _ _ q1 (fun x N f => repr_fp T _ _ _ _ x N f q1) Hi Hq1) as (nd&Hnd&Hsnd).
  destruct (dirtyUp_ok T k (<[k := v]> M) st h3 m1 q1 nd fp1 fpr) as (m'&h'&fp'&Hdu&Hr&He'&Hm');
    rewrite ?Es, ?Est; try done.
  { eapply path_ext; [|eapply path_frame; [done|]].
    - intros k' Hne. by rewrite lookup_insert_ne.
    - eapply evolves_preserved; [done|done]. }
  { apply Hw. }
  { apply Hw. }
  { apply tree_at_inner; [done|done|]. intros Hpos. rewrite below_insert.
    pose proof (size_insert_le (below (length st) k M) k v). specialize (Hsize Hpos). lia. }
  { left. rewrite below_insert. apply insert_non_empty. }
  { by apply sizes_insert. }
  exists m', h', fp'. rewrite Es in *. split_and!; [|done| |destruct Hm' as (?&?&?); split_and!; congruence].
  - unfold addGiveItem. cbn [item_key]. 
    run (assert_run (negb (bool_decide (state_ m = Immutable))) h ltac:(rewrite bool_decide_false; [done|by apply w_mutable])).
    run Hwalk. run_load. run Hu. destruct Hn1 as (ha1&ib1&hs1&ch1&fps1&Hq1'&Hsh1&Hcb&_).
    run_load. run (lift_ok _ _ h1 (selectBranch_ok nid k Hk ltac:(lia))). rewrite Hd.
    run (assert_run (isEmptyBranch ib1 (nib (length st) k)) h1 (branch_bit _ _ _ _ _ Hsh1 Hcb)).
    rewrite <-HT. run (lift_ok _ _ h1 (new_leaf_ok T k v (seq_ m1) (leaf_type_T _ _ HT) Hv)).
    rewrite Es. run Ha. run Hc. run Hdu. done.
  - eapply evolves_trans; [|exact He']. by apply evolves_frame.
Qed.

(** The key leads to the leaf of another item. *)
Lemma add_at_leaf k v a b M m h fp q nid st k0 v0 :
  T = leaf_type a b → writable m → is_key k → (12 <= length v)%nat → wf_contents M →
  walkTowardsKey k m h = Ok ((Some q, (q, nid) :: st), h) →
  walk_end T h (seq_ m) k M (Some q) q nid st fp → root_ m = bottom st q → sizes (length st) k M →
  below (length st) k M = {[k0 := v0]} → k0 ≠ k →
  changes (addGiveItem (mkItem k v) a b m) h m fp (true, <[k := v]> M).
Proof.
  intros HT Hw Hk Hv HwM Hwalk (Hvalid&Hd&_&Hlt&fpl&fpr&(sq&k1&v1&Hq&Hb1&Hown)&Hpath&Hdis&->) Hroot Hsz Hb Hne.
  assert (k1 = k0 ∧ v1 = v0) as [-> ->].
  { rewrite Hb in Hb1. assert (({[k1 := v1]} : contents) !! k0 = Some v0) as E
      by (by rewrite <-Hb1, lookup_singleton_eq). by apply lookup_singleton_Some in E as [-> ->]. }
  assert (below (length st) k M !! k0 = Some v0) as Hk0 by (by rewrite Hb, lookup_singleton_eq).
  apply lookup_below in Hk0 as [HM0 Hag]. destruct (HwM _ _ HM0) as [Hkey0 Hv0].
  assert (st ≠ []) as Hst by (by destruct st; [simpl in Hlt; lia|]).
  assert (isRoot nid = false) as Hir.
  { apply not_true_iff_false. by rewrite isRoot_spec. }
  pose proof (leaf_type_T _ _ HT) as HlT. pose proof (w_ne m Hw) as Hs0.
  destruct (unshare_leaf h m q nid k0 v0 fpl sq) as (q1&h1&Hu&Hq1&He1&_);
    [done..|apply Hw|by apply w_mutable|done|].
  set (p := fresh (dom h1)). set (h2 := <[p := new_inner (seq_ m)]> h1).
  pose proof (evolves_alloc h1 (new_inner (seq_ m))) as He2. fold p h2 in He2.
  assert (evolves h fpl h2 {[p]}) as He12.
  { eapply evolves_trans; [exact He1|]. eapply evolves_weaken; [exact He2|set_solver|done]. }
  pose proof (path_dom _ _ _ _ _ _ _ Hpath) as Hdom.
  assert (fpr ## {[p]}) as Hdp by (by eapply evolves_disjoint).
  destruct (split_loop_ok k v k0 v0 M m 64 p nid st h2 fpr)
    as (p'&st'&h3&fpr'&Hsl&Hnib&Hlt'&Hpath'&Hp'&Hpn'&Hbelow'&Hst'&Hsz'&Hbot&He3); try done.
  { lia. }
  { eapply path_ext; [|eapply path_frame; [done|]].
    - intros k' Hk'. by rewrite lookup_insert_ne.
    - by eapply evolves_preserved. }
  { apply lookup_insert_eq. }
  { by apply disjoint_singleton_r in Hdp. }
  { by eapply (below_pair (length st)). }
  { intros e He Ha. by eapply (below_pair (length st)). }
  { by apply sizes_insert. }
  destruct (put_pair h3 (seq_ m) (length st') p' k v k0 v0)
    as (l1&h4&h5&l2&h6&h7&fp4&Ha1&Hc1&Ha2&Hc2&Hi&Hpin&He4); [done..|].
  pose proof (path_dom _ _ _ _ _ _ _ Hpath') as Hdom'.
  assert (fpr' ## {[p']}) as Hdp' by (by apply disjoint_singleton_r).
  assert (fpr' ## fp4) as Hd4 by (by eapply evolves_disjoint).
  destruct (inner_fp T _ _ _ _ _ _ _ _ p' (fun x N f => repr_fp T _ _ _ _ x N f p') Hi Hpin) as (nd&Hnd&Hsnd).
  destruct (dirtyUp_ok T k (<[k := v]> M) st' h7 m p' nd fp4 fpr') as (m'&h'&fp'&Hdu&Hr&He'&Hm'); try done.
  { eapply path_frame; [done|]. by eapply evolves_preserved. }
  { apply Hw. }
  { apply Hw. }
  { rewrite Hbelow'. apply tree_at_inner; [done|done|]. intros _. by rewrite size_pair. }
  { left. rewrite Hbelow'. apply insert_non_empty. }
  { rewrite Hroot, Hbot. by apply bottom_any. }
  exists m', h', fp'. split_and!; [|done| |done].
  - unfold addGiveItem. cbn [item_key].
    run (assert_run (negb (bool_decide (state_ m = Immutable))) h ltac:(rewrite bool_decide_false; [done|by apply w_mutable])).
    run Hwalk. run_load. cbn [item_key]. rewrite bool_decide_false by done. run Hu. run_load. cbn [item_key].
    run (assert_run (negb (bool_decide (k = k0))) h1 ltac:(by rewrite bool_decide_false)).
    run (eq_refl : alloc (new_inner (seq_ m)) h1 = Ok (p, h2)). run Hsl. rewrite <-HT.
    run (lift_ok _ _ h3 (new_leaf_ok T k v (seq_ m) HlT Hv)). run Ha1. run Hc1.
    run (lift_ok _ _ h5 (new_leaf_ok T k0 v0 (seq_ m) HlT Hv0)). run Ha2. run Hc2. run Hdu. done.
  - eapply evolves_trans; [exact (evolves_frame _ _ _ _ fpr He12)|].
    eapply evolves_trans; [exact He3|]. eapply evolves_trans; [exact (evolves_frame _ _ _ _ fpr' He4)|done].
Qed.

Lemma addGiveItem_ok k v a b M m h fp :
  T = leaf_type a b → writable m → is_key k → (12 <= length v)%nat → wf_contents M →
  root_repr h (seq_ m) (root_ m) M fp →
  changes (addGiveItem (mkItem k v) a b m) h m fp (add_result k v M).
Proof.
  intros HT Hw Hk Hv HwM Hr.
  destruct (walkTowardsKey_ok T k M m h fp Hk Hr) as (r&q&nid&st&Hwalk&He&Hb&Hsz). unfold add_result.
  destruct r as [l|].
  - pose proof He as (_&_&->&_&fpl&fpr&(sq&k0&v0&Hq&Hbel&_)&_).
    pose proof (below_lookup (length st) k M) as Hl. rewrite Hbel in Hl.
    destruct (decide (k0 = k)) as [->|Hne].
    + rewrite lookup_singleton_eq in Hl. rewrite <-Hl. exists m, h, fp. split_and!; [|done|apply evolves_refl|done].
      unfold addGiveItem. cbn [item_key].
      run (assert_run (negb (bool_decide (state_ m = Immutable))) h ltac:(rewrite bool_decide_false; [done|by apply w_mutable])).
      run Hwalk. run_load. cbn [item_key]. by rewrite bool_decide_true.
    + rewrite lookup_singleton_ne in Hl by done. rewrite <-Hl. by eapply add_at_leaf.
  - pose proof He as (_&_&_&Hempty&_).
    rewrite <-(below_lookup (S (length st)) k M), Hempty, lookup_empty. by eapply add_at_inner.
Qed.

(** ** [updateGiveItem] *)

Lemma evolves_keep h f h' f' fp : evolves h f h' f' → f ⊆ fp → evolves h fp h' fp.
Proof.
  intros He Hf. split; [|by left|apply (ev_dom _ _ _ _ He)].
  intros x n Hx Hor. apply (ev_step _ _ _ _ He); [done|]. destruct Hor; [by left|right; set_solver].
Qed.

Lemma leaf_hash_ok k v : is_leaf_type T → leaf_hash T (mkItem k v) = Ok (lhash T k v).
Proof. intros HT. unfold lhash. by destruct HT as [E|[E|E]]; rewrite E. Qed.

Lemma setItem_ok k v k0 v0 s h0 :
  is_leaf_type T → s ≠ 0 →
  setItem (mkItem k v) T (TreeNode s h0 T (mkItem k0 v0))
  = Ok (negb (bool_decide (lhash T k v = h0)), TreeNode s (lhash T k v) T (mkItem k v)).
Proof.
  intros HT Hs. unfold setItem. rewrite (proj2 (Z.eqb_neq _ _)) by done.
  assert (isLeaf (TreeNode s h0 T (mkItem k v)) = true) as ->
    by (by destruct HT as [E|[E|E]]; rewrite E).
  cbn [assert_ negb mbind res_bind]. rewrite leaf_hash_ok by done. done.
Qed.

(** The item of a key is where the walk ends. *)
Lemma walk_hit k v0 M m h fp :
  is_key k → root_repr h (seq_ m) (root_ m) M fp → M !! k = Some v0 →
  ∃ q nid st fpl fpr sq, walkTowardsKey k m h = Ok ((Some q, (q, nid) :: st), h)
    ∧ root_ m = bottom st q ∧ sizes (length st) k M ∧ valid_id nid ∧ mDepth nid = length st
    ∧ st ≠ [] ∧ isRoot nid = false ∧ below (length st) k M = {[k := v0]}
    ∧ h !! q = Some (TreeNode sq (lhash T k v0) T (mkItem k v0))
    ∧ (sq = 0 ∧ fpl = ∅ ∨ sq = seq_ m ∧ fpl = {[q]})
    ∧ path h (seq_ m) k M st fpr ∧ fpl ## fpr ∧ fp = fpl ∪ fpr.
Proof.
  intros Hk Hr Hv. destruct (walkTowardsKey_ok T k M m h fp Hk Hr) as (r&q&nid&st&Hwalk&He&Hb&Hsz).
  destruct r as [l|].
  - destruct He as (Hvalid&Hd&->&Hlt&fpl&fpr&(sq&k0&v1&Hq&Hbel&Hown)&Hpath&Hdis&->).
    pose proof (below_lookup (length st) k M) as Hl. rewrite Hbel, Hv in Hl.
    apply lookup_singleton_Some in Hl as [-> ->].
    assert (st ≠ []) as Hst by (by destruct st; [simpl in Hlt; lia|]).
    exists q, nid, st, fpl, fpr, sq. split_and!; try done.
    apply not_true_iff_false. by rewrite isRoot_spec.
  - destruct He as (_&_&_&He&_). rewrite <-(below_lookup (S (length st))), He in Hv. done.
Qed.

Lemma updateGiveItem_ok k v v0 a b M m h fp :
  T = leaf_type a b → writable m → is_key k → (12 <= length v0)%nat →
  M !! k = Some v0 → (lhash T k v = lhash T k v0 → v = v0) →
  root_repr h (seq_ m) (root_ m) M fp →
  changes (updateGiveItem (mkItem k v) a b m) h m fp (true, <[k := v]> M).
Proof.
  intros HT Hw Hk Hv0 HM Hcoll Hr. pose proof (leaf_type_T _ _ HT) as HlT. pose proof (w_ne m Hw) as Hs0.
  destruct (walk_hit k v0 M m h fp Hk Hr HM)
    as (q&nid&st&fpl&fpr&sq&Hwalk&Hroot&Hsz&Hvalid&Hd&Hst&Hir&Hbel&Hq&Hown&Hpath&Hdis&->).
  destruct (unshare_leaf h m q nid k v0 fpl sq) as (q1&h1&Hu&Hq1&He1&Hsub);
    [done..|apply Hw|by apply w_mutable|done|].
  unfold changes, updateGiveItem. cbn [item_key].
  rewrite (St_bind_ok _ _ _ _ _ (assert_run (negb (bool_decide (state_ m = Immutable))) h ltac:(rewrite bool_decide_false; [done|by apply w_mutable]))).
  rewrite (St_bind_ok _ _ _ _ _ Hwalk), (St_bind_ok _ _ _ _ _ (load_ok _ _ _ Hq)).
  cbn [item_key]. rewrite bool_decide_true by done. cbn [negb].
  rewrite (St_bind_ok _ _ _ _ _ Hu). cbv beta iota.
  rewrite (St_bind_ok _ _ _ _ _ (load_ok _ _ _ Hq1)), <-HT.
  rewrite (St_bind_ok _ _ _ _ _ (lift_ok _ _ h1 (setItem_ok k v k v0 (seq_ m) _ HlT Hs0))). cbv beta iota.
  set (n' := TreeNode (seq_ m) _ _ _).
  rewrite (St_bind_ok _ _ _ _ _ (eq_refl : save q1 n' h1 = Ok (tt, <[q1 := n']> h1))).
  assert (evolves h1 {[q1]} (<[q1 := n']> h1) {[q1]}) as He2
    by (apply evolves_save; [set_solver|by intros n0 Hn0; simplify_eq]).
  case_bool_decide as Heq; cbn [negb].
  - specialize (Hcoll Heq) as ->. rewrite (insert_id h1 q1 n') in * by done.
    rewrite insert_id by done. exists m, h1, (fpl ∪ fpr). split_and!; [done| | |done].
    + eapply root_frame; [done|]. intros x n Hx _. by eapply lookup_weaken.
    + eapply evolves_keep; [done|set_solver].
  - assert (evolves h fpl (<[q1 := n']> h1) {[q1]}) as He by (by eapply evolves_trans).
    assert (fpr ## {[q1]}) as Hd1 by (eapply evolves_disjoint; [done|done|by eapply path_dom]).
    destruct (dirtyUp_ok T k (<[k := v]> M) st (<[q1 := n']> h1) m q1 n' {[q1]} fpr)
      as (m'&h'&fp'&Hdu&Hr'&He'&Hm'); try done.
    + eapply path_ext; [|eapply path_frame; [done|by eapply evolves_preserved]].
      intros k' Hne. by rewrite lookup_insert_ne.
    + apply Hw.
    + apply Hw.
    + apply tree_at_leaf; [by destruct st; simpl; [|lia]|]. exists (seq_ m), k, v.
      rewrite lookup_insert_eq, below_insert, Hbel, insert_singleton_eq. split_and!; [done..|]. by right.
    + left. rewrite below_insert. apply insert_non_empty.
    + by apply sizes_insert.
    + rewrite Hroot. by apply bottom_any.
    + apply lookup_insert_eq.
    + run Hdu. exists m', h', fp'. split_and!; [done|done| |done].
      eapply evolves_trans; [exact (evolves_frame _ _ _ _ fpr He)|done].
Qed.

(** A key that is not there trips an assertion. *)
Lemma updateGiveItem_missing k v a b M m h fp :
  writable m → is_key k → M !! k = None → root_repr h (seq_ m) (root_ m) M fp →
  updateGiveItem (mkItem k v) a b m h = Err assert_failed.
Proof.
  intros Hw Hk HM Hr. destruct (walkTowardsKey_ok T k M m h fp Hk Hr) as (r&q&nid&st&Hwalk&He&_).
  unfold updateGiveItem. cbn [item_key].
  run (assert_run (negb (bool_decide (state_ m = Immutable))) h ltac:(rewrite bool_decide_false; [done|by apply w_mutable])).
  run Hwalk. destruct He as (_&_&He). destruct r as [l|].
  - destruct He as (->&_&fpl&fpr&(sq&k0&v0&Hq&Hbel&_)&_). run_load. cbn [item_key].
    rewrite bool_decide_false; [done|]. intros ->. pose proof (below_lookup (length st) k M) as Hl.
    by rewrite Hbel, lookup_singleton_eq, HM in Hl.
  - destruct He as (_&_&_&sq&fpn&fpr&(ha&ib&hs&ch&fps&Hq&_)&_). by run_load.
Qed.
End add.
