(* ===== verification/SHAMapDel.v ===== *)
(** * Deleting items of a hash tree

    On the way up every inner node left with a single item becomes the leaf of that item, and
    one left with none disappears, so that the tree has the shape its contents determine. *)

From S2P Require Import Prelude Bytes NodeCodec SHANode SHAKeys SHAMap SHAMapInv SHAMapSteps.
From S2P Require Import SHAMapOps SHAMapAdd.
Local Open Scope Z_scope.

(** ** Branches in use *)

Definition branches (isBranch : Z) : list nat :=
  filter (fun i => isEmptyBranch isBranch i = false) (seq 0 16).

(** [L] lists the branches where [N] has items. *)
Definition branches_of (d : nat) (N : contents) (L : list nat) : Prop :=
  NoDup L ∧ ∀ i, i ∈ L ↔ (i < 16)%nat ∧ sub d i N ≠ ∅.

Lemma branches_none d N : branches_of d N [] → N = ∅.
Proof.
  intros [_ HL]. apply map_empty. intros k. apply eq_None_not_Some. intros [v Hv].
  assert (nib d k ∈ []) as Hin; [|by apply elem_of_nil in Hin].
  apply HL. split; [apply nib_lt|]. intros E. by eapply sub_empty.
Qed.

Lemma branches_one d N i : branches_of d N [i] → sub d i N = N ∧ N ≠ ∅ ∧ (i < 16)%nat.
Proof.
  intros [_ HL]. assert (i ∈ [i]) as Hi by set_solver. apply HL in Hi as [Hi Hne].
  split_and!; [| |done].
  - apply map_eq. intros k. apply option_eq. intros v. rewrite lookup_sub. split; [tauto|].
    intros Hk. split; [done|]. apply list_elem_of_singleton, HL. split; [apply nib_lt|].
    intros E. by eapply sub_empty.
  - intros ->. by rewrite (map_filter_empty _ : sub d i ∅ = ∅) in Hne.
Qed.

Lemma branches_more d N i j L : branches_of d N (i :: j :: L) → (2 <= size N)%nat.
Proof.
  intros [Hnd HL]. assert (i ≠ j) as Hij.
  { intros ->. apply NoDup_cons in Hnd as [Hn _]. set_solver. }
  destruct (proj1 (HL i)) as [_ Hi]; [set_solver|]. destruct (proj1 (HL j)) as [_ Hj]; [set_solver|].
  apply map_choose in Hi as (k&v&[Hk Hnk]%lookup_sub), Hj as (k'&v'&[Hk' Hnk']%lookup_sub).
  assert (k ≠ k') as Hne by congruence.
  rewrite <-(size_pair k' k v' v) by done. apply map_subseteq_size, map_subseteq_spec.
  intros x w [[-> ->]|[_ [-> ->]%lookup_singleton_Some]]%lookup_insert_Some; done.
Qed.

(** The item of contents with just one. *)
Definition only (N : contents) : option SHAMapItem :=
  match map_to_list N with [(k, v)] => Some (mkItem k v) | _ => None end.

Lemma only_singleton k v : only {[k := v]} = Some (mkItem k v).
Proof. unfold only. by rewrite map_to_list_singleton. Qed.
Lemma only_none N : (2 <= size N)%nat → only N = None.
Proof.
  unfold only. rewrite <-length_map_to_list. destruct (map_to_list N) as [|[] []]; simpl; [done|lia|done].
Qed.
Lemma only_some N k v : only N = Some (mkItem k v) → N = {[k := v]}.
Proof.
  unfold only. destruct (map_to_list N) as [|[k0 v0] []] eqn:E; [done| |done]. intros [= -> ->].
  rewrite (map_to_list_insert_inv N [] k v) by (by rewrite E). apply insert_empty.
Qed.

Section del.
Context `{!Sha512Half} (T : TNType).
Abbreviation repr := (repr T).
Abbreviation root_repr := (root_repr T).
Abbreviation tree_at := (tree_at T).
Abbreviation path := (path T).
Abbreviation inner_at d h s := (inner_ok T (repr (63 - d) (S d) h s) (63 - d) d h s).

Lemma branches_ok (R : loc → contents → gset loc → Prop) d N hs isb ch (fps : nat → gset loc) :
  inner_shape hs isb ch → (∀ i c, ch !! i = Some c → child_ok R c (sub d i N) (fps i)) →
  branches_of d N (branches isb).
Proof.
  intros Hsh Hch. split; [apply NoDup_filter, NoDup_seq|]. intros i. unfold branches.
  rewrite list_elem_of_filter, elem_of_seq. split.
  - intros [Hb Hi]. destruct (lookup_lt_is_Some_2 ch i) as [c Hc]; [rewrite (is_children _ _ _ Hsh); lia|].
    rewrite (branch_bit _ _ _ _ _ Hsh Hc) in Hb. split; [lia|]. specialize (Hch i c Hc).
    destruct c; [apply Hch|done].
  - intros [Hi Hne]. destruct (lookup_lt_is_Some_2 ch i) as [c Hc]; [rewrite (is_children _ _ _ Hsh); lia|].
    rewrite (branch_bit _ _ _ _ _ Hsh Hc). split; [|lia]. specialize (Hch i c Hc).
    destruct c; [done|]. by destruct Hch.
Qed.

Lemma branch_child R d N hs isb ch (fps : nat → gset loc) i L :
  inner_shape hs isb ch → (∀ i c, ch !! i = Some c → child_ok R c (sub d i N) (fps i)) →
  branches isb = i :: L → ∃ q, ch !! i = Some (Some q) ∧ R q (sub d i N) (fps i).
Proof.
  intros Hsh Hch HL. destruct (branches_ok R d N hs isb ch fps Hsh Hch) as [_ HB].
  rewrite HL in HB. destruct (proj1 (HB i)) as [Hi Hne]; [set_solver|].
  destruct (lookup_lt_is_Some_2 ch i) as [c Hc]; [rewrite (is_children _ _ _ Hsh); lia|].
  specialize (Hch i c Hc). destruct c as [q|]; [exists q; by destruct Hch|by destruct Hch].
Qed.

Lemma onlyBelow_inner (R : loc → contents → gset loc → Prop) n d h s p N fp fuel :
  inner_ok T R n d h s p N fp → N ≠ ∅ →
  (∀ q N f, R q N f → onlyBelow fuel q h = Ok (only N, h)) →
  onlyBelow (S fuel) p h = Ok (only N, h).
Proof.
  intros (sq&hash&isb&hs&ch&fps&Hp&Hsh&Hch&_) Hne HR. cbn [onlyBelow]. run_load.
  pose proof (branches_ok R d N hs isb ch fps Hsh Hch) as HB. fold (branches isb).
  destruct (branches isb) as [|i [|j L]] eqn:HL.
  - by apply branches_none in HB.
  - destruct (branch_child R d N hs isb ch fps i [] Hsh Hch HL) as (q&Hq&HRq).
    apply branches_one in HB as [Hsub _]. rewrite Hsub in HRq.
    run (descendThrow_ok isb ch i q h Hq). by eapply HR.
  - destruct (branch_child R d N hs isb ch fps i (j :: L) Hsh Hch HL) as (q&Hq&_).
    run (descendThrow_ok isb ch i q h Hq). by rewrite only_none by (by eapply branches_more).
Qed.

Lemma onlyBelow_repr n : ∀ d h s p N fp fuel,
  repr n d h s p N fp → (n < fuel)%nat → onlyBelow fuel p h = Ok (only N, h).
Proof.
  assert (∀ h s p N fp fuel, leaf_ok T h s p N fp → onlyBelow (S fuel) p h = Ok (only N, h)) as Hleaf.
  { intros h s p N fp fuel (sq&k&v&Hp&->&_). cbn [onlyBelow]. run_load. by rewrite only_singleton. }
  induction n as [|n IH]; intros d h s p N fp fuel Hr Hf;
    (destruct fuel as [|fuel]; [lia|]); destruct Hr as [Hl|[Hsz Hi]]; try done; try by eapply Hleaf.
  eapply onlyBelow_inner; [done| |].
  - intros ->. rewrite map_size_empty in Hsz. lia.
  - intros q N' f Hq. eapply IH; [done|lia].
Qed.

(** ** Pulling up the last item *)

Lemma setChild_clear h p b sq hash isb hs ch fp :
  h !! p = Some (InnerNode sq hash isb hs ch) → sq ≠ 0 → (b < 16)%nat → p ∈ fp →
  ∃ h', setChild_at p b None h = Ok (tt, h') ∧ evolves h fp h' fp.
Proof.
  intros Hp Hs Hb Hin. unfold setChild_at. run_load. unfold setChild.
  rewrite (proj2 (Nat.ltb_lt b 16)), (proj2 (Z.eqb_neq sq 0)) by done. cbn [assert_ negb mbind res_bind].
  rewrite bool_decide_false by done. eexists. split; [done|].
  apply evolves_save; [done|]. by intros n0 Hn0; simplify_eq.
Qed.

Lemma pull_up_ok h s d p N fp :
  is_leaf_type T → s ≠ 0 → (0 < d < 64)%nat → wf_contents N → inner_at d h s p N fp → p ∈ fp →
  ∃ c h' fp', pull_up p T h = Ok (c, h')
    ∧ child_ok (repr (64 - d) d h' s) c N fp' ∧ evolves h fp h' fp'.
Proof.
  intros HT Hs0 Hd HwN Hi Hin. pose proof Hi as (sq&hash&isb&hs&ch&fps&Hp&Hsh&Hch&Hown).
  assert (sq = s) as -> by (destruct Hown as [(_&->&_)|(->&_)]; [set_solver|done]).
  pose proof (branches_ok _ d N hs isb ch fps Hsh Hch) as HB.
  assert (getBranchCount isb = length (branches isb)) as Hbc by done.
  assert ((2 <= size N)%nat → child_ok (repr (64 - d) d h s) (Some p) N fp) as Hkeep.
  { intros Hsz. replace (64 - d)%nat with (S (63 - d)) by lia. split; [|right; by split].
    intros ->. rewrite map_size_empty in Hsz. lia. }
  unfold pull_up. run_load. cbv zeta. rewrite Hbc.
  destruct (branches isb) as [|i [|j L]] eqn:HL; cbn [length Nat.eqb].
  - apply branches_none in HB as ->. exists None, h, ∅. split_and!; [done|done|].
    eapply evolves_weaken; [apply evolves_refl|done|apply empty_subseteq].
  - apply branches_one in HB as (Hsub&Hne&Hi16).
    assert (onlyBelow 65 p h = Ok (only N, h)) as Hob.
    { eapply onlyBelow_inner; [done|done|]. intros q N' f Hq. eapply onlyBelow_repr; [done|lia]. }
    run Hob. destruct (only N) as [[k v]|] eqn:Ho.
    + apply only_some in Ho as ->.
      assert (first_branch isb = Some i) as Hfb by (unfold first_branch; fold (branches isb); by rewrite HL).
      run (lift_ok (deref (first_branch isb)) i h ltac:(by rewrite Hfb)).
      destruct (setChild_clear h p i s hash isb hs ch fp Hp Hs0 Hi16 Hin) as (h1&Hc1&He1). run Hc1.
      destruct (HwN k v (lookup_singleton_eq _ _)) as [_ Hv].
      run (lift_ok _ _ h1 (new_leaf_ok T k v s HT Hv)).
      destruct (alloc_leaf T h1 s k v) as (q&h2&Ha&Hl&He2). run Ha.
      exists (Some q), h2, {[q]}. split_and!; [done| |].
      * split; [apply map_non_empty_singleton|]. destruct (64 - d)%nat; by left.
      * eapply evolves_trans; [exact He1|]. eapply evolves_weaken; [exact He2|apply empty_subseteq|done].
    + exists (Some p), h, fp. split_and!; [done| |apply evolves_refl]. apply Hkeep.
      destruct (decide (size N = 0%nat)) as [Hz|Hz]; [by apply map_size_empty_iff in Hz|].
      destruct (decide (size N = 1%nat)) as [H1|H1]; [|lia].
      apply size_1 in H1 as (k&v&->). by rewrite only_singleton in Ho.
  - exists (Some p), h, fp. split_and!; [done| |apply evolves_refl]. apply Hkeep. by eapply branches_more.
Qed.

Lemma del_loop_ok id M st : ∀ h m c fpc fpr,
  is_leaf_type T → is_key id → writable m → wf_contents M → st ≠ [] →
  path h (seq_ m) id M st fpr →
  child_ok (repr (64 - length st) (length st) h (seq_ m)) c (below (length st) id M) fpc →
  fpc ## fpr → (∀ p, root_ m = bottom st p) →
  ∃ m' h' fp', del_loop st id T c m h = Ok (m', h')
    ∧ root_repr h' (seq_ m) (root_ m') M fp' ∧ evolves h (fpc ∪ fpr) h' fp'
    ∧ moved m (root_ m') m'.
Proof.
  induction st as [|[p nid] st IH]; intros h m c fpc fpr HT Hid Hw HwM Hst Hpath Hc Hdis Hroot; [done|].
  pose proof Hpath as Hpath'. cbn [path] in Hpath'. destruct Hpath' as (Hd64&_&Hd&_).
  cbn [length] in Hc. replace (64 - S (length st))%nat with (63 - length st)%nat in Hc by lia.
  destruct (step_up T h m id M p nid st c fpc fpr)
    as (q&m1&h1&h2&fp1&fpr1&Hsb&Hu&Hsc&Hi&Hq&Hp1&Hd1&He&Es&Et&Er);
    [done|done|apply Hw|by apply w_mutable|done|done|by rewrite (Hroot p), bottom_cons|].
  cbn [del_loop]. run Hu. run (lift_ok _ _ h1 Hsb). run Hsc.
  pose proof (isRoot_spec nid st Hd) as Hir. destruct st as [|y st'].
  - rewrite (proj2 Hir eq_refl). cbn [del_loop]. cbn in Hp1. subst fpr1.
    exists m1, h2, fp1. cbn [bottom last] in Er. split_and!; [done| | |by repeat split].
    + rewrite Er. cbn [length] in Hi. by rewrite below_0 in Hi.
    + by rewrite union_empty_r_L in He.
  - set (st := y :: st') in *. assert (isRoot nid = false) as -> by (apply not_true_iff_false; by rewrite Hir).
    destruct (pull_up_ok h2 (seq_ m) (length st) q (below (length st) id M) fp1) as (c'&h3&fp3&Hpu&Hc'&He3);
      [done|by apply w_ne|simpl in *; lia|by apply wf_below|done|done|].
    run Hpu. pose proof (path_dom _ _ _ _ _ _ _ Hp1) as Hdom.
    destruct (IH h3 m1 c' fp3 fpr1) as (m'&h'&fp'&Hdl&Hr&He'&Hm'&Hst'&_); rewrite ?Es; try done.
    + split; [rewrite Es; apply Hw|rewrite Et; apply Hw].
    + eapply path_frame; [done|]. by eapply evolves_preserved.
    + symmetry. by eapply evolves_disjoint.
    + intros x. rewrite Er. by apply bottom_any.
    + exists m', h', fp'. rewrite Es in *. split_and!; [done|done| |split_and!; congruence].
      eapply evolves_trans; [exact He|]. eapply evolves_trans; [exact (evolves_frame _ _ _ _ fpr1 He3)|done].
Qed.

(** ** [delItem] *)

Definition del_result (k : uint256) (M : contents) : bool * contents :=
  (bool_decide (is_Some (M !! k)), delete k M).

Lemma below_delete d id M : below d id (delete id M) = delete id (below d id M).
Proof.
  apply map_eq. intros k. apply option_eq. intros w. rewrite lookup_below, !lookup_delete_Some, lookup_below.
  tauto.
Qed.

Lemma wf_delete k M : wf_contents M → wf_contents (delete k M).
Proof. intros Hw k' v [_ Hk]%lookup_delete_Some. by apply Hw. Qed.

Lemma delItem_ok k M m h fp :
  is_leaf_type T → writable m → is_key k → wf_contents M →
  root_repr h (seq_ m) (root_ m) M fp →
  changes T (delItem k m) h m fp (del_result k M).
Proof.
  intros HT Hw Hk HwM Hr. unfold changes, delItem, del_result.
  rewrite (St_bind_ok _ _ _ _ _ (assert_run (negb (bool_decide (state_ m = Immutable))) h
    ltac:(rewrite bool_decide_false; [done|by apply w_mutable]))).
  destruct (M !! k) as [v|] eqn:HM.
  - destruct (walk_hit T k v M m h fp Hk Hr HM)
      as (q&nid&st&fpl&fpr&sq&Hwalk&Hroot&Hsz&Hvalid&Hd&Hst&Hir&Hbel&Hq&Hown&Hpath&Hdis&->).
    rewrite (St_bind_ok _ _ _ _ _ Hwalk). cbv beta iota.
    rewrite (St_bind_ok _ _ _ _ _ (load_ok _ _ _ Hq)). cbn [item_key]. rewrite decide_True by done.
    destruct (del_loop_ok k (delete k M) st h m None ∅ fpr) as (m'&h'&fp'&Hdl&Hr'&He&Hm'); try done.
    + by apply wf_delete.
    + eapply path_ext; [|done]. intros k' Hne. by rewrite lookup_delete_ne.
    + split; [|done]. by rewrite below_delete, Hbel, delete_singleton_eq.
    + intros x. rewrite Hroot. by apply bottom_any.
    + exists m', h', fp'. run Hdl. split_and!; [done|done| |done].
      eapply evolves_weaken; [exact He|rewrite union_empty_l_L; apply union_subseteq_r|done].
  - destruct (walkTowardsKey_ok T k M m h fp Hk Hr) as (r&q&nid&st&Hwalk&He&_).
    rewrite (St_bind_ok _ _ _ _ _ Hwalk). cbv beta iota. exists m, h, fp. cbn [fst snd].
    rewrite delete_id by done. split_and!; [|done|apply evolves_refl|done].
    destruct He as (_&_&He). destruct r as [l|].
    + destruct He as (->&_&fpl&fpr&(sq&k0&v0&Hq&Hbel&_)&_). run_load. cbn [item_key].
      rewrite decide_False; [done|]. intros ->. pose proof (below_lookup (length st) k M) as Hl.
      by rewrite Hbel, lookup_singleton_eq, HM in Hl.
    + destruct He as (_&_&_&sq&fpn&fpr&(ha&ib&hs&ch&fps&Hq&_)&_). by run_load.
Qed.
End del.
