(* ===== verification/SHAMapFlush.v ===== *)
(** * Hashing and sharing a hash tree

    [unshare] visits the nodes that are not shared yet, copies those of another map, and
    gives each its hash and the sequence number 0.  The hash of the root is then a function
    of the contents alone. *)

From S2P Require Import Prelude Bytes NodeCodec SHANode SHAKeys SHAMap SHAMapInv SHAMapSteps.
From S2P Require Import SHAMapOps SHAMapAdd SHAMapDel.
Local Open Scope Z_scope.

Section hash.
Context `{!Sha512Half} (T : TNType).
Abbreviation repr := (repr T).
Abbreviation root_repr := (root_repr T).

(** ** Hashes of shared trees *)

Lemma thash_empty n d : thash T n d ∅ = zero256.
Proof. by destruct n; cbn [thash]; rewrite map_to_list_empty. Qed.
Lemma thash_singleton n d k v : thash T n d {[k := v]} = lhash T k v.
Proof. by destruct n; cbn [thash]; rewrite map_to_list_singleton. Qed.
Lemma thash_more n d N : (2 <= size N)%nat →
  thash T (S n) d N = sha512Half (field_bytes uint32_t innerNode ++ concat (bhashes T n d N)).
Proof.
  intros Hs. cbn [thash]. rewrite <-length_map_to_list in Hs.
  destruct (map_to_list N) as [|[] [|]]; simpl in Hs; [lia|lia|done].
Qed.

Lemma inner_clean R n d h s p N :
  inner_ok T R n d h s p N ∅ →
  ∃ isb ch, h !! p = Some (InnerNode 0 (inner_hash isb (bhashes T n d N)) isb (bhashes T n d N) ch)
    ∧ inner_shape (bhashes T n d N) isb ch ∧ (∀ i c, ch !! i = Some c → child_ok R c (sub d i N) ∅).
Proof.
  intros (sq&hash&isb&hs&ch&fps&Hp&Hsh&Hch&[(->&_&Hf&->&->)|(_&_&_&Hfp&_)]); [|set_solver].
  exists isb, ch. split_and!; [done|done|]. intros i c Hc. rewrite <-(Hf i). by apply Hch.
Qed.

Lemma isb_nonzero R d N hs isb ch (fps : nat → gset loc) :
  inner_shape hs isb ch → (∀ i c, ch !! i = Some c → child_ok R c (sub d i N) (fps i)) →
  isb =? 0 = bool_decide (N = ∅).
Proof.
  intros Hsh Hch. pose proof (branches_ok R d N hs isb ch fps Hsh Hch) as HB.
  destruct (Z.eqb_spec isb 0) as [->|Hne]; symmetry.
  - apply bool_decide_true. apply (branches_none d N). assert (branches 0 = []) as E by (by vm_compute). by rewrite E in HB.
  - apply bool_decide_false. intros ->. apply Hne, Z.bits_inj_0. intros j.
    destruct (decide (j < 0)) as [Hj|Hj]; [by apply Z.testbit_neg_r|].
    rewrite <-(Z2Nat.id j), (is_bits _ _ _ Hsh) by lia.
    destruct (ch !! Z.to_nat j) as [[q|]|] eqn:E; [|done..]. specialize (Hch _ _ E). destruct Hch as [Hch _].
    by rewrite (map_filter_empty _ : sub d (Z.to_nat j) ∅ = ∅) in Hch.
Qed.

(** A shared node carries the hash of its contents. *)
Lemma repr_clean_hash n d h s p N :
  repr n d h s p N ∅ →
  ∃ nd, h !! p = Some nd ∧ getSeq nd = 0 ∧ getNodeHash nd = thash T n d N.
Proof.
  destruct n as [|n]; intros [Hl|[Hsz Hi]]; try done.
  1,2: destruct Hl as (sq&k&v&Hp&->&[[-> _]|[_ ?]]); [|set_solver]; eexists; rewrite thash_singleton; done.
  apply inner_clean in Hi as (isb&ch&Hp&Hsh&Hch). eexists. split_and!; [done|done|].
  cbn [getNodeHash]. rewrite thash_more by done. unfold inner_hash.
  rewrite (isb_nonzero _ d N _ isb ch (fun _ => ∅) Hsh Hch), bool_decide_false; [done|].
  intros ->. rewrite map_size_empty in Hsz. lia.
Qed.

(** Shared trees are the same for all maps. *)
Lemma repr_clean_any n : ∀ d h s s' p N, repr n d h s p N ∅ → repr n d h s' p N ∅.
Proof.
  assert (∀ h s s' p N, leaf_ok T h s p N ∅ → leaf_ok T h s' p N ∅) as Hleaf.
  { intros h s s' p N (sq&k&v&Hp&HN&[[-> _]|[_ ?]]); [|set_solver]. exists 0, k, v. auto. }
  induction n as [|n IH]; intros d h s s' p N [Hl|[Hsz Hi]]; try done; try (left; by eapply Hleaf).
  right. split; [done|]. apply inner_clean in Hi as (isb&ch&Hp&Hsh&Hch).
  eexists 0, _, isb, _, ch, (fun _ => ∅). split_and!; [done|done| |by left].
  intros i c Hc. eapply child_ok_impl; [|by apply Hch]. intros q. apply IH.
Qed.

Lemma root_clean_any h s s' p M : root_repr h s p M ∅ → root_repr h s' p M ∅.
Proof.
  intros (isb&ch&Hp&Hsh&Hch)%inner_clean. eexists 0, _, isb, _, ch, (fun _ => ∅).
  split_and!; [done|done| |by left]. intros i c Hc. eapply child_ok_impl; [|by apply Hch].
  intros q. apply repr_clean_any.
Qed.

Lemma root_clean_hash h s p M :
  root_repr h s p M ∅ → ∃ nd, h !! p = Some nd ∧ getSeq nd = 0 ∧ getNodeHash nd = rhash T M.
Proof.
  intros (isb&ch&Hp&Hsh&Hch)%inner_clean. eexists. split_and!; [done|done|].
  cbn [getNodeHash]. unfold inner_hash, rhash.
  rewrite (isb_nonzero _ 0 M _ isb ch (fun _ => ∅) Hsh Hch). by repeat case_decide.
Qed.

(** [updateHashDeep] on a node with shared children. *)
Lemma child_hashes_ok n d h s N hs isb ch :
  inner_shape hs isb ch →
  (∀ i c, ch !! i = Some c → child_ok (repr n (S d) h s) c (sub d i N) ∅) →
  child_hashes ch hs h = Ok (bhashes T n d N, h).
Proof.
  intros Hsh Hch. unfold bhashes. destruct Hsh as [Hl1 Hl2 _ Hz _]. clear isb.
  assert (∀ k j ch hs, length ch = k → length hs = k →
    (∀ i c, ch !! i = Some c → child_ok (repr n (S d) h s) c (sub d (j + i) N) ∅) →
    (∀ i, ch !! i = Some None → hs !! i = Some zero256) →
    child_hashes ch hs h = Ok ((fun i => thash T n (S d) (sub d i N)) <$> seq j k, h)) as Hgen.
  { induction k as [|k IH]; intros j [|c ch'] [|o hs'] Hc Hh Hok Hn; simplify_eq/=; [done|].
    pose proof (Hok 0%nat c eq_refl) as Hc0. rewrite Nat.add_0_r in Hc0.
    specialize (IH (S j) ch' hs' Hc eq_refl).
    assert ((match c with Some q => n0 ← load q; mret (getNodeHash n0) | None => mret o end) h
      = Ok (thash T n (S d) (sub d j N), h)) as E.
    { destruct c as [q|].
      - destruct Hc0 as [_ Hc0]. apply repr_clean_hash in Hc0 as (nd&Hq&_&Hh'). run_load. by rewrite Hh'.
      - destruct Hc0 as [-> _]. rewrite thash_empty. specialize (Hn 0%nat eq_refl). by simplify_eq/=. }
    run E. rewrite (St_bind_ok _ _ _ _ _ (IH ltac:(intros i c' Hc'; replace (S j + i)%nat with (j + S i)%nat by lia; by apply Hok)
      ltac:(intros i Hi; by apply (Hn (S i))))). done. }
  apply (Hgen 16%nat 0%nat ch hs); done.
Qed.
End hash.

(** ** Flushing *)

Section flush.
Context `{!Sha512Half} (T : TNType) (s : Z) (m : SHAMap).
(** The tree is owned under the sequence number [s]; the map that flushes may be another. *)
Context (HT : is_leaf_type T) (Hs : s ≠ 0) (Hm : seq_ m ≠ 0).
Abbreviation repr := (repr T).
Abbreviation root_repr := (root_repr T).

(** What the map may write of a footprint. *)
Definition mine (f : gset loc) : gset loc := if decide (s = seq_ m) then f else ∅.

Lemma mine_sub f : mine f ⊆ f.
Proof using. clear. unfold mine. case_decide; set_solver. Qed.
Lemma mine_mono f g : f ⊆ g → mine f ⊆ mine g.
Proof using. clear. unfold mine. case_decide; set_solver. Qed.

(** The node at [p] with its children before [pos] flushed. *)
Record flushing (n d : nat) (h : heap) (p : loc) (N : contents) (fps : nat → gset loc)
    (pos : nat) (hash : uint256) (isb : Z) (hs : list uint256) (ch : list (option loc)) : Prop := {
  fl_node : h !! p = Some (InnerNode (seq_ m) hash isb hs ch);
  fl_shape : inner_shape hs isb ch;
  fl_child i c : ch !! i = Some c →
    child_ok (repr n (S d) h s) c (sub d i N) (if decide (i < pos)%nat then ∅ else fps i);
  fl_fresh : p ∉ fp_union fps;
  fl_disjoint : fps_disjoint fps
}.

(** What follows when the node at [p] is flushed. *)
Definition flush_done (fuel : nat) (p : loc) (stack : list (loc * nat)) (flushed : Z) (h : heap)
  : res (loc * Z * heap) :=
  match stack with
  | [] => Ok ((p, flushed), h)
  | (parent, pos) :: stack =>
      (assert_ours parent m;; shareChild_at parent pos p;;
       flush_loop fuel parent (S pos) stack flushed m) h
  end.

(** The items in branch [pos] and after. *)
Definition from (d pos : nat) (N : contents) : contents := filter (fun kv => (pos <= nib d kv.1)%nat) N.

Lemma from_0 d N : from d 0 N = N.
Proof using.
  clear. apply map_eq. intros k. apply option_eq. intros v. unfold from. rewrite map_lookup_filter_Some.
  split; [tauto|]. intros ?. split; [done|]. simpl. lia.
Qed.
Lemma size_from d pos N :
  size (from d pos N) = (size (sub d pos N) + size (from d (S pos) N))%nat.
Proof using.
  clear. rewrite <-map_size_disj_union.
  - f_equal. apply map_eq. intros k. apply option_eq. intros v. unfold from, sub.
    rewrite lookup_union_Some, !map_lookup_filter_Some; simpl.
    + split; [|intros [[? ?]|[? ?]]; (split; [done|lia])]. intros [? ?].
      destruct (decide (nib d k = pos)); [by left|right; split; [done|lia]].
    + apply map_disjoint_spec. intros k' v1 v2 [_ H1]%map_lookup_filter_Some [_ H2]%map_lookup_filter_Some.
      simpl in *. lia.
  - apply map_disjoint_spec. intros k' v1 v2 [_ H1]%map_lookup_filter_Some [_ H2]%map_lookup_filter_Some.
    simpl in *. lia.
Qed.

(** The steps a flush takes from branch [pos] on. *)
Definition cost (n d : nat) (N : contents) (pos : nat) : nat :=
  17 - pos + 17 * n * size (from d pos N).

Lemma cost_next n d N pos :
  (pos < 16)%nat → (S (cost n d N (S pos)) + 17 * n * size (sub d pos N) <= cost n d N pos)%nat.
Proof using. clear. intros Hp. unfold cost. rewrite (size_from d pos N). nia. Qed.

(** A flush of the node at [p] from branch [pos] on. *)
Definition flushes (n d : nat) (h : heap) (p : loc) (N : contents) (W : gset loc) (pos : nat) : Prop :=
  ∀ stack fl, ∃ K h' fl', (K <= cost n d N pos)%nat ∧
    (∀ fuel, flush_loop (K + fuel) p pos stack fl m h = flush_done fuel p stack fl' h')
    ∧ inner_ok T (repr n (S d) h' s) n d h' s p N ∅ ∧ evolves h W h' ∅.

Lemma fps_in fps i x : (i < 16)%nat → x ∈ fps i → x ∈ fp_union fps.
Proof. intros Hi Hx. apply elem_of_fp_union. eauto. Qed.

(** The last step: the hashes, and sequence number 0. *)
Lemma flush_end n d h p N fps hash isb hs ch W :
  flushing n d h p N fps 16 hash isb hs ch → p ∈ W → flushes n d h p N W 16.
Proof.
  intros [Hp Hsh Hch _ _] HpW stack fl.
  assert (∀ i c, ch !! i = Some c → child_ok (repr n (S d) h s) c (sub d i N) ∅) as Hch'.
  { intros i c Hc. pose proof (lookup_lt_Some _ _ _ Hc) as Hi. rewrite (is_children _ _ _ Hsh) in Hi.
    specialize (Hch i c Hc). by rewrite decide_True in Hch. }
  set (hs' := bhashes T n d N). set (n' := InnerNode 0 (inner_hash isb hs') isb hs' ch).
  exists 1%nat, (<[p := n']> h), (fl + 1). split_and!; [unfold cost; lia|..].
  - intros fuel. cbn [Nat.add flush_loop]. run_load. cbn [Nat.ltb Nat.leb].
    assert (flush_inner p h = Ok (tt, <[p := n']> h)) as E.
    { unfold flush_inner. run_load.
      by rewrite (St_bind_ok _ _ _ _ _ (child_hashes_ok T n d h s N hs isb ch Hsh Hch')). }
    run E. by destruct stack as [|[]].
  - exists 0, (inner_hash isb hs'), isb, hs', ch, (fun _ => ∅).
    assert (preserved h (<[p := n']> h) ∅) as Hpr by (by eapply preserved_save).
    split_and!; [apply lookup_insert_eq| | |by left].
    + destruct Hsh as [_ Hc Hb _ Hz]. split; [done|done|done| |done]. intros i Hi. unfold hs', bhashes.
      rewrite list_lookup_fmap, lookup_seq_lt by (apply lookup_lt_Some in Hi; lia).
      destruct (Hch' i None Hi) as [E _]. simpl. by rewrite E, thash_empty.
    + intros i c Hc. eapply child_ok_frame; [by apply Hch'|done].
  - eapply evolves_weaken; [apply (evolves_save h p n' W)|done|set_solver]; [done|].
    by intros n0 Hn0; simplify_eq.
Qed.

(** A branch that needs no work. *)
Lemma flush_skip n d h p N fps pos hash isb hs ch W :
  flushing n d h p N fps pos hash isb hs ch → (pos < 16)%nat →
  match ch !! pos with Some (Some c) => fps pos = ∅ | _ => True end →
  (flushing n d h p N fps (S pos) hash isb hs ch → flushes n d h p N W (S pos)) →
  flushes n d h p N W pos.
Proof.
  intros [Hp Hsh Hch Hf Hd] Hpos Hskip Hnext stack fl.
  destruct (lookup_lt_is_Some_2 ch pos) as [c Hc]; [rewrite (is_children _ _ _ Hsh); lia|].
  pose proof (Hch pos c Hc) as Hc'. rewrite decide_False in Hc' by lia.
  assert (fps pos = ∅) as Hfe by (rewrite Hc in Hskip; destruct c; [done|apply Hc']).
  assert (flushing n d h p N fps (S pos) hash isb hs ch) as Hfl'.
  { split; [done|done| |done|done]. intros i c' Hic'. specialize (Hch i c' Hic').
    repeat case_decide; try done; try lia. assert (i = pos) as -> by lia. by rewrite Hfe in Hch. }
  destruct (Hnext Hfl' stack fl) as (K&h'&fl'&HK&Hrun&Hi&He).
  exists (S K), h', fl'. split_and!; [pose proof (cost_next n d N pos Hpos); lia| |done|done]. intros fuel. rewrite <-Hrun.
  cbn [Nat.add flush_loop]. run_load. rewrite (proj2 (Nat.ltb_lt pos 16)) by done.
  rewrite (branch_bit _ _ _ _ _ Hsh Hc). destruct c as [c|]; [|done].
  run (lift_ok (deref (ch !! pos)) _ h ltac:(by rewrite Hc)).
  destruct Hc' as [_ Hc']. rewrite Hfe in Hc'. apply repr_clean_hash in Hc' as (nd&Hnd&Hz&_).
  run_load. by rewrite Hz.
Qed.

(** A branch whose child, flushed, is at [c']. *)
Lemma flush_hook n d h p N fps pos hash isb hs ch h1 c' :
  flushing n d h p N fps pos hash isb hs ch → (pos < 16)%nat → 
  evolves h (mine (fps pos)) h1 ∅ →
  repr n (S d) h1 s c' (sub d pos N) ∅ → sub d pos N ≠ ∅ →
  (∃ c, ch !! pos = Some (Some c)) →
  ∃ h2, assert_ours p m h1 = Ok (tt, h1) ∧ shareChild_at p pos c' h1 = Ok (tt, h2)
    ∧ flushing n d h2 p N fps (S pos) hash isb hs (<[pos := Some c']> ch)
    ∧ evolves h ({[p]} ∪ mine (fps pos)) h2 ({[p]} ∪ mine (fps pos)).
Proof.
  intros [Hp Hsh Hch Hf Hd] Hpos He Hr Hne [c Hc].
  assert (p ∉ mine (fps pos)) as Hpm.
  { intros Hin%mine_sub. by apply Hf, (fps_in fps pos). }
  assert (h1 !! p = Some (InnerNode (seq_ m) hash isb hs ch)) as Hp1
    by (apply (ev_step _ _ _ _ He); [done|by right]).
  assert (c' ≠ p) as Hcp.
  { intros ->. apply repr_clean_hash in Hr as (nd&Hnd&Hz&_). rewrite Hp1 in Hnd. by simplify_eq/=. }
  assert (length ch = 16%nat) as Hlen by apply Hsh.
  set (n' := InnerNode (seq_ m) hash isb hs (<[pos := Some c']> ch)).
  exists (<[p := n']> h1). 
  assert (∀ X, p ∉ X → preserved h1 (<[p := n']> h1) X) as Hpr
    by (intros X HX; by eapply preserved_save).
  split_and!.
  - unfold assert_ours. run_load. apply assert_run, Z.eqb_refl.
  - unfold shareChild_at. run_load. unfold shareChild.
    rewrite (proj2 (Nat.ltb_lt pos 16)), (proj2 (Z.eqb_neq (seq_ m) 0)), bool_decide_false by done. done.
  - split; [apply lookup_insert_eq| | |done|done].
    + destruct Hsh as [Hh Hl Hb Hz Hn]. split; [done|by rewrite length_insert| | |done].
      * intros j. rewrite Hb. destruct (decide (j = pos)) as [->|Hj].
        -- by rewrite list_lookup_insert_eq, Hc by lia.
        -- by rewrite list_lookup_insert_ne.
      * intros i. destruct (decide (i = pos)) as [->|Hi]; [by rewrite list_lookup_insert_eq by lia|].
        rewrite list_lookup_insert_ne by done. apply Hz.
    + intros i c0 Hi. destruct (decide (i = pos)) as [->|Hi'].
      * rewrite list_lookup_insert_eq in Hi by lia. injection Hi as <-. rewrite decide_True by lia.
        split; [done|]. eapply repr_frame; [done|]. apply Hpr. set_solver.
      * rewrite list_lookup_insert_ne in Hi by done. specialize (Hch i c0 Hi).
        assert (i < 16)%nat as Hi16 by (apply lookup_lt_Some in Hi; lia).
        destruct (decide (i < pos)%nat).
        -- rewrite decide_True by lia. eapply child_ok_frame; [done|].
           eapply preserved_trans; [eapply evolves_preserved; [done|apply disjoint_empty_l]|].
           apply Hpr, not_elem_of_empty.
        -- rewrite decide_False by lia. eapply child_ok_frame; [done|].
           eapply preserved_trans; [eapply evolves_preserved; [done|]|apply Hpr].
           ++ intros x Hx Hx'%mine_sub. by apply (Hd i pos Hi16 Hpos Hi' x).
           ++ intros Hin. by apply Hf, (fps_in fps i).
  - eapply evolves_trans; [eapply evolves_keep; [exact He|apply union_subseteq_r]|].
    apply evolves_save; [set_solver|]. by intros n0 Hn0; simplify_eq.
Qed.

(** Nodes that need no flush own nothing. *)
Lemma repr_seq0 n d h p N f nd :
  repr n d h s p N f → h !! p = Some nd → getSeq nd = 0 → f = ∅.
Proof.
  destruct n as [|n]; intros [Hl|[_ Hi]] Hp Hz; try done.
  1,2: destruct Hl as (sq&k&v&Hp'&_&[[_ ->]|[-> _]]); [done|by simplify_eq/=].
  destruct Hi as (sq&hash&isb&hs&ch&fps&Hp'&_&_&[(_&->&_)|(->&_)]); [done|by simplify_eq/=].
Qed.

Lemma preFlush_inner n d h p N fps hash isb hs ch :
  h !! p = Some (InnerNode s hash isb hs ch) → inner_shape hs isb ch →
  (∀ i c, ch !! i = Some c → child_ok (repr n (S d) h s) c (sub d i N) (fps i)) →
  p ∉ fp_union fps → fps_disjoint fps →
  ∃ p' h1, preFlushNode p m h = Ok (p', h1) ∧ flushing n d h1 p' N fps 0 hash isb hs ch
    ∧ evolves h (mine ({[p]} ∪ fp_union fps)) h1 ({[p']} ∪ mine (fp_union fps)).
Proof.
  intros Hp Hsh Hch Hpn Hd. unfold preFlushNode. run_load. cbn [getSeq].
  run (assert_run (negb (s =? 0)) h ltac:(by rewrite (proj2 (Z.eqb_neq s 0)))). unfold mine.
  destruct (Z.eqb_spec s (seq_ m)) as [E|Hne]; cbn [negb].
  - rewrite !decide_True by done. exists p, h. split_and!; [done| |apply evolves_refl].
    split; [by rewrite <-E|done| |done|done]. intros i c Hc. rewrite decide_False by lia. by apply Hch.
  - rewrite !decide_False by done. cbn [clone].
    run (lift_ok (Ok (InnerNode (seq_ m) hash isb hs ch)) _ h eq_refl).
    set (n' := InnerNode (seq_ m) hash isb hs ch).
    eexists _, _. split_and!; [done| |rewrite union_empty_r_L; apply evolves_alloc].
    split; [apply lookup_insert_eq|done| | |done].
    + intros i c Hc. rewrite decide_False by lia. eapply child_ok_frame; [by apply Hch|]. apply preserved_alloc.
    + intros (i&Hi&Hin)%elem_of_fp_union. apply (is_fresh (dom h)).
      destruct (lookup_lt_is_Some_2 ch i) as [c Hc]; [rewrite (is_children _ _ _ Hsh); lia|].
      eapply child_ok_dom; [by apply Hch|done].
Qed.

Lemma flush_leaf_ok h c k v :
  h !! c = Some (TreeNode s (lhash T k v) T (mkItem k v)) → (12 <= length v)%nat →
  ∃ c' h1 h2 nd, preFlushNode c m h = Ok (c', h1)
    ∧ h1 !! c' = Some nd ∧ isInner nd = false ∧ evolves h (mine {[c]}) h1 {[c']}
    ∧ flush_leaf c' h1 = Ok (tt, h2)
    ∧ leaf_ok T h2 s c' {[k := v]} ∅ ∧ evolves h (mine {[c]}) h2 ∅.
Proof.
  intros Hc Hv.
  assert (∃ c' h1, preFlushNode c m h = Ok (c', h1)
    ∧ h1 !! c' = Some (TreeNode (seq_ m) (lhash T k v) T (mkItem k v))
    ∧ evolves h (mine {[c]}) h1 {[c']}) as (c'&h1&Hpf&Hc'&He).
  { unfold preFlushNode. run_load. cbn [getSeq].
    run (assert_run (negb (s =? 0)) h ltac:(by rewrite (proj2 (Z.eqb_neq s 0)))). unfold mine.
    destruct (Z.eqb_spec s (seq_ m)) as [E|Hne]; cbn [negb].
    - rewrite decide_True by done. exists c, h. split_and!; [done|by rewrite <-E|apply evolves_refl].
    - rewrite decide_False by done. cbn [clone item_data]. rewrite (proj2 (Nat.leb_le 12 _)) by done.
      eexists _, _. split_and!; [done|apply lookup_insert_eq|apply evolves_alloc]. }
  set (n' := TreeNode 0 (lhash T k v) T (mkItem k v)).
  exists c', h1, (<[c' := n']> h1). eexists. split_and!; [done|done| |done| | |].
  - by destruct HT as [E|[E|E]]; rewrite E.
  - unfold flush_leaf. run_load. by rewrite (St_bind_ok _ _ _ _ _ (lift_ok _ _ h1 (leaf_hash_ok T k v HT))).
  - exists 0, k, v. rewrite lookup_insert_eq. split_and!; [done..|]. by left.
  - eapply evolves_trans; [exact He|]. eapply evolves_weaken; [apply (evolves_save h1 c' n' {[c']})|done|apply empty_subseteq].
    + by apply elem_of_singleton.
    + by intros n0 Hn0; simplify_eq.
Qed.

(** ** The loop *)

Lemma flush_dirty_leaf n d h p N fps pos hash isb hs ch c k v W :
  flushing n d h p N fps pos hash isb hs ch → (pos < 16)%nat → ch !! pos = Some (Some c) →
  h !! c = Some (TreeNode s (lhash T k v) T (mkItem k v)) → fps pos = {[c]} →
  sub d pos N = {[k := v]} → (12 <= length v)%nat → {[p]} ∪ mine (fp_union fps) ⊆ W →
  (∀ h2 ch2, flushing n d h2 p N fps (S pos) hash isb hs ch2 → flushes n d h2 p N W (S pos)) →
  flushes n d h p N W pos.
Proof.
  intros Hfl Hpos Hc Hcn Hfps Hsub Hv HW Hnext stack fl.
  destruct (flush_leaf_ok h c k v Hcn Hv) as (c'&h1&h2&nd&Hpf&Hc'&Hin&He1&Hff&Hl&He2). rewrite <-Hfps in He1, He2.
  destruct (flush_hook n d h p N fps pos hash isb hs ch h2 c') as (h3&_&Hsc&Hfl'&He3); [done|done|done| | |eauto|].
  { rewrite Hsub. destruct n; by left. }
  { rewrite Hsub. apply map_non_empty_singleton. }
  destruct (Hnext h3 _ Hfl' stack (fl + 1)) as (K&h'&fl'&HK&Hrun&Hi&He).
  exists (S K), h', fl'. split_and!; [pose proof (cost_next n d N pos Hpos); lia| |done|].
  - intros fuel. rewrite <-Hrun. destruct Hfl as [Hp Hsh _ Hf _]. cbn [Nat.add flush_loop]. run_load.
    rewrite (proj2 (Nat.ltb_lt pos 16)), (branch_bit _ _ _ _ _ Hsh Hc) by done.
    run (lift_ok (deref (ch !! pos)) _ h ltac:(by rewrite Hc)). run_load.
    cbn [getSeq]. rewrite (proj2 (Z.eqb_neq s 0)) by done. run Hpf. run_load. rewrite Hin.
    assert (assert_ours p m h1 = Ok (tt, h1)) as Ha.
    { unfold assert_ours. rewrite (St_bind_ok _ _ _ _ _ (load_ok h1 p _ (ev_step _ _ _ _ He1 p _ Hp ltac:(right; intros Hx%mine_sub; by apply Hf, (fps_in fps pos))))).
      apply assert_run, Z.eqb_refl. }
    run Ha. run Hff. run Hsc. done.
  - eapply evolves_trans; [|exact He]. eapply evolves_keep; [exact He3|].
    etrans; [|exact HW]. apply union_mono_l, mine_mono. intros x. by apply fps_in.
Qed.

Lemma flush_dirty_inner n d h p N fps pos hash isb hs ch c W fpsc hash' isb' hs' ch' :
  flushing (S n) d h p N fps pos hash isb hs ch → (pos < 16)%nat → ch !! pos = Some (Some c) →
  h !! c = Some (InnerNode s hash' isb' hs' ch') → inner_shape hs' isb' ch' →
  (∀ i c, ch' !! i = Some c → child_ok (repr n (S (S d)) h s) c (sub (S d) i (sub d pos N)) (fpsc i)) →
  c ∉ fp_union fpsc → fps_disjoint fpsc → fps pos = {[c]} ∪ fp_union fpsc →
  (2 <= size (sub d pos N))%nat → {[p]} ∪ mine (fp_union fps) ⊆ W →
  (∀ h1 c', flushing n (S d) h1 c' (sub d pos N) fpsc 0 hash' isb' hs' ch' →
     flushes n (S d) h1 c' (sub d pos N) ({[c']} ∪ mine (fp_union fpsc)) 0) →
  (∀ h2 ch2, flushing (S n) d h2 p N fps (S pos) hash isb hs ch2 → flushes (S n) d h2 p N W (S pos)) →
  flushes (S n) d h p N W pos.
Proof.
  intros Hfl Hpos Hc Hcn Hsh' Hch' Hcf Hdc Hfps Hsz HW Hsubf Hnext stack fl.
  destruct (preFlush_inner n (S d) h c (sub d pos N) fpsc hash' isb' hs' ch') as (c'&h1&Hpf&Hfl1&He1); [done..|].
  rewrite <-Hfps in He1.
  destruct (Hsubf h1 c' Hfl1 ((p, pos) :: stack) fl) as (K1&h2&fl1&HK1&Hrun1&Hi1&He2).
  assert (evolves h (mine (fps pos)) h2 ∅) as He12 by (by eapply evolves_trans).
  destruct (flush_hook (S n) d h p N fps pos hash isb hs ch h2 c') as (h3&Ha&Hsc&Hfl'&He3); [done|done|done| | |eauto|].
  { right. split; [done|]. exact Hi1. }
  { intros E. rewrite E, map_size_empty in Hsz. lia. }
  destruct (Hnext h3 _ Hfl' stack fl1) as (K2&h'&fl'&HK2&Hrun2&Hi2&He).
  exists (S (K1 + K2)), h', fl'. split_and!; [| |done|].
  { pose proof (cost_next (S n) d N pos Hpos). unfold cost in HK1 at 1. rewrite from_0 in HK1. nia. }
  - intros fuel. rewrite <-Hrun2. destruct Hfl as [Hp Hsh _ Hf _]. cbn [Nat.add flush_loop]. run_load.
    rewrite (proj2 (Nat.ltb_lt pos 16)), (branch_bit _ _ _ _ _ Hsh Hc) by done.
    run (lift_ok (deref (ch !! pos)) _ h ltac:(by rewrite Hc)). run_load.
    cbn [getSeq]. rewrite (proj2 (Z.eqb_neq s 0)) by done. run Hpf.
    destruct Hfl1 as [Hc' _ _ _ _]. run_load.
    change (isInner (InnerNode (seq_ m) hash' isb' hs' ch')) with true. cbv iota.
    rewrite <-Nat.add_assoc, Hrun1. cbn [flush_done]. run Ha. run Hsc. done.
  - eapply evolves_trans; [|exact He]. eapply evolves_keep; [exact He3|].
    etrans; [|exact HW]. apply union_mono_l, mine_mono. intros x. by apply fps_in.
Qed.

(** One branch, whatever its child. *)
Lemma flush_branch n d h p N fps pos hash isb hs ch W :
  wf_contents N → flushing n d h p N fps pos hash isb hs ch → (pos < 16)%nat →
  {[p]} ∪ mine (fp_union fps) ⊆ W →
  (∀ n' d' h1 c' N' fpsc hash' isb' hs' ch', n = S n' → wf_contents N' →
     flushing n' d' h1 c' N' fpsc 0 hash' isb' hs' ch' →
     flushes n' d' h1 c' N' ({[c']} ∪ mine (fp_union fpsc)) 0) →
  (∀ h2 ch2, flushing n d h2 p N fps (S pos) hash isb hs ch2 → flushes n d h2 p N W (S pos)) →
  flushes n d h p N W pos.
Proof.
  intros HwN Hfl Hpos HW Hsubf Hnext. pose proof Hfl as [Hp Hsh Hch Hf Hd].
  destruct (lookup_lt_is_Some_2 ch pos) as [c Hc]; [rewrite (is_children _ _ _ Hsh); lia|].
  pose proof (Hch pos c Hc) as Hc'. rewrite decide_False in Hc' by lia.
  destruct c as [c|]; [|eapply flush_skip; [done|done|by rewrite Hc|apply Hnext]].
  destruct Hc' as [Hne Hr]. destruct n as [|n]; destruct Hr as [Hl|[Hsz Hi]]; try done.
  1,2: destruct Hl as (sq&k&v&Hcn&Hsub&[[-> Hfe]|[-> Hfe]]);
    [eapply flush_skip; [done|done|by rewrite Hc|apply Hnext]|];
    assert (12 <= length v)%nat as Hv
      by (eapply (wf_sub d pos N HwN); rewrite Hsub; apply lookup_singleton_eq);
    by eapply flush_dirty_leaf.
  destruct Hi as (sq&hash'&isb'&hs'&ch'&fpsc&Hcn&Hsh'&Hch'&[(->&Hfe&_)|(->&_&Hcf&Hfe&Hdc)]).
  - eapply flush_skip; [done|done|by rewrite Hc|apply Hnext].
  - eapply flush_dirty_inner; try done. intros h1 c' Hfl1. eapply Hsubf; [done|by apply wf_sub|done].
Qed.

Lemma flush_ok n : ∀ d h p N fps hash isb hs ch,
  wf_contents N → flushing n d h p N fps 0 hash isb hs ch →
  flushes n d h p N ({[p]} ∪ mine (fp_union fps)) 0.
Proof.
  induction n as [n IH] using lt_wf_ind. intros d h p N fps hash isb hs ch HwN.
  enough (∀ k pos h ch, (pos + k = 16)%nat → flushing n d h p N fps pos hash isb hs ch →
    flushes n d h p N ({[p]} ∪ mine (fp_union fps)) pos) as Hgen by (by apply (Hgen 16%nat)).
  clear h ch. induction k as [|k IHk]; intros pos h ch Hk Hfl.
  - assert (pos = 16%nat) as -> by lia. eapply flush_end; [done|]. apply elem_of_union_l. by apply elem_of_singleton.
  - eapply flush_branch; [done|done|lia|done| |].
    + intros n' d' h1 c' N' fpsc hash' isb' hs' ch' -> HwN'. apply IH; [lia|done].
    + intros h2 ch2 Hfl2. eapply IHk; [lia|exact Hfl2].
Qed.

(** ** [unshare] *)

Lemma new_root_ok (h : heap) : root_repr (<[fresh (dom h) := new_inner 0]> h) s (fresh (dom h)) ∅ ∅.
Proof.
  assert (∀ n d, bhashes T n d ∅ = replicate 16 zero256) as Hb.
  { intros n d. unfold bhashes. apply list_eq. intros i. rewrite list_lookup_fmap.
    destruct (decide (i < 16)%nat).
    - rewrite lookup_seq_lt, lookup_replicate_2 by done. simpl. f_equal.
      by rewrite (map_filter_empty _ : sub d i ∅ = ∅), thash_empty.
    - rewrite lookup_seq_ge by lia. symmetry. apply lookup_ge_None. rewrite length_replicate. lia. }
  exists 0, zero256, 0, (replicate 16 zero256), (replicate 16 None), (fun _ => ∅).
  split_and!; [apply lookup_insert_eq|apply new_inner_shape| |by left; rewrite Hb].
  intros i c Hc. apply lookup_replicate in Hc as [-> _]. split; [apply map_filter_empty|done].
Qed.

(** Enough steps for any tree of these contents. *)
Definition unshare_steps (M : contents) : nat := 17 + 17 * 63 * size M.

Lemma unshare_gen h M fp :
  wf_contents M → root_repr h s (root_ m) M fp →
  ∃ fl m' h', (∀ fuel, (unshare_steps M <= fuel)%nat → unshare fuel m h = Ok ((fl, m'), h'))
    ∧ root_repr h' s (root_ m') M ∅ ∧ evolves h (mine fp) h' ∅ ∧ moved m (root_ m') m'.
Proof.
  intros HwM (sq&hash&isb&hs&ch&fps&Hp&Hsh&Hch&Hown).
  destruct Hown as [(->&->&Hf&->&->)|(->&->&Hpn&->&Hd)].
  - exists 0, m, h. split_and!; [| |eapply evolves_weaken; [apply (evolves_refl h ∅)|apply empty_subseteq|done]|done].
    + intros fuel _. unfold unshare. by run_load.
    + eexists 0, _, isb, _, ch, (fun _ => ∅). split_and!; [done|done| |by left].
      intros i c Hc. rewrite <-(Hf i). by apply Hch.
  - pose proof (isb_nonzero _ 0 M hs isb ch fps Hsh Hch) as Hz. destruct (decide (M = ∅)) as [->|Hne].
    + eexists 1, (set_root _ m), _. split_and!; [|apply new_root_ok| |done].
      * intros fuel _. unfold unshare. run_load. cbn [getSeq]. rewrite (proj2 (Z.eqb_neq s 0)) by done.
        unfold isEmpty. rewrite Hz, bool_decide_true by done. done.
      * eapply evolves_weaken; [apply (evolves_alloc h (new_inner 0))|apply empty_subseteq|apply empty_subseteq].
    + destruct (preFlush_inner 63 0 h (root_ m) M fps zero256 isb hs ch) as (p&h1&Hpf&Hfl&He1); [done..|].
      destruct (flush_ok 63 0 h1 p M fps zero256 isb hs ch HwM Hfl [] 0) as (K&h2&fl&HK&Hrun&Hi&He2).
      exists fl, (set_root p m), h2. split_and!; [|done|by eapply evolves_trans|done].
      intros fuel Hfuel. assert (K <= fuel)%nat as HKf
        by (unfold cost in HK; rewrite from_0 in HK; unfold unshare_steps in Hfuel; lia).
      unfold unshare. run_load. cbn [getSeq]. rewrite (proj2 (Z.eqb_neq s 0)) by done.
      unfold isEmpty. rewrite Hz, bool_decide_false by done. run Hpf.
      replace fuel with (K + (fuel - K))%nat by lia. specialize (Hrun (fuel - K)%nat). cbn [flush_done] in Hrun.
      run Hrun. done.
Qed.
End flush.
