(* ===== verification/SHAMapWorld.v ===== *)
(** * Several hash trees in one memory

    Maps and their snapshots share nodes.  Seen from outside they are separate finite maps:
    a program of operations on any number of maps gives the results of the same program on
    finite maps, one for each. *)

From S2P Require Import Prelude Bytes NodeCodec SHANode SHAKeys SHAMap SHAMapInv SHAMapSteps.
From S2P Require Import SHAMapOps SHAMapAdd SHAMapDel SHAMapFlush.
Local Open Scope Z_scope.

(** ** Programs *)

(** Calls on the map with number [i]; new maps are numbered in order. *)
Inductive op :=
| New
| Add (i : nat) (k : uint256) (v : bytes)
| Update (i : nat) (k : uint256) (v : bytes)
| Delete (i : nat) (k : uint256)
| Peek (i : nat) (k : uint256)
| Has (i : nat) (k : uint256)
| Hash (i : nat)
| Unshare (i : nat)
| Snap (i : nat) (isMutable : bool).

Inductive outcome :=
| ODone
| OBool (b : bool)
| OItem (i : option SHAMapItem)
| OHash (h : uint256).

Section world.
Context `{!Sha512Half} (isTransaction hasMeta : bool).
Abbreviation T := (leaf_type isTransaction hasMeta).

(** A call that changes its map. *)
Definition on_map {A} (i : nat) (f : SHAMap → St (A * SHAMap)) (ms : list SHAMap)
  : St (A * list SHAMap) :=
  m ← lift (deref (ms !! i));
  '(a, m) ← f m;
  mret (a, <[i := m]> ms).

Definition exec (fuel : nat) (o : op) (ms : list SHAMap) : St (outcome * list SHAMap) :=
  match o with
  | New => m ← SHAMap_init; mret (ODone, ms ++ [m])
  | Add i k v =>
      '(b, ms) ← on_map i (addGiveItem (mkItem k v) isTransaction hasMeta) ms; mret (OBool b, ms)
  | Update i k v =>
      '(b, ms) ← on_map i (updateGiveItem (mkItem k v) isTransaction hasMeta) ms; mret (OBool b, ms)
  | Delete i k => '(b, ms) ← on_map i (delItem k) ms; mret (OBool b, ms)
  | Peek i k => m ← lift (deref (ms !! i)); r ← peekItem k m; mret (OItem r, ms)
  | Has i k => m ← lift (deref (ms !! i)); b ← hasItem k m; mret (OBool b, ms)
  | Hash i => '(hash, ms) ← on_map i (getHash fuel) ms; mret (OHash hash, ms)
  | Unshare i => '(_, ms) ← on_map i (unshare fuel) ms; mret (ODone, ms)
  | Snap i isMutable =>
      m ← lift (deref (ms !! i)); m' ← snapShot fuel isMutable m; mret (ODone, ms ++ [m'])
  end.

Fixpoint exec_all (fuel : nat) (os : list op) (ms : list SHAMap) : St (list outcome * list SHAMap) :=
  match os with
  | [] => mret ([], ms)
  | o :: os =>
      '(r, ms) ← exec fuel o ms;
      '(rs, ms) ← exec_all fuel os ms;
      mret (r :: rs, ms)
  end.

(** ** The specification: finite maps, and whether each may change *)

Abbreviation abs := (contents * bool)%type.

Definition spec_item (k : uint256) (v : bytes) : bool :=
  bool_decide (length k = 32%nat) && Nat.leb 12 (length v).

(** Values of a key that the hash of the leaf tells apart. *)
Definition distinct (k : uint256) (v v' : bytes) : bool :=
  bool_decide (v = v') || negb (bool_decide (lhash T k v = lhash T k v')).

Definition spec_change (i : nat) (f : contents → option (bool * contents)) (As : list abs)
  : option (outcome * list abs) :=
  match As !! i with
  | Some (M, true) => match f M with Some (b, M') => Some (OBool b, <[i := (M', true)]> As) | None => None end
  | _ => None
  end.

Definition spec_read (i : nat) (f : contents → option outcome) (As : list abs)
  : option (outcome * list abs) :=
  match As !! i with
  | Some (M, _) => match f M with Some r => Some (r, As) | None => None end
  | None => None
  end.

(** The result and the new contents, or [None] where the code has an assertion (or the data
    of a leaf changes without its hash). *)
Definition spec (o : op) (As : list abs) : option (outcome * list abs) :=
  match o with
  | New => Some (ODone, As ++ [(∅, true)])
  | Add i k v => if spec_item k v then spec_change i (fun M => Some (add_result k v M)) As else None
  | Update i k v =>
      if spec_item k v then
        spec_change i (fun M => match M !! k with
          | Some v0 => if distinct k v v0 then Some (true, <[k := v]> M) else None
          | None => None end) As
      else None
  | Delete i k =>
      if decide (length k = 32%nat) then spec_change i (fun M => Some (del_result k M)) As else None
  | Peek i k =>
      if decide (length k = 32%nat) then spec_read i (fun M => Some (OItem (mkItem k <$> M !! k))) As else None
  | Has i k =>
      if decide (length k = 32%nat) then spec_read i (fun M => Some (OBool (bool_decide (is_Some (M !! k))))) As
      else None
  | Hash i => spec_read i (fun M => Some (OHash (rhash T M))) As
  | Unshare i => spec_read i (fun _ => Some ODone) As
  | Snap i isMutable =>
      match As !! i with Some (M, _) => Some (ODone, As ++ [(M, isMutable)]) | None => None end
  end.

Fixpoint spec_all (os : list op) (As : list abs) : option (list outcome * list abs) :=
  match os with
  | [] => Some ([], As)
  | o :: os =>
      match spec o As with
      | Some (r, As) => match spec_all os As with Some (rs, As) => Some (r :: rs, As) | None => None end
      | None => None
      end
  end.

(** ** The relation *)

(** A map, its contents, and the nodes it owns; sequence numbers are at most [b]. *)
Record map_ok (b : Z) (h : heap) (m : SHAMap) (A : abs) (fp : gset loc) : Prop := {
  mo_repr : root_repr T h (seq_ m) (root_ m) A.1 fp;
  mo_wf : wf_contents A.1;
  mo_seq : 0 < seq_ m <= b;
  mo_state : state_ m = if A.2 then Modifying else Immutable;
  mo_fp : A.2 = false → fp = ∅
}.

Definition world (b : Z) (h : heap) (ms : list SHAMap) (As : list abs) : Prop :=
  ∃ fps : list (gset loc),
    length As = length ms ∧ length fps = length ms
    ∧ (∀ i m A fp, ms !! i = Some m → As !! i = Some A → fps !! i = Some fp → map_ok b h m A fp)
    ∧ (∀ i j f g, i ≠ j → fps !! i = Some f → fps !! j = Some g → f ## g).

Lemma map_ok_frame b b' h h' m A fp :
  map_ok b h m A fp → preserved h h' fp → b <= b' → map_ok b' h' m A fp.
Proof.
  intros [Hr Hw Hs Hst Hf] Hpr Hb. split; [|done|lia|done|done]. by eapply root_frame.
Qed.

Lemma map_ok_dom b h m A fp : map_ok b h m A fp → fp ⊆ dom h.
Proof. intros [Hr _ _ _ _]. by eapply root_dom. Qed.

Lemma world_nil b h : world b h [] [].
Proof. exists []. split_and!; [done|done|..]; intros; by simplify_eq/=. Qed.

(** The map with number [i]; it may change what it owns. *)
Lemma world_lookup b h ms As i A :
  world b h ms As → As !! i = Some A →
  ∃ m fp, ms !! i = Some m ∧ map_ok b h m A fp ∧
    ∀ h' fp' m' A', evolves h fp h' fp' → map_ok b h' m' A' fp' →
      world b h' (<[i := m']> ms) (<[i := A']> As).
Proof.
  intros (fps&Hl1&Hl2&Hok&Hd) HA. assert (i < length ms)%nat as Hi by (apply lookup_lt_Some in HA; lia).
  destruct (lookup_lt_is_Some_2 ms i) as [m Hm]; [lia|].
  destruct (lookup_lt_is_Some_2 fps i) as [fp Hfp]; [lia|].
  exists m, fp. split_and!; [done|by eapply Hok|]. intros h' fp' m' A' He Hok'.
  exists (<[i := fp']> fps). rewrite !length_insert. split_and!; [done|done| |].
  - intros j m0 A0 f0. destruct (decide (i = j)) as [->|Hne].
    + rewrite !list_lookup_insert_eq by lia. by intros [= <-] [= <-] [= <-].
    + rewrite !list_lookup_insert_ne by done. intros Hj1 Hj2 Hj3.
      eapply map_ok_frame; [by eapply Hok| |lia]. eapply evolves_preserved; [done|]. by apply (Hd j i).
  - assert (∀ j f, j ≠ i → fps !! j = Some f → f ## fp') as Hnew.
    { intros j f Hj Hf. eapply evolves_disjoint; [done|by apply (Hd j i)|].
      destruct (lookup_lt_is_Some_2 ms j) as [m0 Hm0]; [apply lookup_lt_Some in Hf; lia|].
      destruct (lookup_lt_is_Some_2 As j) as [A0 HA0]; [apply lookup_lt_Some in Hf; lia|].
      eapply map_ok_dom. by eapply Hok. }
    intros j1 j2 f g Hne. destruct (decide (i = j1)) as [<-|H1], (decide (i = j2)) as [<-|H2]; [done|..].
    + rewrite list_lookup_insert_eq, list_lookup_insert_ne by lia. intros [= <-] Hg. symmetry. by eapply Hnew.
    + rewrite list_lookup_insert_ne, list_lookup_insert_eq by lia. intros Hf [= <-]. by eapply Hnew.
    + rewrite !list_lookup_insert_ne by done. by apply Hd.
Qed.

(** A new map that owns only new nodes. *)
Lemma world_new b h ms As m' A' h' fp' :
  world b h ms As → evolves h ∅ h' fp' → map_ok (b + 1) h' m' A' fp' →
  world (b + 1) h' (ms ++ [m']) (As ++ [A']).
Proof.
  intros (fps&Hl1&Hl2&Hok&Hd) He Hok'. exists (fps ++ [fp']). rewrite !length_app, Hl1, Hl2.
  assert (∀ j f, fps !! j = Some f → f ## fp') as Hnew.
  { intros j f Hf. eapply evolves_disjoint; [done|apply disjoint_empty_r|].
    destruct (lookup_lt_is_Some_2 ms j) as [m0 Hm0]; [apply lookup_lt_Some in Hf; lia|].
    destruct (lookup_lt_is_Some_2 As j) as [A0 HA0]; [apply lookup_lt_Some in Hf; lia|].
    eapply map_ok_dom. by eapply Hok. }
  split_and!; [done|done| |].
  - intros i m A fp [Hi|[Hi <-]]%lookup_snoc_Some [HA|[HA <-]]%lookup_snoc_Some [Hf|[Hf <-]]%lookup_snoc_Some;
      try lia; [|done].
    destruct Hi, HA, Hf. eapply map_ok_frame; [by eapply Hok| |lia].
    eapply evolves_preserved; [done|apply disjoint_empty_r].
  - intros i j f g Hne [[Hi Hf]|[Hi <-]]%lookup_snoc_Some [[Hj Hg]|[Hj <-]]%lookup_snoc_Some; [by apply (Hd i j)| | |lia].
    + by eapply Hnew.
    + symmetry. by eapply Hnew.
Qed.

Lemma world_mono b b' h ms As : world b h ms As → b <= b' → world b' h ms As.
Proof.
  intros (fps&Hl1&Hl2&Hok&Hd) Hb. exists fps. split_and!; [done|done| |done].
  intros i m A fp Hm HA Hf. eapply map_ok_frame; [by eapply Hok|by intros ? ?|done].
Qed.

(** ** Each operation *)

Lemma T_leaf : is_leaf_type T.
Proof. by eapply leaf_type_T. Qed.

Lemma spec_item_ok k v : spec_item k v = true → is_key k ∧ (12 <= length v)%nat.
Proof.
  unfold spec_item. intros [Hk Hv]%andb_true_iff. split; [by apply bool_decide_eq_true in Hk|by apply Nat.leb_le].
Qed.

Definition simulated (b : Z) (o : op) (h : heap) (ms : list SHAMap) (r : outcome) (As' : list abs) : Prop :=
  ∃ K ms' h', (∀ fuel, (K <= fuel)%nat → exec fuel o ms h = Ok ((r, ms'), h'))
    ∧ world (b + 1) h' ms' As'.

Lemma on_map_ok {A} i (f : SHAMap → St (A * SHAMap)) ms m h a m' h' :
  ms !! i = Some m → f m h = Ok ((a, m'), h') → on_map i f ms h = Ok ((a, <[i := m']> ms), h').
Proof.
  intros Hm Hf. unfold on_map. run (lift_ok (deref (ms !! i)) m h ltac:(by rewrite Hm)). run Hf. done.
Qed.

(** An operation that changes one map. *)
Lemma sim_change (b : Z) (h : heap) (ms : list SHAMap) (As : list abs) (i : nat) (F : SHAMap → St (bool * SHAMap)) (f : contents → option (bool * contents)) (r : outcome)
    (As' : list abs) :
  world b h ms As → spec_change i f As = Some (r, As') →
  (∀ m M fp x M', writable m → wf_contents M → root_repr T h (seq_ m) (root_ m) M fp →
     f M = Some (x, M') → changes T (F m) h m fp (x, M') ∧ wf_contents M') →
  ∃ x ms' h', on_map i F ms h = Ok ((x, ms'), h') ∧ r = OBool x ∧ world (b + 1) h' ms' As'.
Proof.
  intros Hw Hspec HF. unfold spec_change in Hspec. destruct (As !! i) as [[M []]|] eqn:HA; [|done..].
  destruct (f M) as [[x M']|] eqn:Hf; [|done]. simplify_eq.
  destruct (world_lookup b h ms As i _ Hw HA) as (m&fp&Hm&[Hr HwM Hs Hst Hfp]&Hupd). cbn [fst snd] in *.
  destruct (HF m M fp x M') as [(m'&h'&fp'&Hrun&Hr'&He&Es&Et&_) HwM']; [split; [lia|done]|done..|].
  exists x, (<[i := m']> ms), h'. split_and!; [by eapply on_map_ok|done|].
  eapply world_mono; [|shelve]. eapply Hupd; [done|]. cbn [fst snd] in *.
  split; cbn [fst snd]; rewrite ?Es; [done|done|lia|congruence|done].
  Unshelve. lia.
Qed.

(** An operation that leaves the contents of its map. *)
Lemma sim_keep {A : Type} (b : Z) (h : heap) (ms : list SHAMap) (As : list abs) (i : nat) (F : nat → SHAMap → St (A * SHAMap)) (M : contents) (mut : bool) (Q : A → Prop) :
  world b h ms As → As !! i = Some (M, mut) →
  (∀ m fp, map_ok b h m (M, mut) fp → ∃ K a m' h' fp',
     (∀ fuel, (K <= fuel)%nat → F fuel m h = Ok ((a, m'), h')) ∧ Q a
     ∧ evolves h fp h' fp' ∧ map_ok b h' m' (M, mut) fp') →
  ∃ K a ms' h', (∀ fuel, (K <= fuel)%nat → on_map i (F fuel) ms h = Ok ((a, ms'), h')) ∧ Q a
    ∧ world (b + 1) h' ms' As.
Proof.
  intros Hw HA HF. destruct (world_lookup b h ms As i _ Hw HA) as (m&fp&Hm&Hok&Hupd).
  destruct (HF m fp Hok) as (K&a&m'&h'&fp'&Hrun&HQ&He&Hok').
  exists K, a, (<[i := m']> ms), h'. split_and!; [|done|].
  - intros fuel Hf. by eapply on_map_ok, Hrun.
  - eapply world_mono; [|shelve]. rewrite <-(list_insert_id As i (M, mut)) by done. by eapply Hupd.
  Unshelve. lia.
Qed.

Lemma unshare_map b h m A fp :
  map_ok b h m A fp → ∃ K fl m' h', (∀ fuel, (K <= fuel)%nat → unshare fuel m h = Ok ((fl, m'), h'))
    ∧ map_ok b h' m' A ∅ ∧ evolves h fp h' ∅.
Proof.
  intros [Hr Hw Hs Hst Hfp].
  destruct (unshare_gen T (seq_ m) m T_leaf ltac:(lia) ltac:(lia) h A.1 fp Hw Hr) as (fl&m'&h'&Hrun&Hr'&He&Es&Et&_).
  exists (unshare_steps A.1), fl, m', h'. split_and!; [done| |].
  - split; rewrite ?Es; [done|done|lia|congruence|done].
  - eapply evolves_weaken; [exact He|apply mine_sub|done].
Qed.

Lemma getHash_map b h m A fp :
  map_ok b h m A fp → ∃ K m' h', (∀ fuel, (K <= fuel)%nat → getHash fuel m h = Ok ((rhash T A.1, m'), h'))
    ∧ map_ok b h' m' A ∅ ∧ evolves h fp h' ∅.
Proof.
  intros Hok. destruct (mo_repr _ _ _ _ _ Hok) as (sq&hash&isb&hs&ch&fps&Hp&Hsh&Hch&Hown).
  destruct Hown as [(->&->&_)|(->&->&_)].
  - destruct (root_clean_hash T h (seq_ m) (root_ m) A.1 (mo_repr _ _ _ _ _ Hok)) as (nd&Hnd&Hz&Hh).
    rewrite Hp in Hnd. injection Hnd as <-. cbn [getNodeHash] in Hh.
    destruct (unshare_map b h m A ∅ Hok) as (K&fl&m'&h'&Hrun&_).
    exists 0%nat, m, h. split_and!; [|done|apply evolves_refl]. intros fuel _. unfold getHash. run_load.
    cbn [getNodeHash]. case_decide; [|by rewrite Hh].
    assert (unshare fuel m h = Ok ((0, m), h)) as Hu by (unfold unshare; by run_load).
    run Hu. run_load. cbn [getNodeHash]. by rewrite Hh.
  - destruct (unshare_map b h m A _ Hok) as (K&fl&m'&h'&Hrun&Hok'&He).
    destruct (root_clean_hash T h' (seq_ m') (root_ m') A.1 (mo_repr _ _ _ _ _ Hok')) as (nd&Hnd&_&Hh).
    exists K, m', h'. split_and!; [|done|done]. intros fuel Hf. unfold getHash. run_load.
    cbn [getNodeHash]. rewrite decide_True by done. run (Hrun fuel Hf). run_load. by rewrite Hh.
Qed.

Lemma snapShot_map b h m A fp mut :
  map_ok b h m A fp → b + 1 < 2 ^ 32 →
  ∃ K m' h', (∀ fuel, (K <= fuel)%nat → snapShot fuel mut m h = Ok (m', h'))
    ∧ map_ok (b + 1) h' m' (A.1, mut) ∅ ∧ evolves h ∅ h' ∅.
Proof.
  intros [Hr Hw Hs Hst Hfp] Hb. set (h0 := <[fresh (dom h) := new_inner 1]> h).
  assert (evolves h ∅ h0 ∅) as He0
    by (eapply evolves_weaken; [apply (evolves_alloc h (new_inner 1))|done|apply empty_subseteq]).
  assert (root_repr T h0 (seq_ m) (root_ m) A.1 fp) as Hr0
    by (eapply root_frame; [done|apply preserved_alloc]).
  assert (u32 (seq_ m + 1) = seq_ m + 1) as Hu by (apply Z.mod_small; lia).
  set (nm := mkMap (seq_ m + 1) (if mut then Modifying else Immutable) (root_ m)).
  assert (∀ fuel, snapShot fuel mut m h =
    if negb (bool_decide (state_ m = Immutable)) || negb mut
    then ('(_, newMap) ← unshare fuel nm; mret newMap) h0 else Ok (nm, h0)) as Hrun.
  { intros fuel. unfold snapShot, SHAMap_init.
    rewrite (St_bind_ok _ _ h (mkMap 1 Modifying (fresh (dom h))) h0) by done.
    cbv beta zeta. cbn [state_]. rewrite Hu. by destruct mut, (bool_decide (state_ m = Immutable)). }
  destruct (negb (bool_decide (state_ m = Immutable)) || negb mut) eqn:Hcase.
  - destruct (unshare_gen T (seq_ m) nm T_leaf ltac:(lia) ltac:(simpl; lia) h0 A.1 fp Hw Hr0)
      as (fl&m'&h'&Hun&Hr'&He&Es&Et&_).
    exists (unshare_steps A.1), m', h'. split_and!.
    + intros fuel Hf. rewrite Hrun. run (Hun fuel Hf). done.
    + split; cbn [fst snd]; rewrite ?Es; cbn [nm seq_]; [by eapply root_clean_any|done|lia|done|done].
    + eapply evolves_trans; [exact He0|]. unfold mine in He. by rewrite decide_False in He by (simpl; lia).
  - apply orb_false_iff in Hcase as [Hi Hmut]. apply negb_false_iff, bool_decide_eq_true in Hi.
    assert (fp = ∅) as -> by (apply Hfp; destruct A.2; congruence).
    exists 0%nat, nm, h0. split_and!; [by intros fuel _| |done].
    split; cbn [fst snd nm seq_ root_ state_]; [by eapply root_clean_any|done|lia|done|done].
Qed.

(** A new, empty map. *)
Lemma init_map b h : 0 < b →
  ∃ m h' fp, SHAMap_init h = Ok (m, h') ∧ map_ok b h' m (∅, true) fp ∧ evolves h ∅ h' fp.
Proof.
  intros Hb. eexists _, _, {[fresh (dom h)]}. split_and!; [done| |apply evolves_alloc].
  split; cbn [fst snd seq_ root_ state_]; [|by intros k v|lia|done|done].
  exists 1, zero256, 0, (replicate 16 zero256), (replicate 16 None), (fun _ => ∅).
  split_and!; [apply lookup_insert_eq|apply new_inner_shape| |].
  - intros i c Hc. apply lookup_replicate in Hc as [-> _]. split; [apply map_filter_empty|done].
  - right. rewrite fp_union_empty by done. split_and!; [done|done|set_solver|set_solver|]. intros i j _ _ _. set_solver.
Qed.

(** ** Simulation *)

Lemma wf_insert k v M : wf_contents M → is_key k → (12 <= length v)%nat → wf_contents (<[k := v]> M).
Proof. intros Hw Hk Hv k' v' [[<- <-]|[_ ?]]%lookup_insert_Some; [done|by apply Hw]. Qed.

Lemma sim_add b h ms As i k v r As' :
  world b h ms As → spec (Add i k v) As = Some (r, As') → simulated b (Add i k v) h ms r As'.
Proof.
  cbn [spec]. intros Hw Hspec. destruct (spec_item k v) eqn:Hi; [|done]. apply spec_item_ok in Hi as [Hk Hv].
  destruct (sim_change b h ms As i (addGiveItem (mkItem k v) isTransaction hasMeta) _ r As' Hw Hspec)
    as (x&ms'&h'&Hrun&->&Hw').
  - intros m M fp x M' Hwm HwM Hr [= E]. rewrite <-E. split; [by apply addGiveItem_ok|].
    unfold add_result in E. destruct (M !! k); simplify_eq; [done|by apply wf_insert].
  - exists 0%nat, ms', h'. split; [|done]. intros fuel _. cbn [exec]. run Hrun. done.
Qed.

Lemma sim_update b h ms As i k v r As' :
  world b h ms As → spec (Update i k v) As = Some (r, As') → simulated b (Update i k v) h ms r As'.
Proof.
  cbn [spec]. intros Hw Hspec. destruct (spec_item k v) eqn:Hi; [|done]. apply spec_item_ok in Hi as [Hk Hv].
  destruct (sim_change b h ms As i (updateGiveItem (mkItem k v) isTransaction hasMeta) _ r As' Hw Hspec)
    as (x&ms'&h'&Hrun&->&Hw').
  - intros m M fp x M' Hwm HwM Hr Hf. destruct (M !! k) as [v0|] eqn:HM; [|done].
    destruct (distinct k v v0) eqn:Hd; [|done]. simplify_eq. split; [|by apply wf_insert].
    apply (updateGiveItem_ok T k v v0); try done; [by eapply HwM|]. intros E. unfold distinct in Hd.
    apply orb_true_iff in Hd as [Hd|Hd]; [by apply bool_decide_eq_true in Hd|].
    by rewrite bool_decide_true in Hd.
  - exists 0%nat, ms', h'. split; [|done]. intros fuel _. cbn [exec]. run Hrun. done.
Qed.

Lemma sim_delete b h ms As i k r As' :
  world b h ms As → spec (Delete i k) As = Some (r, As') → simulated b (Delete i k) h ms r As'.
Proof.
  cbn [spec]. intros Hw Hspec. case_decide as Hk; [|done].
  destruct (sim_change b h ms As i (delItem k) _ r As' Hw Hspec) as (x&ms'&h'&Hrun&->&Hw').
  - intros m M fp x M' Hwm HwM Hr [= E1 E2]. split; [|rewrite <-E2; by apply wf_delete].
    rewrite <-E1, <-E2. apply delItem_ok; [apply T_leaf|done..].
  - exists 0%nat, ms', h'. split; [|done]. intros fuel _. cbn [exec]. run Hrun. done.
Qed.

Lemma spec_read_inv i f As r As' :
  spec_read i f As = Some (r, As') → ∃ M mut, As !! i = Some (M, mut) ∧ f M = Some r ∧ As' = As.
Proof.
  unfold spec_read. destruct (As !! i) as [[M mut]|]; [|done]. destruct (f M) eqn:E; [|done].
  intros [= -> ->]. eauto.
Qed.

Lemma sim_peek b h ms As i k r As' :
  world b h ms As → spec (Peek i k) As = Some (r, As') → simulated b (Peek i k) h ms r As'.
Proof.
  cbn [spec]. intros Hw Hspec. case_decide as Hk; [|done].
  apply spec_read_inv in Hspec as (M&mut&HA&[= <-]&->).
  destruct (world_lookup b h ms As i _ Hw HA) as (m&fp&Hm&[Hr _ _ _ _]&_).
  exists 0%nat, ms, h. split; [|eapply world_mono; [done|lia]]. intros fuel _. cbn [exec].
  run (lift_ok (deref (ms !! i)) m h ltac:(by rewrite Hm)).
  run (peekItem_ok _ k M m h fp Hk Hr). done.
Qed.

Lemma sim_has b h ms As i k r As' :
  world b h ms As → spec (Has i k) As = Some (r, As') → simulated b (Has i k) h ms r As'.
Proof.
  cbn [spec]. intros Hw Hspec. case_decide as Hk; [|done].
  apply spec_read_inv in Hspec as (M&mut&HA&[= <-]&->).
  destruct (world_lookup b h ms As i _ Hw HA) as (m&fp&Hm&[Hr _ _ _ _]&_).
  exists 0%nat, ms, h. split; [|eapply world_mono; [done|lia]]. intros fuel _. cbn [exec].
  run (lift_ok (deref (ms !! i)) m h ltac:(by rewrite Hm)).
  run (hasItem_ok _ k M m h fp Hk Hr). done.
Qed.

Lemma sim_hash b h ms As i r As' :
  world b h ms As → spec (Hash i) As = Some (r, As') → simulated b (Hash i) h ms r As'.
Proof.
  cbn [spec]. intros Hw Hspec. apply spec_read_inv in Hspec as (M&mut&HA&[= <-]&->).
  destruct (sim_keep b h ms As i getHash M mut (fun a => a = rhash T M)) as (K&a&ms'&h'&Hrun&->&Hw'); [done|done| |].
  - intros m fp Hok. destruct (getHash_map b h m (M, mut) fp Hok) as (K&m'&h'&Hrun&Hok'&He).
    exists K, (rhash T M), m', h', ∅. done.
  - exists K, ms', h'. split; [|done]. intros fuel Hf. cbn [exec]. run (Hrun fuel Hf). done.
Qed.

Lemma sim_unshare b h ms As i r As' :
  world b h ms As → spec (Unshare i) As = Some (r, As') → simulated b (Unshare i) h ms r As'.
Proof.
  cbn [spec]. intros Hw Hspec. apply spec_read_inv in Hspec as (M&mut&HA&[= <-]&->).
  destruct (sim_keep b h ms As i unshare M mut (fun _ => True)) as (K&a&ms'&h'&Hrun&_&Hw'); [done|done| |].
  - intros m fp Hok. destruct (unshare_map b h m (M, mut) fp Hok) as (K&fl&m'&h'&Hrun&Hok'&He).
    exists K, fl, m', h', ∅. done.
  - exists K, ms', h'. split; [|done]. intros fuel Hf. cbn [exec]. run (Hrun fuel Hf). done.
Qed.

Lemma sim_snap b h ms As i mut r As' :
  world b h ms As → b + 1 < 2 ^ 32 → spec (Snap i mut) As = Some (r, As') →
  simulated b (Snap i mut) h ms r As'.
Proof.
  cbn [spec]. intros Hw Hb Hspec. destruct (As !! i) as [[M mut0]|] eqn:HA; [|done]. simplify_eq.
  destruct (world_lookup b h ms As i _ Hw HA) as (m&fp&Hm&Hok&_).
  destruct (snapShot_map b h m _ fp mut Hok Hb) as (K&m'&h'&Hrun&Hok'&He).
  exists K, (ms ++ [m']), h'. split; [|by eapply world_new].
  intros fuel Hf. cbn [exec]. run (lift_ok (deref (ms !! i)) m h ltac:(by rewrite Hm)). run (Hrun fuel Hf). done.
Qed.

Lemma sim_new b h ms As r As' :
  world b h ms As → 0 < b → spec New As = Some (r, As') → simulated b New h ms r As'.
Proof.
  cbn [spec]. intros Hw Hb [= <- <-]. destruct (init_map (b + 1) h ltac:(lia)) as (m&h'&fp&Hrun&Hok&He).
  exists 0%nat, (ms ++ [m]), h'. split; [|by eapply world_new]. intros fuel _. cbn [exec]. run Hrun. done.
Qed.

Lemma sim_op b o h ms As r As' :
  world b h ms As → 0 < b → b + 1 < 2 ^ 32 → spec o As = Some (r, As') → simulated b o h ms r As'.
Proof.
  intros Hw H0 Hb. destruct o.
  - by apply sim_new.
  - by apply sim_add.
  - by apply sim_update.
  - by apply sim_delete.
  - by apply sim_peek.
  - by apply sim_has.
  - by apply sim_hash.
  - by apply sim_unshare.
  - by apply sim_snap.
Qed.

Lemma sim_all os : ∀ b h ms As rs As',
  world b h ms As → 0 < b → b + Z.of_nat (length os) < 2 ^ 32 → spec_all os As = Some (rs, As') →
  ∃ K ms' h', (∀ fuel, (K <= fuel)%nat → exec_all fuel os ms h = Ok ((rs, ms'), h'))
    ∧ world (b + Z.of_nat (length os)) h' ms' As'.
Proof.
  induction os as [|o os IH]; intros b h ms As rs As' Hw H0 Hb Hspec.
  - cbn [spec_all] in Hspec. simplify_eq. exists 0%nat, ms, h. split; [done|]. cbn [length]. by rewrite Z.add_0_r.
  - cbn [spec_all] in Hspec. destruct (spec o As) as [[r As1]|] eqn:Ho; [|done].
    destruct (spec_all os As1) as [[rs1 As2]|] eqn:Hos; [|done]. simplify_eq. cbn [length] in *.
    destruct (sim_op b o h ms As r As1) as (K1&ms1&h1&Hrun1&Hw1); [done|done|lia|done|].
    destruct (IH (b + 1) h1 ms1 As1 rs1 As') as (K2&ms2&h2&Hrun2&Hw2); [done|lia|lia|done|].
    exists (K1 + K2)%nat, ms2, h2. split.
    + intros fuel Hf. cbn [exec_all]. run (Hrun1 fuel ltac:(lia)). run (Hrun2 fuel ltac:(lia)). done.
    + by replace (b + Z.of_nat (S (length os))) with (b + 1 + Z.of_nat (length os)) by lia.
Qed.
End world.
