(* ===== verification/SHAMapHash.v ===== *)
(** * The root hash determines the contents

    Two maps with the same root hash have the same contents, unless two of the byte strings
    digested for them collide, or the digest of one is the zero hash, which stands for an
    empty branch.  The hash of a leaf of type [tnTRANSACTION_NM] does not cover the key: there
    the items must be stored under the digest of their data, as transactions are. *)

From S2P Require Import Prelude Bytes NodeCodec SHANode SHAKeys SHAMap SHAMapInv SHAMapSteps.
From S2P Require Import SHAMapOps SHAMapAdd SHAMapDel SHAMapFlush.
Local Open Scope Z_scope.

Section binding.
Context `{!Sha512Half} (T : TNType).

(** A transaction without metadata is stored under its identifier. *)
Definition named (M : contents) : Prop :=
  T = tnTRANSACTION_NM → ∀ k v, M !! k = Some v → k = sha512Half (field_bytes uint32_t transactionID ++ v).

Lemma named_sub d i M : named M → named (sub d i M).
Proof. intros Hn HT k v [Hk _]%lookup_sub. by apply Hn. Qed.

(** What is digested for a leaf and for an inner node. *)
Definition leaf_prefix : Z :=
  match T with tnTRANSACTION_NM => transactionID | tnTRANSACTION_MD => txNode | _ => leafNode end.
Definition leaf_input (k : uint256) (v : bytes) : bytes :=
  field_bytes uint32_t leaf_prefix ++ v ++ match T with tnTRANSACTION_NM => [] | _ => k end.
Definition inner_input (n d : nat) (N : contents) : bytes :=
  field_bytes uint32_t innerNode ++ concat (bhashes T n d N).

(** All that is digested for the hash of a tree. *)
Fixpoint hashed (n d : nat) (N : contents) : list bytes :=
  match map_to_list N with
  | [] => []
  | [(k, v)] => [leaf_input k v]
  | _ =>
      match n with
      | O => []
      | S n => inner_input n d N :: (seq 0 16 ≫= (fun i => hashed n (S d) (sub d i N)))
      end
  end.
Definition root_hashed (M : contents) : list bytes :=
  if decide (M = ∅) then []
  else inner_input 63 0 M :: (seq 0 16 ≫= (fun i => hashed 63 1 (sub 0 i M))).

(** The digest tells the strings of [X] apart and from the zero hash. *)
Definition resists (X : list bytes) : Prop :=
  (∀ x y, x ∈ X → y ∈ X → sha512Half x = sha512Half y → x = y)
  ∧ ∀ x, x ∈ X → sha512Half x ≠ zero256.

#[global] Instance resists_dec X : Decision (resists X).
Proof.
  refine (cast_if (decide (Forall (fun x => Forall (fun y => sha512Half x = sha512Half y → x = y) X) X
    ∧ Forall (fun x => sha512Half x ≠ zero256) X))); unfold resists.
  - destruct a as [H1 H2]. rewrite Forall_forall in H1, H2. split; [|done].
    intros x y Hx Hy. specialize (H1 x Hx). rewrite Forall_forall in H1. by apply H1.
  - intros [H1 H2]. apply n. split; [|by apply Forall_forall].
    apply Forall_forall. intros x Hx. apply Forall_forall. intros y Hy. by apply H1.
Defined.

Lemma lhash_keyed k v : is_leaf_type T → lhash T k v = sha512Half (leaf_input k v).
Proof. unfold lhash, leaf_input, leaf_prefix. intros [E|[E|E]]; rewrite E; [|done..]. by rewrite app_nil_r. Qed.

Lemma leaf_input_inj k v k' v' :
  is_key k → is_key k' → named {[k := v]} → named {[k' := v']} → leaf_input k v = leaf_input k' v' → k = k' ∧ v = v'.
Proof.
  intros Hk Hk' Hn Hn' E. apply app_inv_head in E. destruct (decide (T = tnTRANSACTION_NM)) as [HT|HT].
  - rewrite HT, !app_nil_r in E. subst v'. split; [|done].
    by rewrite (Hn HT k v), (Hn' HT k' v) by apply lookup_singleton_eq.
  - assert (∀ x : uint256, match T with tnTRANSACTION_NM => [] | _ => x end = x) as HT' by (by destruct T).
    rewrite !HT' in E. apply app_inj_2 in E as [-> ->]; [done|by rewrite Hk, Hk'].
Qed.

(** Leaves and inner nodes have different prefixes. *)
Lemma leaf_inner_input k v n d N : is_leaf_type T → leaf_input k v ≠ inner_input n d N.
Proof.
  intros HT E. apply app_inj_1 in E as [E _]; [|by destruct HT as [ET|[ET|ET]]; unfold leaf_prefix; rewrite ET].
  destruct HT as [ET|[ET|ET]]; unfold leaf_prefix in E; rewrite ET in E; by vm_compute in E.
Qed.

Lemma hashed_singleton n d k v : hashed n d {[k := v]} = [leaf_input k v].
Proof. by destruct n; cbn [hashed]; rewrite map_to_list_singleton. Qed.
Lemma hashed_more n d N : (2 <= size N)%nat →
  hashed (S n) d N = inner_input n d N :: (seq 0 16 ≫= (fun i => hashed n (S d) (sub d i N))).
Proof.
  intros Hs. cbn [hashed]. rewrite <-length_map_to_list in Hs.
  destruct (map_to_list N) as [|[] [|]]; simpl in Hs; [lia|lia|done].
Qed.
Lemma hashed_branch n d N i x :
  (i < 16)%nat → x ∈ hashed n (S d) (sub d i N) →
  x ∈ (seq 0 16 ≫= (fun i => hashed n (S d) (sub d i N))).
Proof. intros Hi Hx. apply list_elem_of_bind. exists i. split; [done|]. apply elem_of_seq. lia. Qed.

(** Hashes of one length are read back from their concatenation. *)
Lemma concat_inj (f g : nat → uint256) L :
  (∀ i, length (f i) = 32%nat) → (∀ i, length (g i) = 32%nat) →
  concat (f <$> L) = concat (g <$> L) → ∀ i, i ∈ L → f i = g i.
Proof.
  intros Hf Hg. induction L as [|j L IH]; intros E i Hi; [by apply elem_of_nil in Hi|].
  cbn [fmap list_fmap concat] in E. apply app_inj_1 in E as [E1 E2]; [|by rewrite Hf, Hg].
  apply elem_of_cons in Hi as [->|Hi]; [done|by apply IH].
Qed.

Context (Hlen : ∀ x, length (sha512Half x) = 32%nat).

Lemma thash_length n d N : is_leaf_type T → length (thash T n d N) = 32%nat.
Proof.
  intros HT. destruct n; cbn [thash]; destruct (map_to_list N) as [|[k v] [|]]; try done;
    try apply Hlen; rewrite lhash_keyed by done; apply Hlen.
Qed.

(** Nodes with the same input have the same contents when their branches do. *)
Lemma inner_binding n d N N' :
  is_leaf_type T → inner_input n d N = inner_input n d N' →
  (∀ i, (i < 16)%nat → thash T n (S d) (sub d i N) = thash T n (S d) (sub d i N') →
     sub d i N = sub d i N') →
  N = N'.
Proof.
  intros HT E Hi. apply app_inv_head in E. unfold bhashes in E.
  pose proof (concat_inj _ _ _ (fun i => thash_length n (S d) (sub d i N) HT)
    (fun i => thash_length n (S d) (sub d i N') HT) E) as Heq.
  apply (branches_eq d). intros i Hlt. apply Hi; [done|]. apply Heq, elem_of_seq. lia.
Qed.

Context (X : list bytes) (HX : resists X).

Lemma thash_binding n : ∀ d N N',
  is_leaf_type T → (n + d = 64)%nat → wf_contents N → wf_contents N' → named N → named N' → common d N → common d N' →
  (∀ x, x ∈ hashed n d N → x ∈ X) → (∀ x, x ∈ hashed n d N' → x ∈ X) →
  thash T n d N = thash T n d N' → N = N'.
Proof.
  destruct HX as [Hinj Hzero]. induction n as [n IH] using lt_wf_ind.
  intros d N N' HT Hnd Hw Hw' Hnm Hnm' Hc Hc' Hin Hin' E.
  assert (∀ N0 : contents, common d N0 → wf_contents N0 → (2 <= size N0)%nat → ∃ n', n = S n') as Hn.
  { intros N0 Hc0 Hw0 Hs. destruct n as [|n']; [|eauto]. simpl in Hnd. subst d.
    pose proof (common_64 N0 Hw0 Hc0). lia. }
  destruct (contents_cases N) as [->|[(k&v&->)|Hs]], (contents_cases N') as [->|[(k'&v'&->)|Hs']];
    rewrite ?thash_empty, ?thash_singleton, ?hashed_singleton, ?lhash_keyed in *; try done.
  - symmetry in E. apply Hzero in E; [done|]. apply Hin'. by left.
  - destruct (Hn N') as [n' ->]; [done..|]. rewrite hashed_more in Hin' by done.
    rewrite thash_more in E by done. symmetry in E. apply Hzero in E; [done|]. apply Hin'. by left.
  - apply Hzero in E; [done|]. apply Hin. by left.
  - apply Hinj in E; [|apply Hin; by left|apply Hin'; by left].
    apply leaf_input_inj in E as [-> ->]; [done|..]; [| |done|done].
    + by destruct (Hw k v (lookup_singleton_eq _ _)).
    + by destruct (Hw' k' v' (lookup_singleton_eq _ _)).
  - destruct (Hn N') as [n' ->]; [done..|]. rewrite hashed_more in Hin' by done. rewrite thash_more in E by done.
    apply Hinj in E; [|apply Hin; by left|apply Hin'; by left]. by apply leaf_inner_input in E.
  - destruct (Hn N) as [n' ->]; [done..|]. rewrite hashed_more in Hin by done.
    rewrite thash_more in E by done. apply Hzero in E; [done|]. apply Hin. by left.
  - destruct (Hn N) as [n' ->]; [done..|]. rewrite hashed_more in Hin by done. rewrite thash_more in E by done.
    symmetry in E. apply Hinj in E; [|apply Hin'; by left|apply Hin; by left]. by apply leaf_inner_input in E.
  - destruct (Hn N) as [n' ->]; [done..|]. rewrite hashed_more in Hin, Hin' by done. rewrite !thash_more in E by done.
    apply Hinj in E; [|apply Hin; by left|apply Hin'; by left].
    eapply inner_binding; [done|done|]. intros i Hi.
    apply IH; [lia|done|lia|by apply wf_sub|by apply wf_sub|by apply named_sub|by apply named_sub|by apply common_sub|by apply common_sub| |];
      intros x Hx; [apply Hin|apply Hin']; right; by eapply hashed_branch.
Qed.

Lemma rhash_binding M M' :
  is_leaf_type T → wf_contents M → wf_contents M' → named M → named M' →
  (∀ x, x ∈ root_hashed M → x ∈ X) → (∀ x, x ∈ root_hashed M' → x ∈ X) →
  rhash T M = rhash T M' → M = M'.
Proof.
  intros HT Hw Hw' Hnm Hnm' Hin Hin' E. unfold rhash, root_hashed in *. destruct HX as [Hinj Hzero].
  destruct (decide (M = ∅)) as [->|HM], (decide (M' = ∅)) as [->|HM']; [done|..].
  - symmetry in E. apply Hzero in E; [done|]. apply Hin'. by left.
  - apply Hzero in E; [done|]. apply Hin. by left.
  - apply Hinj in E; [|apply Hin; by left|apply Hin'; by left].
    eapply inner_binding; [done|done|]. intros i Hi.
    apply thash_binding; [done|lia|by apply wf_sub|by apply wf_sub|by apply named_sub|by apply named_sub| | | |];
      try (apply common_sub; intros k k' v v' _ _ j Hj; lia);
      intros x Hx; [apply Hin|apply Hin']; right; by eapply hashed_branch.
Qed.
End binding.
