(* ===== verification/SHAMapIter.v ===== *)
(** * Traversal of a hash tree

    [firstBelow], [peekFirstItem], [peekNextItem], [upper_bound] and the iterators of
    [SHAMap.h] (version 1).  Iteration gives the items in the order of their keys, and
    [upper_bound] the first one after a key. *)

From S2P Require Import Prelude Bytes NodeCodec SHANode SHAKeys SHAMap SHAMapInv SHAMapSteps.
From S2P Require Import SHAMapOps SHAMapAdd SHAMapDel.
Local Open Scope Z_scope.

(** ** The code *)

(** [compare] of [base_uint.h] *)
Fixpoint compare (a b : uint256) : Z :=
  match a, b with
  | x :: a, y :: b =>
      if bval x =? bval y then compare a b else if bval x >? bval y then 1 else -1
  | _, _ => 0
  end.

(** The first branch in use after [b]. *)
Definition next_branch (isBranch : Z) (b : nat) : option nat :=
  head (filter (fun i => isEmptyBranch isBranch i = false) (seq (S b) (15 - b))).

(** The position of a leaf. *)
Definition push_leaf (p : loc) (i : SHAMapItem) (stack : NodeStack) : St (option loc * NodeStack) :=
  id ← lift (NodeID_init 64 (item_key i));
  mret (Some p, (p, id) :: stack).

(** The loop of [firstBelow], at an inner node that is on the stack. *)
Fixpoint firstBelow_loop (fuel : nat) (p : loc) (branch : nat) (stack : NodeStack)
  : St (option loc * NodeStack) :=
  match fuel with
  | O => lift (Err out_of_fuel)
  | S fuel =>
      n ← load p;
      match n with
      | TreeNode _ _ _ _ => lift (Err undefined)
      | InnerNode _ _ isBranch _ children =>
          match first_branch isBranch with
          | None => mret (None, stack)
          | Some i =>
              q ← descendThrow isBranch children i;
              qn ← load q;
              match qn with
              | TreeNode _ _ _ item => push_leaf q item stack
              | InnerNode _ _ _ _ _ =>
                  '(_, top) ← lift (deref (head stack));
                  id ← lift (getChildNodeID branch top);
                  firstBelow_loop fuel q branch ((q, id) :: stack)
              end
          end
      end
  end.

Definition firstBelow (p : loc) (stack : NodeStack) (branch : nat) : St (option loc * NodeStack) :=
  n ← load p;
  match n with
  | TreeNode _ _ _ item => push_leaf p item stack
  | InnerNode _ _ _ _ _ =>
      id ← (match stack with
            | [] => mret NodeID_root
            | (_, top) :: _ => lift (getChildNodeID branch top)
            end);
      firstBelow_loop 65 p branch ((p, id) :: stack)
  end.

Definition peekFirstItem (m : SHAMap) : St (option loc * NodeStack) :=
  '(node, stack) ← firstBelow (root_ m) [] 0;
  match node with None => mret (None, []) | Some p => mret (Some p, stack) end.

(** The loop of [peekNextItem]. *)
Fixpoint next_loop (id : uint256) (stack : NodeStack) : St (option loc * NodeStack) :=
  match stack with
  | [] => mret (None, [])
  | (p, nodeID) :: rest =>
      n ← load p;
      match n with
      | TreeNode _ _ _ _ => lift (Err assert_failed)
      | InnerNode _ _ isBranch _ children =>
          b ← lift (selectBranch nodeID id);
          match next_branch isBranch b with
          | Some i =>
              q ← descendThrow isBranch children i;
              '(leaf, stack) ← firstBelow q stack i;
              match leaf with
              | None => lift (Err exception_thrown)
              | Some l => mret (Some l, stack)
              end
          | None => next_loop id rest
          end
      end
  end.

Definition peekNextItem (id : uint256) (stack : NodeStack) : St (option loc * NodeStack) :=
  match stack with
  | [] => lift (Err assert_failed)
  | (p, _) :: rest =>
      n ← load p;
      lift (assert_ (isLeaf n));;
      next_loop id rest
  end.

(** [upper_bound]: the leaf and the stack of the iterator. *)
Fixpoint upper_loop (id : uint256) (stack : NodeStack) : St (option loc * NodeStack) :=
  match stack with
  | [] => mret (None, [])
  | (p, nodeID) :: rest =>
      n ← load p;
      match n with
      | TreeNode _ _ _ item =>
          if compare (item_key item) id >? 0 then mret (Some p, stack) else upper_loop id rest
      | InnerNode _ _ isBranch _ children =>
          b ← lift (selectBranch nodeID id);
          match next_branch isBranch b with
          | Some i =>
              q ← descendThrow isBranch children i;
              '(leaf, stack) ← firstBelow q stack i;
              match leaf with
              | None => lift (Err exception_thrown)
              | Some l => mret (Some l, stack)
              end
          | None => upper_loop id rest
          end
      end
  end.
Definition upper_bound (id : uint256) (m : SHAMap) : St (option loc * NodeStack) :=
  '(_, stack) ← walkTowardsKey id m;
  upper_loop id stack.

(** [for (auto const& item : map)]: from [begin ()] by [operator++] to [end ()]. *)
Fixpoint iter_loop (fuel : nat) (leaf : option loc) (stack : NodeStack) : St (list SHAMapItem) :=
  match fuel with
  | O => lift (Err out_of_fuel)
  | S fuel =>
      match leaf with
      | None => mret []
      | Some p =>
          i ← peekItem_at p;
          '(leaf, stack) ← peekNextItem (item_key i) stack;
          items ← iter_loop fuel leaf stack;
          mret (i :: items)
      end
  end.
Definition iterate (fuel : nat) (m : SHAMap) : St (list SHAMapItem) :=
  '(leaf, stack) ← peekFirstItem m;
  iter_loop fuel leaf stack.

(** ** The order of keys *)

Definition key_lt (a b : uint256) : Prop := compare a b < 0.

Lemma agree_byte d a b x y i :
  agree d a b → (2 * i + 2 <= d)%nat → a !! i = Some x → b !! i = Some y → x = y.
Proof.
  intros Ha Hi Hx Hy. pose proof (Ha (2 * i)%nat ltac:(lia)) as He.
  pose proof (Ha (2 * i + 1)%nat ltac:(lia)) as Ho. unfold nib in He, Ho.
  replace ((2 * i) / 2)%nat with i in He by (rewrite Nat.mul_comm, Nat.div_mul; lia).
  replace ((2 * i + 1) / 2)%nat with i in Ho by (rewrite Nat.mul_comm, Nat.div_add_l; simpl; lia).
  rewrite Hx, Hy in He, Ho. rewrite Nat.odd_even in He. rewrite Nat.odd_odd in Ho.
  pose proof (bval_range x). pose proof (bval_range y). apply byte_nibbles.
  - apply Z2Nat.inj; [apply Z.shiftr_nonneg; lia..|done].
  - apply Z2Nat.inj; [apply Z.land_nonneg; lia..|done].
Qed.

Lemma compare_at i : ∀ a b x y,
  (∀ j x' y', (j < i)%nat → a !! j = Some x' → b !! j = Some y' → x' = y') →
  a !! i = Some x → b !! i = Some y → bval x < bval y → compare a b = -1 ∧ compare b a = 1.
Proof.
  induction i as [|i IH]; intros [|x0 a] [|y0 b] x y Hp Hx Hy Hlt; simplify_eq/=.
  - rewrite (proj2 (Z.eqb_neq _ _)), (proj2 (Z.eqb_neq (bval y) _)) by lia.
    split; [destruct (Z.gtb_spec (bval x) (bval y))|destruct (Z.gtb_spec (bval y) (bval x))]; lia.
  - rewrite (Hp 0%nat x0 y0 ltac:(lia) eq_refl eq_refl), !Z.eqb_refl.
    apply (IH a b x y); [|done..]. intros j x' y' Hj. apply (Hp (S j)). lia.
Qed.

(** Keys compare as their first different digits do. *)
Lemma compare_nib d a b :
  is_key a → is_key b → (d < 64)%nat → agree d a b → (nib d a < nib d b)%nat →
  compare a b = -1 ∧ compare b a = 1.
Proof.
  intros Ha Hb Hd Hag Hlt. set (i := (d / 2)%nat).
  assert (i < 32)%nat as Hi by (apply Nat.Div0.div_lt_upper_bound; lia).
  destruct (lookup_lt_is_Some_2 a i) as [x Hx]; [rewrite Ha; lia|].
  destruct (lookup_lt_is_Some_2 b i) as [y Hy]; [rewrite Hb; lia|].
  pose proof (Nat.div_mod_eq d 2) as Hdm. pose proof (Nat.mod_upper_bound d 2). fold i in Hdm.
  apply (compare_at i a b x y); [|done|done|].
  - intros j x' y' Hj. apply (agree_byte d); [done|lia].
  - unfold nib in Hlt. fold i in Hlt. rewrite Hx, Hy in Hlt.
    pose proof (bval_range x). pose proof (bval_range y).
    assert (∀ z, Z.land z 0xf = z mod 16) as Hl by (intros z; exact (Z.land_ones z 4 ltac:(lia))).
    assert (∀ z, Z.shiftr z 4 = z / 16) as Hr by (intros z; by rewrite Z.shiftr_div_pow2).
    destruct (Nat.odd d) eqn:Ho.
    + pose proof (Hag (2 * i)%nat ltac:(apply Nat.odd_spec in Ho as [e ->]; subst i; lia)) as He.
      unfold nib in He. replace ((2 * i) / 2)%nat with i in He by (rewrite Nat.mul_comm, Nat.div_mul; lia).
      rewrite Hx, Hy, Nat.odd_even in He. rewrite !Hl in Hlt. rewrite !Hr in He.
      apply Z2Nat.inj in He; [|apply Z.div_pos; lia..].
      apply Z2Nat.inj_lt in Hlt; [|apply Z.mod_pos_bound; lia..].
      pose proof (Z.div_mod (bval x) 16 ltac:(lia)). pose proof (Z.div_mod (bval y) 16 ltac:(lia)). lia.
    + rewrite !Hr in Hlt. apply Z2Nat.inj_lt in Hlt; [|apply Z.div_pos; lia..].
      pose proof (Z.div_mod (bval x) 16 ltac:(lia)). pose proof (Z.div_mod (bval y) 16 ltac:(lia)).
      pose proof (Z.mod_pos_bound (bval x) 16 ltac:(lia)). pose proof (Z.mod_pos_bound (bval y) 16 ltac:(lia)). lia.
Qed.

Lemma compare_refl a : compare a a = 0.
Proof. induction a as [|x a IH]; [done|]. cbn [compare]. by rewrite Z.eqb_refl. Qed.
