(* ===== verification/SHAMapOrder.v ===== *)
(** * Traversal is in the order of the keys *)

From S2P Require Import Prelude Bytes NodeCodec SHANode SHAKeys SHAMap SHAMapInv SHAMapSteps.
From S2P Require Import SHAMapOps SHAMapAdd SHAMapDel SHAMapIter.
Local Open Scope Z_scope.

(** ** The items below a node, branch after branch *)

Fixpoint items (n d : nat) (N : contents) : list (uint256 * bytes) :=
  match map_to_list N with
  | [] => []
  | [kv] => [kv]
  | _ => match n with O => [] | S n => seq 0 16 ≫= (fun i => items n (S d) (sub d i N)) end
  end.

Lemma items_empty n d : items n d ∅ = [].
Proof. by destruct n; cbn [items]; rewrite map_to_list_empty. Qed.
Lemma items_singleton n d k v : items n d {[k := v]} = [(k, v)].
Proof. by destruct n; cbn [items]; rewrite map_to_list_singleton. Qed.

Lemma bind_nil {A B} (f : A → list B) l : (∀ x, x ∈ l → f x = []) → l ≫= f = [].
Proof.
  induction l as [|x l IH]; intros Hf; [done|]. cbn [mbind list_bind].
  rewrite (Hf x) by (by left). simpl. apply IH. intros y Hy. apply Hf. by right.
Qed.

(** One branch of the sixteen, with those before and after. *)
Lemma seq_branch i : (i < 16)%nat → seq 0 16 = seq 0 i ++ i :: seq (S i) (15 - i).
Proof.
  intros Hi. replace 16%nat with (i + S (15 - i))%nat at 1 by lia. rewrite seq_app. done.
Qed.

(** The branches in order, whatever the number of items. *)
Lemma items_S n d N : items (S n) d N = seq 0 16 ≫= (fun i => items n (S d) (sub d i N)).
Proof.
  destruct (contents_cases N) as [->|[(k&v&->)|Hs]].
  - rewrite items_empty. symmetry. apply bind_nil. intros i _.
    rewrite (map_filter_empty _ : sub d i ∅ = ∅). apply items_empty.
  - rewrite items_singleton, (seq_branch (nib d k)) by apply nib_lt. rewrite bind_app. cbn [mbind list_bind].
    rewrite sub_singleton, decide_True, items_singleton by done.
    rewrite !bind_nil; [done|..]; intros i Hi%elem_of_seq; rewrite sub_singleton, decide_False by lia;
      apply items_empty.
  - cbn [items]. rewrite <-length_map_to_list in Hs.
    destruct (map_to_list N) as [|? [|]]; simpl in Hs; [lia|lia|done].
Qed.

Lemma elem_of_items n : ∀ d N k v,
  (n + d = 64)%nat → wf_contents N → common d N → (k, v) ∈ items n d N ↔ N !! k = Some v.
Proof.
  induction n as [|n IH]; intros d N k v Hd Hw Hc.
  - simpl in Hd. subst d. pose proof (common_64 N Hw Hc) as Hs. rewrite <-length_map_to_list in Hs.
    rewrite <-elem_of_map_to_list. cbn [items].
    destruct (map_to_list N) as [|? [|]]; simpl in Hs; [done|done|lia].
  - rewrite items_S, list_elem_of_bind. split.
    + intros (i&Hi&_). apply IH in Hi; [|lia|by apply wf_sub|by apply common_sub]. by apply lookup_sub in Hi as [? _].
    + intros Hk. exists (nib d k). split; [|apply elem_of_seq; pose proof (nib_lt d k); lia].
      apply IH; [lia|by apply wf_sub|by apply common_sub|]. by apply lookup_sub.
Qed.

(** ** Sorted lists *)

Definition before (x y : uint256 * bytes) : Prop := key_lt x.1 y.1.
Abbreviation sorted := (StronglySorted before).

Lemma sorted_app (l1 l2 : list (uint256 * bytes)) :
  sorted l1 → sorted l2 → (∀ x y, x ∈ l1 → y ∈ l2 → before x y) → sorted (l1 ++ l2).
Proof.
  induction l1 as [|x l1 IH]; intros H1 H2 H12; [done|]. cbn [app].
  apply StronglySorted_inv in H1 as [H1 Hx]. constructor.
  - apply IH; [done|done|]. intros y z Hy. apply H12. by right.
  - apply Forall_app. split; [done|]. apply Forall_forall. intros y Hy. apply H12; [by left|done].
Qed.

Lemma sorted_bind (f : nat → list (uint256 * bytes)) b : ∀ a,
  (∀ i, sorted (f i)) → (∀ i j x y, (i < j)%nat → x ∈ f i → y ∈ f j → before x y) →
  sorted (seq a b ≫= f).
Proof.
  induction b as [|b IH]; intros a Hs Hlt; [constructor|]. cbn [seq mbind list_bind].
  apply sorted_app; [done|by apply IH|]. intros x y Hx Hy.
  apply list_elem_of_bind in Hy as (j&Hy&Hj%elem_of_seq). eapply (Hlt a j); [lia|done|done].
Qed.

Lemma items_sorted n : ∀ d N, (n + d = 64)%nat → wf_contents N → common d N → sorted (items n d N).
Proof.
  induction n as [|n IH]; intros d N Hd Hw Hc.
  - cbn [items]. destruct (map_to_list N) as [|? [|]]; repeat constructor.
  - rewrite items_S. apply sorted_bind.
    + intros i. apply IH; [lia|by apply wf_sub|by apply common_sub].
    + intros i j [k v] [k' v'] Hij Hk Hk'.
      apply elem_of_items in Hk; [|lia|by apply wf_sub|by apply common_sub].
      apply elem_of_items in Hk'; [|lia|by apply wf_sub|by apply common_sub].
      apply lookup_sub in Hk as [Hk Hi], Hk' as [Hk' Hj]. unfold before, key_lt. cbn [fst].
      destruct (compare_nib d k k') as [-> _]; [by eapply Hw|by eapply Hw|lia|by eapply Hc|lia|done].
Qed.

Lemma sorted_NoDup (l : list (uint256 * bytes)) : sorted l → NoDup l.*1.
Proof.
  induction 1 as [|x l Hs IH Hx]; [constructor|]. rewrite fmap_cons. constructor; [|done].
  intros (y&E&Hy)%list_elem_of_fmap. rewrite Forall_forall in Hx. specialize (Hx y Hy).
  unfold before, key_lt in Hx. rewrite <-E, compare_refl in Hx. lia.
Qed.

Lemma sorted_filter (P : uint256 * bytes → Prop) `{∀ x, Decision (P x)} l : sorted l → sorted (filter P l).
Proof.
  induction 1 as [|x l Hs IH Hx]; [constructor|]. rewrite filter_cons. case_decide; [|done].
  constructor; [done|]. rewrite Forall_forall in *. intros y [_ Hy]%list_elem_of_filter. by apply Hx.
Qed.

(** ** What is left after a key *)

Definition rest_from (d : nat) (k : uint256) (M : contents) : list (uint256 * bytes) :=
  seq (S (nib d k)) (15 - nib d k) ≫= (fun i => items (63 - d) (S d) (sub d i (below d k M))).

(** The items after those below the node at depth [e] on the way to [k]. *)
Fixpoint after (e : nat) (k : uint256) (M : contents) : list (uint256 * bytes) :=
  match e with O => [] | S e => rest_from e k M ++ after e k M end.

Lemma below_agree e k k' M : agree e k k' → below e k M = below e k' M.
Proof.
  intros Ha. apply map_eq. intros x. apply option_eq. intros v. rewrite !lookup_below.
  split; intros [? ?]; (split; [done|]); [eapply agree_trans; [by apply agree_sym|done]|by eapply agree_trans].
Qed.

Lemma agree_mono e d k k' : (e <= d)%nat → agree d k k' → agree e k k'.
Proof. intros Hd Ha i Hi. apply Ha. lia. Qed.

Lemma after_agree e k k' M : agree e k k' → after e k M = after e k' M.
Proof.
  induction e as [|e IH]; intros Ha; [done|]. apply agree_S in Ha as [Ha Hn]. cbn [after].
  unfold rest_from. by rewrite Hn, (below_agree e k k'), IH.
Qed.

(** The items from branch [a] on, when those before [i] are empty. *)
Lemma skip_to (d a i : nat) (N : contents) :
  (a <= i)%nat → (i < 16)%nat → (∀ j, (a <= j < i)%nat → sub d j N = ∅) →
  (seq a (16 - a) ≫= (fun j => items (63 - d) (S d) (sub d j N)))
  = items (63 - d) (S d) (sub d i N)
    ++ (seq (S i) (15 - i) ≫= (fun j => items (63 - d) (S d) (sub d j N))).
Proof.
  intros Ha Hi He. replace (16 - a)%nat with ((i - a) + S (15 - i))%nat by lia.
  rewrite seq_app, bind_app. replace (a + (i - a))%nat with i by lia.
  rewrite (bind_nil _ (seq a (i - a))); [done|]. intros j Hj%elem_of_seq. rewrite He by lia. apply items_empty.
Qed.

(** The first branch in use of a range. *)
Lemma head_branch isb a n i :
  head (filter (fun i => isEmptyBranch isb i = false) (seq a n)) = Some i →
  (a <= i < a + n)%nat ∧ isEmptyBranch isb i = false
  ∧ ∀ j, (a <= j < i)%nat → isEmptyBranch isb j = true.
Proof.
  revert a. induction n as [|n IH]; intros a; [done|]. cbn [seq]. rewrite filter_cons.
  case_decide as Hd; intros Hh.
  - injection Hh as <-. split_and!; [lia..|done|]. intros j Hj. lia.
  - apply IH in Hh as (H1&H2&H3). split_and!; [lia..|done|]. intros j Hj.
    destruct (decide (j = a)) as [->|]; [by apply not_false_iff_true|apply H3; lia].
Qed.
Lemma head_branch_none isb a n j :
  head (filter (fun i => isEmptyBranch isb i = false) (seq a n)) = None →
  (a <= j < a + n)%nat → isEmptyBranch isb j = true.
Proof.
  intros Hh Hj. apply not_false_iff_true. intros Hf.
  assert (j ∈ filter (fun i => isEmptyBranch isb i = false) (seq a n)) as Hin
    by (apply list_elem_of_filter; rewrite elem_of_seq; split; [done|lia]).
  destruct (filter _ (seq a n)); [by apply elem_of_nil in Hin|done].
Qed.

(** ** The code *)

Section iter.
Context `{!Sha512Half} (T : TNType) (s : Z) (h : heap) (M : contents).
Context (HT : is_leaf_type T) (HwM : wf_contents M).
Abbreviation repr := (repr T).
Abbreviation inner_at d h s := (inner_ok T (repr (63 - d) (S d) h s) (63 - d) d h s).

(** The inner nodes towards [k]; only the depth of a position is relied on. *)
Fixpoint ipath (st : NodeStack) (k : uint256) : Prop :=
  match st with
  | [] => True
  | (p, nid) :: st =>
      (length st < 64)%nat ∧ valid_id nid ∧ mDepth nid = length st
      ∧ (∃ fp, inner_at (length st) h s p (below (length st) k M) fp) ∧ ipath st k
  end.

Lemma ipath_cons p nid st k fp :
  (length st < 64)%nat → valid_id nid → mDepth nid = length st →
  inner_at (length st) h s p (below (length st) k M) fp → ipath st k → ipath ((p, nid) :: st) k.
Proof using. clear. cbn [ipath]. eauto 10. Qed.

Lemma ipath_agree st k k' : agree (length st) k k' → ipath st k → ipath st k'.
Proof using.
  clear. induction st as [|[p nid] st IH]; [done|]. cbn [ipath length]. intros Ha (H1&H2&H3&H4&H5).
  apply agree_S in Ha as [Ha _]. rewrite <-(below_agree _ k k') by done. split_and!; [done..|by apply IH].
Qed.

(** The traversal stands at the first item of [L], and the rest of [L] is to come. *)
Definition found (L : list (uint256 * bytes)) (r : option loc) (st : NodeStack) : Prop :=
  match L with
  | [] => r = None
  | (k, v) :: L =>
      ∃ q nid st1 sq, r = Some q ∧ st = (q, nid) :: st1
        ∧ h !! q = Some (TreeNode sq (lhash T k v) T (mkItem k v))
        ∧ ipath st1 k ∧ M !! k = Some v ∧ below (length st1) k M = {[k := v]}
        ∧ L = after (length st1) k M
  end.

Lemma NodeID_leaf k : is_key k → ∃ nid, NodeID_init 64 k = Ok nid.
Proof using.
  clear. intros Hk. unfold NodeID_init. cbn [Nat.ltb Nat.leb assert_ mbind res_bind].
  rewrite bool_decide_true; [eauto|]. unfold uint256_and. rewrite Masks_spec by lia.
  apply list_eq. intros i. destruct (k !! i) as [b|] eqn:Hb.
  - symmetry. apply lookup_zip_with_Some. exists b, xff. split_and!; [by rewrite byte_and_ff|done|].
    pose proof (lookup_lt_Some _ _ _ Hb) as Hi. rewrite Hk in Hi.
    rewrite list_lookup_fmap, lookup_seq_lt by done. simpl. unfold mask_byte.
    by rewrite (proj2 (Nat.ltb_lt _ _)) by (simpl; lia).
  - symmetry. apply lookup_zip_with_None. by left.
Qed.

(** At a leaf. *)
Lemma push_leaf_ok q st k fp :
  ipath st k → leaf_ok T h s q (below (length st) k M) fp →
  ∃ r st' it sq hh, h !! q = Some (TreeNode sq hh T it) ∧ push_leaf q it st h = Ok ((r, st'), h)
    ∧ found (items (64 - length st) (length st) (below (length st) k M) ++ after (length st) k M) r st'.
Proof.
  intros Hp (sq&k1&v1&Hq&Hb&_).
  assert (below (length st) k M !! k1 = Some v1) as Hk1 by (by rewrite Hb, lookup_singleton_eq).
  apply lookup_below in Hk1 as [HM Hag]. destruct (HwM _ _ HM) as [Hkey _].
  destruct (NodeID_leaf k1 Hkey) as [nid Hnid].
  exists (Some q), ((q, nid) :: st), (mkItem k1 v1), sq, (lhash T k1 v1). split_and!; [done| |].
  - unfold push_leaf. cbn [item_key]. rewrite Hnid. done.
  - rewrite Hb, items_singleton. cbn [app found]. exists q, nid, st, sq. split_and!; try done.
    + by eapply ipath_agree.
    + by rewrite <-Hb, (below_agree _ k k1).
    + by apply after_agree.
Qed.

(** A branch of an inner node: its child, and a key below it. *)
Lemma branch_step p nid st k i hash isb hs ch sq fps :
  h !! p = Some (InnerNode sq hash isb hs ch) → inner_shape hs isb ch →
  (∀ i c, ch !! i = Some c → child_ok (repr (63 - length st) (S (length st)) h s) c
     (sub (length st) i (below (length st) k M)) (fps i)) →
  ipath ((p, nid) :: st) k → (i < 16)%nat → isEmptyBranch isb i = false →
  ∃ q k', ch !! i = Some (Some q) ∧ nib (length st) k' = i ∧ agree (length st) k k'
    ∧ repr (63 - length st) (S (length st)) h s q (below (S (length st)) k' M) (fps i)
    ∧ sub (length st) i (below (length st) k M) = below (S (length st)) k' M
    ∧ below (S (length st)) k' M ≠ ∅ ∧ ipath ((p, nid) :: st) k'.
Proof using.
  clear HT HwM. intros Hp Hsh Hch Hip Hi Hne.
  destruct (lookup_lt_is_Some_2 ch i) as [c Hc]; [rewrite (is_children _ _ _ Hsh); lia|].
  rewrite (branch_bit _ _ _ _ _ Hsh Hc) in Hne. destruct c as [q|]; [|done].
  destruct (Hch i _ Hc) as [Hsub Hr]. pose proof Hsub as (k'&v'&Hk')%map_choose.
  apply lookup_sub in Hk' as [[_ Hag]%lookup_below Hn].
  assert (sub (length st) i (below (length st) k M) = below (S (length st)) k' M) as E
    by (by rewrite below_S, Hn, (below_agree _ k k')).
  exists q, k'. rewrite E in *. split_and!; try done.
  cbn [ipath] in *. destruct Hip as (H1&H2&H3&H4&H5). rewrite <-(below_agree _ k k') by done.
  split_and!; [done..|]. by eapply ipath_agree.
Qed.

(** The items of a node are those of its first branch in use, and what follows. *)
Lemma items_step d k k' i :
  (d < 64)%nat → (i < 16)%nat → nib d k' = i → agree d k k' →
  sub d i (below d k M) = below (S d) k' M → (∀ j, (j < i)%nat → sub d j (below d k M) = ∅) →
  items (64 - d) d (below d k M) ++ after d k M
  = items (64 - S d) (S d) (below (S d) k' M) ++ after (S d) k' M.
Proof using.
  clear. intros Hd Hi Hn Ha Hsub He. replace (64 - d)%nat with (S (63 - d)) by lia. rewrite items_S.
  rewrite (skip_to d 0 i) by (done || lia || (intros; apply He; lia)).
  cbn [after]. unfold rest_from. rewrite Hn, <-(below_agree d k k'), Hsub, (after_agree d k k') by done.
  replace (64 - S d)%nat with (63 - d)%nat by lia. by rewrite <-app_assoc.
Qed.

Lemma next_step d k k' i :
  (d < 64)%nat → (nib d k < i < 16)%nat → nib d k' = i → agree d k k' →
  sub d i (below d k M) = below (S d) k' M →
  (∀ j, (nib d k < j < i)%nat → sub d j (below d k M) = ∅) →
  after (S d) k M = items (64 - S d) (S d) (below (S d) k' M) ++ after (S d) k' M.
Proof using.
  clear. intros Hd Hi Hn Ha Hsub He. cbn [after]. unfold rest_from.
  replace (15 - nib d k)%nat with (16 - S (nib d k))%nat by lia.
  rewrite (skip_to d (S (nib d k)) i) by (lia || (intros; apply He; lia)).
  rewrite Hn, <-(below_agree d k k'), Hsub, (after_agree d k k') by done.
  replace (64 - S d)%nat with (63 - d)%nat by lia. by rewrite <-app_assoc.
Qed.

(** Branches without a bit are empty. *)
Lemma empty_branch (d : nat) (N : contents) (hs : list uint256) (isb : Z) (ch : list (option loc))
    (R : loc → contents → gset loc → Prop) (fps : nat → gset loc) (j : nat) :
  inner_shape hs isb ch → (∀ i c, ch !! i = Some c → child_ok R c (sub d i N) (fps i)) →
  (j < 16)%nat → isEmptyBranch isb j = true → sub d j N = ∅.
Proof using.
  clear. intros Hsh Hch Hj He.
  destruct (lookup_lt_is_Some_2 ch j) as [c Hc]; [rewrite (is_children _ _ _ Hsh); lia|].
  rewrite (branch_bit _ _ _ _ _ Hsh Hc) in He. specialize (Hch j c Hc). destruct c; [done|apply Hch].
Qed.

Lemma firstBelow_loop_ok fuel : ∀ p nid st k branch,
  ipath ((p, nid) :: st) k → below (length st) k M ≠ ∅ → (branch < 16)%nat →
  (64 - length st <= fuel)%nat →
  ∃ r st', firstBelow_loop fuel p branch ((p, nid) :: st) h = Ok ((r, st'), h)
    ∧ found (items (64 - length st) (length st) (below (length st) k M) ++ after (length st) k M) r st'.
Proof.
  induction fuel as [|fuel IH]; intros p nid st k branch Hip Hne Hbr Hf.
  { destruct Hip as (?&_). lia. }
  pose proof Hip as (Hd&Hv&Hdp&(fp&sq&hash&isb&hs&ch&fps&Hp&Hsh&Hch&_)&_).
  cbn [firstBelow_loop]. run_load. unfold first_branch. destruct (head _) as [i|] eqn:Hh.
  2: { destruct Hne. apply (branches_none (length st)). pose proof (branches_ok _ _ _ _ _ _ _ Hsh Hch) as HB.
       unfold branches in HB. by destruct (filter _ (seq 0 16)). }
  apply head_branch in Hh as (Hi&Hbit&Hmin).
  destruct (branch_step p nid st k i hash isb hs ch sq fps) as (q&k'&Hq&Hn&Ha&Hr&Hsub&Hne'&Hip');
    [done|done|done|done|lia|done|].
  rewrite (items_step (length st) k k' i) by (done || lia ||
    (intros j Hj; eapply empty_branch; [done|done|lia|]; apply Hmin; lia)).
  run (descendThrow_ok isb ch i q h Hq). rewrite <-tree_at_child in Hr by done.
  apply tree_at_cases in Hr as [[_ Hl]|(Hlt&Hin&_)]; [| |lia].
  - destruct (push_leaf_ok q ((p, nid) :: st) k' (fps i)) as (r&st'&it&sq'&hh&Hqn&Hpush&Hfound); [done|done|].
    run_load. eexists _, _. split; [exact Hpush|exact Hfound].
  - pose proof Hin as (sq'&hash'&isb'&hs'&ch'&fps'&Hqn&_). run_load.
    run (lift_ok (deref (head ((p, nid) :: st))) _ h eq_refl).
    destruct (getChildNodeID_ok branch nid Hv ltac:(lia) Hbr) as (nid'&E&Hv'&Hd').
    rewrite E. run (lift_ok (Ok nid') _ h eq_refl).
    apply (IH q nid' ((p, nid) :: st) k' branch); [|done|done|cbn [length]; lia].
    eapply ipath_cons; [done|done|cbn [length]; lia|done|done].
Qed.

(** [firstBelow] at a child. *)
Lemma firstBelow_ok q st k branch fp :
  ipath st k → st ≠ [] → (length st <= 64)%nat → (branch < 16)%nat → below (length st) k M ≠ ∅ →
  tree_at T (length st) h s q (below (length st) k M) fp →
  ∃ r st', firstBelow q st branch h = Ok ((r, st'), h)
    ∧ found (items (64 - length st) (length st) (below (length st) k M) ++ after (length st) k M) r st'.
Proof.
  intros Hip Hst Hlen Hbr Hne Hr. unfold firstBelow.
  apply tree_at_cases in Hr as [[_ Hl]|(Hlt&Hin&_)]; [| |done].
  - destruct (push_leaf_ok q st k fp) as (r&st'&it&sq'&hh&Hqn&Hpush&Hfound); [done|done|].
    run_load. eexists _, _. split; [exact Hpush|exact Hfound].
  - pose proof Hin as (sq'&hash'&isb'&hs'&ch'&fps'&Hqn&_). run_load.
    destruct st as [|[p nid] st]; [done|]. pose proof Hip as (Hd&Hv&Hdp&_).
    destruct (getChildNodeID_ok branch nid Hv ltac:(lia) Hbr) as (nid'&E&Hv'&Hd').
    rewrite E. run (lift_ok (Ok nid') _ h eq_refl).
    apply (firstBelow_loop_ok 65 q nid' ((p, nid) :: st) k branch); [|done|done|cbn [length]; lia].
    eapply ipath_cons; [done|done|cbn [length]; lia|done|done].
Qed.

Lemma peekFirstItem_ok m fp :
  root_repr T h s (root_ m) M fp →
  ∃ r st, peekFirstItem m h = Ok ((r, st), h) ∧ found (items 64 0 M) r st.
Proof.
  intros Hroot. pose proof Hroot as (sq&hash&isb&hs&ch&fps&Hp&Hsh&Hch&_).
  assert (firstBelow (root_ m) [] 0 h = firstBelow_loop 65 (root_ m) 0 [(root_ m, NodeID_root)] h) as E
    by (unfold firstBelow; by run_load).
  unfold peekFirstItem. destruct (decide (M = ∅)) as [HM|HM].
  - assert (firstBelow (root_ m) [] 0 h = Ok ((None, [(root_ m, NodeID_root)]), h)) as E'.
    { rewrite E. cbn [firstBelow_loop]. run_load. unfold first_branch.
      destruct (head _) as [i|] eqn:Hh; [|done]. apply head_branch in Hh as (Hi&Hbit&_).
      destruct (branches_ok _ _ _ _ _ _ _ Hsh Hch) as [_ HB]. destruct (proj1 (HB i)) as [_ Hne].
      - apply list_elem_of_filter. rewrite elem_of_seq. split; [done|lia].
      - destruct Hne. rewrite HM. apply map_filter_empty. }
    run E'. exists None, []. rewrite HM, items_empty. done.
  - pose proof HM as (k&v&Hk)%map_choose.
    destruct (firstBelow_loop_ok 65 (root_ m) NodeID_root [] k 0) as (r&st&Hrun&Hfound).
    + eapply ipath_cons; [simpl; lia|apply valid_root|done| |done]. cbn [length]. rewrite below_0. exact Hroot.
    + cbn [length]. by rewrite below_0.
    + lia.
    + simpl. lia.
    + cbn [length] in Hfound. rewrite below_0 in Hfound. cbn [after] in Hfound. rewrite app_nil_r in Hfound.
      rewrite <-E in Hrun. run Hrun. exists r, st. split; [|done].
      destruct r as [q|]; [done|]. exfalso.
      assert ((k, v) ∈ items 64 0 M) as Hin
        by (apply elem_of_items; [done|done|intros x y _ _ _ _ j Hj; lia|done]).
      replace (64 - 0)%nat with 64%nat in Hfound by lia.
      destruct (items 64 0 M) as [|[k1 v1] L]; [by apply elem_of_nil in Hin|].
      by destruct Hfound as (?&?&?&?&?&_).
Qed.

(** On the way up from [k]. *)
Lemma next_loop_ok k st :
  is_key k → ipath st k →
  ∃ r st', next_loop k st h = Ok ((r, st'), h) ∧ found (after (length st) k M) r st'.
Proof.
  intros Hk. induction st as [|[p nid] st IH]; intros Hip; [by exists None, []|].
  pose proof Hip as (Hd&Hv&Hdp&(fp&sq&hash&isb&hs&ch&fps&Hp&Hsh&Hch&_)&Hip0).
  cbn [next_loop]. run_load. run (lift_ok _ _ h (selectBranch_ok nid k Hk ltac:(lia))). rewrite Hdp.
  unfold next_branch. pose proof (nib_lt (length st) k) as Hb. destruct (head _) as [i|] eqn:Hh.
  - apply head_branch in Hh as (Hi&Hbit&Hmin).
    destruct (branch_step p nid st k i hash isb hs ch sq fps) as (q&k'&Hq&Hn&Ha&Hr&Hsub&Hne'&Hip');
      [done|done|done|done|lia|done|].
    run (descendThrow_ok isb ch i q h Hq). rewrite <-tree_at_child in Hr by done.
    destruct (firstBelow_ok q ((p, nid) :: st) k' i (fps i)) as (r&st'&Hrun&Hfound);
      [done|done|cbn [length]; lia|lia|done|done|].
    run Hrun. cbn [length]. rewrite (next_step (length st) k k' i) by (done || lia ||
      (intros j Hj; eapply empty_branch; [done|done|lia|]; apply Hmin; lia)).
    cbn [length] in Hfound. exists r, st'. split; [|done].
    assert (is_Some r) as [l ->]; [|done]. 
    assert (items (64 - S (length st)) (S (length st)) (below (S (length st)) k' M) ≠ []) as Hnil.
    { pose proof Hne' as (k0&v0&Hk0)%map_choose. intros E.
      assert ((k0, v0) ∈ items (64 - S (length st)) (S (length st)) (below (S (length st)) k' M)) as Hin.
      { apply elem_of_items; [lia|by apply wf_below| |done].
        intros x y vx vy [_ Hx]%lookup_below [_ Hy]%lookup_below. eapply agree_trans; [by apply agree_sym|done]. }
      rewrite E in Hin. by apply elem_of_nil in Hin. }
    destruct (items _ _ _) as [|[k1 v1] L]; [done|]. destruct Hfound as (l&?&?&?&->&_). eauto.
  - destruct (IH Hip0) as (r&st'&Hrun&Hfound). exists r, st'. split; [done|]. cbn [length after].
    unfold rest_from. rewrite bind_nil; [done|]. intros j Hj%elem_of_seq.
    rewrite (empty_branch _ _ hs isb ch _ fps j Hsh Hch); [apply items_empty|lia|].
    eapply head_branch_none; [done|lia].
Qed.

(** From item to item. *)
Lemma iter_loop_ok fuel : ∀ L leaf st,
  found L leaf st → (length L < fuel)%nat →
  iter_loop fuel leaf st h = Ok ((fun kv => mkItem kv.1 kv.2) <$> L, h).
Proof.
  induction fuel as [|fuel IH]; intros L leaf st Hf Hl; [lia|]. destruct L as [|[k v] L].
  - cbn [found] in Hf. by subst leaf.
  - destruct Hf as (q&nid&st1&sq&->&->&Hq&Hip&HM&_&HL). destruct (HwM _ _ HM) as [Hk _].
    cbn [iter_loop]. unfold peekItem_at. rewrite (St_bind_ok _ _ h (mkItem k v) h) by (by run_load).
    cbv beta. cbn [item_key peekNextItem].
    destruct (next_loop_ok k st1 Hk Hip) as (r&st'&Hrun&Hfound). rewrite <-HL in Hfound.
    rewrite (St_bind_ok _ _ h (r, st') h).
    2: { run_load. run (assert_run (isLeaf (TreeNode sq (lhash T k v) T (mkItem k v))) h
           ltac:(by destruct HT as [E|[E|E]]; rewrite E)). done. }
    cbv beta iota. rewrite (St_bind_ok _ _ _ _ _ (IH L r st' Hfound ltac:(simpl in Hl; lia))). done.
Qed.

(** ** The first item after a key *)

Definition gt (id : uint256) (L : list (uint256 * bytes)) : list (uint256 * bytes) :=
  filter (fun kv => 0 < compare kv.1 id) L.

Lemma gt_app id L1 L2 : gt id (L1 ++ L2) = gt id L1 ++ gt id L2.
Proof using. apply filter_app. Qed.
Lemma gt_none id L : (∀ kv, kv ∈ L → ¬ 0 < compare kv.1 id) → gt id L = [].
Proof using.
  clear. unfold gt. induction L as [|x L IH]; intros Hn; [done|].
  rewrite filter_cons_False by (apply Hn; by left). apply IH. intros y Hy. apply Hn. by right.
Qed.
Lemma gt_all id L : (∀ kv, kv ∈ L → 0 < compare kv.1 id) → gt id L = L.
Proof using.
  clear. unfold gt. induction L as [|x L IH]; intros Hn; [done|].
  rewrite filter_cons_True by (apply Hn; by left). f_equal. apply IH. intros y Hy. apply Hn. by right.
Qed.

Lemma common_below d id : common d (below d id M).
Proof using.
  clear. intros x y vx vy [_ Hx]%lookup_below [_ Hy]%lookup_below. eapply agree_trans; [by apply agree_sym|done].
Qed.

Lemma gt_step d id :
  is_key id → (d < 64)%nat →
  gt id (items (64 - d) d (below d id M))
  = gt id (items (64 - S d) (S d) (below (S d) id M)) ++ rest_from d id M.
Proof.
  intros Hid Hd. replace (64 - d)%nat with (S (63 - d)) by lia. rewrite items_S.
  rewrite (seq_branch (nib d id)), bind_app by apply nib_lt. cbn [mbind list_bind].
  rewrite !gt_app, <-below_S. unfold rest_from.
  replace (64 - S d)%nat with (63 - d)%nat by lia.
  assert (∀ a n kv, kv ∈ (seq a n ≫= (fun i => items (63 - d) (S d) (sub d i (below d id M)))) →
    ∃ i, (a <= i < a + n)%nat ∧ nib d kv.1 = i ∧ is_key kv.1 ∧ agree d id kv.1) as Hin.
  { intros a n [k v] (i&Hi&Hs%elem_of_seq)%list_elem_of_bind.
    apply elem_of_items in Hi; [|lia|by apply wf_sub, wf_below|apply common_sub, common_below].
    apply lookup_sub in Hi as [[Hk Ha]%lookup_below Hn]. exists i. split_and!; [lia..|done|by eapply HwM|done]. }
  rewrite (gt_none id (seq 0 (nib d id) ≫= _)), (gt_all id (seq (S (nib d id)) (15 - nib d id) ≫= _)); [done|..].
  - intros kv (i&Hi&Hn&Hk&Ha)%Hin. destruct (compare_nib d id kv.1) as [_ ->]; [done|done|lia|done|lia|lia].
  - intros kv (i&Hi&Hn&Hk&Ha)%Hin. destruct (compare_nib d kv.1 id) as [-> _]; [done|done|lia|by apply agree_sym|lia|lia].
Qed.

Lemma gt_items id e :
  is_key id → (e <= 64)%nat →
  gt id (items 64 0 M) = gt id (items (64 - e) e (below e id M)) ++ after e id M.
Proof.
  intros Hid. induction e as [|e IH]; intros He.
  - cbn [after]. by rewrite below_0, app_nil_r.
  - rewrite IH, gt_step by (done || lia). cbn [after]. by rewrite <-app_assoc.
Qed.

Lemma upper_next id st : ipath st id → upper_loop id st h = next_loop id st h.
Proof using.
  clear HT HwM. induction st as [|[p nid] st IH]; [done|]. intros (_&_&_&(fp&sq&hash&isb&hs&ch&fps&Hp&_)&Hip).
  cbn [upper_loop next_loop]. rewrite !(St_bind_ok _ _ _ _ _ (load_ok _ _ _ Hp)).
  unfold mbind, St_bind. destruct (lift (selectBranch nid id) h) as [[b h']|] eqn:E; [|done].
  assert (h' = h) as -> by (unfold lift in E; by destruct (selectBranch nid id); simplify_eq).
  destruct (next_branch isb b); [done|]. by apply IH.
Qed.

Lemma items_perm : items 64 0 M ≡ₚ map_to_list M.
Proof using HwM.
  clear HT. assert (common 0 M) as Hc by (intros x y _ _ _ _ j Hj; lia).
  apply NoDup_Permutation; [|apply NoDup_map_to_list|].
  - apply (NoDup_fmap_1 fst), sorted_NoDup. by apply items_sorted.
  - intros [k v]. rewrite elem_of_map_to_list. by apply elem_of_items.
Qed.

Lemma iterate_run fuel m fp :
  root_repr T h s (root_ m) M fp → (size M < fuel)%nat →
  iterate fuel m h = Ok ((fun kv => mkItem kv.1 kv.2) <$> items 64 0 M, h).
Proof.
  intros Hr Hf. destruct (peekFirstItem_ok m fp Hr) as (r&st&Hrun&Hfound). unfold iterate. run Hrun.
  apply iter_loop_ok; [done|]. by rewrite (Permutation_length items_perm), length_map_to_list.
Qed.

(** The walk down, with whole nodes on the stack. *)
Lemma walk_ipath id fuel : ∀ p nid st fp,
  is_key id → (length st <= 64)%nat → (65 - length st <= fuel)%nat →
  valid_id nid → mDepth nid = length st → ipath st id →
  tree_at T (length st) h s p (below (length st) id M) fp →
  ∃ r q nid' st', walk_loop fuel id p nid st h = Ok ((r, (q, nid') :: st'), h) ∧
    match r with
    | None => ipath ((q, nid') :: st') id ∧ below (S (length st')) id M = ∅
    | Some _ => ipath st' id ∧ (length st' <= 64)%nat
        ∧ ∃ fp', leaf_ok T h s q (below (length st') id M) fp'
    end.
Proof using.
  clear HT HwM. induction fuel as [|fuel IH]; intros p nid st fp Hid Hlen Hfuel Hv Hd Hip Ht; [lia|].
  cbn [walk_loop]. apply tree_at_cases in Ht as [[_ Hl]|(Hlt&Hi&_)]; [| |done].
  - pose proof Hl as (sq&k&v&Hp&_). run_load. exists (Some p), p, nid, st. eauto.
  - pose proof Hi as (sq&hash&isb&hs&ch&fps&Hp&Hsh&Hch&_). set (b := nib (length st) id).
    destruct (lookup_lt_is_Some_2 ch b) as [c Hc]; [rewrite (is_children _ _ _ Hsh); apply nib_lt|].
    pose proof (Hch b c Hc) as Hcok. unfold b in Hcok. rewrite <-below_S in Hcok.
    run_load. run (lift_ok _ _ h (selectBranch_ok nid id Hid ltac:(lia))). rewrite Hd. fold b.
    rewrite (branch_bit _ _ _ _ _ Hsh Hc). 
    assert (ipath ((p, nid) :: st) id) as Hip' by (by eapply ipath_cons).
    destruct c as [q|].
    + run (descendThrow_ok isb ch _ q h Hc).
      destruct (getChildNodeID_ok b nid Hv ltac:(lia) (nib_lt _ _)) as (nid'&E&Hv'&Hd').
      rewrite E. run (lift_ok (Ok nid') _ h eq_refl). destruct Hcok as [_ Hq].
      eapply IH; [done|simpl; lia|simpl; lia|done|simpl; lia|done|].
      cbn [length]. rewrite tree_at_child by done. exact Hq.
    + destruct Hcok as [He _]. exists None, p, nid, st. done.
Qed.

Lemma upper_bound_ok id m fp :
  is_key id → root_repr T h s (root_ m) M fp →
  ∃ r st, upper_bound id m h = Ok ((r, st), h) ∧ found (gt id (items 64 0 M)) r st.
Proof.
  intros Hid Hr. unfold upper_bound, walkTowardsKey.
  destruct (walk_ipath id 65 (root_ m) NodeID_root [] fp) as (r&q&nid&st&Hw&He);
    [done|simpl; lia|simpl; lia|apply valid_root|done|done|by cbn [length]; rewrite below_0|].
  run Hw. destruct r as [l|].
  - destruct He as (Hip&Hlen&fp'&(sq&k&v&Hq&Hb&_)). rewrite (gt_items id (length st)) by done.
    assert (below (length st) id M !! k = Some v) as Hk by (by rewrite Hb, lookup_singleton_eq).
    apply lookup_below in Hk as [HM Hag]. rewrite Hb, items_singleton. cbn [upper_loop]. run_load. cbn [item_key].
    unfold gt. rewrite filter_cons, filter_nil. cbn [fst]. destruct (Z.gtb_spec (compare k id) 0) as [Hgt|Hle].
    + rewrite decide_True by done. exists (Some q), ((q, nid) :: st). split; [done|]. cbn [app found].
      exists q, nid, st, sq. split_and!; try done.
      * by eapply ipath_agree.
      * by rewrite <-Hb, (below_agree _ id k).
      * by apply after_agree.
    + rewrite decide_False by lia. rewrite upper_next by done. by apply next_loop_ok.
  - destruct He as [Hip He]. pose proof Hip as (Hlt&_). rewrite (gt_items id (S (length st))) by (done || lia).
    rewrite He, items_empty. rewrite upper_next by done. by apply (next_loop_ok id ((q, nid) :: st)).
Qed.
End iter.
