(* ===== verification/SHAMapDelta.v ===== *)
(** * Differences between hash trees ([shamap/impl/SHAMapDelta.cpp])

    [walkBranch] and [compare], which report up to [maxCount] keys where two maps differ and
    skip the branches whose hashes are equal. *)

From S2P Require Import Prelude Bytes NodeCodec SHANode SHAKeys SHAMap SHAMapInv SHAMapSteps.
From S2P Require Import SHAMapOps SHAMapAdd SHAMapDel SHAMapFlush SHAMapHash SHAMapIter.
From S2P Require Import SHAMapOrder.
Local Open Scope Z_scope.

(** ** The code *)

(** [SHAMap::Delta]: by key, the items of the two maps. *)
Abbreviation DeltaItem := (option SHAMapItem * option SHAMapItem)%type.
Abbreviation Delta := (gmap uint256 DeltaItem).

(** The table and what is left of [maxCount]. *)
Abbreviation acc := (Delta * Z)%type.

(** [differences.insert], then [--maxCount]; whether to go on. *)
Definition note (k : uint256) (i : DeltaItem) (a : acc) : bool * acc :=
  let c := a.2 - 1 in
  (negb (c <=? 0), (match a.1 !! k with Some _ => a.1 | None => <[k := i]> a.1 end, c)).

(** The two items in the order of the maps. *)
Definition DeltaRef (isFirstMap : bool) (mine other : option SHAMapItem) : DeltaItem :=
  if isFirstMap then (mine, other) else (other, mine).

(** A leaf of [walkBranch]: whether to go on, [emptyBranch], and the table. *)
Definition walk_leaf (isFirstMap : bool) (otherMapItem : option SHAMapItem) (item : SHAMapItem)
    (emptyBranch : bool) (a : acc) : bool * (bool * acc) :=
  let unmatched :=
    let '(go, a) := note (item_key item) (DeltaRef isFirstMap (Some item) None) a in
    (go, (emptyBranch, a)) in
  match otherMapItem with
  | None => unmatched
  | Some other =>
      if emptyBranch || negb (bool_decide (item_key item = item_key other)) then unmatched
      else if negb (bool_decide (item_data item = item_data other)) then
        let '(go, a) := note (item_key item) (DeltaRef isFirstMap (Some item) (Some other)) a in
        (go, (true, a))
      else (true, (true, a))
  end.

(** The children of an inner node, in the order they are pushed. *)
Fixpoint child_nodes (isBranch : Z) (children : list (option loc)) (L : list nat) : St (list loc) :=
  match L with
  | [] => mret []
  | i :: L =>
      if isEmptyBranch isBranch i then child_nodes isBranch children L
      else
        q ← descendThrow isBranch children i;
        qs ← child_nodes isBranch children L;
        mret (q :: qs)
  end.

(** The loop of [walkBranch]. *)
Fixpoint walk_branch_loop (fuel : nat) (isFirstMap : bool) (otherMapItem : option SHAMapItem)
    (nodeStack : list loc) (emptyBranch : bool) (a : acc) : St (bool * (bool * acc)) :=
  match fuel with
  | O => lift (Err out_of_fuel)
  | S fuel =>
      match nodeStack with
      | [] => mret (true, (emptyBranch, a))
      | p :: nodeStack =>
          n ← load p;
          match n with
          | InnerNode _ _ isBranch _ children =>
              qs ← child_nodes isBranch children (seq 0 16);
              walk_branch_loop fuel isFirstMap otherMapItem (reverse qs ++ nodeStack) emptyBranch a
          | TreeNode _ _ _ item =>
              let '(go, (e, a)) := walk_leaf isFirstMap otherMapItem item emptyBranch a in
              if go then walk_branch_loop fuel isFirstMap otherMapItem nodeStack e a
              else mret (false, (e, a))
          end
      end
  end.

Definition walkBranch (fuel : nat) (p : loc) (otherMapItem : option SHAMapItem) (isFirstMap : bool)
    (a : acc) : St (bool * acc) :=
  '(go, (emptyBranch, a)) ←
    walk_branch_loop fuel isFirstMap otherMapItem [p] (match otherMapItem with None => true | _ => false end) a;
  if negb go then mret (false, a)
  else if negb emptyBranch then
    match otherMapItem with
    | Some other => mret (note (item_key other) (DeltaRef isFirstMap None (Some other)) a)
    | None => lift (Err undefined)
    end
  else mret (true, a).

(** Two leaves. *)
Definition compare_leaves (ours other : SHAMapItem) (a : acc) : bool * acc :=
  if bool_decide (item_key ours = item_key other) then
    if negb (bool_decide (item_data ours = item_data other))
    then note (item_key ours) (Some ours, Some other) a
    else (true, a)
  else
    let '(go, a) := note (item_key ours) (Some ours, None) a in
    if go then note (item_key other) (None, Some other) a else (false, a).

(** The branches of two inner nodes: the pairs pushed, the last on top. *)
Fixpoint compare_branches (fuel : nat) (b1 b2 : Z) (hs1 hs2 : list uint256)
    (ch1 ch2 : list (option loc)) (L : list nat) (stack : list (loc * loc)) (a : acc)
  : St (bool * (list (loc * loc) * acc)) :=
  match L with
  | [] => mret (true, (stack, a))
  | i :: L =>
      h1 ← lift (deref (hs1 !! i));
      h2 ← lift (deref (hs2 !! i));
      if decide (h1 = h2) then compare_branches fuel b1 b2 hs1 hs2 ch1 ch2 L stack a
      else if isEmptyBranch b2 i then
        q ← descendThrow b1 ch1 i;
        '(go, a) ← walkBranch fuel q None true a;
        if (go : bool) then compare_branches fuel b1 b2 hs1 hs2 ch1 ch2 L stack a else mret (false, (stack, a))
      else if isEmptyBranch b1 i then
        q ← descendThrow b2 ch2 i;
        '(go, a) ← walkBranch fuel q None false a;
        if (go : bool) then compare_branches fuel b1 b2 hs1 hs2 ch1 ch2 L stack a else mret (false, (stack, a))
      else
        q1 ← descendThrow b1 ch1 i;
        q2 ← descendThrow b2 ch2 i;
        compare_branches fuel b1 b2 hs1 hs2 ch1 ch2 L ((q1, q2) :: stack) a
  end.

(** The loop of [compare]; [w] is the fuel of each [walkBranch]. *)
Fixpoint compare_loop (w fuel : nat) (stack : list (loc * loc)) (a : acc) : St (bool * acc) :=
  match fuel with
  | O => lift (Err out_of_fuel)
  | S fuel =>
      match stack with
      | [] => mret (true, a)
      | (p1, p2) :: stack =>
          n1 ← load p1;
          n2 ← load p2;
          match n1, n2 with
          | TreeNode _ _ _ ours, TreeNode _ _ _ other =>
              let '(go, a) := compare_leaves ours other a in
              if (go : bool) then compare_loop w fuel stack a else mret (false, a)
          | InnerNode _ _ _ _ _, TreeNode _ _ _ other =>
              '(go, a) ← walkBranch w p1 (Some other) true a;
              if (go : bool) then compare_loop w fuel stack a else mret (false, a)
          | TreeNode _ _ _ ours, InnerNode _ _ _ _ _ =>
              '(go, a) ← walkBranch w p2 (Some ours) false a;
              if (go : bool) then compare_loop w fuel stack a else mret (false, a)
          | InnerNode _ _ b1 hs1 ch1, InnerNode _ _ b2 hs2 ch2 =>
              '(go, (stack, a)) ← compare_branches w b1 b2 hs1 hs2 ch1 ch2 (seq 0 16) stack a;
              if (go : bool) then compare_loop w fuel stack a else mret (false, a)
          end
      end
  end.

Section code.
Context `{!Sha512Half}.

(** [compare], with [maps] the two maps after their hashes are computed. *)
Definition SHAMap_compare (fuel : nat) (maxCount : Z) (m1 m2 : SHAMap)
  : St ((bool * Delta) * (SHAMap * SHAMap)) :=
  lift (assert_ (negb (bool_decide (state_ m1 = Invalid)) && negb (bool_decide (state_ m2 = Invalid))));;
  '(h1, m1) ← getHash fuel m1;
  '(h2, m2) ← getHash fuel m2;
  if decide (h1 = h2) then mret ((true, ∅), (m1, m2))
  else
    '(go, a) ← compare_loop fuel fuel [(root_ m1, root_ m2)] (∅, maxCount);
    mret ((go, a.1), (m1, m2)).
End code.
