(* ===== verification/SHAMapDiff.v ===== *)
(** * What [compare] reports

    The table of [compare] is the difference of the contents, or, when there are at least
    [maxCount] differences, [maxCount] of them. *)

From S2P Require Import Prelude Bytes NodeCodec SHANode SHAKeys SHAMap SHAMapInv SHAMapSteps.
From S2P Require Import SHAMapOps SHAMapAdd SHAMapDel SHAMapFlush SHAMapHash SHAMapIter.
From S2P Require Import SHAMapOrder SHAMapDelta.
Local Open Scope Z_scope.

(** ** Differences *)

Definition diff (N1 N2 : contents) : Delta :=
  map_imap (fun k p => Some (mkItem k <$> p.1, mkItem k <$> p.2))
    (merge (fun a b : option bytes => if decide (a = b) then None else Some (a, b)) N1 N2).

Lemma lookup_diff N1 N2 k :
  diff N1 N2 !! k = if decide (N1 !! k = N2 !! k) then None
                    else Some (mkItem k <$> N1 !! k, mkItem k <$> N2 !! k).
Proof.
  unfold diff. rewrite map_lookup_imap, lookup_merge. unfold diag_None.
  destruct (N1 !! k) as [a|], (N2 !! k) as [b|]; simpl; repeat case_decide; simplify_eq/=; done.
Qed.

(** The map walked and the other, in the order of the maps. *)
Definition dir_diff (f : bool) (U O : contents) : Delta := if f then diff U O else diff O U.

Lemma lookup_dir_diff f U O k :
  dir_diff f U O !! k = if decide (U !! k = O !! k) then None
                        else Some (DeltaRef f (mkItem k <$> U !! k) (mkItem k <$> O !! k)).
Proof.
  unfold dir_diff. destruct f; rewrite lookup_diff; [done|]. by repeat case_decide.
Qed.

Lemma diff_same N : diff N N = ∅.
Proof. apply map_eq. intros k. by rewrite lookup_diff, decide_True, lookup_empty. Qed.

(** ** Reporting *)

(** From [a], the differences [R] are reported: all of them, or as many as may be. *)
Definition reports (R : Delta) (a : acc) (r : bool * acc) : Prop :=
  (r.1 = true ∧ Z.of_nat (size R) < a.2 ∧ r.2 = (a.1 ∪ R, a.2 - Z.of_nat (size R)))
  ∨ (r.1 = false ∧ a.2 <= Z.of_nat (size R) ∧ a.1 ⊆ r.2.1 ∧ r.2.1 ⊆ a.1 ∪ R
     ∧ Z.of_nat (size r.2.1) = Z.of_nat (size a.1) + a.2).

Lemma reports_nil a : 0 < a.2 → reports ∅ a (true, a).
Proof.
  intros Hc. left. rewrite map_size_empty, map_union_empty. split_and!; [done|done|].
  destruct a; simpl. by rewrite Z.sub_0_r.
Qed.

Lemma reports_note k i a : 0 < a.2 → a.1 !! k = None → reports {[k := i]} a (note k i a).
Proof.
  intros Hc Hk. unfold reports, note. cbn [fst snd]. rewrite Hk, map_size_singleton.
  assert (a.1 ∪ {[k := i]} = <[k := i]> a.1) as E.
  { rewrite insert_union_singleton_l. apply map_union_comm. by apply map_disjoint_singleton_r. }
  destruct (Z.leb_spec (a.2 - 1) 0); cbn [negb].
  - right. split_and!; [done|lia|by apply insert_subseteq|by rewrite E|].
    rewrite map_size_insert_None by done. lia.
  - left. split_and!; [done|lia|]. by rewrite E.
Qed.

Lemma reports_seq R1 R2 a a' r :
  R1 ##ₘ R2 → a.1 ##ₘ R1 ∪ R2 → reports R1 a (true, a') → reports R2 a' r → reports (R1 ∪ R2) a r.
Proof.
  intros Hd Ha [(_&Hs&Ha')|(?&_)] Hr; [|done]. simpl in Ha'. subst a'. cbn [fst snd] in *.
  apply map_disjoint_union_r in Ha as [Ha1 Ha2].
  unfold reports. rewrite map_size_disj_union, Nat2Z.inj_add, (map_union_assoc a.1 R1 R2) by done.
  destruct Hr as [(Hb&Hs2&E)|(Hb&Hs2&H1&H2&H3)]; cbn [fst snd] in *.
  - left. split_and!; [done|lia|]. rewrite E. cbn [fst snd]. f_equal. lia.
  - right. split_and!; [done|lia| |done|].
    + etrans; [apply map_union_subseteq_l|done].
    + rewrite H3, map_size_disj_union by done. lia.
Qed.

Lemma reports_stop R1 R2 a a' :
  R1 ##ₘ R2 → a.1 ##ₘ R1 ∪ R2 → reports R1 a (false, a') → reports (R1 ∪ R2) a (false, a').
Proof.
  intros Hd Ha [(?&_)|(_&Hs&H1&H2&H3)]; [done|]. right. cbn [fst snd] in *.
  rewrite map_size_disj_union by done. split_and!; [done|lia|done| |done].
  etrans; [done|]. rewrite (map_union_assoc a.1 R1 R2). apply map_union_subseteq_l.
Qed.

(** Going on after a report keeps the count and the table apart from what is left. *)
Lemma reports_go R1 R2 a a' :
  R1 ##ₘ R2 → a.1 ##ₘ R1 ∪ R2 → reports R1 a (true, a') → 0 < a'.2 ∧ a'.1 ##ₘ R2.
Proof.
  intros Hd Ha [(_&Hs&E)|(?&_)]; [|done]. simpl in E. subst a'. cbn [fst snd] in *. split; [lia|].
  apply map_disjoint_union_r in Ha as [Ha1 Ha2]. by apply map_disjoint_union_l.
Qed.

(** ** The leaves of a branch *)

Fixpoint walk_leaves (f : bool) (o : option SHAMapItem) (L : list SHAMapItem) (e : bool) (a : acc)
  : bool * (bool * acc) :=
  match L with
  | [] => (true, (e, a))
  | i :: L =>
      let '(go, (e, a)) := walk_leaf f o i e a in
      if go then walk_leaves f o L e a else (false, (e, a))
  end.

Lemma walk_leaves_app f o L1 L2 : ∀ e a,
  walk_leaves f o (L1 ++ L2) e a
  = let '(go, (e, a)) := walk_leaves f o L1 e a in
    if go then walk_leaves f o L2 e a else (false, (e, a)).
Proof.
  induction L1 as [|i L1 IH]; intros e a; [done|]. cbn [app walk_leaves].
  destruct (walk_leaf f o i e a) as [[] [e' a']]; [apply IH|done].
Qed.

Definition walk_finish (f : bool) (o : option SHAMapItem) (r : bool * (bool * acc)) : bool * acc :=
  let '(go, (e, a)) := r in
  if negb go then (false, a)
  else if negb e then
    match o with Some other => note (item_key other) (DeltaRef f None (Some other)) a | None => (true, a) end
  else (true, a).

(** The item still to be matched. *)
Definition pending (o : option SHAMapItem) (e : bool) : contents :=
  match o with
  | Some other => if e then ∅ else {[item_key other := item_data other]}
  | None => ∅
  end.

Definition to_items (L : list (uint256 * bytes)) : list SHAMapItem := (fun kv => mkItem kv.1 kv.2) <$> L.

Lemma dir_diff_new (f : bool) (k : uint256) (v : bytes) (U O : contents) :
  U !! k = None → O !! k = None →
  dir_diff f (<[k := v]> U) O = {[k := DeltaRef f (Some (mkItem k v)) None]} ∪ dir_diff f U O
  ∧ dir_diff f U O !! k = None.
Proof.
  intros HU HO. assert (dir_diff f U O !! k = None) as Hn by (by rewrite lookup_dir_diff, HU, HO).
  split; [|done]. rewrite <-insert_union_singleton_l. apply map_eq. intros x. rewrite lookup_dir_diff.
  destruct (decide (x = k)) as [->|Hne].
  - by rewrite !lookup_insert_eq, HO.
  - by rewrite !lookup_insert_ne, lookup_dir_diff by done.
Qed.

Lemma dir_diff_match (f : bool) (k : uint256) (v v0 : bytes) (U : contents) :
  U !! k = None →
  dir_diff f (<[k := v]> U) {[k := v0]}
  = (if decide (v = v0) then ∅ else {[k := DeltaRef f (Some (mkItem k v)) (Some (mkItem k v0))]}) ∪ dir_diff f U ∅
  ∧ dir_diff f U ∅ !! k = None.
Proof.
  intros HU. assert (dir_diff f U ∅ !! k = None) as Hn by (by rewrite lookup_dir_diff, HU).
  split; [|done]. apply map_eq. intros x. rewrite lookup_dir_diff.
  destruct (decide (x = k)) as [->|Hne].
  - rewrite lookup_insert_eq, lookup_singleton_eq. destruct (decide (v = v0)) as [->|Hv].
    + by rewrite decide_True, map_empty_union, Hn.
    + rewrite decide_False by congruence. by rewrite <-insert_union_singleton_l, lookup_insert_eq.
  - rewrite lookup_insert_ne, lookup_singleton_ne by done.
    destruct (decide (v = v0)); [rewrite map_empty_union|rewrite <-insert_union_singleton_l, lookup_insert_ne by done];
      by rewrite lookup_dir_diff.
Qed.

Lemma dir_diff_left f k v : dir_diff f ∅ {[k := v]} = {[k := DeltaRef f None (Some (mkItem k v))]}.
Proof.
  apply map_eq. intros x. rewrite lookup_dir_diff, lookup_empty. destruct (decide (x = k)) as [->|Hne].
  - by rewrite !lookup_singleton_eq.
  - by rewrite !lookup_singleton_ne.
Qed.

Lemma dir_diff_empty f : dir_diff f ∅ ∅ = ∅.
Proof. by destruct f; apply diff_same. Qed.

(** One difference more, then those of [rest]. *)
Lemma report_one (k : uint256) (i : DeltaItem) (R : Delta) (a : acc) (rest : acc → bool * acc) :
  0 < a.2 → R !! k = None → a.1 ##ₘ {[k := i]} ∪ R →
  (∀ a', 0 < a'.2 → a'.1 ##ₘ R → reports R a' (rest a')) →
  reports ({[k := i]} ∪ R) a (let '(go, a) := note k i a in if go then rest a else (false, a)).
Proof.
  intros Hc Hk Hd Hrest. assert (({[k := i]} : Delta) ##ₘ R) as Hkr by (by apply map_disjoint_singleton_l).
  pose proof Hd as [Hda _]%map_disjoint_union_r. apply map_disjoint_singleton_r in Hda.
  pose proof (reports_note k i a Hc Hda) as Hn. destruct (note k i a) as [[] a'].
  - destruct (reports_go _ _ _ _ Hkr Hd Hn) as [Hc' Hd']. eapply reports_seq; [done|done|done|]. by apply Hrest.
  - by apply reports_stop.
Qed.

Lemma walk_leaves_ok f o L : ∀ e a,
  NoDup L.*1 → 0 < a.2 → (o = None → e = true) →
  a.1 ##ₘ dir_diff f (list_to_map L) (pending o e) →
  reports (dir_diff f (list_to_map L) (pending o e)) a (walk_finish f o (walk_leaves f o (to_items L) e a)).
Proof.
  induction L as [|[k v] L IH]; intros e a Hnd Hc Ho Hd.
  - rewrite list_to_map_nil in *. cbn [to_items fmap list_fmap walk_leaves]. unfold walk_finish. cbn [negb].
    destruct o as [[k0 v0]|]; [destruct e|rewrite (Ho eq_refl)]; cbn [pending negb item_key item_data] in *.
    1,3: rewrite dir_diff_empty; by apply reports_nil.
    rewrite dir_diff_left in *. apply reports_note; [done|]. by apply map_disjoint_singleton_r in Hd.
  - rewrite fmap_cons in Hnd. cbn [fst] in Hnd. apply NoDup_cons in Hnd as [Hk Hnd].
    assert (list_to_map L !! k = None :> option bytes) as HU by (by apply not_elem_of_list_to_map).
    rewrite list_to_map_cons in *. unfold to_items in *. rewrite fmap_cons. cbn [walk_leaves fst snd].
    assert (pending o e !! k = None →
      reports (dir_diff f (<[k := v]> (list_to_map L)) (pending o e)) a
        (walk_finish f o (let '(go, (e, a)) :=
           let '(go, a) := note k (DeltaRef f (Some (mkItem k v)) None) a in (go, (e, a)) in
           if go then walk_leaves f o ((fun kv => mkItem kv.1 kv.2) <$> L) e a else (false, (e, a))))) as Hun.
    { intros HO. destruct (dir_diff_new f k v (list_to_map L) (pending o e) HU HO) as [E Hn]. rewrite E in *.
      pose proof (report_one k _ _ a (fun a => walk_finish f o (walk_leaves f o ((fun kv => mkItem kv.1 kv.2) <$> L) e a))
        Hc Hn Hd (fun a' Hc' Hd' => IH e a' Hnd Hc' Ho Hd')) as Hr.
      destruct (note k _ a) as [[] a']; exact Hr. }
    unfold walk_leaf. cbn [item_key item_data]. destruct o as [[k0 v0]|]; [|by apply Hun].
    cbn [item_key item_data]. destruct e; cbn [orb]; [by apply Hun|].
    case_bool_decide as Hkk; cbn [negb]; [subst k0|apply Hun; cbn [pending item_key]; by rewrite lookup_singleton_ne].
    cbn [pending item_key item_data] in Hd |- *.
    clear Hun. destruct (dir_diff_match f k v v0 (list_to_map L) HU) as [E Hn]. rewrite E in *.
    case_bool_decide as Hvv; cbn [negb].
    + rewrite decide_True in * by done. rewrite map_empty_union in *. by apply (IH true a).
    + rewrite decide_False in * by done.
      pose proof (report_one k _ _ a (fun a => walk_finish f (Some (mkItem k v0))
          (walk_leaves f (Some (mkItem k v0)) ((fun kv => mkItem kv.1 kv.2) <$> L) true a))
        Hc Hn Hd (fun a' Hc' Hd' => IH true a' Hnd Hc' ltac:(done) Hd')) as Hr.
      destruct (note k _ a) as [[] a']; exact Hr.
Qed.

(** ** Walking a branch *)

Section walk.
Context `{!Sha512Half} (T : TNType) (h : heap).
Abbreviation repr := (repr T).

(** The loop takes the nodes [ps] off the stack and sees the items [L]. *)
Definition walks (ps : list loc) (L : list SHAMapItem) : Prop :=
  ∃ K, ∀ fuel f o rest e a,
    walk_branch_loop (K + fuel) f o (ps ++ rest) e a h
    = let '(go, (e, a)) := walk_leaves f o L e a in
      if go then walk_branch_loop fuel f o rest e a h else Ok ((false, (e, a)), h).

Lemma walks_nil : walks [] [].
Proof. by exists 0%nat. Qed.

Lemma walks_app ps1 ps2 L1 L2 : walks ps1 L1 → walks ps2 L2 → walks (ps1 ++ ps2) (L1 ++ L2).
Proof.
  intros [K1 H1] [K2 H2]. exists (K1 + K2)%nat. intros fuel f o rest e a.
  rewrite <-app_assoc, <-Nat.add_assoc, H1, walk_leaves_app.
  destruct (walk_leaves f o L1 e a) as [[] [e' a']]; [apply H2|done].
Qed.

Lemma walks_leaf p sq hh i : h !! p = Some (TreeNode sq hh T i) → walks [p] [i].
Proof.
  intros Hp. exists 1%nat. intros fuel f o rest e a. cbn [app Nat.add walk_branch_loop walk_leaves]. run_load.
  by destruct (walk_leaf f o i e a) as [[] [e' a']].
Qed.

Lemma walks_inner p sq hash isb hs ch qs L :
  h !! p = Some (InnerNode sq hash isb hs ch) → child_nodes isb ch (seq 0 16) h = Ok (qs, h) →
  walks (reverse qs) L → walks [p] L.
Proof.
  intros Hp Hq [K HK]. exists (S K). intros fuel f o rest e a. cbn [app Nat.add walk_branch_loop].
  run_load. run Hq. apply HK.
Qed.

Lemma child_nodes_ok (R : loc → contents → gset loc → Prop) (g : nat → list SHAMapItem)
    (d : nat) (N : contents) (hs : list uint256) (isb : Z) (ch : list (option loc))
    (fps : nat → gset loc) (L : list nat) :
  inner_shape hs isb ch → (∀ i c, ch !! i = Some c → child_ok R c (sub d i N) (fps i)) →
  (∀ i q, ch !! i = Some (Some q) → walks [q] (g i)) → (∀ i, sub d i N = ∅ → g i = []) →
  (∀ i, i ∈ L → (i < 16)%nat) →
  ∃ qs, child_nodes isb ch L h = Ok (qs, h) ∧ walks (reverse qs) (reverse L ≫= g).
Proof.
  intros Hsh Hch Hw Hg. induction L as [|i L IH]; intros HL; [exists []; split; [done|apply walks_nil]|].
  destruct IH as (qs&Hqs&Hwqs); [intros j Hj; apply HL; by right|].
  assert (i < 16)%nat as Hi by (apply HL; by left).
  destruct (lookup_lt_is_Some_2 ch i) as [c Hc]; [rewrite (is_children _ _ _ Hsh); lia|].
  cbn [child_nodes]. rewrite (branch_bit _ _ _ _ _ Hsh Hc), reverse_cons, bind_app. destruct c as [q|].
  - run (descendThrow_ok isb ch i q h Hc). run Hqs. exists (q :: qs). split; [done|]. rewrite reverse_cons.
    apply walks_app; [done|]. cbn [mbind list_bind]. rewrite app_nil_r. by apply (Hw i).
  - exists qs. split; [done|]. destruct (Hch i None Hc) as [He _]. cbn [mbind list_bind].
    by rewrite (Hg i He), !app_nil_r.
Qed.

Lemma reverse_bind {A B} (g : A → list B) (L : list A) :
  reverse (L ≫= g) = reverse L ≫= (fun x => reverse (g x)).
Proof.
  induction L as [|x L IH]; [done|]. cbn [mbind list_bind]. rewrite reverse_app, reverse_cons, bind_app.
  change (list_bind _ _ g L) with (L ≫= g). rewrite IH. cbn [mbind list_bind]. by rewrite app_nil_r.
Qed.

Lemma fmap_bind_items (g : nat → list (uint256 * bytes)) (L : list nat) :
  to_items (L ≫= g) = L ≫= (fun i => to_items (g i)).
Proof. unfold to_items. induction L as [|x L IH]; [done|]. cbn [mbind list_bind]. by rewrite fmap_app, <-IH. Qed.

Lemma walks_tree n : ∀ d s p N fp, repr n d h s p N fp → walks [p] (reverse (to_items (items n d N))).
Proof.
  assert (∀ n' d s p N fp, leaf_ok T h s p N fp → walks [p] (reverse (to_items (items n' d N)))) as Hleaf.
  { intros n' d s p N fp (sq&k&v&Hp&->&_). rewrite items_singleton. by eapply walks_leaf. }
  induction n as [|n IH]; intros d s p N fp [Hl|[_ Hi]]; try done; try by eapply Hleaf.
  destruct Hi as (sq&hash&isb&hs&ch&fps&Hp&Hsh&Hch&_).
  rewrite items_S, fmap_bind_items, reverse_bind.
  destruct (child_nodes_ok (repr n (S d) h s) (fun i => reverse (to_items (items n (S d) (sub d i N))))
    d N hs isb ch fps (seq 0 16) Hsh Hch) as (qs&Hqs&Hw).
  - intros i q Hq. destruct (Hch i _ Hq) as [_ Hr]. by eapply IH.
  - intros i ->. by rewrite items_empty.
  - intros i Hi%elem_of_seq. lia.
  - by eapply walks_inner.
Qed.

(** [walkBranch] reports the differences between the items below a node and one item. *)
Lemma walkBranch_ok n d s p N fp f o :
  (n + d = 64)%nat → wf_contents N → common d N → repr n d h s p N fp →
  ∃ K, ∀ fuel a, (K <= fuel)%nat → 0 < a.2 →
    a.1 ##ₘ dir_diff f N (pending o (match o with None => true | _ => false end)) →
    ∃ r, walkBranch fuel p o f a h = Ok (r, h)
      ∧ reports (dir_diff f N (pending o (match o with None => true | _ => false end))) a r.
Proof.
  intros Hnd Hw Hc Hr. destruct (walks_tree n d s p N fp Hr) as [K HK]. exists (S K).
  intros fuel a Hf Hpos Hd. set (e := match o with None => true | _ => false end) in *.
  set (L := reverse (items n d N)).
  assert (NoDup L.*1 ∧ list_to_map L = N) as [Hnodup HL].
  { assert (NoDup (items n d N).*1) as Hn by (by apply sorted_NoDup, items_sorted).
    assert (NoDup L.*1) as HnL by (unfold L; by rewrite fmap_reverse, reverse_Permutation).
    split; [done|]. apply map_eq. intros k. apply option_eq. intros v.
    rewrite <-elem_of_list_to_map by done. unfold L. rewrite elem_of_reverse. by apply elem_of_items. }
  pose proof (walk_leaves_ok f o L e a Hnodup Hpos ltac:(unfold e; by intros ->) ltac:(by rewrite HL)) as Hrep.
  rewrite HL in Hrep. eexists. split; [|exact Hrep].
  assert (to_items L = reverse (to_items (items n d N))) as HLi by (unfold L, to_items; by rewrite fmap_reverse).
  unfold walkBranch. fold e. specialize (HK (fuel - K)%nat f o [] e a). replace (K + (fuel - K))%nat with fuel in HK by lia.
  rewrite app_nil_r, <-HLi in HK. destruct (walk_leaves f o (to_items L) e a) as [go [e' a']] eqn:Hwl.
  assert (walk_branch_loop fuel f o [p] e a h = Ok ((go, (e', a')), h)) as Hrun.
  { rewrite HK. destruct go; [|done]. by replace (fuel - K)%nat with (S (fuel - K - 1)) by lia. }
  run Hrun. unfold walk_finish. destruct go; cbn [negb]; [|done]. destruct e' eqn:He'; cbn [negb]; [done|].
  destruct o as [other|]; [done|]. exfalso. clear -Hwl. revert Hwl. unfold e. clear e. revert a.
  induction (to_items L) as [|i L' IH]; intros a; cbn [walk_leaves walk_leaf]; [done|].
  destruct (note _ _ a) as [[] a'']; [apply IH|done].
Qed.
End walk.

(** ** Comparing two trees *)

Section compare.
Context `{!Sha512Half} (T : TNType) (h : heap) (s1 s2 : Z).
Context (HT : is_leaf_type T) (Hlen : ∀ x, length (sha512Half x) = 32%nat).
Context (X : list bytes) (HX : resists X).
Abbreviation repr := (repr T).

(** The loop takes the pairs [P] off the stack and reports [R]. *)
Definition loops (P : list (loc * loc)) (R : Delta) : Prop :=
  ∃ K W, ∀ w fuel rest a, (W <= w)%nat → 0 < a.2 → a.1 ##ₘ R →
    ∃ r, reports R a r ∧
      compare_loop w (K + fuel) (P ++ rest) a h
      = let '(go, a') := r in if go then compare_loop w fuel rest a' h else Ok ((false, a'), h).

Lemma loops_nil : loops [] ∅.
Proof using. clear. exists 0%nat, 0%nat. intros w fuel rest a _ Hc _. exists (true, a). split; [by apply reports_nil|done]. Qed.

Lemma loops_app P1 P2 R1 R2 : R1 ##ₘ R2 → loops P1 R1 → loops P2 R2 → loops (P1 ++ P2) (R1 ∪ R2).
Proof using.
  clear. intros Hd (K1&W1&H1) (K2&W2&H2). exists (K1 + K2)%nat, (W1 + W2)%nat. intros w fuel rest a Hw Hc Ha.
  rewrite <-app_assoc, <-Nat.add_assoc. pose proof Ha as [Ha1 Ha2]%map_disjoint_union_r.
  destruct (H1 w (K2 + fuel)%nat (P2 ++ rest) a) as ([go a1]&Hr1&E1); [lia|done|done|]. rewrite E1. destruct go.
  - destruct (reports_go _ _ _ _ Hd Ha Hr1) as [Hc1 Hd1].
    destruct (H2 w fuel rest a1) as (r&Hr&E2); [lia|done|done|]. exists r. split; [|done]. by eapply reports_seq.
  - exists (false, a1). split; [by apply reports_stop|done].
Qed.

(** The differences in some branches. *)
Definition part (d : nat) (N1 N2 : contents) (L : list nat) : Delta :=
  filter (fun kv => nib d kv.1 ∈ L) (diff N1 N2).

Lemma lookup_sub_eq d i N k : sub d i N !! k = if decide (nib d k = i) then N !! k else None.
Proof using.
  clear. apply option_eq. intros v. rewrite lookup_sub. case_decide; [tauto|]. split; [tauto|done].
Qed.

Lemma part_cons d N1 N2 i L :
  i ∉ L → part d N1 N2 (i :: L) = diff (sub d i N1) (sub d i N2) ∪ part d N1 N2 L
  ∧ diff (sub d i N1) (sub d i N2) ##ₘ part d N1 N2 L.
Proof using.
  clear. intros Hi. assert (diff (sub d i N1) (sub d i N2) ##ₘ part d N1 N2 L) as Hd.
  { apply map_disjoint_spec. intros k x y Hx [_ Hy]%map_lookup_filter_Some. simpl in Hy.
    rewrite lookup_diff, !lookup_sub_eq in Hx. destruct (decide (nib d k = i)) as [<-|]; [done|].
    by rewrite decide_True in Hx. }
  split; [|done]. apply map_eq. intros k. apply option_eq. intros x.
  rewrite lookup_union_Some by done. unfold part. rewrite !map_lookup_filter_Some. simpl.
  rewrite !lookup_diff, !lookup_sub_eq, elem_of_cons.
  destruct (decide (nib d k = i)) as [E|E]; [|rewrite (decide_True (P := None = None)) by done]; naive_solver.
Qed.

Lemma part_all d N1 N2 : part d N1 N2 (seq 0 16) = diff N1 N2.
Proof using.
  clear. unfold part. apply map_filter_id. intros k x _. cbn [fst]. apply elem_of_seq. pose proof (nib_lt d k). lia.
Qed.

(** [walkBranch] at [q] reports [R]. *)
Definition walk_reports (q : loc) (f : bool) (R : Delta) : Prop :=
  ∃ K, ∀ w a, (K <= w)%nat → 0 < a.2 → a.1 ##ₘ R →
    ∃ r, walkBranch w q None f a h = Ok (r, h) ∧ reports R a r.

(** One branch of two inner nodes, with the differences [D] below it. *)
Definition branch_pair (b1 b2 : Z) (hs1 hs2 : list uint256) (ch1 ch2 : list (option loc)) (i : nat)
    (D : Delta) : Prop :=
  ∃ h1 h2, hs1 !! i = Some h1 ∧ hs2 !! i = Some h2 ∧
    (h1 = h2 ∧ D = ∅
     ∨ h1 ≠ h2 ∧
       ((isEmptyBranch b2 i = true ∧ ∃ q, ch1 !! i = Some (Some q) ∧ walk_reports q true D)
        ∨ (isEmptyBranch b2 i = false ∧ isEmptyBranch b1 i = true
           ∧ ∃ q, ch2 !! i = Some (Some q) ∧ walk_reports q false D)
        ∨ (isEmptyBranch b2 i = false ∧ isEmptyBranch b1 i = false
           ∧ ∃ q1 q2, ch1 !! i = Some (Some q1) ∧ ch2 !! i = Some (Some q2) ∧ loops [(q1, q2)] D))).

(** The loop over branches pushes [P], which will report [Rp], and reports [Rw]. *)
Definition branches_report (b1 b2 : Z) (hs1 hs2 : list uint256) (ch1 ch2 : list (option loc))
    (L : list nat) (R : Delta) : Prop :=
  ∃ K P Rw Rp, loops P Rp ∧ Rw ##ₘ Rp ∧ Rw ∪ Rp = R ∧
    ∀ w stack a, (K <= w)%nat → 0 < a.2 → a.1 ##ₘ Rw →
      ∃ r st, reports Rw a r ∧ (r.1 = true → st = P ++ stack)
        ∧ compare_branches w b1 b2 hs1 hs2 ch1 ch2 L stack a h = Ok ((r.1, (st, r.2)), h).

(** The step for a branch that is walked at once. *)
Lemma branches_walk b1 b2 hs1 hs2 ch1 ch2 i L D R f q :
  D ##ₘ R → walk_reports q f D → branches_report b1 b2 hs1 hs2 ch1 ch2 L R →
  (∀ w stack a, compare_branches w b1 b2 hs1 hs2 ch1 ch2 (i :: L) stack a h
     = ('(go, a) ← walkBranch w q None f a;
        if (go : bool) then compare_branches w b1 b2 hs1 hs2 ch1 ch2 L stack a
        else mret (false, (stack, a))) h) →
  branches_report b1 b2 hs1 hs2 ch1 ch2 (i :: L) (D ∪ R).
Proof using.
  clear HT Hlen X HX. intros HD (Kq&Hq) (K&P&Rw&Rp&Hloops&Hdis&<-&Hrun) E.
  apply map_disjoint_union_r in HD as [HDw HDp].
  exists (Kq + K)%nat, P, (D ∪ Rw), Rp. split_and!; [done| |by rewrite map_union_assoc|].
  { by apply map_disjoint_union_l. }
  intros w stack a Hw Hc Ha. pose proof Ha as [Ha1 Ha2]%map_disjoint_union_r.
  destruct (Hq w a) as ([go a1]&Hwalk&Hrep); [lia|done|done|]. rewrite E, (St_bind_ok _ _ _ _ _ Hwalk). cbv beta iota.
  destruct go.
  - destruct (reports_go _ _ _ _ HDw Ha Hrep) as [Hc1 Hd1].
    destruct (Hrun w stack a1) as (r&st&Hr&Hst&Hcb); [lia|done|done|].
    exists r, st. split_and!; [by eapply reports_seq|done|done].
  - exists (false, a1), stack. split_and!; [by apply reports_stop|done|done].
Qed.

Lemma compare_branches_ok (d : nat) (N1 N2 : contents) b1 b2 hs1 hs2 ch1 ch2 (L : list nat) :
  NoDup L →
  (∀ i, i ∈ L → branch_pair b1 b2 hs1 hs2 ch1 ch2 i (diff (sub d i N1) (sub d i N2))) →
  branches_report b1 b2 hs1 hs2 ch1 ch2 L (part d N1 N2 L).
Proof using.
  clear HT Hlen X HX. intros Hnd HL. induction L as [|i L IH].
  { exists 0%nat, [], ∅, ∅. split_and!; [apply loops_nil|apply map_disjoint_empty_l| |].
    - rewrite map_empty_union. symmetry. apply map_empty. intros k. unfold part.
      apply map_lookup_filter_None. right. intros x _ Hx. by apply elem_of_nil in Hx.
    - intros w stack a _ Hc _. exists (true, a), stack. split_and!; [by apply reports_nil|done|done]. }
  apply NoDup_cons in Hnd as [Hni Hnd]. destruct (part_cons d N1 N2 i L Hni) as [-> Hpd].
  specialize (IH Hnd (fun j Hj => HL j (list_elem_of_further _ _ _ Hj))).
  destruct (HL i (list_elem_of_here _ _)) as (h1&h2&Hh1&Hh2&Hcase).
  set (D := diff (sub d i N1) (sub d i N2)) in *. set (R := part d N1 N2 L) in *.
  destruct Hcase as [[<- E]|[Hne [(Hb2&q&Hq&Hw)|[(Hb2&Hb1&q&Hq&Hw)|(Hb2&Hb1&q1&q2&Hq1&Hq2&Hl)]]]].
  - rewrite E, map_empty_union. destruct IH as (K&P&Rw&Rp&Hloops&Hdis&Hun&Hrun).
    exists K, P, Rw, Rp. split_and!; [done..|]. intros w stack a Hw Hc Ha. cbn [compare_branches].
    destruct (Hrun w stack a Hw Hc Ha) as (r&st&Hr&Hst&Hcb). exists r, st. split_and!; [done..|].
    run (lift_ok (deref (hs1 !! i)) h1 h ltac:(by rewrite Hh1)).
    run (lift_ok (deref (hs2 !! i)) h1 h ltac:(by rewrite Hh2)). by rewrite decide_True.
  - eapply branches_walk; [done|exact Hw|done|]. intros w stack a. cbn [compare_branches].
    run (lift_ok (deref (hs1 !! i)) h1 h ltac:(by rewrite Hh1)).
    run (lift_ok (deref (hs2 !! i)) h2 h ltac:(by rewrite Hh2)). rewrite decide_False, Hb2 by done.
    run (descendThrow_ok b1 ch1 i q h Hq). done.
  - eapply branches_walk; [done|exact Hw|done|]. intros w stack a. cbn [compare_branches].
    run (lift_ok (deref (hs1 !! i)) h1 h ltac:(by rewrite Hh1)).
    run (lift_ok (deref (hs2 !! i)) h2 h ltac:(by rewrite Hh2)). rewrite decide_False, Hb2, Hb1 by done.
    run (descendThrow_ok b2 ch2 i q h Hq). done.
  - destruct IH as (K&P&Rw&Rp&Hloops&Hdis&Hun&Hrun). rewrite <-Hun in Hpd.
    apply map_disjoint_union_r in Hpd as [HDw HDp].
    exists K, (P ++ [(q1, q2)]), Rw, (Rp ∪ D). split_and!.
    + apply loops_app; [by apply map_disjoint_sym|done|done].
    + apply map_disjoint_union_r. split; [done|by apply map_disjoint_sym].
    + rewrite map_union_assoc, Hun. apply map_union_comm. apply map_disjoint_sym. rewrite <-Hun. by apply map_disjoint_union_r.
    + intros w stack a Hw Hc Ha. destruct (Hrun w ((q1, q2) :: stack) a Hw Hc Ha) as (r&st&Hr&Hst&Hcb).
      exists r, st. split_and!; [done|intros Hgo; by rewrite <-app_assoc, (Hst Hgo)|]. cbn [compare_branches].
      run (lift_ok (deref (hs1 !! i)) h1 h ltac:(by rewrite Hh1)).
      run (lift_ok (deref (hs2 !! i)) h2 h ltac:(by rewrite Hh2)). rewrite decide_False, Hb2, Hb1 by done.
      run (descendThrow_ok b1 ch1 i q1 h Hq1). run (descendThrow_ok b2 ch2 i q2 h Hq2). done.
Qed.

Lemma lookup_bhashes n d N i :
  (i < 16)%nat → bhashes T n d N !! i = Some (thash T n (S d) (sub d i N)).
Proof using. clear. intros Hi. unfold bhashes. rewrite list_lookup_fmap, lookup_seq_lt by done. done. Qed.

(** A shared node in memory for a branch in use. *)
Lemma clean_branch n d s N isb ch i :
  inner_shape (bhashes T n d N) isb ch → (i < 16)%nat →
  (∀ i c, ch !! i = Some c → child_ok (repr n (S d) h s) c (sub d i N) ∅) →
  (isEmptyBranch isb i = true ∧ sub d i N = ∅)
  ∨ (isEmptyBranch isb i = false ∧ ∃ q, ch !! i = Some (Some q) ∧ repr n (S d) h s q (sub d i N) ∅).
Proof using.
  clear HT Hlen X HX. intros Hsh Hi Hch.
  destruct (lookup_lt_is_Some_2 ch i) as [c Hc]; [rewrite (is_children _ _ _ Hsh); lia|].
  rewrite (branch_bit _ _ _ _ _ Hsh Hc). specialize (Hch i c Hc). destruct c as [q|]; [right|left; by destruct Hch].
  destruct Hch as [_ Hch]. split; [done|]. by exists q.
Qed.

Lemma walk_one n d s q N f :
  (n + d = 64)%nat → wf_contents N → common d N → repr n d h s q N ∅ →
  walk_reports q f (dir_diff f N ∅).
Proof using.
  clear HT Hlen X HX. intros Hnd Hw Hc Hr. destruct (walkBranch_ok T h n d s q N ∅ f None Hnd Hw Hc Hr) as [K HK].
  exists K. intros w a Hk Hpos Hd. by apply HK.
Qed.

Definition within (n d : nat) (N : contents) : Prop := named T N ∧ ∀ x, x ∈ hashed T n d N → x ∈ X.

Lemma inner_pair n d p1 p2 N1 N2 :
  (n + S d = 64)%nat → wf_contents N1 → wf_contents N2 → common d N1 → common d N2 →
  (∀ i, (i < 16)%nat → within n (S d) (sub d i N1) ∧ within n (S d) (sub d i N2)) →
  inner_ok T (repr n (S d) h s1) n d h s1 p1 N1 ∅ → inner_ok T (repr n (S d) h s2) n d h s2 p2 N2 ∅ →
  (∀ i q1 q2, (i < 16)%nat → repr n (S d) h s1 q1 (sub d i N1) ∅ → repr n (S d) h s2 q2 (sub d i N2) ∅ →
     loops [(q1, q2)] (diff (sub d i N1) (sub d i N2))) →
  loops [(p1, p2)] (diff N1 N2).
Proof.
  intros Hnd Hw1 Hw2 Hc1 Hc2 Hin Hi1 Hi2 IH.
  apply inner_clean in Hi1 as (b1&ch1&Hp1&Hsh1&Hch1), Hi2 as (b2&ch2&Hp2&Hsh2&Hch2).
  set (hs1 := bhashes T n d N1) in *. set (hs2 := bhashes T n d N2) in *.
  destruct (compare_branches_ok d N1 N2 b1 b2 hs1 hs2 ch1 ch2 (seq 0 16) (NoDup_seq _ _))
    as (K&P&Rw&Rp&(Kp&Wp&Hloops)&Hdis&Hun&Hrun).
  - intros i Hi%elem_of_seq. assert (i < 16)%nat as Hlt by lia.
    eexists _, _. split_and!; [by apply lookup_bhashes|by apply lookup_bhashes|].
    destruct (Hin i Hlt) as [[Hnm1 Hx1] [Hnm2 Hx2]].
    destruct (decide (thash T n (S d) (sub d i N1) = thash T n (S d) (sub d i N2))) as [E|Hne].
    { left. split; [done|]. apply (thash_binding T Hlen X HX) in E;
        [by rewrite E, diff_same|done|done|by apply wf_sub|by apply wf_sub|done|done|by apply common_sub|by apply common_sub|done|done]. }
    right. split; [done|].
    destruct (clean_branch n d s1 N1 b1 ch1 i) as [[Hb1 He1]|(Hb1&q1&Hq1&Hr1)]; [done|done|done| |];
      destruct (clean_branch n d s2 N2 b2 ch2 i) as [[Hb2 He2]|(Hb2&q2&Hq2&Hr2)]; try done.
    + by rewrite He1, He2 in Hne.
    + right. left. split_and!; [done|done|]. exists q2. split; [done|]. rewrite He1.
      apply (walk_one n (S d) s2 q2 _ false); [done|by apply wf_sub|by apply common_sub|done].
    + left. split; [done|]. exists q1. split; [done|]. rewrite He2.
      apply (walk_one n (S d) s1 q1 _ true); [done|by apply wf_sub|by apply common_sub|done].
    + right. right. split_and!; [done|done|]. exists q1, q2. split_and!; [done|done|]. by apply IH.
  - rewrite part_all in Hun. exists (S Kp), (K + Wp)%nat. intros w fuel rest a Hw Hc Ha. rewrite <-Hun in Ha.
    pose proof Ha as [Ha1 Ha2]%map_disjoint_union_r.
    destruct (Hrun w rest a) as ([go a1]&st&Hr&Hst&Hcb); [lia|done|done|].
    cbn [app Nat.add compare_loop]. rewrite (St_bind_ok _ _ _ _ _ (load_ok _ _ _ Hp1)), (St_bind_ok _ _ _ _ _ (load_ok _ _ _ Hp2)).
    rewrite (St_bind_ok _ _ _ _ _ Hcb). cbv beta iota. cbn [fst snd] in Hst. cbn [fst snd]. rewrite <-Hun. destruct go.
    + destruct (reports_go _ _ _ _ Hdis Ha Hr) as [Hc' Hd']. rewrite (Hst eq_refl).
      destruct (Hloops w fuel rest a1) as (r&Hr2&E2); [lia|done|done|]. exists r. split; [by eapply reports_seq|done].
    + exists (false, a1). split; [by apply reports_stop|done].
Qed.

(** Two leaves. *)
Lemma leaf_pair k1 v1 k2 v2 a :
  0 < a.2 → a.1 ##ₘ diff {[k1 := v1]} {[k2 := v2]} →
  reports (diff {[k1 := v1]} {[k2 := v2]}) a (compare_leaves (mkItem k1 v1) (mkItem k2 v2) a).
Proof using.
  clear. intros Hc Hd. unfold compare_leaves. cbn [item_key item_data].
  case_bool_decide as Hk; [subst k2|].
  - destruct (dir_diff_match true k1 v1 v2 ∅ (lookup_empty _)) as [E _].
    cbn [dir_diff] in E. rewrite insert_empty in E. rewrite E in *. rewrite diff_same, map_union_empty in *.
    case_bool_decide as Hv; cbn [negb].
    + rewrite decide_True by done. by apply reports_nil.
    + rewrite decide_False in * by done. apply reports_note; [done|]. by apply map_disjoint_singleton_r in Hd.
  - destruct (dir_diff_new true k1 v1 ∅ {[k2 := v2]} (lookup_empty _)) as [E Hn]; [by rewrite lookup_singleton_ne|].
    pose proof (dir_diff_left true k2 v2) as E2. cbn [dir_diff DeltaRef] in *. rewrite insert_empty in E.
    rewrite E2 in *. rewrite E in *.
    apply (report_one k1 _ _ a (fun a => note k2 _ a)); [done|done|done|]. intros a' Hc' Hd'.
    apply reports_note; [done|]. by apply map_disjoint_singleton_r in Hd'.
Qed.

(** One step of the loop that does not push. *)
Lemma loops_step (p1 p2 : loc) (R : Delta) (W : nat) (g : nat → acc → St (bool * acc)) :
  (∀ w fuel rest a, compare_loop w (S fuel) ((p1, p2) :: rest) a h
     = ('(go, a) ← g w a; if (go : bool) then compare_loop w fuel rest a else mret (false, a)) h) →
  (∀ w a, (W <= w)%nat → 0 < a.2 → a.1 ##ₘ R → ∃ r, g w a h = Ok (r, h) ∧ reports R a r) →
  loops [(p1, p2)] R.
Proof using.
  clear HT Hlen X HX. intros E Hg. exists 1%nat, W. intros w fuel rest a Hw Hc Ha.
  destruct (Hg w a Hw Hc Ha) as ([go a']&Hrun&Hr). exists (go, a'). split; [done|].
  cbn [app Nat.add]. rewrite E, (St_bind_ok _ _ _ _ _ Hrun). by destruct go.
Qed.

Lemma tree_pair n : ∀ d p1 p2 N1 N2,
  (n + d = 64)%nat → wf_contents N1 → wf_contents N2 → common d N1 → common d N2 →
  within n d N1 → within n d N2 →
  repr n d h s1 p1 N1 ∅ → repr n d h s2 p2 N2 ∅ → loops [(p1, p2)] (diff N1 N2).
Proof.
  induction n as [n IH] using lt_wf_ind. intros d p1 p2 N1 N2 Hnd Hw1 Hw2 Hc1 Hc2 Hx1 Hx2 Hr1 Hr2.
  assert (∀ p s N, repr n d h s p N ∅ → leaf_ok T h s p N ∅
    ∨ ∃ n', n = S n' ∧ (2 <= size N)%nat ∧ inner_ok T (repr n' (S d) h s) n' d h s p N ∅) as Hcases
    by (intros p s N Hr; destruct n as [|n']; destruct Hr as [?|[? ?]]; eauto 10; done).
  destruct (Hcases p1 s1 N1 Hr1) as [(q1&k1&v1&Hp1&E1&_)|(n1&En1&Hs1&Hi1)];
    destruct (Hcases p2 s2 N2 Hr2) as [(q2&k2&v2&Hp2&E2&_)|(n2&En2&Hs2&Hi2)].
  - subst N1 N2. eapply (loops_step p1 p2 _ 0 (fun _ a => mret (compare_leaves (mkItem k1 v1) (mkItem k2 v2) a))).
    + intros w fuel rest a. cbn [compare_loop].
      rewrite (St_bind_ok _ _ _ _ _ (load_ok _ _ _ Hp1)), (St_bind_ok _ _ _ _ _ (load_ok _ _ _ Hp2)). cbv beta iota.
      rewrite (St_bind_ok _ _ h (compare_leaves (mkItem k1 v1) (mkItem k2 v2) a) h) by done.
      by destruct (compare_leaves (mkItem k1 v1) (mkItem k2 v2) a) as [[] a'].
    + intros w a _ Hc Hd. eexists. split; [done|]. by apply leaf_pair.
  - subst N1. destruct (walkBranch_ok T h n d s2 p2 N2 ∅ false (Some (mkItem k1 v1)) Hnd Hw2 Hc2 Hr2) as [W HW].
    pose proof Hi2 as (sq&hash&isb&hs&ch&fps&Hp2&_).
    eapply (loops_step p1 p2 _ W (fun w a => walkBranch w p2 (Some (mkItem k1 v1)) false a)); [|exact HW].
    intros w fuel rest a. cbn [compare_loop].
    by rewrite (St_bind_ok _ _ _ _ _ (load_ok _ _ _ Hp1)), (St_bind_ok _ _ _ _ _ (load_ok _ _ _ Hp2)).
  - subst N2. destruct (walkBranch_ok T h n d s1 p1 N1 ∅ true (Some (mkItem k2 v2)) Hnd Hw1 Hc1 Hr1) as [W HW].
    pose proof Hi1 as (sq&hash&isb&hs&ch&fps&Hp1&_).
    eapply (loops_step p1 p2 _ W (fun w a => walkBranch w p1 (Some (mkItem k2 v2)) true a)); [|exact HW].
    intros w fuel rest a. cbn [compare_loop].
    by rewrite (St_bind_ok _ _ _ _ _ (load_ok _ _ _ Hp1)), (St_bind_ok _ _ _ _ _ (load_ok _ _ _ Hp2)).
  - subst n. assert (n2 = n1) as -> by lia. destruct Hx1 as [Hnm1 Hx1], Hx2 as [Hnm2 Hx2]. rewrite hashed_more in Hx1, Hx2 by done.
    assert (∀ i, (i < 16)%nat → within n1 (S d) (sub d i N1) ∧ within n1 (S d) (sub d i N2)) as Hin.
    { intros i Hi. split; (split; [by apply named_sub|]); intros x Hx; [apply Hx1|apply Hx2]; right; by eapply hashed_branch. }
    apply (inner_pair n1 d); [lia|done..|]. intros i q1 q2 Hi Hq1 Hq2. destruct (Hin i Hi).
    apply (IH n1 ltac:(lia) (S d)); [lia|by apply wf_sub|by apply wf_sub|by apply common_sub|by apply common_sub|done..].
Qed.

Lemma root_pair p1 p2 M1 M2 :
  wf_contents M1 → wf_contents M2 → named T M1 → named T M2 →
  (∀ x, x ∈ root_hashed T M1 → x ∈ X) → (∀ x, x ∈ root_hashed T M2 → x ∈ X) →
  root_repr T h s1 p1 M1 ∅ → root_repr T h s2 p2 M2 ∅ → loops [(p1, p2)] (diff M1 M2).
Proof.
  intros Hw1 Hw2 Hnm1 Hnm2 Hx1 Hx2 Hr1 Hr2.
  assert (∀ M : contents, common 0 M) as Hc by (intros M x y _ _ _ _ j Hj; lia).
  assert (∀ (M : contents) i, (i < 16)%nat → named T M → (∀ x, x ∈ root_hashed T M → x ∈ X) → within 63 1 (sub 0 i M)) as Hin.
  { intros M i Hi Hnm Hx. split; [by apply named_sub|]. intros x Hxi. apply Hx. unfold root_hashed. case_decide as HM.
    - subst M. rewrite (map_filter_empty _ : sub 0 i ∅ = ∅) in Hxi. cbn [hashed] in Hxi.
      rewrite map_to_list_empty in Hxi. by apply elem_of_nil in Hxi.
    - right. by apply (hashed_branch T 63 0 M i). }
  apply (inner_pair 63 0); [done|done|done|apply Hc|apply Hc| |done|done|].
  - intros i Hi. split; by apply Hin.
  - intros i q1 q2 Hi Hq1 Hq2. apply (tree_pair 63 1); [done|by apply wf_sub|by apply wf_sub|by apply common_sub|by apply common_sub|by apply Hin|by apply Hin|done|done].
Qed.

(** The loop of [compare] from the roots. *)
Lemma compare_loop_ok p1 p2 M1 M2 :
  wf_contents M1 → wf_contents M2 → named T M1 → named T M2 →
  (∀ x, x ∈ root_hashed T M1 → x ∈ X) → (∀ x, x ∈ root_hashed T M2 → x ∈ X) →
  root_repr T h s1 p1 M1 ∅ → root_repr T h s2 p2 M2 ∅ →
  ∃ K, ∀ fuel c, (K <= fuel)%nat → 0 < c →
    ∃ r, compare_loop fuel fuel [(p1, p2)] (∅, c) h = Ok (r, h) ∧ reports (diff M1 M2) (∅, c) r.
Proof.
  intros Hw1 Hw2 Hnm1 Hnm2 Hx1 Hx2 Hr1 Hr2. destruct (root_pair p1 p2 M1 M2) as (K&W&Hl); [done..|].
  exists (S (K + W)). intros fuel c Hf Hc.
  destruct (Hl fuel (fuel - K)%nat [] (∅, c)) as ([go a]&Hr&E); [lia|done|apply map_disjoint_empty_l|].
  replace (K + (fuel - K))%nat with fuel in E by lia. rewrite app_nil_r in E. exists (go, a). split; [|done].
  rewrite E. destruct go; [|done]. by replace (fuel - K)%nat with (S (fuel - K - 1)) by lia.
Qed.
End compare.
