(* ===== verification/RCLTxSet.v ===== *)
(** * Transaction sets ([app/consensus/RCLCxTx.h])

    [RCLTxSet] and [MutableRCLTxSet] wrap a [SHAMap] of transactions; their operations are those
    of the map on its contents (which the map implements, see [SHAMapProps.v]), and the identifier
    is the root hash.  A transaction is filed under its own hash, the hash of a leaf of type
    [tnTRANSACTION_NM].  The instance discharges what the consensus code relies on, for the
    transactions of a universe [X] without hash collisions.

    [getDifferences] stops after 65536 differences, those that the comparison of the two trees
    meets first; the order in which it meets them is the argument [met].  Its assertion that an
    item is in one of the two sets only holds as long as no two transactions have the same
    identifier. *)

From S2P Require Import Prelude Bytes NodeCodec SHANode SHAMapInv SHAMapDelta SHAMapDiff Consensus ConsensusCover.
Local Open Scope Z_scope.

Section RCL.
Context `{!Sha512Half} (X : bytes → Prop).
Context (met : Delta → list (uint256 * DeltaItem)).

(** The identifier of a transaction, which is the hash of its leaf. *)
Definition transaction_id (data : bytes) : uint256 := lhash tnTRANSACTION_NM [] data.

Record RCLCxTx := mkTx { tx_data : bytes; tx_in : X tx_data }.
Definition rcl_tx_getID (tx : RCLCxTx) : uint256 := transaction_id (tx_data tx).

Definition ids_match (M : gmap uint256 RCLCxTx) : Prop := ∀ k tx, M !! k = Some tx → rcl_tx_getID tx = k.

Record RCLTxSet := mkTxSet { map_ : gmap uint256 RCLCxTx; map_ids : ids_match map_ }.

Definition set_contents (s : RCLTxSet) : contents := tx_data <$> map_ s.

Definition rcl_getID (s : RCLTxSet) : uint256 := rhash tnTRANSACTION_NM (set_contents s).
Definition rcl_hasEntry (s : RCLTxSet) (entry : uint256) : bool := bool_decide (is_Some (map_ s !! entry)).
Definition rcl_getEntry (s : RCLTxSet) (entry : uint256) : option RCLCxTx := map_ s !! entry.
Definition max_differences : nat := N.to_nat 65536.
Definition rcl_getDifferences (s j : RCLTxSet) : list (uint256 * bool) :=
  (fun item => (item.1, bool_decide (is_Some item.2.1))) <$> take max_differences (met (diff (set_contents s) (set_contents j))).

(** [addItem] leaves a map that has the key alone. *)
Definition added (tx : RCLCxTx) (M : gmap uint256 RCLCxTx) : gmap uint256 RCLCxTx :=
  match M !! rcl_tx_getID tx with Some _ => M | None => <[rcl_tx_getID tx := tx]> M end.

Lemma added_ids tx M : ids_match M → ids_match (added tx M).
Proof.
  intros HM k v. unfold added. destruct (M !! rcl_tx_getID tx); [apply HM|].
  intros [[<- <-]|[_ ?]]%lookup_insert_Some; [done|by apply HM].
Qed.

Lemma delete_ids k M : ids_match M → ids_match (delete k M).
Proof. intros HM k' v [_ ?]%lookup_delete_Some. by apply HM. Qed.

Lemma empty_ids : ids_match ∅.
Proof. by intros k v. Qed.

Definition rcl_addEntry (tx : RCLCxTx) (s : RCLTxSet) : RCLTxSet :=
  mkTxSet (added tx (map_ s)) (added_ids tx _ (map_ids s)).
Definition rcl_removeEntry (entry : uint256) (s : RCLTxSet) : RCLTxSet :=
  mkTxSet (delete entry (map_ s)) (delete_ids entry _ (map_ids s)).

#[export] Instance RCLTxSet_ops : TxSetOps uint256 RCLCxTx RCLTxSet uint256 := {
  tx_getID := rcl_tx_getID; getID := rcl_getID; emptySet := mkTxSet ∅ empty_ids; hasEntry := rcl_hasEntry;
  getEntry := rcl_getEntry; getDifferences := rcl_getDifferences; addEntry := rcl_addEntry; removeEntry := rcl_removeEntry }.

Context (Hmet : ∀ D, met D ≡ₚ map_to_list D).
Context (Hinj : ∀ v v', X v → X v' → transaction_id v = transaction_id v' → v = v').

(** The sets differ at [k] only when exactly one of them has it. *)
Lemma rcl_differences (s1 s2 : RCLTxSet) k b :
  (k, b) ∈ rcl_getDifferences s1 s2 → rcl_hasEntry s1 k = b ∧ rcl_hasEntry s2 k = negb b.
Proof.
  unfold rcl_getDifferences, rcl_hasEntry. intros ([k' [a c]]&[= -> ->]&Hk)%list_elem_of_fmap.
  apply elem_of_take in Hk as (i&Hk%list_elem_of_lookup_2&_). rewrite Hmet, elem_of_map_to_list in Hk. cbn in Hk.
  rewrite lookup_diff in Hk. unfold set_contents in Hk. rewrite !lookup_fmap in Hk. case_decide as Hne; [done|]. injection Hk as <- <-.
  destruct (map_ s1 !! k') as [[v1 X1]|] eqn:E1, (map_ s2 !! k') as [[v2 X2]|] eqn:E2; try done. cbn in Hne. destruct Hne. f_equal.
  apply Hinj; [done..|]. pose proof (map_ids s1 _ _ E1) as H1. pose proof (map_ids s2 _ _ E2) as H2.
  unfold rcl_tx_getID in H1, H2. cbn in *. congruence.
Qed.

Lemma rcl_has_add s tx k : rcl_hasEntry (rcl_addEntry tx s) k = bool_decide (rcl_tx_getID tx = k) || rcl_hasEntry s k.
Proof.
  unfold rcl_hasEntry, rcl_addEntry. cbn [map_]. unfold added.
  destruct (decide (rcl_tx_getID tx = k)) as [<-|Hk]; [rewrite (bool_decide_true (_ = _)) by done|rewrite (bool_decide_false (_ = _)) by done];
    destruct (map_ s !! rcl_tx_getID tx) eqn:E; rewrite ?lookup_insert_eq, ?lookup_insert_ne, ?E by done; done.
Qed.

Lemma rcl_has_remove s k k' : rcl_hasEntry (rcl_removeEntry k s) k' = negb (bool_decide (k = k')) && rcl_hasEntry s k'.
Proof.
  unfold rcl_hasEntry, rcl_removeEntry. cbn [map_].
  destruct (decide (k = k')) as [<-|Hk]; [rewrite (bool_decide_true (_ = _)) by done|rewrite (bool_decide_false (_ = _)) by done];
    rewrite ?lookup_delete_eq, ?lookup_delete_ne by done; done.
Qed.

Lemma RCLTxSet_laws : TxSetLaws uint256 RCLCxTx RCLTxSet uint256.
Proof.
  split; [done|intros s k tx; apply map_ids|apply rcl_differences|apply rcl_has_add|apply rcl_has_remove].
Qed.

(** With a root hash that binds the contents, and no more transactions than a comparison reports,
    the sets are as exact as a complete round of disputes needs. *)
Context (Hroot : ∀ s1 s2, rcl_getID s1 = rcl_getID s2 → set_contents s1 = set_contents s2).
Context (universe : list bytes) (Huniverse : ∀ v, X v → v ∈ universe) (Hfew : (length universe <= max_differences)%nat).

Lemma rcl_has_contents s k : rcl_hasEntry s k = bool_decide (is_Some (set_contents s !! k)).
Proof. unfold rcl_hasEntry, set_contents. apply bool_decide_ext. by rewrite lookup_fmap, fmap_is_Some. Qed.

Lemma set_in_universe s k : is_Some (set_contents s !! k) → k ∈ (list_to_set (transaction_id <$> universe) : gset uint256).
Proof.
  unfold set_contents. rewrite lookup_fmap, fmap_is_Some. intros [tx Htx]. apply elem_of_list_to_set, list_elem_of_fmap.
  exists (tx_data tx). split; [symmetry; by apply (map_ids s)|apply Huniverse, tx_in].
Qed.

(** All differences are reported. *)
Lemma differences_reported s1 s2 : take max_differences (met (diff (set_contents s1) (set_contents s2))) ≡ₚ map_to_list (diff (set_contents s1) (set_contents s2)).
Proof.
  rewrite take_ge; [apply Hmet|]. rewrite Hmet, length_map_to_list, <-(size_dom (D := gset uint256)).
  etrans; [|exact Hfew]. rewrite <-(length_fmap transaction_id universe).
  transitivity (size (list_to_set (transaction_id <$> universe) : gset uint256)).
  - apply subseteq_size. intros k [x Hk]%elem_of_dom. rewrite lookup_diff in Hk. case_decide as Hne; [done|].
    destruct (set_contents s1 !! k) eqn:E1; [apply (set_in_universe s1); by eexists|].
    destruct (set_contents s2 !! k) eqn:E2; [apply (set_in_universe s2); by eexists|]. by destruct Hne.
  - generalize (transaction_id <$> universe) as l. induction l as [|x l IH]; cbn; [by rewrite size_empty|].
    rewrite size_union_alt, size_singleton. assert (size (list_to_set l ∖ {[x]} : gset uint256) <= size (list_to_set l : gset uint256))%nat
      by (apply subseteq_size; set_solver). lia.
Qed.

Lemma RCLTxSet_exact : TxSetExact uint256 RCLCxTx RCLTxSet uint256.
Proof.
  split; cbn [getID hasEntry getDifferences RCLTxSet_ops].
  - intros s1 s2 t E%Hroot. by rewrite !rcl_has_contents, E.
  - intros s1 s2 t Hne. rewrite !rcl_has_contents in Hne. exists (bool_decide (is_Some (set_contents s1 !! t))).
    assert ((set_contents s1 : gmap uint256 bytes) !! t ≠ set_contents s2 !! t) as Hd by (intros E; by rewrite E in Hne).
    pose proof (lookup_diff (set_contents s1) (set_contents s2) t) as Hl. rewrite decide_False in Hl by done.
    apply list_elem_of_fmap. eexists (t, _). split; [|rewrite differences_reported; apply elem_of_map_to_list; exact Hl].
    cbn. f_equal. apply bool_decide_ext. by rewrite fmap_is_Some.
Qed.
End RCL.
