(* ===== verification/SHAMapProps.v ===== *)
(** * Properties of the hash tree

    Programs of operations on maps and their snapshots: results, hashes, traversal and
    comparison. *)

From S2P Require Import Prelude Bytes NodeCodec SHANode SHAKeys SHAMap SHAMapInv SHAMapSteps.
From S2P Require Import SHAMapOps SHAMapAdd SHAMapDel SHAMapFlush SHAMapWorld SHAMapHash.
From S2P Require Import SHAMapIter SHAMapOrder SHAMapDelta SHAMapDiff.
Local Open Scope Z_scope.

(** The positions of the nodes of a path, the top first. *)
Fixpoint positions (id : uint256) (st : NodeStack) : Prop :=
  match st with
  | [] => True
  | (_, nid) :: st => nid = prefix_id (length st) id ∧ positions id st
  end.

Lemma walk_positions id fuel : ∀ p nid st h r st' h',
  is_key id → positions id st → nid = prefix_id (length st) id →
  walk_loop fuel id p nid st h = Ok ((r, st'), h') → positions id st'.
Proof.
  induction fuel as [|fuel IH]; intros p nid st h r st' h' Hid Hst Hn; [done|].
  cbn [walk_loop]. unfold mbind at 1, St_bind at 1. unfold load. destruct (h !! p) as [n|]; [|done].
  cbn [deref lift]. destruct n as [sq hash isb hs ch|sq hash t i].
  2: { intros [= <- <- <-]. by split. }
  unfold mbind at 1, St_bind at 1. destruct (selectBranch nid id) as [b|] eqn:Hb; [|done]. cbn [lift].
  assert (positions id ((p, nid) :: st)) as Hpos by (by split).
  destruct (isEmptyBranch isb b); [by intros [= <- <- <-]|].
  unfold descendThrow, mbind, St_bind. destruct (ch !! b) as [[q|]|]; cbn [deref lift]; [| |done].
  2: { by destruct (isEmptyBranch isb b). }
  destruct (getChildNodeID b nid) as [nid'|] eqn:Hc; [|done]. cbn [lift mret St_ret].
  apply IH; [done|done|]. subst nid. cbn [length].
  assert (length st < 64)%nat as Hlt.
  { unfold getChildNodeID in Hc. cbn [prefix_id mDepth] in Hc.
    destruct (Nat.ltb_spec (length st) 64); [done|]. by destruct (Nat.ltb b 16). }
  rewrite selectBranch_ok in Hb by (done || (simpl; lia)). injection Hb as <-.
  cbn [prefix_id mDepth] in Hc. rewrite prefix_child in Hc by done. by injection Hc as <-.
Qed.

Section props.
Context `{!Sha512Half} (isTransaction hasMeta : bool).
Abbreviation T := (leaf_type isTransaction hasMeta).
Abbreviation exec_all := (exec_all isTransaction hasMeta).
Abbreviation spec_all := (spec_all isTransaction hasMeta).
Abbreviation world := (world isTransaction hasMeta).

(** The end of a program that the specification admits: with enough fuel, the maps [ms] in
    the memory [h]. *)
Definition reaches (os : list op) (rs : list outcome) (ms : list SHAMap) (h : heap) : Prop :=
  ∃ K, ∀ fuel, (K <= fuel)%nat → exec_all fuel os [] ∅ = Ok ((rs, ms), h).

Definition short (os : list op) : Prop := Z.of_nat (length os) < 2 ^ 32 - 1.

Lemma program_world os rs As :
  short os → spec_all os [] = Some (rs, As) →
  ∃ b ms h, reaches os rs ms h ∧ world b h ms As.
Proof.
  intros Hl Hspec. destruct (sim_all isTransaction hasMeta os 1 ∅ [] [] rs As) as (K&ms&h&Hrun&Hw).
  - apply world_nil.
  - lia.
  - unfold short in Hl. lia.
  - done.
  - eexists _, ms, h. split; [by exists K|exact Hw].
Qed.

Lemma world_map b h ms As i M mut :
  world b h ms As → As !! i = Some (M, mut) →
  ∃ m fp, ms !! i = Some m ∧ map_ok isTransaction hasMeta b h m (M, mut) fp.
Proof. intros Hw HA. destruct (world_lookup _ _ b h ms As i _ Hw HA) as (m&fp&Hm&Hok&_). eauto. Qed.

(** [compare] on two maps of a world. *)
Lemma compare_world b h ms As i j M1 M2 mu1 mu2 X :
  (∀ x, length (sha512Half x) = 32%nat) → resists X → named T M1 → named T M2 →
  (∀ x, x ∈ root_hashed T M1 → x ∈ X) → (∀ x, x ∈ root_hashed T M2 → x ∈ X) →
  world b h ms As → i ≠ j → As !! i = Some (M1, mu1) → As !! j = Some (M2, mu2) →
  ∃ m1 m2 K, ms !! i = Some m1 ∧ ms !! j = Some m2 ∧
    ∀ fuel c, (K <= fuel)%nat → 0 < c →
      ∃ go D m1' m2' h', SHAMap_compare fuel c m1 m2 h = Ok (((go, D), (m1', m2')), h')
        ∧ (go = true ∧ Z.of_nat (size (diff M1 M2)) < c ∧ D = diff M1 M2
           ∨ go = false ∧ c <= Z.of_nat (size (diff M1 M2)) ∧ D ⊆ diff M1 M2 ∧ Z.of_nat (size D) = c).
Proof.
  intros Hlen HX Hnm1 Hnm2 Hx1 Hx2 Hw Hij H1 H2.
  destruct (world_lookup _ _ b h ms As i _ Hw H1) as (m1&fp1&Hm1&Hok1&Hupd).
  destruct (getHash_map _ _ b h m1 _ fp1 Hok1) as (K1&m1'&h1&Hg1&Hok1'&He1).
  pose proof (Hupd h1 ∅ m1' (M1, mu1) He1 Hok1') as Hw1.
  assert (<[i := (M1, mu1)]> As !! j = Some (M2, mu2)) as H2' by (by rewrite list_lookup_insert_ne).
  destruct (world_lookup _ _ b h1 _ _ j _ Hw1 H2') as (m2&fp2&Hm2&Hok2&_).
  rewrite list_lookup_insert_ne in Hm2 by done.
  destruct (getHash_map _ _ b h1 m2 _ fp2 Hok2) as (K2&m2'&h2&Hg2&Hok2'&He2).
  assert (root_repr T h2 (seq_ m1') (root_ m1') M1 ∅) as Hr1.
  { eapply root_frame; [exact (mo_repr _ _ _ _ _ _ _ Hok1')|]. eapply evolves_preserved; [done|apply disjoint_empty_l]. }
  pose proof (mo_repr _ _ _ _ _ _ _ Hok2') as Hr2. cbn [fst] in Hr2.
  pose proof (mo_wf _ _ _ _ _ _ _ Hok1) as Hwf1. pose proof (mo_wf _ _ _ _ _ _ _ Hok2) as Hwf2. cbn [fst] in *.
  destruct (compare_loop_ok T h2 (seq_ m1') (seq_ m2') (T_leaf _ _) Hlen X HX (root_ m1') (root_ m2') M1 M2)
    as (K3&Hcl); [done..|].
  exists m1, m2, (K1 + K2 + K3)%nat. split_and!; [done|done|]. intros fuel c Hf Hc. unfold SHAMap_compare.
  assert (∀ b m A fp h, map_ok isTransaction hasMeta b h m A fp → bool_decide (state_ m = Invalid) = false) as Hst.
  { intros b0 m A fp h0 Hok. apply bool_decide_false. rewrite (mo_state _ _ _ _ _ _ _ Hok). by destruct A.2. }
  rewrite (Hst _ _ _ _ _ Hok1), (Hst _ _ _ _ _ Hok2). cbn [negb andb].
  rewrite (St_bind_ok _ _ _ _ _ (assert_run true h eq_refl)).
  rewrite (St_bind_ok _ _ _ _ _ (Hg1 fuel ltac:(lia))), (St_bind_ok _ _ _ _ _ (Hg2 fuel ltac:(lia))). cbv beta iota.
  destruct (decide (rhash T M1 = rhash T M2)) as [E|Hne].
  - apply (rhash_binding T Hlen X HX) in E as ->; [|apply T_leaf|done..].
    exists true, ∅, m1', m2', h2. split; [done|]. left. rewrite diff_same, map_size_empty. split_and!; [done|lia|done].
  - destruct (Hcl fuel c ltac:(lia) Hc) as ([go [D c']]&Hrun&Hrep). rewrite (St_bind_ok _ _ _ _ _ Hrun). cbv beta iota.
    exists go, D, m1', m2', h2. split; [done|].
    destruct Hrep as [(Hgo&Hs&E)|(Hgo&Hs&_&Hsub&Hsz)]; cbn [fst snd] in *.
    + left. injection E as -> _. by rewrite map_empty_union.
    + right. rewrite map_empty_union in Hsub. rewrite map_size_empty in Hsz. split_and!; [done|done|done|lia].
Qed.

Lemma spec_all_app os1 : ∀ os2 As rs1 As1 rs2 As2,
  spec_all os1 As = Some (rs1, As1) → spec_all os2 As1 = Some (rs2, As2) →
  spec_all (os1 ++ os2) As = Some (rs1 ++ rs2, As2).
Proof.
  induction os1 as [|o os1 IH]; intros os2 As rs1 As1 rs2 As2 H1 H2; cbn [app SHAMapWorld.spec_all] in *.
  - by simplify_eq.
  - destruct (spec isTransaction hasMeta o As) as [[r As']|]; [|done].
    destruct (spec_all os1 As') as [[rs' As'']|] eqn:E; [|done]. simplify_eq.
    by rewrite (IH os2 As' rs' As1 rs2 As2 E H2).
Qed.

Lemma spec_hash i As M mut :
  As !! i = Some (M, mut) → spec isTransaction hasMeta (Hash i) As = Some (OHash (rhash T M), As).
Proof. intros HA. cbn [spec]. unfold spec_read. by rewrite HA. Qed.

(** ** Claims *)

(** C3: A program of operations on hash trees (creating, adding, changing, deleting,
    looking up, hashing, mutable and immutable snapshots, which share nodes by copy on
    write) that the specification by finite maps admits runs to its end without a failed
    assertion or bad pointer and gives the results of the specification: no operation on
    a map is seen by its snapshots, and hashes are those of the contents. *)
Theorem shamap_refines os rs As :
  short os → spec_all os [] = Some (rs, As) →
  ∃ K, ∀ fuel, (K <= fuel)%nat → ∃ ms h, exec_all fuel os [] ∅ = Ok ((rs, ms), h).
Proof.
  intros Hl Hspec. destruct (program_world os rs As Hl Hspec) as (b&ms&h&[K HK]&_).
  exists K. intros fuel Hf. exists ms, h. by apply HK.
Qed.

(** C8: When the digest gives 32 bytes, does not collide on what the two trees hash and
    is not zero there, getHash gives two maps of any program of fewer than 2^32 - 1
    operations the same hash exactly when they hold the same items, whatever the
    histories that made them; in maps of transactions without metadata, whose leaf hash
    does not cover the key, this asks that every item is stored under the digest of its
    data, as transactions are. *)
Theorem shamap_hash_binds os rs As i j M1 M2 mu1 mu2 :
  (∀ x, length (sha512Half x) = 32%nat) → short (os ++ [Hash i; Hash j]) →
  spec_all os [] = Some (rs, As) → As !! i = Some (M1, mu1) → As !! j = Some (M2, mu2) → named T M1 → named T M2 →
  resists (root_hashed T M1 ++ root_hashed T M2) →
  ∃ a1 a2 K, (a1 = a2 ↔ M1 = M2) ∧
    ∀ fuel, (K <= fuel)%nat → ∃ ms h,
      exec_all fuel (os ++ [Hash i; Hash j]) [] ∅ = Ok ((rs ++ [OHash a1; OHash a2], ms), h).
Proof.
  intros Hlen Hl Hspec H1 H2 Hnm1 Hnm2 HX.
  destruct (program_world os rs As) as (b0&ms0&h0&_&Hw0); [unfold short in *; rewrite length_app in Hl; lia|done|].
  destruct (world_map _ _ _ _ _ _ _ Hw0 H1) as (m1&fp1&_&Hok1), (world_map _ _ _ _ _ _ _ Hw0 H2) as (m2&fp2&_&Hok2).
  pose proof (mo_wf _ _ _ _ _ _ _ Hok1) as Hwf1. pose proof (mo_wf _ _ _ _ _ _ _ Hok2) as Hwf2. cbn [fst] in *.
  assert (spec_all [Hash i; Hash j] As = Some ([OHash (rhash T M1); OHash (rhash T M2)], As)) as Hsp
    by (cbn [SHAMapWorld.spec_all]; by rewrite (spec_hash i As M1 mu1 H1), (spec_hash j As M2 mu2 H2)).
  destruct (program_world _ _ _ Hl (spec_all_app os _ [] rs As _ As Hspec Hsp)) as (b&ms&h&[K HK]&_).
  exists (rhash T M1), (rhash T M2), K. split; [split; [|by intros ->]|].
  - apply (rhash_binding T Hlen _ HX); [apply T_leaf|done|done|done|done|..]; intros x Hx; apply elem_of_app; auto.
  - intros fuel Hf. exists ms, h. by apply HK.
Qed.

(** C20: compare with a positive maxCount on two different map objects of a program of
    fewer than 2^32 - 1 operations terminates; when fewer than maxCount keys differ it
    reports exactly the keys that differ, each with the items of the two maps, and true;
    otherwise it reports false and maxCount of the differences. This asks that the
    digest gives 32 bytes, does not collide on what the two trees hash and is not zero
    there, and, in maps of transactions without metadata, whose leaf hash does not cover
    the key, that every item is stored under the digest of its data, as in the sets
    consensus compares. *)
Theorem shamap_compare_exact os rs As i j M1 M2 mu1 mu2 :
  (∀ x, length (sha512Half x) = 32%nat) → short os →
  spec_all os [] = Some (rs, As) → i ≠ j → As !! i = Some (M1, mu1) → As !! j = Some (M2, mu2) → named T M1 → named T M2 →
  resists (root_hashed T M1 ++ root_hashed T M2) →
  ∃ ms h m1 m2 K, reaches os rs ms h ∧ ms !! i = Some m1 ∧ ms !! j = Some m2 ∧
    ∀ fuel c, (K <= fuel)%nat → 0 < c →
      ∃ go D ms' h', SHAMap_compare fuel c m1 m2 h = Ok (((go, D), ms'), h')
        ∧ (go = true ∧ Z.of_nat (size (diff M1 M2)) < c ∧ D = diff M1 M2
           ∨ go = false ∧ c <= Z.of_nat (size (diff M1 M2)) ∧ D ⊆ diff M1 M2 ∧ Z.of_nat (size D) = c).
Proof.
  intros Hlen Hl Hspec Hij H1 H2 Hnm1 Hnm2 HX. destruct (program_world os rs As Hl Hspec) as (b&ms&h&Hreach&Hw).
  destruct (compare_world b h ms As i j M1 M2 mu1 mu2 _ Hlen HX Hnm1 Hnm2) as (m1&m2&K&Hm1&Hm2&Hc); try done.
  - intros x Hx. apply elem_of_app. by left.
  - intros x Hx. apply elem_of_app. by right.
  - exists ms, h, m1, m2, K. split_and!; [done..|]. intros fuel c Hf Hpos.
    destruct (Hc fuel c Hf Hpos) as (go&D&m1'&m2'&h'&Hrun&Hres). exists go, D, (m1', m2'), h'. done.
Qed.

(** C32: Iterating over a map from begin() to end() visits every item once, in the order
    of the keys as 256-bit numbers, and stops. *)
Theorem shamap_iterates os rs As :
  short os → spec_all os [] = Some (rs, As) →
  ∃ ms h, reaches os rs ms h ∧ ∀ i M mut, As !! i = Some (M, mut) →
    ∃ m L, ms !! i = Some m ∧ (∀ fuel, (size M < fuel)%nat → iterate fuel m h = Ok (L, h))
      ∧ StronglySorted (fun a b => key_lt (item_key a) (item_key b)) L
      ∧ ∀ k v, mkItem k v ∈ L ↔ M !! k = Some v.
Proof.
  intros Hl Hspec. destruct (program_world os rs As Hl Hspec) as (b&ms&h&Hreach&Hw).
  exists ms, h. split; [done|]. intros i M mut HA. destruct (world_map b h ms As i M mut Hw HA) as (m&fp&Hm&Hok).
  pose proof (mo_wf _ _ _ _ _ _ _ Hok) as HwM. cbn [fst] in HwM.
  assert (common 0 M) as Hc by (intros x y _ _ _ _ j Hj; lia).
  exists m, (to_items (items 64 0 M)). split_and!; [done| | |].
  - intros fuel Hf. by apply (iterate_run T (seq_ m) h M (T_leaf _ _) HwM fuel m fp (mo_repr _ _ _ _ _ _ _ Hok)).
  - pose proof (items_sorted 64 0 M eq_refl HwM Hc) as Hs. unfold to_items.
    induction Hs as [|x L Hs IH Hx]; [constructor|]. rewrite fmap_cons. constructor; [done|].
    apply Forall_fmap. eapply Forall_impl; [done|]. by intros.
  - intros k v. rewrite <-(elem_of_items 64 0 M k v eq_refl HwM Hc). unfold to_items. rewrite list_elem_of_fmap. split.
    + by intros ([k' v']&[= -> ->]&Hin).
    + intros Hin. by exists (k, v).
Qed.

(** upper_bound of a key, which need not be in the map, gives the item with the least
    greater key, and end() exactly when there is none. *)
Theorem shamap_upper_bound os rs As :
  short os → spec_all os [] = Some (rs, As) →
  ∃ ms h, reaches os rs ms h ∧ ∀ i M mut id, As !! i = Some (M, mut) → length id = 32%nat →
    ∃ m r st, ms !! i = Some m ∧ upper_bound id m h = Ok ((r, st), h) ∧
      match r with
      | None => ∀ k v, M !! k = Some v → compare k id <= 0
      | Some p => ∃ k v sq, h !! p = Some (TreeNode sq (lhash T k v) T (mkItem k v))
          ∧ M !! k = Some v ∧ 0 < compare k id
          ∧ ∀ k' v', M !! k' = Some v' → 0 < compare k' id → k' = k ∨ key_lt k k'
      end.
Proof.
  intros Hl Hspec. destruct (program_world os rs As Hl Hspec) as (b&ms&h&Hreach&Hw).
  exists ms, h. split; [done|]. intros i M mut id HA Hid.
  destruct (world_map b h ms As i M mut Hw HA) as (m&fp&Hm&Hok).
  pose proof (mo_wf _ _ _ _ _ _ _ Hok) as HwM. cbn [fst] in HwM.
  assert (common 0 M) as Hc by (intros x y _ _ _ _ j Hj; lia).
  destruct (upper_bound_ok T (seq_ m) h M HwM id m fp Hid (mo_repr _ _ _ _ _ _ _ Hok)) as (r&st&Hrun&Hf).
  exists m, r, st. split_and!; [done|done|].
  assert (∀ k v, M !! k = Some v → 0 < compare k id → (k, v) ∈ gt id (items 64 0 M)) as Hin.
  { intros k v Hk Hgt. apply list_elem_of_filter. split; [done|]. by apply elem_of_items. }
  destruct (gt id (items 64 0 M)) as [|[k v] L] eqn:Hg; cbn [found] in Hf.
  - subst r. intros k v Hk. apply Z.nlt_ge. intros Hgt. specialize (Hin k v Hk Hgt). by apply elem_of_nil in Hin.
  - destruct Hf as (q&nid&st1&sq&->&_&Hq&_&HM&_). exists k, v, sq. split_and!; [done|done| |].
    + assert ((k, v) ∈ gt id (items 64 0 M)) as Hkv by (rewrite Hg; by left).
      by apply list_elem_of_filter in Hkv as [? _].
    + intros k' v' Hk' Hgt. specialize (Hin k' v' Hk' Hgt). apply elem_of_cons in Hin as [[= -> ->]|Hin]; [by left|right].
      assert (sorted (gt id (items 64 0 M))) as Hs
        by (apply sorted_filter; by apply items_sorted).
      rewrite Hg in Hs. apply StronglySorted_inv in Hs as [_ Hx]. rewrite Forall_forall in Hx. by apply (Hx (k', v')).
Qed.

(** C33: Making a map shareable takes at most 17 + 1071 n rounds of the flushing loop
    for n items, and ends with a shared root whose hash is the hash of the contents. *)
Theorem unshare_terminates os rs As :
  short os → spec_all os [] = Some (rs, As) →
  ∃ ms h, reaches os rs ms h ∧ ∀ i M mut, As !! i = Some (M, mut) →
    ∃ m fl m' h' nd, ms !! i = Some m
      ∧ (∀ fuel, (17 + 1071 * size M <= fuel)%nat → unshare fuel m h = Ok ((fl, m'), h'))
      ∧ h' !! root_ m' = Some nd ∧ getSeq nd = 0 ∧ getNodeHash nd = rhash T M.
Proof.
  intros Hl Hspec. destruct (program_world os rs As Hl Hspec) as (b&ms&h&Hreach&Hw).
  exists ms, h. split; [done|]. intros i M mut HA.
  destruct (world_map b h ms As i M mut Hw HA) as (m&fp&Hm&[Hr HwM Hs _ _]). cbn [fst] in *.
  destruct (unshare_gen T (seq_ m) m (T_leaf _ _) ltac:(lia) ltac:(lia) h M fp HwM Hr) as (fl&m'&h'&Hrun&Hr'&_).
  destruct (root_clean_hash T h' (seq_ m) (root_ m') M Hr') as (nd&Hnd&Hz&Hh).
  exists m, fl, m', h', nd. split_and!; [done| |done|done|done]. intros fuel Hf. apply Hrun. unfold unshare_steps. lia.
Qed.

(** C34: The path that walkTowardsKey gives for a key has between one and 65 nodes, and
    the position recorded with each is the prefix of the key of the length of its depth,
    with the other digits zero. *)
Theorem walk_path_typed os rs As :
  short os → spec_all os [] = Some (rs, As) →
  ∃ ms h, reaches os rs ms h ∧ ∀ i M mut id, As !! i = Some (M, mut) → length id = 32%nat →
    ∃ m r st, ms !! i = Some m ∧ walkTowardsKey id m h = Ok ((r, st), h)
      ∧ (1 <= length st <= 65)%nat ∧ positions id st.
Proof.
  intros Hl Hspec. destruct (program_world os rs As Hl Hspec) as (b&ms&h&Hreach&Hw).
  exists ms, h. split; [done|]. intros i M mut id HA Hid.
  destruct (world_map b h ms As i M mut Hw HA) as (m&fp&Hm&Hok).
  destruct (walkTowardsKey_ok T id M m h fp Hid (mo_repr _ _ _ _ _ _ _ Hok)) as (r&q&nid&st&Hrun&He&_).
  exists m, r, ((q, nid) :: st). split_and!; [done|done|simpl; lia| |].
  - cbn [length]. destruct He as (_&_&He). destruct r; [destruct He as (_&[_ ?]&_); lia|destruct He as (?&_); lia].
  - eapply (walk_positions id 65 (root_ m) NodeID_root []); [done|done|by apply prefix_root|exact Hrun].
Qed.

(** updateGiveItem for a key that is not in the map fails its assertion. *)
Theorem update_missing_asserts os rs As :
  short os → spec_all os [] = Some (rs, As) →
  ∃ ms h, reaches os rs ms h ∧ ∀ i M k v, As !! i = Some (M, true) → length k = 32%nat →
    M !! k = None →
    ∃ m, ms !! i = Some m
      ∧ updateGiveItem (mkItem k v) isTransaction hasMeta m h = Err assert_failed.
Proof.
  intros Hl Hspec. destruct (program_world os rs As Hl Hspec) as (b&ms&h&Hreach&Hw).
  exists ms, h. split; [done|]. intros i M k v HA Hk HM.
  destruct (world_map b h ms As i M true Hw HA) as (m&fp&Hm&[Hr HwM Hs Hst _]). exists m. split; [done|].
  eapply (updateGiveItem_missing T); [|done|exact HM|exact Hr]. split; [lia|done].
Qed.
End props.

(** ** Examples *)

Fixpoint z_bytes (n : nat) (z : Z) : bytes :=
  match n with O => [] | S n => byte_of z :: z_bytes n (Z.shiftr z 8) end.

(** A digest to evaluate the examples with. *)
Definition sum_digest : Sha512Half := fun x =>
  z_bytes 32 (fold_left (fun a b => (a * 31 + bval b + 1) mod 2147483647) x 7).

Lemma sum_digest_length x : length (sum_digest x) = 32%nat.
Proof. done. Qed.

Definition ex_key (b : byte) : uint256 := b :: replicate 31 x00.
Definition ex_data (b : byte) : bytes := replicate 12 b.

(** Two items below one branch; a snapshot that then changes; a snapshot that does not. *)
Definition ex_program : list op :=
  [New; Add 0 (ex_key x10) (ex_data x01); Add 0 (ex_key x11) (ex_data x02); Snap 0 true;
   Delete 1 (ex_key x10); Add 1 (ex_key xf0) (ex_data x03); Snap 1 false;
   Update 1 (ex_key x11) (ex_data x04); Peek 0 (ex_key x10); Has 1 (ex_key x10)].

#[local] Existing Instance sum_digest.

(** What a program is specified to do. *)
Definition out_of (isTransaction hasMeta : bool) (os : list op) : list outcome * list (contents * bool) :=
  default ([], []) (SHAMapWorld.spec_all isTransaction hasMeta os []).

Lemma out_spec isTransaction hasMeta os :
  bool_decide (is_Some (SHAMapWorld.spec_all isTransaction hasMeta os [])) = true →
  SHAMapWorld.spec_all isTransaction hasMeta os [] = Some ((out_of isTransaction hasMeta os).1, (out_of isTransaction hasMeta os).2).
Proof. intros [[rs As] E]%bool_decide_eq_true. unfold out_of. by rewrite E. Qed.

Lemma out_lookup (As : list (contents * bool)) n b :
  match As !! n with Some (_, b') => Bool.eqb b b' | None => false end = true →
  As !! n = Some ((default (∅, true) (As !! n)).1, b).
Proof. destruct (As !! n) as [[M b']|]; [|done]. intros ->%Bool.eqb_prop. done. Qed.

Definition ex_out : list outcome * list (contents * bool) := out_of false false ex_program.
Definition ex_contents (n : nat) : contents := (default (∅, true) (ex_out.2 !! n)).1.

Lemma ex_spec : SHAMapWorld.spec_all false false ex_program [] = Some (ex_out.1, ex_out.2).
Proof. apply out_spec. by vm_compute. Qed.

Lemma ex_lookup n b :
  match ex_out.2 !! n with Some (_, b') => Bool.eqb b b' | None => false end = true →
  ex_out.2 !! n = Some (ex_contents n, b).
Proof. apply out_lookup. Qed.

Lemma ex_resists :
  resists (root_hashed tnACCOUNT_STATE (ex_contents 0) ++ root_hashed tnACCOUNT_STATE (ex_contents 1)).
Proof. apply (bool_decide_eq_true_1 _). by vm_compute. Qed.

(** Sets of transactions, as consensus compares them: the second has one more. *)
Definition tx_key (v : bytes) : uint256 := sum_digest (field_bytes uint32_t transactionID ++ v).
Definition tx_program : list op :=
  [New; Add 0 (tx_key (ex_data x01)) (ex_data x01); Add 0 (tx_key (ex_data x02)) (ex_data x02); Snap 0 true;
   Add 1 (tx_key (ex_data x03)) (ex_data x03)].

Definition tx_out : list outcome * list (contents * bool) := out_of true false tx_program.
Definition tx_contents (n : nat) : contents := (default (∅, true) (tx_out.2 !! n)).1.

Lemma tx_named n : bool_decide (map_Forall (fun k v => k = tx_key v) (tx_contents n)) = true → named tnTRANSACTION_NM (tx_contents n).
Proof. intros Hn%bool_decide_eq_true _ k v Hk. exact (Hn k v Hk). Qed.

Lemma tx_resists :
  resists (root_hashed tnTRANSACTION_NM (tx_contents 0) ++ root_hashed tnTRANSACTION_NM (tx_contents 1)).
Proof. apply (bool_decide_eq_true_1 _). by vm_compute. Qed.

Lemma shamap_refines_witness :
  ∃ K, ∀ fuel, (K <= fuel)%nat →
    ∃ ms h, SHAMapWorld.exec_all false false fuel ex_program [] ∅ = Ok ((ex_out.1, ms), h).
Proof. apply (shamap_refines false false ex_program ex_out.1 ex_out.2); [by vm_compute|apply ex_spec]. Defined.

(** Maps 0 and 1 of the example have different hashes. *)
Lemma shamap_hash_binds_witness :
  ∃ a1 a2 K, (a1 = a2 ↔ ex_contents 0 = ex_contents 1) ∧
    ∀ fuel, (K <= fuel)%nat → ∃ ms h,
      SHAMapWorld.exec_all false false fuel (ex_program ++ [Hash 0; Hash 1]) [] ∅
      = Ok ((ex_out.1 ++ [OHash a1; OHash a2], ms), h).
Proof.
  apply (shamap_hash_binds false false ex_program ex_out.1 ex_out.2 0 1 _ _ true true).
  - apply sum_digest_length.
  - by vm_compute.
  - apply ex_spec.
  - apply ex_lookup. by vm_compute.
  - apply ex_lookup. by vm_compute.
  - by intros [=].
  - by intros [=].
  - apply ex_resists.
Defined.

Lemma shamap_compare_exact_witness :
  ∃ ms h m1 m2 K, reaches true false tx_program tx_out.1 ms h ∧ ms !! 0%nat = Some m1 ∧ ms !! 1%nat = Some m2 ∧
    ∀ fuel c, (K <= fuel)%nat → 0 < c →
      ∃ go D ms' h', SHAMap_compare fuel c m1 m2 h = Ok (((go, D), ms'), h')
        ∧ (go = true ∧ Z.of_nat (size (diff (tx_contents 0) (tx_contents 1))) < c ∧ D = diff (tx_contents 0) (tx_contents 1)
           ∨ go = false ∧ c <= Z.of_nat (size (diff (tx_contents 0) (tx_contents 1)))
             ∧ D ⊆ diff (tx_contents 0) (tx_contents 1) ∧ Z.of_nat (size D) = c).
Proof.
  apply (shamap_compare_exact true false tx_program tx_out.1 tx_out.2 0 1 _ _ true true).
  - apply sum_digest_length.
  - by vm_compute.
  - apply out_spec. by vm_compute.
  - done.
  - apply out_lookup. by vm_compute.
  - apply out_lookup. by vm_compute.
  - apply tx_named. by vm_compute.
  - apply tx_named. by vm_compute.
  - apply tx_resists.
Defined.

(** Three keys differ in the first example (one deleted, one added, one changed), one in the second. *)
Lemma ex_diff_size :
  size (diff (ex_contents 0) (ex_contents 1)) = 3%nat ∧ size (diff (tx_contents 0) (tx_contents 1)) = 1%nat.
Proof. by vm_compute. Qed.

Lemma shamap_iterates_witness :
  ∃ ms h, reaches false false ex_program ex_out.1 ms h ∧
    ∃ m L, ms !! 1%nat = Some m
      ∧ (∀ fuel, (size (ex_contents 1) < fuel)%nat → iterate fuel m h = Ok (L, h))
      ∧ StronglySorted (fun a b => key_lt (item_key a) (item_key b)) L
      ∧ ∀ k v, mkItem k v ∈ L ↔ ex_contents 1 !! k = Some v.
Proof.
  destruct (shamap_iterates false false ex_program ex_out.1 ex_out.2) as (ms&h&Hr&Hi); [by vm_compute|apply ex_spec|].
  exists ms, h. split; [exact Hr|]. apply (Hi 1%nat _ true). apply ex_lookup. by vm_compute.
Defined.

Lemma shamap_upper_bound_witness :
  ∃ ms h, reaches false false ex_program ex_out.1 ms h ∧
    ∃ m r st, ms !! 0%nat = Some m ∧ upper_bound (ex_key x10) m h = Ok ((r, st), h) ∧
      match r with
      | None => ∀ k v, ex_contents 0 !! k = Some v → compare k (ex_key x10) <= 0
      | Some p => ∃ k v sq, h !! p = Some (TreeNode sq (lhash tnACCOUNT_STATE k v) tnACCOUNT_STATE (mkItem k v))
          ∧ ex_contents 0 !! k = Some v ∧ 0 < compare k (ex_key x10)
          ∧ ∀ k' v', ex_contents 0 !! k' = Some v' → 0 < compare k' (ex_key x10) → k' = k ∨ key_lt k k'
      end.
Proof.
  destruct (shamap_upper_bound false false ex_program ex_out.1 ex_out.2) as (ms&h&Hr&Hi); [by vm_compute|apply ex_spec|].
  exists ms, h. split; [exact Hr|]. apply (Hi 0%nat _ true); [apply ex_lookup; by vm_compute|reflexivity].
Defined.

Lemma unshare_terminates_witness :
  ∃ ms h, reaches false false ex_program ex_out.1 ms h ∧
    ∃ m fl m' h' nd, ms !! 1%nat = Some m
      ∧ (∀ fuel, (17 + 1071 * size (ex_contents 1) <= fuel)%nat → unshare fuel m h = Ok ((fl, m'), h'))
      ∧ h' !! root_ m' = Some nd ∧ getSeq nd = 0 ∧ getNodeHash nd = rhash tnACCOUNT_STATE (ex_contents 1).
Proof.
  destruct (unshare_terminates false false ex_program ex_out.1 ex_out.2) as (ms&h&Hr&Hi); [by vm_compute|apply ex_spec|].
  exists ms, h. split; [exact Hr|]. apply (Hi 1%nat _ true). apply ex_lookup. by vm_compute.
Defined.

Lemma walk_path_typed_witness :
  ∃ ms h, reaches false false ex_program ex_out.1 ms h ∧
    ∃ m r st, ms !! 0%nat = Some m ∧ walkTowardsKey (ex_key x11) m h = Ok ((r, st), h)
      ∧ (1 <= length st <= 65)%nat ∧ positions (ex_key x11) st.
Proof.
  destruct (walk_path_typed false false ex_program ex_out.1 ex_out.2) as (ms&h&Hr&Hi); [by vm_compute|apply ex_spec|].
  exists ms, h. split; [exact Hr|]. apply (Hi 0%nat (ex_contents 0) true); [apply ex_lookup; by vm_compute|reflexivity].
Defined.

Lemma update_missing_asserts_witness :
  ∃ ms h, reaches false false ex_program ex_out.1 ms h ∧
    ∃ m, ms !! 1%nat = Some m ∧
      updateGiveItem (mkItem (ex_key x10) (ex_data x05)) false false m h = Err assert_failed.
Proof.
  destruct (update_missing_asserts false false ex_program ex_out.1 ex_out.2) as (ms&h&Hr&Hi); [by vm_compute|apply ex_spec|].
  exists ms, h. split; [exact Hr|].
  apply (Hi 1%nat (ex_contents 1)); [apply ex_lookup; by vm_compute|reflexivity|by vm_compute].
Defined.
